(* ===== verification/_CoqProject ===== *)
-Q . S2P
Prelude.v
Support.v
Mem.v
Bitstream.v
Types.v
Values.v
ConstExpr.v
Globals.v
Heap.v
Libc.v
VmOps.v
Fp.v
Vm.v
Instr.v
Emit.v
VmArith.v
VmEmit.v
VmBranch.v
VmSwitch.v
VmFunction.v
PhiLift.v
Cfg.v
Liveness.v
RegAlloc.v
Coalesce.v
Analysis.v
Machine.v
RegSim.v
DeadCode.v
Bitcode.v
Document.v
Unit.v
FuncParse.v
FuncWrite.v
FuncSsa.v
Calls.v
Replace.v
