(* ===== verification/Prelude.v ===== *)
(** * VMIR: a verification library

    VMIR loads LLVM bitcode, transforms each function until it fits a register
    machine, emits code for that machine and interprets it. The parts, in the
    order in which data goes through them, and the files that model them:

    - The bit stream reader ([src/src/vmir_bitstream.c]): [Bitstream].
    - The bitcode parser ([src/src/vmir_bitcode_parser.c]): [Bitcode] has
      blocks, abbreviations, records and [vmir_load] up to the parser, with the
      handlers as an interface ([client]); [Document] writes files and shows
      what is read of them. [Unit] has the unit and the handlers of module,
      attribute, symbol table and constants records.
    - The parser of function blocks ([parse_*] in
      [src/src/vmir_instr_parse.c]): [FuncParse]; [FuncWrite] writes functions
      as records, [FuncSsa] is about any records.
    - Types ([src/src/vmir_type.c]): [Types]. The table, sizes, the decoding of
      type records and the layout of structures.
    - Values ([src/src/vmir_value.c]): [Values], and [ConstExpr] for constant
      expressions; [Globals] writes the initial memory ([src/src/vmir.c],
      [initialize_globals]).
    - Instructions and blocks ([src/src/vmir.c], [src/src/vmir_instr_parse.c]):
      [Instr]. A block is a number and a list of instructions; the list of a
      value's instructions ([iv_instructions]) is not kept, "the instructions
      that mention the value" takes its place.
    - The transformations ([src/src/vmir_transform.c]), one file per pass:
      [Cfg] (edges, critical edges, [remove_empty_bb]), [PhiLift]
      ([exit_ssa]), [DeadCode] ([eliminate_dead_code]), [Liveness]
      ([liveness_update]), [RegAlloc] (interference, [reg_alloc],
      [finalize_call_args]), [Coalesce] (the merging of values, [coalesce] and
      [liveness_analysis] as a whole) and [Analysis] (what all that gives).
    - The code generator ([src/src/vmir_vm.c], [emit_*]): [Emit], with the
      instruction set in [VmOps].
    - The interpreter ([src/src/vmir_vm.c], [vm_exec]): [Vm], over the memory
      of [Mem] ([src/src/vmir_mem.c]) and the floating point of [Fp].
    - The run-time library ([src/src/vmir_libc.c]): [Heap] and [Libc].
    - Helpers ([src/src/vmir_support.c], the triangular matrix): [Support].

    A C function is a definition of the same name in the error monad [res] of
    this file; what it changes is passed in and returned. A failure says how
    the C function stops: [parser_error], a failed assertion, [abort], or an
    access or operation that C leaves undefined. Machine integers are [Z] with
    their wrap-around ([u32], [s32], ...) written where the C type has it.

    ** What the theorems show

    - Input: a reader returns the bits of its stream in order; VBR integers and
      record arguments are read as they were written; the parser ends on every
      input and calls the handlers as the written document says; a function
      body that is written as records is read back exactly; whatever the
      records are, global variables do not share memory and functions are in
      single-assignment form and typed; the layout of structures
      ends and satisfies alignment, order and size; memory accesses read back
      what was written; constants are evaluated at their width.
    - Transformation: the moves of [exit_ssa] act as a parallel assignment;
      the liveness iteration ends and gives exactly the values that some path
      reads before writing; [remove_empty_bb] only shortcuts branches;
      values that are live together never share registers, after
      coalescing, in the frame that is left.
      [Machine] defines what a function does, given any meaning of its
      instructions, over any store of values. On top of it
      [RegSim] shows that liveness, coalescing, block removal, register
      allocation and [finalize_call_args] together leave the behaviour of a
      function unchanged, and [DeadCode] the same for dead code elimination.
    - Code generation: for each class of instruction the emitted words make the
      interpreter do what the instruction says ([VmArith], [VmEmit],
      [VmBranch], [VmSwitch]), and in the text of a whole function every
      instruction does so, branches lead to the code of their blocks
      ([VmFunction]).
    - Run time: the heap keeps its blocks disjoint and inside the arena, blocks
      are aligned and large enough, [realloc] keeps the contents; descriptors,
      [strtok_r] and exceptions of the library.
    - Errors: theorems without hypotheses on a concrete input show what the
      code does where it does not do what it means to.

    ** Bounds and fuel

    Recursion that follows no list has fuel. [liveness_fuel] is one more than
    the number of bits that can still be set, and each round but the last sets
    one; [coalesce_block] has one step for each instruction; the theorems on
    both show that the fuel is enough. [eliminate_dead_code_correct] holds with any fuel because
    its loop is not entered under the hypotheses; [eliminate_dead_code_endless]
    holds with any fuel because the loop does not end. The bitcode parser has
    one step for each bit of the file and one more ([parse_file_ends]), the
    loops over the arguments of a record have one step for each argument, and
    the search behind an alias one more than there are values
    ([alias_fuel_enough]). The interpreter runs with
    fuel, and theorems give the number of steps or quantify over it. Bit sets
    and matrix positions are [int]s, which bounds the number of values
    (hypotheses of [func_ok]); a register frame is smaller than 2^31.

    ** What is assumed

    [qsort] is any reordering of its input, and in [FuncWrite] one that sorts.
    Handlers in [Document] are any functions ([parse_file_ends]: any that end
    and do not set [iu_vstoffset]). The meaning of instructions in
    [Machine] is any function of the operand values and a world; it is not
    tied to the interpreter. A call with a 64-bit argument also reads its
    second slot, which the liveness sets do not list: the theorems on register
    allocation are about functions in which the listed values are all that is
    read. Functions of the host ([vmir_fsops_t], math.h, external functions) are parameters.

    ** Not modelled

    The remaining passes (replacement of GEP and other instructions,
    combining, calls, aggregates), and with them [function_process], a
    parameter of [end_block]; formatted output and
    stdio streams of the library; printing, logging and the driver (input and
    output only); the JIT ([src/src/vmir_jit_arm.c], which a build without
    VMIR_VM_JIT leaves out; the models follow that build); [src/tlsf], a
    third-party allocator.

    The order planned for them: the remaining passes of
    [vmir_transform.c] (calls, replacements, combining, aggregates), each with
    its simulation in [Machine]; the composition of all of them. *)
From Stdlib Require Export ZArith Lia.
From stdpp Require Export base list gmap strings option numbers.

Local Open Scope Z_scope.

(** ** Failures and the error monad *)

(** How a C function of the program can stop without returning.
    [ParserError] is [parser_error()], which longjmps back to [vmir_load()];
    [AssertFail] is a failed [assert()]; [Aborted] is [abort()];
    [Undef] is an access or an arithmetic operation whose result C leaves
    undefined; [NoFuel] only says that the bound of a definition by fuel was
    too small (or that the C loop does not end). *)
Inductive failure : Type :=
  | ParserError
  | AssertFail
  | Aborted
  | Undef
  | NoFuel.

#[export] Instance failure_eq_dec : EqDecision failure.
Proof. solve_decision. Defined.

Inductive res (A : Type) : Type :=
  | Ok (a : A)
  | Fail (e : failure).
Arguments Ok {A} a.
Arguments Fail {A} e.

#[export] Instance res_eq_dec {A} `{EqDecision A} : EqDecision (res A).
Proof. solve_decision. Defined.

#[export] Instance res_ret : MRet res := @Ok.
#[export] Instance res_bind : MBind res := λ A B f m,
  match m with Ok a => f a | Fail e => Fail e end.
#[export] Instance res_fmap : FMap res := λ A B f m,
  match m with Ok a => Ok (f a) | Fail e => Fail e end.

(** [check b e] goes on when [b] holds and stops with [e] otherwise. *)
Definition check (b : bool) (e : failure) : res unit :=
  if b then Ok () else Fail e.

(** [oget o e] is the content of [o], or the failure [e]. *)
Definition oget {A} (o : option A) (e : failure) : res A :=
  match o with Some a => Ok a | None => Fail e end.

Lemma bind_Ok {A B} (m : res A) (f : A → res B) b :
  m ≫= f = Ok b ↔ ∃ a, m = Ok a ∧ f a = Ok b.
Proof. destruct m; naive_solver. Qed.

Lemma check_Ok b e u : check b e = Ok u ↔ b = true.
Proof. destruct b, u; naive_solver. Qed.

Lemma oget_Ok {A} (o : option A) e a : oget o e = Ok a ↔ o = Some a.
Proof. destruct o; naive_solver. Qed.

(** [inv_res] takes a hypothesis [m = Ok x] apart, one bind at a time. *)
Ltac inv_res :=
  repeat match goal with
  | H : Ok _ = Ok _ |- _ => injection H as H; try subst
  | H : Fail _ = Ok _ |- _ => discriminate H
  | H : Ok _ = Fail _ |- _ => discriminate H
  | H : mret _ = Ok _ |- _ => unfold mret, res_ret in H
  | H : mbind _ _ = Ok _ |- _ =>
      let a := fresh "a" in let H1 := fresh "Hm" in
      apply bind_Ok in H as (a & H1 & H)
  | H : check _ _ = Ok _ |- _ => apply check_Ok in H
  | H : oget _ _ = Ok _ |- _ => apply oget_Ok in H
  end.

(** [inv_res] through the pairs that are bound. *)
Ltac inv_all :=
  inv_res; repeat (match goal with p : (_ * _)%type |- _ => destruct p end; inv_res).

(** [rok] runs the binds whose first part is known to succeed, without
    unfolding anything else. *)
Ltac rok := cbn [check oget mret res_ret mbind res_bind].

(** Left to right map in the error monad. *)
Fixpoint mapR {A B} (f : A → res B) (l : list A) : res (list B) :=
  match l with
  | [] => Ok []
  | a :: l => b ← f a; bs ← mapR f l; Ok (b :: bs)
  end.

(** Left to right fold in the error monad: a C [for] loop over [l]. *)
Fixpoint foldR {A S} (f : S → A → res S) (s : S) (l : list A) : res S :=
  match l with
  | [] => Ok s
  | a :: l => s' ← f s a; foldR f s' l
  end.

Lemma foldR_app {A S} (f : S → A → res S) s l1 l2 :
  foldR f s (l1 ++ l2) = foldR f s l1 ≫= λ s', foldR f s' l2.
Proof.
  revert s; induction l1 as [|a l1 IH]; intros s; simpl; [done|].
  destruct (f s a); simpl; [apply IH | done].
Qed.

(** The states a loop goes through. *)
Lemma foldR_trace {A S} (f : S → A → res S) s l s' :
  foldR f s l = Ok s' →
  ∃ ss, length ss = Datatypes.S (length l) ∧ ss !! 0%nat = Some s ∧ ss !! length l = Some s' ∧
    ∀ k a, l !! k = Some a →
      ∃ s1 s2, ss !! k = Some s1 ∧ ss !! (Datatypes.S k) = Some s2 ∧ f s1 a = Ok s2.
Proof.
  revert s; induction l as [|a l IH]; intros s H; simpl in H.
  - injection H as <-. by exists [s].
  - destruct (f s a) as [s1|] eqn:E; [|done]. destruct (IH s1 H) as (ss & Hl & H0 & H1 & Hk).
    exists (s :: ss). split_and!; [simpl; by rewrite Hl|done|done|].
    intros [|k] b Hb; simpl in *; [|by apply Hk]. injection Hb as <-. by exists s, s1.
Qed.

(** An invariant of the body is an invariant of the loop. *)
Lemma foldR_inv {A S} (P : S → Prop) (f : S → A → res S) l :
  (∀ s a s', a ∈ l → P s → f s a = Ok s' → P s') →
  ∀ s s', P s → foldR f s l = Ok s' → P s'.
Proof.
  induction l as [|a l IH]; simpl; intros Hf s s' Hs H; [by inv_res|].
  inv_res. eapply (IH ltac:(intros; eapply Hf; eauto; set_solver) _ _ _ H).
  Unshelve. eapply Hf; eauto; set_solver.
Qed.

(** The same with an invariant that counts the iterations. *)
Lemma foldR_ind {A S} (P : nat → S → Prop) (f : S → A → res S) l s s' :
  (∀ n a s s', l !! n = Some a → P n s → f s a = Ok s' → P (Datatypes.S n) s') →
  P O s → foldR f s l = Ok s' → P (length l) s'.
Proof.
  revert P s; induction l as [|a l IH]; simpl; intros P s Hf Hs H; [by inv_res|].
  inv_res. eapply (IH (λ n, P (Datatypes.S n)) a0); [|by eapply (Hf O)|done].
  intros n b s1 s2 Hn. by apply (Hf (Datatypes.S n)).
Qed.

(** A loop runs out of fuel only in one of its iterations. *)
Lemma foldR_fuel {A S} (P : nat → S → Prop) (f : S → A → res S) l s :
  (∀ n a s, l !! n = Some a → P n s → f s a ≠ Fail NoFuel) →
  (∀ n a s s', l !! n = Some a → P n s → f s a = Ok s' → P (Datatypes.S n) s') →
  P O s → foldR f s l ≠ Fail NoFuel.
Proof.
  revert P s; induction l as [|a l IH]; simpl; intros P s Hn Hf Hs; [done|].
  destruct (f s a) as [s1|e] eqn:E; simpl.
  - apply (IH (λ n, P (Datatypes.S n))).
    + intros n b s2 Hb. by apply (Hn (Datatypes.S n)).
    + intros n b s2 s3 Hb. by apply (Hf (Datatypes.S n)).
    + by eapply (Hf O).
  - intros [= ->]. by apply (Hn O a s).
Qed.

(** A loop whose body always succeeds under an invariant that counts the
    iterations succeeds. *)
Lemma foldR_ok {A S} (P : nat → S → Prop) (f : S → A → res S) l s :
  (∀ n a s, l !! n = Some a → P n s → ∃ s', f s a = Ok s' ∧ P (Datatypes.S n) s') →
  P O s → ∃ s', foldR f s l = Ok s' ∧ P (length l) s'.
Proof.
  revert P s; induction l as [|a l IH]; simpl; intros P s Hf Hs; [by exists s|].
  destruct (Hf O a s eq_refl Hs) as (s1 & -> & Hs1). cbn [mbind res_bind].
  apply (IH (λ n, P (Datatypes.S n))); [|done].
  intros n b s2 Hn. by apply (Hf (Datatypes.S n)).
Qed.

(** ** Machine integers

    A [w]-bit unsigned integer is a [Z] in [0, 2^w); [wrap w] is the
    conversion to it and [sgn w] the conversion to the signed type. *)

Definition wrap (w x : Z) : Z := x mod 2 ^ w.
Definition sgn (w x : Z) : Z :=
  let u := wrap w x in if u <? 2 ^ (w - 1) then u else u - 2 ^ w.

Notation u8 := (wrap 8).
Notation u16 := (wrap 16).
Notation u32 := (wrap 32).
Notation u64 := (wrap 64).
Notation s8 := (sgn 8).
Notation s16 := (sgn 16).
Notation s32 := (sgn 32).
Notation s64 := (sgn 64).

Definition INT16_MIN : Z := -32768.
Definition INT16_MAX : Z := 32767.
Definition INT32_MIN : Z := -2147483648.
Definition INT32_MAX : Z := 2147483647.

(** Signed [int] arithmetic of C: undefined when the result does not fit. *)
Definition int_ok (x : Z) : bool := (INT32_MIN <=? x) && (x <=? INT32_MAX).
Definition int_arith (x : Z) : res Z := _ ← check (int_ok x) Undef; Ok x.

Lemma int_arith_ok x : INT32_MIN <= x <= INT32_MAX → int_arith x = Ok x.
Proof.
  intros H. unfold int_arith, int_ok.
  assert ((INT32_MIN <=? x) && (x <=? INT32_MAX) = true) as -> by lia. done.
Qed.

Lemma int_arith_inv x y :
  int_arith x = Ok y → y = x ∧ INT32_MIN <= x <= INT32_MAX.
Proof.
  unfold int_arith, int_ok. intros H. inv_res. apply andb_prop in Hm as [H1 H2]. lia.
Qed.

Definition bool_to_Z (b : bool) : Z := if b then 1 else 0.

Create HintDb vmir.

Section machine_ints.
Context (w : Z) (Hw : 0 <= w).

Lemma wrap_range x : 0 <= wrap w x < 2 ^ w.
Proof. apply Z.mod_pos_bound, Z.pow_pos_nonneg; lia. Qed.

Lemma wrap_small x : 0 <= x < 2 ^ w → wrap w x = x.
Proof. apply Z.mod_small. Qed.

Lemma wrap_wrap x : wrap w (wrap w x) = wrap w x.
Proof. apply Z.mod_mod, Z.pow_nonzero; lia. Qed.

Lemma wrap_add x y : wrap w (wrap w x + wrap w y) = wrap w (x + y).
Proof. unfold wrap. by rewrite <-Z.add_mod by (apply Z.pow_nonzero; lia). Qed.

Lemma wrap_mul x y : wrap w (wrap w x * wrap w y) = wrap w (x * y).
Proof. unfold wrap. by rewrite <-Z.mul_mod by (apply Z.pow_nonzero; lia). Qed.

Lemma wrap_sub x y : wrap w (wrap w x - wrap w y) = wrap w (x - y).
Proof. unfold wrap. by rewrite <-Zminus_mod. Qed.

Lemma wrap_land_ones x : wrap w x = Z.land x (Z.ones w).
Proof. unfold wrap. by rewrite Z.land_ones. Qed.

Lemma wrap_testbit x i :
  0 <= i → Z.testbit (wrap w x) i = (i <? w) && Z.testbit x i.
Proof.
  intros Hi. unfold wrap. destruct (Z.ltb_spec i w).
  - by rewrite Z.mod_pow2_bits_low.
  - by rewrite Z.mod_pow2_bits_high by lia.
Qed.
End machine_ints.

Lemma wrap_le w v x : 0 <= w <= v → wrap w (wrap v x) = wrap w x.
Proof.
  intros. apply Z.bits_inj'. intros i Hi. rewrite !wrap_testbit by lia.
  destruct (Z.ltb_spec i w), (Z.ltb_spec i v); try done; lia.
Qed.

Lemma sgn_range w x : 1 <= w → - 2 ^ (w - 1) <= sgn w x < 2 ^ (w - 1).
Proof.
  intros Hw. unfold sgn. pose proof (wrap_range w ltac:(lia) x) as Hr.
  assert (2 ^ w = 2 * 2 ^ (w - 1)) as Hp.
  { rewrite <-Z.pow_succ_r by lia. f_equal; lia. }
  destruct (Z.ltb_spec (wrap w x) (2 ^ (w - 1))); lia.
Qed.

Lemma wrap_sgn w x : 1 <= w → wrap w (sgn w x) = wrap w x.
Proof.
  intros Hw. unfold sgn. destruct (_ <? _); [by apply wrap_wrap; lia|].
  unfold wrap at 1. replace (wrap w x - 2 ^ w) with (wrap w x + (-1) * 2 ^ w) by lia.
  rewrite Z_mod_plus_full. apply wrap_wrap; lia.
Qed.

Lemma sgn_wrap w x : 1 <= w → sgn w (wrap w x) = sgn w x.
Proof. intros Hw. unfold sgn. by rewrite wrap_wrap by lia. Qed.

Lemma sgn_small w x :
  1 <= w → - 2 ^ (w - 1) <= x < 2 ^ (w - 1) → sgn w x = x.
Proof.
  intros Hw Hx.
  assert (2 ^ w = 2 * 2 ^ (w - 1)) as Hp.
  { rewrite <-Z.pow_succ_r by lia. f_equal; lia. }
  unfold sgn. destruct (Z.le_gt_cases 0 x).
  - rewrite wrap_small by lia. destruct (Z.ltb_spec x (2 ^ (w - 1))); lia.
  - assert (wrap w x = x + 2 ^ w) as ->.
    { unfold wrap. rewrite <-(Z_mod_plus_full x 1), Z.mul_1_l. apply Z.mod_small. lia. }
    destruct (Z.ltb_spec (x + 2 ^ w) (2 ^ (w - 1))); lia.
Qed.

#[export] Hint Resolve wrap_range wrap_small : vmir.
#[export] Hint Rewrite wrap_wrap sgn_wrap wrap_sgn using lia : vmir.

(** Decides goals on closed machine integers. *)
Ltac mcompute := vm_compute; (done || (split; done) || lia).
