(* ===== verification/Support.v ===== *)
(** Small helpers of [src/src/vmir_support.c] and the triangular bit matrix
    of [src/src/vmir_transform.c]: alignment, bit sets over 32-bit words
    (out of range accesses are [Undef]) and the matrix that stores one bit
    per unordered pair. *)
From S2P Require Import Prelude.
Local Open Scope Z_scope.

(** ** Alignment *)

(** [VMIR_ALIGN(a, b)]; the callers convert the result to their type. *)
Definition VMIR_ALIGN (a b : Z) : Z := Z.land (a + b - 1) (Z.lnot (b - 1)).

Definition VMIR_MIN (a b : Z) : Z := if a <? b then a else b.
Definition VMIR_MAX (a b : Z) : Z := if b <? a then a else b.

(** Alignment field of an LLVM record: log2 plus one, 0 for the default. *)
Definition vmir_llvm_alignment (align default_alignment : Z) : res Z :=
  if align =? 0 then Ok default_alignment
  else if 9 <? align then Ok 256
  else if align <? 0 then Fail Undef
  else Ok (Z.shiftr (Z.shiftl 1 align) 1).

(** ** Bit sets *)

Definition word_bit (v : Z) : Z := u32 (Z.shiftl 1 (Z.land v 31)).
Definition word_index (v : Z) : Z := Z.shiftr v 5.

Definition bs_word (bs : list Z) (v : Z) : res Z :=
  if v <? 0 then Fail Undef else oget (bs !! Z.to_nat (word_index v)) Undef.

Definition bitset (bs : list Z) (v : Z) : res (list Z) :=
  w ← bs_word bs v;
  Ok (<[Z.to_nat (word_index v) := Z.lor w (word_bit v)]> bs).

Definition bitclr (bs : list Z) (v : Z) : res (list Z) :=
  w ← bs_word bs v;
  Ok (<[Z.to_nat (word_index v) := Z.land w (u32 (Z.lnot (word_bit v)))]> bs).

Definition bitchk (bs : list Z) (v : Z) : res bool :=
  w ← bs_word bs v;
  Ok (negb (Z.land w (word_bit v) =? 0)).

(** [bitset_or(bs, src, words)] with [words] the length of [bs]. *)
Fixpoint bitset_or (bs src : list Z) : res (list Z) :=
  match bs, src with
  | [], _ => Ok []
  | _ :: _, [] => Fail Undef
  | b :: bs, s :: src => r ← bitset_or bs src; Ok (Z.lor b s :: r)
  end.

(** What a bit set stands for. *)
Definition bs_in (bs : list Z) (v : Z) : bool :=
  match bs !! Z.to_nat (v / 32) with
  | Some w => Z.testbit w (v mod 32)
  | None => false
  end.

Definition bs_bits (bs : list Z) : Z := 32 * Z.of_nat (length bs).

(** The words of a bit set are 32-bit words. *)
Definition bs_wf (bs : list Z) : Prop := Forall (λ w, 0 <= w < 2 ^ 32) bs.

(** ** Triangular bit matrix *)

Definition tribitmtx_bits (size : Z) : Z :=
  let s := size - 1 in (s * s + s) / 2 + s + 1.

(** [None] is the NULL pointer returned for size 0. *)
Definition tribitmtx_alloc (size : Z) : option (list Z) :=
  if size =? 0 then None
  else Some (replicate (Z.to_nat ((tribitmtx_bits size + 31) / 32)) 0).

Definition tribitmtx_pos (x y : Z) : Z :=
  let '(x, y) := if y <? x then (y, x) else (x, y) in
  (y * y + y) / 2 + x.

Definition tribitmtx_get (mtx : list Z) (x y : Z) : res bool :=
  bitchk mtx (tribitmtx_pos x y).
Definition tribitmtx_set (mtx : list Z) (x y : Z) : res (list Z) :=
  bitset mtx (tribitmtx_pos x y).
Definition tribitmtx_clr (mtx : list Z) (x y : Z) : res (list Z) :=
  bitclr mtx (tribitmtx_pos x y).

(** ** Lemmas *)

Lemma lnot_pow2 k : 0 <= k → Z.lnot (2 ^ k - 1) = Z.shiftl (-1) k.
Proof.
  intros Hk. rewrite Z.shiftl_mul_pow2 by lia. unfold Z.lnot. lia.
Qed.

Lemma VMIR_ALIGN_pow2 a k :
  0 <= k → VMIR_ALIGN a (2 ^ k) = (a + 2 ^ k - 1) / 2 ^ k * 2 ^ k.
Proof.
  intros Hk. unfold VMIR_ALIGN. rewrite lnot_pow2 by done.
  rewrite <-Z.shiftr_div_pow2, <-Z.shiftl_mul_pow2 by done.
  apply Z.bits_inj'. intros i Hi.
  rewrite Z.land_spec, !Z.shiftl_spec by done.
  destruct (Z.ltb_spec i k).
  { rewrite !(Z.testbit_neg_r _ (i - k)) by lia. apply andb_false_r. }
  rewrite Z.shiftr_spec, Z.bits_m1, andb_true_r by lia. f_equal. lia.
Qed.

Lemma VMIR_ALIGN_bounds a k :
  0 <= k → a <= VMIR_ALIGN a (2 ^ k) < a + 2 ^ k ∧ (2 ^ k | VMIR_ALIGN a (2 ^ k)).
Proof.
  intros Hk. rewrite VMIR_ALIGN_pow2 by done.
  pose proof (Z.pow_pos_nonneg 2 k ltac:(lia) Hk).
  pose proof (Z.div_mod (a + 2 ^ k - 1) (2 ^ k) ltac:(lia)).
  pose proof (Z.mod_pos_bound (a + 2 ^ k - 1) (2 ^ k) ltac:(lia)).
  split; [nia|]. apply Z.divide_factor_r.
Qed.

Lemma VMIR_ALIGN_le a k b :
  0 <= k → a <= b → (2 ^ k | b) → VMIR_ALIGN a (2 ^ k) <= b.
Proof.
  intros Hk Hab [c ->]. rewrite VMIR_ALIGN_pow2 by done.
  pose proof (Z.pow_pos_nonneg 2 k ltac:(lia) Hk).
  apply Z.mul_le_mono_nonneg_r; [lia|].
  apply Z.lt_succ_r, Z.div_lt_upper_bound; [lia|]. nia.
Qed.

Lemma word_index_div v : word_index v = v / 32.
Proof. unfold word_index. by rewrite Z.shiftr_div_pow2 by lia. Qed.

Lemma word_bit_pow2 v : word_bit v = 2 ^ (v mod 32).
Proof.
  unfold word_bit. change 31 with (Z.ones 5). rewrite Z.land_ones by lia.
  rewrite Z.shiftl_1_l. apply wrap_small.
  pose proof (Z.mod_pos_bound v 32 ltac:(lia)). change (2 ^ 5) with 32.
  split; [apply Z.pow_nonneg; lia|]. apply Z.pow_lt_mono_r; lia.
Qed.

Lemma bs_word_Ok bs v :
  0 <= v < bs_bits bs →
  ∃ w, bs_word bs v = Ok w ∧ bs !! Z.to_nat (v / 32) = Some w.
Proof.
  intros Hv. unfold bs_word, bs_bits in *. rewrite word_index_div.
  destruct (Z.ltb_spec v 0); [lia|].
  destruct (lookup_lt_is_Some_2 bs (Z.to_nat (v / 32))) as [w Hw].
  { apply Nat2Z.inj_lt. rewrite Z2Nat.id by (apply Z.div_pos; lia).
    apply Z.div_lt_upper_bound; lia. }
  exists w. by rewrite Hw.
Qed.

Lemma word_eq u v : 0 <= u → 0 <= v → Z.to_nat (u / 32) = Z.to_nat (v / 32) →
  u mod 32 = v mod 32 → u = v.
Proof.
  intros Hu Hv H1 H2.
  pose proof (Z.div_pos u 32 Hu ltac:(lia)).
  pose proof (Z.div_pos v 32 Hv ltac:(lia)).
  pose proof (Z.div_mod u 32 ltac:(lia)). pose proof (Z.div_mod v 32 ltac:(lia)). lia.
Qed.

Lemma bitchk_spec bs v :
  0 <= v < bs_bits bs → bitchk bs v = Ok (bs_in bs v).
Proof.
  intros Hv. unfold bitchk, bs_in.
  destruct (bs_word_Ok bs v Hv) as (w & -> & Hw). rewrite Hw. simpl. f_equal.
  rewrite word_bit_pow2.
  pose proof (Z.mod_pos_bound v 32 ltac:(lia)).
  destruct (Z.testbit w (v mod 32)) eqn:E.
  - destruct (Z.eqb_spec (Z.land w (2 ^ (v mod 32))) 0) as [H0|]; [|done].
    apply (f_equal (λ z, Z.testbit z (v mod 32))) in H0.
    rewrite Z.land_spec, Z.pow2_bits_true, E, Z.bits_0 in H0 by lia. done.
  - destruct (Z.eqb_spec (Z.land w (2 ^ (v mod 32))) 0) as [|H0]; [done|].
    destruct H0. apply Z.bits_inj'. intros i Hi.
    rewrite Z.land_spec, Z.pow2_bits_eqb, Z.bits_0 by lia.
    destruct (Z.eqb_spec (v mod 32) i) as [<-|]; [by rewrite E|].
    apply andb_false_r.
Qed.

(** Both updates change the one bit [v] and keep the number of words. *)
Lemma bitset_spec bs v :
  0 <= v < bs_bits bs →
  ∃ bs', bitset bs v = Ok bs' ∧ length bs' = length bs ∧
    ∀ u, 0 <= u → bs_in bs' u = (u =? v) || bs_in bs u.
Proof.
  intros Hv. unfold bitset. destruct (bs_word_Ok bs v Hv) as (w & -> & Hw).
  eexists; split; [reflexivity|]. split; [apply length_insert|].
  intros u Hu. unfold bs_in. rewrite word_index_div, word_bit_pow2.
  pose proof (Z.mod_pos_bound v 32 ltac:(lia)).
  pose proof (Z.mod_pos_bound u 32 ltac:(lia)).
  destruct (decide (Z.to_nat (u / 32) = Z.to_nat (v / 32))) as [E|E].
  - rewrite E, list_lookup_insert_eq by (by eapply lookup_lt_Some). rewrite Hw.
    rewrite Z.lor_spec, Z.pow2_bits_eqb by lia.
    rewrite orb_comm. f_equal.
    destruct (Z.eqb_spec u v) as [->|Hn]; [by rewrite Z.eqb_refl|].
    apply Z.eqb_neq. intros ?. apply Hn. apply word_eq; lia.
  - rewrite list_lookup_insert_ne by done.
    by destruct (Z.eqb_spec u v) as [->|].
Qed.

Lemma bitclr_spec bs v :
  0 <= v < bs_bits bs →
  ∃ bs', bitclr bs v = Ok bs' ∧ length bs' = length bs ∧
    ∀ u, 0 <= u → bs_in bs' u = negb (u =? v) && bs_in bs u.
Proof.
  intros Hv. unfold bitclr. destruct (bs_word_Ok bs v Hv) as (w & -> & Hw).
  eexists; split; [reflexivity|]. split; [apply length_insert|].
  intros u Hu. unfold bs_in. rewrite word_index_div, word_bit_pow2.
  pose proof (Z.mod_pos_bound v 32 ltac:(lia)).
  pose proof (Z.mod_pos_bound u 32 ltac:(lia)).
  destruct (decide (Z.to_nat (u / 32) = Z.to_nat (v / 32))) as [E|E].
  - rewrite E, list_lookup_insert_eq by (by eapply lookup_lt_Some). rewrite Hw.
    rewrite Z.land_spec, wrap_testbit, Z.lnot_spec, Z.pow2_bits_eqb by lia.
    rewrite (proj2 (Z.ltb_lt (u mod 32) 32)) by lia.
    rewrite andb_true_l, andb_comm. f_equal. f_equal.
    destruct (Z.eqb_spec u v) as [->|Hn]; [by rewrite Z.eqb_refl|].
    apply Z.eqb_neq. intros ?. apply Hn. apply word_eq; lia.
  - rewrite list_lookup_insert_ne by done.
    by destruct (Z.eqb_spec u v) as [->|].
Qed.

Lemma bitset_or_spec bs src :
  (length bs <= length src)%nat →
  ∃ r, bitset_or bs src = Ok r ∧ length r = length bs ∧
    ∀ v, 0 <= v < bs_bits bs → bs_in r v = bs_in bs v || bs_in src v.
Proof.
  unfold bs_bits, bs_in.
  revert src; induction bs as [|b bs IH]; intros src Hl; simpl in *.
  { exists []. split_and!; [done|done|]. intros; lia. }
  destruct src as [|s src]; simpl in *; [lia|].
  destruct (IH src ltac:(lia)) as (r & -> & Hr & Hin). simpl.
  eexists; split; [done|]. split; [simpl; lia|]. intros v Hv.
  destruct (decide (v < 32)) as [Hlt|Hge].
  { rewrite Z.div_small, Z.mod_small by lia. simpl. apply Z.lor_spec. }
  assert (v / 32 = 1 + (v - 32) / 32) as ->.
  { replace v with (v - 32 + 1 * 32) at 1 by lia. rewrite Z.div_add by lia. lia. }
  assert (v mod 32 = (v - 32) mod 32) as ->.
  { replace v with (v - 32 + 1 * 32) at 1 by lia. by rewrite Z_mod_plus_full. }
  rewrite Z2Nat.inj_add by (try apply Z.div_pos; lia). simpl.
  apply Hin. lia.
Qed.

Lemma length_bitset bs v bs' : bitset bs v = Ok bs' → length bs' = length bs.
Proof. unfold bitset. intros H. inv_res. apply length_insert. Qed.

Lemma length_bitclr bs v bs' : bitclr bs v = Ok bs' → length bs' = length bs.
Proof. unfold bitclr. intros H. inv_res. apply length_insert. Qed.

(** *** The matrix *)

Lemma tri_even y : 2 * ((y * y + y) / 2) = y * y + y.
Proof.
  assert (((y * y + y) mod 2) = 0) as H.
  { replace (y * y + y) with (y * (y + 1)) by lia.
    rewrite Z.mul_mod by lia.
    destruct (Z.mod_pos_bound y 2 ltac:(lia)).
    assert (y mod 2 = 0 ∨ y mod 2 = 1) as [E|E] by lia.
    - by rewrite E.
    - rewrite (Z.add_mod y 1 2), E by lia. reflexivity. }
  pose proof (Z.div_mod (y * y + y) 2 ltac:(lia)). lia.
Qed.

Lemma tribitmtx_pos_comm x y : tribitmtx_pos x y = tribitmtx_pos y x.
Proof.
  unfold tribitmtx_pos.
  destruct (Z.ltb_spec y x), (Z.ltb_spec x y); try lia.
  by assert (x = y) as -> by lia.
Qed.

Lemma tribitmtx_pos_le x y : x <= y → tribitmtx_pos x y = (y * y + y) / 2 + x.
Proof. unfold tribitmtx_pos. destruct (Z.ltb_spec y x); [lia|done]. Qed.

Lemma tribitmtx_pos_range size x y :
  0 <= x < size → 0 <= y < size → 0 <= tribitmtx_pos x y < tribitmtx_bits size.
Proof.
  assert (∀ x y, x <= y → 0 <= x < size → 0 <= y < size →
    0 <= tribitmtx_pos x y < tribitmtx_bits size) as H.
  { clear x y. intros x y Hle Hx Hy. rewrite tribitmtx_pos_le by done.
    unfold tribitmtx_bits.
    pose proof (tri_even y). pose proof (tri_even (size - 1)). nia. }
  intros Hx Hy. destruct (Z.le_gt_cases x y); [by apply H|].
  rewrite tribitmtx_pos_comm. apply H; lia.
Qed.

Lemma tribitmtx_pos_inj x y x' y' :
  0 <= x <= y → 0 <= x' <= y' →
  tribitmtx_pos x y = tribitmtx_pos x' y' → x = x' ∧ y = y'.
Proof.
  intros Hx Hx'. rewrite !tribitmtx_pos_le by lia.
  pose proof (tri_even y). pose proof (tri_even y'). intros E.
  assert (y = y') as -> by nia. lia.
Qed.

(** *** Well-formed words *)

Lemma word_wf w : 0 <= w < 2 ^ 32 ↔ wrap 32 w = w.
Proof. split; [apply wrap_small|intros <-; by apply wrap_range]. Qed.

Lemma word_lor_wf a b : 0 <= a < 2 ^ 32 → 0 <= b < 2 ^ 32 → 0 <= Z.lor a b < 2 ^ 32.
Proof.
  rewrite !word_wf, !wrap_land_ones by lia. rewrite Z.land_lor_distr_l. by intros -> ->.
Qed.

Lemma word_land_wf a b : 0 <= a < 2 ^ 32 → 0 <= Z.land a b < 2 ^ 32.
Proof.
  rewrite !word_wf, !wrap_land_ones by lia. intros Ha.
  by rewrite <- Z.land_assoc, (Z.land_comm b), Z.land_assoc, Ha.
Qed.

Lemma bs_word_wf bs v w : bs_wf bs → bs_word bs v = Ok w → 0 <= w < 2 ^ 32.
Proof.
  unfold bs_word. intros Hwf H. destruct (v <? 0); [done|]. apply oget_Ok in H.
  exact (Forall_lookup_1 _ _ _ _ Hwf H).
Qed.

Lemma bitset_wf bs v bs' : bs_wf bs → bitset bs v = Ok bs' → bs_wf bs'.
Proof.
  unfold bitset. intros Hwf H. inv_res. apply Forall_insert; [done|].
  apply word_lor_wf; [by eapply bs_word_wf|by apply wrap_range].
Qed.

Lemma bitclr_wf bs v bs' : bs_wf bs → bitclr bs v = Ok bs' → bs_wf bs'.
Proof.
  unfold bitclr. intros Hwf H. inv_res. apply Forall_insert; [done|].
  apply word_land_wf. by eapply bs_word_wf.
Qed.

Lemma bitset_or_wf bs src r : bs_wf bs → bs_wf src → bitset_or bs src = Ok r → bs_wf r.
Proof.
  intros Hb Hs. revert r src Hs; induction Hb as [|b bs Hb1 Hb IH]; intros r src Hs H; simpl in H.
  - inv_res. constructor.
  - destruct Hs as [|s src Hs1 Hs]; [done|]. inv_res.
    constructor; [by apply word_lor_wf|by eapply IH].
Qed.

(** Words with the same bits are equal. *)
Lemma bs_ext bs bs' :
  bs_wf bs → bs_wf bs' → length bs = length bs' →
  (∀ v, 0 <= v < bs_bits bs → bs_in bs v = bs_in bs' v) → bs = bs'.
Proof.
  intros Hw Hw' Hl H. apply list_eq. intros i.
  destruct (bs !! i) as [w|] eqn:E.
  2: { symmetry. apply lookup_ge_None. apply lookup_ge_None in E. lia. }
  destruct (lookup_lt_is_Some_2 bs' i) as [w' E']; [apply lookup_lt_Some in E; lia|].
  rewrite E'. f_equal. pose proof (Forall_lookup_1 _ _ _ _ Hw E) as Hb.
  pose proof (Forall_lookup_1 _ _ _ _ Hw' E') as Hb'. cbn beta in Hb, Hb'.
  rewrite <- (wrap_small 32 w), <- (wrap_small 32 w') by lia.
  apply Z.bits_inj'. intros n Hn. rewrite !wrap_testbit by lia. destruct (Z.ltb_spec n 32); [|done].
  cbn [andb]. specialize (H (32 * Z.of_nat i + n)). unfold bs_in in H.
  rewrite (Z.mul_comm 32), Z.add_comm, Z.div_add, Z_mod_plus_full in H by lia.
  rewrite (Z.div_small n), (Z.mod_small n), Z.add_0_l, Nat2Z.id, E, E' in H by lia.
  apply H. unfold bs_bits. apply lookup_lt_Some in E. lia.
Qed.

Lemma bs_in_zeros n v : bs_in (replicate n 0) v = false.
Proof.
  unfold bs_in. destruct (replicate n 0 !! Z.to_nat (v / 32)) as [w|] eqn:E; [|done].
  apply lookup_replicate in E as [-> _]. apply Z.testbit_0_l.
Qed.

Lemma bs_wf_zeros n : bs_wf (replicate n 0).
Proof. apply Forall_replicate. lia. Qed.
