(* ===== verification/Mem.v ===== *)
(** The memory of a unit and the accesses of [src/src/vmir_mem.c] on a
    little-endian host. A memory is [mem_size] bytes; an access outside of it
    leaves the host allocation and is [Undef]. The register frames of the
    virtual machine are memories too. *)
From S2P Require Import Prelude.
Local Open Scope Z_scope.

(** [iu_mem] and [iu_memsize]. *)
Record memory := mk_mem {
  mem_size : Z;
  mem_data : gmap Z Z;
}.

Definition mem_byte (m : memory) (a : Z) : Z := default 0 (mem_data m !! a).

Definition in_mem (m : memory) (a : Z) : bool := (0 <=? a) && (a <? mem_size m).

Definition mem_rd8 (m : memory) (a : Z) : res Z :=
  _ ← check (in_mem m a) Undef; Ok (mem_byte m a).

Definition mem_wr8 (m : memory) (a v : Z) : res memory :=
  _ ← check (in_mem m a) Undef;
  Ok (mk_mem (mem_size m) (<[a := u8 v]> (mem_data m))).

(** [n] bytes from [a], least significant first. *)
Fixpoint rd_le (n : nat) (m : memory) (a : Z) : res Z :=
  match n with
  | O => Ok 0
  | S n => b ← mem_rd8 m a; r ← rd_le n m (a + 1); Ok (b + 256 * r)
  end.

Fixpoint wr_le (n : nat) (m : memory) (a v : Z) : res memory :=
  match n with
  | O => Ok m
  | S n => m ← mem_wr8 m a v; wr_le n m (a + 1) (Z.shiftr v 8)
  end.

Definition mem_rd16 := rd_le 2.
Definition mem_rd32 := rd_le 4.
Definition mem_rd64 := rd_le 8.
Definition mem_wr16 := wr_le 2.
Definition mem_wr32 := wr_le 4.
Definition mem_wr64 := wr_le 8.

(** [memcpy] and [memset] of the C library. *)
Fixpoint mem_copy (m : memory) (dst src : Z) (n : nat) : res memory :=
  match n with
  | O => Ok m
  | S n => b ← mem_rd8 m src; m ← mem_wr8 m dst b; mem_copy m (dst + 1) (src + 1) n
  end.

Fixpoint mem_set (m : memory) (a v : Z) (n : nat) : res memory :=
  match n with
  | O => Ok m
  | S n => m ← mem_wr8 m a v; mem_set m (a + 1) v n
  end.

(** ** Lemmas *)

(** All bytes are bytes. *)
Definition mem_ok (m : memory) : Prop := ∀ a, 0 <= mem_byte m a < 256.

Lemma mem_wr8_spec m a v m' :
  mem_wr8 m a v = Ok m' →
  0 <= a < mem_size m ∧ mem_size m' = mem_size m ∧
  mem_byte m' a = u8 v ∧ ∀ b, b ≠ a → mem_byte m' b = mem_byte m b.
Proof.
  unfold mem_wr8, in_mem. intros H. inv_res. apply andb_prop in Hm as [H1 H2].
  unfold mem_byte; simpl. split_and!; try lia; [by rewrite lookup_insert_eq|].
  intros b Hb. by rewrite lookup_insert_ne.
Qed.

Lemma mem_rd8_spec m a v : mem_rd8 m a = Ok v ↔ 0 <= a < mem_size m ∧ v = mem_byte m a.
Proof.
  unfold mem_rd8, in_mem. split.
  - intros H. inv_res. apply andb_prop in Hm as [H1 H2]. split; [lia|done].
  - intros [H ->]. assert ((0 <=? a) && (a <? mem_size m) = true) as -> by lia. done.
Qed.

Lemma wr_le_spec n m a v m' :
  wr_le n m a v = Ok m' →
  mem_size m' = mem_size m ∧ ((0 < n)%nat → 0 <= a ∧ a + Z.of_nat n <= mem_size m) ∧
  ∀ b, b < a ∨ a + Z.of_nat n <= b → mem_byte m' b = mem_byte m b.
Proof.
  revert m a v; induction n as [|n IH]; intros m a v H; cbn [wr_le] in H; inv_res.
  - split_and!; [done|lia|done].
  - apply mem_wr8_spec in Hm as (Hr & Hs & _ & Ho).
    destruct (IH _ _ _ H) as (Hs' & Hr' & Ho').
    split_and!; [congruence| |].
    + intros _. destruct n; [lia|]. specialize (Hr' ltac:(lia)). lia.
    + intros b Hb. rewrite Ho' by lia. apply Ho. lia.
Qed.

Lemma wr_le_ok n m a v m' : mem_ok m → wr_le n m a v = Ok m' → mem_ok m'.
Proof.
  revert m a v; induction n as [|n IH]; intros m a v Hm H; cbn [wr_le] in H; inv_res; [done|].
  eapply IH; [|exact H]. apply mem_wr8_spec in Hm0 as (_ & _ & Ha & Ho). intros b.
  destruct (decide (b = a)) as [->|Hb]; [rewrite Ha; apply wrap_range; lia|].
  rewrite Ho by done. apply Hm.
Qed.

Lemma rd_le_ext n m m' a :
  mem_size m = mem_size m' →
  (∀ b, a <= b < a + Z.of_nat n → mem_byte m b = mem_byte m' b) →
  rd_le n m a = rd_le n m' a.
Proof.
  revert a; induction n as [|n IH]; intros a Hs Hb; [done|]. cbn [rd_le].
  rewrite (IH (a + 1)) by (auto; intros; apply Hb; lia).
  unfold mem_rd8, in_mem. by rewrite Hs, (Hb a) by lia.
Qed.

(** A value that was written is read back at its width. *)
Lemma rd_wr_same n m a v m' :
  wr_le n m a v = Ok m' → rd_le n m' a = Ok (v mod 2 ^ (8 * Z.of_nat n)).
Proof.
  revert m a v; induction n as [|n IH]; intros m a v H; cbn [wr_le rd_le] in *; inv_res.
  - simpl. by rewrite Z.mod_1_r.
  - pose proof (wr_le_spec _ _ _ _ _ H) as (Hs & Hr & Ho).
    apply mem_wr8_spec in Hm as (Hra & Hsz & Hb & _).
    assert (mem_rd8 m' a = Ok (u8 v)) as ->.
    { apply mem_rd8_spec. rewrite Hs, Hsz, Ho, Hb by lia. done. }
    rok. rewrite (IH _ _ _ H). rok. f_equal. unfold wrap.
    rewrite Z.shiftr_div_pow2 by lia.
    replace (8 * Z.of_nat (S n)) with (8 + 8 * Z.of_nat n) by lia.
    rewrite Z.pow_add_r by lia. change (2 ^ 8) with 256.
    rewrite Z.rem_mul_r; [done|lia|]. apply Z.pow_pos_nonneg; lia.
Qed.

(** A write does not change what is read elsewhere. *)
Lemma rd_wr_other n k m a b v m' :
  wr_le n m a v = Ok m' → b + Z.of_nat k <= a ∨ a + Z.of_nat n <= b →
  rd_le k m' b = rd_le k m b.
Proof.
  intros H Hd. apply wr_le_spec in H as (Hs & _ & Ho).
  apply rd_le_ext; [done|]. intros c Hc. apply Ho. lia.
Qed.

(** Accesses inside the memory succeed. *)
Lemma wr_le_total n m a v :
  0 <= a → a + Z.of_nat n <= mem_size m → ∃ m', wr_le n m a v = Ok m'.
Proof.
  revert m a v; induction n as [|n IH]; intros m a v H1 H2; cbn [wr_le]; [by eexists|].
  unfold mem_wr8, in_mem. assert ((0 <=? a) && (a <? mem_size m) = true) as -> by lia.
  rok. apply IH; simpl; lia.
Qed.

Lemma rd_le_total n m a :
  0 <= a → a + Z.of_nat n <= mem_size m → ∃ v, rd_le n m a = Ok v.
Proof.
  revert a; induction n as [|n IH]; intros a H1 H2; cbn [rd_le]; [by eexists|].
  unfold mem_rd8, in_mem. assert ((0 <=? a) && (a <? mem_size m) = true) as -> by lia.
  rok. destruct (IH (a + 1)) as [v ->]; [lia|lia|]. by eexists.
Qed.

Lemma rd_le_range n m a v : mem_ok m → rd_le n m a = Ok v → 0 <= v < 2 ^ (8 * Z.of_nat n).
Proof.
  intros Hm. revert a v; induction n as [|n IH]; intros a v H; cbn [rd_le] in H; inv_res.
  - simpl. lia.
  - apply mem_rd8_spec in Hm0 as [_ ->]. specialize (IH _ _ Hm1). specialize (Hm a).
    replace (8 * Z.of_nat (S n)) with (8 + 8 * Z.of_nat n) by lia.
    rewrite Z.pow_add_r by lia. change (2 ^ 8) with 256. lia.
Qed.

Lemma mem_copy_spec n m dst src m' :
  mem_copy m dst src n = Ok m' → dst + Z.of_nat n <= src ∨ src + Z.of_nat n <= dst →
  mem_ok m → mem_size m' = mem_size m ∧
  (∀ i, 0 <= i < Z.of_nat n → mem_byte m' (dst + i) = mem_byte m (src + i)) ∧
  ∀ b, b < dst ∨ dst + Z.of_nat n <= b → mem_byte m' b = mem_byte m b.
Proof.
  revert m dst src; induction n as [|n IH]; intros m dst src H Hd Hok;
    cbn [mem_copy] in H; inv_res; [split_and!; auto; lia|].
  apply mem_rd8_spec in Hm as [_ ->].
  apply mem_wr8_spec in Hm0 as (Hr & Hs & Hb & Ho).
  rewrite wrap_small in Hb by apply Hok.
  destruct (IH _ _ _ H) as (Hs' & Hc & Ho'); [lia| |].
  { intros b. destruct (decide (b = dst)) as [->|]; [rewrite Hb; apply Hok|].
    rewrite Ho by done. apply Hok. }
  split_and!; [congruence| |].
  - intros i Hi. destruct (decide (i = 0)) as [->|].
    + rewrite !Z.add_0_r, Ho' by lia. done.
    + replace (dst + i) with (dst + 1 + (i - 1)) by lia.
      rewrite Hc by lia. rewrite Ho by lia. f_equal; lia.
  - intros b Hb'. rewrite Ho' by lia. apply Ho. lia.
Qed.

Lemma mem_set_spec n m a v m' :
  mem_set m a v n = Ok m' →
  mem_size m' = mem_size m ∧
  (∀ i, 0 <= i < Z.of_nat n → mem_byte m' (a + i) = u8 v) ∧
  ∀ b, b < a ∨ a + Z.of_nat n <= b → mem_byte m' b = mem_byte m b.
Proof.
  revert m a; induction n as [|n IH]; intros m a H; cbn [mem_set] in H; inv_res;
    [split_and!; auto; lia|].
  apply mem_wr8_spec in Hm as (Hr & Hs & Hb & Ho).
  destruct (IH _ _ H) as (Hs' & Hc & Ho').
  split_and!; [congruence| |].
  - intros i Hi. destruct (decide (i = 0)) as [->|].
    + rewrite !Z.add_0_r, Ho' by lia. done.
    + replace (a + i) with (a + 1 + (i - 1)) by lia. apply Hc. lia.
  - intros b Hb'. rewrite Ho' by lia. apply Ho. lia.
Qed.

(** At every width, a write inside the memory succeeds, the value is read
    back modulo the width, and a read that does not overlap is unaffected. *)
Theorem mem_write_read n m a v :
  0 <= a → a + Z.of_nat n <= mem_size m →
  ∃ m', wr_le n m a v = Ok m' ∧ mem_size m' = mem_size m ∧
    rd_le n m' a = Ok (v mod 2 ^ (8 * Z.of_nat n)) ∧
    ∀ k b, b + Z.of_nat k <= a ∨ a + Z.of_nat n <= b → rd_le k m' b = rd_le k m b.
Proof.
  intros H1 H2. destruct (wr_le_total n m a v H1 H2) as [m' Hm]. exists m'.
  split_and!; [done|by apply wr_le_spec in Hm as [? _]|by eapply rd_wr_same|].
  intros k b. by eapply rd_wr_other.
Qed.

Lemma mem_write_read_witness :
  ∃ m', mem_wr32 (mk_mem 64 ∅) 8 (-2) = Ok m' ∧ mem_rd32 m' 8 = Ok 4294967294.
Proof.
  destruct (mem_write_read 4 (mk_mem 64 ∅) 8 (-2)) as (m' & H & _ & Hr & _);
    [lia|simpl; lia|]. exists m'. split; [exact H|exact Hr].
Defined.
