(* ===== verification/Bitstream.v ===== *)
(** The bit reader of [src/src/vmir_bitstream.c]: fixed width fields,
    variable bit rate integers and the decoding of record arguments.
    [pending] is the abstract content of a reader (the bits still to come);
    the theorems relate every reader to it. *)
From S2P Require Import Prelude Support.
Local Open Scope Z_scope.

(** ** State *)

(** [bcbitstream_t]. [rdata] is the array of bytes itself. *)
Record bcbitstream := mk_bs {
  rdata : list Z;
  bytes_length : Z;
  bytes_offset : Z;
  remain : Z;
  tmp : Z;
}.

(** [bcbitstream_t bs = {0}] followed by setting the data. *)
Definition bs_init (data : list Z) : bcbitstream :=
  mk_bs data (Z.of_nat (length data)) 0 0 0.

(** ** Operations *)

(** The [if(bs->remain == 0)] refill of [read_bits]. *)
Definition refill (bs : bcbitstream) : res bcbitstream :=
  if remain bs =? 0 then
    t ← oget (if bytes_offset bs <? 0 then None
              else rdata bs !! Z.to_nat (bytes_offset bs)) Undef;
    Ok (mk_bs (rdata bs) (bytes_length bs) (bytes_offset bs + 1) 8 t)
  else Ok bs.

(** The loop of [read_bits]; [fuel] bounds its iterations. *)
Fixpoint read_bits_loop (fuel : nat) (bs : bcbitstream) (num off r : Z)
    : res (Z * bcbitstream) :=
  if num <=? 0 then Ok (r, bs) else
  match fuel with
  | O => Fail NoFuel
  | S fuel =>
    if bytes_length bs <=? bytes_offset bs then Ok (0, bs) else
    bs ← refill bs;
    let pick := VMIR_MIN num (remain bs) in
    _ ← check (off <? 32) Undef;
    let r := u32 (Z.lor r
      (Z.shiftl (Z.land (tmp bs) (Z.shiftl 1 pick - 1)) off)) in
    read_bits_loop fuel
      (mk_bs (rdata bs) (bytes_length bs) (bytes_offset bs)
             (remain bs - pick) (Z.shiftr (tmp bs) pick))
      (num - pick) (off + pick) r
  end.

Definition read_bits (bs : bcbitstream) (num : Z) : res (Z * bcbitstream) :=
  read_bits_loop (Z.to_nat num) bs num 0 0.

Definition align_bits32 (bs : bcbitstream) : bcbitstream :=
  mk_bs (rdata bs) (bytes_length bs) (VMIR_ALIGN (bytes_offset bs) 4) 0 (tmp bs).

(** The common loop of [read_vbr] ([limit] = 32) and [read_vbr64] (64). *)
Fixpoint read_vbr_loop (limit : Z) (fuel : nat) (bs : bcbitstream)
    (width ret stride : Z) : res (Z * bcbitstream) :=
  match fuel with
  | O => Fail NoFuel
  | S fuel =>
    let cont := Z.shiftl 1 (width - 1) in
    let mask := cont - 1 in
    '(x, bs) ← read_bits bs width;
    let ret := wrap limit (Z.lor ret (Z.shiftl (Z.land x mask) stride)) in
    if negb (Z.land cont x =? 0) then
      let stride := stride + (width - 1) in
      _ ← check (stride <? limit) AssertFail;
      read_vbr_loop limit fuel bs width ret stride
    else Ok (ret, bs)
  end.

(** Enough for every stream: see [read_vbr_total]. *)
Definition vbr_fuel (bs : bcbitstream) : nat :=
  66 + Z.to_nat (remain bs) + 8 * length (rdata bs).
Arguments vbr_fuel : simpl never.

Definition read_vbr (bs : bcbitstream) (width : Z) : res (Z * bcbitstream) :=
  _ ← check (0 <? width) AssertFail;
  _ ← check (width <=? 32) Undef;
  read_vbr_loop 32 (vbr_fuel bs) bs width 0 0.

Definition read_vbr64 (bs : bcbitstream) (width : Z) : res (Z * bcbitstream) :=
  _ ← check (0 <? width) AssertFail;
  _ ← check (width <=? 32) Undef;
  read_vbr_loop 64 (vbr_fuel bs) bs width 0 0.

(** Record arguments [ir_arg_t]: 64-bit signed integers. *)
Definition ir_arg := Z.

(** The string up to and with its first zero argument, and what follows;
    [None] is the NULL returned when there is no terminator. *)
Fixpoint read_zstr_from_argv (argv : list ir_arg)
    : option (list Z * list ir_arg) :=
  match argv with
  | [] => None
  | a :: argv =>
    if a =? 0 then Some ([0], argv)
    else '(s, rest) ← read_zstr_from_argv argv; Some (u8 a :: s, rest)
  end.

(** The [argc] characters; the terminator that the C code adds is implicit. *)
Definition read_str_from_argv (argv : list ir_arg) : list Z := map u8 argv.

Definition read_sign_rotated (a : ir_arg) : Z :=
  let u := u64 a in
  if Z.land u 1 =? 0 then s64 (Z.shiftr u 1)
  else if negb (u =? 1) then s64 (- Z.shiftr u 1)
  else s64 (Z.shiftl 1 63).

(** ** The abstract content of a reader *)

(** The [n] low bits of [x], least significant first. *)
Definition bits_of (n : nat) (x : Z) : list bool :=
  map (λ i, Z.testbit x (Z.of_nat i)) (seq 0 n).

Fixpoint bits_val (l : list bool) : Z :=
  match l with
  | [] => 0
  | b :: l => bool_to_Z b + 2 * bits_val l
  end.

Definition pending (bs : bcbitstream) : list bool :=
  bits_of (Z.to_nat (remain bs)) (tmp bs) ++
  concat (map (bits_of 8) (drop (Z.to_nat (bytes_offset bs)) (rdata bs))).

Record bs_valid (bs : bcbitstream) : Prop := {
  bv_length : bytes_length bs = Z.of_nat (length (rdata bs));
  bv_offset : 0 <= bytes_offset bs;
  bv_remain : 0 <= remain bs <= 8;
}.

(** The reader can refill: this is the test at the head of the loop. *)
Definition more_bytes (bs : bcbitstream) : Prop :=
  bytes_offset bs < bytes_length bs.

(** *** Encoders: what the format specification says a writer emits *)

Fixpoint vbr_encode (fuel : nat) (width v : Z) : list bool :=
  match fuel with
  | O => []
  | S fuel =>
    let cont := 2 ^ (width - 1) in
    if v <? cont then bits_of (Z.to_nat width) v
    else bits_of (Z.to_nat width) (v mod cont + cont)
         ++ vbr_encode fuel width (v / cont)
  end.

Definition sign_rotate (v : Z) : Z :=
  if v =? - 2 ^ 63 then 1
  else if v <? 0 then 2 * (- v) + 1 else 2 * v.

(** ** Lemmas on bits *)

Lemma length_bits_of n x : length (bits_of n x) = n.
Proof. unfold bits_of. by rewrite length_map, length_seq. Qed.

Lemma bits_of_S n x : bits_of (S n) x = Z.testbit x 0 :: bits_of n (Z.shiftr x 1).
Proof.
  unfold bits_of. simpl. f_equal. rewrite <-seq_shift, map_map.
  apply map_ext. intros i. rewrite Z.shiftr_spec by lia. f_equal. lia.
Qed.

Lemma bits_val_bits_of n x : bits_val (bits_of n x) = wrap (Z.of_nat n) x.
Proof.
  revert x; induction n as [|n IH]; intros x.
  { unfold wrap. simpl. by rewrite Z.mod_1_r. }
  rewrite bits_of_S. simpl bits_val. rewrite IH. unfold wrap.
  rewrite Z.shiftr_div_pow2 by lia. change (2 ^ 1) with 2.
  rewrite Nat2Z.inj_succ, Z.pow_succ_r by lia.
  rewrite (Z.rem_mul_r x 2) by lia.
  rewrite <-Z.bit0_mod. unfold bool_to_Z, Z.b2z. done.
Qed.

Lemma bits_val_app l1 l2 :
  bits_val (l1 ++ l2) = bits_val l1 + 2 ^ Z.of_nat (length l1) * bits_val l2.
Proof.
  induction l1 as [|b l1 IH]; simpl bits_val; [simpl; lia|].
  simpl app. simpl bits_val. rewrite IH. simpl length.
  rewrite Nat2Z.inj_succ, Z.pow_succ_r by lia. lia.
Qed.

Lemma bits_val_range l : 0 <= bits_val l < 2 ^ Z.of_nat (length l).
Proof.
  induction l as [|b l IH]; simpl bits_val; [simpl; lia|].
  simpl length. rewrite Nat2Z.inj_succ, Z.pow_succ_r by lia.
  destruct b; simpl; lia.
Qed.

Lemma take_bits_of k n x : (k <= n)%nat → take k (bits_of n x) = bits_of k x.
Proof.
  revert n x; induction k as [|k IH]; intros n x Hk; [done|].
  destruct n as [|n]; [lia|]. rewrite !bits_of_S. simpl. f_equal. apply IH. lia.
Qed.

Lemma drop_bits_of k n x :
  drop k (bits_of n x) = bits_of (n - k) (Z.shiftr x (Z.of_nat k)).
Proof.
  revert n x; induction k as [|k IH]; intros n x.
  { by rewrite drop_0, Nat.sub_0_r, Z.shiftr_0_r. }
  destruct n as [|n]; [done|]. rewrite bits_of_S. simpl drop. rewrite IH.
  rewrite Z.shiftr_shiftr by lia. f_equal. f_equal. lia.
Qed.

Lemma length_concat_bits l : length (concat (map (bits_of 8) l)) = (8 * length l)%nat.
Proof.
  induction l as [|x l IH]; [done|].
  change (concat (map (bits_of 8) (x :: l)))
    with (bits_of 8 x ++ concat (map (bits_of 8) l)).
  rewrite length_app, length_bits_of, IH. simpl length. lia.
Qed.

Lemma length_pending bs :
  length (pending bs) =
  (Z.to_nat (remain bs) + 8 * (length (rdata bs) - Z.to_nat (bytes_offset bs)))%nat.
Proof.
  unfold pending. by rewrite length_app, length_bits_of, length_concat_bits, length_drop.
Qed.

Lemma testbit_above r off i : 0 <= r < 2 ^ off → off <= i → Z.testbit r i = false.
Proof.
  intros Hr Hi. destruct (decide (r = 0)) as [->|]; [apply Z.bits_0|].
  apply Z.bits_above_log2; [lia|].
  apply Z.lt_le_trans with off; [apply Z.log2_lt_pow2; lia|lia].
Qed.

Lemma lor_add_shiftl r x off :
  0 <= off → 0 <= r < 2 ^ off → Z.lor r (Z.shiftl x off) = r + 2 ^ off * x.
Proof.
  intros Ho Hr. rewrite Z.shiftl_mul_pow2 by done.
  assert (Z.land r (x * 2 ^ off) = 0) as H0.
  { apply Z.bits_inj'. intros i Hi. rewrite Z.land_spec, Z.bits_0.
    destruct (Z.ltb_spec i off).
    - rewrite Z.mul_pow2_bits_low by done. apply andb_false_r.
    - by rewrite (testbit_above r off). }
  rewrite <-Z.lxor_lor, <-Z.add_nocarry_lxor by done. lia.
Qed.

(** ** Correctness of the readers *)

Lemma refill_spec bs :
  bs_valid bs → more_bytes bs →
  ∃ bs', refill bs = Ok bs' ∧ bs_valid bs' ∧ pending bs' = pending bs ∧
    0 < remain bs' ∧ rdata bs' = rdata bs ∧ bytes_length bs' = bytes_length bs ∧
    (remain bs' = 8 ∨ bytes_offset bs' = bytes_offset bs).
Proof.
  intros Hv Hm. pose proof Hv as [Hl Ho Hr]. unfold refill, more_bytes in *.
  destruct (Z.eqb_spec (remain bs) 0) as [E|E]; [|exists bs; split_and!; auto; lia].
  destruct (Z.ltb_spec (bytes_offset bs) 0); [lia|].
  destruct (lookup_lt_is_Some_2 (rdata bs) (Z.to_nat (bytes_offset bs))) as [t Ht];
    [lia|].
  rewrite Ht. simpl. eexists; split; [reflexivity|]. simpl.
  split_and!; auto; try lia.
  - split; simpl; lia.
  - unfold pending. simpl. rewrite E. change (Z.to_nat 0) with O.
    rewrite (drop_S _ _ _ Ht), Z2Nat.inj_add by lia.
    by rewrite Nat.add_comm.
Qed.

Lemma take_split {A} (k n : nat) (l : list A) :
  (k <= n)%nat → take n l = take k l ++ take (n - k) (drop k l).
Proof.
  intros. rewrite <-(take_drop k (take n l)), take_take, skipn_firstn_comm.
  by rewrite Nat.min_l.
Qed.

(** One chunk: [pick] bits leave the buffered byte. *)
Lemma pick_spec bs pick :
  bs_valid bs → 0 <= pick <= remain bs →
  let bs' := mk_bs (rdata bs) (bytes_length bs) (bytes_offset bs)
               (remain bs - pick) (Z.shiftr (tmp bs) pick) in
  bs_valid bs' ∧ pending bs' = drop (Z.to_nat pick) (pending bs) ∧
  Z.land (tmp bs) (Z.shiftl 1 pick - 1)
    = bits_val (take (Z.to_nat pick) (pending bs)).
Proof.
  intros [Hl Ho Hr] Hp bs'. split_and!.
  - split; simpl; lia.
  - unfold pending. simpl.
    rewrite drop_app_le by (rewrite length_bits_of; lia).
    rewrite drop_bits_of, Z2Nat.id, Z2Nat.inj_sub by lia. done.
  - unfold pending. rewrite take_app_le by (rewrite length_bits_of; lia).
    rewrite take_bits_of, bits_val_bits_of, Z2Nat.id by lia.
    by rewrite wrap_land_ones by lia.
Qed.

Lemma read_bits_loop_spec fuel bs num off r :
  bs_valid bs → (num = 0 ∨ remain bs = 0 ∨ more_bytes bs) →
  0 <= num → (Z.to_nat num <= fuel)%nat → 0 <= off → off + num <= 32 →
  0 <= r < 2 ^ off → (Z.to_nat num <= length (pending bs))%nat →
  ∃ bs', read_bits_loop fuel bs num off r
    = Ok (r + 2 ^ off * bits_val (take (Z.to_nat num) (pending bs)), bs') ∧
  bs_valid bs' ∧ pending bs' = drop (Z.to_nat num) (pending bs) ∧
  rdata bs' = rdata bs.
Proof.
  revert bs num off r; induction fuel as [|fuel IH];
    intros bs num off r Hv Hm Hn Hf Ho Hon Hr Hp; simpl read_bits_loop;
    (destruct (Z.leb_spec num 0);
     [assert (num = 0) as -> by lia; exists bs; split_and!; auto;
      simpl; f_equal; f_equal; lia|]); [lia|].
  assert (more_bytes bs) as Hm'.
  { destruct Hm as [?|[E|]]; [lia| |done]. rewrite length_pending, E in Hp.
    destruct Hv as [Hl ? ?]. unfold more_bytes. lia. }
  destruct (Z.leb_spec (bytes_length bs) (bytes_offset bs)) as [|_];
    [unfold more_bytes in *; lia|].
  destruct (refill_spec bs Hv Hm') as (b1 & -> & Hv1 & Hp1 & Hr1 & Hd1 & Hl1 & Hc).
  simpl. rewrite (proj2 (Z.ltb_lt off 32)) by lia. simpl.
  rewrite <-Hp1 in *. set (pick := VMIR_MIN num (remain b1)).
  assert (0 < pick <= num ∧ pick <= remain b1 ∧ (pick = num ∨ pick = remain b1)) as Hpk.
  { unfold pick, VMIR_MIN. destruct (Z.ltb_spec num (remain b1)); lia. }
  clearbody pick.
  destruct (pick_spec b1 pick Hv1 ltac:(lia)) as (Hv2 & Hp2 & ->).
  set (b2 := mk_bs _ _ _ _ _) in *.
  set (c := bits_val (take (Z.to_nat pick) (pending b1))) in *.
  assert (0 <= c < 2 ^ pick) as Hcr.
  { pose proof (bits_val_range (take (Z.to_nat pick) (pending b1))) as Hb.
    rewrite length_take_le, Z2Nat.id in Hb by lia. done. }
  rewrite lor_add_shiftl by lia.
  assert (0 <= r + 2 ^ off * c < 2 ^ (off + pick)) as Hr2.
  { rewrite Z.pow_add_r by lia. nia. }
  rewrite (wrap_small 32) by
    (split; [lia|]; eapply Z.lt_le_trans; [apply Hr2|]; apply Z.pow_le_mono_r; lia).
  destruct (IH b2 (num - pick) (off + pick) (r + 2 ^ off * c))
    as (b3 & -> & Hv3 & Hp3 & Hd3); try lia; try done.
  { destruct Hpk as (_ & _ & [->| ->]); [left; lia|right; left; simpl; lia]. }
  { rewrite Hp2, length_drop. lia. }
  exists b3. split_and!; auto; [|by rewrite Hp3, Hp2, drop_drop; f_equal; lia|by simpl in *; congruence].
  do 2 f_equal. rewrite Hp2.
  rewrite (take_split (Z.to_nat pick) (Z.to_nat num)) by lia.
  rewrite bits_val_app, length_take_le, Z2Nat.id by lia. fold c.
  rewrite Z2Nat.inj_sub, Z.pow_add_r by lia. lia.
Qed.

Lemma read_bits_spec bs num :
  bs_valid bs → (num = 0 ∨ remain bs = 0 ∨ more_bytes bs) → 0 <= num <= 32 →
  (Z.to_nat num <= length (pending bs))%nat →
  ∃ bs', read_bits bs num = Ok (bits_val (take (Z.to_nat num) (pending bs)), bs') ∧
  bs_valid bs' ∧ pending bs' = drop (Z.to_nat num) (pending bs) ∧
  rdata bs' = rdata bs.
Proof.
  intros Hv Hm Hn Hp.
  destruct (read_bits_loop_spec (Z.to_nat num) bs num 0 0)
    as (bs' & E & H); auto; try lia.
  exists bs'. unfold read_bits. rewrite E. split; [|done].
  do 2 f_equal. change (2 ^ 0) with 1. lia.
Qed.

(** More than eight pending bits are never all in the buffered byte. *)
Lemma pending_more bs :
  bs_valid bs → (8 < length (pending bs))%nat → more_bytes bs.
Proof.
  intros [Hl Ho Hr] Hp. rewrite length_pending in Hp. unfold more_bytes. lia.
Qed.

(** Bits of [x] that the encoder wrote come back. *)
Lemma read_bits_of bs w x rest :
  bs_valid bs → 0 <= w <= 32 → (8 < length rest)%nat →
  pending bs = bits_of (Z.to_nat w) x ++ rest →
  ∃ bs', read_bits bs w = Ok (wrap w x, bs') ∧ bs_valid bs' ∧ pending bs' = rest.
Proof.
  intros Hv Hw Hrest Hp.
  destruct (read_bits_spec bs w) as (bs' & E & Hv' & Hp' & _); auto.
  { right. right. apply pending_more; [done|]. rewrite Hp, length_app. lia. }
  { rewrite Hp, length_app, length_bits_of. lia. }
  exists bs'. rewrite E. split_and!; [|done|].
  - rewrite Hp, take_app_le by (rewrite length_bits_of; lia).
    rewrite take_bits_of by lia. rewrite bits_val_bits_of, Z2Nat.id by lia. done.
  - rewrite Hp', Hp, drop_app_ge by (rewrite length_bits_of; lia).
    by rewrite length_bits_of, Nat.sub_diag, drop_0.
Qed.

(** Splitting a continuation chunk. *)
Lemma chunk_cont w m :
  1 <= w → 0 <= m < 2 ^ (w - 1) →
  Z.land (m + 2 ^ (w - 1)) (2 ^ (w - 1) - 1) = m ∧
  Z.land (2 ^ (w - 1)) (m + 2 ^ (w - 1)) = 2 ^ (w - 1).
Proof.
  intros Hw Hm.
  assert (m + 2 ^ (w - 1) = Z.lor m (Z.shiftl 1 (w - 1))) as ->
    by (rewrite lor_add_shiftl; lia).
  replace (2 ^ (w - 1) - 1) with (Z.ones (w - 1)) by (rewrite Z.ones_equiv; lia).
  rewrite Z.shiftl_1_l.
  split; apply Z.bits_inj'; intros i Hi; rewrite Z.land_spec, Z.lor_spec.
  - destruct (Z.ltb_spec i (w - 1)).
    + rewrite Z.ones_spec_low, Z.pow2_bits_false, andb_true_r by lia.
      apply orb_false_r.
    + rewrite Z.ones_spec_high, andb_false_r by lia.
      by rewrite (testbit_above m (w - 1)).
  - rewrite Z.pow2_bits_eqb by lia. destruct (Z.eqb_spec (w - 1) i); [|done].
    by rewrite orb_true_r.
Qed.

Lemma chunk_last w v :
  1 <= w → 0 <= v < 2 ^ (w - 1) →
  Z.land v (2 ^ (w - 1) - 1) = v ∧ Z.land (2 ^ (w - 1)) v = 0.
Proof.
  intros Hw Hv.
  replace (2 ^ (w - 1) - 1) with (Z.ones (w - 1)) by (rewrite Z.ones_equiv; lia).
  rewrite Z.land_ones, Z.mod_small by lia. split; [done|].
  apply Z.bits_inj'. intros i Hi. rewrite Z.land_spec, Z.bits_0.
  rewrite Z.pow2_bits_eqb by lia. destruct (Z.eqb_spec (w - 1) i) as [<-|]; [|done].
  by rewrite (testbit_above v (w - 1)).
Qed.

Lemma read_vbr_loop_encode limit n fuel bs w v ret stride rest :
  bs_valid bs → 2 <= w <= 32 → 0 <= stride < limit → 0 <= ret < 2 ^ stride →
  0 <= v → ret + 2 ^ stride * v < 2 ^ limit →
  v < 2 ^ (Z.of_nat n * (w - 1)) → (n <= fuel)%nat → (0 < n)%nat →
  (8 < length rest)%nat → pending bs = vbr_encode n w v ++ rest →
  ∃ bs', read_vbr_loop limit fuel bs w ret stride
    = Ok (ret + 2 ^ stride * v, bs') ∧ bs_valid bs' ∧ pending bs' = rest.
Proof.
  intros Hv Hw. revert fuel bs v ret stride Hv.
  induction n as [|n IH]; intros fuel bs v ret stride Hv Hst Hret Hv0 Hlim Hvn Hf Hn Hrest Hp;
    [lia|].
  destruct fuel as [|fuel]; [lia|]. simpl in Hp. simpl read_vbr_loop.
  rewrite Z.shiftl_1_l.
  assert (0 < 2 ^ (w - 1)) by (apply Z.pow_pos_nonneg; lia).
  assert (2 ^ w = 2 * 2 ^ (w - 1)) as Hpw
    by (rewrite <-Z.pow_succ_r by lia; f_equal; lia).
  destruct (Z.ltb_spec v (2 ^ (w - 1))) as [Hlt|Hge].
  - destruct (read_bits_of bs w v rest) as (b1 & -> & Hv1 & Hp1); auto; [lia|]. simpl.
    rewrite wrap_small by lia. destruct (chunk_last w v) as [-> ->]; [lia|lia|].
    simpl. exists b1. rewrite lor_add_shiftl by lia.
    rewrite wrap_small by (split; [nia|lia]). done.
  - set (m := v mod 2 ^ (w - 1)) in *.
    assert (0 <= m < 2 ^ (w - 1)) as Hm by (apply Z.mod_pos_bound; lia).
    rewrite <-(assoc_L (++)) in Hp.
    destruct (read_bits_of bs w (m + 2 ^ (w - 1)) (vbr_encode n w (v / 2 ^ (w - 1)) ++ rest))
      as (b1 & -> & Hv1 & Hp1); auto; [lia|rewrite length_app; lia|]. simpl.
    rewrite wrap_small by lia.
    destruct (chunk_cont w m ltac:(lia) Hm) as [-> ->].
    destruct (Z.eqb_spec (2 ^ (w - 1)) 0); [lia|]. simpl.
    rewrite lor_add_shiftl by lia.
    assert (v = 2 ^ (w - 1) * (v / 2 ^ (w - 1)) + m) as Hdiv by (apply Z.div_mod; lia).
    assert (1 <= v / 2 ^ (w - 1)) as Hq by (apply Z.div_le_lower_bound; lia).
    set (q := v / 2 ^ (w - 1)) in *. clearbody q m.
    assert (2 ^ (stride + (w - 1)) = 2 ^ stride * 2 ^ (w - 1)) as Hps
      by (rewrite Z.pow_add_r by lia; lia).
    assert (0 < 2 ^ stride) by (apply Z.pow_pos_nonneg; lia).
    assert (2 ^ stride * v = 2 ^ (stride + (w - 1)) * q + 2 ^ stride * m) as Hsv
      by (rewrite Hps, Hdiv; lia).
    rewrite wrap_small by nia.
    assert (stride + (w - 1) < limit) as Hsl.
    { apply (Z.pow_lt_mono_r_iff 2); [lia|lia|]. nia. }
    rewrite (proj2 (Z.ltb_lt _ _) Hsl). simpl.
    destruct n as [|n].
    { simpl Z.of_nat in Hvn. rewrite Z.mul_1_l in Hvn. lia. }
    destruct (IH fuel b1 q (ret + 2 ^ stride * m) (stride + (w - 1)))
      as (b2 & -> & Hv2 & Hp2); auto; try lia; try nia.
    { apply (Z.mul_lt_mono_pos_l (2 ^ (w - 1))); [lia|].
      rewrite <-Z.pow_add_r by nia.
      replace (w - 1 + Z.of_nat (S n) * (w - 1)) with (Z.of_nat (S (S n)) * (w - 1)) by lia.
      lia. }
    exists b2. split_and!; auto. do 2 f_equal. lia.
Qed.

(** Every run of the loop ends; a run that yields a nonzero field consumed
    bits. *)
Lemma read_bits_loop_total fuel bs num off r :
  bs_valid bs → 0 <= num → (Z.to_nat num <= fuel)%nat → 0 <= off → off + num <= 32 →
  ∃ x bs', read_bits_loop fuel bs num off r = Ok (x, bs') ∧ bs_valid bs' ∧
    rdata bs' = rdata bs ∧ (length (pending bs') <= length (pending bs))%nat ∧
    (0 < num → x ≠ 0 → (length (pending bs') < length (pending bs))%nat).
Proof.
  revert bs num off r; induction fuel as [|fuel IH];
    intros bs num off r Hv Hn Hf Ho Hon; simpl read_bits_loop;
    (destruct (Z.leb_spec num 0);
     [exists r, bs; split_and!; auto; lia|]); [lia|].
  destruct (Z.leb_spec (bytes_length bs) (bytes_offset bs)) as [|Hm];
    [exists 0, bs; split_and!; auto; lia|].
  destruct (refill_spec bs Hv Hm) as (b1 & -> & Hv1 & <- & Hr1 & Hd1 & _).
  simpl. rewrite (proj2 (Z.ltb_lt off 32)) by lia. simpl.
  set (pick := VMIR_MIN num (remain b1)).
  assert (0 < pick <= num ∧ pick <= remain b1) as Hpk.
  { unfold pick, VMIR_MIN. destruct (Z.ltb_spec num (remain b1)); lia. }
  clearbody pick.
  destruct (pick_spec b1 pick Hv1 ltac:(lia)) as (Hv2 & Hp2 & _).
  set (b2 := mk_bs _ _ _ _ _) in *.
  edestruct (IH b2 (num - pick) (off + pick)) as (x & b3 & -> & Hv3 & Hd3 & Hl3 & _);
    [done|lia|lia|lia|lia|].
  assert (length (pending b2) < length (pending b1))%nat as Hlt.
  { rewrite Hp2, length_drop.
    rewrite (length_pending b1) at 2. rewrite (length_pending b1). lia. }
  exists x, b3. split_and!; auto; try lia. by rewrite Hd3.
Qed.

Lemma read_bits_ends bs num :
  bs_valid bs → 0 <= num <= 32 →
  ∃ x bs', read_bits bs num = Ok (x, bs') ∧ bs_valid bs' ∧
    rdata bs' = rdata bs ∧ (length (pending bs') <= length (pending bs))%nat ∧
    (0 < num → x ≠ 0 → (length (pending bs') < length (pending bs))%nat).
Proof. intros. apply read_bits_loop_total; auto; lia. Qed.

Lemma read_vbr_loop_ends limit fuel bs width ret stride :
  bs_valid bs → 1 <= width <= 32 → (length (pending bs) < fuel)%nat →
  (∃ v bs', read_vbr_loop limit fuel bs width ret stride = Ok (v, bs') ∧
     bs_valid bs' ∧ rdata bs' = rdata bs ∧
     (length (pending bs') <= length (pending bs))%nat)
  ∨ read_vbr_loop limit fuel bs width ret stride = Fail AssertFail.
Proof.
  intros Hv Hw. revert bs ret stride Hv.
  induction fuel as [|fuel IH]; intros bs ret stride Hv Hf; [lia|].
  simpl read_vbr_loop.
  destruct (read_bits_ends bs width Hv ltac:(lia))
    as (x & b1 & -> & Hv1 & Hd1 & Hl1 & Hs1). simpl.
  destruct (Z.eqb_spec (Z.land (Z.shiftl 1 (width - 1)) x) 0) as [_|Hc]; simpl.
  { left. eauto 10. }
  destruct (_ <? limit); simpl; [|by right].
  assert (x ≠ 0) as Hx by (intros ->; by rewrite Z.land_0_r in Hc).
  destruct (IH b1 (wrap limit (Z.lor ret (Z.shiftl
    (Z.land x (Z.shiftl 1 (width - 1) - 1)) stride))) (stride + (width - 1)) Hv1)
    as [(v & b2 & E & Hv2 & Hd2 & Hl2)|E]; [specialize (Hs1 ltac:(lia) Hx); lia| |].
  - left. exists v, b2. split_and!; auto; [congruence|lia].
  - by right.
Qed.

Lemma vbr_fuel_enough bs : bs_valid bs → (length (pending bs) < vbr_fuel bs)%nat.
Proof. intros Hv. rewrite length_pending. unfold vbr_fuel. lia. Qed.

Lemma encode_bound w v m :
  2 <= w → 0 <= v < 2 ^ Z.of_nat m → v < 2 ^ (Z.of_nat (S m) * (w - 1)).
Proof.
  intros Hw Hv. eapply Z.lt_le_trans; [apply Hv|]. apply Z.pow_le_mono_r; nia.
Qed.

(** ** Properties *)

Lemma land_1 x : Z.land x 1 = x mod 2.
Proof. change 1 with (Z.ones 1). by rewrite Z.land_ones by lia. Qed.

(** C25: [read_bits] yields exactly the next [num] bits of the stream, least
    significant bit first, and removes exactly these bits, provided the
    data is not exhausted: the reader is aligned on a byte or has a byte
    left to load, and [num] bits are pending. *)
Theorem read_bits_exact bs num :
  bs_valid bs → remain bs = 0 ∨ more_bytes bs → 0 <= num <= 32 →
  (Z.to_nat num <= length (pending bs))%nat →
  ∃ bs', read_bits bs num = Ok (bits_val (take (Z.to_nat num) (pending bs)), bs') ∧
  bs_valid bs' ∧ pending bs' = drop (Z.to_nat num) (pending bs).
Proof.
  intros Hv Hm Hn Hp.
  destruct (read_bits_spec bs num) as (bs' & ? & ? & ? & _); eauto.
Qed.

Theorem read_bits_exact_witness :
  ∃ bs', read_bits (bs_init [171; 205; 1; 0]) 12
    = Ok (bits_val (take 12 (pending (bs_init [171; 205; 1; 0]))), bs') ∧
  bs_valid bs' ∧
  pending bs' = drop 12 (pending (bs_init [171; 205; 1; 0])).
Proof.
  apply (read_bits_exact (bs_init [171; 205; 1; 0]) 12).
  - split; simpl; lia.
  - left. reflexivity.
  - lia.
  - vm_compute. lia.
Defined.

(** Once the last byte is loaded the reader yields 0 for every field
    and does not advance, even though bits of that byte are pending: the
    test [bytes_offset >= bytes_length] is made before the test for
    buffered bits. *)
Theorem read_bits_last_byte bs num :
  bytes_length bs <= bytes_offset bs → 0 < num → read_bits bs num = Ok (0, bs).
Proof.
  intros Hm Hn. unfold read_bits.
  destruct (Z.to_nat num) as [|k] eqn:E; [lia|]. simpl.
  destruct (Z.leb_spec num 0); [lia|].
  destruct (Z.leb_spec (bytes_length bs) (bytes_offset bs)); [done|lia].
Qed.

Theorem read_bits_last_byte_witness :
  (* the stream ff: the first four bits are 15, the next four read as 0 *)
  ∃ bs', read_bits (bs_init [255]) 4 = Ok (15, bs') ∧
    pending bs' = [true; true; true; true] ∧ read_bits bs' 4 = Ok (0, bs').
Proof.
  exists (mk_bs [255] 1 1 4 15). split; [reflexivity|]. split; [reflexivity|].
  apply (read_bits_last_byte (mk_bs [255] 1 1 4 15) 4); simpl; lia.
Defined.

(** A 64-bit value written in variable bit rate chunks of [w] bits is
    read back by [read_vbr64], which stops exactly behind it. *)
Theorem read_vbr64_roundtrip bs w v rest :
  bs_valid bs → 2 <= w <= 32 → 0 <= v < 2 ^ 64 → (8 < length rest)%nat →
  pending bs = vbr_encode 65 w v ++ rest →
  ∃ bs', read_vbr64 bs w = Ok (v, bs') ∧ bs_valid bs' ∧ pending bs' = rest.
Proof.
  intros Hv Hw Hvr Hrest Hp. unfold read_vbr64.
  rewrite (proj2 (Z.ltb_lt 0 w)), (proj2 (Z.leb_le w 32)) by lia. rok.
  destruct (read_vbr_loop_encode 64 65 (vbr_fuel bs) bs w v 0 0 rest)
    as (bs' & E & H); auto; try lia.
  - apply (encode_bound w v 64); [lia|]. change (Z.of_nat 64) with 64. lia.
  - unfold vbr_fuel. lia.
  - exists bs'. rewrite E. split; [|done]. do 2 f_equal.
    change (2 ^ 0) with 1. lia.
Qed.

Theorem read_vbr64_roundtrip_witness :
  ∃ bs', read_vbr64 (bs_init [47; 0; 0]) 4 = Ok (23, bs') ∧
    bs_valid bs' ∧ pending bs' = replicate 16 false.
Proof.
  apply (read_vbr64_roundtrip (bs_init [47; 0; 0]) 4 23 (replicate 16 false)).
  - split; simpl; lia.
  - lia.
  - lia.
  - simpl. lia.
  - vm_compute. reflexivity.
Defined.

(** [read_vbr] ends on every valid stream and for every chunk width the
    code can use: it returns a value or stops at the [assert] on the number
    of chunks. *)
Theorem read_vbr_total bs width :
  bs_valid bs → 1 <= width <= 32 →
  (∃ v bs', read_vbr bs width = Ok (v, bs') ∧ bs_valid bs')
  ∨ read_vbr bs width = Fail AssertFail.
Proof.
  intros Hv Hw. unfold read_vbr.
  rewrite (proj2 (Z.ltb_lt 0 width)), (proj2 (Z.leb_le width 32)) by lia. rok.
  destruct (read_vbr_loop_ends 32 (vbr_fuel bs) bs width 0 0 Hv Hw
    (vbr_fuel_enough bs Hv)) as [(v & b & ? & ? & _)|]; eauto.
Qed.

Theorem read_vbr_total_witness :
  (∃ v bs', read_vbr (bs_init [255; 255; 255; 255; 255; 255; 255]) 6 = Ok (v, bs')
    ∧ bs_valid bs')
  ∨ read_vbr (bs_init [255; 255; 255; 255; 255; 255; 255]) 6 = Fail AssertFail.
Proof.
  apply (read_vbr_total (bs_init [255; 255; 255; 255; 255; 255; 255]) 6).
  - split; simpl; lia.
  - lia.
Defined.

(** [read_sign_rotated] inverts the sign rotation of the bitcode format
    on every 64-bit signed integer, the minimal one included. *)
Theorem read_sign_rotated_inverse v :
  - 2 ^ 63 <= v < 2 ^ 63 → read_sign_rotated (sign_rotate v) = v.
Proof.
  intros Hv. unfold read_sign_rotated, sign_rotate.
  destruct (Z.eqb_spec v (- 2 ^ 63)) as [->|Hn]; [by vm_compute|].
  rewrite land_1.
  destruct (Z.ltb_spec v 0).
  - rewrite wrap_small by lia.
    rewrite Z.shiftr_div_pow2 by lia. change (2 ^ 1) with 2.
    replace ((2 * - v + 1) mod 2) with 1 by
      (rewrite Z.add_comm, Z.mul_comm, Z_mod_plus_full; reflexivity).
    replace ((2 * - v + 1) / 2) with (- v) by
      (rewrite Z.mul_comm, Z.div_add_l by lia; change (1 / 2) with 0; lia).
    simpl. destruct (Z.eqb_spec (2 * - v + 1) 1); [lia|]. simpl.
    rewrite Z.opp_involutive. apply sgn_small; [lia|]. change (64 - 1) with 63. lia.
  - rewrite wrap_small by lia.
    rewrite Z.shiftr_div_pow2 by lia. change (2 ^ 1) with 2.
    rewrite Z.mul_comm, Z_mod_mult, Z.div_mul by lia. simpl.
    apply sgn_small; [lia|]. change (64 - 1) with 63. lia.
Qed.

Theorem read_sign_rotated_inverse_witness :
  read_sign_rotated (sign_rotate (-5)) = -5.
Proof. apply (read_sign_rotated_inverse (-5)). lia. Defined.
