(* ===== verification/Types.v ===== *)
(** The type table of [src/src/vmir_type.c]: types, their sizes and
    alignments, the decoding of type records and the layout of structures.
    The C union of [ir_type_t] is an inductive type; a field that is only
    written by the layout pass is an [option], so that reading it before the
    pass has run is [Undef]. *)
From S2P Require Import Prelude Support Bitstream.
Local Open Scope Z_scope.

(** ** Data *)

(** [ir_type_code_t], in the order of the enum. *)
Inductive ir_type_code : Type :=
  | IR_TYPE_STRUCT | IR_TYPE_VOID | IR_TYPE_INT1 | IR_TYPE_INT8
  | IR_TYPE_INT16 | IR_TYPE_INT32 | IR_TYPE_INT64 | IR_TYPE_INTx
  | IR_TYPE_FLOAT | IR_TYPE_DOUBLE | IR_TYPE_ARRAY | IR_TYPE_POINTER
  | IR_TYPE_FUNCTION | IR_TYPE_METADATA | IR_TYPE_LABEL | IR_TYPE_OPAQUE.

#[export] Instance ir_type_code_eq_dec : EqDecision ir_type_code.
Proof. solve_decision. Defined.

(** [it_struct]. [st_layout] is (size, alignment), present when [computed]
    is set; an element is its type and, once laid out, its offset. *)
Record ir_struct := mk_struct {
  st_name : option (list Z);
  st_elements : list (Z * option Z);
  st_packed : bool;
  st_layout : option (Z * Z);
}.

(** [it_function]. *)
Record ir_ftype := mk_ftype {
  ft_parameters : list Z;
  ft_return_type : Z;
  ft_varargs : Z;
}.

Inductive ir_type : Type :=
  | T_STRUCT (s : ir_struct)
  | T_VOID | T_INT1 | T_INT8 | T_INT16 | T_INT32 | T_INT64
  | T_INTx (it_bits : Z)
  | T_FLOAT | T_DOUBLE
  | T_ARRAY (num_elements element_type : Z)
  | T_POINTER (pointee : Z)
  | T_FUNCTION (f : ir_ftype)
  | T_METADATA | T_LABEL | T_OPAQUE.

Definition it_code (it : ir_type) : ir_type_code :=
  match it with
  | T_STRUCT _ => IR_TYPE_STRUCT | T_VOID => IR_TYPE_VOID
  | T_INT1 => IR_TYPE_INT1 | T_INT8 => IR_TYPE_INT8
  | T_INT16 => IR_TYPE_INT16 | T_INT32 => IR_TYPE_INT32
  | T_INT64 => IR_TYPE_INT64 | T_INTx _ => IR_TYPE_INTx
  | T_FLOAT => IR_TYPE_FLOAT | T_DOUBLE => IR_TYPE_DOUBLE
  | T_ARRAY _ _ => IR_TYPE_ARRAY | T_POINTER _ => IR_TYPE_POINTER
  | T_FUNCTION _ => IR_TYPE_FUNCTION | T_METADATA => IR_TYPE_METADATA
  | T_LABEL => IR_TYPE_LABEL | T_OPAQUE => IR_TYPE_OPAQUE
  end.

(** The part of [ir_unit_t] that the type code reads and writes. *)
Record type_state := mk_types {
  iu_types : list ir_type;
  iu_types_created : bool;
  iu_current_struct_name : option (list Z);
}.

(** ** Table access *)

(** [type_get]: the index is converted to [unsigned int]. *)
Definition type_get (types : list ir_type) (id : Z) : res ir_type :=
  oget (types !! Z.to_nat (u32 id)) ParserError.

Definition type_get_pointee (types : list ir_type) (id : Z) : res Z :=
  it ← type_get types id;
  match it with
  | T_POINTER pointee =>
      _ ← check (negb (pointee =? -1)) ParserError;
      Ok (u32 pointee)
  | _ => Fail ParserError
  end.

(** The first index whose type satisfies [p]: the search loops. *)
Fixpoint find_type (p : ir_type → bool) (types : list ir_type) (i : Z) : option Z :=
  match types with
  | [] => None
  | t :: types => if p t then Some i else find_type p types (i + 1)
  end.

Definition has_code (c : ir_type_code) (t : ir_type) : bool :=
  bool_decide (it_code t = c).

(** The type [ir_type_t it; it.it_code = code]: only the code is set, so a
    code with a payload has indeterminate contents. *)
Definition type_of_code (c : ir_type_code) : res ir_type :=
  match c with
  | IR_TYPE_VOID => Ok T_VOID | IR_TYPE_INT1 => Ok T_INT1
  | IR_TYPE_INT8 => Ok T_INT8 | IR_TYPE_INT16 => Ok T_INT16
  | IR_TYPE_INT32 => Ok T_INT32 | IR_TYPE_INT64 => Ok T_INT64
  | IR_TYPE_FLOAT => Ok T_FLOAT | IR_TYPE_DOUBLE => Ok T_DOUBLE
  | IR_TYPE_METADATA => Ok T_METADATA | IR_TYPE_LABEL => Ok T_LABEL
  | IR_TYPE_OPAQUE => Ok T_OPAQUE
  | _ => Fail Undef
  end.

Definition push_type (st : type_state) (t : ir_type) : type_state :=
  mk_types (iu_types st ++ [t]) true (iu_current_struct_name st).

Definition type_make (st : type_state) (code : ir_type_code)
    : res (Z * type_state) :=
  match find_type (has_code code) (iu_types st) 0 with
  | Some i => Ok (i, st)
  | None =>
      t ← type_of_code code;
      Ok (Z.of_nat (length (iu_types st)), push_type st t)
  end.

Definition is_pointer_to (type : Z) (t : ir_type) : bool :=
  match t with T_POINTER p => p =? type | _ => false end.

Definition type_make_pointer (st : type_state) (type : Z) (may_create : bool)
    : Z * type_state :=
  match find_type (is_pointer_to type) (iu_types st) 0 with
  | Some i => (i, st)
  | None =>
      if negb may_create then (-1, st)
      else (Z.of_nat (length (iu_types st)), push_type st (T_POINTER type))
  end.

Definition type_find_by_code (types : list ir_type) (code : ir_type_code) : res Z :=
  oget (find_type (has_code code) types 0) ParserError.

(** ** Sizes and alignments *)

(** [type_sizeof_ptr]; the recursion through [type_sizeof] on array elements
    is bounded by [fuel]. *)
Fixpoint type_sizeof_fuel (fuel : nat) (types : list ir_type) (it : ir_type)
    : res Z :=
  match fuel with
  | O => Fail NoFuel
  | S fuel =>
    match it with
    | T_VOID => Ok 0
    | T_INT1 | T_INT8 => Ok 1
    | T_INT16 => Ok 2
    | T_INT32 | T_FLOAT => Ok 4
    | T_INT64 | T_DOUBLE => Ok 8
    | T_INTx bits =>
        if bits <=? 32 then Ok 4 else if bits <=? 64 then Ok 8
        else Fail ParserError
    | T_POINTER _ => Ok 4
    | T_STRUCT s => '(size, _) ← oget (st_layout s) Undef; Ok (u32 size)
    | T_ARRAY n et =>
        ety ← type_get types et;
        s ← type_sizeof_fuel fuel types ety;
        Ok (u32 (s * u32 n))
    | _ => Fail ParserError
    end
  end.

(** One more than the length of the table: see [type_sizeof_ends]. *)
Definition type_sizeof_ptr (types : list ir_type) (it : ir_type) : res Z :=
  type_sizeof_fuel (S (length types)) types it.

Definition type_sizeof (types : list ir_type) (index : Z) : res Z :=
  it ← type_get types index; type_sizeof_ptr types it.

Definition type_code_mask (code : ir_type_code) : Z :=
  match code with
  | IR_TYPE_INT1 | IR_TYPE_INT8 => 255
  | IR_TYPE_INT16 => 65535
  | _ => 4294967295
  end.

Definition type_bitwidth (it : ir_type) : res Z :=
  match it with
  | T_VOID => Ok 0
  | T_INT1 => Ok 1
  | T_INT8 => Ok 8
  | T_INT16 => Ok 16
  | T_INT32 => Ok 32
  | T_INT64 => Ok 64
  | T_INTx bits => Ok (u32 bits)
  | _ => Fail ParserError
  end.

Fixpoint type_alignment_fuel (fuel : nat) (types : list ir_type) (it : ir_type)
    : res Z :=
  match fuel with
  | O => Fail NoFuel
  | S fuel =>
    match it with
    | T_VOID => Ok 0
    | T_INT1 | T_INT8 => Ok 1
    | T_INT16 => Ok 2
    | T_INT32 | T_FLOAT => Ok 4
    | T_INT64 | T_DOUBLE => Ok 8
    | T_INTx bits =>
        if bits <=? 32 then Ok 4 else if bits <=? 64 then Ok 8
        else Fail ParserError
    | T_POINTER _ => Ok 4
    | T_STRUCT s => '(_, alignment) ← oget (st_layout s) Undef; Ok (u32 alignment)
    | T_ARRAY _ et =>
        ety ← type_get types et; type_alignment_fuel fuel types ety
    | _ => Fail ParserError
    end
  end.

Definition type_alignment_ptr (types : list ir_type) (it : ir_type) : res Z :=
  type_alignment_fuel (S (length types)) types it.

Definition type_alignment (types : list ir_type) (index : Z) : res Z :=
  it ← type_get types index; type_alignment_ptr types it.

Definition legalize_type (ty : ir_type) : ir_type_code :=
  match ty with
  | T_INTx bits =>
      if bits <=? 8 then IR_TYPE_INT8
      else if bits <=? 16 then IR_TYPE_INT16
      else if bits <=? 32 then IR_TYPE_INT32
      else if bits <=? 64 then IR_TYPE_INT64
      else IR_TYPE_INTx
  | _ => it_code ty
  end.

(** ** Decoding of type records *)

Definition TYPE_CODE_NUMENTRY : Z := 1.
Definition TYPE_CODE_VOID : Z := 2.
Definition TYPE_CODE_FLOAT : Z := 3.
Definition TYPE_CODE_DOUBLE : Z := 4.
Definition TYPE_CODE_LABEL : Z := 5.
Definition TYPE_CODE_OPAQUE : Z := 6.
Definition TYPE_CODE_INTEGER : Z := 7.
Definition TYPE_CODE_POINTER : Z := 8.
Definition TYPE_CODE_ARRAY : Z := 11.
Definition TYPE_CODE_METADATA : Z := 16.
Definition TYPE_CODE_STRUCT_ANON : Z := 18.
Definition TYPE_CODE_STRUCT_NAME : Z := 19.
Definition TYPE_CODE_STRUCT_NAMED : Z := 20.
Definition TYPE_CODE_FUNCTION : Z := 21.

(** [argv[i].i64]; reading beyond [argc] is undefined. *)
Definition arg (argv : list ir_arg) (i : nat) : res Z := oget (argv !! i) Undef.

Definition integer_type (width : Z) : res ir_type :=
  if width =? 1 then Ok T_INT1
  else if width =? 8 then Ok T_INT8
  else if width =? 16 then Ok T_INT16
  else if width =? 32 then Ok T_INT32
  else if width =? 64 then Ok T_INT64
  else if width <? 64 then Ok (T_INTx (s32 width))
  else Fail ParserError.

(** The part shared by named and anonymous structures. *)
Definition struct_type (name : option (list Z)) (argv : list ir_arg) : res ir_type :=
  packed ← arg argv 0;
  Ok (T_STRUCT (mk_struct name (map (λ a, (s32 a, None)) (tail argv))
                 (negb (packed =? 0)) None)).

Definition types_new_rec_handler (st : type_state) (op : Z) (argv : list ir_arg)
    : res type_state :=
  let push t := Ok (mk_types (iu_types st ++ [t]) (iu_types_created st)
                             (iu_current_struct_name st)) in
  _ ← check (negb (iu_types_created st)) AssertFail;
  if op =? TYPE_CODE_NUMENTRY then
    _ ← check (1 <=? Z.of_nat (length argv)) ParserError; Ok st
  else if op =? TYPE_CODE_VOID then push T_VOID
  else if op =? TYPE_CODE_FLOAT then push T_FLOAT
  else if op =? TYPE_CODE_DOUBLE then push T_DOUBLE
  else if op =? TYPE_CODE_INTEGER then
    w ← arg argv 0; t ← integer_type w; push t
  else if op =? TYPE_CODE_ARRAY then
    n ← arg argv 0; et ← arg argv 1; push (T_ARRAY (s32 n) (s32 et))
  else if op =? TYPE_CODE_STRUCT_NAME then
    Ok (mk_types (iu_types st) (iu_types_created st)
                 (Some (read_str_from_argv argv)))
  else if op =? TYPE_CODE_STRUCT_NAMED then
    t ← struct_type (iu_current_struct_name st) argv;
    Ok (mk_types (iu_types st ++ [t]) (iu_types_created st) None)
  else if op =? TYPE_CODE_STRUCT_ANON then
    t ← struct_type None argv; push t
  else if op =? TYPE_CODE_POINTER then
    p ← arg argv 0; push (T_POINTER (s32 p))
  else if op =? TYPE_CODE_FUNCTION then
    _ ← check (2 <=? Z.of_nat (length argv)) ParserError;
    va ← arg argv 0; ret ← arg argv 1;
    push (T_FUNCTION (mk_ftype (map s32 (drop 2 argv)) (s32 ret) (s32 va)))
  else if op =? TYPE_CODE_METADATA then push T_METADATA
  else if op =? TYPE_CODE_LABEL then push T_LABEL
  else if op =? TYPE_CODE_OPAQUE then push T_OPAQUE
  else Fail ParserError.

(** ** Structure layout *)

(** Assignments to the structure at index [i], in place in the table. *)
Definition set_offset (s : ir_struct) (j : nat) (offset : Z) : ir_struct :=
  mk_struct (st_name s) (alter (λ '(t, _), (t, Some offset)) j (st_elements s))
            (st_packed s) (st_layout s).
Definition set_layout (s : ir_struct) (size alignment : Z) : ir_struct :=
  mk_struct (st_name s) (st_elements s) (st_packed s) (Some (size, alignment)).
Definition on_struct (f : ir_struct → ir_struct) (t : ir_type) : ir_type :=
  match t with T_STRUCT s => T_STRUCT (f s) | _ => t end.

(** The state of the loop: the table, [offset] and [ba]. *)
Record layout_loop_state := mk_ll {
  ll_types : list ir_type;
  ll_offset : Z;
  ll_ba : Z;
}.

Section layout.
Context (layout_rec : list ir_type → nat → res (list ir_type)).

(** One iteration of the loop of [type_struct_layout] on the structure at
    index [i], for its element [j] of type [et]. *)
Definition layout_element (i : nat) (packed : bool) (ls : layout_loop_state)
    (e : nat * Z) : res layout_loop_state :=
  let '(j, et) := e in
  ty ← type_get (ll_types ls) et;
  types ← match ty with
          | T_STRUCT s =>
              match st_layout s with
              | None => layout_rec (ll_types ls) (Z.to_nat (u32 et))
              | Some _ => Ok (ll_types ls)
              end
          | _ => Ok (ll_types ls)
          end;
  ty ← type_get types et;
  s ← type_sizeof_ptr types ty;
  '(offset, ba) ←
    (if packed then Ok (ll_offset ls, ll_ba ls)
     else
       a ← type_alignment_ptr types ty;
       let a := s32 a in
       _ ← int_arith (ll_offset ls + a);
       Ok (VMIR_ALIGN (ll_offset ls) a, VMIR_MAX (ll_ba ls) a));
  let types := alter (on_struct (λ st, set_offset st j offset)) i types in
  offset' ← int_arith (offset + s32 s);
  Ok (mk_ll types offset' ba).

Definition type_struct_layout_body (types : list ir_type) (i : nat)
    : res (list ir_type) :=
  match types !! i with
  | Some (T_STRUCT s) =>
      ls ← foldR (layout_element i (st_packed s)) (mk_ll types 0 1)
                 (imap (λ j e, (j, fst e)) (st_elements s));
      size ← (if st_packed s then Ok (ll_offset ls)
              else _ ← int_arith (ll_offset ls + ll_ba ls);
                   Ok (VMIR_ALIGN (ll_offset ls) (ll_ba ls)));
      Ok (alter (on_struct (λ st, set_layout st size (ll_ba ls))) i (ll_types ls))
  | _ => Fail Undef
  end.
End layout.

(** [type_struct_layout] calls itself on elements that are structures
    without a layout. *)
Fixpoint type_struct_layout (fuel : nat) (types : list ir_type) (i : nat)
    : res (list ir_type) :=
  match fuel with
  | O => Fail NoFuel
  | S fuel => type_struct_layout_body (type_struct_layout fuel) types i
  end.

(** One index of [types_finalize]. *)
Definition finalize_one (types : list ir_type) (i : nat) : res (list ir_type) :=
  match types !! i with
  | Some (T_STRUCT s) =>
      match st_layout s with
      | None => type_struct_layout (S (length types)) types i
      | Some _ => Ok types
      end
  | _ => Ok types
  end.

Definition types_finalize (types : list ir_type) : res (list ir_type) :=
  foldR finalize_one types (seq 0 (length types)).

(** ** The table only gains layouts *)

(** [ty_le a b]: [b] is [a], or [a] is a structure without a layout and [b]
    the same structure with more layout information. *)
Definition ty_le (a b : ir_type) : Prop :=
  a = b ∨ ∃ s s', a = T_STRUCT s ∧ b = T_STRUCT s' ∧ st_layout s = None ∧
    map fst (st_elements s) = map fst (st_elements s') ∧
    st_packed s = st_packed s' ∧ st_name s = st_name s'.

Definition types_le : relation (list ir_type) := Forall2 ty_le.

#[export] Instance ty_le_preorder : PreOrder ty_le.
Proof.
  split; [by left|]. intros a b c [->|(s&s'&->&->&H1&H2&H3&H4)] Hbc; [done|].
  destruct Hbc as [<-|(s1&s2&[= <-]&->&H5&H6&H7&H8)]; right; [naive_solver|].
  exists s, s2. split_and!; congruence.
Qed.

#[export] Instance types_le_preorder : PreOrder types_le.
Proof. apply _. Qed.

Lemma types_le_length t t' : types_le t t' → length t = length t'.
Proof. apply Forall2_length. Qed.

Lemma types_le_alter t i f s :
  t !! i = Some (T_STRUCT s) → ty_le (T_STRUCT s) (T_STRUCT (f s)) →
  types_le t (alter (on_struct f) i t).
Proof.
  intros Hi Hle. apply Forall2_same_length_lookup_2; [by rewrite length_alter|].
  intros j x y Hx Hy. destruct (decide (i = j)) as [<-|Hn].
  - rewrite list_lookup_alter_eq, Hi in Hy. rewrite Hi in Hx. simplify_eq/=. done.
  - rewrite list_lookup_alter_ne in Hy by done. by simplify_eq.
Qed.

Lemma type_get_mono t t' id ty :
  types_le t t' → type_get t id = Ok ty →
  ∃ ty', type_get t' id = Ok ty' ∧ ty_le ty ty'.
Proof.
  unfold type_get. intros Hle H. inv_res.
  destruct (Forall2_lookup_l _ _ _ _ _ Hle H) as (ty' & -> & ?). eauto.
Qed.

Lemma type_get_lookup t id ty :
  type_get t id = Ok ty ↔ t !! Z.to_nat (u32 id) = Some ty.
Proof. unfold type_get. apply oget_Ok. Qed.

Lemma type_get_fail t id e : type_get t id = Fail e → e = ParserError.
Proof. unfold type_get. destruct (t !! Z.to_nat (u32 id)); naive_solver. Qed.

(** Sizes and alignments that are known do not change. *)
Lemma type_sizeof_fuel_mono n t t' ty ty' s :
  types_le t t' → ty_le ty ty' → type_sizeof_fuel n t ty = Ok s →
  type_sizeof_fuel n t' ty' = Ok s.
Proof.
  intros Hle. revert ty ty' s; induction n as [|n IH]; intros ty ty' s Hty H; [done|].
  destruct Hty as [<-|(s1&s2&->&->&H1&_)]; simpl in *.
  - destruct ty; try done. inv_res.
    destruct (type_get_mono _ _ _ _ Hle Hm) as (e' & -> & He). simpl.
    by rewrite (IH _ _ _ He Hm0).
  - by rewrite H1 in H.
Qed.

Lemma type_alignment_fuel_mono n t t' ty ty' s :
  types_le t t' → ty_le ty ty' → type_alignment_fuel n t ty = Ok s →
  type_alignment_fuel n t' ty' = Ok s.
Proof.
  intros Hle. revert ty ty' s; induction n as [|n IH]; intros ty ty' s Hty H; [done|].
  destruct Hty as [<-|(s1&s2&->&->&H1&_)]; simpl in *.
  - destruct ty; try done. inv_res.
    destruct (type_get_mono _ _ _ _ Hle Hm) as (e' & -> & He). simpl. eauto.
  - by rewrite H1 in H.
Qed.

Lemma type_sizeof_mono t t' id s :
  types_le t t' → type_sizeof t id = Ok s → type_sizeof t' id = Ok s.
Proof.
  unfold type_sizeof, type_sizeof_ptr. intros Hle H. inv_res.
  destruct (type_get_mono _ _ _ _ Hle Hm) as (e' & -> & He). rok.
  rewrite <-(types_le_length _ _ Hle). by eapply type_sizeof_fuel_mono.
Qed.

Lemma type_alignment_mono t t' id s :
  types_le t t' → type_alignment t id = Ok s → type_alignment t' id = Ok s.
Proof.
  unfold type_alignment, type_alignment_ptr. intros Hle H. inv_res.
  destruct (type_get_mono _ _ _ _ Hle Hm) as (e' & -> & He). rok.
  rewrite <-(types_le_length _ _ Hle). by eapply type_alignment_fuel_mono.
Qed.

(** ** Well-formed tables *)

Definition pow2_align (a : Z) : Prop := ∃ k, 0 <= k <= 3 ∧ a = 2 ^ k.

(** A non-negative [int]. *)
Definition nonneg_int (x : Z) : Prop := 0 <= x <= INT32_MAX.

(** What the layout of a structure promises: the elements lie one behind the
    other inside the structure, each aligned, and so is the total size. *)
Definition good_layout (t : list ir_type) (s : ir_struct) : Prop :=
  ∃ size al, st_layout s = Some (size, al) ∧ pow2_align al ∧ nonneg_int size ∧
  (st_packed s = false → (al | size)) ∧
  ∀ j et o, st_elements s !! j = Some (et, o) →
    ∃ off sz a, o = Some off ∧ type_sizeof t et = Ok sz ∧
      type_alignment t et = Ok a ∧ 0 <= off ∧ off + sz <= size ∧
      (st_packed s = false → (a | off) ∧ (a | al)) ∧
      ∀ k ek ok, (j < k)%nat → st_elements s !! k = Some (ek, Some ok) →
        off + sz <= ok.

(** Every structure of the table that has a layout has a good one. *)
Definition all_good (t : list ir_type) : Prop :=
  ∀ i s, t !! i = Some (T_STRUCT s) → st_layout s ≠ None → good_layout t s.

(** No element of a structure or an array is [void]. *)
Definition no_void_member (t : list ir_type) : Prop :=
  ∀ i ty, t !! i = Some ty →
    match ty with
    | T_STRUCT s => ∀ et, et ∈ map fst (st_elements s) → type_get t et ≠ Ok T_VOID
    | T_ARRAY _ et => type_get t et ≠ Ok T_VOID
    | _ => True
    end.

(** No type is larger than the [int] the layout computes with. *)
Definition sizes_small (t : list ir_type) : Prop :=
  ∀ id s, type_sizeof t id = Ok s → s < 2 ^ 31.

(** Containment by value has no cycle: [rank] decreases from a structure to
    its structure elements and from an array to its elements. *)
Definition ranked (rank : nat → nat) (t : list ir_type) : Prop :=
  ∀ i ty, t !! i = Some ty → (rank i <= length t)%nat ∧
    match ty with
    | T_STRUCT s => ∀ et s', et ∈ map fst (st_elements s) →
        type_get t et = Ok (T_STRUCT s') → (rank (Z.to_nat (u32 et)) < rank i)%nat
    | T_ARRAY _ et => is_Some (t !! Z.to_nat (u32 et)) →
        (rank (Z.to_nat (u32 et)) < rank i)%nat
    | _ => True
    end.

Lemma good_layout_mono t t' s : types_le t t' → good_layout t s → good_layout t' s.
Proof.
  intros Hle (size & al & H1 & H2 & H3 & H4 & H5).
  exists size, al. split_and!; auto. intros j et o Hj.
  destruct (H5 j et o Hj) as (off & sz & a & ?). exists off, sz, a.
  naive_solver eauto using type_sizeof_mono, type_alignment_mono.
Qed.

Lemma ty_le_inv_r t t' i ty' :
  types_le t t' → t' !! i = Some ty' → ∃ ty, t !! i = Some ty ∧ ty_le ty ty'.
Proof. intros Hle H. by apply (Forall2_lookup_r _ _ _ _ _ Hle H). Qed.

Lemma no_void_member_mono t t' :
  types_le t t' → no_void_member t → no_void_member t'.
Proof.
  intros Hle H i ty' Hi. destruct (ty_le_inv_r _ _ _ _ Hle Hi) as (ty & Hi0 & Hty).
  specialize (H i ty Hi0).
  assert (∀ et, type_get t et ≠ Ok T_VOID → type_get t' et ≠ Ok T_VOID) as Hv.
  { intros et Hne Hg. rewrite type_get_lookup in Hg.
    destruct (ty_le_inv_r _ _ _ _ Hle Hg) as (e & He & [->|(?&?&?&?&_)]); [|done].
    by apply Hne, type_get_lookup. }
  destruct Hty as [<-|(s&s'&->&->&_&He&_)].
  - destruct ty; auto.
  - rewrite <-He. auto.
Qed.

Lemma ranked_mono rank t t' : types_le t t' → ranked rank t → ranked rank t'.
Proof.
  intros Hle H i ty' Hi. destruct (ty_le_inv_r _ _ _ _ Hle Hi) as (ty & Hi0 & Hty).
  rewrite <-(types_le_length _ _ Hle).
  destruct (H i ty Hi0) as [Hr Hk]. split; [done|].
  assert (∀ et s', type_get t' et = Ok (T_STRUCT s') →
    ∃ s, type_get t et = Ok (T_STRUCT s)) as Hs.
  { intros et s' Hg. rewrite type_get_lookup in Hg.
    destruct (ty_le_inv_r _ _ _ _ Hle Hg) as (e & He & [->|(s&?&->&?&_)]);
      eexists; by apply type_get_lookup. }
  destruct Hty as [<-|(s&s'&->&->&_&He&_)].
  - destruct ty; auto.
    + intros et s' Hin Hg. destruct (Hs _ _ Hg). eauto.
    + intros [e He]. destruct (ty_le_inv_r _ _ _ _ Hle He) as (? & ? & _). eauto.
  - rewrite <-He. intros et s2 Hin Hg. destruct (Hs _ _ Hg). eauto.
Qed.

Lemma sizes_small_mono t t' : types_le t t' → sizes_small t' → sizes_small t.
Proof. intros Hle H id s Hs. eapply H, type_sizeof_mono; eauto. Qed.

(** ** Facts about sizes and alignments *)

Lemma type_sizeof_nonneg t id s : type_sizeof t id = Ok s → 0 <= s.
Proof.
  unfold type_sizeof, type_sizeof_ptr. intros H. inv_res.
  destruct (length t) as [|n]; simpl in H; destruct a; inv_res; try lia;
    repeat case_match; inv_res; try lia; apply wrap_range; lia.
Qed.

Lemma pow2_align_bounds a : pow2_align a → 1 <= a <= 8.
Proof.
  intros (k & Hk & ->). assert (k = 0 ∨ k = 1 ∨ k = 2 ∨ k = 3) as Hc by lia.
  destruct Hc as [->|[->|[->| ->]]]; simpl; lia.
Qed.

Lemma pow2_align_max a b : pow2_align a → pow2_align b →
  pow2_align (VMIR_MAX a b) ∧ (a | VMIR_MAX a b) ∧ (b | VMIR_MAX a b).
Proof.
  intros (k & Hk & ->) (l & Hl & ->). unfold VMIR_MAX.
  assert (∀ m n, 0 <= m <= n → (2 ^ m | 2 ^ n)) as Hd.
  { intros m n Hmn. exists (2 ^ (n - m)). rewrite <-Z.pow_add_r by lia. f_equal; lia. }
  destruct (Z.ltb_spec (2 ^ l) (2 ^ k)) as [H|H].
  - split_and!; [by exists k|done|]. apply Hd.
    apply Z.pow_lt_mono_r_iff in H; lia.
  - split_and!; [by exists l| |done]. apply Hd.
    apply Z.pow_le_mono_r_iff in H; lia.
Qed.

(** What has a size has an alignment. *)
Lemma type_sizeof_alignment n t ty s :
  type_sizeof_fuel n t ty = Ok s → ∃ a, type_alignment_fuel n t ty = Ok a.
Proof.
  revert ty s; induction n as [|n IH]; intros ty s H; [done|].
  destruct ty; simpl in *; eauto; try done.
  - destruct (st_layout s0) as [[]|]; [|done]. simpl. eauto.
  - inv_res. rewrite Hm. simpl. eauto.
Qed.

(** The alignment of a member is a power of two up to 8. *)
Lemma type_alignment_fuel_pow2 t n ty a :
  all_good t → no_void_member t →
  ty ≠ T_VOID → (∃ i, t !! i = Some ty) →
  type_alignment_fuel n t ty = Ok a → pow2_align a.
Proof.
  intros Hg Hv. revert ty; induction n as [|n IH]; intros ty Hne [i Hi] H; [done|].
  assert (∀ k, 0 <= k <= 3 → pow2_align (2 ^ k)) as Hp by (intros k ?; by exists k).
  destruct ty; simpl in H; try done;
    try (injection H as <-; first [by apply (Hp 0)|by apply (Hp 1)|by apply (Hp 2)
                                  |by apply (Hp 3)]).
  - inv_res. destruct a0 as [size al]. inv_res.
    destruct (Hg i s Hi ltac:(congruence)) as (size' & al' & Hl & Hal & _).
    rewrite Hm in Hl. injection Hl as <- <-.
    pose proof (pow2_align_bounds _ Hal). by rewrite wrap_small by lia.
  - repeat case_match; inv_res; [by apply (Hp 2)|by apply (Hp 3)].
  - inv_res. eapply IH; [| |done].
    + intros ->. by apply (Hv i _ Hi).
    + exists (Z.to_nat (u32 element_type)). by apply type_get_lookup.
Qed.

(** ** The layout loop *)

Section layout_proof.
Context (rank : nat → nat).

(** What laying out structure [i] guarantees: later tables have more layouts,
    structures of no smaller rank are untouched, [i] gets a layout, and good
    layouts stay good. *)
Definition lays_out (types : list ir_type) (i : nat) (types' : list ir_type) : Prop :=
  types_le types types' ∧
  (∀ j, (rank i <= rank j)%nat → j ≠ i → types' !! j = types !! j) ∧
  (∃ s, types' !! i = Some (T_STRUCT s) ∧ st_layout s ≠ None) ∧
  (sizes_small types' → no_void_member types → all_good types → all_good types').

(** The first [n] elements of [s] are placed below [offset]. *)
Definition placed (t : list ir_type) (s : ir_struct) (n : nat) (offset al : Z) : Prop :=
  ∀ j et o, (j < n)%nat → st_elements s !! j = Some (et, o) →
    ∃ off sz a, o = Some off ∧ type_sizeof t et = Ok sz ∧
      type_alignment t et = Ok a ∧ 0 <= off ∧ off + sz <= offset ∧
      (st_packed s = false → (a | off) ∧ (a | al)) ∧
      ∀ k ek ok, (j < k < n)%nat → st_elements s !! k = Some (ek, Some ok) →
        off + sz <= ok.

Definition loop_good (ts : list ir_type) (si : ir_struct) (n : nat) (off ba : Z) : Prop :=
  all_good ts ∧ pow2_align ba ∧ nonneg_int off ∧ placed ts si n off ba.

Definition loop_inv (types : list ir_type) (i : nat) (s : ir_struct) (n : nat)
    (ls : layout_loop_state) : Prop :=
  types_le types (ll_types ls) ∧
  (∀ j, (rank i <= rank j)%nat → j ≠ i → ll_types ls !! j = types !! j) ∧
  ∃ si, ll_types ls !! i = Some (T_STRUCT si) ∧ st_layout si = None ∧
    map fst (st_elements si) = map fst (st_elements s) ∧
    st_packed si = st_packed s ∧
    (sizes_small (ll_types ls) → no_void_member types → all_good types →
     loop_good (ll_types ls) si n (ll_offset ls) (ll_ba ls)).

Lemma placed_mono t t' s n offset al :
  types_le t t' → placed t s n offset al → placed t' s n offset al.
Proof.
  intros Hle H j et o Hj He. destruct (H j et o Hj He) as (off & sz & a & ?).
  exists off, sz, a. naive_solver eauto using type_sizeof_mono, type_alignment_mono.
Qed.

(** Placing element [n] at [off]. *)
Lemma placed_snoc t s n et off offset al al' sz a :
  placed t s n offset al →
  (n < length (st_elements s))%nat →
  (map fst (st_elements s)) !! n = Some et →
  type_sizeof t et = Ok sz → type_alignment t et = Ok a →
  0 <= offset <= off → 0 <= sz →
  (st_packed s = false → (a | off) ∧ (a | al') ∧ (al | al')) →
  placed t (set_offset s n off) (S n) (off + sz) al'.
Proof.
  intros Hp Hn Het Hsz Ha Hoff Hsz0 Hal j e o Hj He. simpl in *.
  destruct (decide (j = n)) as [->|Hjn].
  - rewrite list_lookup_alter_eq in He.
    rewrite list_lookup_fmap in Het.
    destruct (st_elements s !! n) as [[e1 o1]|]; simplify_eq/=.
    exists off, sz, a. split_and!; auto; try lia. naive_solver.
  - rewrite list_lookup_alter_ne in He by done.
    destruct (Hp j e o ltac:(lia) He) as (off1 & sz1 & a1 & -> & ? & ? & ? & ? & Hd & Hk).
    exists off1, sz1, a1. split_and!; auto; try lia.
    + intros Hpk. destruct (Hd Hpk) as [? ?], (Hal Hpk) as (_ & _ & ?).
      split; [done|]. by eapply Z.divide_trans.
    + intros k ek ok Hjk Hek. destruct (decide (k = n)) as [->|Hkn].
      * rewrite list_lookup_alter_eq in Hek.
        destruct (st_elements s !! n) as [[e2 o2]|]; simplify_eq/=. lia.
      * rewrite list_lookup_alter_ne in Hek by done. eapply Hk; eauto. lia.
Qed.

(** Changing the structure that has no layout yet keeps the others good. *)
Lemma all_good_alter t i f s :
  t !! i = Some (T_STRUCT s) → ty_le (T_STRUCT s) (T_STRUCT (f s)) →
  st_layout (f s) = None → all_good t → all_good (alter (on_struct f) i t).
Proof.
  intros Hi Hle Hf Hg j sj Hj Hl.
  eapply good_layout_mono; [by eapply types_le_alter|].
  destruct (decide (i = j)) as [<-|Hn].
  - rewrite list_lookup_alter_eq, Hi in Hj. simplify_eq/=.
  - rewrite list_lookup_alter_ne in Hj by done. by eapply Hg.
Qed.

Lemma set_offset_fst s n off :
  map fst (st_elements (set_offset s n off)) = map fst (st_elements s).
Proof.
  simpl. apply list_eq. intros j. rewrite !list_lookup_fmap.
  destruct (decide (n = j)) as [<-|].
  - rewrite list_lookup_alter_eq. by destruct (st_elements s !! n) as [[]|].
  - by rewrite list_lookup_alter_ne.
Qed.

Lemma set_offset_le s n off :
  st_layout s = None → ty_le (T_STRUCT s) (T_STRUCT (set_offset s n off)).
Proof. intros H. right. exists s, (set_offset s n off). by rewrite set_offset_fst. Qed.

(** The table after the nested layout of an element: the loop invariant holds
    of it, with the same local variables. *)
Lemma loop_inv_nested rec types i s n ls et ts si ty :
  ranked rank types → types !! i = Some (T_STRUCT s) →
  (∀ t k s t', ranked rank t → t !! k = Some (T_STRUCT s) → st_layout s = None →
     rec t k = Ok t' → lays_out t k t') →
  loop_inv types i s n ls → et ∈ map fst (st_elements s) →
  type_get (ll_types ls) et = Ok ty → ty = T_STRUCT si → st_layout si = None →
  rec (ll_types ls) (Z.to_nat (u32 et)) = Ok ts →
  loop_inv types i s n (mk_ll ts (ll_offset ls) (ll_ba ls)).
Proof.
  intros Hr Hi Hrec (Hle & Hfr & s1 & Hs1 & Hl1 & He1 & Hp1 & Hg) Het Hty -> Hl H.
  pose proof (ranked_mono _ _ _ Hle Hr) as Hr'.
  rewrite type_get_lookup in Hty.
  destruct (Hrec _ _ _ _ Hr' Hty Hl H) as (Hle2 & Hfr2 & _ & Hg2).
  assert (rank (Z.to_nat (u32 et)) < rank i)%nat as Hlt.
  { destruct (Hr' i _ Hs1) as [_ Hk]. eapply Hk; [by rewrite He1|].
    by apply type_get_lookup. }
  split_and!; simpl.
  - by etrans.
  - intros j Hj Hji. rewrite Hfr2; [by apply Hfr|lia|intros ->; lia].
  - exists s1. split_and!; auto.
    + rewrite Hfr2; [done|lia|intros ->; lia].
    + intros Hss Hv Ha.
      destruct (Hg (sizes_small_mono _ _ Hle2 Hss) Hv Ha) as (Ha1 & ? & ? & Hpl).
      split_and!; auto.
      * apply Hg2; auto. by eapply no_void_member_mono.
      * by eapply placed_mono.
Qed.

(** Placing the element once its own type has a layout. *)
Lemma loop_inv_place types i s n ts et ty off0 ba0 sz off ba off' :
  types !! i = Some (T_STRUCT s) →
  loop_inv types i s n (mk_ll ts off0 ba0) →
  map fst (st_elements s) !! n = Some et →
  type_get ts et = Ok ty → type_sizeof_ptr ts ty = Ok sz →
  (if st_packed s then off = off0 ∧ ba = ba0
   else ∃ a, type_alignment_ptr ts ty = Ok a ∧
             off = VMIR_ALIGN off0 (s32 a) ∧ ba = VMIR_MAX ba0 (s32 a)) →
  (∃ a, type_alignment_ptr ts ty = Ok a) →
  off' = off + s32 sz → off' <= INT32_MAX →
  loop_inv types i s (S n)
    (mk_ll (alter (on_struct (λ st, set_offset st n off)) i ts) off' ba).
Proof.
  intros Hi (Hle & Hfr & s1 & Hs1 & Hl1 & He1 & Hp1 & Hg) Het Hty Hsz Hoff [a Ha] -> Hmax.
  simpl in *.
  pose proof (types_le_alter ts i (λ st, set_offset st n off) s1 Hs1
                (set_offset_le _ _ _ Hl1)) as Hle2.
  split_and!; simpl.
  - by etrans.
  - intros j Hj Hji. rewrite list_lookup_alter_ne by done. auto.
  - exists (set_offset s1 n off). split_and!; auto.
    + by rewrite list_lookup_alter_eq, Hs1.
    + rewrite <-He1. apply set_offset_fst.
    + intros Hss Hv Hag.
      pose proof (sizes_small_mono _ _ Hle2 Hss) as Hss1.
      destruct (Hg Hss1 Hv Hag) as (Hag1 & Hba & H0 & Hpl).
      assert (type_sizeof ts et = Ok sz) as Hsz' by (unfold type_sizeof; by rewrite Hty).
      assert (type_alignment ts et = Ok a) as Ha'
        by (unfold type_alignment; by rewrite Hty).
      pose proof (type_sizeof_nonneg _ _ _ Hsz') as Hsz0.
      pose proof (Hss1 _ _ Hsz').
      assert (s32 sz = sz) as Hs32 by (apply sgn_small; lia).
      rewrite Hs32 in *.
      assert (pow2_align a) as Hpa.
      { eapply type_alignment_fuel_pow2; [done|by eapply no_void_member_mono| | |exact Ha].
        - intros ->. eapply (no_void_member_mono _ _ Hle Hv i _ Hs1); [|exact Hty].
          rewrite He1. by eapply list_elem_of_lookup_2.
        - eexists. by apply type_get_lookup. }
      pose proof (pow2_align_bounds _ Hpa).
      pose proof (pow2_align_max _ _ Hba Hpa) as (Hm1 & Hm2 & Hm3).
      assert (off0 <= off ∧ pow2_align ba ∧
        (st_packed s = false → (a | off) ∧ (a | ba) ∧ (ba0 | ba))) as (Ho & Hb & Hd).
      { destruct (st_packed s); [by destruct Hoff as [-> ->]|].
        destruct Hoff as (a' & Ha2 & -> & ->). rewrite Ha in Ha2. injection Ha2 as <-.
        rewrite sgn_small by lia. destruct Hpa as (k & Hk & ->).
        pose proof (VMIR_ALIGN_bounds off0 k ltac:(lia)) as [? ?]. naive_solver lia. }
      unfold nonneg_int in H0. split_and!; auto; try (unfold nonneg_int; lia).
      * apply (all_good_alter _ _ _ s1); auto. by apply set_offset_le.
      * eapply (placed_snoc _ _ _ et off off0 ba0 ba sz a); eauto; try lia.
        -- by eapply placed_mono.
        -- assert (is_Some (map fst (st_elements s1) !! n)) as Hs by (rewrite He1; eauto).
           apply lookup_lt_is_Some in Hs. by rewrite length_map in Hs.
        -- by rewrite He1.
        -- by eapply type_sizeof_mono.
        -- by eapply type_alignment_mono.
Qed.

Lemma layout_element_inv rec packed types i s n ls e ls' :
  ranked rank types → types !! i = Some (T_STRUCT s) → packed = st_packed s →
  (∀ t k s t', ranked rank t → t !! k = Some (T_STRUCT s) → st_layout s = None →
     rec t k = Ok t' → lays_out t k t') →
  imap (λ j e, (j, fst e)) (st_elements s) !! n = Some e →
  loop_inv types i s n ls → layout_element rec i packed ls e = Ok ls' →
  loop_inv types i s (S n) ls'.
Proof.
  intros Hr Hi -> Hrec He Hinv H. rewrite list_lookup_imap in He.
  destruct (st_elements s !! n) as [[et o]|] eqn:Hn; simplify_eq/=.
  assert (map fst (st_elements s) !! n = Some et) as Het
    by (by rewrite list_lookup_fmap, Hn).
  unfold layout_element in H. inv_res.
  assert (loop_inv types i s n (mk_ll a0 (ll_offset ls) (ll_ba ls))) as Hinv2.
  { assert (mk_ll (ll_types ls) (ll_offset ls) (ll_ba ls) = ls) as Heta by by destruct ls.
    destruct a as [si| | | | | | | | | | | | | | |]; inv_res; rewrite ?Heta; auto.
    destruct (st_layout si) eqn:Hl; inv_res; rewrite ?Heta; auto.
    eapply loop_inv_nested; eauto. by eapply list_elem_of_lookup_2. }
  clear Hinv Hm Hm0. destruct a3 as [off ba]. inv_res.
  eapply (loop_inv_place types i s n a0 et a1 (ll_offset ls) (ll_ba ls) a2 off ba);
    [done|done|done|done|done| | | |].
  - destruct (st_packed s); [by injection Hm3|]. inv_res. naive_solver.
  - unfold type_sizeof_ptr in Hm2. by eapply type_sizeof_alignment.
  - by apply int_arith_inv in Hm as [-> _].
  - apply int_arith_inv in Hm as [-> ?]. lia.
Qed.

Lemma type_struct_layout_lays_out fuel types i s types' :
  ranked rank types → types !! i = Some (T_STRUCT s) → st_layout s = None →
  type_struct_layout fuel types i = Ok types' → lays_out types i types'.
Proof.
  revert types i s types'; induction fuel as [|fuel IH];
    intros types i s types' Hr Hi Hl H; [done|].
  simpl in H. unfold type_struct_layout_body in H. rewrite Hi in H. inv_res.
  assert (loop_inv types i s (length (imap (λ j e, (j, e.1)) (st_elements s))) a) as Hinv.
  { eapply (foldR_ind (loop_inv types i s)); [|split_and!|exact Hm].
    - intros n e ls ls' He Hinv Hls. eapply layout_element_inv; eauto.
    - done.
    - done.
    - exists s. split_and!; auto. intros _ _ Hg. split_and!; auto; try done.
      + by exists 0.
      + intros j et o Hj. lia. }
  rewrite length_imap in Hinv.
  destruct Hinv as (Hle & Hfr & s1 & Hs1 & Hl1 & He1 & Hp1 & Hg).
  set (f := λ st, set_layout st a0 (ll_ba a)).
  assert (ty_le (T_STRUCT s1) (T_STRUCT (f s1))) as Hle1.
  { right. by exists s1, (f s1). }
  pose proof (types_le_alter _ _ f s1 Hs1 Hle1) as Hle2.
  split_and!.
  - by etrans.
  - intros j Hj Hji. rewrite list_lookup_alter_ne by done. auto.
  - exists (f s1). by rewrite list_lookup_alter_eq, Hs1.
  - intros Hss Hv Hag j sj Hj Hjl.
    destruct (Hg (sizes_small_mono _ _ Hle2 Hss) Hv Hag) as (Ha1 & Hba & H0 & Hpl).
    destruct (decide (i = j)) as [<-|Hn].
    + rewrite list_lookup_alter_eq, Hs1 in Hj. simplify_eq/=.
      unfold nonneg_int in H0.
      assert (ll_offset a <= a0 <= INT32_MAX ∧ (st_packed s = false → (ll_ba a | a0)))
        as [Hsz Hdv].
      { destruct (st_packed s); inv_res; [split; [lia|done]|].
        apply int_arith_inv in Hm1 as [? ?].
        destruct Hba as (k & Hk & Hbk). rewrite Hbk in *.
        destruct (VMIR_ALIGN_bounds (ll_offset a) k ltac:(lia)) as [? ?].
        split; [lia|done]. }
      exists a0, (ll_ba a). simpl. rewrite Hp1. split_and!; auto; try (unfold nonneg_int; lia).
      intros j et o Hj.
      assert (length (st_elements s1) = length (st_elements s)) as Hlen.
      { rewrite <-(length_map fst (st_elements s1)), He1. apply length_map. }
      destruct (Hpl j et o) as (off & sz & al & -> & ? & ? & ? & ? & ? & Hk); auto.
      { rewrite <-Hlen. by eapply lookup_lt_Some. }
      rewrite Hp1 in *. exists off, sz, al. split_and!; auto; try lia.
      * by eapply type_sizeof_mono.
      * by eapply type_alignment_mono.
      * intros k ek ok Hjk Hek. eapply Hk; eauto.
        apply lookup_lt_Some in Hek. lia.
    + rewrite list_lookup_alter_ne in Hj by done.
      eapply good_layout_mono; [done|]. by eapply Ha1.
Qed.
End layout_proof.

Lemma finalize_one_inv rank t n t1 t2 :
  ranked rank t1 → types_le t t1 → finalize_one t1 n = Ok t2 →
  types_le t1 t2 ∧
  (∀ s, t2 !! n = Some (T_STRUCT s) → st_layout s ≠ None) ∧
  (sizes_small t2 → no_void_member t1 → all_good t1 → all_good t2).
Proof.
  intros Hr Hle H. unfold finalize_one in H.
  destruct (t1 !! n) as [[]|] eqn:Hn; inv_res; try (split_and!; [done|congruence|done]).
  destruct (st_layout s) eqn:Hl; inv_res; [split_and!; [done|congruence|done]|].
  edestruct (type_struct_layout_lays_out rank) as (? & _ & (? & ? & ?) & ?); eauto.
  split_and!; auto. congruence.
Qed.

(** Once a structure has a layout, it keeps it. *)
Lemma layout_kept t t' i :
  types_le t t' → (∀ s, t !! i = Some (T_STRUCT s) → st_layout s ≠ None) →
  ∀ s, t' !! i = Some (T_STRUCT s) → st_layout s ≠ None.
Proof.
  intros Hle H s Hs. destruct (ty_le_inv_r _ _ _ _ Hle Hs) as (ty & Ht & Hty).
  destruct Hty as [->|(s0&s'&->&[= <-]&Hl&_)]; [by apply H|]. by destruct (H _ Ht).
Qed.

(** C11: on a table in which containment by value has no cycle and no member
    is [void], [types_finalize] gives every structure a layout in which the
    elements lie one behind the other inside the structure, each at a
    multiple of its own alignment (unless packed), and nothing else in the
    table changes. *)
Theorem types_finalize_correct rank t t' :
  ranked rank t → no_void_member t → all_good t →
  types_finalize t = Ok t' → sizes_small t' →
  types_le t t' ∧ ∀ i s, t' !! i = Some (T_STRUCT s) → good_layout t' s.
Proof.
  intros Hr Hv Hg H Hss. unfold types_finalize in H.
  assert (types_le t t' ∧
    (∀ i s, (i < length (seq 0 (length t)))%nat → t' !! i = Some (T_STRUCT s) →
       st_layout s ≠ None) ∧ (sizes_small t' → all_good t')) as (Hle & Hc & Hg').
  { eapply (foldR_ind (λ n t1, types_le t t1 ∧
      (∀ i s, (i < n)%nat → t1 !! i = Some (T_STRUCT s) → st_layout s ≠ None) ∧
      (sizes_small t1 → all_good t1))); [|by split_and!; [|lia|]|exact H].
    intros n i t1 t2 Hi (Hle & Hc & Hg1) Hf.
    apply lookup_seq in Hi as [-> Hi].
    destruct (finalize_one_inv rank t n t1 t2) as (Hle2 & Hn & Hg2);
      [by eapply ranked_mono|done|done|].
    split_and!; [by etrans| |].
    - intros j s Hj. destruct (decide (j = n)) as [->|]; [apply Hn|].
      eapply layout_kept; [done|]. intros s1. apply Hc. lia.
    - intros Hss2. apply Hg2; [done|by eapply no_void_member_mono|].
      apply Hg1. by eapply sizes_small_mono. }
  split; [done|]. intros i s Hi. apply (Hg' Hss i s Hi), (Hc i s); [|done].
  rewrite length_seq, (types_le_length _ _ Hle). by eapply lookup_lt_Some.
Qed.

(** A concrete table: [struct A { i8; i64; i32 }],
    [struct B { i8; A; [3 x A] }] and the packed [struct C { i8; B }]. *)
Definition example_types : list ir_type :=
  [T_INT8; T_INT64; T_INT32;
   T_STRUCT (mk_struct None [(0, None); (1, None); (2, None)] false None);
   T_ARRAY 3 3;
   T_STRUCT (mk_struct None [(0, None); (3, None); (4, None)] false None);
   T_STRUCT (mk_struct None [(0, None); (5, None)] true None)].

Definition example_rank (i : nat) : nat := i.

Definition example_types_laid_out : list ir_type :=
  [T_INT8; T_INT64; T_INT32;
   T_STRUCT (mk_struct None [(0, Some 0); (1, Some 8); (2, Some 16)] false (Some (24, 8)));
   T_ARRAY 3 3;
   T_STRUCT (mk_struct None [(0, Some 0); (3, Some 8); (4, Some 32)] false (Some (104, 8)));
   T_STRUCT (mk_struct None [(0, Some 0); (5, Some 1)] true (Some (105, 1)))].

Lemma example_ranked : ranked example_rank example_types.
Proof.
  intros i ty Hi.
  do 7 (destruct i as [|i]; [injection Hi as <-; unfold example_rank; simpl;
    split; try lia;
    try (intros et s' Het _;
         repeat (apply elem_of_cons in Het as [->|Het]; [vm_compute; lia|]);
         by apply not_elem_of_nil in Het);
    try (intros _; vm_compute; lia); done|]).
  discriminate.
Qed.

Lemma example_no_void : no_void_member example_types.
Proof.
  intros i ty Hi.
  do 7 (destruct i as [|i]; [injection Hi as <-; try done;
    intros et Het;
    repeat (apply elem_of_cons in Het as [->|Het]; [done|]);
    by apply not_elem_of_nil in Het|]).
  discriminate.
Qed.

Lemma example_all_good : all_good example_types.
Proof.
  intros i s Hi.
  do 7 (destruct i as [|i]; [by simplify_eq/=|]). discriminate.
Qed.

Lemma example_sizes : sizes_small example_types_laid_out.
Proof.
  intros id s H. unfold type_sizeof in H. inv_res.
  apply type_get_lookup in Hm. revert Hm H. generalize (Z.to_nat (u32 id)). intros i Hi H.
  do 7 (destruct i as [|i]; [injection Hi as <-; vm_compute in H; injection H as <-;
    reflexivity|]). discriminate.
Qed.

Lemma types_finalize_correct_witness :
  types_finalize example_types = Ok example_types_laid_out ∧
  types_le example_types example_types_laid_out ∧
  ∀ i s, example_types_laid_out !! i = Some (T_STRUCT s) →
         good_layout example_types_laid_out s.
Proof.
  assert (types_finalize example_types = Ok example_types_laid_out) as H
    by (vm_compute; reflexivity).
  split; [exact H|].
  exact (types_finalize_correct example_rank _ _ example_ranked example_no_void
           example_all_good H example_sizes).
Defined.

(** ** Termination *)

Lemma type_sizeof_fuel_ends rank n t i ty :
  ranked rank t → t !! i = Some ty → (rank i < n)%nat →
  type_sizeof_fuel n t ty ≠ Fail NoFuel ∧ type_alignment_fuel n t ty ≠ Fail NoFuel.
Proof.
  intros Hr. revert i ty; induction n as [|n IH]; intros i ty Hi Hn; [lia|].
  destruct ty; simpl; try done.
  - by destruct (st_layout s) as [[]|].
  - by destruct (it_bits <=? 32), (it_bits <=? 64).
  - unfold type_get. destruct (t !! Z.to_nat (u32 element_type)) as [e|] eqn:He; [|done].
    rok. destruct (Hr _ _ Hi) as [_ Hk].
    destruct (IH _ _ He) as [H1 H2]; [specialize (Hk ltac:(by eexists)); lia|].
    split; [|done]. by destruct (type_sizeof_fuel n t e) as [|[]].
Qed.

Lemma type_struct_layout_ends rank fuel types i s :
  ranked rank types → types !! i = Some (T_STRUCT s) → st_layout s = None →
  (rank i < fuel)%nat → type_struct_layout fuel types i ≠ Fail NoFuel.
Proof.
  revert types i s; induction fuel as [|fuel IH]; intros types i s Hr Hi Hl Hf; [lia|].
  simpl. unfold type_struct_layout_body. rewrite Hi.
  assert (foldR (layout_element (type_struct_layout fuel) i (st_packed s))
    (mk_ll types 0 1) (imap (λ j e, (j, e.1)) (st_elements s)) ≠ Fail NoFuel) as Hn.
  { eapply (foldR_fuel (loop_inv rank types i s)).
    - intros m [j et] ls He (Hle & Hfr & s1 & Hs1 & Hl1 & He1 & Hp1 & _).
      pose proof (ranked_mono _ _ _ Hle Hr) as Hr1.
      unfold layout_element. rewrite list_lookup_imap in He.
      destruct (st_elements s !! m) as [[e o]|] eqn:Hen; [|done]; simpl in He;
        injection He as <- ->.
      assert (et ∈ map fst (st_elements s1)) as Hin.
      { rewrite He1. apply (list_elem_of_lookup_2 _ m).
        by rewrite list_lookup_fmap, Hen. }
      destruct (type_get (ll_types ls) et) as [ty|x] eqn:Hty;
        [|unfold type_get in Hty; destruct (ll_types ls !! Z.to_nat (u32 et)); by simplify_eq/=].
      rok. pose proof (proj1 (type_get_lookup _ _ _) Hty) as Hty1.
      match goal with |- context [mbind _ ?m] => destruct m as [ts|[]] eqn:Hts end;
        rok; try done; last first.
      + destruct ty as [sy| | | | | | | | | | | | | | |]; try done.
        destruct (st_layout sy) eqn:Hsy; [done|].
        destruct (Hr1 _ _ Hs1) as [_ Hk].
        eapply IH in Hts; try done. specialize (Hk _ _ Hin Hty). lia.
      + assert (types_le (ll_types ls) ts) as Hle2.
        { destruct ty as [sy| | | | | | | | | | | | | | |]; try (by inv_res).
          destruct (st_layout sy) eqn:Hsy; inv_res; [done|].
          by destruct (type_struct_layout_lays_out rank _ _ _ _ _ Hr1 Hty1 Hsy Hts). }
        destruct (type_get_mono _ _ _ _ Hle2 Hty) as (ty2 & Hty2 & _).
        rewrite Hty2. rok. apply type_get_lookup in Hty2.
        pose proof (ranked_mono _ _ _ Hle2 Hr1) as Hr2.
        destruct (Hr2 _ _ Hty2) as [Hrl _].
        destruct (type_sizeof_fuel_ends rank (S (length ts)) ts _ ty2 Hr2 Hty2
          ltac:(lia)) as [H1 H2].
        fold (type_sizeof_ptr ts ty2) in H1. fold (type_alignment_ptr ts ty2) in H2.
        destruct (type_sizeof_ptr ts ty2) as [sz|[]]; rok; try done.
        destruct (st_packed s); rok; [unfold int_arith; by destruct (int_ok _)|].
        destruct (type_alignment_ptr ts ty2) as [al|[]]; rok; try done.
        unfold int_arith. destruct (int_ok _); rok; [|done].
        by destruct (int_ok _).
    - intros n e ls ls' He Hinv Hls.
      eapply layout_element_inv; [done|done|done| |done|done|exact Hls].
      intros. by eapply type_struct_layout_lays_out.
    - split_and!; try done. exists s. split_and!; try done.
      intros _ _ Hg. split_and!; auto; try done; [by exists 0|].
      intros j et o Hj. lia. }
  destruct (foldR _ _ _) as [ls|[]]; rok; try done.
  destruct (st_packed s); rok; [done|]. unfold int_arith. by destruct (int_ok _).
Qed.

(** C26: the layout pass ends on every table in which containment by value has
    no cycle. *)
Theorem types_finalize_ends rank t :
  ranked rank t → types_finalize t ≠ Fail NoFuel.
Proof.
  intros Hr. unfold types_finalize.
  apply (foldR_fuel (λ _ t1, types_le t t1)); [| |done].
  - intros n i t1 Hi Hle. unfold finalize_one.
    destruct (t1 !! i) as [[]|] eqn:Hn; try done.
    destruct (st_layout s) eqn:Hl; [done|].
    pose proof (ranked_mono _ _ _ Hle Hr) as Hr1.
    eapply type_struct_layout_ends; [done..|]. destruct (Hr1 _ _ Hn) as [? _]. lia.
  - intros n i t1 t2 Hi Hle Hf. pose proof (ranked_mono _ _ _ Hle Hr) as Hr1.
    destruct (finalize_one_inv rank t i t1 t2 Hr1 Hle Hf) as [? _]. by etrans.
Qed.

Lemma types_finalize_ends_witness :
  ranked example_rank example_types ∧ types_finalize example_types ≠ Fail NoFuel.
Proof.
  split; [apply example_ranked|]. apply (types_finalize_ends example_rank).
  exact example_ranked.
Defined.

(** C27: the layout pass only looks for structures without a layout directly
    behind an element, not behind an array: a structure whose first element
    is an array of a structure that has no layout yet gets its size and
    alignment from fields that were never written. *)
Theorem layout_array_of_later_struct fuel types i s et o rest n aet s2 :
  types !! i = Some (T_STRUCT s) → st_elements s = (et, o) :: rest →
  type_get types et = Ok (T_ARRAY n aet) →
  type_get types aet = Ok (T_STRUCT s2) → st_layout s2 = None →
  type_struct_layout (S fuel) types i = Fail Undef.
Proof.
  intros Hi He Hty Ha Hl. simpl. unfold type_struct_layout_body. rewrite Hi, He. simpl.
  rewrite Hty. simpl. rewrite Hty. rok.
  assert (type_sizeof_ptr types (T_ARRAY n aet) = Fail Undef) as ->; [|done].
  unfold type_sizeof_ptr. cbn [type_sizeof_fuel]. rewrite Ha. rok.
  destruct (length types) eqn:Hlen.
  - apply nil_length_inv in Hlen. by rewrite Hlen in Hi.
  - simpl. by rewrite Hl.
Qed.

(** [struct A { struct B *p; }; struct B { struct A a[2]; };]: the table of
    a module in which B comes first. *)
Lemma layout_array_of_later_struct_witness :
  let t := [T_ARRAY 2 3; T_STRUCT (mk_struct None [(0, None)] false None);
            T_POINTER 1; T_STRUCT (mk_struct None [(2, None)] false None)] in
  type_struct_layout 5 t 1 = Fail Undef ∧ types_finalize t = Fail Undef.
Proof.
  split; [|reflexivity].
  apply (layout_array_of_later_struct 4 _ 1 (mk_struct None [(0, None)] false None)
             0 None [] 2 3 (mk_struct None [(2, None)] false None)); reflexivity.
Defined.

(** ** Made types *)

Lemma find_type_spec p types k i :
  find_type p types k = Some i → ∃ j t, i = k + Z.of_nat j ∧
    types !! j = Some t ∧ p t = true ∧
    ∀ j' t', (j' < j)%nat → types !! j' = Some t' → p t' = false.
Proof.
  revert k; induction types as [|t types IH]; intros k H; [done|]. simpl in H.
  destruct (p t) eqn:Hp.
  - injection H as <-. exists O, t. split_and!; auto; lia.
  - destruct (IH _ H) as (j & t' & -> & Ht & Hpt & Hall).
    exists (S j), t'. split_and!; auto; [lia|].
    intros [|j'] t2 Hj Ht2; [by injection Ht2 as <-|]. eapply Hall; [|exact Ht2]. lia.
Qed.

Lemma find_type_app_None p types t k :
  find_type p types k = None → p t = true →
  find_type p (types ++ [t]) k = Some (k + Z.of_nat (length types)).
Proof.
  revert k; induction types as [|t' types IH]; intros k H Ht; simpl in *.
  - rewrite Ht. f_equal; lia.
  - destruct (p t'); [done|]. rewrite IH by done. f_equal; lia.
Qed.

(** [type_make_pointer] returns the index of a pointer to the type, only
    appends to the table, and asked again gives the same index and changes
    nothing. *)
Theorem type_make_pointer_interned st type i st' may_create :
  type_make_pointer st type true = (i, st') →
  iu_types st' !! Z.to_nat i = Some (T_POINTER type) ∧
  iu_types st `prefix_of` iu_types st' ∧
  type_make_pointer st' type may_create = (i, st').
Proof.
  unfold type_make_pointer.
  destruct (find_type _ (iu_types st) 0) as [j|] eqn:Hf; intros [= <- <-].
  - split_and!; [|done|by rewrite Hf].
    destruct (find_type_spec _ _ _ _ Hf) as (n & t & -> & Ht & Hp & _).
    rewrite Z.add_0_l, Nat2Z.id, Ht. destruct t; simpl in Hp; try done.
    apply Z.eqb_eq in Hp. by subst.
  - split_and!; simpl.
    + by rewrite Nat2Z.id, list_lookup_middle.
    + by apply prefix_app_r.
    + by rewrite (find_type_app_None _ _ _ 0 Hf) by (simpl; lia).
Qed.

Lemma type_make_pointer_interned_witness :
  let st := mk_types [T_INT8; T_INT32] false None in
  let st' := mk_types [T_INT8; T_INT32; T_POINTER 1] true None in
  type_make_pointer st 1 true = (2, st') ∧ type_make_pointer st' 1 false = (2, st').
Proof.
  split; [reflexivity|].
  apply (type_make_pointer_interned (mk_types [T_INT8; T_INT32] false None) 1 2 _ false).
  reflexivity.
Defined.
