(* ===== verification/Values.v ===== *)
(** The value table of [src/src/vmir_value.c]: values, their classes, the
    constants read from them and the evaluation of constant expressions. *)
From S2P Require Import Prelude Support Bitstream Types.
Local Open Scope Z_scope.

(** ** Binary operators and integer predicates of the bitcode *)

Inductive binop : Type :=
  | BINOP_ADD | BINOP_SUB | BINOP_MUL | BINOP_UDIV | BINOP_SDIV | BINOP_UREM
  | BINOP_SREM | BINOP_SHL | BINOP_LSHR | BINOP_ASHR | BINOP_AND | BINOP_OR
  | BINOP_XOR.

#[export] Instance binop_eq_dec : EqDecision binop.
Proof. solve_decision. Defined.

Definition binops : list binop :=
  [BINOP_ADD; BINOP_SUB; BINOP_MUL; BINOP_UDIV; BINOP_SDIV; BINOP_UREM; BINOP_SREM;
   BINOP_SHL; BINOP_LSHR; BINOP_ASHR; BINOP_AND; BINOP_OR; BINOP_XOR].

(** [BINOP_*] of [bitcode.h]. *)
Definition binop_code (o : binop) : Z :=
  match o with
  | BINOP_ADD => 0 | BINOP_SUB => 1 | BINOP_MUL => 2 | BINOP_UDIV => 3
  | BINOP_SDIV => 4 | BINOP_UREM => 5 | BINOP_SREM => 6 | BINOP_SHL => 7
  | BINOP_LSHR => 8 | BINOP_ASHR => 9 | BINOP_AND => 10 | BINOP_OR => 11
  | BINOP_XOR => 12
  end.

Inductive icmp : Type :=
  | ICMP_EQ | ICMP_NE | ICMP_UGT | ICMP_UGE | ICMP_ULT | ICMP_ULE
  | ICMP_SGT | ICMP_SGE | ICMP_SLT | ICMP_SLE.

#[export] Instance icmp_eq_dec : EqDecision icmp.
Proof. solve_decision. Defined.

Definition icmps : list icmp :=
  [ICMP_EQ; ICMP_NE; ICMP_UGT; ICMP_UGE; ICMP_ULT; ICMP_ULE; ICMP_SGT; ICMP_SGE;
   ICMP_SLT; ICMP_SLE].

Definition icmp_code (p : icmp) : Z :=
  match p with
  | ICMP_EQ => 32 | ICMP_NE => 33 | ICMP_UGT => 34 | ICMP_UGE => 35
  | ICMP_ULT => 36 | ICMP_ULE => 37 | ICMP_SGT => 38 | ICMP_SGE => 39
  | ICMP_SLT => 40 | ICMP_SLE => 41
  end.

(** [swap_pred] on integer predicates. *)
Definition swap_pred (p : icmp) : icmp :=
  match p with
  | ICMP_EQ => ICMP_EQ | ICMP_NE => ICMP_NE
  | ICMP_SGT => ICMP_SLT | ICMP_SLT => ICMP_SGT
  | ICMP_SGE => ICMP_SLE | ICMP_SLE => ICMP_SGE
  | ICMP_UGT => ICMP_ULT | ICMP_ULT => ICMP_UGT
  | ICMP_UGE => ICMP_ULE | ICMP_ULE => ICMP_UGE
  end.

(** A binary operator of C on [w]-bit operands, [w] at least the width of
    [int]: unsigned operators on [uint_w], the signed ones on [int_w].
    Division by zero, the overflowing signed division and shifts by the
    width or more are undefined. *)
Definition c_binop (w : Z) (o : binop) (l r : Z) : res Z :=
  let sl := sgn w l in let sr := sgn w r in
  let nz := check (negb (r =? 0)) Undef in
  let novf := check (negb ((sl =? - 2 ^ (w - 1)) && (sr =? -1))) Undef in
  let sh := check (r <? w) Undef in
  match o with
  | BINOP_ADD => Ok (wrap w (l + r))
  | BINOP_SUB => Ok (wrap w (l - r))
  | BINOP_MUL => Ok (wrap w (l * r))
  | BINOP_UDIV => _ ← nz; Ok (l / r)
  | BINOP_SDIV => _ ← nz; _ ← novf; Ok (wrap w (Z.quot sl sr))
  | BINOP_UREM => _ ← nz; Ok (l mod r)
  | BINOP_SREM => _ ← nz; _ ← novf; Ok (wrap w (Z.rem sl sr))
  | BINOP_SHL => _ ← sh; Ok (wrap w (Z.shiftl l r))
  | BINOP_LSHR => _ ← sh; Ok (Z.shiftr l r)
  | BINOP_ASHR => _ ← sh; Ok (wrap w (Z.shiftr sl r))
  | BINOP_AND => Ok (Z.land l r)
  | BINOP_OR => Ok (Z.lor l r)
  | BINOP_XOR => Ok (Z.lxor l r)
  end.

Definition c_icmp (w : Z) (p : icmp) (l r : Z) : bool :=
  let sl := sgn w l in let sr := sgn w r in
  match p with
  | ICMP_EQ => l =? r | ICMP_NE => negb (l =? r)
  | ICMP_UGT => r <? l | ICMP_UGE => r <=? l
  | ICMP_ULT => l <? r | ICMP_ULE => l <=? r
  | ICMP_SGT => sr <? sl | ICMP_SGE => sr <=? sl
  | ICMP_SLT => sl <? sr | ICMP_SLE => sl <=? sr
  end.

(** ** Values *)

Inductive ir_value_class : Type :=
  | IR_VC_UNDEF | IR_VC_FUNCTION | IR_VC_GLOBALVAR | IR_VC_CONSTANT
  | IR_VC_TEMPORARY | IR_VC_REGFRAME | IR_VC_MACHINEREG | IR_VC_DATA
  | IR_VC_CE | IR_VC_AGGREGATE | IR_VC_ALIAS | IR_VC_ZERO_INITIALIZER
  | IR_VC_DEAD.

#[export] Instance ir_value_class_eq_dec : EqDecision ir_value_class.
Proof. solve_decision. Defined.

(** [CAST_*] of [bitcode.h]. *)
Inductive ir_cast : Type :=
  | CAST_TRUNC | CAST_ZEXT | CAST_SEXT | CAST_FPTOUI | CAST_FPTOSI
  | CAST_UITOFP | CAST_SITOFP | CAST_FPTRUNC | CAST_FPEXT | CAST_PTRTOINT
  | CAST_INTTOPTR | CAST_BITCAST.

(** [ir_constexpr_t]; operators that are no [BINOP_*] or [ICMP_*] are [None]. *)
Inductive ir_constexpr : Type :=
  | CE_CAST (op : option ir_cast) (src : Z)
  | CE_BINOP (op : option binop) (lhs rhs : Z)
  | CE_CMP (opty lhs rhs : Z) (pred : option icmp)
  | CE_GEP (values : list Z).

(** [ir_globalvar_t]. *)
Record ir_globalvar := mk_gvar {
  ig_type : Z;
  ig_name : option (list Z);
  ig_addr : Z;
  ig_size : Z;
}.

(** The union of [ir_value_t]. [U_word] is [iv_u64]; [U_u32] is what is left
    when only [iv_u32] was written over a pointer. A function is its
    [if_gfid]. *)
Inductive iv_union : Type :=
  | U_word (u64 : Z)
  | U_u32 (u32 : Z)
  | U_func (if_gfid : Z)
  | U_gvar (g : ir_globalvar)
  | U_ce (c : ir_constexpr).

(** [iv_data]: bytes, or the elements (value, type) of an aggregate. *)
Inductive iv_payload : Type :=
  | D_none
  | D_bytes (bytes : list Z)
  | D_values (values : list (Z * Z)).

Record ir_value := mk_value {
  iv_class : ir_value_class;
  iv_type : Z;
  iv_u : iv_union;
  iv_data : iv_payload;
  iv_precolored : Z;
}.

Definition iv_u32 (iv : ir_value) : res Z :=
  match iv_u iv with
  | U_word w => Ok (u32 w) | U_u32 v => Ok (u32 v) | _ => Fail Undef
  end.
Definition iv_u64 (iv : ir_value) : res Z :=
  match iv_u iv with U_word w => Ok (u64 w) | _ => Fail Undef end.
(** [iv_reg], and the value an alias stands for. *)
Definition iv_reg (iv : ir_value) : res Z := v ← iv_u32 iv; Ok (s32 v).

(** [iv->iv_u32 = v]: the other half of the union is kept. *)
Definition set_u32 (iv : ir_value) (v : Z) : ir_value :=
  mk_value (iv_class iv) (iv_type iv)
    (match iv_u iv with
     | U_word w => U_word (Z.shiftl (Z.shiftr w 32) 32 + u32 v)
     | _ => U_u32 (u32 v)
     end) (iv_data iv) (iv_precolored iv).
Definition set_class (iv : ir_value) (c : ir_value_class) : ir_value :=
  mk_value c (iv_type iv) (iv_u iv) (iv_data iv) (iv_precolored iv).
Definition set_type (iv : ir_value) (t : Z) : ir_value :=
  mk_value (iv_class iv) t (iv_u iv) (iv_data iv) (iv_precolored iv).
Definition set_union (iv : ir_value) (u : iv_union) : ir_value :=
  mk_value (iv_class iv) (iv_type iv) u (iv_data iv) (iv_precolored iv).
Definition set_precolored (iv : ir_value) (p : Z) : ir_value :=
  mk_value (iv_class iv) (iv_type iv) (iv_u iv) (iv_data iv) p.

(** [calloc]. *)
Definition blank_value : ir_value := mk_value IR_VC_UNDEF 0 (U_word 0) D_none 0.

(** [iu_values] (a freed slot is [None]), [iu_next_value], and the types. *)
Record value_state := mk_vs {
  vs_values : list (option ir_value);
  vs_next : nat;
  vs_types : type_state;
}.

Definition upd_values (vs : value_state) (l : list (option ir_value)) : value_state :=
  mk_vs l (vs_next vs) (vs_types vs).

Definition value_resize (vs : value_state) (newsize : nat) : res value_state :=
  _ ← check (bool_decide (newsize <= length (vs_values vs))%nat) AssertFail;
  Ok (mk_vs (imap (λ i v, if bool_decide (newsize <= i)%nat then None else v)
               (vs_values vs)) newsize (vs_types vs)).

(** Returns the index; the slot holds a blank value or, when it was not
    freed, what it held. *)
Definition value_append (vs : value_state) : res (nat * value_state) :=
  let n := vs_next vs in
  if bool_decide (n = length (vs_values vs)) then
    Ok (n, mk_vs (vs_values vs ++ [Some blank_value]) (S n) (vs_types vs))
  else
    _ ← check (bool_decide (n < length (vs_values vs))%nat) AssertFail;
    Ok (n, mk_vs (alter (λ v, Some (default blank_value v)) n (vs_values vs))
                 (S n) (vs_types vs)).

(** A NULL slot is dereferenced by every caller. *)
Definition value_get (vs : value_state) (index : Z) : res ir_value :=
  v ← oget (vs_values vs !! Z.to_nat (u32 index)) ParserError;
  oget v Undef.

Definition value_set (vs : value_state) (index : Z) (iv : ir_value) : value_state :=
  upd_values vs (<[Z.to_nat (u32 index) := Some iv]> (vs_values vs)).

Definition value_reg (iv : ir_value) : res Z :=
  _ ← check (bool_decide (iv_class iv = IR_VC_REGFRAME)) AssertFail;
  v ← iv_reg iv; Ok (u32 v).

Definition value_function_addr (iv : ir_value) : res Z :=
  _ ← check (bool_decide (iv_class iv = IR_VC_FUNCTION)) AssertFail;
  match iv_u iv with U_func g => Ok (u32 g) | _ => Fail Undef end.

(** Appends a value and fills it in. *)
Definition value_new (vs : value_state) (f : ir_value → ir_value)
    : res (nat * value_state) :=
  '(n, vs) ← value_append vs;
  iv ← value_get vs (Z.of_nat n);
  Ok (n, value_set vs (Z.of_nat n) (f iv)).

Definition value_alloc_temporary (vs : value_state) (type : Z)
    : res (nat * value_state) :=
  value_new vs (λ iv, set_type (set_precolored (set_class iv IR_VC_TEMPORARY) (-1)) type).

Definition value_create_const32 (vs : value_state) (v : Z)
    : res (nat * Z * value_state) :=
  type ← type_find_by_code (iu_types (vs_types vs)) IR_TYPE_INT32;
  '(n, vs) ← value_new vs (λ iv, set_u32 (set_type (set_class iv IR_VC_CONSTANT) type) v);
  Ok (n, type, vs).

Definition value_create_zero (vs : value_state) (type : Z)
    : res (nat * value_state) :=
  value_new vs (λ iv, set_union (set_type (set_class iv IR_VC_CONSTANT) type) (U_word 0)).

Definition value_regframe_slots (types : list ir_type) (type : Z) : res Z :=
  it ← type_get types type;
  match it with
  | T_INT1 | T_INT8 | T_INT16 | T_INT32 | T_FLOAT | T_POINTER _ | T_FUNCTION _ => Ok 1
  | T_INT64 | T_DOUBLE => Ok 2
  | T_INTx bits => if bits <=? 32 then Ok 1 else Ok 2
  | _ => Fail ParserError
  end.

Definition value_regframe_size (types : list ir_type) (type : Z) : res Z :=
  n ← value_regframe_slots types type; Ok (n * 4).

(** [value_alloc_function_arg]; the second component is [if_callarg_size]. *)
Definition value_alloc_function_arg (vs : value_state) (if_callarg_size type : Z)
    : res (nat * Z * value_state) :=
  size ← value_regframe_size (iu_types (vs_types vs)) type;
  let reg := if_callarg_size - size in
  '(n, vs) ← value_new vs
    (λ iv, set_u32 (set_type (set_class iv IR_VC_REGFRAME) type) reg);
  Ok (n, reg, vs).

(** ** Reading constants *)

Definition value_get_const32 (types : list ir_type) (iv : ir_value) : res Z :=
  it ← type_get types (iv_type iv);
  match iv_class iv with
  | IR_VC_GLOBALVAR =>
      match iv_u iv with U_gvar g => Ok (u32 (ig_addr g)) | _ => Fail Undef end
  | IR_VC_CONSTANT =>
      match it with
      | T_INT1 => v ← iv_u32 iv; Ok (bool_to_Z (negb (v =? 0)))
      | T_INT8 | T_INT16 | T_INT32 | T_POINTER _ | T_FLOAT => iv_u32 iv
      | T_INTx _ | T_INT64 | T_DOUBLE => v ← iv_u64 iv; Ok (u32 v)
      | _ => Fail ParserError
      end
  | _ => Fail ParserError
  end.

Definition value_get_const (types : list ir_type) (iv : ir_value) : res Z :=
  it ← type_get types (iv_type iv);
  match iv_class iv with
  | IR_VC_GLOBALVAR =>
      match iv_u iv with U_gvar g => Ok (u32 (ig_addr g)) | _ => Fail Undef end
  | IR_VC_CONSTANT =>
      match it with
      | T_INT1 => v ← iv_u32 iv; Ok (bool_to_Z (negb (v =? 0)))
      | T_INT8 | T_INT16 | T_INT32 | T_POINTER _ | T_FLOAT =>
          v ← iv_u32 iv; Ok (Z.land v (type_code_mask (it_code it)))
      | T_INTx _ | T_INT64 | T_DOUBLE => v ← iv_u64 iv; Ok (u32 v)
      | _ => Fail ParserError
      end
  | _ => Fail ParserError
  end.

Definition value_get_const64 (types : list ir_type) (iv : ir_value) : res Z :=
  _ ← check (bool_decide (iv_class iv = IR_VC_CONSTANT)) AssertFail;
  it ← type_get types (iv_type iv);
  match it with
  | T_INT1 => v ← iv_u32 iv; Ok (bool_to_Z (negb (v =? 0)))
  | T_INT8 | T_INT16 | T_INT32 | T_POINTER _ => iv_u32 iv
  | T_INTx _ | T_INT64 | T_DOUBLE => iv_u64 iv
  | _ => Fail ParserError
  end.
