(* ===== verification/ConstExpr.v ===== *)
(** The evaluation of constant expressions: [eval_constexpr] and
    [eval_constexprs] of [src/src/vmir_value.c]. *)
From S2P Require Import Prelude Support Bitstream Types Values.
Local Open Scope Z_scope.

Definition is_ce (iv : ir_value) : bool := bool_decide (iv_class iv = IR_VC_CE).

Definition types_of (vs : value_state) : list ir_type := iu_types (vs_types vs).

(** The new contents of the value for a cast of [src]. *)
Definition eval_cast (types : list ir_type) (iv : ir_value) (tc : ir_type_code)
    (op : option ir_cast) (src : ir_value) : res ir_value :=
  match tc, op, iv_class src with
  | IR_TYPE_POINTER, Some CAST_INTTOPTR, IR_VC_CONSTANT =>
      v ← iv_u32 src; Ok (set_u32 iv v)
  | IR_TYPE_POINTER, Some CAST_BITCAST, (IR_VC_GLOBALVAR | IR_VC_CONSTANT) =>
      v ← value_get_const32 types src; Ok (set_u32 iv v)
  | IR_TYPE_POINTER, Some CAST_BITCAST, IR_VC_FUNCTION =>
      Ok (set_type (set_union (set_class iv IR_VC_FUNCTION) (iv_u src)) (iv_type src))
  | (IR_TYPE_INT32 | IR_TYPE_INT8), Some CAST_PTRTOINT,
      (IR_VC_CONSTANT | IR_VC_GLOBALVAR) =>
      v ← value_get_const32 types src; Ok (set_u32 iv v)
  | IR_TYPE_INT32, Some CAST_PTRTOINT, IR_VC_FUNCTION =>
      v ← value_function_addr src; Ok (set_u32 iv v)
  | _, _, _ => Fail ParserError
  end.

Definition eval_binop (types : list ir_type) (iv : ir_value) (tc : ir_type_code)
    (op : option binop) (lhs rhs : ir_value) : res ir_value :=
  match tc with
  | IR_TYPE_INT8 | IR_TYPE_INT32 | IR_TYPE_POINTER =>
      l ← value_get_const32 types lhs;
      r ← value_get_const32 types rhs;
      o ← oget op ParserError;
      v ← c_binop 32 o l r;
      Ok (set_class (set_u32 iv v) IR_VC_CONSTANT)
  | _ => Fail ParserError
  end.

Definition eval_cmp (types : list ir_type) (iv : ir_value) (opty : ir_type_code)
    (pred : option icmp) (lhs rhs : ir_value) : res ir_value :=
  match opty with
  | IR_TYPE_INT32 | IR_TYPE_POINTER =>
      l ← value_get_const32 types lhs;
      r ← value_get_const32 types rhs;
      p ← oget pred ParserError;
      Ok (set_class (set_u32 iv (bool_to_Z (c_icmp 32 p l r))) IR_VC_CONSTANT)
  | _ => Fail ParserError
  end.

(** One index [x] (an [int]) of a GEP into the type at [type_index]: the new
    address and type. *)
Definition gep_step (types : list ir_type) (addr type_index x : Z) : res (Z * Z) :=
  curtype ← type_get types type_index;
  match curtype with
  | T_POINTER pointee =>
      s ← type_sizeof types pointee; Ok (u32 (addr + u32 x * s), pointee)
  | T_STRUCT st =>
      _ ← check (x <? Z.of_nat (length (st_elements st))) ParserError;
      _ ← check (0 <=? x) Undef;
      '(t, off) ← oget (st_elements st !! Z.to_nat x) Undef;
      off ← oget off Undef;
      Ok (u32 (addr + u32 off), t)
  | T_ARRAY _ et =>
      s ← type_sizeof types et; Ok (u32 (addr + u32 x * s), et)
  | _ => Fail ParserError
  end.

Definition gep_walk (vs : value_state) (st : Z * Z) (v : Z) : res (Z * Z) :=
  let '(addr, type_index) := st in
  curval ← value_get vs v;
  _ ← type_get (types_of vs) type_index;
  x ← value_get_const32 (types_of vs) curval;
  gep_step (types_of vs) addr type_index (s32 x).

Section eval.
Context (eval_rec : value_state → Z → ir_constexpr → res value_state).

(** Operands of casts and the base of a GEP are evaluated first when they are
    expressions themselves. *)
Definition eval_operand (vs : value_state) (i : Z) : res value_state :=
  iv ← value_get vs i;
  if is_ce iv then
    match iv_u iv with U_ce ce => eval_rec vs i ce | _ => Fail Undef end
  else Ok vs.

(** [i] is the index of the value [iv]. *)
Definition eval_constexpr_body (vs : value_state) (i : Z) (ic : ir_constexpr)
    : res value_state :=
  iv ← value_get vs i;
  match ic with
  | CE_CAST op src =>
      tc ← type_get (types_of vs) (iv_type iv);
      vs ← eval_operand vs src;
      sv ← value_get vs src;
      src ← (if bool_decide (iv_class sv = IR_VC_ALIAS) then iv_reg sv else Ok src);
      iv ← value_get vs i;
      let iv := set_class iv IR_VC_CONSTANT in
      let vs := value_set vs i iv in
      sv ← value_get vs src;
      iv ← eval_cast (types_of vs) iv (it_code tc) op sv;
      Ok (value_set vs i iv)
  | CE_BINOP op lhs rhs =>
      lhs ← value_get vs lhs;
      rhs ← value_get vs rhs;
      tc ← type_get (types_of vs) (iv_type iv);
      iv ← eval_binop (types_of vs) iv (it_code tc) op lhs rhs;
      Ok (value_set vs i iv)
  | CE_CMP opty lhs rhs pred =>
      lhs ← value_get vs lhs;
      rhs ← value_get vs rhs;
      tc ← type_get (types_of vs) opty;
      iv ← eval_cmp (types_of vs) iv (it_code tc) pred lhs rhs;
      Ok (value_set vs i iv)
  | CE_GEP [] => Fail Undef
  | CE_GEP (v0 :: vv) =>
      vs ← eval_operand vs v0;
      curval ← value_get vs v0;
      addr ← value_get_const32 (types_of vs) curval;
      '(addr, type_index) ← foldR (gep_walk vs) (addr, iv_type curval) vv;
      let '(t, ts) := type_make_pointer (vs_types vs) type_index true in
      iv ← value_get vs i;
      Ok (value_set (mk_vs (vs_values vs) (vs_next vs) ts) i
            (set_class (set_u32 (set_type iv t) addr) IR_VC_CONSTANT))
  end.
End eval.

Fixpoint eval_constexpr (fuel : nat) (vs : value_state) (i : Z) (ic : ir_constexpr)
    : res value_state :=
  match fuel with
  | O => Fail NoFuel
  | S fuel => eval_constexpr_body (eval_constexpr fuel) vs i ic
  end.

(** An expression nests at most as deep as there are values. *)
Definition eval_fuel (vs : value_state) : nat := S (length (vs_values vs)).

Definition eval_one (vs : value_state) (i : nat) : res value_state :=
  v ← oget (vs_values vs !! i) Undef;
  iv ← oget v Undef;
  if is_ce iv then
    match iv_u iv with
    | U_ce ce => eval_constexpr (eval_fuel vs) vs (Z.of_nat i) ce
    | _ => Fail Undef
    end
  else Ok vs.

Definition eval_constexprs (vs : value_state) : res value_state :=
  foldR eval_one vs (seq 0 (vs_next vs)).

(** ** No expression is left *)

(** [b] is [a] with some expressions evaluated: the other values are the
    same. *)
Definition val_le (a b : option ir_value) : Prop :=
  match a with
  | Some v => if is_ce v then ∃ w, b = Some w else b = a
  | None => b = a
  end.

Definition vs_le (a b : value_state) : Prop :=
  vs_next a = vs_next b ∧ Forall2 val_le (vs_values a) (vs_values b) ∧
  ∀ i v w, vs_values a !! i = Some (Some v) → vs_values b !! i = Some (Some w) →
    is_ce v = true → is_ce w = false ∨ w = v.

#[export] Instance vs_le_preorder : PreOrder vs_le.
Proof.
  split.
  - intros a. split_and!; [done| |naive_solver].
    apply Forall_Forall2_diag, Forall_true. intros [v|]; [|done]. simpl.
    destruct (is_ce v); eauto.
  - intros a b c (H1 & H2 & H3) (K1 & K2 & K3). split_and!; [congruence| |].
    + apply Forall2_same_length_lookup_2.
      { etrans; by eapply Forall2_length. }
      intros i x z Hx Hz. destruct (Forall2_lookup_l _ _ _ _ _ H2 Hx) as (y & Hy & Hxy).
      pose proof (Forall2_lookup_lr _ _ _ _ _ _ K2 Hy Hz) as Hyz.
      revert Hxy Hyz. clear. destruct x as [x|]; simpl.
      * destruct (is_ce x) eqn:Hx.
        -- intros [w ->]. simpl. destruct (is_ce w); naive_solver.
        -- intros ->. simpl. by rewrite Hx.
      * intros ->. done.
    + intros i v w Hv Hw Hce.
      destruct (Forall2_lookup_l _ _ _ _ _ H2 Hv) as (y & Hy & Hvy).
      simpl in Hvy. rewrite Hce in Hvy. destruct Hvy as [u ->].
      destruct (H3 _ _ _ Hv Hy Hce) as [Hu|Hu].
      * destruct (Forall2_lookup_l _ _ _ _ _ K2 Hy) as (z & Hz & Hyz).
        simpl in Hyz. rewrite Hu in Hyz. left. naive_solver.
      * subst u. eauto.
Qed.

Lemma value_get_lookup vs i iv :
  value_get vs i = Ok iv ↔ vs_values vs !! Z.to_nat (u32 i) = Some (Some iv).
Proof.
  unfold value_get. destruct (vs_values vs !! _) as [[v|]|]; simpl; naive_solver.
Qed.

(** Evaluating the expression at [i]. *)
Lemma vs_le_set vs vs' i iv w ts :
  vs_le vs vs' → value_get vs i = Ok iv → is_ce iv = true →
  is_ce w = false →
  vs_le vs (value_set (mk_vs (vs_values vs') (vs_next vs') ts) i w).
Proof.
  intros (H1 & H2 & H3) Hi Hce Hw. apply value_get_lookup in Hi.
  unfold value_set, upd_values. split_and!; [done| |]; simpl.
  - apply Forall2_same_length_lookup_2.
    { rewrite length_insert. by eapply Forall2_length. }
    intros j x y Hx Hy. destruct (decide (Z.to_nat (u32 i) = j)) as [<-|Hn].
    + rewrite list_lookup_insert_eq in Hy.
      * simplify_eq. simpl. rewrite Hce. eauto.
      * apply lookup_lt_Some in Hx. by rewrite <-(list.Forall2_length _ _ _ H2).
    + rewrite list_lookup_insert_ne in Hy by done.
      eapply Forall2_lookup_lr; eauto.
  - intros j v u Hv Hu Hvce. destruct (decide (Z.to_nat (u32 i) = j)) as [<-|Hn].
    + rewrite list_lookup_insert_eq in Hu; [naive_solver|].
      apply lookup_lt_Some in Hv. by rewrite <-(list.Forall2_length _ _ _ H2).
    + rewrite list_lookup_insert_ne in Hu by done. eauto.
Qed.

Lemma set_u32_class iv v : iv_class (set_u32 iv v) = iv_class iv.
Proof. done. Qed.

Lemma eval_cast_class types iv tc op src w :
  eval_cast types iv tc op src = Ok w → is_ce iv = false → is_ce w = false.
Proof.
  unfold eval_cast, is_ce. intros H Hi.
  repeat case_match; inv_res; simpl; done.
Qed.

Lemma eval_binop_class types iv tc op l r w :
  eval_binop types iv tc op l r = Ok w → is_ce w = false.
Proof. unfold eval_binop, is_ce. intros H. repeat case_match; inv_res; done. Qed.

Lemma eval_cmp_class types iv tc op l r w :
  eval_cmp types iv tc op l r = Ok w → is_ce w = false.
Proof. unfold eval_cmp, is_ce. intros H. repeat case_match; inv_res; done. Qed.

Lemma value_set_set vs i a b : value_set (value_set vs i a) i b = value_set vs i b.
Proof. unfold value_set, upd_values; simpl. by rewrite list_insert_insert_eq. Qed.

Lemma value_get_set vs i iv w ts n :
  value_get vs i = Ok iv → value_get (value_set (mk_vs (vs_values vs) n ts) i w) i = Ok w.
Proof.
  intros H. apply value_get_lookup in H. apply value_get_lookup.
  unfold value_set, upd_values; simpl. apply list_lookup_insert_eq.
  by eapply lookup_lt_Some.
Qed.

Lemma mk_vs_eta vs : mk_vs (vs_values vs) (vs_next vs) (vs_types vs) = vs.
Proof. by destruct vs. Qed.

Definition evaluates (vs : value_state) (i : Z) (vs' : value_state) : Prop :=
  vs_le vs vs' ∧ ∃ w, value_get vs' i = Ok w ∧ is_ce w = false.

Lemma eval_operand_le rec vs i vs' :
  (∀ vs i iv ic vs', value_get vs i = Ok iv → is_ce iv = true →
     rec vs i ic = Ok vs' → evaluates vs i vs') →
  eval_operand rec vs i = Ok vs' → vs_le vs vs'.
Proof.
  intros Hrec H. unfold eval_operand in H. inv_res.
  destruct (is_ce a) eqn:Hc; [|by inv_res].
  destruct (iv_u a); try done. by eapply Hrec.
Qed.

(** The value at [i] is still there, and set last. *)
Lemma evaluates_set vs vs' i iv w ts :
  vs_le vs vs' → value_get vs i = Ok iv → is_ce iv = true → is_ce w = false →
  evaluates vs i (value_set (mk_vs (vs_values vs') (vs_next vs') ts) i w).
Proof.
  intros Hle Hi Hc Hw. split; [by eapply vs_le_set|]. exists w. split; [|done].
  apply value_get_lookup in Hi. destruct Hle as (_ & Hf & _).
  destruct (Forall2_lookup_l _ _ _ _ _ Hf Hi) as (y & Hy & Hvy).
  simpl in Hvy. rewrite Hc in Hvy. destruct Hvy as [u ->].
  eapply value_get_set, value_get_lookup, Hy.
Qed.

Lemma eval_constexpr_evaluates fuel vs i iv ic vs' :
  value_get vs i = Ok iv → is_ce iv = true →
  eval_constexpr fuel vs i ic = Ok vs' → evaluates vs i vs'.
Proof.
  revert vs i iv ic vs'; induction fuel as [|fuel IH]; intros vs i iv ic vs' Hi Hc H;
    [done|].
  cbn [eval_constexpr] in H. unfold eval_constexpr_body in H. rewrite Hi in H.
  cbn [mbind res_bind] in H.
  destruct ic as [op src|op lhs rhs|opty lhs rhs pred|[|v0 vv]]; [| | |done|]; inv_res.
  - apply eval_operand_le in Hm0; [|exact IH].
    rewrite value_set_set, <-(mk_vs_eta a0).
    eapply evaluates_set; [done|done|done|]. by eapply eval_cast_class.
  - rewrite <-(mk_vs_eta vs) at 2.
    eapply evaluates_set; [done|done|done|]. by eapply eval_binop_class.
  - rewrite <-(mk_vs_eta vs) at 2.
    eapply evaluates_set; [done|done|done|]. by eapply eval_cmp_class.
  - apply eval_operand_le in Hm; [|exact IH]. destruct a2 as [addr ty].
    destruct (type_make_pointer _ _ _) as [t ts]. inv_res.
    by eapply evaluates_set.
Qed.

(** C31: when [eval_constexprs] succeeds, no constant expression is left in the
    table and all values that were none are unchanged. *)
Theorem eval_constexprs_complete vs vs' :
  Z.of_nat (length (vs_values vs)) < 2 ^ 32 →
  eval_constexprs vs = Ok vs' →
  vs_le vs vs' ∧
  ∀ i, (i < vs_next vs)%nat → ∃ w, vs_values vs' !! i = Some (Some w) ∧ is_ce w = false.
Proof.
  intros Hlen H. unfold eval_constexprs in H.
  assert (vs_le vs vs' ∧ ∀ i, (i < length (seq 0 (vs_next vs)))%nat →
    ∃ w, vs_values vs' !! i = Some (Some w) ∧ is_ce w = false) as [Hle Hall].
  { eapply (foldR_ind (λ n v, vs_le vs v ∧ ∀ i, (i < n)%nat →
      ∃ w, vs_values v !! i = Some (Some w) ∧ is_ce w = false)); [|split; [done|lia]|exact H].
    intros n a v1 v2 Ha [Hle Hall] Hone. apply lookup_seq in Ha as [-> _].
    rewrite Nat.add_0_l in Hone. unfold eval_one in Hone. inv_res. subst.
    assert (Z.to_nat (u32 (Z.of_nat n)) = n) as Hn.
    { apply lookup_lt_Some in Hm. destruct Hle as (_ & Hf & _).
      apply list.Forall2_length in Hf. rewrite wrap_small by lia. apply Nat2Z.id. }
    assert (value_get v1 (Z.of_nat n) = Ok a0) as Hg
      by (apply value_get_lookup; by rewrite Hn).
    assert (vs_le v1 v2 ∧ ∃ w, value_get v2 (Z.of_nat n) = Ok w ∧ is_ce w = false)
      as [Hle2 (w & Hw & Hwc)].
    { destruct (is_ce a0) eqn:Hc.
      - destruct (iv_u a0); try done. by eapply eval_constexpr_evaluates.
      - inv_res. split; [done|]. eauto. }
    split; [by etrans|]. intros i Hi.
    destruct (decide (i = n)) as [->|].
    - apply value_get_lookup in Hw. rewrite Hn in Hw. eauto.
    - destruct (Hall i) as (u & Hu & Huc); [lia|]. exists u. split; [|done].
      destruct Hle2 as (_ & Hf & _).
      destruct (Forall2_lookup_l _ _ _ _ _ Hf Hu) as (y & Hy & Hvy).
      simpl in Hvy. rewrite Huc in Hvy. by subst. }
  split; [done|]. intros i Hi. apply Hall. by rewrite length_seq.
Qed.

Definition example_values : value_state :=
  mk_vs
    [Some (mk_value IR_VC_GLOBALVAR 1 (U_gvar (mk_gvar 3 None 4096 12)) D_none 0);
     Some (mk_value IR_VC_CE 0 (U_ce (CE_CAST (Some CAST_PTRTOINT) 2)) D_none 0);
     Some (mk_value IR_VC_CE 1 (U_ce (CE_GEP [0; 3; 3])) D_none 0);
     Some (mk_value IR_VC_CONSTANT 0 (U_word 0) D_none 0);
     Some (mk_value IR_VC_CONSTANT 0 (U_word 2) D_none 0);
     Some (mk_value IR_VC_CE 1 (U_ce (CE_GEP [0; 3; 4])) D_none 0)]
    6 (mk_types [T_INT32; T_POINTER 2; T_ARRAY 3 0; T_VOID] true None).

Definition example_values' : value_state :=
  match eval_constexprs example_values with Ok vs => vs | Fail _ => example_values end.

Lemma eval_constexprs_complete_witness :
  eval_constexprs example_values = Ok example_values' ∧
  vs_le example_values example_values' ∧
  ∀ i, (i < 6)%nat → ∃ w, vs_values example_values' !! i = Some (Some w) ∧ is_ce w = false.
Proof.
  assert (eval_constexprs example_values = Ok example_values') as H
    by (vm_compute; reflexivity).
  split; [exact H|].
  apply (eval_constexprs_complete example_values); [reflexivity|exact H].
Defined.

(** An operand of a binary expression is not evaluated first: when it comes
    later in the table the unit is rejected. *)
Lemma eval_binop_of_expression types iv tc op lhs rhs :
  is_ce lhs = true → is_Some (types !! Z.to_nat (u32 (iv_type lhs))) →
  eval_binop types iv tc op lhs rhs = Fail ParserError.
Proof.
  intros Hc [t Ht]. unfold eval_binop, value_get_const32, type_get. rewrite Ht.
  apply bool_decide_eq_true in Hc. rewrite Hc. by destruct tc.
Qed.

(** ** Termination *)

Definition vidx (i : Z) : nat := Z.to_nat (u32 i).

(** Evaluated operands have smaller rank: no expression contains itself. *)
Definition ce_ranked (rank : nat → nat) (vs : value_state) : Prop :=
  ∀ n iv, vs_values vs !! n = Some (Some iv) → is_ce iv = true →
    (rank n <= length (vs_values vs))%nat ∧
    match iv_u iv with
    | U_ce (CE_CAST _ src) => (rank (vidx src) < rank n)%nat
    | U_ce (CE_GEP (v0 :: _)) => (rank (vidx v0) < rank n)%nat
    | _ => True
    end.

Lemma ce_ranked_mono rank vs vs' : vs_le vs vs' → ce_ranked rank vs → ce_ranked rank vs'.
Proof.
  intros (H1 & H2 & H3) Hr i iv Hi Hc.
  rewrite <-(list.Forall2_length _ _ _ H2).
  destruct (Forall2_lookup_r _ _ _ _ _ H2 Hi) as (x & Hx & Hle).
  destruct x as [v|]; [|done]. simpl in Hle.
  destruct (is_ce v) eqn:Hv; [|injection Hle as ->; congruence].
  destruct (H3 _ _ _ Hx Hi Hv) as [H4|H4]; [congruence|subst v].
  by apply Hr.
Qed.

Lemma ranked_push rank t p :
  ranked rank t →
  ranked (λ i, if decide (i < length t)%nat then S (rank i) else O) (t ++ [T_POINTER p]).
Proof.
  intros Hr i ty Hi. apply lookup_app_Some in Hi as [Hi|[Hl Hi]].
  - pose proof (lookup_lt_Some _ _ _ Hi) as Hlt. destruct (Hr _ _ Hi) as [Hb Hk].
    rewrite decide_True by done. rewrite length_app; simpl. split; [lia|].
    destruct ty; try done.
    + intros et s' Het Hg. case_decide as Hd; [|lia].
      apply type_get_lookup in Hg. rewrite lookup_app_l in Hg by done.
      specialize (Hk _ _ Het (proj2 (type_get_lookup _ _ _) Hg)). lia.
    + intros _. case_decide as Hd; [|lia].
      specialize (Hk (proj2 (lookup_lt_is_Some _ _) Hd)). lia.
  - apply list_lookup_singleton_Some in Hi as [Hi <-]. split; [|done].
    case_decide; [|lia]. lia.
Qed.

Definition sized (types : list ir_type) : Prop := ∃ rank, ranked rank types.

Lemma type_sizeof_ends types id : sized types → type_sizeof types id ≠ Fail NoFuel.
Proof.
  intros [rank Hr]. unfold type_sizeof. destruct (type_get types id) as [ty|e] eqn:Ht.
  - rok. apply type_get_lookup in Ht. destruct (Hr _ _ Ht) as [Hb _].
    eapply type_sizeof_fuel_ends; [done|done|lia].
  - apply type_get_fail in Ht as ->. by rok.
Qed.

Lemma sized_make_pointer ts ty i ts' :
  sized (iu_types ts) → type_make_pointer ts ty true = (i, ts') → sized (iu_types ts').
Proof.
  intros [rank Hr]. unfold type_make_pointer. destruct (find_type _ _ _); intros [= <- <-].
  - by exists rank.
  - eexists. simpl. by apply ranked_push.
Qed.

Lemma value_get_fail vs i e : value_get vs i = Fail e → e ≠ NoFuel.
Proof. unfold value_get. destruct (vs_values vs !! Z.to_nat (u32 i)) as [[]|]; naive_solver. Qed.

Lemma iv_u32_fail iv e : iv_u32 iv = Fail e → e ≠ NoFuel.
Proof. unfold iv_u32. destruct (iv_u iv); naive_solver. Qed.

(** [nofuel m]: [m] does not fail by lack of fuel. *)
Definition nofuel {A} (m : res A) : Prop := m ≠ Fail NoFuel.

Lemma nofuel_bind {A B} (m : res A) (f : A → res B) :
  nofuel m → (∀ a, m = Ok a → nofuel (f a)) → nofuel (m ≫= f).
Proof. unfold nofuel. destruct m; naive_solver. Qed.

Lemma nofuel_check b e : e ≠ NoFuel → nofuel (check b e).
Proof. destruct b; unfold nofuel, check; naive_solver. Qed.
Lemma nofuel_oget {A} (o : option A) e : e ≠ NoFuel → nofuel (oget o e).
Proof. destruct o; unfold nofuel; naive_solver. Qed.

Lemma nofuel_type_get t id : nofuel (type_get t id).
Proof. intros H. by apply type_get_fail in H. Qed.
Lemma nofuel_value_get vs i : nofuel (value_get vs i).
Proof. intros H. by apply value_get_fail in H. Qed.
Lemma nofuel_iv_u32 iv : nofuel (iv_u32 iv).
Proof. intros H. by apply iv_u32_fail in H. Qed.

Create HintDb nofuel.
Lemma nofuel_iv_u64 iv : nofuel (iv_u64 iv).
Proof. unfold iv_u64. by destruct (iv_u iv). Qed.
#[export] Hint Resolve nofuel_type_get nofuel_value_get nofuel_iv_u32 nofuel_iv_u64 : nofuel.

(** Runs through a monadic term. *)
Ltac nofuel :=
  repeat first
    [ solve [eauto with nofuel]
    | apply nofuel_check; discriminate
    | apply nofuel_oget; discriminate
    | apply nofuel_bind; [|intros ? ?]
    | discriminate
    | match goal with |- nofuel (match ?x with _ => _ end) => destruct x eqn:? end
    | match goal with |- nofuel (if ?x then _ else _) => destruct x eqn:? end ].

Lemma nofuel_const32 types iv : nofuel (value_get_const32 types iv).
Proof. unfold value_get_const32. nofuel. Qed.

Lemma nofuel_const64 types iv : nofuel (value_get_const64 types iv).
Proof. unfold value_get_const64. nofuel. Qed.

Lemma nofuel_c_binop w o l r : nofuel (c_binop w o l r).
Proof. unfold c_binop. destruct o; nofuel. Qed.
#[export] Hint Resolve nofuel_const32 nofuel_const64 nofuel_c_binop : nofuel.

Lemma nofuel_eval_cast types iv tc op src : nofuel (eval_cast types iv tc op src).
Proof. unfold eval_cast, value_function_addr. destruct tc, op as [[]|]; nofuel. Qed.
Lemma nofuel_eval_binop types iv tc op l r : nofuel (eval_binop types iv tc op l r).
Proof. unfold eval_binop. destruct tc; nofuel. Qed.
Lemma nofuel_eval_cmp types iv tc op l r : nofuel (eval_cmp types iv tc op l r).
Proof. unfold eval_cmp. destruct tc; nofuel. Qed.
#[export] Hint Resolve nofuel_eval_cast nofuel_eval_binop nofuel_eval_cmp : nofuel.

Lemma nofuel_gep vs st l : sized (types_of vs) → nofuel (foldR (gep_walk vs) st l).
Proof.
  intros Hs. revert st; induction l as [|v l IH]; intros [a t]; simpl; [discriminate|].
  apply nofuel_bind; [|intros; apply IH].
  assert (∀ i, nofuel (type_sizeof (types_of vs) i)) by (intros; by apply type_sizeof_ends).
  unfold gep_step. nofuel.
Qed.

Lemma eval_operand_sized rec vs v vs' :
  (∀ vs i ic vs', sized (types_of vs) → rec vs i ic = Ok vs' → sized (types_of vs')) →
  sized (types_of vs) → eval_operand rec vs v = Ok vs' → sized (types_of vs').
Proof.
  intros Hrec Hs H. unfold eval_operand in H. inv_res.
  destruct (is_ce a); [destruct (iv_u a); eauto; done|]. by inv_res.
Qed.

Lemma eval_constexpr_sized fuel vs i ic vs' :
  sized (types_of vs) → eval_constexpr fuel vs i ic = Ok vs' → sized (types_of vs').
Proof.
  revert vs i ic vs'; induction fuel as [|fuel IH]; intros vs i ic vs' Hs H; [done|].
  cbn [eval_constexpr] in H. unfold eval_constexpr_body in H.
  pose proof (λ v v', eval_operand_sized _ vs v v' IH Hs) as Hop.
  destruct ic as [op src|op lhs rhs|opty lhs rhs pred|[|v0 vv]]; inv_res; try done.
  - match goal with H : eval_operand _ _ _ = Ok _ |- _ => by apply Hop in H end.
  - repeat match goal with p : (Z * Z)%type |- _ => destruct p end.
    destruct (type_make_pointer _ _ _) as [t ts] eqn:Hp. inv_res.
    match goal with H : eval_operand _ _ _ = Ok _ |- _ => apply Hop in H end.
    by eapply sized_make_pointer.
Qed.

Lemma eval_constexpr_ends rank fuel vs i iv ic :
  ce_ranked rank vs → sized (types_of vs) → value_get vs i = Ok iv → is_ce iv = true →
  iv_u iv = U_ce ic → (rank (vidx i) < fuel)%nat → nofuel (eval_constexpr fuel vs i ic).
Proof.
  revert vs i iv ic; induction fuel as [|fuel IH]; intros vs i iv ic Hr Hs Hi Hc Hu Hf;
    [lia|].
  cbn [eval_constexpr]. unfold eval_constexpr_body. rewrite Hi. cbn [mbind res_bind].
  destruct (Hr _ _ (proj1 (value_get_lookup _ _ _) Hi) Hc) as [_ Hk]. rewrite Hu in Hk.
  assert (∀ v, (rank (vidx v) < rank (vidx i))%nat → nofuel (eval_operand (eval_constexpr fuel) vs v)) as Hop.
  { intros v Hv. unfold eval_operand. apply nofuel_bind; [eauto with nofuel|].
    intros w Hw. destruct (is_ce w) eqn:Hwc; [|discriminate].
    destruct (iv_u w) eqn:Hwu; try discriminate.
    eapply IH; [done|done|exact Hw|done|done|lia]. }
  destruct ic as [op src|op lhs rhs|opty lhs rhs pred|[|v0 vv]].
  - unfold iv_reg. pose proof (Hop src Hk). nofuel.
  - nofuel.
  - nofuel.
  - discriminate.
  - apply nofuel_bind; [by apply Hop|]. intros vs1 H1.
    assert (sized (types_of vs1)) as Hs1.
    { eapply eval_operand_sized; [|done|exact H1]. intros *. apply eval_constexpr_sized. }
    pose proof (λ st, nofuel_gep vs1 st vv Hs1). nofuel.
Qed.

(** C32: the evaluation ends when types and expressions do not contain
    themselves. *)
Theorem eval_constexprs_ends rank vs :
  Z.of_nat (length (vs_values vs)) < 2 ^ 32 →
  ce_ranked rank vs → sized (types_of vs) → eval_constexprs vs ≠ Fail NoFuel.
Proof.
  intros Hlen Hr Hs. unfold eval_constexprs.
  apply (foldR_fuel (λ _ v, vs_le vs v ∧ sized (types_of v))); [| |done].
  - intros n i v Hi [Hle Hsz]. apply lookup_seq in Hi as [-> _].
    unfold eval_one. apply nofuel_bind; [by apply nofuel_oget|]. intros o Ho.
    apply nofuel_bind; [by apply nofuel_oget|]. intros iv Hiv. inv_res. subst o.
    destruct (is_ce iv) eqn:Hc; [|discriminate].
    destruct (iv_u iv) eqn:Hu; try discriminate.
    assert (value_get v (Z.of_nat (0 + n)) = Ok iv) as Hg.
    { apply value_get_lookup. pose proof (lookup_lt_Some _ _ _ Ho) as Hl.
      destruct Hle as (_ & Hf & _). apply list.Forall2_length in Hf.
      rewrite wrap_small by lia. by rewrite Nat2Z.id. }
    pose proof (ce_ranked_mono _ _ _ Hle Hr) as Hr'.
    eapply eval_constexpr_ends; [done|done|done|done|done|].
    apply value_get_lookup in Hg. fold (vidx (Z.of_nat (0 + n))) in Hg.
    destruct (Hr' _ _ Hg Hc) as [? _]. unfold eval_fuel. lia.
  - intros n i v v' Hi [Hle Hsz] Hone. apply lookup_seq in Hi as [-> _].
    unfold eval_one in Hone. inv_res. subst.
    assert (value_get v (Z.of_nat (0 + n)) = Ok a0) as Hg.
    { apply value_get_lookup. pose proof (lookup_lt_Some _ _ _ Hm) as Hl.
      destruct Hle as (_ & Hf & _). apply list.Forall2_length in Hf.
      rewrite wrap_small by lia. by rewrite Nat2Z.id. }
    destruct (is_ce a0) eqn:Hc; [|by inv_res].
    destruct (iv_u a0); try done.
    split; [|by eapply eval_constexpr_sized].
    etrans; [done|]. by eapply eval_constexpr_evaluates.
Qed.

Definition example_ce_rank (n : nat) : nat :=
  match n with 1 => 2 | 2 | 5 => 1 | _ => 0 end%nat.

Lemma example_ce_ranked : ce_ranked example_ce_rank example_values.
Proof.
  intros n iv Hn Hc.
  do 6 (destruct n as [|n]; [injection Hn as <-; try discriminate Hc;
    vm_compute; split; lia|]). discriminate.
Qed.

Lemma example_values_sized : sized (types_of example_values).
Proof.
  exists (λ i, match i with 2 => 1 | _ => 0 end%nat). intros i ty Hi.
  do 4 (destruct i as [|i]; [injection Hi as <-; split; [simpl; lia|];
    (done || (intros _; vm_compute; lia))|]). discriminate.
Qed.

Lemma eval_constexprs_ends_witness :
  ce_ranked example_ce_rank example_values ∧ eval_constexprs example_values ≠ Fail NoFuel.
Proof.
  split; [exact example_ce_ranked|].
  exact (eval_constexprs_ends example_ce_rank example_values eq_refl
           example_ce_ranked example_values_sized).
Defined.
