(* ===== verification/Globals.v ===== *)
(** The initialisation of global variables: [initialize_global],
    [initialize_globals] and [find_globalvar] of [src/src/vmir.c]. *)
From S2P Require Import Prelude Support Mem Bitstream Types Values ConstExpr.
Local Open Scope Z_scope.

(** [memcpy] from the [iv_data] of a constant. *)
Fixpoint mem_write_bytes (m : memory) (a : Z) (bytes : list Z) : res memory :=
  match bytes with
  | [] => Ok m
  | b :: bytes => m ← mem_wr8 m a b; mem_write_bytes m (a + 1) bytes
  end.

Section init.
Context (vs : value_state).
Let types := types_of vs.
Context (init_rec : memory → Z → Z → ir_value → res memory).

(** One element of an aggregate of type [ty] at [addr]. *)
Definition init_element (addr ty : Z) (m : memory) (v : Z * Z) : res memory :=
  sub ← value_get vs (fst v); init_rec m addr ty sub.

(** The loop over the elements of an array; [addr] advances. *)
Definition init_array_step (ety : Z) (st : memory * Z) (v : Z * Z) : res (memory * Z) :=
  let '(m, addr) := st in
  m ← init_element addr ety m v;
  s ← type_sizeof types ety;
  Ok (m, addr + s).

Definition init_struct_step (addr : Z) (m : memory) (e : (Z * option Z) * (Z * Z))
    : res memory :=
  let '((ty, off), v) := e in
  off ← oget off Undef; init_element (addr + off) ty m v.

Definition initialize_global_body (m : memory) (addr dstty_index : Z) (c : ir_value)
    : res memory :=
  dstty ← type_get types dstty_index;
  match dstty with
  | T_INT1 | T_INT8 => v ← value_get_const32 types c; mem_wr8 m addr v
  | T_INT16 => v ← value_get_const32 types c; mem_wr16 m addr v
  | T_INT32 | T_FLOAT => v ← value_get_const32 types c; mem_wr32 m addr v
  | T_INT64 | T_DOUBLE => v ← value_get_const64 types c; mem_wr64 m addr v
  | T_POINTER _ =>
      match iv_class c with
      | IR_VC_GLOBALVAR | IR_VC_CONSTANT =>
          v ← value_get_const32 types c; mem_wr32 m addr v
      | IR_VC_FUNCTION => v ← value_function_addr c; mem_wr32 m addr v
      | _ => Fail ParserError
      end
  | T_ARRAY n ety =>
      size ← type_sizeof types dstty_index;
      let size := s32 size in
      match iv_class c with
      | IR_VC_DATA =>
          match iv_data c with
          | D_bytes bytes =>
              _ ← check ((0 <=? size) && (size <=? Z.of_nat (length bytes))) Undef;
              mem_write_bytes m addr (take (Z.to_nat size) bytes)
          | _ => Fail Undef
          end
      | IR_VC_ZERO_INITIALIZER =>
          _ ← check (0 <=? size) Undef; mem_set m addr 0 (Z.to_nat size)
      | IR_VC_AGGREGATE =>
          nv ← iv_reg c;
          _ ← check (nv =? n) AssertFail;
          match iv_data c with
          | D_values values =>
              _ ← check (n <=? Z.of_nat (length values)) Undef;
              '(m, _) ← foldR (init_array_step ety) (m, addr) (take (Z.to_nat n) values);
              Ok m
          | _ => Fail Undef
          end
      | _ => Fail ParserError
      end
  | T_STRUCT st =>
      size ← type_sizeof types dstty_index;
      let size := s32 size in
      match iv_class c with
      | IR_VC_ZERO_INITIALIZER =>
          _ ← check (0 <=? size) Undef; mem_set m addr 0 (Z.to_nat size)
      | IR_VC_AGGREGATE =>
          let x := length (st_elements st) in
          nv ← iv_reg c;
          _ ← check (nv =? Z.of_nat x) AssertFail;
          match iv_data c with
          | D_values values =>
              _ ← check (bool_decide (x <= length values)%nat) Undef;
              foldR (init_struct_step addr) m (zip (st_elements st) values)
          | _ => Fail Undef
          end
      | _ => Fail ParserError
      end
  | _ => Fail ParserError
  end.
End init.

Fixpoint initialize_global (fuel : nat) (vs : value_state) (m : memory)
    (addr dstty_index : Z) (c : ir_value) : res memory :=
  match fuel with
  | O => Fail NoFuel
  | S fuel => initialize_global_body vs (initialize_global fuel vs) m addr dstty_index c
  end.

(** Types nest at most as deep as the table is long. *)
Definition init_fuel (vs : value_state) : nat := S (length (types_of vs)).

(** [ir_initializer_t] is a pair (globalvar, constant). *)
Definition initialize_one (vs : value_state) (m : memory) (ii : Z * Z) : res memory :=
  gv ← value_get vs (fst ii);
  c ← value_get vs (snd ii);
  match iv_u gv with
  | U_gvar ig => initialize_global (init_fuel vs) vs m (ig_addr ig) (ig_type ig) c
  | _ => Fail Undef
  end.

Definition initialize_globals (vs : value_state) (m : memory)
    (iu_initializers : list (Z * Z)) : res memory :=
  foldR (initialize_one vs) m iu_initializers.

Fixpoint find_globalvar_from (values : list (option ir_value)) (name : list Z)
    : res (option ir_globalvar) :=
  match values with
  | [] => Ok None
  | v :: values =>
      iv ← oget v Undef;
      if bool_decide (iv_class iv = IR_VC_GLOBALVAR) then
        match iv_u iv with
        | U_gvar ig =>
            if bool_decide (ig_name ig = Some name) then Ok (Some ig)
            else find_globalvar_from values name
        | _ => Fail Undef
        end
      else find_globalvar_from values name
  end.

Definition find_globalvar (vs : value_state) (name : list Z) : res (option ir_globalvar) :=
  find_globalvar_from (take (vs_next vs) (vs_values vs)) name.

(** ** Writes stay inside the variable *)

(** [m'] differs from [m] only in [lo, hi). *)
Definition only_in (lo hi : Z) (m m' : memory) : Prop :=
  mem_size m' = mem_size m ∧ ∀ b, b < lo ∨ hi <= b → mem_byte m' b = mem_byte m b.

Lemma only_in_refl lo hi m : only_in lo hi m m.
Proof. done. Qed.

Lemma only_in_trans lo hi m1 m2 m3 :
  only_in lo hi m1 m2 → only_in lo hi m2 m3 → only_in lo hi m1 m3.
Proof.
  intros [H1 H2] [H3 H4]. split; [congruence|]. intros b Hb. by rewrite H4, H2.
Qed.

Lemma only_in_weaken lo hi lo' hi' m m' :
  only_in lo hi m m' → lo' <= lo → hi <= hi' → only_in lo' hi' m m'.
Proof. intros [H1 H2] ? ?. split; [done|]. intros b Hb. apply H2. lia. Qed.

Lemma only_in_wr_le n m a v m' :
  wr_le n m a v = Ok m' → only_in a (a + Z.of_nat n) m m'.
Proof. intros H. by apply wr_le_spec in H as (? & _ & ?). Qed.

Lemma only_in_wr8 m a v m' : mem_wr8 m a v = Ok m' → only_in a (a + 1) m m'.
Proof.
  intros H. apply mem_wr8_spec in H as (_ & ? & _ & Ho). split; [done|].
  intros b Hb. apply Ho. lia.
Qed.

Lemma only_in_set n m a v m' :
  mem_set m a v n = Ok m' → only_in a (a + Z.of_nat n) m m'.
Proof. intros H. by apply mem_set_spec in H as (? & _ & ?). Qed.

Lemma only_in_bytes m a bytes m' :
  mem_write_bytes m a bytes = Ok m' → only_in a (a + Z.of_nat (length bytes)) m m'.
Proof.
  revert m a; induction bytes as [|b bytes IH]; intros m a H; cbn [mem_write_bytes] in H;
    inv_res; [done|].
  eapply only_in_trans.
  - eapply only_in_weaken; [by eapply only_in_wr8|lia|simpl; lia].
  - eapply only_in_weaken; [by apply IH|lia|cbn [length]; lia].
Qed.

(** Array sizes are products that fit in an [int]. *)
Definition arrays_fit (types : list ir_type) : Prop :=
  ∀ id n et s, type_get types id = Ok (T_ARRAY n et) → type_sizeof types et = Ok s →
    0 <= n < 2 ^ 31 ∧ s * n < 2 ^ 31.

Lemma type_sizeof_fuel_S n t ty s :
  type_sizeof_fuel n t ty = Ok s → type_sizeof_fuel (S n) t ty = Ok s.
Proof.
  revert ty s; induction n as [|n IH]; intros ty s H; [done|].
  destruct ty; try exact H. cbn [type_sizeof_fuel] in H |- *. inv_res.
  rewrite Hm. rok. apply IH in Hm0. cbn [type_sizeof_fuel] in Hm0. by rewrite Hm0.
Qed.

Lemma type_sizeof_array t id n et s :
  type_get t id = Ok (T_ARRAY n et) → type_sizeof t id = Ok s →
  ∃ es, type_sizeof t et = Ok es ∧ s = u32 (es * u32 n).
Proof.
  unfold type_sizeof, type_sizeof_ptr. intros -> H. cbn [mbind res_bind] in H.
  cbn [type_sizeof_fuel] in H. inv_res. exists a0. split; [|done].
  rewrite Hm. rok. by apply type_sizeof_fuel_S.
Qed.

Section init_proof.
Context (vs : value_state) (Hgood : all_good (types_of vs))
        (Hsmall : sizes_small (types_of vs)) (Hfit : arrays_fit (types_of vs)).

Definition inits_inside (f : memory → Z → Z → ir_value → res memory) : Prop :=
  ∀ m addr ty c m' size, type_sizeof (types_of vs) ty = Ok size →
    f m addr ty c = Ok m' → only_in addr (addr + size) m m'.

Lemma init_array_inside f ety es m addr l r :
  inits_inside f → type_sizeof (types_of vs) ety = Ok es →
  foldR (init_array_step vs f ety) (m, addr) l = Ok r →
  only_in addr (addr + es * Z.of_nat (length l)) m (fst r).
Proof.
  intros Hf Hes. pose proof (type_sizeof_nonneg _ _ _ Hes).
  revert m addr; induction l as [|v l IH]; intros m addr H0; simpl in H0; [by inv_res|].
  destruct (init_element _ _ _ _ _ _) as [m1|] eqn:H1; [|done].
  rewrite Hes in H0. cbn [mbind res_bind] in H0. unfold init_element in H1. inv_res.
  cbn [length]. eapply only_in_trans.
  - eapply only_in_weaken; [by eapply Hf|lia|nia].
  - eapply only_in_weaken; [by apply IH|lia|nia].
Qed.

Lemma init_struct_inside f addr size l m m' :
  inits_inside f →
  (∀ ety off v, ((ety, off), v) ∈ l → ∃ o sz, off = Some o ∧
     type_sizeof (types_of vs) ety = Ok sz ∧ 0 <= o ∧ o + sz <= size) →
  foldR (init_struct_step vs f addr) m l = Ok m' → only_in addr (addr + size) m m'.
Proof.
  intros Hf. revert m; induction l as [|[[ety off] v] l IH]; intros m Hl H; simpl in H;
    [by inv_res|].
  destruct (Hl ety off v) as (o & sz & -> & Hsz & H0 & Hle); [apply list_elem_of_here|].
  unfold init_element in H. inv_res. simplify_eq. eapply only_in_trans.
  - eapply only_in_weaken; [by eapply (Hf _ _ _ _ _ sz)|lia|lia].
  - apply IH; [|done]. intros. eapply Hl. by apply list_elem_of_further.
Qed.

Lemma initialize_global_body_inside f m addr ty c m' size :
  inits_inside f → type_sizeof (types_of vs) ty = Ok size →
  initialize_global_body vs f m addr ty c = Ok m' → only_in addr (addr + size) m m'.
Proof.
  intros Hf Hsz H. unfold initialize_global_body in H. inv_res.
  assert (∀ n, type_sizeof_ptr (types_of vs) a = Ok n → size = n) as Hn.
  { intros n Hp. unfold type_sizeof in Hsz. rewrite Hm in Hsz. cbn [mbind res_bind] in Hsz.
    congruence. }
  pose proof (type_sizeof_nonneg _ _ _ Hsz) as Hnn. pose proof (Hsmall _ _ Hsz).
  destruct a; inv_res;
    try (rewrite (Hn 1 eq_refl); by eapply only_in_wr8);
    try (rewrite (Hn 2 eq_refl); by eapply (only_in_wr_le 2));
    try (rewrite (Hn 4 eq_refl); by eapply (only_in_wr_le 4));
    try (rewrite (Hn 8 eq_refl); by eapply (only_in_wr_le 8));
    try done.
  - rewrite Hsz in Hm0. injection Hm0 as <-. rewrite sgn_small in H by lia.
    destruct (iv_class c); try done; inv_res.
    + destruct (iv_data c) as [| |values] eqn:Hd; try done. inv_res.
      apply bool_decide_eq_true in Hm2.
      eapply init_struct_inside; [done| |done]. intros ety off v Hin.
      apply list_elem_of_lookup in Hin as [j Hj].
      apply lookup_zip_Some in Hj as [Hj _].
      apply type_get_lookup in Hm.
      destruct (Hgood _ _ Hm) as (sz' & al & Hl & _ & Hnni & _ & Hel).
      { intros Hnone. apply type_get_lookup in Hm. unfold type_sizeof in Hsz.
        rewrite Hm in Hsz. cbn in Hsz. by rewrite Hnone in Hsz. }
      destruct (Hel _ _ _ Hj) as (o & sz & a' & -> & Hos & _ & Ho & Hoz & _).
      exists o, sz. split_and!; auto.
      assert (size = u32 sz') as ->.
      { apply Hn. unfold type_sizeof_ptr. cbn [type_sizeof_fuel]. by rewrite Hl. }
      unfold nonneg_int, INT32_MAX in *. rewrite wrap_small by lia. done.
    + replace size with (Z.of_nat (Z.to_nat size)) by lia. by eapply only_in_set.
  - rewrite Hsz in Hm0. injection Hm0 as <-. rewrite sgn_small in H by lia.
    destruct (type_sizeof_array _ _ _ _ _ Hm Hsz) as (es & Hes & Heq).
    destruct (Hfit _ _ _ _ Hm Hes) as [Hn0 Hprod].
    pose proof (type_sizeof_nonneg _ _ _ Hes).
    destruct (iv_class c); try done; inv_res.
    + destruct (iv_data c) as [|bytes|]; try done. inv_res.
      apply andb_prop in Hm0 as [Hb1 Hb2].
      eapply only_in_weaken; [by eapply only_in_bytes|lia|].
      rewrite length_take. lia.
    + destruct (iv_data c) as [| |values]; try done. inv_res. repeat match goal with p : (memory * Z)%type |- _ => destruct p end. inv_res.
      change m' with (fst (m', z)).
      eapply only_in_weaken; [by eapply (init_array_inside f _ es)|lia|].
      rewrite length_take, (wrap_small 32 num_elements), wrap_small by nia. nia.
    + replace size with (Z.of_nat (Z.to_nat size)) by lia. by eapply only_in_set.
  - destruct (iv_class c); inv_res; try done;
      rewrite (Hn 4 eq_refl); by eapply (only_in_wr_le 4).
Qed.

Lemma initialize_global_inside fuel : inits_inside (initialize_global fuel vs).
Proof.
  induction fuel as [|fuel IH]; intros m addr ty c m' size Hsz H; [done|].
  by eapply initialize_global_body_inside.
Qed.
End init_proof.

(** C33: initialising a global variable writes only inside it: every byte
    outside [addr, addr + size) is unchanged. *)
Theorem initialize_global_bounds fuel vs m addr ty c m' size :
  all_good (types_of vs) → sizes_small (types_of vs) → arrays_fit (types_of vs) →
  type_sizeof (types_of vs) ty = Ok size →
  initialize_global fuel vs m addr ty c = Ok m' →
  mem_size m' = mem_size m ∧
  ∀ b, b < addr ∨ addr + size <= b → mem_byte m' b = mem_byte m b.
Proof. intros Hg Hs Hf Hsz H. by eapply (initialize_global_inside vs Hg Hs Hf fuel). Qed.

(** [struct { i8; i32 } x[2]] at 4096, initialised from an aggregate of
    aggregates. *)
Definition example_gtypes : list ir_type :=
  [T_INT8; T_INT32;
   T_STRUCT (mk_struct None [(0, Some 0); (1, Some 4)] false (Some (8, 4)));
   T_ARRAY 2 2].

Definition example_consts : value_state :=
  mk_vs
    [Some (mk_value IR_VC_CONSTANT 0 (U_word 7) D_none 0);
     Some (mk_value IR_VC_CONSTANT 1 (U_word 258) D_none 0);
     Some (mk_value IR_VC_AGGREGATE 2 (U_word 2) (D_values [(0, 0); (1, 1)]) 0);
     Some (mk_value IR_VC_ZERO_INITIALIZER 2 (U_word 0) D_none 0);
     Some (mk_value IR_VC_AGGREGATE 3 (U_word 2) (D_values [(2, 2); (3, 2)]) 0)]
    5 (mk_types example_gtypes true None).

Definition example_global : ir_value :=
  mk_value IR_VC_AGGREGATE 3 (U_word 2) (D_values [(2, 2); (3, 2)]) 0.

Lemma example_gtypes_ok :
  all_good example_gtypes ∧ sizes_small example_gtypes ∧ arrays_fit example_gtypes.
Proof.
  split_and!.
  - intros i s Hi _. destruct i as [|[|[|[|i]]]]; simplify_eq/=.
    exists 8, 4. split_and!; [done|by exists 2|unfold nonneg_int, INT32_MAX; lia| |].
    + intros _. by exists 2.
    + intros j et o Hj. destruct j as [|[|j]]; simplify_eq/=.
      * exists 0, 1, 1. split_and!; try lia; try reflexivity.
        { intros _. split; [by exists 0|by exists 4]. }
        intros k ek ok Hk Hek. destruct k as [|[|k]]; simplify_eq/=; lia.
      * exists 4, 4, 4. split_and!; try lia; try reflexivity. { intros _. split; by exists 1. }
        intros k ek ok Hk Hek. destruct k as [|[|k]]; simplify_eq/=; lia.
  - intros id s H. unfold type_sizeof in H. inv_res. apply type_get_lookup in Hm.
    revert Hm H. generalize (Z.to_nat (u32 id)). intros i Hi H.
    do 4 (destruct i as [|i]; [injection Hi as <-; vm_compute in H; injection H as <-;
      reflexivity|]). discriminate.
  - intros id n et s H Hs. apply type_get_lookup in H. revert H.
    generalize (Z.to_nat (u32 id)). intros i Hi.
    destruct i as [|[|[|[|i]]]]; simplify_eq/=.
    vm_compute in Hs. injection Hs as <-. lia.
Qed.

Definition example_init : memory :=
  match initialize_global 5 example_consts (mk_mem 8192 ∅) 4096 3 example_global with
  | Ok m => m | Fail _ => mk_mem 8192 ∅ end.

Lemma initialize_global_bounds_witness :
  initialize_global 5 example_consts (mk_mem 8192 ∅) 4096 3 example_global
    = Ok example_init ∧
  rd_le 8 example_init 4096 = Ok (7 + 258 * 2 ^ 32) ∧
  mem_size example_init = 8192 ∧
  ∀ b, b < 4096 ∨ 4096 + 16 <= b → mem_byte example_init b = mem_byte (mk_mem 8192 ∅) b.
Proof.
  assert (initialize_global 5 example_consts (mk_mem 8192 ∅) 4096 3 example_global
    = Ok example_init) as H by (vm_compute; reflexivity).
  split; [exact H|]. split; [vm_compute; reflexivity|].
  destruct example_gtypes_ok as (H1 & H2 & H3).
  exact (initialize_global_bounds 5 example_consts (mk_mem 8192 ∅) 4096 3 example_global
           example_init 16 H1 H2 H3 eq_refl H).
Defined.
