(* ===== verification/Heap.v ===== *)
(** The first-fit heap of [src/src/vmir_libc.c] (the allocator that is built
    without TLSF) and the library calls on top of it. The headers, which the
    C code keeps in the memory of the unit and links with a TAILQ, are a list
    of blocks in address order; everything else in memory is a [memory].
    Sizes are those of an LP64 host. *)
From S2P Require Import Prelude Support Mem.
Local Open Scope Z_scope.

Definition HEAP_MAGIC_FREE : Z := 0xf4eef4ee.
Definition HEAP_MAGIC_ALLOC : Z := 0xa110ced.

Definition sizeof_heap_block : Z := 24.
Definition sizeof_heap : Z := 16.

(** [heap_block_t]; [hb_addr] is where the header lies. *)
Record heap_block := mk_hb {
  hb_addr : Z;
  hb_magic : Z;
  hb_size : Z;
}.

(** The part of the unit the heap uses. *)
Record heap_state := mk_heap {
  iu_mem : memory;
  h_blocks : list heap_block;
}.

Definition is_free (hb : heap_block) : bool := u32 (hb_magic hb) =? HEAP_MAGIC_FREE.
Definition is_alloc (hb : heap_block) : bool := u32 (hb_magic hb) =? HEAP_MAGIC_ALLOC.

Definition vmir_heap_init (memsize heap_start : Z) : list heap_block :=
  let size := s32 (u32 (memsize - heap_start)) in
  [mk_hb (heap_start + sizeof_heap) (s32 HEAP_MAGIC_FREE) (s32 (size - sizeof_heap))].

(** The TAILQ_FOREACH loop of [vmir_heap_malloc]: the pointer returned and
    the list afterwards. *)
Fixpoint heap_scan (size : Z) (blocks : list heap_block)
    : res (option (Z * list heap_block)) :=
  match blocks with
  | [] => Ok None
  | hb :: rest =>
      if is_free hb && (size <=? hb_size hb) then
        remain ← int_arith (hb_size hb - size);
        if u64 remain <? sizeof_heap_block * 2 then
          Ok (Some (hb_addr hb + sizeof_heap_block,
                    mk_hb (hb_addr hb) HEAP_MAGIC_ALLOC (hb_size hb) :: rest))
        else
          Ok (Some (hb_addr hb + sizeof_heap_block,
                    mk_hb (hb_addr hb) HEAP_MAGIC_ALLOC size
                      :: mk_hb (hb_addr hb + size) (s32 HEAP_MAGIC_FREE) remain
                      :: rest))
      else
        r ← heap_scan size rest;
        Ok (match r with Some (p, rest') => Some (p, hb :: rest') | None => None end)
  end.

(** The size of the block for a request: header added, rounded up to 16. *)
Definition block_size (size : Z) : res Z :=
  let size := s32 (size + sizeof_heap_block) in
  _ ← int_arith (size + 16);
  Ok (VMIR_ALIGN size 16).

Definition vmir_heap_malloc (blocks : list heap_block) (size : Z)
    : res (option (Z * list heap_block)) :=
  size ← block_size size; heap_scan size blocks.

(** The header in front of [ptr]; without one there, C reads other bytes. *)
Fixpoint find_block (blocks : list heap_block) (addr : Z) : option nat :=
  match blocks with
  | [] => None
  | hb :: rest => if hb_addr hb =? addr then Some O else S <$> find_block rest addr
  end.

(** [i] is the position of [hb] in the list. *)
Definition vmir_heap_merge_next (blocks : list heap_block) (i : nat)
    : res (list heap_block) :=
  match blocks !! i, blocks !! S i with
  | Some hb, Some next =>
      if negb (is_free next) then Ok blocks
      else
        _ ← check (hb_addr hb <? hb_addr next) AssertFail;
        size ← int_arith (hb_size hb + hb_size next);
        Ok (take i blocks ++ mk_hb (hb_addr hb) (hb_magic hb) size
              :: drop (S (S i)) blocks)
  | _, _ => Ok blocks
  end.

Definition vmir_heap_free (blocks : list heap_block) (ptr : option Z)
    : res (list heap_block) :=
  match ptr with
  | None => Ok blocks
  | Some p =>
      i ← oget (find_block blocks (p - sizeof_heap_block)) Undef;
      hb ← oget (blocks !! i) Undef;
      _ ← check (is_alloc hb) AssertFail;
      let blocks := <[i := mk_hb (hb_addr hb) (s32 HEAP_MAGIC_FREE) (hb_size hb)]> blocks in
      blocks ← vmir_heap_merge_next blocks i;
      match i with
      | O => Ok blocks
      | S j =>
          prev ← oget (blocks !! j) Undef;
          _ ← check (hb_addr prev <? hb_addr hb) AssertFail;
          vmir_heap_merge_next blocks j
      end
  end.

(** For NULL the header would lie in front of address 0. *)
Definition vmir_heap_usable_size (blocks : list heap_block) (ptr : option Z) : res Z :=
  p ← oget ptr Undef;
  i ← oget (find_block blocks (p - sizeof_heap_block)) Undef;
  hb ← oget (blocks !! i) Undef;
  _ ← check (is_alloc hb) AssertFail;
  Ok (s32 (hb_size hb - sizeof_heap_block)).

Definition vmir_heap_realloc (h : heap_state) (ptr : option Z) (size : Z)
    : res (option Z * heap_state) :=
  if negb (size =? 0) then
    cursize ← vmir_heap_usable_size (h_blocks h) ptr;
    if size <? cursize then Ok (ptr, h)
    else
      r ← vmir_heap_malloc (h_blocks h) size;
      match r with
      | None => Ok (None, h)
      | Some (n, blocks) =>
          m ← match ptr with
              | Some p => mem_copy (iu_mem h) n p (Z.to_nat cursize)
              | None => Ok (iu_mem h)
              end;
          blocks ← vmir_heap_free blocks ptr;
          Ok (Some n, mk_heap m blocks)
      end
  else
    blocks ← vmir_heap_free (h_blocks h) ptr;
    Ok (None, mk_heap (iu_mem h) blocks).

(** ** The library calls

    Arguments are 32-bit registers; the result is the 32-bit return value
    ([vmir_vm_retptr]). *)

Definition retptr (p : option Z) : Z := u32 (default 0 p).

Definition vmir_malloc (h : heap_state) (size : Z) : res (Z * heap_state) :=
  r ← vmir_heap_malloc (h_blocks h) (s32 size);
  Ok (match r with
      | Some (p, blocks) => (retptr (Some p), mk_heap (iu_mem h) blocks)
      | None => (0, h)
      end).

Definition vmir_calloc (h : heap_state) (nmemb size : Z) : res (Z * heap_state) :=
  let n := u32 (size * nmemb) in
  r ← vmir_heap_malloc (h_blocks h) (s32 n);
  match r with
  | Some (p, blocks) =>
      m ← mem_set (iu_mem h) p 0 (Z.to_nat n);
      Ok (retptr (Some p), mk_heap m blocks)
  | None => Ok (0, h)
  end.

Definition vmir_free (h : heap_state) (ptr : Z) : res heap_state :=
  if ptr =? 0 then Ok h
  else blocks ← vmir_heap_free (h_blocks h) (Some ptr); Ok (mk_heap (iu_mem h) blocks).

Definition vmir_realloc (h : heap_state) (ptr size : Z) : res (Z * heap_state) :=
  '(p, h) ← vmir_heap_realloc h (if ptr =? 0 then None else Some ptr) (s32 size);
  Ok (retptr p, h).

(** ** The invariant of the heap

    The blocks tile [lo, hi), each is free or allocated, and no two free
    blocks are neighbours. *)

Fixpoint heap_wf (lo hi : Z) (free_before : bool) (blocks : list heap_block) : Prop :=
  match blocks with
  | [] => lo = hi
  | hb :: rest =>
      hb_addr hb = lo ∧ sizeof_heap_block <= hb_size hb ∧
      (is_free hb || is_alloc hb = true) ∧
      free_before && is_free hb = false ∧
      heap_wf (lo + hb_size hb) hi (is_free hb) rest
  end.

(** The allocations: address handed out and usable size. *)
Definition allocs (blocks : list heap_block) : list (Z * Z) :=
  map (λ hb, (hb_addr hb + sizeof_heap_block, hb_size hb - sizeof_heap_block))
      (filter (λ hb, is_alloc hb = true) blocks).

Definition heap_ok (lo hi : Z) (blocks : list heap_block) : Prop :=
  heap_wf lo hi false blocks ∧ 0 <= lo ∧ hi <= INT32_MAX.

Fixpoint last_free (f : bool) (blocks : list heap_block) : bool :=
  match blocks with [] => f | hb :: rest => last_free (is_free hb) rest end.

Lemma heap_wf_app lo hi f pre post :
  heap_wf lo hi f (pre ++ post) ↔
  ∃ mid, heap_wf lo mid f pre ∧ heap_wf mid hi (last_free f pre) post.
Proof.
  revert lo f; induction pre as [|hb pre IH]; intros lo f; simpl.
  - split; [eauto|]. by intros (? & -> & ?).
  - rewrite IH. naive_solver.
Qed.

Lemma heap_wf_le lo hi f blocks : heap_wf lo hi f blocks → lo <= hi.
Proof.
  revert lo f; induction blocks as [|hb blocks IH]; simpl; intros lo f H; [lia|].
  destruct H as (? & ? & ? & ? & H). apply IH in H. unfold sizeof_heap_block in *. lia.
Qed.

Lemma heap_wf_weaken lo hi f blocks :
  heap_wf lo hi f blocks → heap_wf lo hi false blocks.
Proof. destruct blocks; naive_solver. Qed.

Lemma is_free_not_alloc hb : is_free hb = true → is_alloc hb = false.
Proof.
  unfold is_free, is_alloc. rewrite Z.eqb_eq, Z.eqb_neq. intros ->. done.
Qed.

Lemma is_alloc_not_free hb : is_alloc hb = true → is_free hb = false.
Proof.
  unfold is_free, is_alloc. rewrite Z.eqb_eq, Z.eqb_neq. intros ->. done.
Qed.

Lemma mk_free_is_free a n : is_free (mk_hb a (s32 HEAP_MAGIC_FREE) n) = true.
Proof. reflexivity. Qed.
Lemma mk_alloc_is_alloc a n : is_alloc (mk_hb a HEAP_MAGIC_ALLOC n) = true.
Proof. reflexivity. Qed.

Lemma allocs_app a b : allocs (a ++ b) = allocs a ++ allocs b.
Proof. unfold allocs. by rewrite list.filter_app, map_app. Qed.

Lemma allocs_cons hb b :
  allocs (hb :: b) =
  (if is_alloc hb then [(hb_addr hb + sizeof_heap_block, hb_size hb - sizeof_heap_block)]
   else []) ++ allocs b.
Proof.
  unfold allocs. rewrite list.filter_cons. by destruct (is_alloc hb).
Qed.

Lemma allocs_free hb b : is_free hb = true → allocs (hb :: b) = allocs b.
Proof. intros H. by rewrite allocs_cons, (is_free_not_alloc _ H). Qed.

#[export] Hint Resolve mk_free_is_free mk_alloc_is_alloc is_free_not_alloc
  is_alloc_not_free heap_wf_weaken : vmir.

(** ** Allocation *)

(** What a block becomes when [size] bytes of it are handed out. *)
Definition carve (size : Z) (hb : heap_block) : list heap_block :=
  if hb_size hb - size <? sizeof_heap_block * 2
  then [mk_hb (hb_addr hb) HEAP_MAGIC_ALLOC (hb_size hb)]
  else [mk_hb (hb_addr hb) HEAP_MAGIC_ALLOC size;
        mk_hb (hb_addr hb + size) (s32 HEAP_MAGIC_FREE) (hb_size hb - size)].

Lemma heap_scan_spec lo hi f blocks size :
  heap_wf lo hi f blocks → 0 <= lo → hi <= INT32_MAX → 0 <= size →
  (heap_scan size blocks = Ok None ∧
   ∀ hb, hb ∈ blocks → is_free hb = true → hb_size hb < size) ∨
  ∃ pre hb post, blocks = pre ++ hb :: post ∧ is_free hb = true ∧
    size <= hb_size hb ∧
    (∀ b, b ∈ pre → is_free b = true → hb_size b < size) ∧
    heap_scan size blocks =
      Ok (Some (hb_addr hb + sizeof_heap_block, pre ++ carve size hb ++ post)).
Proof.
  revert lo f; induction blocks as [|hb blocks IH]; intros lo f Hwf Hlo Hhi Hsz.
  - left. split; [done|]. by intros hb ?%not_elem_of_nil.
  - simpl in Hwf. destruct Hwf as (Ha & Hs & Hk & _ & Hwf).
    pose proof (heap_wf_le _ _ _ _ Hwf) as Hle. cbn [heap_scan].
    unfold sizeof_heap_block in Hs.
    destruct (is_free hb) eqn:Hf; [destruct (Z.leb_spec size (hb_size hb)) as [Hz|Hz]|].
    + right. exists [], hb, blocks. split_and!; auto; [by intros b ?%not_elem_of_nil|].
      unfold INT32_MAX in *. rewrite int_arith_ok by (unfold INT32_MIN, INT32_MAX; lia). rok.
      rewrite wrap_small by lia. unfold carve. by destruct (_ <? _).
    + destruct (IH _ _ Hwf ltac:(lia) Hhi Hsz) as [[-> Hn]|(pre&b&post&->&Hb&Hsb&Hpre&->)].
      * left. split; [done|]. intros b [->|Hb]%elem_of_cons; auto.
      * right. exists (hb :: pre), b, post. split_and!; auto.
        intros b' [->|Hb']%elem_of_cons; auto.
    + destruct (IH _ _ Hwf ltac:(lia) Hhi Hsz) as [[-> Hn]|(pre&b&post&->&Hb&Hsb&Hpre&->)].
      * left. split; [done|]. intros b [->|Hb]%elem_of_cons; auto; congruence.
      * right. exists (hb :: pre), b, post. split_and!; auto.
        intros b' [->|Hb']%elem_of_cons; auto; congruence.
Qed.

Lemma block_size_spec size :
  0 <= size <= INT32_MAX - 40 →
  ∃ n, block_size size = Ok n ∧ size + 24 <= n < size + 40 ∧ (16 | n).
Proof.
  intros H. unfold block_size, sizeof_heap_block, INT32_MAX in *.
  rewrite sgn_small by lia. rewrite int_arith_ok by (unfold INT32_MIN, INT32_MAX; lia).
  rok. pose proof (VMIR_ALIGN_bounds (size + 24) 4 ltac:(lia)) as [Hb Hd].
  change (2 ^ 4) with 16 in *. eexists. split_and!; [done|lia|lia|done].
Qed.

(** Carving keeps the tiling. *)
Lemma carve_wf lo hi f size hb post :
  heap_wf lo hi f (hb :: post) → is_free hb = true → sizeof_heap_block <= size →
  heap_wf lo hi f (carve size hb ++ post).
Proof.
  intros (Ha & Hs & Hk & Hfb & Hwf) Hf Hz. rewrite Hf, andb_true_r in Hfb. subst f.
  rewrite Hf in Hwf. unfold carve, sizeof_heap_block in *. subst lo.
  destruct (Z.ltb_spec (hb_size hb - size) (24 * 2)); simpl;
    unfold sizeof_heap_block; split_and!; auto; try lia.
  - eauto with vmir.
  - by replace (hb_addr hb + size + (hb_size hb - size)) with (hb_addr hb + hb_size hb)
      by lia.
Qed.

Lemma allocs_carve size hb :
  ∃ n, allocs (carve size hb) = [(hb_addr hb + sizeof_heap_block, n)] ∧
       size - sizeof_heap_block <= n ∨ hb_size hb < size.
Proof.
  unfold carve. destruct (Z.ltb_spec (hb_size hb) size); [exists 0; by right|].
  destruct (_ <? _); eexists; left; (split; [reflexivity|simpl; lia]).
Qed.

(** Every allocation lies inside the heap. *)
Lemma allocs_bounds lo hi f blocks p n :
  heap_wf lo hi f blocks → (p, n) ∈ allocs blocks →
  lo + sizeof_heap_block <= p ∧ p + n <= hi ∧ 0 <= n.
Proof.
  revert lo f; induction blocks as [|hb blocks IH]; intros lo f Hwf Hin.
  - by apply not_elem_of_nil in Hin.
  - simpl in Hwf. destruct Hwf as (Ha & Hs & _ & _ & Hwf).
    pose proof (heap_wf_le _ _ _ _ Hwf). unfold sizeof_heap_block in *.
    rewrite allocs_cons in Hin. apply elem_of_app in Hin as [Hin|Hin].
    + destruct (is_alloc hb); [|by apply not_elem_of_nil in Hin].
      apply list_elem_of_singleton in Hin. simplify_eq. unfold sizeof_heap_block. lia.
    + specialize (IH _ _ Hwf Hin). lia.
Qed.

Lemma heap_malloc_spec lo hi blocks size :
  heap_ok lo hi blocks → 0 <= size <= INT32_MAX - 40 →
  (vmir_heap_malloc blocks size = Ok None ∧
   ∀ hb, hb ∈ blocks → is_free hb = true → hb_size hb < size + 40) ∨
  ∃ p n blocks' before after,
    vmir_heap_malloc blocks size = Ok (Some (p, blocks')) ∧
    heap_ok lo hi blocks' ∧ size <= n ∧ lo < p ∧ p + n <= hi ∧
    allocs blocks = before ++ after ∧
    allocs blocks' = before ++ (p, n) :: after ∧
    ∀ q k, (q, k) ∈ before ++ after → q + k <= p ∨ p + n <= q.
Proof.
  intros (Hwf & Hlo & Hhi) Hsz. unfold vmir_heap_malloc.
  destruct (block_size_spec _ Hsz) as (bs & -> & Hbs & _). rok.
  destruct (heap_scan_spec _ _ _ _ bs Hwf Hlo Hhi ltac:(lia))
    as [[-> Hn]|(pre & hb & post & -> & Hf & Hfit & _ & ->)].
  { left. split; [done|]. intros b Hb Hbf. specialize (Hn b Hb Hbf). lia. }
  right. destruct (allocs_carve bs hb) as (n & [[Hal Hln]|?]); [|lia].
  apply heap_wf_app in Hwf as (mid & Hw1 & Hw2).
  pose proof (carve_wf _ _ _ bs _ _ Hw2 Hf ltac:(unfold sizeof_heap_block; lia)) as Hw3.
  unfold sizeof_heap_block in *.
  assert (mid = hb_addr hb) as -> by (by destruct Hw2).
  exists (hb_addr hb + 24), n, (pre ++ carve bs hb ++ post), (allocs pre), (allocs post).
  pose proof (heap_wf_le _ _ _ _ Hw1).
  apply heap_wf_app in Hw3 as Hw4. destruct Hw4 as (mid & Hc & Hp).
  assert (hb_addr hb + 24 + n <= mid) as Hmid.
  { destruct (allocs_bounds _ _ _ _ (hb_addr hb + 24) n Hc) as (? & ? & ?); [|done].
    rewrite Hal. apply list_elem_of_here. }
  pose proof (heap_wf_le _ _ _ _ Hp).
  split_and!; auto; try lia.
  - split; [|by split]. apply heap_wf_app. eauto.
  - by rewrite allocs_app, allocs_free.
  - by rewrite !allocs_app, Hal.
  - intros q k [Hq|Hq]%elem_of_app.
    + destruct (allocs_bounds _ _ _ _ _ _ Hw1 Hq) as (? & ? & ?). lia.
    + destruct (allocs_bounds _ _ _ _ _ _ Hp Hq) as (? & ? & ?).
      unfold sizeof_heap_block in *. lia.
Qed.


(** A heap of 208 bytes with one allocation. *)
Definition example_heap : list heap_block :=
  [mk_hb 4112 HEAP_MAGIC_ALLOC 48; mk_hb 4160 (s32 HEAP_MAGIC_FREE) 32;
   mk_hb 4192 HEAP_MAGIC_ALLOC 32; mk_hb 4224 (s32 HEAP_MAGIC_FREE) 96].

Lemma example_heap_ok : heap_ok 4112 4320 example_heap.
Proof.
  unfold heap_ok, INT32_MAX. simpl. unfold sizeof_heap_block.
  split_and!; (done || lia).
Qed.


(** ** Release *)

Lemma find_block_app pre hb post :
  (∀ b, b ∈ pre → hb_addr b ≠ hb_addr hb) →
  find_block (pre ++ hb :: post) (hb_addr hb) = Some (length pre).
Proof.
  induction pre as [|b pre IH]; simpl; intros H.
  - by rewrite Z.eqb_refl.
  - destruct (Z.eqb_spec (hb_addr b) (hb_addr hb)) as [He|He].
    + exfalso. eapply H; [|exact He]. set_solver.
    + rewrite IH; [done|]. intros b' Hb'. apply H. set_solver.
Qed.

Lemma heap_wf_addr lo hi f blocks hb :
  heap_wf lo hi f blocks → hb ∈ blocks →
  lo <= hb_addr hb ∧ hb_addr hb + hb_size hb <= hi ∧ 24 <= hb_size hb.
Proof.
  revert lo f; induction blocks as [|b blocks IH]; intros lo f Hwf Hin.
  - by apply not_elem_of_nil in Hin.
  - simpl in Hwf. destruct Hwf as (Ha & Hs & _ & _ & Hwf).
    pose proof (heap_wf_le _ _ _ _ Hwf). unfold sizeof_heap_block in *.
    apply elem_of_cons in Hin as [->|Hin]; [lia|].
    specialize (IH _ _ Hwf Hin). lia.
Qed.

(** The block of an allocation. *)
Lemma allocs_inv blocks p n :
  (p, n) ∈ allocs blocks → ∃ pre hb post, blocks = pre ++ hb :: post ∧
    is_alloc hb = true ∧ p = hb_addr hb + sizeof_heap_block ∧
    n = hb_size hb - sizeof_heap_block.
Proof.
  unfold allocs. intros H. apply list_elem_of_fmap in H as (hb & [= -> ->] & H).
  apply list_elem_of_filter in H as [Ha H].
  apply list_elem_of_split in H as (pre & post & ->). eauto 10.
Qed.

(** The blocks tile [lo, hi): what is left of the invariant while a block is
    being released. *)
Fixpoint tiles (lo hi : Z) (blocks : list heap_block) : Prop :=
  match blocks with
  | [] => lo = hi
  | hb :: rest => hb_addr hb = lo ∧ sizeof_heap_block <= hb_size hb ∧
                  tiles (lo + hb_size hb) hi rest
  end.

Lemma heap_wf_tiles lo hi f blocks : heap_wf lo hi f blocks → tiles lo hi blocks.
Proof.
  revert lo f; induction blocks as [|hb blocks IH]; simpl; [done|]. naive_solver.
Qed.

Lemma tiles_app lo hi pre post :
  tiles lo hi (pre ++ post) ↔ ∃ mid, tiles lo mid pre ∧ tiles mid hi post.
Proof.
  revert lo; induction pre as [|hb pre IH]; intros lo; simpl.
  - split; [eauto|]. by intros (? & -> & ?).
  - rewrite IH. naive_solver.
Qed.

Lemma tiles_le lo hi blocks : tiles lo hi blocks → lo <= hi.
Proof.
  revert lo; induction blocks as [|hb blocks IH]; simpl; intros lo H; [lia|].
  destruct H as (? & ? & H). apply IH in H. unfold sizeof_heap_block in *. lia.
Qed.

(** [hb] and what is behind it once a free right neighbour is merged. *)
Definition merge_right (hb : heap_block) (post : list heap_block) : list heap_block :=
  match post with
  | next :: rest =>
      if is_free next
      then mk_hb (hb_addr hb) (hb_magic hb) (hb_size hb + hb_size next) :: rest
      else hb :: post
  | [] => [hb]
  end.

Lemma merge_next_spec lo hi pre hb post :
  tiles lo hi (pre ++ hb :: post) → 0 <= lo → hi <= INT32_MAX →
  vmir_heap_merge_next (pre ++ hb :: post) (length pre) = Ok (pre ++ merge_right hb post) ∧
  tiles lo hi (pre ++ merge_right hb post).
Proof.
  intros Ht Hlo Hhi. unfold vmir_heap_merge_next.
  rewrite list_lookup_middle by done.
  rewrite lookup_app_r by lia. replace (S (length pre) - length pre)%nat with 1%nat by lia.
  simpl. destruct post as [|next rest]; [done|]. simpl.
  destruct (is_free next) eqn:Hf; [|done]. simpl.
  apply tiles_app in Ht as (mid & Hw1 & Ha & Hs & Hna & Hns & Hrest).
  pose proof (tiles_le _ _ _ Hw1). pose proof (tiles_le _ _ _ Hrest).
  unfold sizeof_heap_block, INT32_MAX in *.
  assert (hb_addr hb <? hb_addr next = true) as -> by lia. rok.
  rewrite int_arith_ok by (unfold INT32_MIN, INT32_MAX; lia). rok. split.
  - f_equal. rewrite take_app_length. f_equal. f_equal.
    rewrite drop_app_ge by lia.
    by replace (S (S (length pre)) - length pre)%nat with 2%nat by lia.
  - apply tiles_app. exists mid. split; [done|]. simpl. unfold sizeof_heap_block.
    split_and!; [done|lia|]. by rewrite Z.add_assoc.
Qed.

Definition set_free (hb : heap_block) : heap_block :=
  mk_hb (hb_addr hb) (s32 HEAP_MAGIC_FREE) (hb_size hb).

(** The heap after the release of the allocated block [hb]. *)
Definition released (pre : list heap_block) (hb : heap_block) (post : list heap_block)
    : list heap_block :=
  match list.last pre with
  | Some prev => removelast pre ++ merge_right prev (merge_right (set_free hb) post)
  | None => merge_right (set_free hb) post
  end.

Lemma removelast_last pre (prev : heap_block) : removelast (pre ++ [prev]) = pre.
Proof. rewrite removelast_app by done. apply app_nil_r. Qed.

Lemma vmir_heap_free_spec lo hi pre hb post :
  heap_ok lo hi (pre ++ hb :: post) → is_alloc hb = true →
  vmir_heap_free (pre ++ hb :: post) (Some (hb_addr hb + sizeof_heap_block)) =
    Ok (released pre hb post).
Proof.
  intros (Hwf & Hlo & Hhi) Ha. unfold vmir_heap_free.
  replace (hb_addr hb + sizeof_heap_block - sizeof_heap_block) with (hb_addr hb) by lia.
  pose proof (heap_wf_tiles _ _ _ _ Hwf) as Ht.
  apply heap_wf_app in Hwf as (mid & Hw1 & Hw2).
  assert (mid = hb_addr hb) as -> by (by destruct Hw2).
  rewrite find_block_app; last first.
  { intros b Hb He. destruct (heap_wf_addr _ _ _ _ _ Hw1 Hb). lia. }
  rok. rewrite list_lookup_middle by done. rok. rewrite Ha. rok.
  fold (set_free hb). rewrite insert_app_r_alt, Nat.sub_diag by lia. simpl.
  assert (tiles lo hi (pre ++ set_free hb :: post)) as Ht'.
  { apply tiles_app in Ht as (mid & H1 & H2). apply tiles_app. exists mid. done. }
  destruct (merge_next_spec _ _ _ _ _ Ht' Hlo Hhi) as [-> Ht2]. rok.
  unfold released.
  destruct pre as [|prev pre _] using rev_ind; [done|].
  rewrite last_snoc, removelast_last, length_app, Nat.add_comm. simpl.
  rewrite <-app_assoc. cbn [app]. rewrite list_lookup_middle by done. rok.
  assert (hb_addr prev < hb_addr hb) as Hlt.
  { destruct (heap_wf_addr _ _ _ _ prev Hw1) as (? & ? & ?); [|lia].
    apply elem_of_app. right. apply list_elem_of_here. }
  assert (hb_addr prev <? hb_addr hb = true) as -> by lia. rok.
  rewrite <-app_assoc in Ht2. simpl in Ht2.
  by destruct (merge_next_spec _ _ _ _ _ Ht2 Hlo Hhi) as [-> _].
Qed.

(** Merging the released block with its right neighbour. *)
Lemma merge_right_set_free lo hi f hb post :
  heap_wf lo hi f (hb :: post) → is_alloc hb = true →
  ∃ n rest, merge_right (set_free hb) post = mk_hb (hb_addr hb) (s32 HEAP_MAGIC_FREE) n :: rest ∧
    heap_wf lo hi false (mk_hb (hb_addr hb) (s32 HEAP_MAGIC_FREE) n :: rest) ∧
    allocs rest = allocs post ∧ rest `sublist_of` post.
Proof.
  intros (Ha & Hs & _ & _ & Hwf) Hal. unfold merge_right, sizeof_heap_block in *.
  rewrite (is_alloc_not_free _ Hal) in Hwf.
  destruct post as [|next post].
  - exists (hb_size hb), []. simpl in *. unfold sizeof_heap_block. by split_and!.
  - destruct Hwf as (Hna & Hns & Hnk & _ & Hwf).
    destruct (is_free next) eqn:Hf.
    + exists (hb_size hb + hb_size next), post. unfold sizeof_heap_block in *.
      simpl. unfold sizeof_heap_block.
      split_and!; auto; [lia|by rewrite Z.add_assoc|by rewrite allocs_free|by constructor].
    + exists (hb_size hb), (next :: post). simpl. unfold sizeof_heap_block in *.
      rewrite Hf. split_and!; auto.
Qed.

Lemma released_wf lo hi pre hb post :
  heap_wf lo hi false (pre ++ hb :: post) → is_alloc hb = true →
  heap_wf lo hi false (released pre hb post) ∧
  ∃ before', allocs (released pre hb post) = before' ++ allocs post ∧
    Forall2 (λ a b, fst a = fst b ∧ snd a <= snd b) (allocs pre) before'.
Proof.
  intros Hwf Hal. apply heap_wf_app in Hwf as (mid & Hw1 & Hw2).
  destruct (merge_right_set_free _ _ _ _ _ Hw2 Hal) as (n & rest & Hm & Hw3 & Hrest & _).
  unfold released. rewrite Hm.
  destruct pre as [|prev pre _] using rev_ind.
  { simpl in Hw1. subst. split; [done|]. exists []. simpl. split; [|done].
    by rewrite allocs_free. }
  rewrite last_snoc, removelast_last. simpl.
  apply heap_wf_app in Hw1 as (lo1 & Hp & Hprev).
  destruct Hprev as (Hpa & Hps & Hpk & Hpf & Hh). simpl in Hh. subst mid.
  destruct Hw3 as (_ & Hn & _ & _ & Hw3). simpl in Hn, Hw3.
  unfold sizeof_heap_block in *. split.
  - apply heap_wf_app. exists lo1. split; [done|]. simpl. unfold sizeof_heap_block.
    split_and!; auto; [lia|]. rewrite Z.add_assoc.
    destruct rest as [|next rest]; [done|]. simpl in *.
    destruct Hw3 as (? & ? & ? & Hnf & ?). change (is_free (mk_hb _ _ _)) with true in Hnf.
    simpl in Hnf. rewrite Hnf, andb_false_r in *. split_and!; auto.
  - rewrite allocs_app, allocs_cons, Hrest, app_assoc. eexists. split; [reflexivity|].
    rewrite allocs_app, allocs_cons.
    change (is_alloc (mk_hb (hb_addr prev) (hb_magic prev) _)) with (is_alloc prev).
    apply Forall2_app; [by apply Forall_Forall2_diag, Forall_true; intros []|].
    rewrite app_nil_r. destruct (is_alloc prev); repeat constructor. simpl. lia.
Qed.

Lemma heap_free_spec lo hi blocks p n :
  heap_ok lo hi blocks → (p, n) ∈ allocs blocks →
  ∃ blocks' before before' after,
    vmir_heap_free blocks (Some p) = Ok blocks' ∧ heap_ok lo hi blocks' ∧
    allocs blocks = before ++ (p, n) :: after ∧
    allocs blocks' = before' ++ after ∧
    Forall2 (λ a b, fst a = fst b ∧ snd a <= snd b) before before'.
Proof.
  intros Hok Hin. destruct (allocs_inv _ _ _ Hin) as (pre & hb & post & -> & Hal & -> & ->).
  destruct Hok as (Hwf & Hlo & Hhi).
  destruct (released_wf _ _ _ _ _ Hwf Hal) as (Hwf' & before' & He & Hf).
  exists (released pre hb post), (allocs pre), before', (allocs post).
  rewrite (vmir_heap_free_spec lo hi) by done.
  rewrite allocs_app, allocs_cons, Hal. by split_and!.
Qed.

(** C24: releasing an allocation of a well-formed heap succeeds, leaves the
    heap well formed and the other allocations where they are, none of them
    smaller. *)
Theorem vmir_heap_free_correct lo hi blocks p n :
  heap_ok lo hi blocks → (p, n) ∈ allocs blocks →
  ∃ blocks' before before' after,
    vmir_heap_free blocks (Some p) = Ok blocks' ∧ heap_ok lo hi blocks' ∧
    allocs blocks = before ++ (p, n) :: after ∧
    allocs blocks' = before' ++ after ∧
    Forall2 (λ a b, fst a = fst b ∧ snd a <= snd b) before before'.
Proof. apply heap_free_spec. Qed.

Lemma vmir_heap_free_correct_witness :
  heap_ok 4112 4320 example_heap ∧ (4216, 8) ∈ allocs example_heap ∧
  ∃ blocks' before before' after,
    vmir_heap_free example_heap (Some 4216) = Ok blocks' ∧ heap_ok 4112 4320 blocks' ∧
    allocs example_heap = before ++ (4216, 8) :: after ∧
    allocs blocks' = before' ++ after ∧
    Forall2 (λ a b, fst a = fst b ∧ snd a <= snd b) before before'.
Proof.
  assert ((4216, 8) ∈ allocs example_heap) as Hin.
  { change (allocs example_heap) with [(4136, 24); (4216, 8)].
    apply list_elem_of_further, list_elem_of_here. }
  split; [exact example_heap_ok|]. split; [exact Hin|].
  exact (vmir_heap_free_correct _ _ _ _ _ example_heap_ok Hin).
Defined.

Definition free_blocks (blocks : list heap_block) : list heap_block :=
  filter (λ hb, is_free hb = true) blocks.

(** C28: releasing a block whose left neighbour is allocated makes no memory
    available: every free block afterwards was a free block before, because
    [vmir_heap_free] merges the released block, and a free block behind it,
    into the left neighbour without looking whether that one is free. *)
Theorem vmir_heap_free_absorbed lo hi pre prev hb post :
  heap_ok lo hi (pre ++ prev :: hb :: post) →
  is_alloc prev = true → is_alloc hb = true →
  ∃ blocks',
    vmir_heap_free (pre ++ prev :: hb :: post) (Some (hb_addr hb + sizeof_heap_block))
      = Ok blocks' ∧
    free_blocks blocks' `sublist_of` free_blocks (pre ++ prev :: hb :: post).
Proof.
  intros Hok Hp Ha. exists (released (pre ++ [prev]) hb post).
  assert (pre ++ prev :: hb :: post = (pre ++ [prev]) ++ hb :: post) as Heq
    by (by rewrite <-app_assoc).
  rewrite Heq in *. split; [by eapply vmir_heap_free_spec|].
  destruct Hok as (Hwf & _). apply heap_wf_app in Hwf as (mid & _ & Hw2).
  destruct (merge_right_set_free _ _ _ _ _ Hw2 Ha) as (n & rest & Hm & _ & _ & Hsub).
  unfold released. rewrite Hm, last_snoc, removelast_last. simpl.
  unfold free_blocks. rewrite <-app_assoc, !list.filter_app. simpl.
  apply sublist_app; [done|].
  rewrite !list.filter_cons_False by
    (rewrite ?is_alloc_not_free by assumption; done).
  clear -Hsub. induction Hsub; [done| |].
  - rewrite !list.filter_cons. destruct (decide _); [by constructor|done].
  - rewrite list.filter_cons. destruct (decide _); [by constructor|done].
Qed.

(** Two allocations take a heap of 160 bytes; after releasing the second one
    nothing can be allocated. *)
Lemma vmir_heap_free_absorbed_witness :
  let a := mk_hb 4112 HEAP_MAGIC_ALLOC 64 in
  let b := mk_hb 4176 HEAP_MAGIC_ALLOC 48 in
  let c := mk_hb 4224 (s32 HEAP_MAGIC_FREE) 48 in
  (∃ blocks', vmir_heap_free [a; b; c] (Some 4200) = Ok blocks' ∧
    free_blocks blocks' `sublist_of` free_blocks [a; b; c]) ∧
  vmir_heap_free [a; b; c] (Some 4200) = Ok [mk_hb 4112 HEAP_MAGIC_ALLOC 160] ∧
  vmir_heap_malloc [mk_hb 4112 HEAP_MAGIC_ALLOC 160] 8 = Ok None.
Proof.
  split; [|split; reflexivity].
  apply (vmir_heap_free_absorbed 4112 4272 [] (mk_hb 4112 HEAP_MAGIC_ALLOC 64)
    (mk_hb 4176 HEAP_MAGIC_ALLOC 48) [mk_hb 4224 (s32 HEAP_MAGIC_FREE) 48]);
    [|reflexivity|reflexivity].
  unfold heap_ok, INT32_MAX; simpl; unfold sizeof_heap_block.
  split_and!; (done || lia).
Defined.

(** ** Requests beyond the range of [int] *)

(** C29: a request of 4 GB less [k] bytes, for small [k], is served like a
    request of 8 bytes: the size is converted to a negative [int], to which the
    header is added. *)
Theorem vmir_malloc_huge h k :
  1 <= k <= 7 → vmir_malloc h (2 ^ 32 - k) = vmir_malloc h 8.
Proof.
  intros Hk. unfold vmir_malloc, vmir_heap_malloc.
  assert (s32 (2 ^ 32 - k) = - k) as ->.
  { unfold sgn. rewrite wrap_small by lia.
    destruct (Z.ltb_spec (2 ^ 32 - k) (2 ^ (32 - 1))); lia. }
  assert (block_size (- k) = block_size (s32 8)) as ->; [|done].
  assert (k = 1 ∨ k = 2 ∨ k = 3 ∨ k = 4 ∨ k = 5 ∨ k = 6 ∨ k = 7) as Hc by lia.
  repeat (destruct Hc as [->|Hc]; [reflexivity|]). by subst.
Qed.

Lemma vmir_malloc_huge_witness :
  vmir_malloc (mk_heap (mk_mem 65536 ∅) example_heap) (2 ^ 32 - 1) =
    vmir_malloc (mk_heap (mk_mem 65536 ∅) example_heap) 8 ∧
  fst <$> vmir_malloc (mk_heap (mk_mem 65536 ∅) example_heap) 8 = Ok 4184.
Proof.
  split; [apply (vmir_malloc_huge _ 1); lia|vm_compute; reflexivity].
Defined.

(** [realloc] of NULL with a size other than 0, which C defines as
    [malloc], reads a block header in front of address 0. *)
Theorem vmir_realloc_null h size :
  s32 size ≠ 0 → vmir_realloc h 0 size = Fail Undef.
Proof.
  intros Hs. unfold vmir_realloc, vmir_heap_realloc. simpl.
  by destruct (Z.eqb_spec (s32 size) 0).
Qed.

Lemma vmir_realloc_null_witness :
  vmir_realloc (mk_heap (mk_mem 65536 ∅) example_heap) 0 16 = Fail Undef.
Proof. apply vmir_realloc_null. discriminate. Defined.

Lemma vmir_heap_usable_size_spec lo hi blocks p n :
  heap_ok lo hi blocks → (p, n) ∈ allocs blocks →
  vmir_heap_usable_size blocks (Some p) = Ok n.
Proof.
  intros (Hwf & Hlo & Hhi) Hin.
  destruct (allocs_inv _ _ _ Hin) as (pre & hb & post & -> & Hal & -> & ->).
  unfold vmir_heap_usable_size. rok.
  replace (hb_addr hb + sizeof_heap_block - sizeof_heap_block) with (hb_addr hb) by lia.
  pose proof (heap_wf_addr _ _ _ _ hb Hwf) as Hb.
  apply heap_wf_app in Hwf as (mid & Hw1 & Hw2).
  assert (mid = hb_addr hb) as -> by (by destruct Hw2).
  rewrite find_block_app; last first.
  { intros b Hb1 He. destruct (heap_wf_addr _ _ _ _ _ Hw1 Hb1). lia. }
  rok. rewrite list_lookup_middle by done. rok. rewrite Hal. rok.
  unfold sizeof_heap_block, INT32_MAX in *. rewrite sgn_small; [done|lia|].
  destruct Hb as (? & ? & ?); [set_solver|]. lia.
Qed.

(** C23: [vmir_realloc] of an allocation to a positive size: a smaller size
    keeps the block; otherwise the result is NULL with the heap unchanged, or
    a block at least as large as asked, that starts with the bytes of the old
    one, in a well-formed heap. *)
Theorem vmir_realloc_correct lo hi h p n size r h' :
  heap_ok lo hi (h_blocks h) → mem_ok (iu_mem h) →
  (p, n) ∈ allocs (h_blocks h) → 0 < size <= INT32_MAX - 40 →
  vmir_realloc h p size = Ok (r, h') →
  (size < n ∧ r = p ∧ h' = h) ∨ (r = 0 ∧ h' = h) ∨
  (n <= size ∧ heap_ok lo hi (h_blocks h') ∧
   (∀ i, 0 <= i < n → mem_byte (iu_mem h') (r + i) = mem_byte (iu_mem h) (p + i)) ∧
   ∃ k, size <= k ∧ (r, k) ∈ allocs (h_blocks h')).
Proof.
  intros Hok Hm Hin Hsz H. pose proof Hok as (Hwf & Hlo & Hhi).
  destruct (allocs_bounds _ _ _ _ _ _ Hwf Hin) as (Hp & Hpn & Hn).
  unfold sizeof_heap_block, INT32_MAX in *.
  unfold vmir_realloc, vmir_heap_realloc in H.
  rewrite sgn_small in H by lia.
  destruct (Z.eqb_spec p 0); [lia|]. destruct (Z.eqb_spec size 0); [lia|].
  cbn [negb] in H. rewrite (vmir_heap_usable_size_spec lo hi _ p n Hok Hin) in H.
  cbn [mbind res_bind] in H.
  destruct (Z.ltb_spec size n).
  { cbn [mbind res_bind] in H. inv_res. left. unfold retptr; simpl.
    rewrite wrap_small by lia. split_and!; [lia|done|done]. }
  right.
  destruct (heap_malloc_spec lo hi _ size Hok ltac:(unfold INT32_MAX; lia))
    as [[Hf _]|(q & k & blocks & be & af & Hmal & Hok2 & Hk & Hq & Hqk & He & He2 & Hd)].
  { rewrite Hf in H. cbn [mbind res_bind] in H. inv_res. by left. }
  rewrite Hmal in H. right. cbn [mbind res_bind] in H. inv_res.
  assert (q + k <= p ∨ p + n <= q) as Hdis.
  { destruct (Hd p n); [by rewrite <-He|by right|by left]. }
  assert ((p, n) ∈ allocs blocks) as Hin2.
  { rewrite He2. rewrite He in Hin. set_solver. }
  destruct (heap_free_spec lo hi blocks p n Hok2 Hin2)
    as (b3 & be3 & be3' & af3 & Hfr & Hok3 & He3 & He3' & Hf3).
  rewrite Hfr in Hm2. injection Hm2 as <-. inv_res. simpl.
  assert (retptr (Some q) = q) as -> by (unfold retptr; simpl; apply wrap_small; lia).
  split_and!; [lia|done| |].
  - intros i Hi. apply (mem_copy_spec (Z.to_nat n)) in Hm1 as (_ & Hc & _);
      [|lia|done]. apply Hc. lia.
  - assert ((q, k) ∈ be3 ++ (p, n) :: af3) as Hq3 by (rewrite <-He3, He2; set_solver).
    apply elem_of_app in Hq3 as [Hq3|[Hq3|Hq3]%elem_of_cons].
    + apply list_elem_of_lookup in Hq3 as [j Hj].
      destruct (Forall2_lookup_l _ _ _ _ _ Hf3 Hj) as ([q' k'] & Hj' & Hq' & Hk').
      simpl in *. subst q'. exists k'. split; [lia|]. rewrite He3'.
      apply elem_of_app. left. by eapply list_elem_of_lookup_2.
    + simplify_eq. lia.
    + exists k. split; [lia|]. rewrite He3'. set_solver.
Qed.

Definition example_mem : memory := mk_mem 65536 (<[4216 := 7]> (<[4223 := 9]> ∅)).

Definition example_realloc : heap_state :=
  match vmir_realloc (mk_heap example_mem example_heap) 4216 16 with
  | Ok (_, h) => h
  | Fail _ => mk_heap example_mem []
  end.

Lemma example_mem_ok : mem_ok example_mem.
Proof.
  intros a. unfold mem_byte, example_mem; simpl.
  destruct (decide (a = 4216)) as [->|]; [by rewrite lookup_insert_eq|].
  rewrite lookup_insert_ne by done.
  destruct (decide (a = 4223)) as [->|]; [by rewrite lookup_insert_eq|].
  by rewrite lookup_insert_ne, lookup_empty.
Qed.

Lemma vmir_realloc_correct_witness :
  vmir_realloc (mk_heap example_mem example_heap) 4216 16 = Ok (4248, example_realloc) ∧
  ((16 < 8 ∧ 4248 = 4216 ∧ example_realloc = mk_heap example_mem example_heap) ∨
   (4248 = 0 ∧ example_realloc = mk_heap example_mem example_heap) ∨
   (8 <= 16 ∧ heap_ok 4112 4320 (h_blocks example_realloc) ∧
    (∀ i, 0 <= i < 8 →
       mem_byte (iu_mem example_realloc) (4248 + i) = mem_byte example_mem (4216 + i)) ∧
    ∃ k, 16 <= k ∧ (4248, k) ∈ allocs (h_blocks example_realloc))).
Proof.
  assert (vmir_realloc (mk_heap example_mem example_heap) 4216 16 =
            Ok (4248, example_realloc)) as H by (vm_compute; reflexivity).
  split; [exact H|].
  apply (vmir_realloc_correct 4112 4320 (mk_heap example_mem example_heap) 4216 8 16);
    [exact example_heap_ok|exact example_mem_ok| |unfold INT32_MAX; lia|exact H].
  change (allocs (h_blocks (mk_heap example_mem example_heap)))
    with [(4136, 24); (4216, 8)].
  apply list_elem_of_further, list_elem_of_here.
Defined.

(** The heap starts well formed, with everything after its header free. *)
Lemma vmir_heap_init_ok memsize start :
  0 <= start → start + sizeof_heap + sizeof_heap_block <= memsize → memsize <= INT32_MAX →
  heap_ok (start + sizeof_heap) memsize (vmir_heap_init memsize start) ∧
  allocs (vmir_heap_init memsize start) = [].
Proof.
  unfold sizeof_heap, sizeof_heap_block, INT32_MAX. intros H1 H2 H3.
  unfold vmir_heap_init, heap_ok, sizeof_heap, INT32_MAX.
  rewrite (wrap_small 32) by lia. rewrite (sgn_small 32 (memsize - start)) by lia.
  rewrite (sgn_small 32 (memsize - start - 16)) by lia.
  cbn [heap_wf hb_addr hb_size]. unfold sizeof_heap_block. split_and!; (done || lia).
Qed.
