(* ===== verification/Libc.v ===== *)
(** Library functions of [src/src/vmir_libc.c] with state of their own:
    character classes, the file descriptor table, the modes of [fopen],
    [strtok] and the C++ exception support. The file system behind the
    descriptors ([vmir_fsops_t]) is a parameter. *)
From S2P Require Import Prelude Support Mem Heap.
Local Open Scope Z_scope.

(** ** Character classes *)

Definition vmir_toupper (c : Z) : Z :=
  if (97 <=? c) && (c <=? 122) then u32 (c - 32) else c.
Definition vmir_tolower (c : Z) : Z :=
  if (65 <=? c) && (c <=? 90) then u32 (c + 32) else c.
Definition vmir_isprint (c : Z) : Z :=
  let c := Z.land c 0x7f in bool_to_Z ((32 <=? c) && (c <? 127)).
Definition vmir_isdigit (c : Z) : Z := bool_to_Z ((48 <=? c) && (c <=? 57)).

(** ** File descriptors *)

Definition VMIR_FD_TYPE_FILEHANDLE : Z := 1.

Definition VMIR_FS_OPEN_READ : Z := 0x1.
Definition VMIR_FS_OPEN_WRITE : Z := 0x2.
Definition VMIR_FS_OPEN_RW : Z := 0x3.
Definition VMIR_FS_OPEN_CREATE : Z := 0x4.
Definition VMIR_FS_OPEN_TRUNC : Z := 0x8.
Definition VMIR_FS_OPEN_APPEND : Z := 0x10.

(** [vmir_fsops_t] over a host state [H]: [fs_open] gives a handle or an
    error. *)
Record fsops (H : Type) := mk_fsops {
  fs_open : H → list Z → Z → option Z * H;
  fs_close : H → Z → H;
  fs_read : H → Z → Z → Z * H;
  fs_write : H → Z → list Z → Z * H;
  fs_seek : H → Z → Z → Z → Z * H;
}.
Arguments fs_open {H} _.
Arguments fs_close {H} _.
Arguments fs_read {H} _.
Arguments fs_write {H} _.
Arguments fs_seek {H} _.

(** [vmir_fd_t]. The union of [fh] and [freelist] is the 64-bit word
    [vfd_word]; [vfd_release] says whether [vmir_fd_release_fh] is set. *)
Record vmir_fd := mk_vfd {
  vfd_word : Z;
  vfd_release : bool;
  vfd_type : Z;
}.

Definition fd_fh (v : vmir_fd) : Z := s64 (vfd_word v).
Definition fd_freelist (v : vmir_fd) : Z := s32 (vfd_word v).
Definition set_fh (v : vmir_fd) (fh : Z) : vmir_fd :=
  mk_vfd (u64 fh) (vfd_release v) (vfd_type v).
Definition set_freelist (v : vmir_fd) (f : Z) : vmir_fd :=
  mk_vfd (Z.shiftl (Z.shiftr (vfd_word v) 32) 32 + u32 f) (vfd_release v) (vfd_type v).
Definition set_release (v : vmir_fd) (r : bool) : vmir_fd :=
  mk_vfd (vfd_word v) r (vfd_type v).
Definition set_fdtype (v : vmir_fd) (t : Z) : vmir_fd :=
  mk_vfd (vfd_word v) (vfd_release v) t.

Section fds.
Context {H : Type} (ops : fsops H).

Record fd_state := mk_fds {
  iu_vfds : list vmir_fd;
  iu_vfd_free : Z;
  iu_host : H;
}.

Definition fd_init (h : H) : fd_state := mk_fds [] (-1) h.

Definition upd_vfds (s : fd_state) (l : list vmir_fd) : fd_state :=
  mk_fds l (iu_vfd_free s) (iu_host s).

Definition vfd_create (s : fd_state) (type : Z) : res (Z * fd_state) :=
  let fd := iu_vfd_free s in
  if negb (fd =? -1) then
    v ← oget (iu_vfds s !! Z.to_nat fd) Undef;
    Ok (fd, mk_fds (<[Z.to_nat fd := set_fdtype v (u8 type)]> (iu_vfds s))
                   (fd_freelist v) (iu_host s))
  else
    let fd := Z.of_nat (length (iu_vfds s)) in
    Ok (fd, upd_vfds s (iu_vfds s ++ [mk_vfd 0 false (u8 type)])).

(** The descriptor is converted to [unsigned int]; -1 matches every type. *)
Definition vfd_get (s : fd_state) (fd type : Z) : option vmir_fd :=
  v ← iu_vfds s !! Z.to_nat (u32 fd);
  if (vfd_type v =? 0) || (negb (type =? -1) && negb (vfd_type v =? type))
  then None else Some v.

Definition vmir_fd_get (s : fd_state) (fd type : Z) : Z :=
  match vfd_get s fd type with None => 0 | Some v => fd_fh v end.

Definition vmir_fd_create (s : fd_state) (handle type : Z) (relfunc : bool)
    : res (Z * fd_state) :=
  '(fd, s) ← vfd_create s type;
  v ← oget (iu_vfds s !! Z.to_nat fd) Undef;
  Ok (fd, upd_vfds s
            (<[Z.to_nat fd := set_release (set_fh v handle) relfunc]> (iu_vfds s))).

Definition vmir_fd_create_fh (s : fd_state) (handle : Z) (closable : bool)
    : res (Z * fd_state) :=
  vmir_fd_create s handle VMIR_FD_TYPE_FILEHANDLE closable.

Definition vfd_open (s : fd_state) (path : list Z) (flags : Z)
    : res (Z * fd_state) :=
  let '(r, h) := fs_open ops (iu_host s) path flags in
  let s := mk_fds (iu_vfds s) (iu_vfd_free s) h in
  match r with
  | None => Ok (-1, s)
  | Some fh => vmir_fd_create_fh s fh true
  end.

Definition vmir_fd_close (s : fd_state) (fd : Z) : fd_state :=
  match vfd_get s fd (-1) with
  | None => s
  | Some v =>
      let h := if vfd_release v then fs_close ops (iu_host s) (fd_fh v)
               else iu_host s in
      mk_fds (<[Z.to_nat (u32 fd) := set_freelist (set_fdtype v 0) (iu_vfd_free s)]>
                (iu_vfds s)) fd h
  end.

Definition vfd_read (s : fd_state) (fd size : Z) : Z * fd_state :=
  match vfd_get s fd VMIR_FD_TYPE_FILEHANDLE with
  | None => (-1, s)
  | Some v => let '(n, h) := fs_read ops (iu_host s) (fd_fh v) size in
              (n, mk_fds (iu_vfds s) (iu_vfd_free s) h)
  end.

Definition vfd_write (s : fd_state) (fd : Z) (buf : list Z) : Z * fd_state :=
  match vfd_get s fd VMIR_FD_TYPE_FILEHANDLE with
  | None => (-1, s)
  | Some v => let '(n, h) := fs_write ops (iu_host s) (fd_fh v) buf in
              (n, mk_fds (iu_vfds s) (iu_vfd_free s) h)
  end.

Definition vfd_seek (s : fd_state) (fd offset whence : Z) : Z * fd_state :=
  match vfd_get s fd VMIR_FD_TYPE_FILEHANDLE with
  | None => (-1, s)
  | Some v => let '(n, h) := fs_seek ops (iu_host s) (fd_fh v) offset whence in
              (n, mk_fds (iu_vfds s) (iu_vfd_free s) h)
  end.

(** [vmir_open]: the POSIX flags of the program to the flags of the host. *)
Definition open_flags (flags : Z) : Z :=
  Z.lor (if negb (Z.land flags 64 =? 0) then VMIR_FS_OPEN_CREATE else 0)
        (if negb (Z.land flags 2 =? 0) then VMIR_FS_OPEN_RW
         else if negb (Z.land flags 1 =? 0) then VMIR_FS_OPEN_WRITE
         else VMIR_FS_OPEN_READ).

Definition vmir_open (s : fd_state) (path : list Z) (flags : Z)
    : res (Z * fd_state) :=
  '(fd, s) ← vfd_open s path (open_flags flags); Ok (u32 fd, s).

Definition vmir_close (s : fd_state) (fd : Z) : Z * fd_state :=
  (0, vmir_fd_close s (s32 fd)).
End fds.
Arguments fd_state : clear implicits.

(** ** [fopen] modes *)

Definition modetable : list (string * Z) :=
  let R := VMIR_FS_OPEN_READ in let W := VMIR_FS_OPEN_WRITE in
  let RW := VMIR_FS_OPEN_RW in let C := VMIR_FS_OPEN_CREATE in
  let T := VMIR_FS_OPEN_TRUNC in let A := VMIR_FS_OPEN_APPEND in
  let ors := foldr Z.lor 0 in
  [("r", R); ("rb", R);
   ("w", ors [W; C; T]); ("wb", ors [W; C; T]);
   ("a", ors [W; C; A]); ("ab", ors [W; C; A]);
   ("r+", RW); ("rb+", RW); ("r+b", RW);
   ("w+", ors [RW; C; T]); ("wb+", ors [RW; C; T]); ("w+b", ors [RW; C; T]);
   ("a+", ors [RW; C; A]); ("b+", ors [RW; C; A]); ("a+b", ors [RW; C; A])]%string.

(** The lookup of [vFILE_open]; 0 makes it return NULL. *)
Fixpoint mode_flags (table : list (string * Z)) (mode : string) : Z :=
  match table with
  | [] => 0
  | (m, f) :: table => if String.eqb mode m then f else mode_flags table mode
  end.

(** Two spellings of the same mode of ISO C: the table has one of them. *)
Lemma fopen_append_plus_binary :
  mode_flags modetable "a+b" = 23 ∧ mode_flags modetable "ab+" = 0 ∧
  mode_flags modetable "b+" = 23.
Proof. vm_compute. done. Qed.

(** ** The free list of descriptors *)

Fixpoint free_list (vfds : list vmir_fd) (start : Z) (l : list nat) : Prop :=
  match l with
  | [] => start = -1
  | i :: l => start = Z.of_nat i ∧ ∃ v, vfds !! i = Some v ∧ vfd_type v = 0 ∧
                free_list vfds (fd_freelist v) l
  end.

(** The free list runs through every closed descriptor exactly once. *)
Definition fd_ok {H} (s : fd_state H) : Prop :=
  ∃ l, NoDup l ∧ free_list (iu_vfds s) (iu_vfd_free s) l ∧
    (∀ i v, iu_vfds s !! i = Some v → vfd_type v = 0 → i ∈ l) ∧
    Z.of_nat (length (iu_vfds s)) < 2 ^ 31.

Lemma free_list_insert vfds start l i v :
  free_list vfds start l → i ∉ l → free_list (<[i := v]> vfds) start l.
Proof.
  revert start; induction l as [|j l IH]; intros start Hf Hi; simpl in *; [done|].
  destruct Hf as (-> & w & Hw & Ht & Hf). split; [done|]. exists w.
  rewrite list_lookup_insert_ne by set_solver. split_and!; auto. apply IH; set_solver.
Qed.

Lemma free_list_closed vfds start l i :
  free_list vfds start l → i ∈ l → ∃ v, vfds !! i = Some v ∧ vfd_type v = 0.
Proof.
  revert start; induction l as [|j l IH]; intros start Hf Hin;
    [by apply not_elem_of_nil in Hin|].
  destruct Hf as (-> & v & Hv & Ht & Hf).
  apply elem_of_cons in Hin as [->|Hin]; eauto.
Qed.

Lemma free_list_app vfds start l v :
  free_list vfds start l → free_list (vfds ++ [v]) start l.
Proof.
  revert start; induction l as [|j l IH]; intros start Hf; simpl in *; [done|].
  destruct Hf as (-> & w & Hw & Ht & Hf). split; [done|]. exists w.
  rewrite lookup_app_l by (by eapply lookup_lt_Some). auto.
Qed.

Lemma fd_freelist_set v f : - 2 ^ 31 <= f < 2 ^ 31 → fd_freelist (set_freelist v f) = f.
Proof.
  intros Hf. unfold fd_freelist, set_freelist; simpl.
  assert (wrap 32 (Z.shiftl (Z.shiftr (vfd_word v) 32) 32 + u32 f) = u32 f) as Hw.
  { rewrite Z.shiftl_mul_pow2 by lia. unfold wrap.
    rewrite Z.add_comm, Z_mod_plus_full. apply Z.mod_mod. done. }
  rewrite <-sgn_wrap, Hw, sgn_wrap by lia. apply sgn_small; lia.
Qed.

Lemma vfd_get_lookup {H} (s : fd_state H) fd v :
  vfd_get s fd (-1) = Some v ↔
  iu_vfds s !! Z.to_nat (u32 fd) = Some v ∧ vfd_type v ≠ 0.
Proof.
  unfold vfd_get. destruct (iu_vfds s !! _) as [w|]; simpl; [|naive_solver].
  rewrite orb_false_r. destruct (Z.eqb_spec (vfd_type w) 0); naive_solver.
Qed.

Lemma vfd_get_ext {H} (s s' : fd_state H) fd t :
  iu_vfds s !! Z.to_nat (u32 fd) = iu_vfds s' !! Z.to_nat (u32 fd) →
  vfd_get s fd t = vfd_get s' fd t.
Proof. unfold vfd_get. by intros ->. Qed.

(** What [vfd_create] picks, and what it leaves in the table. *)
Lemma vfd_create_spec {H} (s : fd_state H) type :
  fd_ok s → 0 < type < 256 → Z.of_nat (S (length (iu_vfds s))) < 2 ^ 31 →
  ∃ n v s', vfd_create s type = Ok (Z.of_nat n, s') ∧ fd_ok s' ∧
    iu_host s' = iu_host s ∧ iu_vfds s' !! n = Some v ∧ vfd_type v = type ∧
    (∀ w, iu_vfds s !! n = Some w → vfd_type w = 0) ∧
    (∀ j, j ≠ n → iu_vfds s' !! j = iu_vfds s !! j).
Proof.
  intros (l & Hnd & Hfl & Hall & Hlen) Ht Hl. unfold vfd_create.
  assert (u8 type = type) as -> by (apply wrap_small; lia).
  destruct l as [|i l]; simpl in Hfl.
  - rewrite Hfl. simpl.
    exists (length (iu_vfds s)), (mk_vfd 0 false type). eexists. split; [done|]. simpl.
    split_and!; [|done|by apply list_lookup_middle|done| |].
    + exists []. cbn [iu_vfds upd_vfds iu_vfd_free].
      split_and!; [exact Hnd|done| |by rewrite length_app, Nat.add_comm].
      intros j w Hj Hw. exfalso. apply lookup_app_Some in Hj as [Hj|[Hj Hj2]].
      * by apply (Hall j w) in Hw; [apply not_elem_of_nil in Hw|].
      * apply list_lookup_singleton_Some in Hj2 as [_ <-]. simpl in Hw. lia.
    + intros w Hw. by rewrite lookup_ge_None_2 in Hw by lia.
    + intros j Hj. destruct (decide (j < length (iu_vfds s))%nat).
      * by rewrite lookup_app_l.
      * rewrite !lookup_ge_None_2; [done|lia|rewrite length_app; simpl; lia].
  - destruct Hfl as (He & v & Hv & Hvt & Hfl). rewrite He.
    destruct (Z.eqb_spec (Z.of_nat i) (-1)); [lia|]. cbn [negb].
    rewrite Nat2Z.id, Hv. rok.
    inversion Hnd as [|? ? Hni Hnd']; subst.
    exists i, (set_fdtype v type). eexists. split; [done|]. simpl.
    split_and!; [|done| |done| |].
    + exists l. cbn [iu_vfds upd_vfds iu_vfd_free]; rewrite length_insert. split_and!; auto.
      * by apply free_list_insert.
      * intros j w Hj Hw. destruct (decide (i = j)) as [<-|Hij].
        -- rewrite list_lookup_insert_eq in Hj by (by eapply lookup_lt_Some).
           simplify_eq/=. lia.
        -- rewrite list_lookup_insert_ne in Hj by done.
           specialize (Hall j w Hj Hw). set_solver.
    + apply list_lookup_insert_eq. by eapply lookup_lt_Some.
    + intros w Hw. by simplify_eq.
    + intros j Hj. by rewrite list_lookup_insert_ne.
Qed.

(** Changing an open descriptor does not touch the free list. *)
Lemma fd_ok_insert {H} (s : fd_state H) n v w :
  iu_vfds s !! n = Some v → vfd_type v ≠ 0 → vfd_type w ≠ 0 →
  fd_ok s → fd_ok (upd_vfds s (<[n := w]> (iu_vfds s))).
Proof.
  intros Hn Hv Hw (l & Hnd & Hfl & Hall & Hlen). exists l. simpl. rewrite length_insert.
  assert (n ∉ l) as Hnl.
  { intros Hin. destruct (free_list_closed _ _ _ _ Hfl Hin) as (? & ? & ?). congruence. }
  split_and!; auto; [by apply free_list_insert|].
  intros i u Hi Hu. destruct (decide (n = i)) as [<-|].
  - rewrite list_lookup_insert_eq in Hi by (by eapply lookup_lt_Some). by simplify_eq.
  - rewrite list_lookup_insert_ne in Hi by done. eauto.
Qed.

(** Creating a descriptor gives one that was not open, holding the handle;
    the free list stays right and no other descriptor changes. *)
Theorem vmir_fd_create_correct {H} (s : fd_state H) handle type relfunc :
  fd_ok s → 0 < type < 256 → Z.of_nat (S (length (iu_vfds s))) < 2 ^ 31 →
  ∃ fd s', vmir_fd_create s handle type relfunc = Ok (fd, s') ∧ fd_ok s' ∧
    0 <= fd < 2 ^ 31 ∧ vfd_get s fd (-1) = None ∧
    vmir_fd_get s' fd type = s64 handle ∧
    ∀ fd' t, u32 fd' ≠ fd → vfd_get s' fd' t = vfd_get s fd' t.
Proof.
  intros Hok Ht Hlen.
  destruct (vfd_create_spec s type Hok Ht Hlen)
    as (n & v & s' & Hc & Hok' & _ & Hv & Hvt & Hold & Hrest).
  unfold vmir_fd_create. rewrite Hc. rok. rewrite Nat2Z.id, Hv. rok.
  set (w := set_release (set_fh v handle) relfunc).
  assert (fd_ok (upd_vfds s' (<[n:=w]> (iu_vfds s')))) as Hok2
    by (eapply fd_ok_insert; [done|lia|simpl; lia|done]).
  assert (Z.of_nat n < 2 ^ 31) as Hn.
  { apply lookup_lt_Some in Hv. destruct Hok' as (? & ? & ? & ? & ?). lia. }
  assert (Z.to_nat (u32 (Z.of_nat n)) = n) as Hun
    by (rewrite wrap_small by lia; apply Nat2Z.id).
  exists (Z.of_nat n). eexists. split; [done|]. split_and!; [done|lia|lia| | |].
  - destruct (vfd_get s (Z.of_nat n) (-1)) as [x|] eqn:E; [|done].
    apply vfd_get_lookup in E as [E1 E2]. rewrite Hun in E1. by apply Hold in E1.
  - unfold vmir_fd_get, vfd_get. rewrite Hun. simpl.
    rewrite list_lookup_insert_eq by (by eapply lookup_lt_Some). simpl.
    rewrite Hvt, Z.eqb_refl. destruct (Z.eqb_spec type 0); [lia|]. simpl.
    rewrite andb_false_r. unfold fd_fh, w; simpl. by rewrite sgn_wrap by lia.
  - intros fd' t Hne. apply vfd_get_ext. simpl.
    assert (Z.to_nat (u32 fd') ≠ n) as Hne2.
    { intros <-. apply Hne. rewrite Z2Nat.id; [done|].
      apply (wrap_range 32); lia. }
    rewrite list_lookup_insert_ne by done. by apply Hrest.
Qed.

(** Closing an open descriptor releases its handle when it has to be
    released, puts the descriptor on the free list and changes no other. *)
Theorem vmir_fd_close_correct {H} (ops : fsops H) (s : fd_state H) fd v :
  fd_ok s → vfd_get s fd (-1) = Some v →
  let s' := vmir_fd_close ops s fd in
  (0 <= fd < 2 ^ 31 → fd_ok s') ∧
  iu_host s' = (if vfd_release v then fs_close ops (iu_host s) (fd_fh v) else iu_host s) ∧
  (∀ t, vfd_get s' fd t = None) ∧
  ∀ fd' t, u32 fd' ≠ u32 fd → vfd_get s' fd' t = vfd_get s fd' t.
Proof.
  intros (l & Hnd & Hfl & Hall & Hlen) Hg. unfold vmir_fd_close. rewrite Hg. simpl.
  apply vfd_get_lookup in Hg as [Hv Ht].
  pose proof (lookup_lt_Some _ _ _ Hv) as Hlt. split_and!; [|done| |].
  - intros Hfd. assert (u32 fd = fd) as Hu by (apply wrap_small; lia).
    rewrite Hu in *.
    assert (- 2 ^ 31 <= iu_vfd_free s < 2 ^ 31) as Hfr.
    { destruct l as [|i l]; simpl in Hfl; [lia|].
      destruct Hfl as (-> & w & Hw & _). apply lookup_lt_Some in Hw. lia. }
    assert (Z.to_nat fd ∉ l) as Hnl.
    { intros Hin. destruct (free_list_closed _ _ _ _ Hfl Hin) as (? & ? & ?). congruence. }
    exists (Z.to_nat fd :: l). simpl. rewrite length_insert. split_and!.
    + by constructor.
    + lia.
    + eexists. split_and!; [by apply list_lookup_insert_eq|done|].
      rewrite fd_freelist_set by done. by apply free_list_insert.
    + intros j w Hj Hw. destruct (decide (Z.to_nat fd = j)) as [<-|Hne]; [set_solver|].
      rewrite list_lookup_insert_ne in Hj by done. specialize (Hall j w Hj Hw). set_solver.
    + lia.
  - intros t. unfold vfd_get. simpl. by rewrite list_lookup_insert_eq.
  - intros fd' t Hne. apply vfd_get_ext. simpl.
    rewrite list_lookup_insert_ne; [done|]. intros He. apply Hne. symmetry.
    apply Z2Nat.inj in He; [done|apply (wrap_range 32); lia..].
Qed.

(** ** [strtok_r]

    A pointer argument of the program is [iu_mem] plus its 32-bit value
    ([vmir_vm_ptr]); [base] is the host address of [iu_mem]. *)

(** The characters at [a] up to the terminating 0. *)
Fixpoint read_cstr (fuel : nat) (m : memory) (a : Z) : res (list Z) :=
  match fuel with
  | O => Fail NoFuel
  | S fuel =>
      c ← mem_rd8 m a;
      if c =? 0 then Ok [] else cs ← read_cstr fuel m (a + 1); Ok (c :: cs)
  end.

(** Skips the characters that satisfy [p]. *)
Fixpoint span (fuel : nat) (p : Z → bool) (m : memory) (a : Z) : res Z :=
  match fuel with
  | O => Fail NoFuel
  | S fuel => c ← mem_rd8 m a; if p c then span fuel p m (a + 1) else Ok a
  end.

(** More than the characters that memory can hold. *)
Definition str_fuel (m : memory) : nat := S (Z.to_nat (mem_size m)).

Definition strtok_from (m : memory) (str delim : Z)
    : res (option (Z * Z) * memory) :=
  ds ← read_cstr (str_fuel m) m delim;
  str ← span (str_fuel m) (λ c, bool_decide (c ∈ ds)) m str;
  c ← mem_rd8 m str;
  if c =? 0 then Ok (None, m)
  else
    str' ← span (str_fuel m) (λ c, negb ((c =? 0) || bool_decide (c ∈ ds))) m str;
    c ← mem_rd8 m str';
    if c =? 0 then Ok (Some (str, str'), m)
    else m ← mem_wr8 m str' 0; Ok (Some (str, str' + 1), m).

Definition vmir_strtok_r (base : Z) (m : memory) (str delim nextp : Z)
    : res (Z * memory) :=
  str ← (if base + str =? 0 then mem_rd32 m nextp else Ok str);
  '(r, m) ← strtok_from m str delim;
  match r with
  | None => Ok (0, m)
  | Some (tok, next) => m ← mem_wr32 m nextp next; Ok (tok, m)
  end.

(** The test for NULL is made on the host address: the saved position is
    never read, a NULL string is the one at address 0. *)
Lemma vmir_strtok_r_null base m str delim nextp :
  0 < base → 0 <= str →
  vmir_strtok_r base m str delim nextp = (
    '(r, m) ← strtok_from m str delim;
    match r with
    | None => Ok (0, m)
    | Some (tok, next) => m ← mem_wr32 m nextp next; Ok (tok, m)
    end).
Proof.
  intros Hb Hs. unfold vmir_strtok_r. by destruct (Z.eqb_spec (base + str) 0); [lia|].
Qed.

(** ** C++ exceptions *)

Definition sizeof_cxx_exception : Z := 12.

(** [vmir_exception_t]. *)
Record vmir_exception := mk_exc {
  x_exception : Z;
  x_type_info : Z;
  x_uncaught : Z;
  x_caught : Z;
}.

Definition vmir_cxa_guard_acquire (m : memory) (p : Z) : res (Z * memory) :=
  c ← mem_rd8 m p;
  if c =? 0 then m ← mem_wr8 m p 1; Ok (1, m) else Ok (0, m).

Definition vmir_llvm_eh_typeid_for (x : Z) : Z := x.

Definition vmir_cxa_allocate_exception (h : heap_state) (size : Z)
    : res (Z * heap_state) :=
  r ← vmir_heap_malloc (h_blocks h) (s32 (size + sizeof_cxx_exception));
  match r with
  | None => Fail Undef
  | Some (p, blocks) =>
      m ← mem_set (iu_mem h) p 0 (Z.to_nat sizeof_cxx_exception);
      Ok (u32 (p + sizeof_cxx_exception), mk_heap m blocks)
  end.

Definition vmir_cxa_free_exception (h : heap_state) (x : Z) : res heap_state :=
  let x := u32 (x - sizeof_cxx_exception) in
  blocks ← vmir_heap_free (h_blocks h) (Some x); Ok (mk_heap (iu_mem h) blocks).

Definition vmir_cxa_begin_catch (m : memory) (e : vmir_exception) (x : Z)
    : res (Z * memory * vmir_exception) :=
  let x2 := u32 (x - sizeof_cxx_exception) in
  hs ← mem_rd32 m (x2 + 4);
  let hs := s32 hs in
  '(hs, uncaught) ←
    (if hs <? 0 then n ← int_arith (- hs + 1); Ok (n, x_uncaught e)
     else n ← int_arith (hs + 1); Ok (n, u32 (x_uncaught e - 1)));
  m ← mem_wr32 m (x2 + 4) hs;
  m ← mem_wr32 m x2 (x_caught e);
  Ok (x, m, mk_exc (x_exception e) (x_type_info e) uncaught x2).

Definition vmir_cxa_end_catch (h : heap_state) (e : vmir_exception)
    : res (heap_state * vmir_exception) :=
  let exc := x_caught e in
  hs ← mem_rd32 (iu_mem h) (exc + 4);
  hs ← int_arith (s32 hs - 1);
  m ← mem_wr32 (iu_mem h) (exc + 4) hs;
  if hs =? 0 then
    next ← mem_rd32 m exc;
    blocks ← vmir_heap_free (h_blocks h) (Some exc);
    Ok (mk_heap m blocks, mk_exc (x_exception e) (x_type_info e) (x_uncaught e) next)
  else Ok (mk_heap m (h_blocks h), e).

(** Also [vmir___cxa_rethrow], which is the same code. *)
Definition vmir_cxa_throw (m : memory) (e : vmir_exception) (x type_info destructor : Z)
    : res (memory * vmir_exception) :=
  m ← mem_wr32 m (x - sizeof_cxx_exception + 8) destructor;
  _ ← check (destructor =? 0) AssertFail;
  Ok (m, mk_exc x type_info (u32 (x_uncaught e + 1)) (x_caught e)).

(** Allocate, throw, catch, end of the handler. *)
Definition throw_and_catch (h : heap_state) (e : vmir_exception) (size type_info : Z)
    : res (heap_state * vmir_exception) :=
  '(x, h) ← vmir_cxa_allocate_exception h size;
  '(m, e) ← vmir_cxa_throw (iu_mem h) e x type_info 0;
  '(_, m, e) ← vmir_cxa_begin_catch m e x;
  vmir_cxa_end_catch (mk_heap m (h_blocks h)) e.

Lemma rd_le_zeros n m a :
  0 <= a → a + Z.of_nat n <= mem_size m →
  (∀ i, 0 <= i < Z.of_nat n → mem_byte m (a + i) = 0) → rd_le n m a = Ok 0.
Proof.
  revert a; induction n as [|n IH]; intros a H1 H2 H3; [done|]. cbn [rd_le].
  assert (mem_rd8 m a = Ok 0) as ->.
  { apply mem_rd8_spec. split; [lia|]. rewrite <-(H3 0) by lia. f_equal; lia. }
  rok. rewrite IH; [done|lia|lia|].
  intros i Hi. rewrite <-(H3 (i + 1)) by lia. f_equal; lia.
Qed.

Lemma mem_set_total n m a v :
  0 <= a → a + Z.of_nat n <= mem_size m → ∃ m', mem_set m a v n = Ok m'.
Proof.
  revert m a; induction n as [|n IH]; intros m a H1 H2; cbn [mem_set]; [by eexists|].
  unfold mem_wr8, in_mem. assert ((0 <=? a) && (a <? mem_size m) = true) as -> by lia.
  rok. apply IH; simpl; lia.
Qed.

(** A 32-bit write, as used below. *)
Lemma wr32_step m a v :
  0 <= a → a + 4 <= mem_size m →
  ∃ m', mem_wr32 m a v = Ok m' ∧ mem_size m' = mem_size m ∧
        mem_rd32 m' a = Ok (u32 v) ∧
        ∀ b, b + 4 <= a ∨ a + 4 <= b → mem_rd32 m' b = mem_rd32 m b.
Proof.
  intros H1 H2. destruct (wr_le_total 4 m a v) as [m' Hm']; [lia|lia|].
  exists m'. split_and!; [done|by apply wr_le_spec in Hm' as [? _]| |].
  - apply (rd_wr_same 4 _ _ _ _ Hm').
  - intros b Hb. by apply (rd_wr_other 4 4 _ a b v m').
Qed.

(** C30: an exception that is allocated, thrown, caught and whose handler ends
    leaves the counters as they were, and its memory is released. *)
Theorem throw_and_catch_balanced lo hi h e size type_info p blocks :
  heap_ok lo hi (h_blocks h) → hi <= mem_size (iu_mem h) →
  0 <= size <= INT32_MAX - 60 → 0 <= x_uncaught e < 2 ^ 32 - 1 →
  0 <= x_caught e < 2 ^ 32 →
  vmir_heap_malloc (h_blocks h) (size + 12) = Ok (Some (p, blocks)) →
  ∃ m blocks', vmir_heap_free blocks (Some p) = Ok blocks' ∧ heap_ok lo hi blocks' ∧
    throw_and_catch h e size type_info =
      Ok (mk_heap m blocks', mk_exc (p + 12) type_info (x_uncaught e) (x_caught e)).
Proof.
  intros Hok Hhi Hsz Hu Hc Hmal.
  destruct (heap_malloc_spec lo hi _ (size + 12) Hok ltac:(unfold INT32_MAX in *; lia))
    as [[Hf _]|(q & k & b2 & be & af & Hmal2 & Hok2 & Hk & Hq & Hqk & He & He2 & Hd)];
    [congruence|].
  rewrite Hmal in Hmal2. injection Hmal2 as <- <-.
  assert (0 <= lo ∧ hi <= INT32_MAX) as [Hlo Hmax] by (destruct Hok as (? & ? & ?); done).
  unfold INT32_MAX in *.
  assert ((p, k) ∈ allocs blocks) as Hin by (rewrite He2; set_solver).
  destruct (heap_free_spec lo hi blocks p k Hok2 Hin) as (b3 & ? & ? & ? & Hfr & Hok3 & _).
  unfold throw_and_catch, vmir_cxa_allocate_exception, sizeof_cxx_exception.
  rewrite sgn_small by lia. rewrite Hmal. cbn [mbind res_bind].
  destruct (mem_set_total 12 (iu_mem h) p 0) as [m0 Hm0]; [lia|lia|].
  change (Z.to_nat 12) with 12%nat. rewrite Hm0. cbn [mbind res_bind].
  destruct (mem_set_spec _ _ _ _ _ Hm0) as (Hs0 & Hz0 & _).
  rewrite wrap_small by lia.
  unfold vmir_cxa_throw, sizeof_cxx_exception. cbn [Heap.iu_mem h_blocks].
  replace (p + 12 - 12 + 8) with (p + 8) by lia.
  destruct (wr32_step m0 (p + 8) 0) as (m1 & -> & Hs1 & _ & Ho1); [lia|lia|].
  cbn [mbind res_bind check]. change (0 =? 0) with true. cbn [check mbind res_bind].
  unfold vmir_cxa_begin_catch, sizeof_cxx_exception.
  replace (p + 12 - 12) with p by lia. rewrite (wrap_small 32 p) by lia.
  assert (mem_rd32 m1 (p + 4) = Ok 0) as ->.
  { rewrite Ho1 by lia. apply rd_le_zeros; [lia|simpl; lia|].
    intros i Hi. rewrite <-Z.add_assoc, Hz0 by lia. done. }
  cbn [mbind res_bind]. cbv zeta. change (s32 0 <? 0) with false.
  cbv iota. change (s32 0 + 1) with 1.
  rewrite int_arith_ok by done. cbn [mbind res_bind x_uncaught x_caught x_exception x_type_info].
  destruct (wr32_step m1 (p + 4) 1) as (m2 & -> & Hs2 & Hr2 & _); [lia|lia|].
  cbn [mbind res_bind].
  destruct (wr32_step m2 p (x_caught e)) as (m3 & -> & Hs3 & Hr3 & Ho3); [lia|lia|].
  cbn [mbind res_bind]. unfold vmir_cxa_end_catch. cbn [x_caught Heap.iu_mem h_blocks].
  rewrite Ho3, Hr2 by lia. cbn [mbind res_bind]. change (s32 (u32 1) - 1) with 0.
  rewrite int_arith_ok by done. cbn [mbind res_bind].
  destruct (wr32_step m3 (p + 4) 0) as (m4 & -> & Hs4 & _ & Ho4); [lia|lia|].
  cbn [mbind res_bind]. change (0 =? 0) with true. cbv iota.
  rewrite Ho4, Hr3 by lia. cbn [mbind res_bind]. rewrite Hfr. cbn [mbind res_bind].
  exists m4, b3. split_and!; [done|done|].
  cbn [x_exception x_type_info x_uncaught x_caught].
  rewrite (wrap_small 32 (x_uncaught e + 1)) by lia.
  replace (x_uncaught e + 1 - 1) with (x_uncaught e) by lia.
  rewrite !wrap_small by lia. done.
Qed.

(** ** Concrete instances *)

(** A host that counts the handles it has closed. *)
Definition example_ops : fsops Z :=
  mk_fsops Z (λ h _ _, (Some (100 + h), h)) (λ h _, h + 1) (λ h _ n, (n, h))
           (λ h _ buf, (Z.of_nat (length buf), h)) (λ h _ o _, (o, h)).

(** Descriptor 0 is closed, descriptor 1 open. *)
Definition example_fds : fd_state Z :=
  mk_fds [mk_vfd (2 ^ 32 - 1) true 0; mk_vfd 101 true 1] 0 0.

Lemma example_fds_ok : fd_ok example_fds.
Proof.
  exists [0%nat]. split_and!; [by apply NoDup_singleton| | |done].
  - split; [done|]. eexists. split_and!; [reflexivity|done|done].
  - intros [|[|i]] v Hv Ht; simplify_eq/=; try done. apply list_elem_of_here.
Qed.

Lemma vmir_fd_create_correct_witness :
  fd_ok example_fds ∧
  ∃ fd s', vmir_fd_create example_fds 55 1 true = Ok (fd, s') ∧ fd_ok s' ∧
    0 <= fd < 2 ^ 31 ∧ vfd_get example_fds fd (-1) = None ∧
    vmir_fd_get s' fd 1 = s64 55 ∧
    ∀ fd' t, u32 fd' ≠ fd → vfd_get s' fd' t = vfd_get example_fds fd' t.
Proof.
  split; [exact example_fds_ok|].
  apply (vmir_fd_create_correct example_fds 55 1 true); [exact example_fds_ok|lia|done].
Defined.

Lemma vmir_fd_close_correct_witness :
  let s' := vmir_fd_close example_ops example_fds 1 in
  iu_vfd_free s' = 1 ∧ iu_host s' = 1 ∧ fd_ok s'.
Proof.
  split; [reflexivity|]. split; [reflexivity|].
  apply (vmir_fd_close_correct example_ops example_fds 1 (mk_vfd 101 true 1));
    [exact example_fds_ok|reflexivity|lia].
Defined.

Lemma throw_and_catch_balanced_witness :
  let h := mk_heap example_mem example_heap in
  let e := mk_exc 0 0 2 0 in
  ∃ blocks m blocks', vmir_heap_malloc example_heap (20 + 12) = Ok (Some (4248, blocks)) ∧
    vmir_heap_free blocks (Some 4248) = Ok blocks' ∧ heap_ok 4112 4320 blocks' ∧
    throw_and_catch h e 20 77 = Ok (mk_heap m blocks', mk_exc 4260 77 2 0).
Proof.
  cbv zeta. eexists.
  destruct (throw_and_catch_balanced 4112 4320 (mk_heap example_mem example_heap)
    (mk_exc 0 0 2 0) 20 77 4248
    [mk_hb 4112 HEAP_MAGIC_ALLOC 48; mk_hb 4160 (s32 HEAP_MAGIC_FREE) 32;
     mk_hb 4192 HEAP_MAGIC_ALLOC 32; mk_hb 4224 HEAP_MAGIC_ALLOC 96])
    as (m & b' & H1 & H2 & H3);
    [exact example_heap_ok|simpl; lia|unfold INT32_MAX; lia|simpl; lia|simpl; lia
    |vm_compute; reflexivity|].
  exists m, b'. split; [vm_compute; reflexivity|]. split; [exact H1|].
  split; [exact H2|exact H3].
Defined.
