(* ===== verification/VmOps.v ===== *)
(** The instruction set of the virtual machine: [vm_op_t] of
    [src/src/vmir_vm.h]. The enum is built of families that follow the order
    of [BINOP_*], [ICMP_*] and [FCMP_*] ("must be in same order"); the code
    generator relies on it when it adds an operator to the first opcode of a
    family. An opcode is here a family with its operator, [vm_ops] lists the
    enum in its order and [vm_opcode] is the number the compiler gives. *)
From S2P Require Import Prelude Support Values.
Local Open Scope Z_scope.

(** ** Operators of the families *)

(** [FCMP_OEQ] (1) to [FCMP_UNE] (14) of [bitcode.h]. *)
Inductive fcmp : Type :=
  | FCMP_OEQ | FCMP_OGT | FCMP_OGE | FCMP_OLT | FCMP_OLE | FCMP_ONE | FCMP_ORD
  | FCMP_UNO | FCMP_UEQ | FCMP_UGT | FCMP_UGE | FCMP_ULT | FCMP_ULE | FCMP_UNE.

Definition fcmps : list fcmp :=
  [FCMP_OEQ; FCMP_OGT; FCMP_OGE; FCMP_OLT; FCMP_OLE; FCMP_ONE; FCMP_ORD;
   FCMP_UNO; FCMP_UEQ; FCMP_UGT; FCMP_UGE; FCMP_ULT; FCMP_ULE; FCMP_UNE].

Definition fcmp_code (p : fcmp) : Z :=
  match p with
  | FCMP_OEQ => 1 | FCMP_OGT => 2 | FCMP_OGE => 3 | FCMP_OLT => 4
  | FCMP_OLE => 5 | FCMP_ONE => 6 | FCMP_ORD => 7 | FCMP_UNO => 8
  | FCMP_UEQ => 9 | FCMP_UGT => 10 | FCMP_UGE => 11 | FCMP_ULT => 12
  | FCMP_ULE => 13 | FCMP_UNE => 14
  end.

Inductive fbin : Type := F_ADD | F_SUB | F_MUL | F_DIV.
Definition fbins : list fbin := [F_ADD; F_SUB; F_MUL; F_DIV].
Definition fbin_code (o : fbin) : Z :=
  match o with F_ADD => 0 | F_SUB => 1 | F_MUL => 2 | F_DIV => 3 end.

(** The functions of [<math.h>] that are opcodes. *)
Inductive math_fn : Type :=
  | M_FLOOR | M_SIN | M_COS | M_POW | M_FABS | M_FMOD | M_LOG | M_LOG10
  | M_ROUND | M_SQRT | M_CEIL | M_EXP.
Definition maths : list math_fn :=
  [M_FLOOR; M_SIN; M_COS; M_POW; M_FABS; M_FMOD; M_LOG; M_LOG10; M_ROUND;
   M_SQRT; M_CEIL; M_EXP].
Definition math_code (m : math_fn) : Z :=
  match m with
  | M_FLOOR => 0 | M_SIN => 1 | M_COS => 2 | M_POW => 3 | M_FABS => 4
  | M_FMOD => 5 | M_LOG => 6 | M_LOG10 => 7 | M_ROUND => 8 | M_SQRT => 9
  | M_CEIL => 10 | M_EXP => 11
  end.

(** Operand forms: width, and [_C] when the second operand is an immediate. *)
Inductive bin_kind : Type := K_R16C | K_R32 | K_R32C | K_R64 | K_R64C.
Inductive flt_kind : Type := F_DBL | F_DBL_C | F_FLT | F_FLT_C.
Inductive cmp_kind : Type :=
  | C8 | C8_C | C16 | C16_C | C32 | C32_C | C64 | C64_C.
Inductive br_kind : Type := B8 | B8_C | B32 | B32_C.
Inductive sel_kind : Type := S32 | S32_C.

(** ** [vm_op_t] *)

Inductive vm_op : Type :=
  | VM_BIN (k : bin_kind) (o : binop)
  | VM_FBIN (k : flt_kind) (o : fbin)
  | VM_CMP (k : cmp_kind) (p : icmp)
  | VM_FCMP (k : flt_kind) (p : fcmp)
  | VM_CMP_BR (k : br_kind) (p : icmp)
  | VM_CMP_SEL (k : sel_kind) (p : icmp)
  | VM_MATH (single : bool) (m : math_fn)
  | VM_JIT_CALL | VM_RET_VOID | VM_RET_R32 | VM_RET_R64 | VM_RET_R32C
  | VM_RET_R64C | VM_SDIV_R8 | VM_SREM_R8 | VM_ASHR_R8 | VM_SDIV_R8C
  | VM_SREM_R8C | VM_ASHR_R8C | VM_SDIV_R16 | VM_SREM_R16 | VM_ASHR_R16
  | VM_INC_R32 | VM_DEC_R32 | VM_MLA32 | VM_LOAD8 | VM_LOAD8_G | VM_LOAD8_OFF
  | VM_LOAD8_ZEXT_32_OFF | VM_LOAD8_SEXT_32_OFF | VM_LOAD8_ROFF
  | VM_LOAD8_ZEXT_32_ROFF | VM_LOAD8_SEXT_32_ROFF | VM_STORE8_G | VM_STORE8
  | VM_STORE8C_OFF | VM_STORE8_OFF | VM_LOAD16 | VM_LOAD16_G | VM_LOAD16_OFF
  | VM_LOAD16_ZEXT_32_OFF | VM_LOAD16_SEXT_32_OFF | VM_LOAD16_ROFF
  | VM_LOAD16_ZEXT_32_ROFF | VM_LOAD16_SEXT_32_ROFF | VM_STORE16_G
  | VM_STORE16 | VM_STORE16C_OFF | VM_STORE16_OFF | VM_LOAD32 | VM_LOAD32_G
  | VM_LOAD32_OFF | VM_LOAD32_ROFF | VM_STORE32_G | VM_STORE32C_OFF
  | VM_STORE32 | VM_STORE32_OFF | VM_LOAD64 | VM_LOAD64_G | VM_LOAD64_OFF
  | VM_LOAD64_ROFF | VM_STORE64_G | VM_STORE64C_OFF | VM_STORE64
  | VM_STORE64_OFF | VM_SELECT32RR | VM_SELECT32RC | VM_SELECT32CR
  | VM_SELECT32CC | VM_SELECT64RR | VM_SELECT64RC | VM_SELECT64CR
  | VM_SELECT64CC | VM_B | VM_BCOND | VM_JSR | VM_JSR_R | VM_JSR_VM
  | VM_JSR_EXT | VM_INVOKE | VM_INVOKE_R | VM_INVOKE_VM | VM_INVOKE_EXT
  | VM_LANDINGPAD | VM_RESUME | VM_JUMPTABLE | VM_SWITCH8_BS | VM_SWITCH32_BS
  | VM_SWITCH64_BS | VM_MOV32 | VM_MOV64 | VM_MOV8_C | VM_MOV16_C | VM_MOV32_C
  | VM_MOV64_C | VM_LEA_R32_SHL | VM_LEA_R32_SHL2 | VM_LEA_R32_SHL_OFF
  | VM_LEA_R32_MUL_OFF | VM_CAST_1_TRUNC_8 | VM_CAST_1_TRUNC_16
  | VM_CAST_8_ZEXT_1 | VM_CAST_8_SEXT_1 | VM_CAST_8_TRUNC_16
  | VM_CAST_8_TRUNC_32 | VM_CAST_8_TRUNC_64 | VM_CAST_16_ZEXT_1
  | VM_CAST_16_ZEXT_8 | VM_CAST_16_SEXT_8 | VM_CAST_16_TRUNC_32
  | VM_CAST_16_TRUNC_64 | VM_CAST_16_FPTOSI_FLT | VM_CAST_16_FPTOUI_FLT
  | VM_CAST_16_FPTOSI_DBL | VM_CAST_16_FPTOUI_DBL | VM_CAST_32_TRUNC_64
  | VM_CAST_32_SEXT_1 | VM_CAST_32_ZEXT_8 | VM_CAST_32_SEXT_8
  | VM_CAST_32_ZEXT_16 | VM_CAST_32_SEXT_16 | VM_CAST_32_FPTOSI_FLT
  | VM_CAST_32_FPTOUI_FLT | VM_CAST_32_FPTOSI_DBL | VM_CAST_32_FPTOUI_DBL
  | VM_CAST_64_ZEXT_1 | VM_CAST_64_SEXT_1 | VM_CAST_64_ZEXT_8
  | VM_CAST_64_SEXT_8 | VM_CAST_64_ZEXT_16 | VM_CAST_64_SEXT_16
  | VM_CAST_64_ZEXT_32 | VM_CAST_64_SEXT_32 | VM_CAST_64_FPTOSI_FLT
  | VM_CAST_64_FPTOUI_FLT | VM_CAST_64_FPTOSI_DBL | VM_CAST_64_FPTOUI_DBL
  | VM_CAST_FLT_FPTRUNC_DBL | VM_CAST_FLT_SITOFP_8 | VM_CAST_FLT_UITOFP_8
  | VM_CAST_FLT_SITOFP_16 | VM_CAST_FLT_UITOFP_16 | VM_CAST_FLT_SITOFP_32
  | VM_CAST_FLT_UITOFP_32 | VM_CAST_FLT_SITOFP_64 | VM_CAST_FLT_UITOFP_64
  | VM_CAST_DBL_FPEXT_FLT | VM_CAST_DBL_SITOFP_8 | VM_CAST_DBL_UITOFP_8
  | VM_CAST_DBL_SITOFP_16 | VM_CAST_DBL_UITOFP_16 | VM_CAST_DBL_SITOFP_32
  | VM_CAST_DBL_UITOFP_32 | VM_CAST_DBL_SITOFP_64 | VM_CAST_DBL_UITOFP_64
  | VM_ABS | VM_ALLOCA | VM_ALLOCAD | VM_UNREACHABLE | VM_STACKSHRINK
  | VM_STACKCOPYR | VM_STACKCOPYC | VM_STACKSAVE | VM_STACKRESTORE
  | VM_VASTART | VM_VAARG32 | VM_VAARG64 | VM_VACOPY | VM_STRCMP
  | VM_STRCASECMP | VM_STRLEN | VM_STRDUP | VM_STRCHR | VM_STRRCHR
  | VM_STRNCMP | VM_STRCPY | VM_STRNCPY | VM_STRCAT | VM_STRNCAT | VM_MEMMOVE
  | VM_MEMCMP | VM_MEMCPY | VM_MEMSET | VM_LLVM_MEMCPY | VM_LLVM_MEMSET
  | VM_LLVM_MEMSET64 | VM_CTZ32 | VM_CLZ32 | VM_POP32 | VM_CTZ64 | VM_CLZ64
  | VM_POP64 | VM_UADDO32 | VM_UMULO32 | VM_NOP | VM_INSTRUMENT_COUNT.

(** The enum: arithmetic, loads and stores; comparisons; compare and branch
    or select; everything else. *)
Definition vm_ops_arith : list vm_op :=
  [VM_JIT_CALL; VM_RET_VOID; VM_RET_R32; VM_RET_R64; VM_RET_R32C;
   VM_RET_R64C; VM_SDIV_R8; VM_SREM_R8; VM_ASHR_R8; VM_SDIV_R8C; VM_SREM_R8C;
   VM_ASHR_R8C; VM_SDIV_R16; VM_SREM_R16; VM_ASHR_R16] ++
  map (VM_BIN K_R16C) binops ++
  map (VM_BIN K_R32) binops ++
  [VM_INC_R32; VM_DEC_R32] ++
  map (VM_BIN K_R32C) binops ++
  map (VM_BIN K_R64) binops ++
  map (VM_BIN K_R64C) binops ++
  map (VM_FBIN F_DBL) fbins ++
  map (VM_FBIN F_DBL_C) fbins ++
  map (VM_FBIN F_FLT) fbins ++
  map (VM_FBIN F_FLT_C) fbins ++
  [VM_MLA32; VM_LOAD8; VM_LOAD8_G; VM_LOAD8_OFF; VM_LOAD8_ZEXT_32_OFF;
   VM_LOAD8_SEXT_32_OFF; VM_LOAD8_ROFF; VM_LOAD8_ZEXT_32_ROFF;
   VM_LOAD8_SEXT_32_ROFF; VM_STORE8_G; VM_STORE8; VM_STORE8C_OFF;
   VM_STORE8_OFF; VM_LOAD16; VM_LOAD16_G; VM_LOAD16_OFF;
   VM_LOAD16_ZEXT_32_OFF; VM_LOAD16_SEXT_32_OFF; VM_LOAD16_ROFF;
   VM_LOAD16_ZEXT_32_ROFF; VM_LOAD16_SEXT_32_ROFF; VM_STORE16_G; VM_STORE16;
   VM_STORE16C_OFF; VM_STORE16_OFF; VM_LOAD32; VM_LOAD32_G; VM_LOAD32_OFF;
   VM_LOAD32_ROFF; VM_STORE32_G; VM_STORE32C_OFF; VM_STORE32; VM_STORE32_OFF;
   VM_LOAD64; VM_LOAD64_G; VM_LOAD64_OFF; VM_LOAD64_ROFF; VM_STORE64_G;
   VM_STORE64C_OFF; VM_STORE64; VM_STORE64_OFF].

Definition vm_ops_compare : list vm_op :=
  map (VM_CMP C8) icmps ++
  map (VM_CMP C8_C) icmps ++
  map (VM_CMP C16) icmps ++
  map (VM_CMP C16_C) icmps ++
  map (VM_CMP C32) icmps ++
  map (VM_CMP C32_C) icmps ++
  map (VM_CMP C64) icmps ++
  map (VM_CMP C64_C) icmps ++
  map (VM_FCMP F_DBL) fcmps ++
  map (VM_FCMP F_DBL_C) fcmps ++
  map (VM_FCMP F_FLT) fcmps ++
  map (VM_FCMP F_FLT_C) fcmps.

Definition vm_ops_branch : list vm_op :=
  map (VM_CMP_BR B8) icmps ++
  map (VM_CMP_BR B8_C) icmps ++
  map (VM_CMP_BR B32) icmps ++
  map (VM_CMP_BR B32_C) icmps ++
  map (VM_CMP_SEL S32) icmps ++
  map (VM_CMP_SEL S32_C) icmps.

Definition vm_ops_other : list vm_op :=
  [VM_SELECT32RR; VM_SELECT32RC; VM_SELECT32CR; VM_SELECT32CC; VM_SELECT64RR;
   VM_SELECT64RC; VM_SELECT64CR; VM_SELECT64CC; VM_B; VM_BCOND; VM_JSR;
   VM_JSR_R; VM_JSR_VM; VM_JSR_EXT; VM_INVOKE; VM_INVOKE_R; VM_INVOKE_VM;
   VM_INVOKE_EXT; VM_LANDINGPAD; VM_RESUME; VM_JUMPTABLE; VM_SWITCH8_BS;
   VM_SWITCH32_BS; VM_SWITCH64_BS; VM_MOV32; VM_MOV64; VM_MOV8_C; VM_MOV16_C;
   VM_MOV32_C; VM_MOV64_C; VM_LEA_R32_SHL; VM_LEA_R32_SHL2;
   VM_LEA_R32_SHL_OFF; VM_LEA_R32_MUL_OFF; VM_CAST_1_TRUNC_8;
   VM_CAST_1_TRUNC_16; VM_CAST_8_ZEXT_1; VM_CAST_8_SEXT_1;
   VM_CAST_8_TRUNC_16; VM_CAST_8_TRUNC_32; VM_CAST_8_TRUNC_64;
   VM_CAST_16_ZEXT_1; VM_CAST_16_ZEXT_8; VM_CAST_16_SEXT_8;
   VM_CAST_16_TRUNC_32; VM_CAST_16_TRUNC_64; VM_CAST_16_FPTOSI_FLT;
   VM_CAST_16_FPTOUI_FLT; VM_CAST_16_FPTOSI_DBL; VM_CAST_16_FPTOUI_DBL;
   VM_CAST_32_TRUNC_64; VM_CAST_32_SEXT_1; VM_CAST_32_ZEXT_8;
   VM_CAST_32_SEXT_8; VM_CAST_32_ZEXT_16; VM_CAST_32_SEXT_16;
   VM_CAST_32_FPTOSI_FLT; VM_CAST_32_FPTOUI_FLT; VM_CAST_32_FPTOSI_DBL;
   VM_CAST_32_FPTOUI_DBL; VM_CAST_64_ZEXT_1; VM_CAST_64_SEXT_1;
   VM_CAST_64_ZEXT_8; VM_CAST_64_SEXT_8; VM_CAST_64_ZEXT_16;
   VM_CAST_64_SEXT_16; VM_CAST_64_ZEXT_32; VM_CAST_64_SEXT_32;
   VM_CAST_64_FPTOSI_FLT; VM_CAST_64_FPTOUI_FLT; VM_CAST_64_FPTOSI_DBL;
   VM_CAST_64_FPTOUI_DBL; VM_CAST_FLT_FPTRUNC_DBL; VM_CAST_FLT_SITOFP_8;
   VM_CAST_FLT_UITOFP_8; VM_CAST_FLT_SITOFP_16; VM_CAST_FLT_UITOFP_16;
   VM_CAST_FLT_SITOFP_32; VM_CAST_FLT_UITOFP_32; VM_CAST_FLT_SITOFP_64;
   VM_CAST_FLT_UITOFP_64; VM_CAST_DBL_FPEXT_FLT; VM_CAST_DBL_SITOFP_8;
   VM_CAST_DBL_UITOFP_8; VM_CAST_DBL_SITOFP_16; VM_CAST_DBL_UITOFP_16;
   VM_CAST_DBL_SITOFP_32; VM_CAST_DBL_UITOFP_32; VM_CAST_DBL_SITOFP_64;
   VM_CAST_DBL_UITOFP_64; VM_ABS] ++
  map (VM_MATH false) maths ++
  map (VM_MATH true) maths ++
  [VM_ALLOCA; VM_ALLOCAD; VM_UNREACHABLE; VM_STACKSHRINK; VM_STACKCOPYR;
   VM_STACKCOPYC; VM_STACKSAVE; VM_STACKRESTORE; VM_VASTART; VM_VAARG32;
   VM_VAARG64; VM_VACOPY; VM_STRCMP; VM_STRCASECMP; VM_STRLEN; VM_STRDUP;
   VM_STRCHR; VM_STRRCHR; VM_STRNCMP; VM_STRCPY; VM_STRNCPY; VM_STRCAT;
   VM_STRNCAT; VM_MEMMOVE; VM_MEMCMP; VM_MEMCPY; VM_MEMSET; VM_LLVM_MEMCPY;
   VM_LLVM_MEMSET; VM_LLVM_MEMSET64; VM_CTZ32; VM_CLZ32; VM_POP32; VM_CTZ64;
   VM_CLZ64; VM_POP64; VM_UADDO32; VM_UMULO32; VM_NOP; VM_INSTRUMENT_COUNT].

Definition vm_ops : list vm_op :=
  vm_ops_arith ++ vm_ops_compare ++ vm_ops_branch ++ vm_ops_other.

(** The number of the first opcode of a family. *)
Definition bin_base (k : bin_kind) : Z :=
  match k with | K_R16C => 15 | K_R32 => 28 | K_R32C => 43 | K_R64 => 56 | K_R64C => 69 end.
Definition fbin_base (k : flt_kind) : Z :=
  match k with | F_DBL => 82 | F_DBL_C => 86 | F_FLT => 90 | F_FLT_C => 94 end.
Definition cmp_base (k : cmp_kind) : Z :=
  match k with
  | C8 => 139 | C8_C => 149 | C16 => 159 | C16_C => 169 | C32 => 179 | C32_C => 189 | C64 => 199 | C64_C => 209
  end.
Definition fcmp_base (k : flt_kind) : Z :=
  match k with | F_DBL => 219 | F_DBL_C => 233 | F_FLT => 247 | F_FLT_C => 261 end.
Definition br_base (k : br_kind) : Z :=
  match k with | B8 => 275 | B8_C => 285 | B32 => 295 | B32_C => 305 end.
Definition sel_base (k : sel_kind) : Z :=
  match k with | S32 => 315 | S32_C => 325 end.

Definition vm_opcode (op : vm_op) : Z :=
  match op with
  | VM_BIN k o => bin_base k + binop_code o
  | VM_FBIN k o => fbin_base k + fbin_code o
  | VM_CMP k p => cmp_base k + (icmp_code p - icmp_code ICMP_EQ)
  | VM_FCMP k p => fcmp_base k + (fcmp_code p - fcmp_code FCMP_OEQ)
  | VM_CMP_BR k p => br_base k + (icmp_code p - icmp_code ICMP_EQ)
  | VM_CMP_SEL k p => sel_base k + (icmp_code p - icmp_code ICMP_EQ)
  | VM_MATH single m => (if single then 438 else 426) + math_code m
  | VM_JIT_CALL => 0 | VM_RET_VOID => 1 | VM_RET_R32 => 2 | VM_RET_R64 => 3
  | VM_RET_R32C => 4 | VM_RET_R64C => 5 | VM_SDIV_R8 => 6 | VM_SREM_R8 => 7
  | VM_ASHR_R8 => 8 | VM_SDIV_R8C => 9 | VM_SREM_R8C => 10
  | VM_ASHR_R8C => 11 | VM_SDIV_R16 => 12 | VM_SREM_R16 => 13
  | VM_ASHR_R16 => 14 | VM_INC_R32 => 41 | VM_DEC_R32 => 42 | VM_MLA32 => 98
  | VM_LOAD8 => 99 | VM_LOAD8_G => 100 | VM_LOAD8_OFF => 101
  | VM_LOAD8_ZEXT_32_OFF => 102 | VM_LOAD8_SEXT_32_OFF => 103
  | VM_LOAD8_ROFF => 104 | VM_LOAD8_ZEXT_32_ROFF => 105
  | VM_LOAD8_SEXT_32_ROFF => 106 | VM_STORE8_G => 107 | VM_STORE8 => 108
  | VM_STORE8C_OFF => 109 | VM_STORE8_OFF => 110 | VM_LOAD16 => 111
  | VM_LOAD16_G => 112 | VM_LOAD16_OFF => 113 | VM_LOAD16_ZEXT_32_OFF => 114
  | VM_LOAD16_SEXT_32_OFF => 115 | VM_LOAD16_ROFF => 116
  | VM_LOAD16_ZEXT_32_ROFF => 117 | VM_LOAD16_SEXT_32_ROFF => 118
  | VM_STORE16_G => 119 | VM_STORE16 => 120 | VM_STORE16C_OFF => 121
  | VM_STORE16_OFF => 122 | VM_LOAD32 => 123 | VM_LOAD32_G => 124
  | VM_LOAD32_OFF => 125 | VM_LOAD32_ROFF => 126 | VM_STORE32_G => 127
  | VM_STORE32C_OFF => 128 | VM_STORE32 => 129 | VM_STORE32_OFF => 130
  | VM_LOAD64 => 131 | VM_LOAD64_G => 132 | VM_LOAD64_OFF => 133
  | VM_LOAD64_ROFF => 134 | VM_STORE64_G => 135 | VM_STORE64C_OFF => 136
  | VM_STORE64 => 137 | VM_STORE64_OFF => 138 | VM_SELECT32RR => 335
  | VM_SELECT32RC => 336 | VM_SELECT32CR => 337 | VM_SELECT32CC => 338
  | VM_SELECT64RR => 339 | VM_SELECT64RC => 340 | VM_SELECT64CR => 341
  | VM_SELECT64CC => 342 | VM_B => 343 | VM_BCOND => 344 | VM_JSR => 345
  | VM_JSR_R => 346 | VM_JSR_VM => 347 | VM_JSR_EXT => 348 | VM_INVOKE => 349
  | VM_INVOKE_R => 350 | VM_INVOKE_VM => 351 | VM_INVOKE_EXT => 352
  | VM_LANDINGPAD => 353 | VM_RESUME => 354 | VM_JUMPTABLE => 355
  | VM_SWITCH8_BS => 356 | VM_SWITCH32_BS => 357 | VM_SWITCH64_BS => 358
  | VM_MOV32 => 359 | VM_MOV64 => 360 | VM_MOV8_C => 361 | VM_MOV16_C => 362
  | VM_MOV32_C => 363 | VM_MOV64_C => 364 | VM_LEA_R32_SHL => 365
  | VM_LEA_R32_SHL2 => 366 | VM_LEA_R32_SHL_OFF => 367
  | VM_LEA_R32_MUL_OFF => 368 | VM_CAST_1_TRUNC_8 => 369
  | VM_CAST_1_TRUNC_16 => 370 | VM_CAST_8_ZEXT_1 => 371
  | VM_CAST_8_SEXT_1 => 372 | VM_CAST_8_TRUNC_16 => 373
  | VM_CAST_8_TRUNC_32 => 374 | VM_CAST_8_TRUNC_64 => 375
  | VM_CAST_16_ZEXT_1 => 376 | VM_CAST_16_ZEXT_8 => 377
  | VM_CAST_16_SEXT_8 => 378 | VM_CAST_16_TRUNC_32 => 379
  | VM_CAST_16_TRUNC_64 => 380 | VM_CAST_16_FPTOSI_FLT => 381
  | VM_CAST_16_FPTOUI_FLT => 382 | VM_CAST_16_FPTOSI_DBL => 383
  | VM_CAST_16_FPTOUI_DBL => 384 | VM_CAST_32_TRUNC_64 => 385
  | VM_CAST_32_SEXT_1 => 386 | VM_CAST_32_ZEXT_8 => 387
  | VM_CAST_32_SEXT_8 => 388 | VM_CAST_32_ZEXT_16 => 389
  | VM_CAST_32_SEXT_16 => 390 | VM_CAST_32_FPTOSI_FLT => 391
  | VM_CAST_32_FPTOUI_FLT => 392 | VM_CAST_32_FPTOSI_DBL => 393
  | VM_CAST_32_FPTOUI_DBL => 394 | VM_CAST_64_ZEXT_1 => 395
  | VM_CAST_64_SEXT_1 => 396 | VM_CAST_64_ZEXT_8 => 397
  | VM_CAST_64_SEXT_8 => 398 | VM_CAST_64_ZEXT_16 => 399
  | VM_CAST_64_SEXT_16 => 400 | VM_CAST_64_ZEXT_32 => 401
  | VM_CAST_64_SEXT_32 => 402 | VM_CAST_64_FPTOSI_FLT => 403
  | VM_CAST_64_FPTOUI_FLT => 404 | VM_CAST_64_FPTOSI_DBL => 405
  | VM_CAST_64_FPTOUI_DBL => 406 | VM_CAST_FLT_FPTRUNC_DBL => 407
  | VM_CAST_FLT_SITOFP_8 => 408 | VM_CAST_FLT_UITOFP_8 => 409
  | VM_CAST_FLT_SITOFP_16 => 410 | VM_CAST_FLT_UITOFP_16 => 411
  | VM_CAST_FLT_SITOFP_32 => 412 | VM_CAST_FLT_UITOFP_32 => 413
  | VM_CAST_FLT_SITOFP_64 => 414 | VM_CAST_FLT_UITOFP_64 => 415
  | VM_CAST_DBL_FPEXT_FLT => 416 | VM_CAST_DBL_SITOFP_8 => 417
  | VM_CAST_DBL_UITOFP_8 => 418 | VM_CAST_DBL_SITOFP_16 => 419
  | VM_CAST_DBL_UITOFP_16 => 420 | VM_CAST_DBL_SITOFP_32 => 421
  | VM_CAST_DBL_UITOFP_32 => 422 | VM_CAST_DBL_SITOFP_64 => 423
  | VM_CAST_DBL_UITOFP_64 => 424 | VM_ABS => 425 | VM_ALLOCA => 450
  | VM_ALLOCAD => 451 | VM_UNREACHABLE => 452 | VM_STACKSHRINK => 453
  | VM_STACKCOPYR => 454 | VM_STACKCOPYC => 455 | VM_STACKSAVE => 456
  | VM_STACKRESTORE => 457 | VM_VASTART => 458 | VM_VAARG32 => 459
  | VM_VAARG64 => 460 | VM_VACOPY => 461 | VM_STRCMP => 462
  | VM_STRCASECMP => 463 | VM_STRLEN => 464 | VM_STRDUP => 465
  | VM_STRCHR => 466 | VM_STRRCHR => 467 | VM_STRNCMP => 468
  | VM_STRCPY => 469 | VM_STRNCPY => 470 | VM_STRCAT => 471
  | VM_STRNCAT => 472 | VM_MEMMOVE => 473 | VM_MEMCMP => 474
  | VM_MEMCPY => 475 | VM_MEMSET => 476 | VM_LLVM_MEMCPY => 477
  | VM_LLVM_MEMSET => 478 | VM_LLVM_MEMSET64 => 479 | VM_CTZ32 => 480
  | VM_CLZ32 => 481 | VM_POP32 => 482 | VM_CTZ64 => 483 | VM_CLZ64 => 484
  | VM_POP64 => 485 | VM_UADDO32 => 486 | VM_UMULO32 => 487 | VM_NOP => 488
  | VM_INSTRUMENT_COUNT => 489
  end.

(** The opcode of a number, as the [switch] of [vm_exec] finds it. *)
Definition vm_decode (opc : Z) : option vm_op :=
  if opc <? 0 then None else vm_ops !! Z.to_nat opc.

(** ** The enum and the families agree *)

(** The numbers [vm_opcode] gives are the positions in the enum, so decoding
    an opcode finds it again. *)
Lemma vm_decode_opcode op : vm_decode (vm_opcode op) = Some op.
Proof.
  destruct op;
    repeat match goal with
    | k : bin_kind |- _ => destruct k | k : flt_kind |- _ => destruct k
    | k : cmp_kind |- _ => destruct k | k : br_kind |- _ => destruct k
    | k : sel_kind |- _ => destruct k | o : binop |- _ => destruct o
    | p : icmp |- _ => destruct p | p : fcmp |- _ => destruct p
    | o : fbin |- _ => destruct o | m : math_fn |- _ => destruct m
    | b : bool |- _ => destruct b
    end; vm_compute; reflexivity.
Qed.

Lemma vm_opcode_range op : 0 <= vm_opcode op < 490.
Proof.
  pose proof (vm_decode_opcode op) as H. unfold vm_decode in H.
  destruct (Z.ltb_spec (vm_opcode op) 0); [done|].
  apply lookup_lt_Some in H. assert (length vm_ops = 490%nat) as E by done. lia.
Qed.

Lemma vm_decode_code op : vm_decode (s16 (vm_opcode op)) = Some op.
Proof.
  rewrite sgn_small; [apply vm_decode_opcode|lia|].
  pose proof (vm_opcode_range op). lia.
Qed.

(** [op] is the number a code generator computed from the operator. *)
Lemma vm_opcode_inv op op' : vm_opcode op = vm_opcode op' → op = op'.
Proof.
  intros H. assert (Some op = Some op') as [= E]; [|done].
  by rewrite <-(vm_decode_opcode op), <-(vm_decode_opcode op'), H.
Qed.

Lemma vm_decode_inv c op : vm_decode c = Some op → c = vm_opcode op.
Proof.
  unfold vm_decode. destruct (Z.ltb_spec c 0); [done|]. intros H1.
  assert (forallb (λ n,
            match vm_ops !! n with Some o => vm_opcode o =? Z.of_nat n | None => false end)
            (seq 0 490) = true) as Hall by (vm_compute; reflexivity).
  pose proof (lookup_lt_Some _ _ _ H1) as Hn.
  assert (length vm_ops = 490%nat) as E by done. rewrite E in Hn.
  rewrite forallb_forall in Hall. specialize (Hall (Z.to_nat c)). rewrite H1 in Hall.
  rewrite Z.eqb_eq in Hall. rewrite Hall; [lia|]. apply in_seq. lia.
Qed.

(** An opcode is written and read as the same instruction: the numbers of
    the enumeration decode to the opcode they stand for, and the words that
    are opcodes are exactly the numbers below the length of the enumeration. *)
Theorem vm_opcode_bijection :
  (∀ n op, vm_decode n = Some op ↔ n = vm_opcode op) ∧
  ∀ n, is_Some (vm_decode n) ↔ 0 <= n < Z.of_nat (length vm_ops).
Proof.
  split.
  - intros n op. split; [apply vm_decode_inv|intros ->; apply vm_decode_opcode].
  - intros n. unfold vm_decode. destruct (Z.ltb_spec n 0).
    + split; [by intros [? ?]|lia].
    + rewrite lookup_lt_is_Some. lia.
Qed.
