(* ===== verification/Fp.v ===== *)
(** The [float] and [double] values of the virtual machine: IEEE-754 binary32
    and binary64 with round to nearest even, on their bit patterns. C leaves
    the payload of a NaN that an operation makes open; here it is the quiet
    NaN with payload zero. *)
From Stdlib Require Import Floats.SpecFloat.
From S2P Require Import Prelude VmOps.
Local Open Scope Z_scope.

(** ** Formats *)

(** Width of the mantissa and of the exponent field. *)
Record fp_format := mk_fp { fp_mw : Z; fp_ew : Z }.
Definition fp_flt : fp_format := mk_fp 23 8.
Definition fp_dbl : fp_format := mk_fp 52 11.

Definition fp_prec (f : fp_format) : Z := fp_mw f + 1.
Definition fp_emax (f : fp_format) : Z := 2 ^ (fp_ew f - 1).
Definition fp_emin (f : fp_format) : Z := emin (fp_prec f) (fp_emax f).

Definition fp_of_bits (f : fp_format) (x : Z) : spec_float :=
  let s := Z.testbit x (fp_mw f + fp_ew f) in
  let e := wrap (fp_ew f) (Z.shiftr x (fp_mw f)) in
  let m := wrap (fp_mw f) x in
  if e =? 0 then
    match m with Zpos p => S754_finite s p (fp_emin f) | _ => S754_zero s end
  else if e =? 2 ^ fp_ew f - 1 then
    if m =? 0 then S754_infinity s else S754_nan
  else S754_finite s (Z.to_pos (m + 2 ^ fp_mw f)) (e + fp_emin f - 1).

Definition fp_to_bits (f : fp_format) (x : spec_float) : Z :=
  let sign (s : bool) := if s then 2 ^ (fp_mw f + fp_ew f) else 0 in
  let top := (2 ^ fp_ew f - 1) * 2 ^ fp_mw f in
  match x with
  | S754_zero s => sign s
  | S754_infinity s => sign s + top
  | S754_nan => top + 2 ^ (fp_mw f - 1)
  | S754_finite s m e =>
      if Zpos m <? 2 ^ fp_mw f then sign s + Zpos m
      else sign s + (e - fp_emin f + 1) * 2 ^ fp_mw f + (Zpos m - 2 ^ fp_mw f)
  end.

(** ** Operations *)

Definition fp_op (f : fp_format) (o : fbin) (l r : spec_float) : spec_float :=
  match o with
  | F_ADD => SFadd (fp_prec f) (fp_emax f) l r
  | F_SUB => SFsub (fp_prec f) (fp_emax f) l r
  | F_MUL => SFmul (fp_prec f) (fp_emax f) l r
  | F_DIV => SFdiv (fp_prec f) (fp_emax f) l r
  end.

(** Conversion from an integer and between the formats. *)
Definition fp_of_int (f : fp_format) (n : Z) : spec_float :=
  binary_normalize (fp_prec f) (fp_emax f) n 0 false.

Definition fp_convert (f : fp_format) (x : spec_float) : spec_float :=
  match x with
  | S754_finite s m e => binary_round (fp_prec f) (fp_emax f) s m e
  | _ => x
  end.

(** The conversion to an integer type truncates; a value that the type does
    not hold is undefined. *)
Definition fp_trunc (x : spec_float) : option Z :=
  match x with
  | S754_zero _ => Some 0
  | S754_finite s m e =>
      let n := if 0 <=? e then Zpos m * 2 ^ e else Zpos m / 2 ^ (- e) in
      Some (if s then - n else n)
  | _ => None
  end.

Definition fp_to_int (signed : bool) (w : Z) (x : spec_float) : res Z :=
  n ← oget (fp_trunc x) Undef;
  _ ← check (if signed then (- 2 ^ (w - 1) <=? n) && (n <? 2 ^ (w - 1))
             else (0 <=? n) && (n <? 2 ^ w)) Undef;
  Ok n.

Definition fp_isnan (x : spec_float) : bool :=
  match x with S754_nan => true | _ => false end.

(** ** The round trip through the bit patterns *)

Section formats.
Context (f : fp_format) (Hmw : 1 <= fp_mw f) (Hew : 2 <= fp_ew f).

Lemma fp_fields (s : bool) e m :
  0 <= e < 2 ^ fp_ew f → 0 <= m < 2 ^ fp_mw f →
  let x := (if s then 2 ^ (fp_mw f + fp_ew f) else 0) + e * 2 ^ fp_mw f + m in
  Z.testbit x (fp_mw f + fp_ew f) = s ∧
  wrap (fp_ew f) (Z.shiftr x (fp_mw f)) = e ∧ wrap (fp_mw f) x = m.
Proof using Hmw Hew.
  intros He Hm x.
  assert (0 < 2 ^ fp_mw f) as Hp1 by (apply Z.pow_pos_nonneg; lia).
  assert (0 < 2 ^ fp_ew f) as Hp2 by (apply Z.pow_pos_nonneg; lia).
  assert (x = (bool_to_Z s * 2 ^ fp_ew f + e) * 2 ^ fp_mw f + m) as Hx.
  { subst x. rewrite Z.pow_add_r by lia. destruct s; unfold bool_to_Z; ring. }
  assert (x / 2 ^ fp_mw f = bool_to_Z s * 2 ^ fp_ew f + e) as Hd.
  { rewrite Hx, Z.div_add_l, Z.div_small by lia. lia. }
  split_and!.
  - replace (fp_mw f + fp_ew f) with (0 + fp_ew f + fp_mw f) by lia.
    rewrite <-!Z.shiftr_spec by lia. rewrite !Z.shiftr_div_pow2, Hd by lia.
    rewrite Z.div_add_l, (Z.div_small e) by lia. by destruct s.
  - rewrite Z.shiftr_div_pow2, Hd by lia. unfold wrap.
    rewrite Z.add_comm, Z_mod_plus_full. apply Z.mod_small; lia.
  - unfold wrap. rewrite Hx, Z.add_comm, Z_mod_plus_full. apply Z.mod_small; lia.
Qed.

(** Numbers that the format holds. *)
Definition fp_valid (x : spec_float) : Prop :=
  match x with
  | S754_finite _ m e =>
      (Zpos m < 2 ^ fp_mw f ∧ e = fp_emin f) ∨
      (2 ^ fp_mw f <= Zpos m < 2 ^ (fp_mw f + 1) ∧
       fp_emin f <= e < fp_emin f + 2 ^ fp_ew f - 2)
  | _ => True
  end.

Lemma fp_bits_roundtrip x : fp_valid x → fp_of_bits f (fp_to_bits f x) = x.
Proof using Hmw Hew.
  assert (0 < 2 ^ fp_mw f) as Hp1 by (apply Z.pow_pos_nonneg; lia).
  assert (4 <= 2 ^ fp_ew f) as Hp2.
  { change 4 with (2 ^ 2). apply Z.pow_le_mono_r; lia. }
  assert (0 < 2 ^ (fp_mw f - 1) < 2 ^ fp_mw f) as Hp3.
  { split; [apply Z.pow_pos_nonneg; lia|apply Z.pow_lt_mono_r; lia]. }
  intros Hv. unfold fp_of_bits, fp_to_bits. destruct x as [s|s| |s m e].
  - destruct (fp_fields s 0 0) as (H1 & H2 & H3); [lia|lia|].
    rewrite Z.mul_0_l, !Z.add_0_r in *. by rewrite H1, H2, H3.
  - destruct (fp_fields s (2 ^ fp_ew f - 1) 0) as (H1 & H2 & H3); [lia|lia|].
    rewrite !Z.add_0_r in *. rewrite H1, H2, H3.
    destruct (Z.eqb_spec (2 ^ fp_ew f - 1) 0); [lia|]. by rewrite Z.eqb_refl.
  - destruct (fp_fields false (2 ^ fp_ew f - 1) (2 ^ (fp_mw f - 1))) as (H1 & H2 & H3); [lia|lia|].
    rewrite Z.add_0_l in *. rewrite H1, H2, H3.
    destruct (Z.eqb_spec (2 ^ fp_ew f - 1) 0); [lia|]. rewrite Z.eqb_refl.
    destruct (Z.eqb_spec (2 ^ (fp_mw f - 1)) 0); [lia|done].
  - cbn [fp_valid] in Hv. rewrite Z.pow_add_r, Z.pow_1_r in Hv by lia.
    destruct (Z.ltb_spec (Zpos m) (2 ^ fp_mw f)).
    + destruct Hv as [[_ ->]|]; [|lia].
      destruct (fp_fields s 0 (Zpos m)) as (H1 & H2 & H3); [lia|lia|].
      rewrite Z.mul_0_l, Z.add_0_r in *. by rewrite H1, H2, H3.
    + destruct Hv as [[]|[Hm He]]; [lia|].
      destruct (fp_fields s (e - fp_emin f + 1) (Zpos m - 2 ^ fp_mw f))
        as (H1 & H2 & H3); [lia|lia|].
      rewrite H1, H2, H3.
      destruct (Z.eqb_spec (e - fp_emin f + 1) 0); [lia|].
      destruct (Z.eqb_spec (e - fp_emin f + 1) (2 ^ fp_ew f - 1)); [lia|].
      f_equal; [|lia]. replace (Zpos m - 2 ^ fp_mw f + 2 ^ fp_mw f) with (Zpos m) by lia.
      done.
Qed.
End formats.

(** ** Comparisons *)

(** What the predicates of LLVM mean: an ordered one is false on a NaN, an
    unordered one true. *)
Definition fcmp_spec (p : fcmp) (l r : spec_float) : bool :=
  let c := SFcompare l r in
  match p with
  | FCMP_OEQ => match c with Some Eq => true | _ => false end
  | FCMP_OGT => match c with Some Gt => true | _ => false end
  | FCMP_OGE => match c with Some (Gt | Eq) => true | _ => false end
  | FCMP_OLT => match c with Some Lt => true | _ => false end
  | FCMP_OLE => match c with Some (Lt | Eq) => true | _ => false end
  | FCMP_ONE => match c with Some (Lt | Gt) => true | _ => false end
  | FCMP_ORD => match c with Some _ => true | None => false end
  | FCMP_UNO => match c with Some _ => false | None => true end
  | FCMP_UEQ => match c with Some Eq | None => true | _ => false end
  | FCMP_UGT => match c with Some Gt | None => true | _ => false end
  | FCMP_UGE => match c with Some (Gt | Eq) | None => true | _ => false end
  | FCMP_ULT => match c with Some Lt | None => true | _ => false end
  | FCMP_ULE => match c with Some (Lt | Eq) | None => true | _ => false end
  | FCMP_UNE => match c with Some Eq => false | _ => true end
  end.

(** [VM_OEQ_DBL] to [VM_UNE_FLT] of [vm_exec], register with register. *)
Definition c_fcmp (p : fcmp) (l r : spec_float) : bool :=
  match p with
  | FCMP_OEQ => SFeqb l r
  | FCMP_OGT => SFltb r l
  | FCMP_OGE => SFleb r l
  | FCMP_OLT => SFltb l r
  | FCMP_OLE => SFleb l r
  | FCMP_ONE => negb (fp_isnan l) && negb (fp_isnan r) && negb (SFeqb l r)
  | FCMP_ORD => negb (fp_isnan l) && negb (fp_isnan r)
  | FCMP_UNO => fp_isnan l || fp_isnan l
  | FCMP_UEQ => fp_isnan l || fp_isnan r || SFeqb l r
  | FCMP_UGT => fp_isnan l || fp_isnan r || SFltb r l
  | FCMP_UGE => fp_isnan l || fp_isnan r || SFleb l r
  | FCMP_ULT => fp_isnan l || fp_isnan r || SFltb l r
  | FCMP_ULE => fp_isnan l || fp_isnan r || SFleb l r
  | FCMP_UNE => negb (SFeqb l r)
  end.

(** The same with an immediate, which is not a NaN. *)
Definition c_fcmp_imm (p : fcmp) (l r : spec_float) : bool :=
  match p with
  | FCMP_OEQ => SFeqb l r
  | FCMP_OGT => SFltb r l
  | FCMP_OGE => SFleb r l
  | FCMP_OLT => SFltb l r
  | FCMP_OLE => SFleb l r
  | FCMP_ONE => negb (fp_isnan l) && negb (SFeqb l r)
  | FCMP_ORD => negb (fp_isnan l)
  | FCMP_UNO => fp_isnan l
  | FCMP_UEQ => fp_isnan l || SFeqb l r
  | FCMP_UGT => fp_isnan l || SFltb r l
  | FCMP_UGE => fp_isnan l || SFleb l r
  | FCMP_ULT => fp_isnan l || SFltb l r
  | FCMP_ULE => fp_isnan l || SFleb l r
  | FCMP_UNE => negb (SFeqb l r)
  end.

Lemma SFcompare_swap l r :
  SFcompare r l = match SFcompare l r with Some c => Some (CompOpp c) | None => None end.
Proof.
  destruct l as [s|s| |s m e], r as [s'|s'| |s' m' e'];
    try destruct s; try destruct s'; try done; simpl;
    rewrite (Z.compare_antisym e e'); destruct (e ?= e') eqn:E; try done; simpl;
    rewrite (Pos.compare_cont_antisym m m'); simpl;
    try (by destruct (Pos.compare_cont _ _ _)).
Qed.

Lemma SFcompare_nan l r :
  SFcompare l r = None ↔ fp_isnan l = true ∨ fp_isnan r = true.
Proof.
  destruct l as [s|s| |s m e], r as [s'|s'| |s' m' e'];
    try destruct s; try destruct s'; simpl; naive_solver.
Qed.

(** The comparison opcodes compute the predicates of LLVM, apart from [uge],
    and from [uno] when only the second operand is a NaN. *)
Lemma c_fcmp_correct p l r :
  p ≠ FCMP_UGE → (p = FCMP_UNO → fp_isnan r = true → fp_isnan l = true) →
  c_fcmp p l r = fcmp_spec p l r.
Proof.
  intros Hp Hu. pose proof (SFcompare_nan l r) as Hn.
  destruct p; try done; unfold c_fcmp, fcmp_spec, SFeqb, SFltb, SFleb;
    try (rewrite (SFcompare_swap l r));
    destruct (SFcompare l r) as [[]|], (fp_isnan l), (fp_isnan r); simpl in *;
    naive_solver.
Qed.

Lemma c_fcmp_imm_correct p l r :
  p ≠ FCMP_UGE → fp_isnan r = false → c_fcmp_imm p l r = fcmp_spec p l r.
Proof.
  intros Hp Hu. pose proof (SFcompare_nan l r) as Hn.
  destruct p; try done; unfold c_fcmp_imm, fcmp_spec, SFeqb, SFltb, SFleb;
    try (rewrite (SFcompare_swap l r));
    destruct (SFcompare l r) as [[]|], (fp_isnan l), (fp_isnan r); simpl in *;
    naive_solver.
Qed.

(** [uge] is computed as [ule] in all four forms, and [uno] tests its first
    operand twice. *)
Lemma fcmp_uge_is_ule l r :
  c_fcmp FCMP_UGE l r = fcmp_spec FCMP_ULE l r ∧
  (fp_isnan r = false → c_fcmp_imm FCMP_UGE l r = fcmp_spec FCMP_ULE l r).
Proof.
  split; [by rewrite <-(c_fcmp_correct FCMP_ULE) by done|].
  intros Hr. by rewrite <-(c_fcmp_imm_correct FCMP_ULE) by done.
Qed.

Lemma fcmp_uno_second l :
  fp_isnan l = false →
  c_fcmp FCMP_UNO l S754_nan = false ∧ fcmp_spec FCMP_UNO l S754_nan = true.
Proof. intros H. unfold c_fcmp. rewrite H. split; [done|]. by destruct l. Qed.
