(* ===== verification/Vm.v ===== *)
(** The interpreter of [src/src/vmir_vm.c]: [vm_exec], built with
    [VM_DONT_USE_COMPUTED_GOTO] and without [VM_TRACE] and the JIT compiler,
    so that an opcode is stored as its number in [vm_op_t].

    A function is a list of 16-bit words, [I] is an index into it and the
    offsets of branches count bytes. The registers of all frames lie in one
    host memory; [rf] and [ret] are addresses in it. The memory of the guest
    is another one. *)
From Stdlib Require Import Floats.SpecFloat.
From S2P Require Import Prelude Support Mem Types Values Heap Libc VmOps Fp.
Local Open Scope Z_scope.

(** ** State *)

(** What [vm_exec] reads and changes of [ir_unit_t]; [u_peak] is the
    [allocapeak] its frames point to. *)
Record vm_unit := mk_unit {
  u_mem : memory;
  u_regs : memory;
  u_vm_funcs : list (option (list Z));
  u_exception : vmir_exception;
  u_peak : Z;
  u_counts : list Z;
}.

(** The locals of one activation of [vm_exec]: the function whose text runs,
    [I], [rf], [ret] and [F.allocaptr]. *)
Record vm_frame := mk_frame {
  f_func : Z;
  f_I : Z;
  f_rf : Z;
  f_ret : Z;
  f_allocaptr : Z;
}.

Definition upd_mem (u : vm_unit) (m : memory) : vm_unit :=
  mk_unit m (u_regs u) (u_vm_funcs u) (u_exception u) (u_peak u) (u_counts u).
Definition upd_regs (u : vm_unit) (m : memory) : vm_unit :=
  mk_unit (u_mem u) m (u_vm_funcs u) (u_exception u) (u_peak u) (u_counts u).
Definition upd_funcs (u : vm_unit) (l : list (option (list Z))) : vm_unit :=
  mk_unit (u_mem u) (u_regs u) l (u_exception u) (u_peak u) (u_counts u).
Definition upd_exception (u : vm_unit) (e : vmir_exception) : vm_unit :=
  mk_unit (u_mem u) (u_regs u) (u_vm_funcs u) e (u_peak u) (u_counts u).
Definition upd_peak (u : vm_unit) (p : Z) : vm_unit :=
  mk_unit (u_mem u) (u_regs u) (u_vm_funcs u) (u_exception u) p (u_counts u).
Definition upd_counts (u : vm_unit) (c : list Z) : vm_unit :=
  mk_unit (u_mem u) (u_regs u) (u_vm_funcs u) (u_exception u) (u_peak u) c.

Definition set_I (f : vm_frame) (i : Z) : vm_frame :=
  mk_frame (f_func f) i (f_rf f) (f_ret f) (f_allocaptr f).
Definition set_allocaptr (f : vm_frame) (p : Z) : vm_frame :=
  mk_frame (f_func f) (f_I f) (f_rf f) (f_ret f) (u32 p).

Definition VM_STOP_EXIT : Z := 1.
Definition VM_STOP_ABORT : Z := 2.
Definition VM_STOP_UNREACHABLE : Z := 3.
Definition VM_STOP_BAD_INSTRUCTION : Z := 4.
Definition VM_STOP_BAD_FUNCTION : Z := 5.
Definition VM_STOP_UNCAUGHT_EXCEPTION : Z := 6.

(** How a function returns to [vm_exec]: with a result (1 when an exception
    is on its way), or [vm_stop] with a reason and [iu_exit_code]. *)
Inductive vm_result : Type :=
  | R_return (u : vm_unit) (r : Z)
  | R_stop (u : vm_unit) (reason code : Z).

(** A function of the host: its [ret] and its [rf]. *)
Definition ext_function : Type := vm_unit → Z → Z → res vm_result.

(** What follows a call: [JSR] returns a result that is not 0, the external
    branch of [JSR_R] does not look at it, [INVOKE] branches on it. *)
Inductive vm_kont : Type := K_jsr | K_ignore | K_invoke.

(** One instruction: the next one, the end of the activation, or a call. *)
Inductive vm_next : Type :=
  | N_go (u : vm_unit) (f : vm_frame)
  | N_ret (u : vm_unit) (r : Z)
  | N_stop (u : vm_unit) (reason code : Z)
  | N_call (u : vm_unit) (f : vm_frame) (callee : Z) (ext : bool) (rf ret : Z)
           (k : vm_kont).

(** The build and the host: whether the compiler has [__has_builtin],
    [iu_function_table], the length of [iu_functions], and the part of the C
    library that C does not define: the values of [<math.h>] on bit patterns,
    the result of a comparison of strings or bytes at the first bytes that
    differ, what [strdup] of the host returns relative to the guest memory,
    and the address of the registers, which [va_list]s hold. *)
Record vm_host := mk_host {
  h_has_builtin : bool;
  h_function_table : Z → option ext_function;
  h_num_functions : Z;
  h_math : bool → math_fn → list Z → Z;
  h_compare : Z → Z → Z;
  h_strdup : memory → Z → Z;
  h_rf_base : Z;
}.

(** ** Operands *)

Section operands.
Context (u : vm_unit) (f : vm_frame).

Definition vm_text : res (list Z) :=
  if f_func f <? 0 then Fail Undef
  else t ← oget (u_vm_funcs u !! Z.to_nat (f_func f)) Undef; oget t Undef.

(** [I[r]], [UIMM16(r)]. *)
Definition Iw (r : Z) : res Z :=
  t ← vm_text;
  let k := f_I f + r in
  if k <? 0 then Fail Undef else oget (t !! Z.to_nat k) Undef.

Definition UIMM8 (r : Z) : res Z := w ← Iw r; Ok (u8 w).
Definition UIMM32 (r : Z) : res Z := a ← Iw r; b ← Iw (r + 1); Ok (a + 65536 * b).
Definition UIMM64 (r : Z) : res Z :=
  a ← UIMM32 r; b ← UIMM32 (r + 2); Ok (a + 4294967296 * b).
Definition SIMM8 (r : Z) : res Z := w ← UIMM8 r; Ok (s8 w).
Definition SIMM16 (r : Z) : res Z := w ← Iw r; Ok (s16 w).
Definition SIMM32 (r : Z) : res Z := w ← UIMM32 r; Ok (s32 w).

(** [rf + (int16_t)I[r]] and the registers there. *)
Definition vm_reg (r : Z) : res Z := i ← Iw r; Ok (f_rf f + s16 i).
Definition R32 (r : Z) : res Z := a ← vm_reg r; mem_rd32 (u_regs u) a.
Definition R64 (r : Z) : res Z := a ← vm_reg r; mem_rd64 (u_regs u) a.
Definition R8 (r : Z) : res Z := v ← R32 r; Ok (u8 v).
Definition R16 (r : Z) : res Z := v ← R32 r; Ok (u16 v).
Definition S8 (r : Z) : res Z := v ← R32 r; Ok (s8 v).
Definition S16 (r : Z) : res Z := v ← R32 r; Ok (s16 v).
Definition S32v (r : Z) : res Z := v ← R32 r; Ok (s32 v).
Definition S64 (r : Z) : res Z := v ← R64 r; Ok (s64 v).
Definition RFLT (r : Z) : res spec_float := v ← R32 r; Ok (fp_of_bits fp_flt v).
Definition RDBL (r : Z) : res spec_float := v ← R64 r; Ok (fp_of_bits fp_dbl v).

(** [AR32(r, v)] and [AR64(r, v)]. *)
Definition AR32 (r v : Z) : res vm_unit :=
  a ← vm_reg r; m ← mem_wr32 (u_regs u) a v; Ok (upd_regs u m).
Definition AR64 (r v : Z) : res vm_unit :=
  a ← vm_reg r; m ← mem_wr64 (u_regs u) a v; Ok (upd_regs u m).

(** [NEXT(skip)]; [I = (void * )I + (int16_t)offset] is undefined for an odd
    offset, which leaves [I] unaligned. *)
Definition next (u : vm_unit) (skip : Z) : res vm_next :=
  Ok (N_go u (set_I f (f_I f + skip))).
Definition branch_frame (offset : Z) : res vm_frame :=
  _ ← check (Z.even offset) Undef; Ok (set_I f (f_I f + s16 offset / 2)).
Definition branch (offset : Z) : res vm_next :=
  f ← branch_frame offset; Ok (N_go u f).

(** [AR32(0, v); NEXT(skip)], and the same for 64 bits. *)
Definition ret32 (v skip : Z) : res vm_next := u ← AR32 0 v; next u skip.
Definition ret64 (v skip : Z) : res vm_next := u ← AR64 0 v; next u skip.

(** ** Returns, branches, calls *)

Definition exec_ret (op : vm_op) : res vm_next :=
  let ret32 v := m ← mem_wr32 (u_regs u) (f_ret f) v; Ok (N_ret (upd_regs u m) 0) in
  let ret64 v := m ← mem_wr64 (u_regs u) (f_ret f) v; Ok (N_ret (upd_regs u m) 0) in
  match op with
  | VM_RET_VOID => Ok (N_ret u 0)
  | VM_RET_R32 => v ← R32 0; ret32 v
  | VM_RET_R64 => v ← R64 0; ret64 v
  | VM_RET_R32C => v ← UIMM32 0; ret32 v
  | VM_RET_R64C => v ← UIMM64 0; ret64 v
  | _ => Fail Undef
  end.

Definition exec_b (op : vm_op) : res vm_next :=
  match op with
  | VM_B => o ← Iw 0; branch o
  | VM_BCOND => c ← R32 0; o ← (if c =? 0 then Iw 2 else Iw 1); branch o
  | _ => Fail Undef
  end.

(** The operator of C on promoted operands: [int] arithmetic. *)
Definition c_int_binop (o : binop) (l r : Z) : res Z :=
  let nz := check (negb (r =? 0)) Undef in
  let sh := check ((0 <=? r) && (r <? 32)) Undef in
  match o with
  | BINOP_ADD => int_arith (l + r)
  | BINOP_SUB => int_arith (l - r)
  | BINOP_MUL => int_arith (l * r)
  | BINOP_UDIV | BINOP_SDIV => _ ← nz; int_arith (Z.quot l r)
  | BINOP_UREM | BINOP_SREM => _ ← nz; Ok (Z.rem l r)
  | BINOP_SHL => _ ← sh; int_arith (Z.shiftl l r)
  | BINOP_LSHR | BINOP_ASHR => _ ← sh; Ok (Z.shiftr l r)
  | BINOP_AND => Ok (Z.land l r)
  | BINOP_OR => Ok (Z.lor l r)
  | BINOP_XOR => Ok (Z.lxor l r)
  end.

(** Operators whose left or right operand is read as signed. *)
Definition signed_lhs (o : binop) : bool :=
  match o with BINOP_SDIV | BINOP_SREM | BINOP_ASHR => true | _ => false end.
Definition signed_rhs (o : binop) : bool :=
  match o with BINOP_SDIV | BINOP_SREM => true | _ => false end.

(** ** Arithmetic *)

(** The 8-bit and 16-bit forms, [VM_SDIV_R8] to [VM_ASHR_R16]. *)
Definition exec_small (op : vm_op) : res vm_next :=
  let go o l r := l ← l; r ← r; v ← c_int_binop o l r; ret32 v 3 in
  match op with
  | VM_SDIV_R8 => go BINOP_SDIV (S8 1) (S8 2)
  | VM_SREM_R8 => go BINOP_SREM (S8 1) (S8 2)
  | VM_ASHR_R8 => go BINOP_ASHR (S8 1) (R8 2)
  | VM_SDIV_R8C => go BINOP_SDIV (S8 1) (SIMM8 2)
  | VM_SREM_R8C => go BINOP_SREM (S8 1) (SIMM8 2)
  | VM_ASHR_R8C => go BINOP_ASHR (S8 1) (UIMM8 2)
  | VM_SDIV_R16 => go BINOP_SDIV (S16 1) (S16 2)
  | VM_SREM_R16 => go BINOP_SREM (S16 1) (S16 2)
  | VM_ASHR_R16 => go BINOP_ASHR (S16 1) (R16 2)
  | _ => Fail Undef
  end.

Definition exec_bin (k : bin_kind) (o : binop) : res vm_next :=
  match k with
  | K_R16C =>
      l ← (if signed_lhs o then S16 1 else R16 1);
      r ← (if signed_rhs o then SIMM16 2 else Iw 2);
      v ← c_int_binop o l r; ret32 v 3
  | K_R32 => l ← R32 1; r ← R32 2; v ← c_binop 32 o l r; ret32 v 3
  | K_R32C => l ← R32 1; r ← UIMM32 2; v ← c_binop 32 o l r; ret32 v 4
  | K_R64 => l ← R64 1; r ← R64 2; v ← c_binop 64 o l r; ret64 v 3
  | K_R64C => l ← R64 1; r ← UIMM64 2; v ← c_binop 64 o l r; ret64 v 6
  end.

Definition exec_incdec (op : vm_op) : res vm_next :=
  match op with
  | VM_INC_R32 => l ← R32 1; ret32 (l + 1) 2
  | VM_DEC_R32 => l ← R32 1; ret32 (l - 1) 2
  | VM_MLA32 => a ← R32 1; b ← R32 2; c ← R32 3; ret32 (a * b + c) 4
  | VM_ABS =>
      v ← S32v 1; r ← int_arith (Z.abs v); ret32 r 2
  | _ => Fail Undef
  end.

Definition exec_fbin (k : flt_kind) (o : fbin) : res vm_next :=
  match k with
  | F_DBL => l ← RDBL 1; r ← RDBL 2;
      ret64 (fp_to_bits fp_dbl (fp_op fp_dbl o l r)) 3
  | F_DBL_C => l ← RDBL 1; r ← UIMM64 2;
      ret64 (fp_to_bits fp_dbl (fp_op fp_dbl o l (fp_of_bits fp_dbl r))) 6
  | F_FLT => l ← RFLT 1; r ← RFLT 2;
      ret32 (fp_to_bits fp_flt (fp_op fp_flt o l r)) 3
  | F_FLT_C => l ← RFLT 1; r ← UIMM32 2;
      ret32 (fp_to_bits fp_flt (fp_op fp_flt o l (fp_of_bits fp_flt r))) 4
  end.

(** ** Comparisons *)

(** Both operands at their width, from [r], and the words they take. *)
Definition cmp_operands (k : cmp_kind) (r : Z) : res (Z * Z * Z * Z) :=
  match k with
  | C8 => a ← R8 r; b ← R8 (r + 1); Ok (8, a, b, 2)
  | C8_C => a ← R8 r; b ← UIMM8 (r + 1); Ok (8, a, b, 2)
  | C16 => a ← R16 r; b ← R16 (r + 1); Ok (16, a, b, 2)
  | C16_C => a ← R16 r; b ← Iw (r + 1); Ok (16, a, b, 2)
  | C32 => a ← R32 r; b ← R32 (r + 1); Ok (32, a, b, 2)
  | C32_C => a ← R32 r; b ← UIMM32 (r + 1); Ok (32, a, b, 3)
  | C64 => a ← R64 r; b ← R64 (r + 1); Ok (64, a, b, 2)
  | C64_C => a ← R64 r; b ← UIMM64 (r + 1); Ok (64, a, b, 5)
  end.

Definition exec_cmp (k : cmp_kind) (p : icmp) : res vm_next :=
  '(w, a, b, n) ← cmp_operands k 1;
  ret32 (bool_to_Z (c_icmp w p a b)) (1 + n).

Definition exec_fcmp (k : flt_kind) (p : fcmp) : res vm_next :=
  match k with
  | F_DBL => l ← RDBL 1; r ← RDBL 2; ret32 (bool_to_Z (c_fcmp p l r)) 3
  | F_DBL_C => l ← RDBL 1; r ← UIMM64 2;
      ret32 (bool_to_Z (c_fcmp_imm p l (fp_of_bits fp_dbl r))) 6
  | F_FLT => l ← RFLT 1; r ← RFLT 2; ret32 (bool_to_Z (c_fcmp p l r)) 3
  | F_FLT_C => l ← RFLT 1; r ← UIMM32 2;
      ret32 (bool_to_Z (c_fcmp_imm p l (fp_of_bits fp_flt r))) 4
  end.

Definition br_cmp (k : br_kind) : cmp_kind :=
  match k with B8 => C8 | B8_C => C8_C | B32 => C32 | B32_C => C32_C end.

Definition exec_cmp_br (k : br_kind) (p : icmp) : res vm_next :=
  '(w, a, b, _) ← cmp_operands (br_cmp k) 2;
  o ← (if c_icmp w p a b then Iw 0 else Iw 1);
  branch o.

Definition exec_cmp_sel (k : sel_kind) (p : icmp) : res vm_next :=
  '(w, a, b, n) ← cmp_operands (match k with S32 => C32 | S32_C => C32_C end) 3;
  v ← (if c_icmp w p a b then R32 1 else R32 2);
  ret32 v (3 + n).

(** ** Loads and stores *)

(** The address of the [_OFF] and [_ROFF] forms: [uint32_t] arithmetic. *)
Definition ea_off (r : Z) : res Z := b ← R32 r; o ← SIMM16 (r + 1); Ok (u32 (b + o)).
Definition ea_roff (r : Z) : res Z :=
  b ← R32 r; o ← SIMM16 (r + 1); x ← R32 (r + 2); m ← SIMM16 (r + 3);
  Ok (u32 (b + o + x * m)).

Definition load8 (ea skip : Z) : res vm_next := v ← mem_rd8 (u_mem u) ea; ret32 v skip.
Definition load16 (ea skip : Z) : res vm_next := v ← mem_rd16 (u_mem u) ea; ret32 v skip.
Definition load32 (ea skip : Z) : res vm_next := v ← mem_rd32 (u_mem u) ea; ret32 v skip.
Definition load64 (ea skip : Z) : res vm_next := v ← mem_rd64 (u_mem u) ea; ret64 v skip.
Definition load8s (ea skip : Z) : res vm_next :=
  v ← mem_rd8 (u_mem u) ea; ret32 (s8 v) skip.
Definition load16s (ea skip : Z) : res vm_next :=
  v ← mem_rd16 (u_mem u) ea; ret32 (s16 v) skip.

Definition exec_load (op : vm_op) : res vm_next :=
  match op with
  | VM_LOAD8 => ea ← R32 1; load8 ea 2
  | VM_LOAD8_G => ea ← SIMM32 1; load8 ea 3
  | VM_LOAD8_OFF | VM_LOAD8_ZEXT_32_OFF => ea ← ea_off 1; load8 ea 3
  | VM_LOAD8_SEXT_32_OFF => ea ← ea_off 1; load8s ea 3
  | VM_LOAD8_ROFF | VM_LOAD8_ZEXT_32_ROFF => ea ← ea_roff 1; load8 ea 5
  | VM_LOAD8_SEXT_32_ROFF => ea ← ea_roff 1; load8s ea 5
  | VM_LOAD16 => ea ← R32 1; load16 ea 2
  | VM_LOAD16_G => ea ← SIMM32 1; load16 ea 3
  | VM_LOAD16_OFF | VM_LOAD16_ZEXT_32_OFF => ea ← ea_off 1; load16 ea 3
  | VM_LOAD16_SEXT_32_OFF => ea ← ea_off 1; load16s ea 3
  | VM_LOAD16_ROFF | VM_LOAD16_ZEXT_32_ROFF => ea ← ea_roff 1; load16 ea 5
  | VM_LOAD16_SEXT_32_ROFF => ea ← ea_roff 1; load16s ea 5
  | VM_LOAD32 => ea ← R32 1; load32 ea 2
  | VM_LOAD32_G => ea ← SIMM32 1; load32 ea 3
  | VM_LOAD32_OFF => ea ← ea_off 1; load32 ea 3
  | VM_LOAD32_ROFF => ea ← ea_roff 1; load32 ea 5
  | VM_LOAD64 => ea ← R32 1; load64 ea 2
  | VM_LOAD64_G => ea ← SIMM32 1; load64 ea 3
  | VM_LOAD64_OFF => ea ← ea_off 1; load64 ea 3
  | VM_LOAD64_ROFF => ea ← ea_roff 1; load64 ea 5
  | _ => Fail Undef
  end.

Definition exec_store (op : vm_op) : res vm_next :=
  let st wr ea v skip := m ← wr (u_mem u) ea v; next (upd_mem u m) skip in
  let off r := b ← R32 0; o ← SIMM16 r; Ok (u32 (b + o)) in
  match op with
  | VM_STORE8_G => ea ← SIMM32 1; v ← R8 0; st mem_wr8 ea v 3
  | VM_STORE8C_OFF => ea ← off 1; v ← SIMM8 2; st mem_wr8 ea v 3
  | VM_STORE8_OFF => ea ← off 2; v ← R8 1; st mem_wr8 ea v 3
  | VM_STORE8 => ea ← R32 0; v ← R8 1; st mem_wr8 ea v 2
  | VM_STORE16_G => ea ← SIMM32 1; v ← R16 0; st mem_wr16 ea v 3
  | VM_STORE16C_OFF => ea ← off 1; v ← SIMM16 2; st mem_wr16 ea v 3
  | VM_STORE16_OFF => ea ← off 2; v ← R16 1; st mem_wr16 ea v 3
  | VM_STORE16 => ea ← R32 0; v ← R16 1; st mem_wr16 ea v 2
  | VM_STORE32_G => ea ← SIMM32 1; v ← R32 0; st mem_wr32 ea v 3
  | VM_STORE32C_OFF => ea ← off 1; v ← UIMM32 2; st mem_wr32 ea v 4
  | VM_STORE32_OFF => ea ← off 2; v ← R32 1; st mem_wr32 ea v 3
  | VM_STORE32 => ea ← R32 0; v ← R32 1; st mem_wr32 ea v 2
  | VM_STORE64_G => ea ← SIMM32 1; v ← R64 0; st mem_wr64 ea v 3
  | VM_STORE64C_OFF => ea ← off 1; v ← UIMM64 2; st mem_wr64 ea v 6
  | VM_STORE64_OFF => ea ← off 2; v ← R64 1; st mem_wr64 ea v 3
  | VM_STORE64 => ea ← R32 0; v ← R64 1; st mem_wr64 ea v 2
  | _ => Fail Undef
  end.

(** ** Moves, addresses, casts *)

Definition exec_mov (op : vm_op) : res vm_next :=
  match op with
  | VM_MOV32 => v ← R32 1; ret32 v 2
  | VM_MOV64 => v ← R64 1; ret64 v 2
  | VM_MOV8_C => v ← UIMM8 1; ret32 v 2
  | VM_MOV16_C => v ← Iw 1; ret32 v 2
  | VM_MOV32_C => v ← UIMM32 1; ret32 v 3
  | VM_MOV64_C => v ← UIMM64 1; ret64 v 5
  | _ => Fail Undef
  end.

Definition exec_lea (op : vm_op) : res vm_next :=
  let shl n := b ← R32 1; x ← R32 2; _ ← check (n <? 32) Undef;
               Ok (u32 (b + u32 (Z.shiftl x n))) in
  match op with
  | VM_LEA_R32_SHL => n ← Iw 3; v ← shl n; ret32 v 4
  | VM_LEA_R32_SHL2 => v ← shl 2; ret32 v 3
  | VM_LEA_R32_SHL_OFF =>
      n ← Iw 3; v ← shl n; o ← SIMM32 4; ret32 (u32 (v + o)) 6
  | VM_LEA_R32_MUL_OFF =>
      b ← R32 1; x ← R32 2; m ← UIMM32 3; o ← SIMM32 5;
      ret32 (u32 (b + x * m + o)) 7
  | _ => Fail Undef
  end.

Definition exec_cast_int (op : vm_op) : res vm_next :=
  let c32 v := v ← v; ret32 v 2 in
  let c64 v := v ← v; ret64 v 2 in
  let tst v := v ← v; Ok (bool_to_Z (negb (v =? 0))) in
  let sext1 := v ← R32 1; Ok (if v =? 0 then 0 else -1) in
  match op with
  | VM_CAST_1_TRUNC_8 => c32 (tst (R8 1))
  | VM_CAST_1_TRUNC_16 => c32 (tst (R16 1))
  | VM_CAST_8_ZEXT_1 => c32 (R32 1)
  | VM_CAST_8_SEXT_1 => c32 sext1
  | VM_CAST_8_TRUNC_16 => c32 (R16 1)
  | VM_CAST_8_TRUNC_32 => c32 (R32 1)
  | VM_CAST_8_TRUNC_64 => c32 (R64 1)
  | VM_CAST_16_ZEXT_1 => c32 (R32 1)
  | VM_CAST_16_ZEXT_8 => c32 (R8 1)
  | VM_CAST_16_SEXT_8 => c32 (S8 1)
  | VM_CAST_16_TRUNC_32 => c32 (R16 1)
  | VM_CAST_16_TRUNC_64 => c32 (R64 1)
  | VM_CAST_32_SEXT_1 => c32 sext1
  | VM_CAST_32_ZEXT_8 => c32 (R8 1)
  | VM_CAST_32_SEXT_8 => c32 (S8 1)
  | VM_CAST_32_ZEXT_16 => c32 (R16 1)
  | VM_CAST_32_SEXT_16 => c32 (S16 1)
  | VM_CAST_32_TRUNC_64 => c32 (R64 1)
  | VM_CAST_64_ZEXT_1 => c64 (R32 1)
  | VM_CAST_64_SEXT_1 => c64 sext1
  | VM_CAST_64_ZEXT_8 => c64 (R8 1)
  | VM_CAST_64_SEXT_8 => c64 (S8 1)
  | VM_CAST_64_ZEXT_16 => c64 (R16 1)
  | VM_CAST_64_SEXT_16 => c64 (S16 1)
  | VM_CAST_64_ZEXT_32 => c64 (R32 1)
  | VM_CAST_64_SEXT_32 => c64 (S32v 1)
  | _ => Fail Undef
  end.

Definition exec_cast_fp (op : vm_op) : res vm_next :=
  let c32 s w x := x ← x; v ← fp_to_int s w x; ret32 v 2 in
  let c64 s x := x ← x; v ← fp_to_int s 64 x; ret64 v 2 in
  let flt v := v ← v; ret32 (fp_to_bits fp_flt (fp_of_int fp_flt v)) 2 in
  let dbl v := v ← v; ret64 (fp_to_bits fp_dbl (fp_of_int fp_dbl v)) 2 in
  match op with
  | VM_CAST_16_FPTOSI_FLT | VM_CAST_32_FPTOSI_FLT => c32 true 32 (RFLT 1)
  | VM_CAST_16_FPTOUI_FLT | VM_CAST_32_FPTOUI_FLT => c32 false 32 (RFLT 1)
  | VM_CAST_16_FPTOSI_DBL | VM_CAST_32_FPTOSI_DBL => c32 true 32 (RDBL 1)
  | VM_CAST_16_FPTOUI_DBL | VM_CAST_32_FPTOUI_DBL => c32 false 32 (RDBL 1)
  | VM_CAST_64_FPTOSI_FLT => c64 true (RFLT 1)
  | VM_CAST_64_FPTOUI_FLT => c64 false (RFLT 1)
  | VM_CAST_64_FPTOSI_DBL => c64 true (RDBL 1)
  | VM_CAST_64_FPTOUI_DBL => c64 false (RDBL 1)
  | VM_CAST_DBL_FPEXT_FLT => x ← RFLT 1; ret64 (fp_to_bits fp_dbl (fp_convert fp_dbl x)) 2
  | VM_CAST_FLT_FPTRUNC_DBL => x ← RDBL 1; ret32 (fp_to_bits fp_flt (fp_convert fp_flt x)) 2
  | VM_CAST_FLT_SITOFP_8 => flt (S8 1) | VM_CAST_FLT_UITOFP_8 => flt (R8 1)
  | VM_CAST_FLT_SITOFP_16 => flt (S16 1) | VM_CAST_FLT_UITOFP_16 => flt (R16 1)
  | VM_CAST_FLT_SITOFP_32 => flt (S32v 1) | VM_CAST_FLT_UITOFP_32 => flt (R32 1)
  | VM_CAST_FLT_SITOFP_64 => flt (S64 1) | VM_CAST_FLT_UITOFP_64 => flt (R64 1)
  | VM_CAST_DBL_SITOFP_8 => dbl (S8 1) | VM_CAST_DBL_UITOFP_8 => dbl (R8 1)
  | VM_CAST_DBL_SITOFP_16 => dbl (S16 1) | VM_CAST_DBL_UITOFP_16 => dbl (R16 1)
  | VM_CAST_DBL_SITOFP_32 => dbl (S32v 1) | VM_CAST_DBL_UITOFP_32 => dbl (R32 1)
  | VM_CAST_DBL_SITOFP_64 => dbl (S64 1) | VM_CAST_DBL_UITOFP_64 => dbl (R64 1)
  | _ => Fail Undef
  end.

(** ** Switches and selections *)

(** The binary search of [SWITCH*_BS] over the keys at [key 0] to
    [key (p - 1)]; it gives [imin] and [imax]. *)
Fixpoint switch_search (fuel : nat) (key : Z → res Z) (x imin imax : Z) : res (Z * Z) :=
  match fuel with
  | O => Fail NoFuel
  | S fuel =>
      if imin <? imax then
        let imid := Z.shiftr (imin + imax) 1 in
        k ← key imid;
        if k <? x then switch_search fuel key x (imid + 1) imax
        else switch_search fuel key x imin imid
      else Ok (imin, imax)
  end.

(** The path taken: the index of the key that is [x], or [p] for the default. *)
Definition switch_path (key : Z → res Z) (x p : Z) : res Z :=
  '(imin, imax) ← switch_search (S (Z.to_nat p)) key x 0 (p - 1);
  if imax =? imin then k ← key imin; Ok (if k =? x then imin else p) else Ok p.

Definition exec_switch (op : vm_op) : res vm_next :=
  p ← Iw 1;
  match op with
  | VM_JUMPTABLE =>
      x ← R8 0; o ← Iw (2 + Z.land x (p - 1)); branch o
  | VM_SWITCH8_BS =>
      x ← R8 0; i ← switch_path (λ k, UIMM8 (2 + k)) x p;
      o ← Iw (2 + (p + i)); branch o
  | VM_SWITCH32_BS =>
      x ← R32 0; i ← switch_path (λ k, UIMM32 (2 + k * 2)) x p;
      o ← Iw (2 + (p * 2 + i)); branch o
  | VM_SWITCH64_BS =>
      x ← R64 0; i ← switch_path (λ k, UIMM64 (2 + k * 4)) x p;
      o ← Iw (2 + (p * 4 + i)); branch o
  | _ => Fail Undef
  end.

Definition exec_select (op : vm_op) : res vm_next :=
  c ← R32 1;
  let sel {A} (a b : A) := if c =? 0 then b else a in
  match op with
  | VM_SELECT32RR => v ← sel (R32 2) (R32 3); ret32 v 4
  | VM_SELECT32RC => v ← sel (R32 2) (UIMM32 3); ret32 v 5
  | VM_SELECT32CR => v ← sel (UIMM32 3) (R32 2); ret32 v 5
  | VM_SELECT32CC => v ← sel (UIMM32 2) (UIMM32 4); ret32 v 6
  | VM_SELECT64RR => v ← sel (R64 2) (R64 3); ret64 v 4
  | VM_SELECT64RC => v ← sel (R64 2) (UIMM64 3); ret64 v 7
  | VM_SELECT64CR => v ← sel (UIMM64 3) (R64 2); ret64 v 7
  | VM_SELECT64CC => v ← sel (UIMM64 2) (UIMM64 6); ret64 v 10
  | _ => Fail Undef
  end.

(** The functions of [<math.h>]. *)
Definition exec_math (h : vm_host) (single : bool) (m : math_fn) : res vm_next :=
  let rd r := if single then R32 r else R64 r in
  let wr v skip := if single then ret32 (u32 v) skip else ret64 (u64 v) skip in
  match m with
  | M_POW | M_FMOD => a ← rd 1; b ← rd 2; wr (h_math h single m [a; b]) 3
  | _ => a ← rd 1; wr (h_math h single m [a]) 2
  end.

(** [__builtin_ctz] and friends; undefined at 0 but for the count of bits. *)
Fixpoint popcount (p : positive) : Z :=
  match p with xH => 1 | xO p => popcount p | xI p => 1 + popcount p end.
Fixpoint ctz (p : positive) : Z :=
  match p with xO p => 1 + ctz p | _ => 0 end.

Definition exec_bits (op : vm_op) : res vm_next :=
  let nz w r := v ← r; match v with Zpos p => Ok p | _ => Fail Undef end in
  match op with
  | VM_CTZ32 => p ← nz 32 (R32 1); ret32 (ctz p) 2
  | VM_CLZ32 => p ← nz 32 (R32 1); ret32 (31 - Z.log2 (Zpos p)) 2
  | VM_POP32 => v ← R32 1; ret32 (match v with Zpos p => popcount p | _ => 0 end) 2
  | VM_CTZ64 => p ← nz 64 (R64 1); ret64 (ctz p) 2
  | VM_CLZ64 => p ← nz 64 (R64 1); ret64 (63 - Z.log2 (Zpos p)) 2
  | VM_POP64 => v ← R64 1; ret64 (match v with Zpos p => popcount p | _ => 0 end) 2
  | _ => Fail Undef
  end.

End operands.

(** ** The C library on guest memory *)

Definition c_memcpy (m : memory) (d s n : Z) : res memory :=
  _ ← check ((n =? 0) || (d + n <=? s) || (s + n <=? d)) Undef;
  mem_copy m d s (Z.to_nat n).

Fixpoint mem_copy_back (m : memory) (d s : Z) (n : nat) : res memory :=
  match n with
  | O => Ok m
  | S n =>
      b ← mem_rd8 m (s + Z.of_nat n); m ← mem_wr8 m (d + Z.of_nat n) b;
      mem_copy_back m d s n
  end.
Definition c_memmove (m : memory) (d s n : Z) : res memory :=
  if d <=? s then mem_copy m d s (Z.to_nat n) else mem_copy_back m d s (Z.to_nat n).

(** A string ends inside the memory, so its size is enough fuel. *)
Fixpoint strlen_fuel (fuel : nat) (m : memory) (s : Z) : res Z :=
  match fuel with
  | O => Fail NoFuel
  | S fuel =>
      b ← mem_rd8 m s;
      if b =? 0 then Ok 0 else n ← strlen_fuel fuel m (s + 1); Ok (1 + n)
  end.
Definition c_strlen (m : memory) (s : Z) : res Z :=
  strlen_fuel (S (Z.to_nat (mem_size m))) m s.

Definition c_strcpy (m : memory) (d s : Z) : res memory :=
  n ← c_strlen m s; c_memcpy m d s (n + 1).
Definition c_strcat (m : memory) (d s : Z) : res memory :=
  k ← c_strlen m d; c_strcpy m (d + k) s.

(** [strnlen]: at most [n] bytes are read. *)
Fixpoint c_strnlen (n : nat) (m : memory) (s : Z) : res Z :=
  match n with
  | O => Ok 0
  | S n =>
      b ← mem_rd8 m s;
      if b =? 0 then Ok 0 else k ← c_strnlen n m (s + 1); Ok (1 + k)
  end.
Definition c_strncpy (m : memory) (d s n : Z) : res memory :=
  k ← c_strnlen (Z.to_nat n) m s;
  m ← c_memcpy m d s k; mem_set m (d + k) 0 (Z.to_nat (n - k)).
Definition c_strncat (m : memory) (d s n : Z) : res memory :=
  e ← c_strlen m d; k ← c_strnlen (Z.to_nat n) m s;
  m ← c_memcpy m (d + e) s k; mem_wr8 m (d + e + k) 0.

Definition c_tolower (b : Z) : Z := if (65 <=? b) && (b <=? 90) then b + 32 else b.

(** [strcmp], [strncmp], [strcasecmp] ([fold] is applied to the bytes) and
    [memcmp] ([stop] is false): 0, or [cmp] of the first bytes that differ. *)
Fixpoint c_compare (n : nat) (m : memory) (fold : Z → Z) (stop : bool)
    (cmp : Z → Z → Z) (a b : Z) : res Z :=
  match n with
  | O => Ok 0
  | S n =>
      x ← mem_rd8 m a; y ← mem_rd8 m b;
      if negb (fold x =? fold y) then Ok (cmp (fold x) (fold y))
      else if stop && (x =? 0) then Ok 0
      else c_compare n m fold stop cmp (a + 1) (b + 1)
  end.

(** [strchr] and [strrchr]: the address, 0 when there is none. *)
Fixpoint c_strchr (fuel : nat) (m : memory) (s c : Z) : res Z :=
  match fuel with
  | O => Fail NoFuel
  | S fuel =>
      b ← mem_rd8 m s;
      if b =? c then Ok s else if b =? 0 then Ok 0 else c_strchr fuel m (s + 1) c
  end.
Fixpoint c_strrchr (fuel : nat) (m : memory) (s c last : Z) : res Z :=
  match fuel with
  | O => Fail NoFuel
  | S fuel =>
      b ← mem_rd8 m s;
      let last := if b =? c then s else last in
      if b =? 0 then Ok last else c_strrchr fuel m (s + 1) c last
  end.

(** ** Instructions that change the memory, the stack pointer or the unit *)

(** The stack pointer grows upwards, [ALLOCATRACEPEAK] keeps its maximum. *)
Definition trace_peak (u : vm_unit) (f : vm_frame) : vm_unit :=
  upd_peak u (VMIR_MAX (u_peak u) (f_allocaptr f)).

Definition alloca_align (f : vm_frame) (a : Z) : vm_frame :=
  set_allocaptr f (VMIR_ALIGN (f_allocaptr f) a).

Definition stack_push (u : vm_unit) (f : vm_frame) (size skip : Z) : res vm_next :=
  let f := set_allocaptr f (f_allocaptr f + size) in next f (trace_peak u f) skip.

Definition exec_stack (op : vm_op) (u : vm_unit) (f : vm_frame) : res vm_next :=
  match op with
  | VM_ALLOCA =>
      a ← Iw u f 1; let f := alloca_align f a in
      u ← AR32 u f 0 (f_allocaptr f);
      n ← UIMM32 u f 2; stack_push u f n 4
  | VM_ALLOCAD =>
      a ← Iw u f 1; let f := alloca_align f a in
      n ← UIMM32 u f 3; k ← R32 u f 2;
      let r := f_allocaptr f in
      let f' := set_allocaptr f (r + n * k) in
      u ← AR32 (trace_peak u f') f 0 r; next f' u 5
  | VM_STACKSHRINK =>
      n ← UIMM32 u f 0; next (set_allocaptr f (f_allocaptr f - n)) u 2
  | VM_STACKSAVE => u ← AR32 u f 0 (f_allocaptr f); next f u 1
  | VM_STACKRESTORE => v ← R32 u f 0; next (set_allocaptr f v) u 1
  | VM_STACKCOPYR =>
      let f := alloca_align f 4 in
      u ← AR32 u f 0 (f_allocaptr f);
      s ← R32 u f 1; n ← UIMM32 u f 2;
      m ← c_memcpy (u_mem u) (f_allocaptr f) s n;
      stack_push (upd_mem u m) f n 4
  | VM_STACKCOPYC =>
      let f := alloca_align f 4 in
      u ← AR32 u f 0 (f_allocaptr f);
      s ← UIMM32 u f 1; n ← UIMM32 u f 3;
      m ← c_memcpy (u_mem u) (f_allocaptr f) s n;
      stack_push (upd_mem u m) f n 5
  | _ => Fail Undef
  end.

(** A function that returns its first argument: register 0. *)
Definition ret_dst (u : vm_unit) (f : vm_frame) (m : memory) (r skip : Z) : res vm_next :=
  ret32 (upd_mem u m) f r skip.

Definition exec_mem (op : vm_op) (u : vm_unit) (f : vm_frame) (cmp : Z → Z → Z)
    : res vm_next :=
  match op with
  | VM_MEMCPY =>
      d ← R32 u f 1; s ← R32 u f 2; n ← R32 u f 3;
      m ← c_memcpy (u_mem u) d s n; ret_dst u f m d 4
  | VM_MEMSET =>
      d ← R32 u f 1; v ← R32 u f 2; n ← R32 u f 3;
      m ← mem_set (u_mem u) d v (Z.to_nat n); ret_dst u f m d 4
  | VM_MEMMOVE =>
      d ← R32 u f 1; s ← R32 u f 2; n ← R32 u f 3;
      m ← c_memmove (u_mem u) d s n; ret_dst u f m d 4
  | VM_LLVM_MEMCPY =>
      d ← R32 u f 0; s ← R32 u f 1; n ← R32 u f 2;
      m ← c_memcpy (u_mem u) d s n; next f (upd_mem u m) 3
  | VM_LLVM_MEMSET =>
      d ← R32 u f 0; v ← R8 u f 1; n ← R32 u f 2;
      m ← mem_set (u_mem u) d v (Z.to_nat n); next f (upd_mem u m) 3
  | VM_LLVM_MEMSET64 =>
      d ← R32 u f 0; v ← R8 u f 1; n ← R64 u f 2;
      m ← mem_set (u_mem u) d v (Z.to_nat n); next f (upd_mem u m) 3
  | VM_MEMCMP =>
      a ← R32 u f 1; b ← R32 u f 2; n ← R32 u f 3;
      v ← c_compare (Z.to_nat n) (u_mem u) id false cmp a b; ret32 u f v 4
  | _ => Fail Undef
  end.

Definition exec_str (h : vm_host) (op : vm_op) (u : vm_unit) (f : vm_frame) : res vm_next :=
  let m := u_mem u in let all := S (Z.to_nat (mem_size m)) in
  a ← R32 u f 1;
  match op with
  | VM_STRCPY => s ← R32 u f 2; m ← c_strcpy m a s; ret_dst u f m a 3
  | VM_STRCAT => s ← R32 u f 2; m ← c_strcat m a s; ret_dst u f m a 3
  | VM_STRNCPY =>
      s ← R32 u f 2; n ← R32 u f 3; m ← c_strncpy m a s n; ret_dst u f m a 4
  | VM_STRNCAT =>
      s ← R32 u f 2; n ← R32 u f 3; m ← c_strncat m a s n; ret_dst u f m a 4
  | VM_STRCMP => b ← R32 u f 2; v ← c_compare all m id true (h_compare h) a b; ret32 u f v 3
  | VM_STRCASECMP =>
      b ← R32 u f 2; v ← c_compare all m c_tolower true (h_compare h) a b; ret32 u f v 3
  | VM_STRNCMP =>
      b ← R32 u f 2; n ← R32 u f 3;
      v ← c_compare (Z.to_nat n) m id true (h_compare h) a b; ret32 u f v 4
  | VM_STRCHR => c ← R32 u f 2; v ← c_strchr all m a (u8 c); ret32 u f v 3
  | VM_STRRCHR => c ← R32 u f 2; v ← c_strrchr all m a (u8 c) 0; ret32 u f v 3
  | VM_STRLEN => v ← c_strlen m a; ret32 u f v 2
  | VM_STRDUP => ret32 u f (h_strdup h m a) 2
  | _ => Fail Undef
  end.

(** A [va_list] in guest memory is the host address of the arguments, which
    lie below it. *)
Definition vm_vaarg (h : vm_host) (u : vm_unit) (size ptr : Z) : res (vm_unit * Z) :=
  p ← mem_rd64 (u_mem u) ptr;
  let p := p - size in
  v ← rd_le (Z.to_nat size) (u_regs u) (p - h_rf_base h);
  m ← mem_wr64 (u_mem u) ptr p; Ok (upd_mem u m, v).

Definition exec_va (h : vm_host) (op : vm_op) (u : vm_unit) (f : vm_frame) : res vm_next :=
  match op with
  | VM_VAARG32 => a ← R32 u f 1; '(u, v) ← vm_vaarg h u 4 a; ret32 u f v 2
  | VM_VAARG64 => a ← R32 u f 1; '(u, v) ← vm_vaarg h u 8 a; ret64 u f v 2
  | VM_VASTART =>
      a ← R32 u f 0; o ← S32v u f 1;
      m ← mem_wr64 (u_mem u) a (h_rf_base h + f_rf f + o); next f (upd_mem u m) 2
  | VM_VACOPY =>
      d ← R32 u f 0; s ← R32 u f 1; p ← mem_rd64 (u_mem u) s;
      m ← mem_wr64 (u_mem u) d p; next f (upd_mem u m) 2
  | _ => Fail Undef
  end.

(** Without [__builtin_umul_overflow] the product is a [uint32_t] before it is
    looked at as a [uint64_t]. *)
Definition exec_ovf (h : vm_host) (op : vm_op) (u : vm_unit) (f : vm_frame) : res vm_next :=
  a ← R32 u f 2; b ← R32 u f 3;
  let go v o := u ← AR32 u f 1 (bool_to_Z o); u ← AR32 u f 0 v; next f u 4 in
  match op with
  | VM_UADDO32 => go (u32 (a + b)) (4294967295 - a <? b)
  | VM_UMULO32 =>
      if h_has_builtin h then go (u32 (a * b)) (2 ^ 32 <=? a * b)
      else let p := u32 (a * b) in go (u32 p) (negb (Z.shiftr p 32 =? 0))
  | _ => Fail Undef
  end.

Definition exec_misc (op : vm_op) (u : vm_unit) (f : vm_frame) : res vm_next :=
  match op with
  | VM_NOP => next f u 0
  | VM_UNREACHABLE => Ok (N_stop u VM_STOP_UNREACHABLE 0)
  | VM_LANDINGPAD =>
      u ← AR32 u f 0 (x_exception (u_exception u));
      u ← AR32 u f 1 (x_type_info (u_exception u)); next f u 2
  | VM_RESUME =>
      x ← R32 u f 0; t ← R32 u f 1;
      let e := u_exception u in
      Ok (N_ret (upd_exception u (mk_exc x t (x_uncaught e) (x_caught e))) 1)
  | VM_INSTRUMENT_COUNT =>
      i ← UIMM32 u f 0;
      c ← oget (u_counts u !! Z.to_nat i) Undef;
      next f (upd_counts u (<[Z.to_nat i := s64 (c + 1)]> (u_counts u))) 2
  | _ => Fail Undef
  end.

(** ** Calls *)

(** [I[-1] = op]: the instruction is rewritten in the text. *)
Definition patch (u : vm_unit) (f : vm_frame) (op : vm_op) : vm_unit :=
  upd_funcs u (alter (λ t, (λ t, <[Z.to_nat (f_I f - 1) := vm_opcode op]> t) <$> t)
                 (Z.to_nat (f_func f)) (u_vm_funcs u)).

(** A call passes [rf + I[1]] as the frame and [rf + I[2]] for the result. *)
Definition do_call (u : vm_unit) (f : vm_frame) (g : Z) (ext : bool) (k : vm_kont)
    : res vm_next :=
  a ← Iw u f 1; r ← Iw u f 2;
  Ok (N_call u f g ext (f_rf f + a) (f_rf f + r) k).

Definition is_ext (h : vm_host) (g : Z) : bool :=
  match h_function_table h g with Some _ => true | None => false end.

Definition has_text (u : vm_unit) (g : Z) : bool :=
  match u_vm_funcs u !! Z.to_nat g with Some (Some _) => true | _ => false end.

(** [JSR_R] and [INVOKE_R]; [k] follows an external function. *)
Definition call_indirect (h : vm_host) (u : vm_unit) (f : vm_frame) (kext kvm : vm_kont)
    : res vm_next :=
  g ← R32 u f 0;
  let bad := Ok (N_stop u VM_STOP_BAD_FUNCTION (s32 g)) in
  if h_num_functions h <=? g then bad
  else if has_text u g then do_call u f g false kvm
  else if is_ext h g then do_call u f g true kext
  else bad.

Definition exec_call (h : vm_host) (op : vm_op) (u : vm_unit) (f : vm_frame) : res vm_next :=
  match op with
  | VM_JSR =>
      g ← Iw u f 0;
      if is_ext h g then do_call (patch u f VM_JSR_EXT) f g true K_jsr
      else do_call (patch u f VM_JSR_VM) f g false K_jsr
  | VM_JSR_VM => g ← Iw u f 0; do_call u f g false K_jsr
  | VM_JSR_EXT => g ← Iw u f 0; do_call u f g true K_jsr
  | VM_JSR_R => call_indirect h u f K_ignore K_jsr
  | VM_INVOKE => g ← Iw u f 0; do_call u f g (is_ext h g) K_invoke
  | VM_INVOKE_VM => g ← Iw u f 0; do_call u f g false K_invoke
  | VM_INVOKE_EXT => g ← Iw u f 0; do_call u f g true K_invoke
  | VM_INVOKE_R => call_indirect h u f K_invoke K_invoke
  | _ => Fail Undef
  end.

(** ** The dispatch and the loop *)

(** Which group of cases an opcode belongs to. *)
Inductive vm_group : Type :=
  | G_ret | G_branch | G_call | G_small | G_incdec | G_load | G_store | G_mov | G_lea
  | G_cast_int | G_cast_fp | G_switch | G_select | G_bits | G_stack | G_mem | G_str
  | G_va | G_ovf | G_misc | G_jit.

Definition vm_op_group (op : vm_op) : vm_group :=
  match op with
  | VM_JIT_CALL => G_jit
  | VM_RET_VOID | VM_RET_R32 | VM_RET_R64 | VM_RET_R32C | VM_RET_R64C => G_ret
  | VM_B | VM_BCOND => G_branch
  | VM_JSR | VM_JSR_R | VM_JSR_VM | VM_JSR_EXT | VM_INVOKE | VM_INVOKE_R | VM_INVOKE_VM
  | VM_INVOKE_EXT => G_call
  | VM_SDIV_R8 | VM_SREM_R8 | VM_ASHR_R8 | VM_SDIV_R8C | VM_SREM_R8C | VM_ASHR_R8C
  | VM_SDIV_R16 | VM_SREM_R16 | VM_ASHR_R16 => G_small
  | VM_INC_R32 | VM_DEC_R32 | VM_MLA32 | VM_ABS => G_incdec
  | VM_LOAD8 | VM_LOAD8_G | VM_LOAD8_OFF | VM_LOAD8_ZEXT_32_OFF | VM_LOAD8_SEXT_32_OFF
  | VM_LOAD8_ROFF | VM_LOAD8_ZEXT_32_ROFF | VM_LOAD8_SEXT_32_ROFF
  | VM_LOAD16 | VM_LOAD16_G | VM_LOAD16_OFF | VM_LOAD16_ZEXT_32_OFF
  | VM_LOAD16_SEXT_32_OFF | VM_LOAD16_ROFF | VM_LOAD16_ZEXT_32_ROFF
  | VM_LOAD16_SEXT_32_ROFF | VM_LOAD32 | VM_LOAD32_G | VM_LOAD32_OFF | VM_LOAD32_ROFF
  | VM_LOAD64 | VM_LOAD64_G | VM_LOAD64_OFF | VM_LOAD64_ROFF => G_load
  | VM_STORE8_G | VM_STORE8 | VM_STORE8C_OFF | VM_STORE8_OFF | VM_STORE16_G | VM_STORE16
  | VM_STORE16C_OFF | VM_STORE16_OFF | VM_STORE32_G | VM_STORE32C_OFF | VM_STORE32
  | VM_STORE32_OFF | VM_STORE64_G | VM_STORE64C_OFF | VM_STORE64 | VM_STORE64_OFF => G_store
  | VM_MOV32 | VM_MOV64 | VM_MOV8_C | VM_MOV16_C | VM_MOV32_C | VM_MOV64_C => G_mov
  | VM_LEA_R32_SHL | VM_LEA_R32_SHL2 | VM_LEA_R32_SHL_OFF | VM_LEA_R32_MUL_OFF => G_lea
  | VM_JUMPTABLE | VM_SWITCH8_BS | VM_SWITCH32_BS | VM_SWITCH64_BS => G_switch
  | VM_SELECT32RR | VM_SELECT32RC | VM_SELECT32CR | VM_SELECT32CC | VM_SELECT64RR
  | VM_SELECT64RC | VM_SELECT64CR | VM_SELECT64CC => G_select
  | VM_CTZ32 | VM_CLZ32 | VM_POP32 | VM_CTZ64 | VM_CLZ64 | VM_POP64 => G_bits
  | VM_ALLOCA | VM_ALLOCAD | VM_STACKSHRINK | VM_STACKCOPYR | VM_STACKCOPYC
  | VM_STACKSAVE | VM_STACKRESTORE => G_stack
  | VM_MEMMOVE | VM_MEMCMP | VM_MEMCPY | VM_MEMSET | VM_LLVM_MEMCPY | VM_LLVM_MEMSET
  | VM_LLVM_MEMSET64 => G_mem
  | VM_STRCMP | VM_STRCASECMP | VM_STRLEN | VM_STRDUP | VM_STRCHR | VM_STRRCHR
  | VM_STRNCMP | VM_STRCPY | VM_STRNCPY | VM_STRCAT | VM_STRNCAT => G_str
  | VM_VASTART | VM_VAARG32 | VM_VAARG64 | VM_VACOPY => G_va
  | VM_UADDO32 | VM_UMULO32 => G_ovf
  | VM_NOP | VM_UNREACHABLE | VM_LANDINGPAD | VM_RESUME | VM_INSTRUMENT_COUNT => G_misc
  | VM_CAST_1_TRUNC_8 | VM_CAST_1_TRUNC_16 | VM_CAST_8_ZEXT_1 | VM_CAST_8_SEXT_1
  | VM_CAST_8_TRUNC_16 | VM_CAST_8_TRUNC_32 | VM_CAST_8_TRUNC_64 | VM_CAST_16_ZEXT_1
  | VM_CAST_16_ZEXT_8 | VM_CAST_16_SEXT_8 | VM_CAST_16_TRUNC_32 | VM_CAST_16_TRUNC_64
  | VM_CAST_32_TRUNC_64 | VM_CAST_32_SEXT_1 | VM_CAST_32_ZEXT_8 | VM_CAST_32_SEXT_8
  | VM_CAST_32_ZEXT_16 | VM_CAST_32_SEXT_16 | VM_CAST_64_ZEXT_1 | VM_CAST_64_SEXT_1
  | VM_CAST_64_ZEXT_8 | VM_CAST_64_SEXT_8 | VM_CAST_64_ZEXT_16 | VM_CAST_64_SEXT_16
  | VM_CAST_64_ZEXT_32 | VM_CAST_64_SEXT_32 => G_cast_int
  | _ => G_cast_fp
  end.

(** The case of an opcode; [I] is already past it. [JIT_CALL] is not emitted
    by this build and its target is not mapped. *)
Definition vm_case (h : vm_host) (op : vm_op) (u : vm_unit) (f : vm_frame) : res vm_next :=
  match op with
  | VM_BIN k o => exec_bin u f k o
  | VM_FBIN k o => exec_fbin u f k o
  | VM_CMP k p => exec_cmp u f k p
  | VM_FCMP k p => exec_fcmp u f k p
  | VM_CMP_BR k p => exec_cmp_br u f k p
  | VM_CMP_SEL k p => exec_cmp_sel u f k p
  | VM_MATH single m => exec_math u f h single m
  | _ =>
      match vm_op_group op with
      | G_ret => exec_ret u f op
      | G_branch => exec_b u f op
      | G_call => exec_call h op u f
      | G_small => exec_small u f op
      | G_incdec => exec_incdec u f op
      | G_load => exec_load u f op
      | G_store => exec_store u f op
      | G_mov => exec_mov u f op
      | G_lea => exec_lea u f op
      | G_cast_int => exec_cast_int u f op
      | G_cast_fp => exec_cast_fp u f op
      | G_switch => exec_switch u f op
      | G_select => exec_select u f op
      | G_bits => exec_bits u f op
      | G_stack => exec_stack op u f
      | G_mem => exec_mem op u f (h_compare h)
      | G_str => exec_str h op u f
      | G_va => exec_va h op u f
      | G_ovf => exec_ovf h op u f
      | G_misc => exec_misc op u f
      | G_jit => Fail Undef
      end
  end.

(** [opc = *I++; switch(opc)]. *)
Definition vm_step (h : vm_host) (u : vm_unit) (f : vm_frame) : res vm_next :=
  opc ← Iw u f 0;
  match vm_decode (s16 opc) with
  | Some op => vm_case h op u (set_I f (f_I f + 1))
  | None => Ok (N_stop u VM_STOP_BAD_INSTRUCTION 0)
  end.

(** [vm_exec]: the loop over instructions, and itself for a call. The fuel
    bounds the instructions run and the depth of the calls. *)
Fixpoint vm_exec (fuel : nat) (h : vm_host) (u : vm_unit) (f : vm_frame) : res vm_result :=
  match fuel with
  | O => Fail NoFuel
  | S fuel =>
      nx ← vm_step h u f;
      match nx with
      | N_go u f => vm_exec fuel h u f
      | N_ret u r => Ok (R_return u r)
      | N_stop u reason code => Ok (R_stop u reason code)
      | N_call u f g ext rf ret k =>
          out ← (if ext then fn ← oget (h_function_table h g) Undef; fn u ret rf
                 else vm_exec fuel h u (mk_frame g 0 rf ret (f_allocaptr f)));
          match out with
          | R_stop u reason code => Ok (R_stop u reason code)
          | R_return u r =>
              match k with
              | K_jsr => if r =? 0 then vm_exec fuel h u (set_I f (f_I f + 3))
                         else Ok (R_return u r)
              | K_ignore => vm_exec fuel h u (set_I f (f_I f + 3))
              | K_invoke => o ← Iw u f (3 + r); f ← branch_frame f o; vm_exec fuel h u f
              end
          end
      end
  end.
