(* ===== verification/Instr.v ===== *)
(** Instructions and basic blocks: the structures of
    [src/src/vmir_instr_parse.c] and [ir_bb_t], for the instructions that
    reach the code generator. *)
From S2P Require Import Prelude Support Types Values VmOps.
Local Open Scope Z_scope.

(** [ir_valuetype_t]. *)
Record ir_valuetype := mk_vt { vt_value : Z; vt_type : Z }.

(** [ii_ret] and [ii_rets]: [-1] no value, below [-1] that many values. *)
Record ir_ret := mk_ret { ii_ret : ir_valuetype; ii_rets : list ir_valuetype }.

(** [ir_instr_load_t]; [cast] is -1 when the load does not convert. *)
Record ir_load := mk_load {
  ld_ptr : ir_valuetype;
  ld_immediate_offset : Z;
  ld_value_offset : ir_valuetype;
  ld_value_offset_multiply : Z;
  ld_cast : Z;
  ld_load_type : Z;
}.

(** [ir_instr_call_t]; [ca_copy_sizes] are the [copy_size]s of the arguments. *)
Record ir_call := mk_call {
  ca_callee : ir_valuetype;
  ca_vmop : Z;
  ca_normal_dest : Z;
  ca_unwind_dest : Z;
  ca_argv : list ir_valuetype;
  ca_copy_sizes : list Z;
}.

(** [ir_instr_path_t]. *)
Record ir_path := mk_path { pa_v64 : Z; pa_block : Z }.

(** [ir_phi_node_t] and [ir_gep_index_t]. *)
Record ir_phi_node := mk_phi { phi_predecessor : Z; phi_value : ir_valuetype }.
Record ir_gep_index := mk_gep { gep_value : ir_valuetype; gep_type : Z }.

#[export] Instance ir_valuetype_eq_dec : EqDecision ir_valuetype.
Proof. solve_decision. Defined.

Inductive ir_instr : Type :=
  | IR_IC_RET (value : ir_valuetype)
  | IR_IC_BINOP (op : Z) (lhs rhs : ir_valuetype) (ret : ir_ret)
  | IR_IC_LOAD (l : ir_load) (ret : ir_ret)
  | IR_IC_CMP2 (op : Z) (lhs rhs : ir_valuetype) (ret : ir_ret)
  | IR_IC_BR (condition : ir_valuetype) (true_branch false_branch : Z)
  | IR_IC_MOVE (value : ir_valuetype) (ret : ir_ret)
  | IR_IC_STORE (ptr value : ir_valuetype) (immediate_offset : Z)
  | IR_IC_LEA (baseptr : ir_valuetype) (immediate_offset : Z)
              (value_offset : ir_valuetype) (value_offset_multiply : Z) (ret : ir_ret)
  | IR_IC_CAST (op : Z) (value : ir_valuetype) (ret : ir_ret)
  | IR_IC_CALL (c : ir_call) (ret : ir_ret)
  | IR_IC_INVOKE (c : ir_call) (ret : ir_ret)
  | IR_IC_SWITCH (value : ir_valuetype) (defblock : Z) (paths : list ir_path)
  | IR_IC_ALLOCA (size : Z) (num_items : ir_valuetype) (alignment : Z) (ret : ir_ret)
  | IR_IC_VAARG (value : ir_valuetype) (ret : ir_ret)
  | IR_IC_SELECT (true_value false_value pred : ir_valuetype) (ret : ir_ret)
  | IR_IC_VMOP (c : ir_call) (ret : ir_ret)
  | IR_IC_LANDINGPAD (ret : ir_ret)
  | IR_IC_RESUME (values : list ir_valuetype)
  | IR_IC_STACKCOPY (value : ir_valuetype) (size : Z) (ret : ir_ret)
  | IR_IC_STACKSHRINK (size : Z)
  | IR_IC_UNREACHABLE
  | IR_IC_CMP_BRANCH (op : Z) (lhs rhs : ir_valuetype) (true_branch false_branch : Z)
  | IR_IC_CMP_SELECT (op : Z) (lhs rhs true_value false_value : ir_valuetype) (ret : ir_ret)
  | IR_IC_MLA (arg1 arg2 arg3 : ir_valuetype) (ret : ir_ret)
  | IR_IC_GEP (baseptr : ir_valuetype) (indicies : list ir_gep_index) (ret : ir_ret)
  | IR_IC_PHI (nodes : list ir_phi_node) (ret : ir_ret)
  | IR_IC_EXTRACTVAL (value : ir_valuetype) (indicies : list Z) (ret : ir_ret)
  | IR_IC_INSERTVAL (src replacement : ir_valuetype) (indicies : list Z) (ret : ir_ret).

(** [ii_ret] as [instr_create] sets it. *)
Definition no_ret : ir_ret := mk_ret (mk_vt (-1) (-1)) [].

(** [ii->ii_ret] and [ii->ii_rets]. *)
Definition instr_ret (i : ir_instr) : ir_ret :=
  match i with
  | IR_IC_BINOP _ _ _ d | IR_IC_LOAD _ d | IR_IC_CMP2 _ _ _ d | IR_IC_MOVE _ d
  | IR_IC_LEA _ _ _ _ d | IR_IC_CAST _ _ d | IR_IC_CALL _ d | IR_IC_INVOKE _ d
  | IR_IC_ALLOCA _ _ _ d | IR_IC_VAARG _ d | IR_IC_SELECT _ _ _ d | IR_IC_VMOP _ d
  | IR_IC_LANDINGPAD d | IR_IC_STACKCOPY _ _ d | IR_IC_CMP_SELECT _ _ _ _ _ d
  | IR_IC_MLA _ _ _ d | IR_IC_GEP _ _ d | IR_IC_PHI _ d | IR_IC_EXTRACTVAL _ _ d
  | IR_IC_INSERTVAL _ _ _ d => d
  | _ => no_ret
  end.

(** The values an instruction writes. *)
Definition ret_values (d : ir_ret) : res (list ir_valuetype) :=
  let n := vt_value (ii_ret d) in
  if n <? -1 then
    _ ← check (- n <=? Z.of_nat (length (ii_rets d))) Undef;
    Ok (take (Z.to_nat (- n)) (ii_rets d))
  else if n =? -1 then Ok [] else Ok [ii_ret d].

(** [ir_bb_t]: its number and its instructions. *)
Record ir_bb := mk_bb { ib_id : Z; ib_instrs : list ir_instr }.

(** [bb_find]. *)
Definition bb_find (bbs : list ir_bb) (id : Z) : option ir_bb :=
  snd <$> list_find (λ b, ib_id b = id) bbs.

(** ** Predicates as the integers of the bitcode *)

Definition is_fcmp (pred : Z) : bool :=
  (fcmp_code FCMP_OEQ <=? pred) && (pred <=? fcmp_code FCMP_UNE).
Definition is_icmp (pred : Z) : bool :=
  (icmp_code ICMP_EQ <=? pred) && (pred <=? icmp_code ICMP_SLE).

Definition swap_fcmp (p : fcmp) : fcmp :=
  match p with
  | FCMP_OGT => FCMP_OLT | FCMP_OLT => FCMP_OGT | FCMP_OGE => FCMP_OLE
  | FCMP_OLE => FCMP_OGE | FCMP_UGT => FCMP_ULT | FCMP_ULT => FCMP_UGT
  | FCMP_UGE => FCMP_ULE | FCMP_ULE => FCMP_UGE | p => p
  end.

(** The predicate of a code. *)
Definition icmp_of (pred : Z) : option icmp := icmps !! Z.to_nat (pred - 32).
Definition fcmp_of (pred : Z) : option fcmp := fcmps !! Z.to_nat (pred - 1).

(** [swap_pred] aborts on a code it does not know; 0 and 15 are
    [FCMP_FALSE] and [FCMP_TRUE]. *)
Definition swap_pred_code (pred : Z) : res Z :=
  if is_icmp pred then p ← oget (icmp_of pred) Aborted; Ok (icmp_code (swap_pred p))
  else if is_fcmp pred then p ← oget (fcmp_of pred) Aborted; Ok (fcmp_code (swap_fcmp p))
  else if (pred =? 0) || (pred =? 15) then Ok pred
  else Fail Aborted.

Lemma icmp_of_code p : icmp_of (icmp_code p) = Some p.
Proof. by destruct p. Qed.

Lemma is_icmp_code p : is_icmp (icmp_code p) = true.
Proof. by destruct p. Qed.

Lemma is_fcmp_icmp p : is_fcmp (icmp_code p) = false.
Proof. by destruct p. Qed.

Lemma is_icmp_inv pred : is_icmp pred = true → ∃ p, pred = icmp_code p.
Proof.
  unfold is_icmp; simpl. intros H. apply andb_prop in H as [H1 H2].
  assert (∃ n, (n < 10)%nat ∧ pred = 32 + Z.of_nat n) as (n & Hn & ->).
  { exists (Z.to_nat (pred - 32)). lia. }
  do 10 (destruct n as [|n]; [eexists; match goal with |- ?x = _ =>
    let p := eval vm_compute in (icmp_of x) in
    match p with Some ?q => instantiate (1 := q) end end; reflexivity|]). lia.
Qed.

Lemma swap_pred_code_icmp p : swap_pred_code (icmp_code p) = Ok (icmp_code (swap_pred p)).
Proof. by destruct p. Qed.

(** Comparing in the other order. *)
Lemma c_icmp_swap w p l r : c_icmp w (swap_pred p) r l = c_icmp w p l r.
Proof.
  destruct p; unfold c_icmp; simpl; try done; first [apply Z.eqb_sym|f_equal; apply Z.eqb_sym].
Qed.
