(* ===== verification/Emit.v ===== *)
(** The code generator of [src/src/vmir_vm.c]: [emit_*], one function per
    class of instruction, [branch_fixup] and [vm_emit_function], in the build
    that [Vm] models. Text is the list of 16-bit words written so far. *)
From S2P Require Import Prelude Support Types Values VmOps Instr Fp.
Local Open Scope Z_scope.

(** ** The text buffer *)

(** [iu_text_ptr] as the words before it, what the buffer [iu_text_alloc]
    held from earlier functions, [iu_text_alloc_memsize], and
    [iu_branch_fixups] (byte offsets). *)
Record emit_state := mk_emit {
  e_text : list Z;
  e_stale : nat → Z;
  e_memsize : Z;
  e_fixups : list Z;
}.

(** [iu_text_ptr - iu_text_alloc]. *)
Definition text_pos (e : emit_state) : Z := 2 * Z.of_nat (length (e_text e)).

Definition emit_append (e : emit_state) (ws : list Z) : emit_state :=
  mk_emit (e_text e ++ ws) (e_stale e) (e_memsize e) (e_fixups e).

Definition emit_room (e : emit_state) (size : Z) : res unit :=
  check (text_pos e + size <? e_memsize e) ParserError.

Definition emit_i16 (e : emit_state) (i16 : Z) : res emit_state :=
  _ ← emit_room e 2; Ok (emit_append e [u16 i16]).

(** Only the low byte is written; the text is kept aligned to 16 bits. *)
Definition emit_i8 (e : emit_state) (i8 : Z) : res emit_state :=
  _ ← emit_room e 2;
  Ok (emit_append e [256 * u8 (Z.shiftr (e_stale e (length (e_text e))) 8) + u8 i8]).

Definition words32 (v : Z) : list Z := [u16 v; u16 (Z.shiftr v 16)].
Definition words64 (v : Z) : list Z := words32 v ++ words32 (Z.shiftr v 32).

Definition emit_i32 (e : emit_state) (i32 : Z) : res emit_state :=
  _ ← emit_room e 4; Ok (emit_append e (words32 i32)).
Definition emit_i64 (e : emit_state) (i64 : Z) : res emit_state :=
  _ ← emit_room e 8; Ok (emit_append e (words64 i64)).

(** [emit_data] and the words that are stored there. *)
Definition emit_data (e : emit_state) (ws : list Z) : res emit_state :=
  _ ← emit_room e (2 * Z.of_nat (length ws)); Ok (emit_append e ws).

(** Words one after the other: [emit_op], [emit_op1] to [emit_op4]. *)
Definition emit_words (e : emit_state) (ws : list Z) : res emit_state := foldR emit_i16 e ws.

Definition emit_op (e : emit_state) (op : Z) : res emit_state := emit_words e [op].
Definition emit_op1 (e : emit_state) (op a : Z) : res emit_state := emit_words e [op; a].
Definition emit_op2 (e : emit_state) (op a b : Z) : res emit_state :=
  emit_words e [op; a; b].
Definition emit_op3 (e : emit_state) (op a b c : Z) : res emit_state :=
  emit_words e [op; a; b; c].
Definition emit_op4 (e : emit_state) (op a b c d : Z) : res emit_state :=
  emit_words e [op; a; b; c; d].

Definition vm_align32 (e : emit_state) (imm_at_odd : bool) : res emit_state :=
  if Bool.eqb imm_at_odd (Nat.odd (length (e_text e))) then Ok e
  else emit_op e (vm_opcode VM_NOP).

(** [VECTOR_PUSH_BACK(&iu->iu_branch_fixups, textpos)]. *)
Definition push_fixup (e : emit_state) : emit_state :=
  mk_emit (e_text e) (e_stale e) (e_memsize e) (e_fixups e ++ [text_pos e]).

(** ** One function per instruction *)

Section emitters.
Context (vs : value_state).
Let types : list ir_type := iu_types (vs_types vs).

Definition vget (v : ir_valuetype) : res ir_value := value_get vs (vt_value v).
Definition lget (v : ir_valuetype) : res ir_type_code :=
  it ← type_get types (vt_type v); Ok (legalize_type it).
(** [value_reg(value_get(iu, v))]. *)
Definition vreg (v : ir_valuetype) : res Z := iv ← vget v; value_reg iv.
Definition rreg (r : ir_ret) : res Z := vreg (ii_ret r).
Definition const32 (iv : ir_value) : res Z := value_get_const32 types iv.
Definition const64 (iv : ir_value) : res Z := value_get_const64 types iv.

Definition emit_ret (value : ir_valuetype) (e : emit_state) : res emit_state :=
  if vt_value value =? -1 then emit_op e (vm_opcode VM_RET_VOID)
  else
    iv ← vget value; code ← lget value;
    match iv_class iv, code with
    | IR_VC_REGFRAME,
      (IR_TYPE_INT1 | IR_TYPE_INT8 | IR_TYPE_INT16 | IR_TYPE_INT32 | IR_TYPE_POINTER
       | IR_TYPE_FLOAT) => r ← value_reg iv; emit_op1 e (vm_opcode VM_RET_R32) r
    | IR_VC_REGFRAME, (IR_TYPE_INT64 | IR_TYPE_DOUBLE) =>
        r ← value_reg iv; emit_op1 e (vm_opcode VM_RET_R64) r
    | IR_VC_GLOBALVAR, IR_TYPE_POINTER =>
        e ← emit_op e (vm_opcode VM_RET_R32C); c ← const32 iv; emit_i32 e c
    | IR_VC_CONSTANT,
      (IR_TYPE_INT1 | IR_TYPE_INT8 | IR_TYPE_INT16 | IR_TYPE_INT32 | IR_TYPE_POINTER
       | IR_TYPE_FLOAT) =>
        e ← emit_op e (vm_opcode VM_RET_R32C); c ← const32 iv; emit_i32 e c
    | IR_VC_CONSTANT, (IR_TYPE_INT64 | IR_TYPE_DOUBLE) =>
        e ← vm_align32 e true; e ← emit_op e (vm_opcode VM_RET_R64C);
        c ← const64 iv; emit_i64 e c
    | IR_VC_FUNCTION, _ =>
        e ← emit_op e (vm_opcode VM_RET_R32C); a ← value_function_addr iv; emit_i32 e a
    | _, _ => Fail ParserError
    end.

(** The opcode of a float operator. *)
Definition fbinop_op (k : flt_kind) (binop : Z) : res Z :=
  if binop =? binop_code BINOP_ADD then Ok (vm_opcode (VM_FBIN k F_ADD))
  else if binop =? binop_code BINOP_SUB then Ok (vm_opcode (VM_FBIN k F_SUB))
  else if binop =? binop_code BINOP_MUL then Ok (vm_opcode (VM_FBIN k F_MUL))
  else if (binop =? binop_code BINOP_SDIV) || (binop =? binop_code BINOP_UDIV)
  then Ok (vm_opcode (VM_FBIN k F_DIV))
  else Fail ParserError.

(** The opcode for 8 and 16 bits: three operators have their own. *)
Definition small_op (sdiv srem ashr : vm_op) (dflt binop : Z) : Z :=
  if binop =? binop_code BINOP_SDIV then vm_opcode sdiv
  else if binop =? binop_code BINOP_SREM then vm_opcode srem
  else if binop =? binop_code BINOP_ASHR then vm_opcode ashr
  else dflt + binop.

(** [VM_ADD_R32] and the other first opcodes of the families. *)
Definition VM_ADD (k : bin_kind) : Z := vm_opcode (VM_BIN k BINOP_ADD).

Definition emit_binop_rr (code : ir_type_code) (binop ret lhs rhs : Z) (e : emit_state)
    : res emit_state :=
  match code with
  | IR_TYPE_INT1 | IR_TYPE_INT32 => emit_op3 e (VM_ADD K_R32 + binop) ret lhs rhs
  | IR_TYPE_INT8 =>
      emit_op3 e (small_op VM_SDIV_R8 VM_SREM_R8 VM_ASHR_R8 (VM_ADD K_R32) binop) ret lhs rhs
  | IR_TYPE_INT16 =>
      emit_op3 e (small_op VM_SDIV_R16 VM_SREM_R16 VM_ASHR_R16 (VM_ADD K_R32) binop) ret lhs rhs
  | IR_TYPE_INT64 => emit_op3 e (VM_ADD K_R64 + binop) ret lhs rhs
  | IR_TYPE_DOUBLE => op ← fbinop_op F_DBL binop; emit_op3 e op ret lhs rhs
  | IR_TYPE_FLOAT => op ← fbinop_op F_FLT binop; emit_op3 e op ret lhs rhs
  | _ => Fail ParserError
  end.

Definition is_small_signed (binop : Z) : bool :=
  (binop =? binop_code BINOP_SDIV) || (binop =? binop_code BINOP_SREM)
  || (binop =? binop_code BINOP_ASHR).

(** Adding 1 or subtracting -1, and the other way round. *)
Definition is_inc (binop c : Z) : bool :=
  ((binop =? binop_code BINOP_ADD) && (c =? 1))
  || ((binop =? binop_code BINOP_SUB) && (c =? 4294967295)).
Definition is_dec (binop c : Z) : bool :=
  ((binop =? binop_code BINOP_ADD) && (c =? 4294967295))
  || ((binop =? binop_code BINOP_SUB) && (c =? 1)).

Definition emit_binop_rc (code : ir_type_code) (binop ret lhs : Z) (rhs : ir_value)
    (e : emit_state) : res emit_state :=
  match code with
  | IR_TYPE_INT8 =>
      if is_small_signed binop then
        e ← emit_op2 e (small_op VM_SDIV_R8C VM_SREM_R8C VM_ASHR_R8C 0 binop) ret lhs;
        c ← const32 rhs; emit_i8 e c
      else
        e ← emit_op2 e (VM_ADD K_R16C + binop) ret lhs;
        c ← const32 rhs; emit_i16 e (Z.land c 255)
  | IR_TYPE_INT16 =>
      e ← emit_op2 e (VM_ADD K_R16C + binop) ret lhs; c ← const32 rhs; emit_i16 e c
  | IR_TYPE_INT1 | IR_TYPE_INT32 =>
      c ← const32 rhs;
      if is_inc binop c then emit_op2 e (vm_opcode VM_INC_R32) ret lhs
      else if is_dec binop c then emit_op2 e (vm_opcode VM_DEC_R32) ret lhs
      else e ← emit_op2 e (VM_ADD K_R32C + binop) ret lhs; emit_i32 e c
  | IR_TYPE_INT64 =>
      e ← vm_align32 e true;
      e ← emit_op2 e (VM_ADD K_R64C + binop) ret lhs; c ← const64 rhs; emit_i64 e c
  | IR_TYPE_DOUBLE =>
      op ← fbinop_op F_DBL_C binop; e ← vm_align32 e true;
      e ← emit_op2 e op ret lhs; c ← const64 rhs; emit_i64 e c
  | IR_TYPE_FLOAT =>
      op ← fbinop_op F_FLT_C binop; e ← vm_align32 e true;
      e ← emit_op2 e op ret lhs; c ← const32 rhs; emit_i32 e c
  | _ => Fail ParserError
  end.

Definition emit_binop (op : Z) (lhs rhs : ir_valuetype) (ret : ir_ret) (e : emit_state)
    : res emit_state :=
  l ← vget lhs; r ← vget rhs; d ← vget (ii_ret ret); code ← lget lhs;
  match iv_class l, iv_class r with
  | IR_VC_REGFRAME, IR_VC_REGFRAME =>
      l ← value_reg l; d ← value_reg d; r ← value_reg r;
      emit_binop_rr code op d l r e
  | IR_VC_REGFRAME, IR_VC_CONSTANT =>
      l ← value_reg l; d ← value_reg d; emit_binop_rc code op d l r e
  | _, _ => Fail ParserError
  end.

(** *** Loads and stores *)

(** The words that follow an offset register. *)
Definition emit_roff (roff : option ir_value) (multiply : Z) (e : emit_state)
    : res emit_state :=
  match roff with
  | None => Ok e
  | Some iv => r ← value_reg iv; emit_words e [r; multiply]
  end.

Definition emit_load_off (op op_roff : vm_op) (roff : option ir_value)
    (off multiply ret src : Z) (e : emit_state) : res emit_state :=
  e ← emit_op2 e (vm_opcode (match roff with Some _ => op_roff | None => op end)) ret src;
  e ← emit_i16 e off; emit_roff roff multiply e.

Definition emit_load_g (op : vm_op) (ret : Z) (src : ir_value) (e : emit_state)
    : res emit_state :=
  e ← emit_op1 e (vm_opcode op) ret; c ← const32 src; emit_i32 e c.

Definition emit_load1 (src ret : ir_value) (code : ir_type_code) (roff : option ir_value)
    (off multiply : Z) (e : emit_state) : res emit_state :=
  let has_offset := negb (off =? 0) || match roff with Some _ => true | None => false end in
  _ ← check ((INT16_MIN <=? off) && (off <=? INT16_MAX)) AssertFail;
  match iv_class src, code, has_offset with
  | IR_VC_REGFRAME, (IR_TYPE_INT1 | IR_TYPE_INT8), false =>
      d ← value_reg ret; s ← value_reg src; emit_op2 e (vm_opcode VM_LOAD8) d s
  | IR_VC_REGFRAME, IR_TYPE_INT8, true =>
      d ← value_reg ret; s ← value_reg src;
      emit_load_off VM_LOAD8_OFF VM_LOAD8_ROFF roff off multiply d s e
  | (IR_VC_CONSTANT | IR_VC_GLOBALVAR), IR_TYPE_INT8, false =>
      d ← value_reg ret; emit_load_g VM_LOAD8_G d src e
  | (IR_VC_CONSTANT | IR_VC_GLOBALVAR), IR_TYPE_INT1, false =>
      e ← emit_load_g VM_LOAD8_G 0 src e;
      d ← value_reg ret; emit_op2 e (vm_opcode VM_CAST_1_TRUNC_8) d 0
  | IR_VC_REGFRAME, IR_TYPE_INT16, false =>
      d ← value_reg ret; s ← value_reg src; emit_op2 e (vm_opcode VM_LOAD16) d s
  | (IR_VC_CONSTANT | IR_VC_GLOBALVAR), IR_TYPE_INT16, false =>
      d ← value_reg ret; emit_load_g VM_LOAD16_G d src e
  | IR_VC_REGFRAME, IR_TYPE_INT16, true =>
      d ← value_reg ret; s ← value_reg src;
      emit_load_off VM_LOAD16_OFF VM_LOAD16_ROFF roff off multiply d s e
  | (IR_VC_CONSTANT | IR_VC_GLOBALVAR),
    (IR_TYPE_INT32 | IR_TYPE_POINTER | IR_TYPE_FLOAT), false =>
      d ← value_reg ret; emit_load_g VM_LOAD32_G d src e
  | IR_VC_REGFRAME, (IR_TYPE_INT32 | IR_TYPE_POINTER | IR_TYPE_FLOAT), false =>
      d ← value_reg ret; s ← value_reg src; emit_op2 e (vm_opcode VM_LOAD32) d s
  | IR_VC_REGFRAME, (IR_TYPE_INT32 | IR_TYPE_POINTER | IR_TYPE_FLOAT), true =>
      d ← value_reg ret; s ← value_reg src;
      emit_load_off VM_LOAD32_OFF VM_LOAD32_ROFF roff off multiply d s e
  | (IR_VC_CONSTANT | IR_VC_GLOBALVAR), (IR_TYPE_INT64 | IR_TYPE_DOUBLE), false =>
      d ← value_reg ret; emit_load_g VM_LOAD64_G d src e
  | IR_VC_REGFRAME, (IR_TYPE_INT64 | IR_TYPE_DOUBLE), false =>
      d ← value_reg ret; s ← value_reg src; emit_op2 e (vm_opcode VM_LOAD64) d s
  | IR_VC_REGFRAME, (IR_TYPE_INT64 | IR_TYPE_DOUBLE), true =>
      d ← value_reg ret; s ← value_reg src;
      emit_load_off VM_LOAD64_OFF VM_LOAD64_ROFF roff off multiply d s e
  | _, _, _ => Fail ParserError
  end.

Definition cast_zext : Z := 1.
Definition cast_sext : Z := 2.

Definition emit_load (l : ir_load) (ret : ir_ret) (e : emit_state) : res emit_state :=
  src ← vget (ld_ptr l);
  roff ← (if 0 <=? vt_value (ld_value_offset l)
          then v ← vget (ld_value_offset l); Ok (Some v) else Ok None);
  d ← vget (ii_ret ret); code ← lget (ii_ret ret);
  if negb (ld_cast l =? -1) then
    pointee ← type_get types (ld_load_type l);
    _ ← check (bool_decide (iv_class src = IR_VC_REGFRAME)) AssertFail;
    ops ← match code, legalize_type pointee with
          | IR_TYPE_INT32, IR_TYPE_INT8 =>
              if ld_cast l =? cast_zext then Ok (VM_LOAD8_ZEXT_32_OFF, VM_LOAD8_ZEXT_32_ROFF)
              else if ld_cast l =? cast_sext
              then Ok (VM_LOAD8_SEXT_32_OFF, VM_LOAD8_SEXT_32_ROFF) else Fail ParserError
          | IR_TYPE_INT32, IR_TYPE_INT16 =>
              if ld_cast l =? cast_zext then Ok (VM_LOAD16_ZEXT_32_OFF, VM_LOAD16_ZEXT_32_ROFF)
              else if ld_cast l =? cast_sext
              then Ok (VM_LOAD16_SEXT_32_OFF, VM_LOAD16_SEXT_32_ROFF) else Fail ParserError
          | _, _ => Fail ParserError
          end;
    d ← value_reg d; s ← value_reg src;
    emit_load_off (fst ops) (snd ops) roff (ld_immediate_offset l)
      (ld_value_offset_multiply l) d s e
  else
    emit_load1 src d code roff (ld_immediate_offset l) (ld_value_offset_multiply l) e.

(** [STORE*_G] after the value went to register 0. *)
Definition emit_store_g (op : vm_op) (ptr : ir_value) (r : Z) (e : emit_state)
    : res emit_state :=
  e ← emit_op1 e (vm_opcode op) r; a ← const32 ptr; emit_i32 e a.

Definition emit_store_rr (op op_off : vm_op) (ptr val : ir_value) (off : Z) (e : emit_state)
    : res emit_state :=
  p ← value_reg ptr; v ← value_reg val;
  if off =? 0 then emit_op2 e (vm_opcode op) p v
  else e ← emit_op2 e (vm_opcode op_off) p v; emit_i16 e off.

Definition emit_store (ptr value : ir_valuetype) (off : Z) (e : emit_state)
    : res emit_state :=
  p ← vget ptr; v ← vget value;
  _ ← check ((INT16_MIN <=? off) && (off <=? INT16_MAX)) AssertFail;
  code ← lget value;
  match code, iv_class v, iv_class p, negb (off =? 0) with
  | IR_TYPE_INT8, IR_VC_REGFRAME, IR_VC_REGFRAME, _ =>
      emit_store_rr VM_STORE8 VM_STORE8_OFF p v off e
  | IR_TYPE_INT1, IR_VC_REGFRAME, IR_VC_GLOBALVAR, false
  | IR_TYPE_INT8, IR_VC_REGFRAME, (IR_VC_CONSTANT | IR_VC_GLOBALVAR), false =>
      r ← value_reg v; emit_store_g VM_STORE8_G p r e
  | IR_TYPE_INT1, IR_VC_CONSTANT, IR_VC_GLOBALVAR, false
  | IR_TYPE_INT8, IR_VC_CONSTANT, (IR_VC_CONSTANT | IR_VC_GLOBALVAR), false =>
      e ← emit_op1 e (vm_opcode VM_MOV8_C) 0; c ← const32 v; e ← emit_i8 e c;
      emit_store_g VM_STORE8_G p 0 e
  | (IR_TYPE_INT1 | IR_TYPE_INT8), IR_VC_CONSTANT, IR_VC_REGFRAME, _ =>
      r ← value_reg p; e ← emit_op1 e (vm_opcode VM_STORE8C_OFF) r;
      e ← emit_i16 e off; c ← const32 v; emit_i8 e c
  | IR_TYPE_INT16, IR_VC_REGFRAME, IR_VC_REGFRAME, _ =>
      emit_store_rr VM_STORE16 VM_STORE16_OFF p v off e
  | IR_TYPE_INT16, IR_VC_REGFRAME, (IR_VC_CONSTANT | IR_VC_GLOBALVAR), false =>
      r ← value_reg v; emit_store_g VM_STORE16_G p r e
  | IR_TYPE_INT16, IR_VC_CONSTANT, IR_VC_REGFRAME, _ =>
      r ← value_reg p; e ← emit_op1 e (vm_opcode VM_STORE16C_OFF) r;
      e ← emit_i16 e off; c ← const32 v; emit_i16 e c
  | IR_TYPE_INT16, IR_VC_CONSTANT, (IR_VC_CONSTANT | IR_VC_GLOBALVAR), false =>
      e ← emit_op1 e (vm_opcode VM_MOV16_C) 0; c ← const32 v; e ← emit_i16 e c;
      emit_store_g VM_STORE16_G p 0 e
  | (IR_TYPE_INT32 | IR_TYPE_POINTER | IR_TYPE_FLOAT), IR_VC_REGFRAME,
    (IR_VC_CONSTANT | IR_VC_GLOBALVAR), false =>
      r ← value_reg v; emit_store_g VM_STORE32_G p r e
  | (IR_TYPE_INT32 | IR_TYPE_POINTER | IR_TYPE_FLOAT), IR_VC_CONSTANT,
    (IR_VC_CONSTANT | IR_VC_GLOBALVAR), false
  | IR_TYPE_POINTER, IR_VC_GLOBALVAR, (IR_VC_CONSTANT | IR_VC_GLOBALVAR), false =>
      e ← emit_op1 e (vm_opcode VM_MOV32_C) 0; c ← const32 v; e ← emit_i32 e c;
      emit_store_g VM_STORE32_G p 0 e
  | (IR_TYPE_INT32 | IR_TYPE_POINTER | IR_TYPE_FLOAT),
    (IR_VC_CONSTANT | IR_VC_GLOBALVAR), IR_VC_REGFRAME, _ =>
      r ← value_reg p; e ← emit_op1 e (vm_opcode VM_STORE32C_OFF) r;
      e ← emit_i16 e off; c ← const32 v; emit_i32 e c
  | (IR_TYPE_INT32 | IR_TYPE_POINTER | IR_TYPE_FLOAT), IR_VC_REGFRAME, IR_VC_REGFRAME, _ =>
      emit_store_rr VM_STORE32 VM_STORE32_OFF p v off e
  | (IR_TYPE_INT64 | IR_TYPE_DOUBLE), IR_VC_REGFRAME,
    (IR_VC_CONSTANT | IR_VC_GLOBALVAR), false =>
      r ← value_reg v; emit_store_g VM_STORE64_G p r e
  | (IR_TYPE_INT64 | IR_TYPE_DOUBLE), IR_VC_CONSTANT,
    (IR_VC_CONSTANT | IR_VC_GLOBALVAR), false =>
      e ← vm_align32 e false;
      e ← emit_op1 e (vm_opcode VM_MOV64_C) 0; c ← const64 v; e ← emit_i64 e c;
      emit_store_g VM_STORE64_G p 0 e
  | (IR_TYPE_INT64 | IR_TYPE_DOUBLE), IR_VC_CONSTANT, IR_VC_REGFRAME, _ =>
      e ← vm_align32 e true; r ← value_reg p;
      e ← emit_op1 e (vm_opcode VM_STORE64C_OFF) r;
      e ← emit_i16 e off; c ← const64 v; emit_i64 e c
  | (IR_TYPE_INT64 | IR_TYPE_DOUBLE), IR_VC_REGFRAME, IR_VC_REGFRAME, _ =>
      emit_store_rr VM_STORE64 VM_STORE64_OFF p v off e
  | IR_TYPE_FUNCTION, IR_VC_FUNCTION, IR_VC_REGFRAME, _ =>
      r ← value_reg p; e ← emit_op1 e (vm_opcode VM_STORE32C_OFF) r;
      e ← emit_i16 e off; a ← value_function_addr v; emit_i32 e a
  | IR_TYPE_FUNCTION, IR_VC_FUNCTION, (IR_VC_CONSTANT | IR_VC_GLOBALVAR), false =>
      e ← emit_op1 e (vm_opcode VM_MOV32_C) 0; a ← value_function_addr v;
      e ← emit_i32 e a; emit_store_g VM_STORE32_G p 0 e
  | _, _, _, _ => Fail ParserError
  end.

(** *** Comparisons *)

(** The distance of a predicate from the first one of its kind. *)
Definition icmp_index (pred : Z) : Z := pred - icmp_code ICMP_EQ.
Definition fcmp_index (pred : Z) : Z := pred - fcmp_code FCMP_OEQ.
Definition VM_EQ (k : cmp_kind) : Z := vm_opcode (VM_CMP k ICMP_EQ).
Definition VM_OEQ (k : flt_kind) : Z := vm_opcode (VM_FCMP k FCMP_OEQ).

(** The integer opcode for two registers, and for an immediate. *)
Definition cmp_kind_rr (code : ir_type_code) : res cmp_kind :=
  match code with
  | IR_TYPE_INT8 => Ok C8 | IR_TYPE_INT16 => Ok C16
  | IR_TYPE_INT32 | IR_TYPE_POINTER => Ok C32 | IR_TYPE_INT64 => Ok C64
  | _ => Fail ParserError
  end.

Definition emit_cmp2_rr (code : ir_type_code) (pred ret lhs rhs : Z) (e : emit_state)
    : res emit_state :=
  if is_fcmp pred then
    match code with
    | IR_TYPE_FLOAT => emit_op3 e (fcmp_index pred + VM_OEQ F_FLT) ret lhs rhs
    | IR_TYPE_DOUBLE => emit_op3 e (fcmp_index pred + VM_OEQ F_DBL) ret lhs rhs
    | _ => Fail ParserError
    end
  else if is_icmp pred then
    k ← cmp_kind_rr code; emit_op3 e (icmp_index pred + VM_EQ k) ret lhs rhs
  else Fail ParserError.

Definition emit_icmp_imm (code : ir_type_code) (pred ret lhs : Z) (rhs : ir_value)
    (e : emit_state) : res emit_state :=
  match code with
  | IR_TYPE_INT8 =>
      e ← emit_op2 e (icmp_index pred + VM_EQ C8_C) ret lhs; c ← const32 rhs; emit_i8 e c
  | IR_TYPE_INT16 =>
      e ← emit_op2 e (icmp_index pred + VM_EQ C16_C) ret lhs; c ← const32 rhs; emit_i16 e c
  | IR_TYPE_INT32 | IR_TYPE_POINTER =>
      e ← emit_op2 e (icmp_index pred + VM_EQ C32_C) ret lhs; c ← const32 rhs; emit_i32 e c
  | IR_TYPE_INT64 =>
      e ← vm_align32 e true;
      e ← emit_op2 e (icmp_index pred + VM_EQ C64_C) ret lhs; c ← const64 rhs; emit_i64 e c
  | _ => Fail ParserError
  end.

Definition emit_cmp2_rc (code : ir_type_code) (pred ret lhs : Z) (rhs : ir_value)
    (e : emit_state) : res emit_state :=
  if is_fcmp pred then
    match code with
    | IR_TYPE_DOUBLE =>
        b ← iv_u64 rhs; _ ← check (negb (fp_isnan (fp_of_bits fp_dbl b))) ParserError;
        e ← vm_align32 e true;
        e ← emit_op2 e (fcmp_index pred + VM_OEQ F_DBL_C) ret lhs; c ← const64 rhs; emit_i64 e c
    | IR_TYPE_FLOAT =>
        b ← iv_u32 rhs; _ ← check (negb (fp_isnan (fp_of_bits fp_flt b))) ParserError;
        e ← vm_align32 e true;
        e ← emit_op2 e (fcmp_index pred + VM_OEQ F_FLT_C) ret lhs; c ← const32 rhs; emit_i32 e c
    | _ => Fail ParserError
    end
  else if is_icmp pred then emit_icmp_imm code pred ret lhs rhs e
  else Fail ParserError.

Definition emit_cmp2 (op : Z) (lhs rhs : ir_valuetype) (ret : ir_ret) (e : emit_state)
    : res emit_state :=
  l ← vget lhs; r ← vget rhs; d ← vget (ii_ret ret); code ← lget lhs;
  match iv_class l, iv_class r with
  | IR_VC_REGFRAME, IR_VC_REGFRAME =>
      d ← value_reg d; l ← value_reg l; r ← value_reg r; emit_cmp2_rr code op d l r e
  | IR_VC_REGFRAME, IR_VC_CONSTANT =>
      d ← value_reg d; l ← value_reg l; emit_cmp2_rc code op d l r e
  | IR_VC_CONSTANT, IR_VC_REGFRAME =>
      op ← swap_pred_code op;
      d ← value_reg d; r ← value_reg r; emit_cmp2_rc code op d r l e
  | IR_VC_REGFRAME, IR_VC_GLOBALVAR =>
      _ ← check (is_icmp op && bool_decide (code = IR_TYPE_POINTER)) ParserError;
      d ← value_reg d; l ← value_reg l; emit_icmp_imm code op d l r e
  | IR_VC_GLOBALVAR, IR_VC_REGFRAME =>
      op ← swap_pred_code op;
      _ ← check (is_icmp op && bool_decide (code = IR_TYPE_POINTER)) ParserError;
      d ← value_reg d; r ← value_reg r; emit_icmp_imm code op d r l e
  | _, _ => Fail ParserError
  end.

Definition VM_EQ_BR (k : br_kind) : Z := vm_opcode (VM_CMP_BR k ICMP_EQ).

(** [emit_i16] of an opcode that is resolved in [branch_fixup]. *)
Definition emit_cmp_branch (op : Z) (lhs rhs : ir_valuetype) (tb fb : Z) (e : emit_state)
    : res emit_state :=
  l ← vget lhs; r ← vget rhs; code ← lget lhs;
  let e := push_fixup e in
  match iv_class l, iv_class r with
  | IR_VC_REGFRAME, IR_VC_REGFRAME =>
      _ ← check (is_icmp op) ParserError;
      k ← match code with
          | IR_TYPE_INT8 => Ok B8 | IR_TYPE_INT32 | IR_TYPE_POINTER => Ok B32
          | _ => Fail ParserError end;
      l ← value_reg l; r ← value_reg r;
      emit_words e [icmp_index op + VM_EQ_BR k; tb; fb; l; r]
  | lc, rc =>
      '(op, l, r) ← (if bool_decide (rc = IR_VC_REGFRAME)
                     then op ← swap_pred_code op; Ok (op, r, l) else Ok (op, l, r));
      match iv_class l, iv_class r with
      | IR_VC_REGFRAME, (IR_VC_CONSTANT | IR_VC_GLOBALVAR) =>
          _ ← check (is_icmp op) ParserError;
          match code with
          | IR_TYPE_INT8 =>
              x ← value_reg l;
              e ← emit_words e [icmp_index op + VM_EQ_BR B8_C; tb; fb; x];
              c ← const32 r; emit_i8 e c
          | IR_TYPE_INT32 | IR_TYPE_POINTER =>
              x ← value_reg l;
              e ← emit_words e [icmp_index op + VM_EQ_BR B32_C; tb; fb; x];
              c ← const32 r; emit_i32 e c
          | _ => Fail ParserError
          end
      | IR_VC_REGFRAME, IR_VC_FUNCTION =>
          x ← value_reg l;
          e ← emit_words e [icmp_index op + VM_EQ_BR B32_C; tb; fb; x];
          a ← value_function_addr r; emit_i32 e a
      | _, _ => Fail ParserError
      end
  end.

Definition VM_EQ_SEL (k : sel_kind) : Z := vm_opcode (VM_CMP_SEL k ICMP_EQ).

(** The register that holds a value, a constant in [scratch]. *)
Definition emit_sel_value (iv : ir_value) (scratch : Z) (e : emit_state)
    : res (Z * emit_state) :=
  match iv_class iv with
  | IR_VC_REGFRAME => r ← value_reg iv; Ok (r, e)
  | IR_VC_CONSTANT | IR_VC_GLOBALVAR =>
      e ← emit_op1 e (vm_opcode VM_MOV32_C) scratch; c ← const32 iv;
      e ← emit_i32 e c; Ok (scratch, e)
  | _ => Fail ParserError
  end.

Definition emit_cmp_select (op : Z) (lhs rhs tv fv : ir_valuetype) (ret : ir_ret)
    (e : emit_state) : res emit_state :=
  d ← vget (ii_ret ret); l ← vget lhs; r ← vget rhs; t ← vget tv; f ← vget fv;
  code ← lget lhs;
  '(op, l, r) ← (if bool_decide (iv_class r = IR_VC_REGFRAME)
                     && negb (bool_decide (iv_class l = IR_VC_REGFRAME))
                 then op ← swap_pred_code op; Ok (op, r, l) else Ok (op, l, r));
  '(treg, e) ← emit_sel_value t 0 e;
  '(freg, e) ← emit_sel_value f 4 e;
  match iv_class l, iv_class r with
  | IR_VC_REGFRAME, IR_VC_REGFRAME =>
      _ ← check (is_icmp op) ParserError;
      _ ← check (match code with IR_TYPE_INT32 | IR_TYPE_POINTER => true | _ => false end)
            ParserError;
      e ← emit_op e (icmp_index op + VM_EQ_SEL S32);
      d ← value_reg d; l ← value_reg l; r ← value_reg r;
      emit_words e [d; treg; freg; l; r]
  | IR_VC_REGFRAME, (IR_VC_CONSTANT | IR_VC_GLOBALVAR) =>
      _ ← check (is_icmp op) ParserError;
      _ ← check (match code with IR_TYPE_INT32 | IR_TYPE_POINTER => true | _ => false end)
            ParserError;
      e ← emit_op e (icmp_index op + VM_EQ_SEL S32_C);
      d ← value_reg d; l ← value_reg l;
      e ← emit_words e [d; treg; freg; l]; c ← const32 r; emit_i32 e c
  | _, _ => Fail ParserError
  end.

(** *** Branches and switches *)

(** [next] is the block that follows in memory. *)
Definition emit_br (condition : ir_valuetype) (tb fb : Z) (next : option ir_bb)
    (e : emit_state) : res emit_state :=
  if vt_value condition =? -1 then
    if match next with Some b => ib_id b =? tb | None => false end then Ok e
    else emit_words (push_fixup e) [vm_opcode VM_B; tb]
  else
    iv ← vget condition;
    let e := push_fixup e in
    match iv_class iv with
    | IR_VC_REGFRAME => r ← value_reg iv; emit_words e [vm_opcode VM_BCOND; r; tb; fb]
    | IR_VC_CONSTANT =>
        c ← const32 iv; emit_words e [vm_opcode VM_B; if c =? 0 then fb else tb]
    | _ => Fail ParserError
    end.

(** The search forms: keys, then the blocks and the default. *)
Definition emit_switch_bs (op : vm_op) (emit_key : emit_state → Z → res emit_state)
    (reg : Z) (keys : list Z) (paths : list ir_path) (defblock : Z) (e : emit_state)
    : res emit_state :=
  e ← emit_words (push_fixup e) [vm_opcode op; reg; Z.of_nat (length paths)];
  e ← foldR emit_key e keys;
  e ← emit_words e (map pa_block paths);
  emit_i16 e defblock.

(** Later paths overwrite earlier ones and the default. *)
Definition fill_jumptable (size : Z) (paths : list ir_path) (defblock : Z) : list Z :=
  fold_left (λ t p, <[Z.to_nat (Z.land (pa_v64 p) (size - 1)) := u16 (pa_block p)]> t)
    paths (replicate (Z.to_nat size) (u16 defblock)).

Definition emit_jumptable (reg size : Z) (paths : list ir_path) (defblock : Z)
    (e : emit_state) : res emit_state :=
  e ← emit_words (push_fixup e) [vm_opcode VM_JUMPTABLE; reg; size];
  emit_data e (fill_jumptable size paths defblock).

Definition emit_switch (value : ir_valuetype) (defblock : Z) (paths : list ir_path)
    (e : emit_state) : res emit_state :=
  c ← vget value; cty ← type_get types (vt_type value);
  _ ← check (bool_decide (iv_class c = IR_VC_REGFRAME)) AssertFail;
  reg ← value_reg c;
  let switch32 reg mask32 e :=
    emit_switch_bs VM_SWITCH32_BS emit_i32 reg (map (λ p, Z.land (pa_v64 p) mask32) paths)
      paths defblock e in
  match cty with
  | T_INTx width =>
      _ ← check (width <? 32) AssertFail;
      if width <=? 4 then emit_jumptable reg (Z.shiftl 1 width) paths defblock e
      else
        mask32 ← int_arith (Z.shiftl 1 width);
        let mask32 := mask32 - 1 in
        e ← emit_op2 e (VM_ADD K_R32C + binop_code BINOP_AND) 0 reg;
        e ← emit_i32 e mask32; switch32 0 mask32 e
  | T_INT1 | T_INT8 =>
      if bool_decide (64 < length paths)%nat then emit_jumptable reg 256 paths defblock e
      else emit_switch_bs VM_SWITCH8_BS emit_i8 reg (map pa_v64 paths) paths defblock e
  | T_INT16 =>
      e ← emit_op2 e (vm_opcode VM_CAST_16_TRUNC_32) 0 reg; switch32 0 65535 e
  | T_INT32 => switch32 reg 4294967295 e
  | T_INT64 =>
      e ← vm_align32 e true;
      emit_switch_bs VM_SWITCH64_BS emit_i64 reg (map pa_v64 paths) paths defblock e
  | _ => Fail ParserError
  end.

(** *** Moves, the stack, addresses, casts *)

Definition emit_move (value : ir_valuetype) (ret : ir_ret) (e : emit_state) : res emit_state :=
  src ← vget value;
  '(retreg, typecode) ←
    (if vt_value (ii_ret ret) =? -2 then
       r0 ← oget (ii_rets ret !! 0%nat) Undef; r1 ← oget (ii_rets ret !! 1%nat) Undef;
       v1 ← vget r0; v2 ← vget r1;
       g1 ← iv_reg v1; g2 ← iv_reg v2;
       _ ← check ((g1 + 4 =? g2) && (vt_type r0 =? vt_type r1)) ParserError;
       code ← lget r0;
       _ ← check (bool_decide (code = IR_TYPE_INT32)) ParserError;
       r ← value_reg v1; Ok (r, IR_TYPE_INT64)
     else
       v ← vget (ii_ret ret); r ← value_reg v; code ← lget (ii_ret ret); Ok (r, code));
  match iv_class src, typecode with
  | IR_VC_CONSTANT, IR_TYPE_INT8 =>
      e ← emit_op1 e (vm_opcode VM_MOV8_C) retreg; c ← const32 src; emit_i8 e c
  | IR_VC_CONSTANT, IR_TYPE_INT16 =>
      e ← emit_op1 e (vm_opcode VM_MOV16_C) retreg; c ← const32 src; emit_i16 e c
  | IR_VC_CONSTANT, (IR_TYPE_INT1 | IR_TYPE_INT32 | IR_TYPE_POINTER | IR_TYPE_FLOAT)
  | IR_VC_GLOBALVAR, IR_TYPE_POINTER =>
      e ← emit_op1 e (vm_opcode VM_MOV32_C) retreg; c ← const32 src; emit_i32 e c
  | IR_VC_CONSTANT, (IR_TYPE_INT64 | IR_TYPE_DOUBLE) =>
      e ← vm_align32 e false;
      e ← emit_op1 e (vm_opcode VM_MOV64_C) retreg; c ← const64 src; emit_i64 e c
  | IR_VC_REGFRAME,
    (IR_TYPE_INT1 | IR_TYPE_INT8 | IR_TYPE_INT16 | IR_TYPE_INT32 | IR_TYPE_POINTER
     | IR_TYPE_FLOAT) =>
      r ← value_reg src; emit_op2 e (vm_opcode VM_MOV32) retreg r
  | IR_VC_REGFRAME, (IR_TYPE_INT64 | IR_TYPE_DOUBLE) =>
      r ← value_reg src; emit_op2 e (vm_opcode VM_MOV64) retreg r
  | IR_VC_FUNCTION, (IR_TYPE_FUNCTION | IR_TYPE_POINTER) =>
      e ← emit_op1 e (vm_opcode VM_MOV32_C) retreg; a ← value_function_addr src; emit_i32 e a
  | _, _ => Fail ParserError
  end.

Definition emit_stackcopy (value : ir_valuetype) (size : Z) (ret : ir_ret) (e : emit_state)
    : res emit_state :=
  d ← vget (ii_ret ret); src ← vget value; code ← lget value;
  match iv_class src, code with
  | (IR_VC_GLOBALVAR | IR_VC_CONSTANT), IR_TYPE_POINTER =>
      d ← value_reg d; e ← emit_op1 e (vm_opcode VM_STACKCOPYC) d;
      c ← const32 src; e ← emit_i32 e c; emit_i32 e size
  | IR_VC_REGFRAME, IR_TYPE_POINTER =>
      d ← value_reg d; s ← value_reg src;
      e ← emit_op2 e (vm_opcode VM_STACKCOPYR) d s; emit_i32 e size
  | _, _ => Fail ParserError
  end.

Definition emit_stackshrink (size : Z) (e : emit_state) : res emit_state :=
  e ← emit_op e (vm_opcode VM_STACKSHRINK); emit_i32 e size.

(** [ffs(x) - 1]: the index of the lowest bit that is set. *)
Definition ffs1 (x : Z) : Z :=
  match x with
  | Zpos p | Zneg p =>
      (fix go (p : positive) : Z := match p with xO p => 1 + go p | _ => 0 end) p
  | Z0 => -1
  end.

Definition emit_lea (baseptr : ir_valuetype) (off : Z) (value_offset : ir_valuetype)
    (multiply : Z) (ret : ir_ret) (e : emit_state) : res emit_state :=
  d ← rreg ret; b ← vreg baseptr;
  if vt_value value_offset =? -1 then
    e ← emit_op2 e (VM_ADD K_R32C) d b; emit_i32 e off
  else
    o ← vget value_offset; code ← lget value_offset;
    _ ← check (bool_decide (code = IR_TYPE_INT32)) ParserError;
    _ ← check (negb (multiply =? 0)) AssertFail;
    o ← value_reg o;
    let fb := ffs1 multiply in
    if s32 (Z.shiftl 1 fb) =? multiply then
      if negb (off =? 0) then
        e ← emit_op4 e (vm_opcode VM_LEA_R32_SHL_OFF) d b o fb; emit_i32 e off
      else if fb =? 2 then emit_op3 e (vm_opcode VM_LEA_R32_SHL2) d b o
      else emit_op4 e (vm_opcode VM_LEA_R32_SHL) d b o fb
    else
      e ← emit_op3 e (vm_opcode VM_LEA_R32_MUL_OFF) d b o;
      e ← emit_i32 e multiply; emit_i32 e off.

(** What [emit_cast] does for a destination, a cast and a source: an opcode
    with two registers, or nothing at all. *)
Definition cast_trunc (dst src : ir_type_code) : option vm_op :=
  match dst, src with
  | IR_TYPE_INT1, IR_TYPE_INT8 => Some VM_CAST_1_TRUNC_8
  | IR_TYPE_INT1, IR_TYPE_INT16 => Some VM_CAST_1_TRUNC_16
  | IR_TYPE_INT8, IR_TYPE_INT16 => Some VM_CAST_8_TRUNC_16
  | IR_TYPE_INT8, IR_TYPE_INT32 => Some VM_CAST_8_TRUNC_32
  | IR_TYPE_INT8, IR_TYPE_INT64 => Some VM_CAST_8_TRUNC_64
  | IR_TYPE_INT16, IR_TYPE_INT32 => Some VM_CAST_16_TRUNC_32
  | IR_TYPE_INT16, IR_TYPE_INT64 => Some VM_CAST_16_TRUNC_64
  | IR_TYPE_INT32, IR_TYPE_INT64 => Some VM_CAST_32_TRUNC_64
  | _, _ => None
  end.

Definition cast_ext (zext : bool) (dst src : ir_type_code) : option vm_op :=
  match dst, src, zext with
  | IR_TYPE_INT8, IR_TYPE_INT1, true => Some VM_CAST_8_TRUNC_32
  | IR_TYPE_INT8, IR_TYPE_INT1, false => Some VM_CAST_8_SEXT_1
  | IR_TYPE_INT16, IR_TYPE_INT1, true => Some VM_CAST_16_ZEXT_1
  | IR_TYPE_INT16, IR_TYPE_INT8, true => Some VM_CAST_16_ZEXT_8
  | IR_TYPE_INT16, IR_TYPE_INT8, false => Some VM_CAST_16_SEXT_8
  | IR_TYPE_INT32, IR_TYPE_INT1, true => Some VM_MOV32
  | IR_TYPE_INT32, IR_TYPE_INT1, false => Some VM_CAST_32_SEXT_1
  | IR_TYPE_INT32, IR_TYPE_INT8, true => Some VM_CAST_32_ZEXT_8
  | IR_TYPE_INT32, IR_TYPE_INT8, false => Some VM_CAST_32_SEXT_8
  | IR_TYPE_INT32, IR_TYPE_INT16, true => Some VM_CAST_32_ZEXT_16
  | IR_TYPE_INT32, IR_TYPE_INT16, false => Some VM_CAST_32_SEXT_16
  | IR_TYPE_INT64, IR_TYPE_INT1, true => Some VM_CAST_64_ZEXT_1
  | IR_TYPE_INT64, IR_TYPE_INT1, false => Some VM_CAST_64_SEXT_1
  | IR_TYPE_INT64, IR_TYPE_INT8, true => Some VM_CAST_64_ZEXT_8
  | IR_TYPE_INT64, IR_TYPE_INT8, false => Some VM_CAST_64_SEXT_8
  | IR_TYPE_INT64, IR_TYPE_INT16, true => Some VM_CAST_64_ZEXT_16
  | IR_TYPE_INT64, IR_TYPE_INT16, false => Some VM_CAST_64_SEXT_16
  | IR_TYPE_INT64, IR_TYPE_INT32, true => Some VM_CAST_64_ZEXT_32
  | IR_TYPE_INT64, IR_TYPE_INT32, false => Some VM_CAST_64_SEXT_32
  | _, _, _ => None
  end.

Definition cast_fptoi (signed : bool) (dst src : ir_type_code) : option vm_op :=
  match dst, src, signed with
  | IR_TYPE_INT16, IR_TYPE_FLOAT, true => Some VM_CAST_16_FPTOSI_FLT
  | IR_TYPE_INT16, IR_TYPE_FLOAT, false => Some VM_CAST_16_FPTOUI_FLT
  | IR_TYPE_INT16, IR_TYPE_DOUBLE, true => Some VM_CAST_16_FPTOSI_DBL
  | IR_TYPE_INT16, IR_TYPE_DOUBLE, false => Some VM_CAST_16_FPTOUI_DBL
  | IR_TYPE_INT32, IR_TYPE_FLOAT, true => Some VM_CAST_32_FPTOSI_FLT
  | IR_TYPE_INT32, IR_TYPE_FLOAT, false => Some VM_CAST_32_FPTOUI_FLT
  | IR_TYPE_INT32, IR_TYPE_DOUBLE, true => Some VM_CAST_32_FPTOSI_DBL
  | IR_TYPE_INT32, IR_TYPE_DOUBLE, false => Some VM_CAST_32_FPTOUI_DBL
  | IR_TYPE_INT64, IR_TYPE_FLOAT, true => Some VM_CAST_64_FPTOSI_FLT
  | IR_TYPE_INT64, IR_TYPE_FLOAT, false => Some VM_CAST_64_FPTOUI_FLT
  | IR_TYPE_INT64, IR_TYPE_DOUBLE, true => Some VM_CAST_64_FPTOSI_DBL
  | IR_TYPE_INT64, IR_TYPE_DOUBLE, false => Some VM_CAST_64_FPTOUI_DBL
  | _, _, _ => None
  end.

Definition cast_itofp (signed : bool) (dst src : ir_type_code) : option vm_op :=
  match dst, src, signed with
  | IR_TYPE_FLOAT, IR_TYPE_INT8, true => Some VM_CAST_FLT_SITOFP_8
  | IR_TYPE_FLOAT, IR_TYPE_INT8, false => Some VM_CAST_FLT_UITOFP_8
  | IR_TYPE_FLOAT, IR_TYPE_INT16, true => Some VM_CAST_FLT_SITOFP_16
  | IR_TYPE_FLOAT, IR_TYPE_INT16, false => Some VM_CAST_FLT_UITOFP_16
  | IR_TYPE_FLOAT, IR_TYPE_INT32, true => Some VM_CAST_FLT_SITOFP_32
  | IR_TYPE_FLOAT, IR_TYPE_INT32, false => Some VM_CAST_FLT_UITOFP_32
  | IR_TYPE_FLOAT, IR_TYPE_INT64, true => Some VM_CAST_FLT_SITOFP_64
  | IR_TYPE_FLOAT, IR_TYPE_INT64, false => Some VM_CAST_FLT_UITOFP_64
  | IR_TYPE_DOUBLE, IR_TYPE_INT8, true => Some VM_CAST_DBL_SITOFP_8
  | IR_TYPE_DOUBLE, IR_TYPE_INT8, false => Some VM_CAST_DBL_UITOFP_8
  | IR_TYPE_DOUBLE, IR_TYPE_INT16, true => Some VM_CAST_DBL_SITOFP_16
  | IR_TYPE_DOUBLE, IR_TYPE_INT16, false => Some VM_CAST_DBL_UITOFP_16
  | IR_TYPE_DOUBLE, IR_TYPE_INT32, true => Some VM_CAST_DBL_SITOFP_32
  | IR_TYPE_DOUBLE, IR_TYPE_INT32, false => Some VM_CAST_DBL_UITOFP_32
  | IR_TYPE_DOUBLE, IR_TYPE_INT64, true => Some VM_CAST_DBL_SITOFP_64
  | IR_TYPE_DOUBLE, IR_TYPE_INT64, false => Some VM_CAST_DBL_UITOFP_64
  | _, _, _ => None
  end.

(** The whole table; [inl] is an opcode, [inr] the case that emits nothing. *)
Definition cast_op (dst : ir_type_code) (castop : Z) (src : ir_type_code)
    : option (vm_op + unit) :=
  let some o := match o with Some op => Some (inl op) | None => None end in
  match castop with
  | 0 => some (cast_trunc dst src)
  | 1 => some (cast_ext true dst src)
  | 2 => some (cast_ext false dst src)
  | 3 => some (cast_fptoi false dst src)
  | 4 => some (cast_fptoi true dst src)
  | 5 => some (cast_itofp false dst src)
  | 6 => some (cast_itofp true dst src)
  | 7 => match dst, src with
         | IR_TYPE_FLOAT, IR_TYPE_DOUBLE => Some (inl VM_CAST_FLT_FPTRUNC_DBL)
         | _, _ => None end
  | 8 => match dst, src with
         | IR_TYPE_DOUBLE, IR_TYPE_FLOAT => Some (inl VM_CAST_DBL_FPEXT_FLT)
         | _, _ => None end
  | 9 => match dst, src with
         | IR_TYPE_INT64, IR_TYPE_POINTER => Some (inr ())
         | _, _ => None end
  | 11 => match dst, src with
          | IR_TYPE_INT32, IR_TYPE_FLOAT | IR_TYPE_FLOAT, IR_TYPE_INT32 => Some (inl VM_MOV32)
          | IR_TYPE_DOUBLE, IR_TYPE_INT64 | IR_TYPE_INT64, IR_TYPE_DOUBLE => Some (inl VM_MOV64)
          | _, _ => None end
  | _ => None
  end.

Definition emit_cast (op : Z) (value : ir_valuetype) (ret : ir_ret) (e : emit_state)
    : res emit_state :=
  src ← vget value; d ← vget (ii_ret ret);
  srccode ← lget value; dstcode ← lget (ii_ret ret);
  o ← oget (cast_op dstcode op srccode) ParserError;
  match o with
  | inl op => d ← value_reg d; s ← value_reg src; emit_op2 e (vm_opcode op) d s
  | inr _ => Ok e
  end.

(** *** Calls *)

(** [value_function]: the function a value is, if any. *)
Definition value_function (id : Z) : option Z :=
  match value_get vs id with
  | Ok iv => match iv_class iv, iv_u iv with IR_VC_FUNCTION, U_func g => Some g | _, _ => None end
  | Fail _ => None
  end.

Definition return_reg (ret : ir_ret) : res Z :=
  if vt_value (ii_ret ret) =? -1 then Ok 0 else rreg ret.

(** [rf_offset] is [if_regframe_size] of the caller, [ext g] whether
    [if_ext_func] of function [g] is set. *)
Definition emit_call (c : ir_call) (ret : ir_ret) (rf_offset : Z) (ext : Z → bool)
    (e : emit_state) : res emit_state :=
  r ← return_reg ret;
  match value_function (vt_value (ca_callee c)) with
  | Some g => emit_op3 e (vm_opcode (if ext g then VM_JSR_EXT else VM_JSR)) g rf_offset r
  | None =>
      iv ← vget (ca_callee c);
      _ ← check (bool_decide (iv_class iv = IR_VC_REGFRAME)) ParserError;
      x ← value_reg iv; emit_op3 e (vm_opcode VM_JSR_R) x rf_offset r
  end.

Definition emit_invoke (c : ir_call) (ret : ir_ret) (rf_offset : Z) (ext : Z → bool)
    (e : emit_state) : res emit_state :=
  let e := push_fixup e in
  r ← return_reg ret;
  e ← match value_function (vt_value (ca_callee c)) with
      | Some g => emit_words e [vm_opcode (if ext g then VM_INVOKE_EXT else VM_INVOKE); g]
      | None =>
          iv ← vget (ca_callee c);
          _ ← check (bool_decide (iv_class iv = IR_VC_REGFRAME)) ParserError;
          x ← value_reg iv; emit_words e [vm_opcode VM_INVOKE_R; x]
      end;
  emit_words e [rf_offset; r; ca_normal_dest c; ca_unwind_dest c].

Definition emit_alloca (size : Z) (num_items : ir_valuetype) (alignment : Z) (ret : ir_ret)
    (e : emit_state) : res emit_state :=
  d ← vget (ii_ret ret); iv ← vget num_items;
  match iv_class iv with
  | IR_VC_CONSTANT =>
      d ← value_reg d; e ← emit_op2 e (vm_opcode VM_ALLOCA) d alignment;
      c ← const32 iv; emit_i32 e (size * c)
  | IR_VC_REGFRAME =>
      code ← lget num_items;
      _ ← check (bool_decide (code = IR_TYPE_INT32)) ParserError;
      d ← value_reg d; r ← value_reg iv;
      e ← emit_op3 e (vm_opcode VM_ALLOCAD) d alignment r; emit_i32 e size
  | _ => Fail ParserError
  end.

Definition is_reg (iv : ir_value) : bool := bool_decide (iv_class iv = IR_VC_REGFRAME).

(** A constant of a selection: an immediate, for a pointer a global too. *)
Definition is_imm (code : ir_type_code) (iv : ir_value) : bool :=
  bool_decide (iv_class iv = IR_VC_CONSTANT)
  || (bool_decide (iv_class iv = IR_VC_GLOBALVAR) && bool_decide (code = IR_TYPE_POINTER)).

Definition emit_select32 (code : ir_type_code) (d p : Z) (tv fv : ir_value)
    (e : emit_state) : res emit_state :=
  let imm iv := c ← const32 iv; Ok (Z.land c (type_code_mask code)) in
  if is_reg tv then
    t ← value_reg tv;
    if is_reg fv then f ← value_reg fv; emit_op4 e (vm_opcode VM_SELECT32RR) d p t f
    else
      _ ← check (is_imm code fv) ParserError;
      e ← emit_op3 e (vm_opcode VM_SELECT32RC) d p t; c ← imm fv; emit_i32 e c
  else
    _ ← check (is_imm code tv) ParserError;
    if is_reg fv then
      f ← value_reg fv; e ← emit_op3 e (vm_opcode VM_SELECT32CR) d p f;
      c ← imm tv; emit_i32 e c
    else
      _ ← check (is_imm code fv) ParserError;
      e ← emit_op2 e (vm_opcode VM_SELECT32CC) d p;
      c ← imm tv; e ← emit_i32 e c; c ← imm fv; emit_i32 e c.

Definition emit_select64 (d p : Z) (tv fv : ir_value) (e : emit_state) : res emit_state :=
  match iv_class tv, iv_class fv with
  | IR_VC_REGFRAME, IR_VC_REGFRAME =>
      t ← value_reg tv; f ← value_reg fv; emit_op4 e (vm_opcode VM_SELECT64RR) d p t f
  | IR_VC_REGFRAME, IR_VC_CONSTANT =>
      e ← vm_align32 e false; t ← value_reg tv;
      e ← emit_op3 e (vm_opcode VM_SELECT64RC) d p t; c ← const64 fv; emit_i64 e c
  | IR_VC_CONSTANT, IR_VC_REGFRAME =>
      e ← vm_align32 e false; f ← value_reg fv;
      e ← emit_op3 e (vm_opcode VM_SELECT64CR) d p f; c ← const64 tv; emit_i64 e c
  | IR_VC_CONSTANT, IR_VC_CONSTANT =>
      e ← vm_align32 e true; e ← emit_op2 e (vm_opcode VM_SELECT64CC) d p;
      c ← const64 tv; e ← emit_i64 e c; c ← const64 fv; emit_i64 e c
  | _, _ => Fail ParserError
  end.

Definition emit_select (tv fv pred : ir_valuetype) (ret : ir_ret) (e : emit_state)
    : res emit_state :=
  p ← vget pred; t ← vget tv; f ← vget fv; d ← vget (ii_ret ret); code ← lget (ii_ret ret);
  match code with
  | IR_TYPE_INT8 | IR_TYPE_INT16 | IR_TYPE_INT32 | IR_TYPE_POINTER | IR_TYPE_FLOAT =>
      d ← value_reg d; p ← value_reg p; emit_select32 code d p t f e
  | IR_TYPE_INT64 | IR_TYPE_DOUBLE =>
      d ← value_reg d; p ← value_reg p; emit_select64 d p t f e
  | _ => Fail ParserError
  end.

(** The registers of a list of values, one word each. *)
Definition emit_regs (l : list ir_valuetype) (e : emit_state) : res emit_state :=
  foldR (λ e v, r ← vreg v; emit_i16 e r) e l.

Definition emit_vmop (c : ir_call) (ret : ir_ret) (e : emit_state) : res emit_state :=
  _ ← check (negb (ca_vmop c =? 0)) AssertFail;
  e ← emit_op e (ca_vmop c);
  let n := vt_value (ii_ret ret) in
  e ← (if n <? -1 then emit_regs (take (Z.to_nat (- n)) (ii_rets ret)) e
       else if negb (n =? -1) then emit_regs [ii_ret ret] e else Ok e);
  emit_regs (ca_argv c) e.

Definition emit_vaarg (value : ir_valuetype) (ret : ir_ret) (e : emit_state)
    : res emit_state :=
  v ← vget value;
  '(valreg, e) ← emit_sel_value v 0 e;
  d ← vget (ii_ret ret); code ← lget (ii_ret ret);
  op ← match code with
       | IR_TYPE_INT32 | IR_TYPE_POINTER | IR_TYPE_INT1 => Ok VM_VAARG32
       | IR_TYPE_DOUBLE | IR_TYPE_INT64 => Ok VM_VAARG64
       | _ => Fail ParserError
       end;
  e ← emit_op e (vm_opcode op); d ← value_reg d; emit_words e [d; valreg].

Definition emit_mla (a1 a2 a3 : ir_valuetype) (ret : ir_ret) (e : emit_state)
    : res emit_state :=
  d ← vget (ii_ret ret); code ← lget (ii_ret ret);
  x ← vget a1; y ← vget a2; z ← vget a3;
  _ ← check (bool_decide (code = IR_TYPE_INT32)) ParserError;
  d ← value_reg d; x ← value_reg x; y ← value_reg y; z ← value_reg z;
  emit_op4 e (vm_opcode VM_MLA32) d x y z.

Definition emit_landingpad (ret : ir_ret) (e : emit_state) : res emit_state :=
  _ ← check (vt_value (ii_ret ret) =? -2) ParserError;
  r0 ← oget (ii_rets ret !! 0%nat) Undef; r1 ← oget (ii_rets ret !! 1%nat) Undef;
  e ← emit_op e (vm_opcode VM_LANDINGPAD); emit_regs [r0; r1] e.

Definition emit_resume (values : list ir_valuetype) (e : emit_state) : res emit_state :=
  _ ← check (bool_decide (length values = 2%nat)) ParserError;
  e ← emit_op e (vm_opcode VM_RESUME); emit_regs values e.

(** [instr_emit] for one instruction of a function with [if_regframe_size]
    [rf_offset]; [next] is the block after its block. *)
Definition emit_instr (rf_offset : Z) (ext : Z → bool) (next : option ir_bb) (i : ir_instr)
    (e : emit_state) : res emit_state :=
  match i with
  | IR_IC_RET v => emit_ret v e
  | IR_IC_BINOP op l r d => emit_binop op l r d e
  | IR_IC_LOAD l d => emit_load l d e
  | IR_IC_CMP2 op l r d => emit_cmp2 op l r d e
  | IR_IC_BR c tb fb => emit_br c tb fb next e
  | IR_IC_MOVE v d => emit_move v d e
  | IR_IC_STORE p v off => emit_store p v off e
  | IR_IC_LEA b off v m d => emit_lea b off v m d e
  | IR_IC_CAST op v d => emit_cast op v d e
  | IR_IC_CALL c d => emit_call c d rf_offset ext e
  | IR_IC_INVOKE c d => emit_invoke c d rf_offset ext e
  | IR_IC_SWITCH v def paths => emit_switch v def paths e
  | IR_IC_ALLOCA size n a d => emit_alloca size n a d e
  | IR_IC_VAARG v d => emit_vaarg v d e
  | IR_IC_SELECT t f p d => emit_select t f p d e
  | IR_IC_VMOP c d => emit_vmop c d e
  | IR_IC_LANDINGPAD d => emit_landingpad d e
  | IR_IC_RESUME vals => emit_resume vals e
  | IR_IC_STACKCOPY v size d => emit_stackcopy v size d e
  | IR_IC_STACKSHRINK size => emit_stackshrink size e
  | IR_IC_UNREACHABLE => emit_op e (vm_opcode VM_UNREACHABLE)
  | IR_IC_CMP_BRANCH op l r tb fb => emit_cmp_branch op l r tb fb e
  | IR_IC_CMP_SELECT op l r t f d => emit_cmp_select op l r t f d e
  | IR_IC_MLA a b c d => emit_mla a b c d e
  | IR_IC_GEP _ _ _ | IR_IC_PHI _ _ | IR_IC_EXTRACTVAL _ _ _ | IR_IC_INSERTVAL _ _ _ _ =>
      Fail ParserError
  end.

Definition instr_emit (rf_offset : Z) (ext : Z → bool) (bb : ir_bb) (next : option ir_bb)
    (e : emit_state) : res emit_state :=
  foldR (λ e i, emit_instr rf_offset ext next i e) e (ib_instrs bb).
End emitters.

(** ** Finalizing the branches *)

(** [ib_text_offset] of the blocks, as (number, offset) in their order. *)
Definition bb_offset (offsets : list (Z * Z)) (id : Z) : option Z :=
  (λ p, snd (snd p)) <$> list_find (λ p, fst p = id) offsets.

Definition bb_to_offset_delta (offsets : list (Z * Z)) (bbi off : Z) : res Z :=
  t ← oget (bb_offset offsets bbi) Aborted;
  let o := t - (off + 2) in
  _ ← check (INT16_MIN <=? o) AssertFail; _ ← check (o <=? INT16_MAX) AssertFail; Ok o.

Definition text_word (t : list Z) (k : Z) : res Z :=
  if k <? 0 then Fail Undef else oget (t !! Z.to_nat k) Undef.

(** [I[k] = bb_to_offset_delta(iu, f, I[k], off)]. *)
Definition fix_word (offsets : list (Z * Z)) (off : Z) (t : list Z) (k : Z) : res (list Z) :=
  w ← text_word t (off / 2 + k);
  d ← bb_to_offset_delta offsets w off;
  Ok (<[Z.to_nat (off / 2 + k) := u16 d]> t).

(** The words of the instruction at [off] that hold blocks. *)
Definition branch_targets (t : list Z) (off : Z) : res (list Z) :=
  op ← text_word t (off / 2);
  p ← match vm_decode op with
      | Some (VM_JUMPTABLE | VM_SWITCH8_BS | VM_SWITCH32_BS | VM_SWITCH64_BS) =>
          text_word t (off / 2 + 2)
      | _ => Ok 0
      end;
  let range first n := map (λ j, first + Z.of_nat j) (seq 0 (Z.to_nat n)) in
  match vm_decode op with
  | Some VM_B => Ok [1]
  | Some VM_BCOND => Ok [2; 3]
  | Some (VM_INVOKE | VM_INVOKE_VM | VM_INVOKE_EXT | VM_INVOKE_R) => Ok [4; 5]
  | Some (VM_CMP_BR _ _) => Ok [1; 2]
  | Some VM_JUMPTABLE => Ok (range 3 p)
  | Some VM_SWITCH8_BS => Ok (range (3 + p) (p + 1))
  | Some VM_SWITCH32_BS => Ok (range (3 + p * 2) (p + 1))
  | Some VM_SWITCH64_BS => Ok (range (3 + p * 4) (p + 1))
  | _ => Fail ParserError
  end.

Definition fix_branch (offsets : list (Z * Z)) (t : list Z) (off : Z) : res (list Z) :=
  ks ← branch_targets t off; foldR (fix_word offsets off) t ks.

Definition branch_fixup (offsets : list (Z * Z)) (fixups : list Z) (t : list Z)
    : res (list Z) := foldR (fix_branch offsets) t fixups.

(** ** A whole function *)

(** The blocks in order, each with the block after it. *)
Fixpoint emit_bbs (vs : value_state) (rf_offset : Z) (ext : Z → bool) (bbs : list ir_bb)
    (e : emit_state) (offsets : list (Z * Z)) : res (emit_state * list (Z * Z)) :=
  match bbs with
  | [] => Ok (e, offsets)
  | bb :: rest =>
      let offsets := offsets ++ [(ib_id bb, text_pos e)] in
      e ← instr_emit vs rf_offset ext bb (head rest) e;
      emit_bbs vs rf_offset ext rest e offsets
  end.

(** [vm_emit_function] without instrumentation: [if_vm_text], and the offsets
    of the blocks in it. *)
Definition vm_emit_function (vs : value_state) (rf_offset : Z) (ext : Z → bool)
    (bbs : list ir_bb) (stale : nat → Z) (memsize : Z) : res (list Z * list (Z * Z)) :=
  '(e, offsets) ← emit_bbs vs rf_offset ext bbs (mk_emit [] stale memsize []) [];
  t ← branch_fixup offsets (e_fixups e) (e_text e);
  Ok (t, offsets).
