(* ===== verification/VmArith.v ===== *)
(** Arithmetic of the interpreter against arithmetic at the width of a type:
    registers of 8-bit and 16-bit values are 32 bits wide and their upper bits
    are not kept clean, so an operator is right only when those bits do not
    reach the low ones. *)
From S2P Require Import Prelude Support Mem Types Values Heap Libc VmOps Fp Vm.
Local Open Scope Z_scope.

(** ** Low bits of sums, products and bitwise operators *)

Section low_bits.
Context (w W : Z) (Hw : 0 <= w <= W).

Lemma low_add x y : wrap w (wrap W (x + y)) = wrap w (wrap w x + wrap w y).
Proof using Hw. rewrite wrap_le, wrap_add by lia. done. Qed.
Lemma low_sub x y : wrap w (wrap W (x - y)) = wrap w (wrap w x - wrap w y).
Proof using Hw. rewrite wrap_le, wrap_sub by lia. done. Qed.
Lemma low_mul x y : wrap w (wrap W (x * y)) = wrap w (wrap w x * wrap w y).
Proof using Hw. rewrite wrap_le, wrap_mul by lia. done. Qed.
Lemma low_shiftl x n :
  0 <= n → wrap w (wrap W (Z.shiftl x n)) = wrap w (Z.shiftl (wrap w x) n).
Proof using Hw.
  intros Hn. rewrite wrap_le by lia. rewrite !Z.shiftl_mul_pow2 by lia.
  by rewrite <-(wrap_mul w ltac:(lia) (wrap w x)), wrap_wrap, wrap_mul by lia.
Qed.
Lemma low_bitop (f : Z → Z → Z) (g : bool → bool → bool) x y :
  (∀ x y i, Z.testbit (f x y) i = g (Z.testbit x i) (Z.testbit y i)) →
  g false false = false → wrap w (f x y) = f (wrap w x) (wrap w y).
Proof using Hw.
  intros Hf Hg. apply Z.bits_inj'. intros i Hi.
  rewrite Hf, !wrap_testbit, Hf by lia. by destruct (i <? w).
Qed.
End low_bits.

(** ** Operators on registers *)

(** The upper bits that an operator looks at: those of its first and of its
    second operand. *)
Definition upper_lhs (o : binop) : bool :=
  match o with BINOP_UDIV | BINOP_UREM | BINOP_LSHR => true | _ => false end.
Definition upper_rhs (o : binop) : bool :=
  match o with BINOP_UDIV | BINOP_UREM | BINOP_LSHR | BINOP_SHL => true | _ => false end.

Lemma check_bind {A} b e (m : res A) v :
  (_ ← check b e; m) = Ok v → b = true ∧ m = Ok v.
Proof. destruct b; simpl; [done|discriminate]. Qed.

(** Registers with registers: 32-bit operators on [w]-bit values. *)
Lemma c_binop_narrow w o x y v :
  1 <= w <= 32 → 0 <= x < 2 ^ 32 → 0 <= y < 2 ^ 32 →
  signed_lhs o = false →
  (upper_lhs o = true → x = wrap w x) → (upper_rhs o = true → y = wrap w y) →
  c_binop w o (wrap w x) (wrap w y) = Ok v →
  ∃ z, c_binop 32 o x y = Ok z ∧ wrap w z = v.
Proof.
  intros Hw Hx Hy Hs Hux Huy H.
  pose proof (wrap_range w ltac:(lia) x). pose proof (wrap_range w ltac:(lia) y).
  assert (2 ^ w <= 2 ^ 32) by (apply Z.pow_le_mono_r; lia).
  destruct o; try done; unfold c_binop in *; cbn [upper_lhs upper_rhs] in *;
    try (rewrite <-(Hux eq_refl) in H); try (rewrite <-(Huy eq_refl) in H).
  - injection H as <-. eexists; split; [done|]. apply low_add; lia.
  - injection H as <-. eexists; split; [done|]. apply low_sub; lia.
  - injection H as <-. eexists; split; [done|]. apply low_mul; lia.
  - apply check_bind in H as [Hn [= <-]]. rewrite Hn. eexists; split; [done|].
    specialize (Hux eq_refl). apply wrap_small. split; [apply Z.div_pos; lia|].
    enough (x / y <= x) by lia. apply Z.div_le_upper_bound; [lia|]. nia.
  - apply check_bind in H as [Hn [= <-]]. rewrite Hn. eexists; split; [done|].
    specialize (Hux eq_refl). apply wrap_small.
    pose proof (Z.mod_pos_bound x y). pose proof (Z.mod_le x y). lia.
  - apply check_bind in H as [Hr [= <-]].
    assert ((y <? 32) = true) as -> by lia. eexists; split; [done|].
    rewrite low_shiftl by lia. done.
  - apply check_bind in H as [Hr [= <-]].
    assert ((y <? 32) = true) as -> by lia. eexists; split; [done|]. apply wrap_small.
    rewrite Z.shiftr_div_pow2 by lia.
    assert (0 < 2 ^ y) by (apply Z.pow_pos_nonneg; lia).
    split; [apply Z.div_pos; lia|]. apply Z.div_lt_upper_bound; [lia|].
    rewrite (Hux eq_refl). nia.
  - injection H as <-. eexists; split; [done|].
    apply (low_bitop w 32 ltac:(lia) Z.land andb); [apply Z.land_spec|done].
  - injection H as <-. eexists; split; [done|].
    apply (low_bitop w 32 ltac:(lia) Z.lor orb); [apply Z.lor_spec|done].
  - injection H as <-. eexists; split; [done|].
    apply (low_bitop w 32 ltac:(lia) Z.lxor xorb); [apply Z.lxor_spec|done].
Qed.

(** [int] operators on the 16-bit values of the [R16C] form. *)
Lemma c_int_binop_narrow w o x y v :
  1 <= w <= 16 → 0 <= x < 2 ^ 16 → 0 <= y < 2 ^ w →
  signed_lhs o = false → (upper_lhs o = true → x = wrap w x) →
  (o = BINOP_MUL → x * y <= INT32_MAX) →
  c_binop w o (wrap w x) y = Ok v →
  ∃ z, c_int_binop o x y = Ok z ∧ wrap w z = v.
Proof.
  intros Hw Hx Hy Hs Hux Hmul H.
  pose proof (wrap_range w ltac:(lia) x).
  assert (2 ^ w <= 2 ^ 16) by (apply Z.pow_le_mono_r; lia).
  change (2 ^ 16) with 65536 in *.
  assert (wrap w y = y) as Ey by (apply wrap_small; lia).
  destruct o; try done; unfold c_binop, c_int_binop in *; cbn [upper_lhs] in *;
    try (rewrite <-(Hux eq_refl) in H).
  - injection H as <-. rewrite int_arith_ok by (unfold INT32_MIN, INT32_MAX; lia).
    eexists; split; [done|]. by rewrite <-wrap_add, Ey by lia.
  - injection H as <-. rewrite int_arith_ok by (unfold INT32_MIN, INT32_MAX; lia).
    eexists; split; [done|]. by rewrite <-wrap_sub, Ey by lia.
  - injection H as <-. specialize (Hmul eq_refl).
    rewrite int_arith_ok by (unfold INT32_MIN; nia).
    eexists; split; [done|]. by rewrite <-wrap_mul, Ey by lia.
  - apply check_bind in H as [Hn [= <-]]. rewrite Hn. rok.
    rewrite Z.quot_div_nonneg by lia.
    assert (0 <= x / y <= x).
    { split; [apply Z.div_pos; lia|]. apply Z.div_le_upper_bound; [lia|]. nia. }
    rewrite int_arith_ok by (unfold INT32_MIN, INT32_MAX; lia).
    eexists; split; [done|]. apply wrap_small. lia.
  - apply check_bind in H as [Hn [= <-]]. rewrite Hn. rok.
    rewrite Z.rem_mod_nonneg by lia. eexists; split; [done|]. apply wrap_small.
    pose proof (Z.mod_pos_bound x y). pose proof (Z.mod_le x y). lia.
  - apply check_bind in H as [Hr [= <-]].
    assert ((0 <=? y) && (y <? 32) = true) as -> by lia. rok.
    rewrite Z.shiftl_mul_pow2 by lia.
    assert (1 <= 2 ^ y <= 32768).
    { split; [change 1 with (2 ^ 0)|change 32768 with (2 ^ 15)];
        apply Z.pow_le_mono_r; lia. }
    rewrite int_arith_ok by (unfold INT32_MIN, INT32_MAX; nia).
    eexists; split; [done|]. rewrite Z.shiftl_mul_pow2 by lia.
    by rewrite <-(wrap_mul w ltac:(lia) (wrap w x)), wrap_wrap, wrap_mul by lia.
  - apply check_bind in H as [Hr [= <-]].
    assert ((0 <=? y) && (y <? 32) = true) as -> by lia. rok. eexists; split; [done|].
    apply wrap_small. rewrite Z.shiftr_div_pow2 by lia.
    assert (0 < 2 ^ y) by (apply Z.pow_pos_nonneg; lia).
    split; [apply Z.div_pos; lia|]. apply Z.div_lt_upper_bound; [lia|].
    rewrite (Hux eq_refl). nia.
  - injection H as <-. eexists; split; [done|].
    rewrite (low_bitop w 32 ltac:(lia) Z.land andb), Ey; [done|apply Z.land_spec|done].
  - injection H as <-. eexists; split; [done|].
    rewrite (low_bitop w 32 ltac:(lia) Z.lor orb), Ey; [done|apply Z.lor_spec|done].
  - injection H as <-. eexists; split; [done|].
    rewrite (low_bitop w 32 ltac:(lia) Z.lxor xorb), Ey; [done|apply Z.lxor_spec|done].
Qed.

(** The signed operators read both operands at their width. *)
Lemma c_int_binop_signed w o l r v :
  1 <= w <= 16 → signed_lhs o = true → 0 <= r < 2 ^ w →
  c_binop w o l r = Ok v →
  ∃ z, c_int_binop o (sgn w l) (if signed_rhs o then sgn w r else r) = Ok z ∧ wrap w z = v.
Proof.
  intros Hw Hs Hr H.
  pose proof (sgn_range w l ltac:(lia)) as Hl. pose proof (sgn_range w r ltac:(lia)) as Hr'.
  assert (2 ^ (w - 1) <= 2 ^ 15) as Hp by (apply Z.pow_le_mono_r; lia).
  change (2 ^ 15) with 32768 in Hp.
  destruct o; try done; unfold c_binop, c_int_binop, signed_rhs in *; cbn zeta in H.
  - apply check_bind in H as [Hn H]. apply check_bind in H as [_ [= <-]].
    assert (sgn w r ≠ 0) as Hz.
    { intros E. assert (r = 0); [|lia].
      rewrite <-(wrap_small w r), <-wrap_sgn, E by lia. by apply wrap_small; lia. }
    assert (negb (sgn w r =? 0) = true) as -> by lia. rok.
    pose proof (Z.quot_abs (sgn w l) (sgn w r) Hz) as Ha.
    assert (Z.abs (sgn w l) ÷ Z.abs (sgn w r) <= Z.abs (sgn w l)).
    { rewrite Z.quot_div_nonneg by lia. apply Z.div_le_upper_bound; [lia|]. nia. }
    rewrite int_arith_ok by (unfold INT32_MIN, INT32_MAX; lia).
    by eexists.
  - apply check_bind in H as [Hn H]. apply check_bind in H as [_ [= <-]].
    assert (sgn w r ≠ 0) as Hz.
    { intros E. assert (r = 0); [|lia].
      rewrite <-(wrap_small w r), <-wrap_sgn, E by lia. by apply wrap_small; lia. }
    assert (negb (sgn w r =? 0) = true) as -> by lia. rok. by eexists.
  - apply check_bind in H as [Hr2 [= <-]].
    assert ((0 <=? r) && (r <? 32) = true) as -> by lia. rok. by eexists.
Qed.

(** The result of an operator is a [w]-bit value. *)
Lemma c_binop_range w o x y v :
  1 <= w → 0 <= x < 2 ^ w → 0 <= y < 2 ^ w → c_binop w o x y = Ok v → wrap w v = v.
Proof.
  intros Hw Hx Hy H.
  destruct o; unfold c_binop in H; cbn zeta in H;
    repeat match goal with H : _ ≫= _ = Ok _ |- _ => apply check_bind in H as [? H] end;
    injection H as <-; try (apply wrap_wrap; lia).
  - apply wrap_small. split; [apply Z.div_pos; lia|].
    enough (x / y <= x) by lia. apply Z.div_le_upper_bound; [lia|]. nia.
  - apply wrap_small. pose proof (Z.mod_pos_bound x y). pose proof (Z.mod_le x y). lia.
  - apply wrap_small. rewrite Z.shiftr_div_pow2 by lia.
    assert (0 < 2 ^ y) by (apply Z.pow_pos_nonneg; lia).
    split; [apply Z.div_pos; lia|]. apply Z.div_lt_upper_bound; [lia|]. nia.
  - rewrite (low_bitop w w ltac:(lia) Z.land andb), !wrap_small; done || apply Z.land_spec.
  - rewrite (low_bitop w w ltac:(lia) Z.lor orb), !wrap_small; done || apply Z.lor_spec.
  - rewrite (low_bitop w w ltac:(lia) Z.lxor xorb), !wrap_small; done || apply Z.lxor_spec.
Qed.
