(* ===== verification/VmEmit.v ===== *)
(** What the code generator promises to the interpreter: the words [emit_*]
    writes make [vm_exec] compute the instruction. Text is matched with
    [code_at], an operand is read with [operand] and a result is described by
    [result_in]. *)
From S2P Require Import Prelude Support Mem Types Values Heap Libc.
From S2P Require Import VmOps Fp Vm VmArith Instr Emit.
Local Open Scope Z_scope.

(** ** What an emitter wrote *)

(** [e'] is [e] with the words [ws] added. *)
Definition emits (e e' : emit_state) (ws : list Z) : Prop :=
  e_text e' = e_text e ++ ws ∧ e_stale e' = e_stale e ∧ e_memsize e' = e_memsize e.

Lemma emits_nil e : emits e e [].
Proof. unfold emits. by rewrite app_nil_r. Qed.

Lemma emits_app e1 e2 e3 ws1 ws2 :
  emits e1 e2 ws1 → emits e2 e3 ws2 → emits e1 e3 (ws1 ++ ws2).
Proof.
  intros (H1 & H2 & H3) (G1 & G2 & G3). unfold emits.
  rewrite G1, H1, G2, G3, H2, H3. by rewrite app_assoc.
Qed.

Lemma emit_i16_inv e v e' : emit_i16 e v = Ok e' → emits e e' [u16 v] ∧ e_fixups e' = e_fixups e.
Proof. unfold emit_i16. intros H. inv_res. done. Qed.

Lemma emit_i32_inv e v e' : emit_i32 e v = Ok e' → emits e e' (words32 v) ∧ e_fixups e' = e_fixups e.
Proof. unfold emit_i32. intros H. inv_res. done. Qed.

Lemma emit_i64_inv e v e' : emit_i64 e v = Ok e' → emits e e' (words64 v) ∧ e_fixups e' = e_fixups e.
Proof. unfold emit_i64. intros H. inv_res. done. Qed.

(** The word of [emit_i8] has the byte in its low half. *)
Lemma emit_i8_inv e v e' :
  emit_i8 e v = Ok e' →
  ∃ w, emits e e' [w] ∧ u8 w = u8 v ∧ 0 <= w < 65536 ∧ e_fixups e' = e_fixups e.
Proof.
  unfold emit_i8. intros H. inv_res. eexists; split; [done|].
  set (x := Z.shiftr _ _). pose proof (wrap_range 8 ltac:(lia) x).
  pose proof (wrap_range 8 ltac:(lia) v). change (2 ^ 8) with 256 in *.
  split_and!; try lia; [|done].
  unfold wrap at 1. rewrite Z.add_comm, Z.mul_comm. change (2 ^ 8) with 256.
  rewrite Z_mod_plus_full. change 256 with (2 ^ 8). apply wrap_small. done.
Qed.

Lemma emit_words_inv e ws e' :
  emit_words e ws = Ok e' → emits e e' (map (wrap 16) ws) ∧ e_fixups e' = e_fixups e.
Proof.
  revert e; induction ws as [|w ws IH]; intros e H; unfold emit_words in *; simpl in H.
  - inv_res. split; [apply emits_nil|done].
  - inv_res. apply emit_i16_inv in Hm as [H1 H2]. apply IH in H as [H3 H4].
    split; [|congruence]. simpl. eapply (emits_app _ _ _ [_]); eauto.
Qed.

Lemma vm_align32_inv e b e' :
  vm_align32 e b = Ok e' →
  (emits e e' [] ∨ emits e e' [vm_opcode VM_NOP]) ∧ e_fixups e' = e_fixups e.
Proof.
  unfold vm_align32. destruct (Bool.eqb _ _); intros H; inv_res.
  - split; [left; apply emits_nil|done].
  - apply emit_words_inv in H as [H1 H2]. split; [by right|done].
Qed.

(** ** Text at the instruction pointer *)

(** The text of the function has the words [ws] at [I]. *)
Definition code_at (u : vm_unit) (f : vm_frame) (ws : list Z) : Prop :=
  ∃ t, vm_text u f = Ok t ∧ 0 <= f_I f ∧
       take (length ws) (drop (Z.to_nat (f_I f)) t) = ws.

Lemma code_at_word u f ws n w :
  code_at u f ws → ws !! n = Some w → Iw u f (Z.of_nat n) = Ok w.
Proof.
  intros (t & Ht & HI & Hw) Hn. unfold Iw. rewrite Ht. rok.
  destruct (Z.ltb_spec (f_I f + Z.of_nat n) 0); [lia|].
  rewrite <-Hw in Hn. rewrite lookup_take_Some in Hn. destruct Hn as [Hn _].
  rewrite lookup_drop in Hn. rewrite Z2Nat.inj_add, Nat2Z.id by lia. by rewrite Hn.
Qed.

Lemma code_at_app u f ws1 ws2 :
  code_at u f (ws1 ++ ws2) →
  code_at u f ws1 ∧ code_at u (set_I f (f_I f + Z.of_nat (length ws1))) ws2.
Proof.
  intros (t & Ht & HI & Hw). rewrite length_app in Hw.
  set (t' := drop (Z.to_nat (f_I f)) t) in *.
  assert (take (length ws1) t' = ws1) as H1.
  { assert (take (length ws1) (take (length ws1 + length ws2) t') = ws1) as H1
      by (rewrite Hw; by rewrite take_app_length).
    by rewrite take_take, Nat.min_l in H1 by lia. }
  split.
  - exists t. done.
  - exists t. simpl. split_and!; [done|lia|].
    rewrite Z2Nat.inj_add, Nat2Z.id by lia. rewrite <-drop_drop. fold t'.
    rewrite take_drop_commute, Hw. by rewrite drop_app_length.
Qed.

Lemma Iw_set_I u f i r : Iw u (set_I f i) r = Iw u f (i - f_I f + r).
Proof. unfold Iw. simpl. change (vm_text u (set_I f i)) with (vm_text u f).
  by replace (f_I f + (i - f_I f + r)) with (i + r) by lia.
Qed.

(** The opcode is read, the operands are read past it. *)
Lemma vm_step_op h u f op ws :
  code_at u f (vm_opcode op :: ws) →
  vm_step h u f = vm_case h op u (set_I f (f_I f + 1)) ∧
  code_at u (set_I f (f_I f + 1)) ws.
Proof.
  intros H. unfold vm_step. pose proof (code_at_word _ _ _ 0%nat _ H eq_refl) as E.
  change (Z.of_nat 0) with 0 in E. rewrite E. rok.
  rewrite vm_decode_code. split; [done|]. by apply (code_at_app _ _ [_]) in H as [_ H].
Qed.

(** ** Running instructions *)

(** Instructions that go on to the next one. *)
Inductive vm_steps (h : vm_host) : nat → vm_unit → vm_frame → vm_unit → vm_frame → Prop :=
  | steps_refl u f : vm_steps h 0 u f u f
  | steps_go n u f u1 f1 u2 f2 :
      vm_step h u f = Ok (N_go u1 f1) → vm_steps h n u1 f1 u2 f2 →
      vm_steps h (S n) u f u2 f2.

Lemma steps_one h u f u' f' : vm_step h u f = Ok (N_go u' f') → vm_steps h 1 u f u' f'.
Proof. intros H. econstructor; [done|constructor]. Qed.

Lemma steps_trans h n m u1 f1 u2 f2 u3 f3 :
  vm_steps h n u1 f1 u2 f2 → vm_steps h m u2 f2 u3 f3 → vm_steps h (n + m) u1 f1 u3 f3.
Proof. induction 1; simpl; [done|]. intros. econstructor; eauto. Qed.

(** [vm_exec] runs them. *)
Lemma vm_exec_steps h n u f u' f' fuel :
  vm_steps h n u f u' f' → vm_exec (n + fuel) h u f = vm_exec fuel h u' f'.
Proof. induction 1; simpl; [done|]. rewrite H. rok. done. Qed.

Lemma set_I_set_I f i j : set_I (set_I f i) j = set_I f j.
Proof. done. Qed.

(** An alignment [NOP] is stepped over. *)
Lemma steps_align h u f ws :
  (ws = [] ∨ ws = [vm_opcode VM_NOP]) → code_at u f ws →
  ∃ n, vm_steps h n u f u (set_I f (f_I f + Z.of_nat (length ws))).
Proof.
  intros [->| ->] H.
  - exists 0%nat. simpl. rewrite Z.add_0_r. destruct f. constructor.
  - exists 1%nat. apply vm_step_op with (h := h) in H as [H _]. apply steps_one. rewrite H.
    unfold vm_case; simpl. unfold next. simpl. by rewrite Z.add_0_r.
Qed.

(** ** Immediates *)

Lemma UIMM32_words u f r v :
  Iw u f r = Ok (u16 v) → Iw u f (r + 1) = Ok (u16 (Z.shiftr v 16)) →
  UIMM32 u f r = Ok (u32 v).
Proof.
  intros H1 H2. unfold UIMM32. rewrite H1, H2. rok. f_equal.
  rewrite Z.shiftr_div_pow2 by lia. unfold wrap. change 65536 with (2 ^ 16).
  rewrite <-Z.rem_mul_r by lia. done.
Qed.

(** The immediate is at the end of the words that are at [I]. *)
Lemma UIMM32_at u f ws v ws2 r :
  code_at u f (ws ++ words32 v ++ ws2) → r = Z.of_nat (length ws) →
  UIMM32 u f r = Ok (u32 v).
Proof.
  intros H ->. apply UIMM32_words.
  - eapply code_at_word; [done|]. by rewrite lookup_app_r, Nat.sub_diag by lia.
  - replace (Z.of_nat (length ws) + 1) with (Z.of_nat (S (length ws))) by lia.
    eapply code_at_word; [done|]. rewrite lookup_app_r by lia.
    by replace (S (length ws) - length ws)%nat with 1%nat by lia.
Qed.

Lemma UIMM64_at u f ws v ws2 r :
  code_at u f (ws ++ words64 v ++ ws2) → r = Z.of_nat (length ws) →
  UIMM64 u f r = Ok (u64 v).
Proof.
  intros H ->. unfold words64 in H. rewrite <-app_assoc in H. unfold UIMM64.
  rewrite (UIMM32_at _ _ _ _ _ _ H eq_refl). rok.
  rewrite app_assoc in H. erewrite (UIMM32_at _ _ _ _ _ _ H); [|rewrite length_app; simpl; lia].
  rok. f_equal. rewrite Z.shiftr_div_pow2 by lia. unfold wrap.
  change 4294967296 with (2 ^ 32). rewrite <-Z.rem_mul_r by lia. done.
Qed.

(** ** Operands and results *)

(** The register [reg] of the frame at [rf]. *)
Definition reg_addr (rf reg : Z) : Z := rf + s16 reg.

(** Eight bytes of the frame are inside the memory of the registers. *)
Definition reg_ok (u : vm_unit) (rf reg : Z) : Prop :=
  mem_ok (u_regs u) ∧ 0 <= reg_addr rf reg ∧ reg_addr rf reg + 8 <= mem_size (u_regs u).

(** A 64-bit value takes two slots, the others one. *)
Definition reg_raw (w : Z) (u : vm_unit) (rf reg : Z) : res Z :=
  if w =? 64 then mem_rd64 (u_regs u) (reg_addr rf reg)
  else mem_rd32 (u_regs u) (reg_addr rf reg).
Definition reg_rd (w : Z) (u : vm_unit) (rf reg : Z) : res Z :=
  v ← reg_raw w u rf reg; Ok (wrap w v).

(** [u'] is [u] with a value that is [v] on its low [w] bits in [reg]. *)
Definition result_in (w : Z) (u : vm_unit) (rf reg v : Z) (u' : vm_unit) : Prop :=
  ∃ x m, wrap w x = v ∧
    (if w =? 64 then mem_wr64 else mem_wr32) (u_regs u) (reg_addr rf reg) x = Ok m ∧
    u' = upd_regs u m.

Lemma result_in_rd w u rf reg v u' :
  1 <= w <= 32 ∨ w = 64 → result_in w u rf reg v u' → reg_rd w u' rf reg = Ok v.
Proof.
  intros Hw (x & m & <- & Hm & ->). unfold reg_rd, reg_raw. simpl.
  destruct (Z.eqb_spec w 64) as [->|].
  - unfold mem_rd64, mem_wr64 in *. rewrite (rd_wr_same _ _ _ _ _ Hm). rok.
    f_equal. apply wrap_wrap. lia.
  - unfold mem_rd32, mem_wr32 in *. rewrite (rd_wr_same _ _ _ _ _ Hm). rok.
    f_equal. apply (wrap_le w 32). lia.
Qed.

(** Other registers, the memory of the guest and the rest of the unit stay. *)
Lemma result_in_other w u rf reg v u' k a :
  result_in w u rf reg v u' →
  a + Z.of_nat k <= reg_addr rf reg ∨ reg_addr rf reg + (if w =? 64 then 8 else 4) <= a →
  rd_le k (u_regs u') a = rd_le k (u_regs u) a ∧ u_mem u' = u_mem u ∧
  u_vm_funcs u' = u_vm_funcs u.
Proof.
  intros (x & m & _ & Hm & ->) Ha. simpl. split; [|done].
  destruct (w =? 64); unfold mem_wr64, mem_wr32 in *; eapply rd_wr_other; eauto.
Qed.

Section operands.
Context (types : list ir_type).

(** The [w]-bit value of an operand: a register, the address of a function or
    a constant. *)
Definition operand (w : Z) (iv : ir_value) (u : vm_unit) (rf : Z) : res Z :=
  match iv_class iv with
  | IR_VC_REGFRAME => r ← value_reg iv; reg_rd w u rf r
  | IR_VC_FUNCTION => v ← value_function_addr iv; Ok (wrap w v)
  | _ =>
      v ← (if w =? 64 then value_get_const64 types iv else value_get_const32 types iv);
      Ok (wrap w v)
  end.

(** The register of an operand has no bits above the [w] low ones. *)
Definition clean (w : Z) (iv : ir_value) (u : vm_unit) (rf : Z) : res bool :=
  match iv_class iv with
  | IR_VC_REGFRAME =>
      r ← value_reg iv; x ← reg_raw w u rf r; Ok (x =? wrap w x)
  | _ => Ok true
  end.
End operands.

(** The code between [e] and [e'] has no branches, and where it stands [R]
    holds of the state before it and the frame that has passed it. *)
Definition emits_code (e e' : emit_state)
    (R : vm_host → vm_unit → vm_frame → vm_frame → Prop) : Prop :=
  ∃ ws, emits e e' ws ∧ e_fixups e' = e_fixups e ∧
  ∀ h u f, code_at u f ws → R h u f (set_I f (f_I f + Z.of_nat (length ws))).

(** It puts [val] into the register [dreg], as a [w]-bit value: whenever [val]
    is defined, running the code reaches its end with the result, and nothing
    else has changed. *)
Definition emits_result (e e' : emit_state) (w dreg : Z)
    (val : vm_unit → Z → res Z) : Prop :=
  emits_code e e' (λ h u f f', ∀ v,
    val u (f_rf f) = Ok v → reg_ok u (f_rf f) dreg →
    ∃ n u', vm_steps h n u f u' f' ∧ result_in w u (f_rf f) dreg v u').

Lemma emits_code_weaken e e' (R R' : vm_host → vm_unit → vm_frame → vm_frame → Prop) :
  emits_code e e' R → (∀ h u f f', R h u f f' → R' h u f f') → emits_code e e' R'.
Proof.
  intros (ws & He & Hf & Hrun) HR. exists ws. split_and!; [done|done|].
  intros h u f Hc. by apply HR, Hrun.
Qed.

(** One instruction, perhaps after an alignment [NOP]. *)
Lemma emits_result_op e e0 e' pre op args w dreg val :
  (pre = [] ∨ pre = [vm_opcode VM_NOP]) → emits e e0 pre →
  emits e0 e' (vm_opcode op :: args) → e_fixups e' = e_fixups e →
  (∀ h u f v, code_at u f args → val u (f_rf f) = Ok v → reg_ok u (f_rf f) dreg →
   ∃ u', vm_case h op u f = Ok (N_go u' (set_I f (f_I f + Z.of_nat (length args)))) ∧
         result_in w u (f_rf f) dreg v u') →
  emits_result e e' w dreg val.
Proof.
  intros Hpre H1 H2 Hf Hrun. exists (pre ++ vm_opcode op :: args).
  split_and!; [by eapply emits_app|done|]. intros h u f Hc v Hv Hr.
  apply code_at_app in Hc as [Hc1 Hc2].
  destruct (steps_align h u f pre Hpre Hc1) as [n Hn].
  apply (vm_step_op h) in Hc2 as [Hs Hc2]. rewrite set_I_set_I in *. cbn [f_I set_I] in *.
  edestruct (Hrun h u (set_I f (f_I f + Z.of_nat (length pre) + 1)) v) as (u' & Hu & Hres);
    [done|done|done|].
  exists (n + 1)%nat, u'. split; [|done]. eapply steps_trans; [exact Hn|].
  apply steps_one. rewrite Hs, Hu. rewrite set_I_set_I. cbn [f_I set_I].
  do 3 f_equal. rewrite length_app. cbn [length]. lia.
Qed.

(** Reading the registers of an instruction. *)
Lemma vm_reg_at u f ws n reg :
  code_at u f ws → ws !! n = Some (u16 reg) →
  vm_reg u f (Z.of_nat n) = Ok (reg_addr (f_rf f) reg).
Proof.
  intros Hc Hn. unfold vm_reg. rewrite (code_at_word _ _ _ _ _ Hc Hn). rok.
  by rewrite sgn_wrap.
Qed.

Lemma R32_at u f ws n reg :
  code_at u f ws → ws !! n = Some (u16 reg) →
  R32 u f (Z.of_nat n) = mem_rd32 (u_regs u) (reg_addr (f_rf f) reg).
Proof. intros Hc Hn. unfold R32. by rewrite (vm_reg_at _ _ _ _ _ Hc Hn). Qed.

Lemma R64_at u f ws n reg :
  code_at u f ws → ws !! n = Some (u16 reg) →
  R64 u f (Z.of_nat n) = mem_rd64 (u_regs u) (reg_addr (f_rf f) reg).
Proof. intros Hc Hn. unfold R64. by rewrite (vm_reg_at _ _ _ _ _ Hc Hn). Qed.

(** [AR32(0, x); NEXT(skip)] puts [x] into the first register. *)
Lemma ret32_at w u f ws dreg x v skip :
  w ≠ 64 → code_at u f ws → ws !! 0%nat = Some (u16 dreg) → reg_ok u (f_rf f) dreg →
  wrap w x = v →
  ∃ u', ret32 u f x skip = Ok (N_go u' (set_I f (f_I f + skip))) ∧
        result_in w u (f_rf f) dreg v u'.
Proof.
  intros Hw Hc H0 (_ & Ho & Ho') Hx.
  destruct (wr_le_total 4 (u_regs u) (reg_addr (f_rf f) dreg) x) as [m Hm]; [lia|lia|].
  exists (upd_regs u m). unfold ret32, AR32.
  change 0 with (Z.of_nat 0). rewrite (vm_reg_at _ _ _ _ _ Hc H0). rok.
  unfold mem_wr32. rewrite Hm. rok. split; [done|].
  exists x, m. split; [done|]. by rewrite (proj2 (Z.eqb_neq w 64) Hw).
Qed.

Lemma ret64_at u f ws dreg x v skip :
  code_at u f ws → ws !! 0%nat = Some (u16 dreg) → reg_ok u (f_rf f) dreg →
  u64 x = v →
  ∃ u', ret64 u f x skip = Ok (N_go u' (set_I f (f_I f + skip))) ∧
        result_in 64 u (f_rf f) dreg v u'.
Proof.
  intros Hc H0 (_ & Ho & Ho') Hx.
  destruct (wr_le_total 8 (u_regs u) (reg_addr (f_rf f) dreg) x) as [m Hm]; [lia|lia|].
  exists (upd_regs u m). unfold ret64, AR64.
  change 0 with (Z.of_nat 0). rewrite (vm_reg_at _ _ _ _ _ Hc H0). rok.
  unfold mem_wr64. rewrite Hm. rok. split; [done|]. by exists x, m.
Qed.

(** The registers an instruction reads, as facts about its operands. *)
Ltac at_word Hc n :=
  let E := fresh "E" in
  pose proof (code_at_word _ _ _ n _ Hc eq_refl) as E; let z := eval compute in (Z.of_nat n) in change (Z.of_nat n) with z in E.
Ltac at_r32 Hc n :=
  let E := fresh "E" in
  pose proof (R32_at _ _ _ n _ Hc eq_refl) as E; let z := eval compute in (Z.of_nat n) in change (Z.of_nat n) with z in E.
Ltac at_r64 Hc n :=
  let E := fresh "E" in
  pose proof (R64_at _ _ _ n _ Hc eq_refl) as E; let z := eval compute in (Z.of_nat n) in change (Z.of_nat n) with z in E.

(** ** Binary operators *)

(** What [w]-bit operator [o] gives; [clean] operands where the upper bits of
    the registers would reach the result, and a product of the 16-bit
    immediate form that fits an [int]. *)
Definition binop_value (types : list ir_type) (w : Z) (o : binop) (lv rv : ir_value)
    (u : vm_unit) (rf : Z) : res Z :=
  l ← operand types w lv u rf; r ← operand types w rv u rf;
  cl ← clean w lv u rf; cr ← clean w rv u rf;
  _ ← check (implb (upper_lhs o) cl && implb (upper_rhs o) cr) Undef;
  _ ← check (implb (bool_decide (o = BINOP_MUL) && (w =? 16)
                    && bool_decide (iv_class rv = IR_VC_CONSTANT))
               (l * r <=? INT32_MAX)) Undef;
  c_binop w o l r.

(** The width of an integer type code. *)
Definition int_width (c : ir_type_code) : option Z :=
  match c with
  | IR_TYPE_INT8 => Some 8 | IR_TYPE_INT16 => Some 16 | IR_TYPE_INT32 => Some 32
  | IR_TYPE_INT64 => Some 64 | _ => None
  end.

Lemma operand_reg types w iv r u rf :
  iv_class iv = IR_VC_REGFRAME → value_reg iv = Ok r →
  operand types w iv u rf = reg_rd w u rf r ∧
  clean w iv u rf = (x ← reg_raw w u rf r; Ok (x =? wrap w x)).
Proof. intros H1 H2. unfold operand, clean. by rewrite H1, H2. Qed.

Lemma operand_const types w iv u rf :
  iv_class iv = IR_VC_CONSTANT ∨ iv_class iv = IR_VC_GLOBALVAR →
  operand types w iv u rf =
    (v ← (if w =? 64 then value_get_const64 types iv else value_get_const32 types iv);
     Ok (wrap w v)) ∧
  clean w iv u rf = Ok true.
Proof. intros [H|H]; unfold operand, clean; by rewrite H. Qed.

(** A register of at most 32 bits. *)
Lemma reg_raw_range w u rf r x :
  mem_ok (u_regs u) → w ≠ 64 → reg_raw w u rf r = Ok x →
  mem_rd32 (u_regs u) (reg_addr rf r) = Ok x ∧ 0 <= x < 2 ^ 32.
Proof.
  unfold reg_raw. intros Hm Hw H. rewrite (proj2 (Z.eqb_neq w 64) Hw) in H.
  split; [done|]. by apply (rd_le_range 4) in H.
Qed.

Lemma reg_raw64_range u rf r x :
  mem_ok (u_regs u) → reg_raw 64 u rf r = Ok x →
  mem_rd64 (u_regs u) (reg_addr rf r) = Ok x ∧ 0 <= x < 2 ^ 64.
Proof. intros Hm H. split; [done|]. by apply (rd_le_range 8) in H. Qed.

Section binop_rr.
Context (types : list ir_type) (w : Z) (o : binop) (lv rv : ir_value) (l r : Z).
Context (Hlc : iv_class lv = IR_VC_REGFRAME) (Hl : value_reg lv = Ok l).
Context (Hrc : iv_class rv = IR_VC_REGFRAME) (Hr : value_reg rv = Ok r).

(** The registers behind [binop_value]. *)
Lemma binop_value_rr u rf v :
  binop_value types w o lv rv u rf = Ok v →
  ∃ x y, reg_raw w u rf l = Ok x ∧ reg_raw w u rf r = Ok y ∧
    (upper_lhs o = true → x = wrap w x) ∧ (upper_rhs o = true → y = wrap w y) ∧
    c_binop w o (wrap w x) (wrap w y) = Ok v.
Proof using Hlc Hl Hrc Hr.
  unfold binop_value. destruct (operand_reg types w lv l u rf Hlc Hl) as [-> ->].
  destruct (operand_reg types w rv r u rf Hrc Hr) as [-> ->]. unfold reg_rd. intros H.
  destruct (reg_raw w u rf l) as [x|]; [|discriminate].
  destruct (reg_raw w u rf r) as [y|]; [|discriminate].
  revert H. rok. intros H. apply check_bind in H as [H1 H]. apply check_bind in H as [_ H].
  exists x, y. split_and!; try done; intros E; rewrite E in H1; simpl in H1;
    destruct (upper_lhs o), (upper_rhs o); simpl in H1; lia.
Qed.

Lemma run_bin_r32 h u f d v :
  w = 32 ∨ (1 <= w <= 32 ∧ signed_lhs o = false) →
  code_at u f [u16 d; u16 l; u16 r] → reg_ok u (f_rf f) d →
  binop_value types w o lv rv u (f_rf f) = Ok v →
  ∃ u', vm_case h (VM_BIN K_R32 o) u f = Ok (N_go u' (set_I f (f_I f + 3))) ∧
        result_in w u (f_rf f) d v u'.
Proof using Hlc Hl Hrc Hr.
  intros Hw Hc Hd Hv. apply binop_value_rr in Hv as (x & y & Hx & Hy & Hux & Huy & Hv).
  pose proof (proj1 Hd) as Hm.
  apply reg_raw_range in Hx as [Hx Hxr]; [|done|lia].
  apply reg_raw_range in Hy as [Hy Hyr]; [|done|lia].
  assert (∃ z, c_binop 32 o x y = Ok z ∧ wrap w z = v) as (z & Hz & Hzw).
  { destruct Hw as [->|[Hw Hs]]; [|by eapply c_binop_narrow].
    exists v. rewrite !wrap_small in Hv by done. split; [done|].
    by apply (c_binop_range 32 o x y). }
  at_r32 Hc 1%nat. at_r32 Hc 2%nat. simpl. unfold exec_bin. rewrite E, Hx. rok.
  rewrite E0, Hy. rok. rewrite Hz. rok. eapply ret32_at; eauto; lia.
Qed.

(** The opcodes of the signed operators on 8 and 16 bits. *)
Lemma run_small_rr h u f d v :
  w = 8 ∨ w = 16 → signed_lhs o = true →
  code_at u f [u16 d; u16 l; u16 r] → reg_ok u (f_rf f) d →
  binop_value types w o lv rv u (f_rf f) = Ok v →
  let op := match o with
            | BINOP_SDIV => if w =? 8 then VM_SDIV_R8 else VM_SDIV_R16
            | BINOP_SREM => if w =? 8 then VM_SREM_R8 else VM_SREM_R16
            | _ => if w =? 8 then VM_ASHR_R8 else VM_ASHR_R16
            end in
  ∃ u', vm_case h op u f = Ok (N_go u' (set_I f (f_I f + 3))) ∧
        result_in w u (f_rf f) d v u'.
Proof using Hlc Hl Hrc Hr.
  intros Hw Hs Hc Hd Hv op. apply binop_value_rr in Hv as (x & y & Hx & Hy & _ & _ & Hv).
  pose proof (proj1 Hd) as Hm.
  apply reg_raw_range in Hx as [Hx _]; [|done|lia].
  apply reg_raw_range in Hy as [Hy _]; [|done|lia].
  destruct (c_int_binop_signed w o (wrap w x) (wrap w y) v) as (z & Hz & Hzw);
    [lia|done|apply wrap_range; lia|done|].
  at_r32 Hc 1%nat. at_r32 Hc 2%nat.
  rewrite !sgn_wrap in Hz by lia.
  assert (∃ u', ret32 u f z 3 = Ok (N_go u' (set_I f (f_I f + 3))) ∧
                result_in w u (f_rf f) d v u') as (u' & Hu & Hres).
  { eapply ret32_at; eauto. lia. }
  exists u'. split; [|done]. rewrite <-Hu. subst op.
  destruct Hw as [Hw|Hw]; rewrite Hw in Hz |- *; destruct o; try done; cbn [Z.eqb Pos.eqb]; cbv beta iota zeta delta [vm_case vm_op_group exec_small S8 R8 S16 R16];
    rewrite E, Hx; rok; rewrite E0, Hy; rok; cbn [signed_rhs] in Hz; rewrite Hz; done.
Qed.

Lemma run_bin_r64 h u f d v :
  w = 64 → code_at u f [u16 d; u16 l; u16 r] → reg_ok u (f_rf f) d →
  binop_value types w o lv rv u (f_rf f) = Ok v →
  ∃ u', vm_case h (VM_BIN K_R64 o) u f = Ok (N_go u' (set_I f (f_I f + 3))) ∧
        result_in w u (f_rf f) d v u'.
Proof using Hlc Hl Hrc Hr.
  intros Hw Hc Hd Hv. apply binop_value_rr in Hv as (x & y & Hx & Hy & _ & _ & Hv).
  rewrite Hw in Hx, Hy, Hv |- *.
  pose proof (proj1 Hd) as Hm.
  apply reg_raw64_range in Hx as [Hx Hxr]; [|done].
  apply reg_raw64_range in Hy as [Hy Hyr]; [|done].
  rewrite !wrap_small in Hv by done.
  at_r64 Hc 1%nat. at_r64 Hc 2%nat. simpl. unfold exec_bin. rewrite E, Hx. rok.
  rewrite E0, Hy. rok. rewrite Hv. rok. eapply ret64_at; eauto.
  by apply (c_binop_range 64 o x y).
Qed.
End binop_rr.

(** *** An operator of a register and a constant *)

Section binop_rc.
Context (types : list ir_type) (w : Z) (o : binop) (lv rv : ir_value) (l c : Z).
Context (Hlc : iv_class lv = IR_VC_REGFRAME) (Hl : value_reg lv = Ok l).
Context (Hrc : iv_class rv = IR_VC_CONSTANT).
Context (Hconst : (if w =? 64 then value_get_const64 types rv
                   else value_get_const32 types rv) = Ok c).

Lemma binop_value_rc u rf v :
  binop_value types w o lv rv u rf = Ok v →
  ∃ x, reg_raw w u rf l = Ok x ∧ (upper_lhs o = true → x = wrap w x) ∧
    (o = BINOP_MUL → w = 16 → wrap w x * wrap w c <= INT32_MAX) ∧
    c_binop w o (wrap w x) (wrap w c) = Ok v.
Proof using Hlc Hl Hrc Hconst.
  unfold binop_value. destruct (operand_reg types w lv l u rf Hlc Hl) as [-> ->].
  destruct (operand_const types w rv u rf (or_introl Hrc)) as [-> ->].
  unfold reg_rd. rewrite Hconst. intros H.
  destruct (reg_raw w u rf l) as [x|]; [|discriminate]. revert H. rok. intros H.
  apply check_bind in H as [H1 H]. apply check_bind in H as [H2 H].
  exists x. split_and!; try done.
  - intros E. rewrite E in H1. simpl in H1. lia.
  - intros -> ->. rewrite Hrc in H2. simpl in H2. lia.
Qed.

(** The immediate form with 16 bits: unsigned operators. *)
Lemma run_bin_r16c h u f d v :
  w = 8 ∨ w = 16 → (w = 8 → signed_lhs o = false) →
  code_at u f [u16 d; u16 l; u16 (wrap w c)] → reg_ok u (f_rf f) d →
  binop_value types w o lv rv u (f_rf f) = Ok v →
  ∃ u', vm_case h (VM_BIN K_R16C o) u f = Ok (N_go u' (set_I f (f_I f + 3))) ∧
        result_in w u (f_rf f) d v u'.
Proof using Hlc Hl Hrc Hconst.
  intros Hw Hs Hc Hd Hv. apply binop_value_rc in Hv as (x & Hx & Hux & Hmul & Hv).
  pose proof (proj1 Hd) as Hm.
  apply reg_raw_range in Hx as [Hx Hxr]; [|done|lia].
  at_r32 Hc 1%nat. at_word Hc 2%nat.
  assert (u16 (wrap w c) = wrap w c) as Ec.
  { apply wrap_small. pose proof (wrap_range w ltac:(lia) c).
    assert (2 ^ w <= 2 ^ 16) by (apply Z.pow_le_mono_r; lia). lia. }
  rewrite Ec in E0.
  assert (∃ z, c_int_binop o (if signed_lhs o then s16 x else u16 x)
                 (if signed_rhs o then s16 (wrap w c) else wrap w c) = Ok z ∧ wrap w z = v)
    as (z & Hz & Hzw).
  { destruct (signed_lhs o) eqn:Es.
    - assert (w = 16) as ->. { destruct Hw as [Hw|]; [|done]. by specialize (Hs Hw). }
      destruct (c_int_binop_signed 16 o (u16 x) (u16 c) v) as (z & Hz & Hzw);
        [lia|done|apply wrap_range; lia|done|]. rewrite sgn_wrap in Hz by lia. by exists z.
    - assert (signed_rhs o = false) as -> by (by destruct o).
      apply c_int_binop_narrow; try done; try lia.
      + apply wrap_range; lia.
      + apply wrap_range; lia.
      + intros E1. rewrite (wrap_le w 16) by lia. rewrite <-(Hux E1).
        apply wrap_small. specialize (Hux E1). pose proof (wrap_range w ltac:(lia) x).
        assert (2 ^ w <= 2 ^ 16) by (apply Z.pow_le_mono_r; lia). lia.
      + intros ->. destruct Hw as [-> | ->]; [|by apply Hmul].
        pose proof (wrap_range 16 ltac:(lia) x). pose proof (wrap_range 8 ltac:(lia) c).
        change (2 ^ 16) with 65536 in *. change (2 ^ 8) with 256 in *.
        unfold INT32_MAX. nia.
      + by rewrite (wrap_le w 16) by lia. }
  simpl. unfold exec_bin, S16, R16, SIMM16.
  destruct (signed_lhs o), (signed_rhs o); rewrite E, Hx; rok; rewrite E0; rok;
    rewrite Hz; rok; eapply ret32_at; eauto; lia.
Qed.

(** The immediate forms of the signed operators on 8 bits; the byte is the
    low half of its word. *)
Lemma run_small_rc h u f d cw v :
  w = 8 → signed_lhs o = true → u8 cw = u8 c →
  code_at u f [u16 d; u16 l; cw] → reg_ok u (f_rf f) d →
  binop_value types w o lv rv u (f_rf f) = Ok v →
  let op := match o with
            | BINOP_SDIV => VM_SDIV_R8C | BINOP_SREM => VM_SREM_R8C | _ => VM_ASHR_R8C
            end in
  ∃ u', vm_case h op u f = Ok (N_go u' (set_I f (f_I f + 3))) ∧
        result_in w u (f_rf f) d v u'.
Proof using Hlc Hl Hrc Hconst.
  intros Hw Hs Hcw Hc Hd Hv op. apply binop_value_rc in Hv as (x & Hx & _ & _ & Hv).
  rewrite Hw in Hx, Hv |- *.
  pose proof (proj1 Hd) as Hm. apply reg_raw_range in Hx as [Hx _]; [|done|lia].
  destruct (c_int_binop_signed 8 o (u8 x) (u8 c) v) as (z & Hz & Hzw);
    [lia|done|apply wrap_range; lia|done|].
  at_r32 Hc 1%nat. at_word Hc 2%nat.
  rewrite sgn_wrap in Hz by lia.
  assert (∃ u', ret32 u f z 3 = Ok (N_go u' (set_I f (f_I f + 3))) ∧
                result_in 8 u (f_rf f) d v u') as (u' & Hu & Hres)
    by (eapply ret32_at; eauto; lia).
  exists u'. split; [|done]. rewrite <-Hu. subst op.
  destruct o; try done; cbv beta iota zeta delta [vm_case vm_op_group exec_small S8 SIMM8 UIMM8];
    rewrite E, Hx; rok; rewrite E0; rok; rewrite Hcw; cbn [signed_rhs] in Hz;
    rewrite Hz; done.
Qed.

Lemma run_bin_r32c h u f d v :
  w = 32 → code_at u f ([u16 d; u16 l] ++ words32 c) → reg_ok u (f_rf f) d →
  binop_value types w o lv rv u (f_rf f) = Ok v →
  ∃ u', vm_case h (VM_BIN K_R32C o) u f = Ok (N_go u' (set_I f (f_I f + 4))) ∧
        result_in w u (f_rf f) d v u'.
Proof using Hlc Hl Hrc Hconst.
  intros Hw Hc Hd Hv. apply binop_value_rc in Hv as (x & Hx & _ & _ & Hv).
  rewrite Hw in Hx, Hv |- *.
  pose proof (proj1 Hd) as Hm. apply reg_raw_range in Hx as [Hx Hxr]; [|done|lia].
  rewrite (wrap_small 32 x) in Hv by done.
  at_r32 Hc 1%nat. pose proof (UIMM32_at u f [u16 d; u16 l] c [] 2) as Ec.
  rewrite app_nil_r in Ec. specialize (Ec Hc eq_refl).
  simpl. unfold exec_bin. rewrite E, Hx. rok. rewrite Ec. rok. rewrite Hv. rok.
  eapply (ret32_at 32); eauto. apply (c_binop_range 32 o x (u32 c)); try done.
  apply wrap_range; lia.
Qed.

(** Increment and decrement. *)
Lemma run_incdec h u f d v :
  w = 32 → 0 <= c < 2 ^ 32 → code_at u f [u16 d; u16 l] → reg_ok u (f_rf f) d →
  binop_value types w o lv rv u (f_rf f) = Ok v →
  is_inc (binop_code o) c = true ∨ is_dec (binop_code o) c = true →
  let op := if is_inc (binop_code o) c then VM_INC_R32 else VM_DEC_R32 in
  ∃ u', vm_case h op u f = Ok (N_go u' (set_I f (f_I f + 2))) ∧
        result_in w u (f_rf f) d v u'.
Proof using Hlc Hl Hrc Hconst.
  intros Hw Hcr Hc Hd Hv Ho op. apply binop_value_rc in Hv as (x & Hx & _ & _ & Hv).
  rewrite Hw in Hx, Hv |- *.
  pose proof (proj1 Hd) as Hm. apply reg_raw_range in Hx as [Hx Hxr]; [|done|lia].
  rewrite !wrap_small in Hv by done. at_r32 Hc 1%nat.
  set (z := if is_inc (binop_code o) c then x + 1 else x - 1).
  assert (u32 z = v) as Hz.
  { subst z. unfold is_inc, is_dec in *.
    destruct o; simpl in Ho; try (by destruct Ho); simpl; simpl in Hv; injection Hv as <-.
    - rewrite orb_false_r in *. destruct (Z.eqb_spec c 1) as [->|]; [done|].
      destruct Ho as [Ho|Ho]; [lia|]. assert (c = 4294967295) as -> by lia.
      unfold wrap. rewrite <-(Z_mod_plus_full (x - 1) 1). f_equal. lia.
    - destruct (Z.eqb_spec c 4294967295) as [->|].
      + unfold wrap. rewrite <-(Z_mod_plus_full (x + 1) (-1)). f_equal. lia.
      + destruct Ho as [Ho|Ho]; [lia|]. by assert (c = 1) as -> by lia. }
  assert (∃ u', ret32 u f z 2 = Ok (N_go u' (set_I f (f_I f + 2))) ∧
                result_in 32 u (f_rf f) d v u') as (u' & Hu & Hres)
    by (eapply ret32_at; eauto; lia).
  exists u'. split; [|done]. rewrite <-Hu. subst op z.
  destruct (is_inc _ _); simpl; unfold exec_incdec; rewrite E, Hx; done.
Qed.

Lemma run_bin_r64c h u f d v :
  w = 64 → code_at u f ([u16 d; u16 l] ++ words64 c) → reg_ok u (f_rf f) d →
  binop_value types w o lv rv u (f_rf f) = Ok v →
  ∃ u', vm_case h (VM_BIN K_R64C o) u f = Ok (N_go u' (set_I f (f_I f + 6))) ∧
        result_in w u (f_rf f) d v u'.
Proof using Hlc Hl Hrc Hconst.
  intros Hw Hc Hd Hv. apply binop_value_rc in Hv as (x & Hx & _ & _ & Hv).
  rewrite Hw in Hx, Hv |- *.
  pose proof (proj1 Hd) as Hm. apply reg_raw64_range in Hx as [Hx Hxr]; [|done].
  rewrite (wrap_small 64 x) in Hv by done.
  at_r64 Hc 1%nat. pose proof (UIMM64_at u f [u16 d; u16 l] c [] 2) as Ec.
  rewrite app_nil_r in Ec. specialize (Ec Hc eq_refl).
  simpl. unfold exec_bin. rewrite E, Hx. rok. rewrite Ec. rok. rewrite Hv. rok.
  eapply ret64_at; eauto. apply (c_binop_range 64 o x (u64 c)); try done.
  apply wrap_range; lia.
Qed.
End binop_rc.

Lemma value_get_const32_range types iv c : value_get_const32 types iv = Ok c → 0 <= c < 2 ^ 32.
Proof.
  unfold value_get_const32, iv_u32, iv_u64. intros H. inv_res.
  repeat case_match; inv_res; try discriminate;
    repeat case_match; inv_res; try discriminate;
    first [apply wrap_range; lia | unfold bool_to_Z; case_match; lia].
Qed.

(** Emitters whose words are known, as premises of [emits_result_op]. *)
Lemma emit_words_emits e ws e' :
  emit_words e ws = Ok e' → emits e e' (map (wrap 16) ws).
Proof. intros H. by apply emit_words_inv in H as [H _]. Qed.

Lemma vm_opcode_u16 op : u16 (vm_opcode op) = vm_opcode op.
Proof. apply wrap_small. pose proof (vm_opcode_range op). lia. Qed.

(** [emit_op2] and [emit_op3] of an opcode. *)
Lemma emit_op2_inv e op a b e' :
  emit_op2 e (vm_opcode op) a b = Ok e' →
  emits e e' (vm_opcode op :: [u16 a; u16 b]) ∧ e_fixups e' = e_fixups e.
Proof.
  intros H. apply emit_words_inv in H. simpl in H. by rewrite vm_opcode_u16 in H.
Qed.

Lemma emit_op3_inv e op a b c e' :
  emit_op3 e (vm_opcode op) a b c = Ok e' →
  emits e e' (vm_opcode op :: [u16 a; u16 b; u16 c]) ∧ e_fixups e' = e_fixups e.
Proof.
  intros H. apply emit_words_inv in H. simpl in H. by rewrite vm_opcode_u16 in H.
Qed.

Lemma emit_op1_inv e op a e' :
  emit_op1 e (vm_opcode op) a = Ok e' →
  emits e e' (vm_opcode op :: [u16 a]) ∧ e_fixups e' = e_fixups e.
Proof.
  intros H. apply emit_words_inv in H. simpl in H. by rewrite vm_opcode_u16 in H.
Qed.

(** The number of an operator added to the first opcode of its family. *)
Lemma VM_ADD_code k o : VM_ADD k + binop_code o = vm_opcode (VM_BIN k o).
Proof. unfold VM_ADD. simpl. lia. Qed.

Lemma small_op_code a b c d o :
  small_op a b c d (binop_code o) =
  match o with
  | BINOP_SDIV => vm_opcode a | BINOP_SREM => vm_opcode b | BINOP_ASHR => vm_opcode c
  | _ => d + binop_code o
  end.
Proof. by destruct o. Qed.

Lemma is_small_signed_code o : is_small_signed (binop_code o) = signed_lhs o.
Proof. by destruct o. Qed.

Section emit_binop.
Context (vs : value_state) (w : Z) (o : binop) (lv rv : ir_value) (l : Z).
Context (Hlc : iv_class lv = IR_VC_REGFRAME) (Hl : value_reg lv = Ok l).
Notation types := (iu_types (vs_types vs)).

Lemma emit_binop_rr_correct code d r e e' :
  int_width code = Some w → iv_class rv = IR_VC_REGFRAME → value_reg rv = Ok r →
  emit_binop_rr code (binop_code o) d l r e = Ok e' →
  emits_result e e' w d (binop_value types w o lv rv).
Proof using Hlc Hl.
  intros Hw Hrc Hr H.
  assert (∀ op, emit_op3 e (vm_opcode op) d l r = Ok e' →
            (∀ h u f v, code_at u f [u16 d; u16 l; u16 r] →
               binop_value types w o lv rv u (f_rf f) = Ok v → reg_ok u (f_rf f) d →
               ∃ u', vm_case h op u f = Ok (N_go u' (set_I f (f_I f + 3))) ∧
                     result_in w u (f_rf f) d v u') →
            emits_result e e' w d (binop_value types w o lv rv)) as Hgo.
  { intros op [He Hf]%emit_op3_inv Hrun.
    eapply (emits_result_op e e e' []); eauto using emits_nil. }
  unfold emit_binop_rr in H. rewrite ?small_op_code, ?VM_ADD_code in H.
  assert (∀ h u f v, w = 32 ∨ 1 <= w <= 32 ∧ signed_lhs o = false →
            code_at u f [u16 d; u16 l; u16 r] →
            binop_value types w o lv rv u (f_rf f) = Ok v → reg_ok u (f_rf f) d →
            ∃ u', vm_case h (VM_BIN K_R32 o) u f = Ok (N_go u' (set_I f (f_I f + 3))) ∧
                  result_in w u (f_rf f) d v u') as H32
    by (intros; apply (run_bin_r32 types w o lv rv l r); done).
  assert (w = 8 ∨ w = 16 → signed_lhs o = true →
    emit_op3 e (vm_opcode (match o with
            | BINOP_SDIV => if w =? 8 then VM_SDIV_R8 else VM_SDIV_R16
            | BINOP_SREM => if w =? 8 then VM_SREM_R8 else VM_SREM_R16
            | _ => if w =? 8 then VM_ASHR_R8 else VM_ASHR_R16
            end)) d l r = Ok e' →
    emits_result e e' w d (binop_value types w o lv rv)) as Hsm.
  { intros Hw' Hs H'. apply (Hgo _ H'). intros h u f v Hc Hv Hd. by apply (run_small_rr types w o lv rv l r). }
  destruct code; try discriminate Hw; injection Hw as <-.
  - destruct (signed_lhs o) eqn:Es.
    + apply Hsm; [by left|done|]. rewrite <-H. by destruct o.
    + apply (Hgo (VM_BIN K_R32 o)); [rewrite <-H; by destruct o|]. intros; apply H32; auto.
      right. split; [lia|done].
  - destruct (signed_lhs o) eqn:Es.
    + apply Hsm; [by right|done|]. rewrite <-H. by destruct o.
    + apply (Hgo (VM_BIN K_R32 o)); [rewrite <-H; by destruct o|]. intros; apply H32; auto.
      right. split; [lia|done].
  - apply (Hgo (VM_BIN K_R32 o) H). intros; apply H32; auto.
  - apply (Hgo (VM_BIN K_R64 o) H). intros; by apply (run_bin_r64 types 64 o lv rv l r).
Qed.

Lemma emit_binop_rc_correct code d e e' :
  int_width code = Some w → iv_class rv = IR_VC_CONSTANT →
  emit_binop_rc vs code (binop_code o) d l rv e = Ok e' →
  emits_result e e' w d (binop_value types w o lv rv).
Proof using Hlc Hl.
  intros Hw Hrc H. unfold emit_binop_rc, const32, const64 in H.
  rewrite is_small_signed_code, !VM_ADD_code in H.
  destruct code; try discriminate Hw; injection Hw as <-.
  - destruct (signed_lhs o) eqn:Es.
    + set (op := match o with
                 | BINOP_SDIV => VM_SDIV_R8C | BINOP_SREM => VM_SREM_R8C | _ => VM_ASHR_R8C end).
      assert (small_op VM_SDIV_R8C VM_SREM_R8C VM_ASHR_R8C 0 (binop_code o) = vm_opcode op)
        as Eop by (by destruct o). rewrite Eop in H. inv_res.
      apply emit_op2_inv in Hm as [He1 Hf1]. apply emit_i8_inv in H as (cw & He2 & Hcw & _ & Hf2).
      eapply (emits_result_op e e e' [] op [u16 d; u16 l; cw]); eauto using emits_nil.
      * exact (emits_app _ _ _ _ _ He1 He2).
      * congruence.
      * intros. by apply (run_small_rc types 8 o lv rv l a0) with (cw := cw).
    + inv_res. apply emit_op2_inv in Hm as [He1 Hf1]. apply emit_i16_inv in H as [He2 Hf2].
      assert (Z.land a0 255 = wrap 8 a0) as Ec.
      { rewrite wrap_land_ones by lia. done. } rewrite Ec in He2.
      eapply (emits_result_op e e e' [] _ [u16 d; u16 l; u16 (u8 a0)]); eauto using emits_nil.
      * exact (emits_app _ _ _ _ _ He1 He2).
      * congruence.
      * intros. apply (run_bin_r16c types 8 o lv rv l a0); auto.
  - inv_res. apply emit_op2_inv in Hm as [He1 Hf1]. apply emit_i16_inv in H as [He2 Hf2].
    eapply (emits_result_op e e e' [] _ [u16 d; u16 l; u16 a0]); eauto using emits_nil.
    + exact (emits_app _ _ _ _ _ He1 He2).
    + congruence.
    + intros. apply (run_bin_r16c types 16 o lv rv l a0); auto; [done|]. by rewrite wrap_wrap by lia.
  - inv_res. pose proof (value_get_const32_range _ _ _ Hm) as Hr.
    assert (is_inc (binop_code o) a = true ∨ is_dec (binop_code o) a = true →
            emit_op2 e (vm_opcode (if is_inc (binop_code o) a then VM_INC_R32 else VM_DEC_R32))
              d l = Ok e' →
            emits_result e e' 32 d (binop_value types 32 o lv rv)) as Hid.
    { intros Hi [He1 Hf1]%emit_op2_inv.
      eapply (emits_result_op e e e' [] _ [u16 d; u16 l]); eauto using emits_nil.
      intros. by apply (run_incdec types 32 o lv rv l a). }
    destruct (is_inc (binop_code o) a) eqn:Ei; [by apply Hid; [left|]|].
    destruct (is_dec (binop_code o) a) eqn:Ed; [by apply Hid; [right|]|].
    inv_res. apply emit_op2_inv in Hm0 as [He1 Hf1]. apply emit_i32_inv in H as [He2 Hf2].
    eapply (emits_result_op e e e' [] _ ([u16 d; u16 l] ++ words32 a)); eauto using emits_nil.
    + exact (emits_app _ _ _ _ _ He1 He2).
    + congruence.
    + intros. by apply (run_bin_r32c types 32 o lv rv l a).
  - inv_res. apply vm_align32_inv in Hm as [He0 Hf0].
    apply emit_op2_inv in Hm0 as [He1 Hf1]. apply emit_i64_inv in H as [He2 Hf2].
    assert (∃ pre, (pre = [] ∨ pre = [vm_opcode VM_NOP]) ∧ emits e a pre) as (pre & Hp & Hpre)
      by (destruct He0; eauto).
    eapply (emits_result_op e a e' pre _ ([u16 d; u16 l] ++ words64 a1)); eauto.
    + exact (emits_app _ _ _ _ _ He1 He2).
    + congruence.
    + intros. by apply (run_bin_r64c types 64 o lv rv l a1).
Qed.
End emit_binop.

(** C4: the code of a binary operator computes it: for an 8, 16, 32 or 64-bit
    integer operator of two registers or of a register and a constant, running
    the words [emit_binop] wrote leaves in the destination register a value
    that is the operator's result at that width, and changes nothing else. On
    8 and 16 bits the operands of unsigned division, remainder and right shift
    and the amount of a left shift must be clean. *)
Theorem emit_binop_correct vs o lhs rhs ret e e' lv rv d code w :
  emit_binop vs (binop_code o) lhs rhs ret e = Ok e' →
  vget vs lhs = Ok lv → vget vs rhs = Ok rv → rreg vs ret = Ok d →
  lget vs lhs = Ok code → int_width code = Some w →
  emits_result e e' w d (binop_value (iu_types (vs_types vs)) w o lv rv).
Proof.
  intros H Hl Hr Hd Hc Hw. unfold emit_binop in H. unfold rreg, vreg in Hd.
  rewrite Hl, Hr, Hc in H. revert H Hd. rok.
  destruct (vget vs (ii_ret ret)) as [dv|]; rok; [|done]. intros H Hd. rewrite Hd in H.
  destruct (iv_class lv) eqn:El; try discriminate H.
  destruct (iv_class rv) eqn:Er; try discriminate H; revert H; rok;
    destruct (value_reg lv) as [l|] eqn:Ell; rok; try done.
  - intros H. eapply emit_binop_rc_correct; eauto.
  - destruct (value_reg rv) as [r|] eqn:Err; rok; [|done]. intros H.
    eapply emit_binop_rr_correct; eauto.
Qed.

(** ** Comparisons *)

(** The value of a comparison: 0 or 1. *)
Definition icmp_value (types : list ir_type) (w : Z) (p : icmp) (lv rv : ir_value)
    (u : vm_unit) (rf : Z) : res Z :=
  l ← operand types w lv u rf; r ← operand types w rv u rf;
  Ok (bool_to_Z (c_icmp w p l r)).

Definition cmp_width (c : ir_type_code) : option Z :=
  match c with IR_TYPE_POINTER => Some 32 | _ => int_width c end.

(** The forms for two registers and for an immediate, with their width. *)
Definition kind_rr (w : Z) : cmp_kind :=
  if w =? 8 then C8 else if w =? 16 then C16 else if w =? 32 then C32 else C64.
Definition kind_imm (w : Z) : cmp_kind :=
  if w =? 8 then C8_C else if w =? 16 then C16_C else if w =? 32 then C32_C else C64_C.
Definition cmp_w (w : Z) : Prop := w = 8 ∨ w = 16 ∨ w = 32 ∨ w = 64.

(** The words of an immediate operand of a comparison. *)
Definition imm_words (w c : Z) (ws : list Z) : Prop :=
  if w =? 8 then ∃ cw, ws = [cw] ∧ u8 cw = u8 c
  else if w =? 16 then ws = [u16 c]
  else if w =? 32 then ws = words32 c else ws = words64 c.

Lemma code_at_words u f ws n w z :
  code_at u f ws → ws !! n = Some w → z = Z.of_nat n → Iw u f z = Ok w.
Proof. intros ? ? ->. by eapply code_at_word. Qed.

Lemma R32_rd w u f ws n reg z v :
  code_at u f ws → ws !! n = Some (u16 reg) → z = Z.of_nat n → mem_ok (u_regs u) →
  w ≠ 64 → reg_rd w u (f_rf f) reg = Ok v →
  ∃ x, R32 u f z = Ok x ∧ 0 <= x < 2 ^ 32 ∧ v = wrap w x.
Proof.
  intros Hc Hn -> Hm Hw H. unfold reg_rd in H. inv_res.
  apply reg_raw_range in Hm0 as [Hx Hr]; [|done|done].
  exists a. by rewrite (R32_at _ _ _ _ _ Hc Hn).
Qed.

Lemma R64_rd u f ws n reg z v :
  code_at u f ws → ws !! n = Some (u16 reg) → z = Z.of_nat n → mem_ok (u_regs u) →
  reg_rd 64 u (f_rf f) reg = Ok v → R64 u f z = Ok v.
Proof.
  intros Hc Hn -> Hm H. unfold reg_rd in H. inv_res.
  apply reg_raw64_range in Hm0 as [Hx Hr]; [|done].
  rewrite (R64_at _ _ _ _ _ Hc Hn), Hx. by rewrite wrap_small.
Qed.

Lemma cmp_operands_rr w u f ws n l r z a b :
  cmp_w w → code_at u f ws → ws !! n = Some (u16 l) → ws !! S n = Some (u16 r) →
  z = Z.of_nat n → mem_ok (u_regs u) →
  reg_rd w u (f_rf f) l = Ok a → reg_rd w u (f_rf f) r = Ok b →
  cmp_operands u f (kind_rr w) z = Ok (w, a, b, 2).
Proof.
  intros Hw Hc H1 H2 Hz Hm Ha Hb. assert (z + 1 = Z.of_nat (S n)) as Hz' by lia.
  destruct (decide (w = 64)) as [->|Hn].
  - simpl. rewrite (R64_rd _ _ _ _ _ _ _ Hc H1 Hz Hm Ha). rok.
    by rewrite (R64_rd _ _ _ _ _ _ _ Hc H2 Hz' Hm Hb).
  - destruct (R32_rd w u f ws n l z a) as (x & Hx & Hxr & ->); try done.
    destruct (R32_rd w u f ws (S n) r (z + 1) b) as (y & Hy & Hyr & ->); try done.
    destruct Hw as [->|[->|[->|]]]; [| | |done]; simpl; unfold R8, R16; rewrite Hx; rok;
      rewrite Hy; rok; try done.
    by rewrite !wrap_small by done.
Qed.

Lemma cmp_operands_imm w u f ws1 ws2 l c z a :
  cmp_w w → imm_words w c ws2 →
  code_at u f (ws1 ++ u16 l :: ws2) → z = Z.of_nat (length ws1) → mem_ok (u_regs u) →
  reg_rd w u (f_rf f) l = Ok a →
  cmp_operands u f (kind_imm w) z = Ok (w, a, wrap w c, 1 + Z.of_nat (length ws2)).
Proof.
  intros Hw Hi Hc Hz Hm Ha.
  assert ((ws1 ++ u16 l :: ws2) !! length ws1 = Some (u16 l)) as H1
    by (by rewrite lookup_app_r, Nat.sub_diag by lia).
  assert (∀ x, ws2 = [x] → Iw u f (z + 1) = Ok x) as Hi1.
  { intros x ->. eapply (code_at_words _ _ _ (S (length ws1))); [exact Hc| |lia].
    rewrite lookup_app_r by lia. by replace (S (length ws1) - length ws1)%nat with 1%nat by lia. }
  assert (z + 1 = Z.of_nat (length (ws1 ++ [u16 l]))) as Hz1
    by (rewrite length_app; simpl; lia).
  rewrite cons_middle, app_assoc, <-(app_nil_r ws2), app_assoc in Hc.
  rewrite <-!app_assoc in Hc. rewrite (app_assoc ws1) in Hc.
  assert (((ws1 ++ [u16 l]) ++ ws2 ++ []) !! length ws1 = Some (u16 l)) as H1'.
  { rewrite app_nil_r, <-app_assoc. exact H1. }
  unfold imm_words in Hi. destruct Hw as [->|[->|[->| ->]]]; simpl in Hi.
  - destruct Hi as (cw & Hws & Hcw).
    destruct (R32_rd 8 u f _ (length ws1) l z a Hc H1' Hz) as (x & Hx & Hxr & ->); try done.
    simpl. unfold R8, UIMM8. rewrite Hx, (Hi1 _ Hws). rok. rewrite Hcw. by rewrite Hws.
  - destruct (R32_rd 16 u f _ (length ws1) l z a Hc H1' Hz) as (x & Hx & Hxr & ->); try done.
    simpl. unfold R16. rewrite Hx, (Hi1 _ Hi). rok. by rewrite Hi.
  - destruct (R32_rd 32 u f _ (length ws1) l z a Hc H1' Hz) as (x & Hx & Hxr & ->); try done.
    simpl. rewrite Hx. rok. rewrite Hi in Hc. rewrite (UIMM32_at _ _ _ _ _ _ Hc Hz1). rok.
    rewrite Hi. by rewrite (wrap_small 32 x).
  - simpl. rewrite (R64_rd _ _ _ _ _ _ _ Hc H1' Hz Hm Ha). rok.
    rewrite Hi in Hc. rewrite (UIMM64_at _ _ _ _ _ _ Hc Hz1). rok. by rewrite Hi.
Qed.

(** An integer predicate added to the first opcode of its family. *)
Lemma VM_EQ_code k p : icmp_index (icmp_code p) + VM_EQ k = vm_opcode (VM_CMP k p).
Proof. unfold icmp_index, VM_EQ. simpl. lia. Qed.
Lemma VM_EQ_BR_code k p : icmp_index (icmp_code p) + VM_EQ_BR k = vm_opcode (VM_CMP_BR k p).
Proof. unfold icmp_index, VM_EQ_BR. simpl. lia. Qed.
Lemma VM_EQ_SEL_code k p : icmp_index (icmp_code p) + VM_EQ_SEL k = vm_opcode (VM_CMP_SEL k p).
Proof. unfold icmp_index, VM_EQ_SEL. simpl. lia. Qed.

(** A comparison whose operands are known. *)
Lemma run_cmp h u f d k p w a b n ws :
  code_at u f ws → ws !! 0%nat = Some (u16 d) → reg_ok u (f_rf f) d →
  cmp_operands u f k 1 = Ok (w, a, b, n) →
  ∃ u', vm_case h (VM_CMP k p) u f = Ok (N_go u' (set_I f (f_I f + (1 + n)))) ∧
        result_in 32 u (f_rf f) d (bool_to_Z (c_icmp w p a b)) u'.
Proof.
  intros Hc H0 Hd Ho. simpl. unfold exec_cmp. rewrite Ho. rok.
  apply (ret32_at 32 u f ws); try done. by destruct (c_icmp w p a b).
Qed.

Section emit_cmp.
Context (vs : value_state) (w : Z) (p : icmp) (e e' : emit_state) (d : Z).
Notation types := (iu_types (vs_types vs)).

Lemma cmp_width_ok code : cmp_width code = Some w → cmp_w w.
Proof. unfold cmp_w. destruct code; intros [= <-]; auto. Qed.

Lemma emit_cmp2_rr_correct code lv rv l r :
  cmp_width code = Some w →
  iv_class lv = IR_VC_REGFRAME → value_reg lv = Ok l →
  iv_class rv = IR_VC_REGFRAME → value_reg rv = Ok r →
  emit_cmp2_rr code (icmp_code p) d l r e = Ok e' →
  emits_result e e' 32 d (icmp_value types w p lv rv).
Proof.
  intros Hw Hlc Hl Hrc Hr H. unfold emit_cmp2_rr in H.
  rewrite is_fcmp_icmp, is_icmp_code in H.
  assert (cmp_kind_rr code = Ok (kind_rr w)) as Hk by (destruct code; try discriminate Hw; by injection Hw as <-).
  rewrite Hk in H. revert H. rok. intros H. rewrite VM_EQ_code in H.
  apply emit_op3_inv in H as [He Hf].
  eapply (emits_result_op e e e' []); eauto using emits_nil.
  intros h u f v Hc Hv Hd. unfold icmp_value in Hv.
  rewrite (proj1 (operand_reg types w lv l u _ Hlc Hl)) in Hv.
  rewrite (proj1 (operand_reg types w rv r u _ Hrc Hr)) in Hv. inv_res.
  apply (run_cmp _ _ _ _ _ _ _ _ _ 2 _ Hc); [done|done|].
  eapply (cmp_operands_rr w u f _ 1); eauto using cmp_width_ok. apply Hd.
Qed.

(** The words [emit_icmp_imm] writes after the registers. *)
Lemma emit_icmp_imm_inv code pred l rv :
  cmp_width code = Some w → emit_icmp_imm vs code (icmp_code pred) d l rv e = Ok e' →
  ∃ c pre e0 ws, (if w =? 64 then value_get_const64 types rv
                  else value_get_const32 types rv) = Ok c ∧
    (pre = [] ∨ pre = [vm_opcode VM_NOP]) ∧ emits e e0 pre ∧ imm_words w c ws ∧
    emits e0 e' (vm_opcode (VM_CMP (kind_imm w) pred) :: u16 d :: u16 l :: ws) ∧
    e_fixups e' = e_fixups e.
Proof.
  intros Hw H. unfold emit_icmp_imm, const32, const64 in H. rewrite !VM_EQ_code in H.
  destruct code; try discriminate Hw; injection Hw as <-; inv_res.
  - apply emit_op2_inv in Hm as [He1 Hf1]. apply emit_i8_inv in H as (cw & He2 & Hcw & _ & Hf2).
    exists a0, [], e, [cw]. split_and!; eauto using emits_nil; [by exists cw| |congruence].
    exact (emits_app _ _ _ _ _ He1 He2).
  - apply emit_op2_inv in Hm as [He1 Hf1]. apply emit_i16_inv in H as [He2 Hf2].
    exists a0, [], e, [u16 a0]. split_and!; eauto using emits_nil; [done| |congruence].
    exact (emits_app _ _ _ _ _ He1 He2).
  - apply emit_op2_inv in Hm as [He1 Hf1]. apply emit_i32_inv in H as [He2 Hf2].
    exists a0, [], e, (words32 a0). split_and!; eauto using emits_nil; [done| |congruence].
    exact (emits_app _ _ _ _ _ He1 He2).
  - apply vm_align32_inv in Hm as [He0 Hf0].
    apply emit_op2_inv in Hm0 as [He1 Hf1]. apply emit_i64_inv in H as [He2 Hf2].
    assert (∃ pre, (pre = [] ∨ pre = [vm_opcode VM_NOP]) ∧ emits e a pre) as (pre & Hp & Hpre)
      by (destruct He0; eauto).
    exists a1, pre, a, (words64 a1). split_and!; eauto; [done| |congruence].
    exact (emits_app _ _ _ _ _ He1 He2).
  - apply emit_op2_inv in Hm as [He1 Hf1]. apply emit_i32_inv in H as [He2 Hf2].
    exists a0, [], e, (words32 a0). split_and!; eauto using emits_nil; [done| |congruence].
    exact (emits_app _ _ _ _ _ He1 He2).
Qed.

Lemma emit_icmp_imm_correct code lv rv l :
  cmp_width code = Some w →
  iv_class lv = IR_VC_REGFRAME → value_reg lv = Ok l →
  iv_class rv = IR_VC_CONSTANT ∨ iv_class rv = IR_VC_GLOBALVAR →
  emit_icmp_imm vs code (icmp_code p) d l rv e = Ok e' →
  emits_result e e' 32 d (icmp_value types w p lv rv).
Proof.
  intros Hw Hlc Hl Hrc H.
  apply emit_icmp_imm_inv in H as (c & pre & e0 & ws & Hcst & Hp & He0 & Hi & He1 & Hf); [|done].
  eapply emits_result_op; eauto. intros h u f v Hc Hv Hd. unfold icmp_value in Hv.
  rewrite (proj1 (operand_reg types w lv l u _ Hlc Hl)) in Hv.
  rewrite (proj1 (operand_const types w rv u (f_rf f) Hrc)), Hcst in Hv.
  destruct (reg_rd w u (f_rf f) l) as [a|] eqn:Ha; [|discriminate]. revert Hv. rok.
  intros [= <-]. simpl length.
  replace (Z.of_nat (S (S (length ws)))) with (1 + (1 + Z.of_nat (length ws))) by lia.
  eapply run_cmp; [exact Hc|done|done|].
  apply (cmp_operands_imm w u f [u16 d] ws l c 1 a); eauto using cmp_width_ok. apply Hd.
Qed.
End emit_cmp.

(** The predicates that a swapped comparison emits. *)
Lemma icmp_value_swap types w p lv rv u rf v :
  icmp_value types w p lv rv u rf = Ok v → icmp_value types w (swap_pred p) rv lv u rf = Ok v.
Proof.
  unfold icmp_value. intros H. inv_res. rewrite Hm, Hm0. rok. by rewrite c_icmp_swap.
Qed.

Lemma emits_result_weaken e e' w d val val' :
  emits_result e e' w d val → (∀ u rf v, val' u rf = Ok v → val u rf = Ok v) →
  emits_result e e' w d val'.
Proof.
  intros H Hv. eapply emits_code_weaken; [exact H|]. intros h u f f' Hrun v Hv' Hd.
  apply Hrun; auto.
Qed.

(** C20: the code of an integer comparison computes the predicate: for values of
    8, 16, 32 and 64 bits and pointers, in registers, constants or addresses of
    globals on either side (a constant on the left swaps the operands and the
    predicate), running the words [emit_cmp2] wrote puts 0 or 1 into the
    destination register and changes nothing else. *)
Theorem emit_cmp2_correct vs p lhs rhs ret e e' lv rv d code w :
  emit_cmp2 vs (icmp_code p) lhs rhs ret e = Ok e' →
  vget vs lhs = Ok lv → vget vs rhs = Ok rv → rreg vs ret = Ok d →
  lget vs lhs = Ok code → cmp_width code = Some w →
  emits_result e e' 32 d (icmp_value (iu_types (vs_types vs)) w p lv rv).
Proof.
  intros H Hl Hr Hd Hc Hw. unfold emit_cmp2 in H. unfold rreg, vreg in Hd.
  rewrite Hl, Hr, Hc in H. revert H Hd. rok.
  destruct (vget vs (ii_ret ret)) as [dv|]; rok; [|done]. intros H Hd. rewrite Hd in H.
  unfold emit_cmp2_rc in H. rewrite swap_pred_code_icmp in H. cbn [mbind res_bind] in H.
  rewrite !is_fcmp_icmp, !is_icmp_code in H.
  destruct (iv_class lv) eqn:El; try discriminate H;
    destruct (iv_class rv) eqn:Er; try discriminate H.
  - inv_res. destruct (bool_decide (code = IR_TYPE_POINTER)); [|discriminate].
    eapply emits_result_weaken; [eapply emit_icmp_imm_correct; eauto|].
    intros. by apply icmp_value_swap.
  - inv_res. eapply emits_result_weaken; [eapply emit_icmp_imm_correct; eauto|].
    intros. by apply icmp_value_swap.
  - inv_res. eapply emit_icmp_imm_correct; eauto.
  - inv_res. eapply emit_icmp_imm_correct; eauto.
  - inv_res. eapply emit_cmp2_rr_correct; eauto.
Qed.

(** ** Examples *)

Definition example_reg (type reg : Z) : ir_value :=
  mk_value IR_VC_REGFRAME type (U_word reg) D_none 0.
Definition example_const (type v : Z) : ir_value :=
  mk_value IR_VC_CONSTANT type (U_word v) D_none 0.

(** Registers and constants of 8, 32 and 64 bits. *)
Definition example_unit : value_state :=
  mk_vs (map Some [example_reg 0 8; example_reg 0 12; example_const 0 7; example_reg 0 16;
                   example_reg 1 20; example_const 1 200; example_reg 2 24; example_const 2 (-3)])
    8 (mk_types [T_INT32; T_INT8; T_INT64] true None).
Definition example_v (i : Z) : ir_valuetype :=
  mk_vt i (if i <? 4 then 0 else if i <? 6 then 1 else 2).
Definition example_ret (i : Z) : ir_ret := mk_ret (example_v i) [].
Definition example_start : emit_state := mk_emit [] (λ _, 0) 4096 [].

Definition example_binop : emit_state :=
  mk_emit [vm_opcode (VM_BIN K_R32C BINOP_ADD); 16; 8; 7; 0] (λ _, 0) 4096 [].

Lemma emit_binop_correct_witness :
  emit_binop example_unit 0 (example_v 0) (example_v 2) (example_ret 3) example_start
    = Ok example_binop ∧
  emits_result example_start example_binop 32 16
    (binop_value [T_INT32; T_INT8; T_INT64] 32 BINOP_ADD (example_reg 0 8) (example_const 0 7)).
Proof.
  split; [reflexivity|].
  apply (emit_binop_correct example_unit BINOP_ADD (example_v 0) (example_v 2) (example_ret 3)
           example_start example_binop (example_reg 0 8) (example_const 0 7) 16 IR_TYPE_INT32 32);
    reflexivity.
Defined.

Definition example_cmp : emit_state :=
  mk_emit [vm_opcode (VM_CMP C8_C ICMP_SLT); 16; 20; 200] (λ _, 0) 4096 [].

Lemma emit_cmp2_correct_witness :
  emit_cmp2 example_unit (icmp_code ICMP_SGT) (example_v 5) (example_v 4) (example_ret 3)
    example_start = Ok example_cmp ∧
  emits_result example_start example_cmp 32 16
    (icmp_value [T_INT32; T_INT8; T_INT64] 8 ICMP_SGT (example_const 1 200) (example_reg 1 20)).
Proof.
  split; [reflexivity|].
  apply (emit_cmp2_correct example_unit ICMP_SGT (example_v 5) (example_v 4) (example_ret 3)
           example_start example_cmp (example_const 1 200) (example_reg 1 20) 16 IR_TYPE_INT8 8);
    reflexivity.
Defined.
