(* ===== verification/VmBranch.v ===== *)
(** Branches, compare-and-branch and switches: the code that [emit_br],
    [emit_cmp_branch] and [emit_switch] write goes to the block the
    instruction chooses, once [branch_fixup] has put an offset for each block
    into the text. *)
From Stdlib Require Import Sorting.Sorted.
From S2P Require Import Prelude Support Mem Types Values Heap Libc.
From S2P Require Import VmOps Fp Vm VmArith Instr Emit VmEmit.
Local Open Scope Z_scope.

(** ** The binary search of the switches *)

(** [key] reads the list [ks]. *)
Definition reads_keys (key : Z → res Z) (ks : list Z) : Prop :=
  ∀ i k, ks !! i = Some k → key (Z.of_nat i) = Ok k.

Lemma sorted_lookup (ks : list Z) i j a b :
  StronglySorted Z.lt ks → ks !! i = Some a → ks !! j = Some b → (i < j)%nat → a < b.
Proof.
  intros Hs. revert i j; induction Hs as [|k ks Hs IH Hf]; intros i j Hi Hj Hij; [done|].
  destruct j as [|j]; [lia|]. destruct i as [|i]; simpl in *.
  - injection Hi as ->. exact (Forall_lookup_1 _ _ _ _ Hf Hj).
  - eapply IH; eauto. lia.
Qed.

(** The search ends at one index, and that is where the key is, if any. *)
Lemma switch_search_spec key ks x fuel imin imax :
  reads_keys key ks → StronglySorted Z.lt ks →
  0 <= imin <= imax → imax < Z.of_nat (length ks) → imax - imin < Z.of_nat fuel →
  ∃ k, switch_search fuel key x imin imax = Ok (k, k) ∧ imin <= k <= imax ∧
       ∀ t, ks !! t = Some x → imin <= Z.of_nat t <= imax → Z.of_nat t = k.
Proof.
  intros Hk Hs. revert imin imax.
  induction fuel as [|fuel IH]; intros imin imax Hi Hm Hf; [lia|]. cbn [switch_search].
  destruct (Z.ltb_spec imin imax) as [Hlt|Hge].
  - set (imid := Z.shiftr (imin + imax) 1).
    assert (imid = (imin + imax) / 2) as Emid by (unfold imid; by rewrite Z.shiftr_div_pow2).
    assert (imin <= imid < imax) as Hmid.
    { rewrite Emid. split; [apply Z.div_le_lower_bound; lia|].
      apply Z.div_lt_upper_bound; lia. }
    destruct (lookup_lt_is_Some_2 ks (Z.to_nat imid)) as [k Hkey]; [lia|].
    pose proof (Hk _ _ Hkey) as E. rewrite Z2Nat.id in E by lia. rewrite E. rok.
    assert (∀ t, ks !! t = Some x → (k < x → imid < Z.of_nat t) ∧
                 (¬ k < x → Z.of_nat t <= imid)) as Ht.
    { intros t Hx. split; intros Hc; apply Z.nle_gt || apply Z.nlt_ge; intros Hn.
      - destruct (decide (t = Z.to_nat imid)) as [->|Hne]; [rewrite Hkey in Hx; naive_solver lia|].
        pose proof (sorted_lookup ks t (Z.to_nat imid) x k Hs Hx Hkey). lia.
      - pose proof (sorted_lookup ks (Z.to_nat imid) t k x Hs Hkey Hx). lia. }
    destruct (Z.ltb_spec k x) as [Hkx|Hkx].
    + destruct (IH (imid + 1) imax) as (r & Hr & Hb & Hu); [lia|lia|lia|].
      exists r. split_and!; [done|lia|lia|]. intros t Hx Hb'. apply Hu; [done|].
      pose proof (proj1 (Ht t Hx) Hkx). lia.
    + destruct (IH imin imid) as (r & Hr & Hb & Hu); [lia|lia|lia|].
      exists r. split_and!; [done|lia|lia|]. intros t Hx Hb'. apply Hu; [done|].
      pose proof (proj2 (Ht t Hx) ltac:(lia)). lia.
  - assert (imin = imax) as -> by lia. exists imax. split_and!; [done|lia|lia|].
    intros. lia.
Qed.

(** The path: the index of the key, or the number of keys. *)
Definition path_index (ks : list Z) (x : Z) : nat :=
  match list_find (λ k, k = x) ks with Some (i, _) => i | None => length ks end.

Lemma switch_path_spec key ks x :
  reads_keys key ks → StronglySorted Z.lt ks →
  switch_path key x (Z.of_nat (length ks)) = Ok (Z.of_nat (path_index ks x)).
Proof.
  intros Hk Hs. unfold switch_path, path_index.
  destruct (decide (ks = [])) as [->|Hne].
  - done.
  - assert (0 < length ks)%nat by (destruct ks; simpl; [done|lia]).
    destruct (switch_search_spec key ks x (S (Z.to_nat (Z.of_nat (length ks)))) 0
                (Z.of_nat (length ks) - 1)) as (k & -> & Hb & Hu); [done|done|lia|lia|lia|].
    cbn [mbind res_bind]. rewrite Z.eqb_refl.
    destruct (lookup_lt_is_Some_2 ks (Z.to_nat k)) as [kv Hkey]; [lia|].
    pose proof (Hk _ _ Hkey) as E. rewrite Z2Nat.id in E by lia. rewrite E. rok.
    destruct (list_find (λ k, k = x) ks) as [[i y]|] eqn:Ef.
    + apply list_find_Some in Ef as (Hi & -> & _).
      pose proof (lookup_lt_Some _ _ _ Hi).
      specialize (Hu i Hi ltac:(lia)). subst k. rewrite Nat2Z.id in Hkey.
      rewrite Hi in Hkey. injection Hkey as <-. by rewrite Z.eqb_refl.
    + rewrite list_find_None in Ef. pose proof (Forall_lookup_1 _ _ _ _ Ef Hkey) as Hn.
      destruct (Z.eqb_spec kv x) as [->|]; [|done]. by destruct Hn.
Qed.

(** ** What the code of a branch promises *)

(** Only the two scratch slots at the start of the frame may have changed. *)
Definition same_but_scratch (u : vm_unit) (rf : Z) (u' : vm_unit) : Prop :=
  ∃ m, u' = upd_regs u m ∧ mem_size m = mem_size (u_regs u) ∧
       ∀ a, a < rf ∨ rf + 8 <= a → mem_byte m a = mem_byte (u_regs u) a.

Lemma same_but_scratch_refl u rf : same_but_scratch u rf u.
Proof. exists (u_regs u). by destruct u. Qed.

Lemma result_in_scratch u rf v u' : result_in 32 u rf 0 v u' → same_but_scratch u rf u'.
Proof.
  intros (x & m & _ & Hm & ->). exists m.
  destruct (wr_le_spec 4 _ _ _ _ Hm) as (Hs & _ & Ho). split_and!; [done|done|].
  intros a Ha. apply Ho. unfold reg_addr. change (s16 0) with 0. simpl. lia.
Qed.

(** [t] has the words [ws] from the word [pos] on. *)
Definition words_at (t : list Z) (pos : nat) (ws : list Z) : Prop :=
  take (length ws) (drop pos t) = ws.

(** A branching instruction from [e] to [e'] contains a list of blocks;
    [branch_targets] finds it from the byte offset that was pushed as a
    fixup, that of the opcode, whatever stands in its place. *)
Definition branch_layout (e e' : emit_state) (pre ws1 blocks ws2 : list Z) : Prop :=
  emits e e' (pre ++ ws1 ++ blocks ++ ws2) ∧
  e_fixups e' = e_fixups e ++ [text_pos e + 2 * Z.of_nat (length pre)] ∧
  (0 < length ws1)%nat ∧
  ∀ t pos offs, length offs = length blocks → words_at t pos (ws1 ++ offs ++ ws2) →
     branch_targets t (2 * Z.of_nat pos) =
     Ok (map (λ j, Z.of_nat (length ws1) + Z.of_nat j) (seq 0 (length blocks))).

(** The code from [e] to [e'] goes to the block [dest]: when offsets stand in
    the place of the blocks ([branch_fixup]), running the code follows the
    offset at the place of the block, counted from the word after the opcode. *)
Definition emits_goto (e e' : emit_state) (dest : vm_unit → Z → res Z) : Prop :=
  ∃ pre ws1 blocks ws2,
    branch_layout e e' pre ws1 blocks ws2 ∧
    ∀ h u f b, dest u (f_rf f) = Ok b → reg_ok u (f_rf f) 0 →
      ∃ i, blocks !! i = Some (u16 b) ∧
        ∀ offs o f', length offs = length blocks →
          code_at u f (pre ++ ws1 ++ offs ++ ws2) → offs !! i = Some o →
          branch_frame (set_I f (f_I f + Z.of_nat (length pre) + 1)) o = Ok f' →
          ∃ n u', vm_steps h n u f u' f' ∧ same_but_scratch u (f_rf f) u'.

Lemma words_at_lookup t pos ws n w :
  words_at t pos ws → ws !! n = Some w → t !! (pos + n)%nat = Some w.
Proof.
  intros H Hn. rewrite <-H in Hn. rewrite lookup_take_Some, lookup_drop in Hn.
  by destruct Hn.
Qed.

Lemma text_word_at t pos ws n w z :
  words_at t pos ws → ws !! n = Some w → z = Z.of_nat pos + Z.of_nat n →
  text_word t z = Ok w.
Proof.
  intros H Hn ->. unfold text_word. destruct (Z.ltb_spec (Z.of_nat pos + Z.of_nat n) 0); [lia|].
  rewrite <-Nat2Z.inj_add, Nat2Z.id. by rewrite (words_at_lookup _ _ _ _ _ H Hn).
Qed.

(** The opcode at a fixup. *)
Lemma branch_targets_op t pos op ws :
  words_at t pos (vm_opcode op :: ws) → text_word t (2 * Z.of_nat pos / 2) = Ok (vm_opcode op).
Proof.
  intros H. rewrite Z.mul_comm, Z.div_mul by lia.
  apply (text_word_at _ _ _ 0%nat _ _ H); [done|lia].
Qed.

(** The instructions whose blocks are at fixed places. *)
Lemma layout_fixed e e' op ws1 blocks ws2 :
  emits e e' (vm_opcode op :: ws1 ++ blocks ++ ws2) →
  e_fixups e' = e_fixups e ++ [text_pos e] →
  match op with
  | VM_B => ws1 = [] ∧ length blocks = 1%nat
  | VM_BCOND => length ws1 = 1%nat ∧ length blocks = 2%nat
  | VM_CMP_BR _ _ => ws1 = [] ∧ length blocks = 2%nat
  | VM_INVOKE | VM_INVOKE_EXT | VM_INVOKE_R => length ws1 = 3%nat ∧ length blocks = 2%nat
  | _ => False
  end →
  branch_layout e e' [] (vm_opcode op :: ws1) blocks ws2.
Proof.
  intros He Hf Hop. split_and!; [done| |simpl; lia|].
  - rewrite Hf. simpl. by rewrite Z.add_0_r.
  - intros t pos offs Ho Hw. unfold branch_targets. cbn [app] in Hw.
    rewrite (branch_targets_op _ _ _ _ Hw). rok. rewrite vm_decode_opcode.
    destruct op; try done; cbn [mbind res_bind];
      destruct Hop as [H1 ->]; rewrite ?H1; cbn [length]; rewrite ?H1; done.
Qed.

(** *** Unconditional and conditional branches *)

Definition br_dest (vs : value_state) (condition : ir_valuetype) (tb fb : Z)
    (u : vm_unit) (rf : Z) : res Z :=
  if vt_value condition =? -1 then Ok tb
  else iv ← vget vs condition; c ← operand (iu_types (vs_types vs)) 32 iv u rf;
       Ok (if c =? 0 then fb else tb).

(** The code of [VM_B]. *)
Lemma emits_goto_b e e' b dest :
  (∀ u rf b', dest u rf = Ok b' → b' = b) →
  emit_words (push_fixup e) [vm_opcode VM_B; b] = Ok e' → emits_goto e e' dest.
Proof.
  intros Hd H. apply emit_words_inv in H as [He Hf]. cbn [map] in He.
  rewrite vm_opcode_u16 in He.
  exists [], [vm_opcode VM_B], [u16 b], []. split; [by apply layout_fixed|].
  - intros h u f b' Hb _. apply Hd in Hb as ->. exists 0%nat. split; [done|].
    intros offs o f' Ho Hc Hoi Hbr. destruct offs as [|o' [|]]; try done.
    injection Hoi as ->. cbn [app] in Hc.
    apply (vm_step_op h) in Hc as [Hs Hc]. exists 1%nat, u. split; [|apply same_but_scratch_refl].
    apply steps_one. rewrite Hs. unfold vm_case; simpl. unfold exec_b.
    rewrite (code_at_word _ _ _ 0%nat o Hc eq_refl : Iw _ _ 0 = _). rok.
    simpl in Hbr. rewrite Z.add_0_r in Hbr. unfold branch. rewrite Hbr. done.
Qed.

(** C21: a branch goes to its block: the next block in memory is reached by
    falling through without code, otherwise running the words of [emit_br]
    follows the offset that stands for the true block or, when the condition
    is a register or a constant that is 0, for the false block. *)
Theorem emit_br_correct vs condition tb fb next e e' :
  emit_br vs condition tb fb next e = Ok e' →
  (e' = e ∧ vt_value condition = -1 ∧ ∃ b, next = Some b ∧ ib_id b = tb) ∨
  emits_goto e e' (br_dest vs condition tb fb).
Proof.
  unfold emit_br, br_dest. destruct (Z.eqb_spec (vt_value condition) (-1)) as [Hc|Hc].
  - destruct next as [b|].
    + destruct (Z.eqb_spec (ib_id b) tb) as [Hb|Hb]; intros H.
      * left. inv_res. naive_solver.
      * right. eapply emits_goto_b; [|exact H]. naive_solver.
    + intros H. right. eapply emits_goto_b; [|exact H]. naive_solver.
  - intros H. right. destruct (vget vs condition) as [iv|] eqn:Ev; [|discriminate].
    revert H. rok. destruct (iv_class iv) eqn:Ec; try discriminate.
    + intros H. inv_res. eapply emits_goto_b; [|exact H].
      intros u rf b' Hb. unfold operand in Hb. rewrite Ec in Hb. unfold const32 in Hm.
      simpl in Hb. rewrite Hm in Hb. revert Hb. rok.
      rewrite wrap_small by (by eapply value_get_const32_range). naive_solver.
    + intros H. inv_res. rename a into r.
      apply emit_words_inv in H as [He Hf]. cbn [map] in He. rewrite vm_opcode_u16 in He.
      exists [], [vm_opcode VM_BCOND; u16 r], [u16 tb; u16 fb], [].
      split; [by apply layout_fixed|].
      * intros h u f b Hb Hok. rewrite (proj1 (operand_reg _ 32 iv r u _ Ec Hm)) in Hb.
        destruct (reg_rd 32 u (f_rf f) r) as [c|] eqn:Hrd; [|discriminate].
        revert Hb. rok. intros [= <-].
        exists (if c =? 0 then 1%nat else 0%nat). split; [by destruct (c =? 0)|].
        intros offs o f' Ho Hcode Hoi Hbr. destruct offs as [|o1 [|o2 [|]]]; try done.
        cbn [app] in Hcode. apply (vm_step_op h) in Hcode as [Hs Hcode].
        exists 1%nat, u. split; [|apply same_but_scratch_refl].
        apply steps_one. rewrite Hs. unfold vm_case; simpl. unfold exec_b.
        destruct (R32_rd 32 u _ _ 0 r 0 c Hcode eq_refl eq_refl) as (x & -> & Hx & ->);
          [apply Hok|done|done|]. rok. rewrite (wrap_small 32 x) in * by done.
        simpl in Hbr. rewrite Z.add_0_r in Hbr.
        destruct (x =? 0); injection Hoi as ->.
        -- rewrite (code_at_word _ _ _ 2%nat o Hcode eq_refl : Iw _ _ 2 = _). rok.
           unfold branch. by rewrite Hbr.
        -- rewrite (code_at_word _ _ _ 1%nat o Hcode eq_refl : Iw _ _ 1 = _). rok.
           unfold branch. by rewrite Hbr.
Qed.

(** *** Compare and branch *)

Definition cmp_branch_dest (types : list ir_type) (w : Z) (p : icmp) (lv rv : ir_value)
    (tb fb : Z) (u : vm_unit) (rf : Z) : res Z :=
  l ← operand types w lv u rf; r ← operand types w rv u rf;
  Ok (if c_icmp w p l r then tb else fb).

(** The code of [VM_CMP_BR]: the operands follow the two blocks. *)
Lemma emits_goto_cmp k p w tb fb ws2 dest e e' :
  emits e e' (vm_opcode (VM_CMP_BR k p) :: u16 tb :: u16 fb :: ws2) →
  e_fixups e' = e_fixups e ++ [text_pos e] →
  (∀ u rf b, dest u rf = Ok b → mem_ok (u_regs u) →
     ∃ x y, b = (if c_icmp w p x y then tb else fb) ∧
       ∀ f o1 o2, f_rf f = rf → code_at u f ([o1; o2] ++ ws2) →
         ∃ n, cmp_operands u f (br_cmp k) 2 = Ok (w, x, y, n)) →
  emits_goto e e' dest.
Proof.
  intros He Hf Hdest.
  exists [], [vm_opcode (VM_CMP_BR k p)], [u16 tb; u16 fb], ws2.
  split; [by apply layout_fixed|].
  - intros h u f b Hb Hok. destruct (Hdest _ _ _ Hb (proj1 Hok)) as (x & y & -> & Hop).
    exists (if c_icmp w p x y then 0%nat else 1%nat). split; [by destruct (c_icmp w p x y)|].
    intros offs o f' Ho Hc Hoi Hbr. destruct offs as [|o1 [|o2 [|]]]; try done.
    cbn [app] in Hc. apply (vm_step_op h) in Hc as [Hs Hc].
    simpl in Hbr. rewrite Z.add_0_r in Hbr.
    exists 1%nat, u. split; [|apply same_but_scratch_refl]. apply steps_one. rewrite Hs.
    destruct (Hop (set_I f (f_I f + 1)) o1 o2) as [n Hn]; [done|exact Hc|].
    simpl. unfold exec_cmp_br. rewrite Hn. rok. unfold branch.
    destruct (c_icmp w p x y); injection Hoi as ->.
    + rewrite (code_at_word _ _ _ 0%nat o Hc eq_refl : Iw _ _ 0 = _). rok. by rewrite Hbr.
    + rewrite (code_at_word _ _ _ 1%nat o Hc eq_refl : Iw _ _ 1 = _). rok. by rewrite Hbr.
Qed.

Section emit_cmp_branch.
Context (vs : value_state) (w : Z) (p : icmp) (tb fb : Z) (e e' : emit_state).
Context (lv rv : ir_value) (l : Z).
Context (Hlc : iv_class lv = IR_VC_REGFRAME) (Hl : value_reg lv = Ok l).
Notation types := (iu_types (vs_types vs)).

Lemma emits_goto_cmp_rr k r :
  br_cmp k = kind_rr w → cmp_w w →
  iv_class rv = IR_VC_REGFRAME → value_reg rv = Ok r →
  emit_words (push_fixup e) [icmp_index (icmp_code p) + VM_EQ_BR k; tb; fb; l; r] = Ok e' →
  emits_goto e e' (cmp_branch_dest types w p lv rv tb fb).
Proof using Hlc Hl.
  intros Hk Hw Hrc Hr H. rewrite VM_EQ_BR_code in H.
  apply emit_words_inv in H as [He Hf]. cbn [map] in He. rewrite vm_opcode_u16 in He.
  eapply (emits_goto_cmp k p w); [exact He|exact Hf|]. intros u rf b Hb Hm.
  unfold cmp_branch_dest in Hb.
  rewrite (proj1 (operand_reg types w lv l u rf Hlc Hl)) in Hb.
  rewrite (proj1 (operand_reg types w rv r u rf Hrc Hr)) in Hb. inv_res.
  eexists _, _. split; [done|]. intros f o1 o2 <- Hc. exists 2. rewrite Hk.
  by apply (cmp_operands_rr w u f _ 2 l r 2 _ _ Hw Hc).
Qed.

(** With an immediate whose words follow. *)
Lemma emits_goto_cmp_imm k c ws e1 :
  br_cmp k = kind_imm w → cmp_w w → imm_words w c ws →
  (∀ u rf, operand types w rv u rf = Ok (wrap w c)) →
  emit_words (push_fixup e) [icmp_index (icmp_code p) + VM_EQ_BR k; tb; fb; l] = Ok e1 →
  emits e1 e' ws → e_fixups e' = e_fixups e1 →
  emits_goto e e' (cmp_branch_dest types w p lv rv tb fb).
Proof using Hlc Hl.
  intros Hk Hw Hi Hrv H He1 Hf1. rewrite VM_EQ_BR_code in H.
  apply emit_words_inv in H as [He Hf]. cbn [map] in He. rewrite vm_opcode_u16 in He.
  eapply (emits_goto_cmp k p w tb fb (u16 l :: ws));
    [exact (emits_app _ _ _ _ _ He He1)|by rewrite Hf1, Hf|]. intros u rf b Hb Hm.
  unfold cmp_branch_dest in Hb.
  rewrite (proj1 (operand_reg types w lv l u rf Hlc Hl)), Hrv in Hb. inv_res.
  eexists _, _. split; [done|]. intros f o1 o2 <- Hc. eexists. rewrite Hk.
  by apply (cmp_operands_imm w u f [o1; o2] ws l c 2 _ Hw Hi Hc).
Qed.
End emit_cmp_branch.

Definition br_width (c : ir_type_code) : option Z :=
  match c with
  | IR_TYPE_INT8 => Some 8 | IR_TYPE_INT32 | IR_TYPE_POINTER => Some 32 | _ => None
  end.

Lemma cmp_branch_dest_swap types w p lv rv tb fb u rf b :
  cmp_branch_dest types w p lv rv tb fb u rf = Ok b →
  cmp_branch_dest types w (swap_pred p) rv lv tb fb u rf = Ok b.
Proof.
  unfold cmp_branch_dest. intros H. inv_res. rewrite Hm, Hm0. rok. by rewrite c_icmp_swap.
Qed.

Lemma emits_goto_weaken e e' dest dest' :
  emits_goto e e' dest → (∀ u rf b, dest' u rf = Ok b → dest u rf = Ok b) →
  emits_goto e e' dest'.
Proof.
  intros (pre & ws1 & bl & ws2 & Hl & Hrun) Hd.
  exists pre, ws1, bl, ws2. split; [done|]. intros h u f b Hb.
  apply Hrun. auto.
Qed.

(** The part of [emit_cmp_branch] after a swap. *)
Lemma emit_cmp_branch_imm vs code w p tb fb lv rv l e e' :
  br_width code = Some w →
  iv_class lv = IR_VC_REGFRAME → value_reg lv = Ok l →
  (iv_class rv = IR_VC_CONSTANT ∨ iv_class rv = IR_VC_GLOBALVAR) →
  match code with
  | IR_TYPE_INT8 =>
      e1 ← emit_words (push_fixup e)
             [icmp_index (icmp_code p) + VM_EQ_BR B8_C; tb; fb; l];
      c ← const32 vs rv; emit_i8 e1 c
  | IR_TYPE_INT32 | IR_TYPE_POINTER =>
      e1 ← emit_words (push_fixup e)
             [icmp_index (icmp_code p) + VM_EQ_BR B32_C; tb; fb; l];
      c ← const32 vs rv; emit_i32 e1 c
  | _ => Fail ParserError
  end = Ok e' →
  emits_goto e e' (cmp_branch_dest (iu_types (vs_types vs)) w p lv rv tb fb).
Proof.
  intros Hw Hlc Hl Hrc H. unfold const32 in H.
  assert (∀ c, value_get_const32 (iu_types (vs_types vs)) rv = Ok c → w = 8 ∨ w = 32 →
            ∀ u rf, operand (iu_types (vs_types vs)) w rv u rf = Ok (wrap w c)) as Hop.
  { intros c Hc Hw' u rf. rewrite (proj1 (operand_const _ w rv u rf Hrc)).
    rewrite (proj2 (Z.eqb_neq w 64)) by lia. by rewrite Hc. }
  destruct code; try discriminate Hw; injection Hw as <-; inv_res.
  - apply emit_i8_inv in H as (cw & He2 & Hcw & _ & Hf2).
    eapply (emits_goto_cmp_imm vs 8 p tb fb e e' lv rv l Hlc Hl B8_C a0 [cw]); eauto.
    + by left.
    + by exists cw.
  - apply emit_i32_inv in H as [He2 Hf2].
    eapply (emits_goto_cmp_imm vs 32 p tb fb e e' lv rv l Hlc Hl B32_C a0 (words32 a0)); eauto.
    + unfold cmp_w; auto.
    + done.
  - apply emit_i32_inv in H as [He2 Hf2].
    eapply (emits_goto_cmp_imm vs 32 p tb fb e e' lv rv l Hlc Hl B32_C a0 (words32 a0)); eauto.
    + unfold cmp_w; auto.
    + done.
Qed.

(** C22: a compare-and-branch goes to the true block when the predicate holds
    and to the false block otherwise, for 8-bit and 32-bit integers and
    pointers, with registers, constants, globals on either side; the address
    of a function is compared with 32 bits whatever the type. *)
Theorem emit_cmp_branch_correct vs p lhs rhs tb fb e e' lv rv code w :
  emit_cmp_branch vs (icmp_code p) lhs rhs tb fb e = Ok e' →
  vget vs lhs = Ok lv → vget vs rhs = Ok rv → lget vs lhs = Ok code →
  br_width code = Some w →
  iv_class lv ≠ IR_VC_FUNCTION → iv_class rv ≠ IR_VC_FUNCTION →
  emits_goto e e' (cmp_branch_dest (iu_types (vs_types vs)) w p lv rv tb fb).
Proof.
  intros H Hl Hr Hc Hw Hnl Hnr. unfold emit_cmp_branch in H.
  rewrite Hl, Hr, Hc in H. cbn [mbind res_bind] in H.
  rewrite swap_pred_code_icmp, is_icmp_code in H.
  destruct (iv_class lv) eqn:El; try done;
    destruct (iv_class rv) eqn:Er; try done; cbn [bool_decide] in H; simpl in H;
    rewrite ?El, ?Er, ?is_icmp_code in H; try discriminate H.
  - cbn [check mbind res_bind] in H.
    eapply emits_goto_weaken; [|intros u rf b; apply cmp_branch_dest_swap].
    assert (∃ r, value_reg rv = Ok r) as [r Hvr].
    { destruct (value_reg rv) as [r|] eqn:E; [eauto|].
      destruct code; try discriminate Hw; inv_res. }
    eapply emit_cmp_branch_imm; eauto. rewrite Hvr in H. by destruct code.
  - cbn [check mbind res_bind] in H.
    eapply emits_goto_weaken; [|intros u rf b; apply cmp_branch_dest_swap].
    assert (∃ r, value_reg rv = Ok r) as [r Hvr].
    { destruct (value_reg rv) as [r|] eqn:E; [eauto|].
      destruct code; try discriminate Hw; inv_res. }
    eapply emit_cmp_branch_imm; eauto. rewrite Hvr in H. by destruct code.
  - cbn [check mbind res_bind] in H.
    assert (∃ r, value_reg lv = Ok r) as [r Hvr].
    { destruct (value_reg lv) as [r|] eqn:E; [eauto|].
      destruct code; try discriminate Hw; inv_res. }
    eapply emit_cmp_branch_imm; eauto. rewrite Hvr in H. by destruct code.
  - cbn [check mbind res_bind] in H.
    assert (∃ r, value_reg lv = Ok r) as [r Hvr].
    { destruct (value_reg lv) as [r|] eqn:E; [eauto|].
      destruct code; try discriminate Hw; inv_res. }
    eapply emit_cmp_branch_imm; eauto. rewrite Hvr in H. by destruct code.
  - inv_res. destruct code; try discriminate Hw; injection Hw as <-; inv_res.
    + eapply (emits_goto_cmp_rr vs 8 p tb fb e e' lv rv _ El Hm0 B8); eauto. by left.
    + eapply (emits_goto_cmp_rr vs 32 p tb fb e e' lv rv _ El Hm0 B32); eauto.
      unfold cmp_w; auto.
    + eapply (emits_goto_cmp_rr vs 32 p tb fb e e' lv rv _ El Hm0 B32); eauto.
      unfold cmp_w; auto.
Qed.

(** ** Examples *)

Definition example_br : emit_state :=
  mk_emit [vm_opcode VM_BCOND; 8; 3; 4] (λ _, 0) 4096 [0].

Lemma emit_br_correct_witness :
  emit_br example_unit (example_v 0) 3 4 None example_start = Ok example_br ∧
  ((example_br = example_start ∧ 0 = -1 ∧ ∃ b, None = Some b ∧ ib_id b = 3) ∨
   emits_goto example_start example_br (br_dest example_unit (example_v 0) 3 4)).
Proof.
  split; [reflexivity|].
  exact (emit_br_correct example_unit (example_v 0) 3 4 None example_start example_br eq_refl).
Defined.

Definition example_cmp_branch : emit_state :=
  mk_emit [vm_opcode (VM_CMP_BR B32_C ICMP_ULT); 3; 4; 8; 7; 0] (λ _, 0) 4096 [0].

Lemma emit_cmp_branch_correct_witness :
  emit_cmp_branch example_unit (icmp_code ICMP_ULT) (example_v 0) (example_v 2) 3 4
    example_start = Ok example_cmp_branch ∧
  emits_goto example_start example_cmp_branch
    (cmp_branch_dest [T_INT32; T_INT8; T_INT64] 32 ICMP_ULT (example_reg 0 8)
       (example_const 0 7) 3 4).
Proof.
  split; [reflexivity|].
  apply (emit_cmp_branch_correct example_unit ICMP_ULT (example_v 0) (example_v 2) 3 4
           example_start example_cmp_branch (example_reg 0 8) (example_const 0 7)
           IR_TYPE_INT32 32); first [reflexivity|discriminate].
Defined.
