(* ===== verification/VmSwitch.v ===== *)
(** The switches: the code [emit_switch] writes, a table of blocks indexed by
    the value or a binary search over the sorted keys, goes to the block of the
    path whose key is the value, or to the default block. *)
From Stdlib Require Import Sorting.Sorted.
From S2P Require Import Prelude Support Mem Types Values Heap Libc.
From S2P Require Import VmOps Fp Vm VmArith Instr Emit VmEmit VmBranch.
Local Open Scope Z_scope.

(** ** Switches *)

(** The words of a key: its form is the one of an immediate. *)
Definition key_size (w : Z) : nat := if w =? 8 then 1 else if w =? 32 then 2 else 4.

Lemma imm_words_length w c ws :
  w = 8 ∨ w = 32 ∨ w = 64 → imm_words w c ws → length ws = key_size w.
Proof.
  intros [->|[->| ->]] H; unfold imm_words in H; simpl in H.
  - by destruct H as (cw & -> & _).
  - by subst ws.
  - by subst ws.
Qed.

(** A loop of emitters writes the words of each element in turn. *)
Lemma foldR_emits {A} (f : emit_state → A → res emit_state) (P : A → list Z → Prop) l e e' :
  (∀ e a e', f e a = Ok e' → ∃ ws, P a ws ∧ emits e e' ws ∧ e_fixups e' = e_fixups e) →
  foldR f e l = Ok e' →
  ∃ wss, Forall2 P l wss ∧ emits e e' (concat wss) ∧ e_fixups e' = e_fixups e.
Proof.
  intros Hf. revert e; induction l as [|a l IH]; intros e H; simpl in H.
  - inv_res. exists []. split_and!; [done|apply emits_nil|done].
  - inv_res. apply Hf in Hm as (ws & HP & He & Hfx).
    apply IH in H as (wss & HPs & He2 & Hfx2). exists (ws :: wss).
    split_and!; [by constructor|by eapply emits_app|congruence].
Qed.

Section keys.
Context (w : Z) (Hw : w = 8 ∨ w = 32 ∨ w = 64) (keys : list Z) (wss : list (list Z)).
Context (Hk : Forall2 (imm_words w) keys wss).

Lemma keys_length : length (concat wss) = (key_size w * length keys)%nat.
Proof using Hw Hk.
  clear -Hw Hk. induction Hk as [|k ws ks wss' H1 H2 IH]; simpl; [lia|].
  rewrite length_app, (imm_words_length w k ws), IH by (done || lia). lia.
Qed.

(** The words of key [i] in the text. *)
Lemma key_split i k :
  keys !! i = Some k → ∃ a ws b, concat wss = a ++ ws ++ b ∧
    length a = (key_size w * i)%nat ∧ imm_words w k ws.
Proof using Hw Hk.
  clear -Hw Hk. revert i; induction Hk as [|k' ws ks wss' H1 H2 IH]; intros i Hi; [done|].
  destruct i as [|i]; simpl in Hi.
  - injection Hi as ->. exists [], ws, (concat wss'). split_and!; [done|simpl; lia|done].
  - destruct (IH H2 i Hi) as (a & ws2 & b & Hc & Hl & Hi2).
    exists (ws ++ a), ws2, b. split_and!; [simpl; by rewrite Hc, <-app_assoc| |done].
    rewrite length_app, (imm_words_length w k' ws), Hl by done. lia.
Qed.

(** The three search instructions. *)
Definition switch_op : vm_op :=
  if w =? 8 then VM_SWITCH8_BS else if w =? 32 then VM_SWITCH32_BS else VM_SWITCH64_BS.

Lemma run_switch_bs h u f reg offs x o f' :
  code_at u f ([u16 reg; Z.of_nat (length keys)] ++ concat wss ++ offs) →
  length offs = S (length keys) → mem_ok (u_regs u) →
  StronglySorted Z.lt (map (wrap w) keys) →
  reg_rd w u (f_rf f) reg = Ok x →
  offs !! path_index (map (wrap w) keys) x = Some o → branch_frame f o = Ok f' →
  vm_case h switch_op u f = Ok (N_go u f').
Proof using Hw Hk.
  intros Hc Ho Hm Hs Hx Hoi Hbr.
  set (p := Z.of_nat (length keys)) in *. set (i := path_index _ _) in *.
  assert (Iw u f 1 = Ok p) as Hp by exact (code_at_word _ _ _ 1%nat p Hc eq_refl).
  assert (∀ n, n = Z.of_nat (2 + (key_size w * length keys + i)) → Iw u f n = Ok o) as Hto.
  { intros n ->. eapply code_at_word; [exact Hc|].
    pose proof keys_length as Hkl. set (n := (key_size w * length keys)%nat) in *.
    rewrite (lookup_app_r [_; _]) by (cbn [length]; lia). cbn [length].
    replace (2 + (n + i) - 2)%nat with (n + i)%nat by lia.
    rewrite (lookup_app_r (concat wss)) by lia. by replace (n + i - length (concat wss))%nat with i by lia. }
  assert (∀ j k, keys !! j = Some k → ∃ ws1 ws2 ws3, imm_words w k ws2 ∧
            code_at u f (ws1 ++ ws2 ++ ws3) ∧ length ws1 = (2 + key_size w * j)%nat) as Hkey.
  { intros j k Hj. destruct (key_split j k Hj) as (a & ws & b & Hcc & Hl & Hi).
    exists ([u16 reg; p] ++ a), ws, (b ++ offs). split_and!; [done| |simpl; lia].
    rewrite Hcc in Hc. by rewrite <-!app_assoc in *. }
  assert (∀ key, reads_keys key (map (wrap w) keys) → switch_path key x p = Ok (Z.of_nat i)) as Hpath.
  { intros key Hr. subst p i. rewrite <-(length_map (wrap w) keys).
    by apply switch_path_spec. }
  unfold switch_op, vm_case. destruct Hw as [Hw'|[Hw'|Hw']]; rewrite Hw' in *;
    cbn [Z.eqb Pos.eqb vm_op_group]; unfold exec_switch; rewrite Hp; rok.
  - destruct (R32_rd 8 u f _ 0 reg 0 x Hc eq_refl eq_refl) as (y & Hy & _ & ->); [done|done|done|].
    unfold R8. rewrite Hy. rok. rewrite Hpath.
    + rok. rewrite Hto by (unfold p; change (key_size 8) with 1%nat; lia). rok. unfold branch. by rewrite Hbr.
    + intros j k Hj. rewrite list_lookup_fmap in Hj.
      destruct (keys !! j) as [k'|] eqn:Ej; [|done]. injection Hj as <-.
      destruct (Hkey j k' Ej) as (ws1 & ws2 & ws3 & Hi & Hc' & Hl).
      destruct Hi as (cw & -> & Hcw). unfold UIMM8.
      rewrite (code_at_words u f _ (length ws1) cw (2 + Z.of_nat j) Hc').
      * rok. by rewrite Hcw.
      * by rewrite lookup_app_r, Nat.sub_diag by lia.
      * rewrite Hl. change (key_size 8) with 1%nat. lia.
  - destruct (R32_rd 32 u f _ 0 reg 0 x Hc eq_refl eq_refl) as (y & Hy & Hyr & ->); [done|done|done|].
    rewrite Hy. rok. rewrite (wrap_small 32 y) in * by done. rewrite Hpath.
    + rok. rewrite Hto by (unfold p; change (key_size 32) with 2%nat; lia). rok. unfold branch. by rewrite Hbr.
    + intros j k Hj. rewrite list_lookup_fmap in Hj.
      destruct (keys !! j) as [k'|] eqn:Ej; [|done]. injection Hj as <-.
      destruct (Hkey j k' Ej) as (ws1 & ws2 & ws3 & Hi & Hc' & Hl).
      unfold imm_words in Hi; simpl in Hi. subst ws2.
      eapply UIMM32_at; [exact Hc'|]. rewrite Hl. change (key_size 32) with 2%nat. lia.
  - rewrite (R64_rd u f _ 0 reg 0 x Hc eq_refl eq_refl) by done. rok. rewrite Hpath.
    + rok. rewrite Hto by (unfold p; change (key_size 64) with 4%nat; lia). rok. unfold branch. by rewrite Hbr.
    + intros j k Hj. rewrite list_lookup_fmap in Hj.
      destruct (keys !! j) as [k'|] eqn:Ej; [|done]. injection Hj as <-.
      destruct (Hkey j k' Ej) as (ws1 & ws2 & ws3 & Hi & Hc' & Hl).
      unfold imm_words in Hi; simpl in Hi. subst ws2.
      eapply UIMM64_at; [exact Hc'|]. rewrite Hl. change (key_size 64) with 4%nat. lia.
Qed.
End keys.

(** ** The search forms *)

(** The block a switch goes to for the value [x]. *)
Definition path_block (w : Z) (paths : list ir_path) (defblock x : Z) : Z :=
  match list_find (λ p, wrap w (pa_v64 p) = x) paths with
  | Some (_, p) => pa_block p | None => defblock
  end.

(** It is at the index of the path in the list of blocks. *)
Lemma path_block_index w (key : ir_path → Z) paths defblock x :
  (∀ p, key p = wrap w (pa_v64 p)) →
  (map (wrap 16) (map pa_block paths) ++ [u16 defblock]) !! path_index (map key paths) x
  = Some (u16 (path_block w paths defblock x)).
Proof.
  intros Hk. unfold path_index, path_block.
  induction paths as [|p paths IH]; [done|]. cbn [map list_find app].
  rewrite Hk. destruct (decide (wrap w (pa_v64 p) = x)) as [Hp|Hp].
  - done.
  - destruct (list_find (λ k, k = x) (map key paths)) as [[i y]|] eqn:E1;
      destruct (list_find (λ p, wrap w (pa_v64 p) = x) paths) as [[j q]|] eqn:E2;
      cbn [fmap option_fmap option_map prod_map length] in *; exact IH.
Qed.

(** What the code before the search leaves: only scratch registers have
    changed, and [reg] holds the value the keys are compared with. *)
Definition switch_ready (u : vm_unit) (rf wk reg x : Z) (u' : vm_unit) : Prop :=
  same_but_scratch u rf u' ∧ mem_ok (u_regs u') ∧ reg_rd wk u' rf reg = Ok x.

Lemma switch_ready_refl u rf wk reg x :
  mem_ok (u_regs u) → reg_rd wk u rf reg = Ok x → switch_ready u rf wk reg x u.
Proof. intros. split_and!; [apply same_but_scratch_refl|done|done]. Qed.

Lemma same_but_scratch_code u rf u' f ws :
  same_but_scratch u rf u' → code_at u f ws → code_at u' f ws.
Proof. by intros (m & -> & _). Qed.

(** The words of a search form, and where [branch_targets] finds its blocks. *)
Lemma branch_targets_switch w t pos reg p kws offs :
  w = 8 ∨ w = 32 ∨ w = 64 → 0 <= p → length kws = (key_size w * Z.to_nat p)%nat →
  words_at t pos (([vm_opcode (switch_op w); reg; p] ++ kws) ++ offs ++ []) →
  branch_targets t (2 * Z.of_nat pos) =
  Ok (map (λ j, Z.of_nat (length ([vm_opcode (switch_op w); reg; p] ++ kws)) + Z.of_nat j)
        (seq 0 (Z.to_nat (p + 1)))).
Proof.
  intros Hw Hp Hl Hat. rewrite app_nil_r in Hat. cbn [app] in Hat.
  unfold branch_targets. rewrite (branch_targets_op _ _ _ _ Hat). rok.
  rewrite vm_decode_opcode.
  assert (text_word t (2 * Z.of_nat pos / 2 + 2) = Ok p) as Hp2.
  { rewrite (Z.mul_comm 2), Z.div_mul by lia.
    apply (text_word_at t pos _ 2%nat p _ Hat); [done|lia]. }
  rewrite length_app, Hl.
  destruct Hw as [->|[->| ->]]; cbn [switch_op Z.eqb Pos.eqb]; rewrite Hp2; rok;
    f_equal; apply map_ext; intros j; unfold key_size; cbn [Z.eqb Pos.eqb length]; lia.
Qed.

(** What is written after [pre]: the keys, the blocks and the default. *)
Lemma layout_switch_bs wk emit_key keys paths defblock reg pre e e1 e' :
  wk = 8 ∨ wk = 32 ∨ wk = 64 →
  (∀ e a e', emit_key e a = Ok e' →
     ∃ ws, imm_words wk a ws ∧ emits e e' ws ∧ e_fixups e' = e_fixups e) →
  length keys = length paths → Z.of_nat (length paths) < 65536 →
  emits e e1 pre → e_fixups e1 = e_fixups e →
  emit_switch_bs (switch_op wk) emit_key reg keys paths defblock e1 = Ok e' →
  ∃ wss, Forall2 (imm_words wk) keys wss ∧
    branch_layout e e' pre
      ([vm_opcode (switch_op wk); u16 reg; Z.of_nat (length paths)] ++ concat wss)
      (map (wrap 16) (map pa_block paths) ++ [u16 defblock]) [].
Proof.
  intros Hwk Hkey Hlk Hlen Hpre Hfpre H. unfold emit_switch_bs in H. inv_res.
  apply emit_words_inv in Hm as [He1 Hf1].
  apply (foldR_emits _ (imm_words wk)) in Hm0 as (wss & Hwss & He2 & Hf2); [|exact Hkey].
  apply emit_words_inv in Hm1 as [He3 Hf3]. apply emit_i16_inv in H as [He4 Hf4].
  cbn [map] in He1. rewrite vm_opcode_u16, (wrap_small 16 (Z.of_nat (length paths))) in He1
    by (change (2 ^ 16) with 65536; lia).
  set (p := Z.of_nat (length paths)) in *.
  pose proof (keys_length wk Hwk keys wss Hwss) as Hkl. rewrite Hlk in Hkl.
  exists wss. split; [done|]. unfold branch_layout.
  assert (length (map (wrap 16) (map pa_block paths) ++ [u16 defblock]) = S (length paths)) as Hbl
    by (rewrite length_app, !length_map; cbn [length]; lia).
  rewrite Hbl. split_and!.
  - rewrite app_nil_r, <-app_assoc. pose proof (emits_app _ _ _ _ _ He3 He4) as Ha.
    pose proof (emits_app _ _ _ _ _ He2 Ha) as Hb. pose proof (emits_app _ _ _ _ _ He1 Hb) as Hc.
    eapply emits_app; [exact Hpre|exact Hc].
  - rewrite Hf4, Hf3, Hf2, Hf1. simpl. rewrite Hfpre. do 2 f_equal.
    unfold text_pos. rewrite (proj1 Hpre), length_app. lia.
  - simpl. lia.
  - intros t pos offs Ho Hat.
    replace (S (length paths)) with (Z.to_nat (p + 1)) by lia.
    apply (branch_targets_switch wk t pos _ _ _ offs); [done|lia| |exact Hat].
    rewrite Hkl. f_equal. lia.
Qed.

Lemma emits_goto_switch_bs w wk key emit_key paths defblock reg pre e e1 e' value :
  wk = 8 ∨ wk = 32 ∨ wk = 64 →
  (∀ e a e', emit_key e a = Ok e' →
     ∃ ws, imm_words wk a ws ∧ emits e e' ws ∧ e_fixups e' = e_fixups e) →
  (∀ p, wrap wk (key p) = wrap w (pa_v64 p)) →
  StronglySorted Z.lt (map (λ p, wrap w (pa_v64 p)) paths) →
  Z.of_nat (length paths) < 65536 →
  emits e e1 pre → e_fixups e1 = e_fixups e →
  emit_switch_bs (switch_op wk) emit_key reg (map key paths) paths defblock e1 = Ok e' →
  (∀ h u f x, value u (f_rf f) = Ok x → reg_ok u (f_rf f) 0 → code_at u f pre →
     ∃ n u', vm_steps h n u f u' (set_I f (f_I f + Z.of_nat (length pre))) ∧
             switch_ready u (f_rf f) wk reg x u') →
  emits_goto e e' (λ u rf, x ← value u rf; Ok (path_block w paths defblock x)).
Proof.
  intros Hwk Hkey Hk Hs Hlen Hpre Hfpre H Hrun.
  destruct (layout_switch_bs wk emit_key (map key paths) paths defblock reg pre e e1 e')
    as (wss & Hwss & Hl); [done|done|by rewrite length_map|done..|].
  eexists _, _, _, _. split; [exact Hl|].
  assert (length (map (wrap 16) (map pa_block paths) ++ [u16 defblock]) = S (length paths)) as ->
    by (rewrite length_app, !length_map; cbn [length]; lia).
  intros h u f b Hb Hok. destruct (value u (f_rf f)) as [x|] eqn:Hx; [|done].
  revert Hb. rok. intros [= <-].
  exists (path_index (map (λ p, wrap w (pa_v64 p)) paths) x).
  split; [by apply path_block_index|]. intros offs o f' Ho Hc Hoi Hbr.
  apply code_at_app in Hc as [Hc1 Hc2].
  destruct (Hrun h u f x Hx Hok Hc1) as (n & u1 & Hn & Hsc & Hm1 & Hrd).
  apply (same_but_scratch_code _ _ _ _ _ Hsc) in Hc2.
  rewrite app_nil_r, <-app_assoc in Hc2. cbn [app] in Hc2.
  apply (vm_step_op h) in Hc2 as [Hst Hc2].
  exists (n + 1)%nat, u1. split; [|done]. eapply steps_trans; [exact Hn|].
  apply steps_one. rewrite Hst, set_I_set_I. cbn [f_I set_I].
  assert (map (wrap wk) (map key paths) = map (λ p, wrap w (pa_v64 p)) paths) as Hmk
    by (rewrite map_map; apply map_ext; exact Hk).
  rewrite set_I_set_I in Hc2. cbn [f_I set_I] in Hc2.
  apply (run_switch_bs wk Hwk (map key paths) wss Hwss h u1 _ reg offs x o f');
    [by rewrite length_map|by rewrite length_map, Ho|done|by rewrite Hmk|exact Hrd
    |by rewrite Hmk|exact Hbr].
Qed.

(** ** The table form *)

(** Writing one element per path into a table. *)
Lemma fold_insert_lookup {A} (k : A → nat) (v : A → Z) (l : list A) (t : list Z) i :
  NoDup (map k l) → (i < length t)%nat →
  fold_left (λ t a, <[k a := v a]> t) l t !! i =
  match list_find (λ a, k a = i) l with Some (_, a) => Some (v a) | None => t !! i end.
Proof.
  revert t; induction l as [|a l IH]; intros t Hnd Hi; [done|]. cbn [fold_left list_find map] in *.
  apply list.NoDup_cons in Hnd as [Hnin Hnd].
  rewrite IH by (rewrite ?length_insert; done).
  destruct (list_find (λ a, k a = i) l) as [[j b]|] eqn:Ef.
  - apply list_find_Some in Ef as (Hj & Hb & _).
    rewrite decide_False; [done|]. intros Ha. apply Hnin. rewrite Ha, <-Hb.
    apply list_elem_of_fmap_2. by eapply list_elem_of_lookup_2.
  - destruct (decide (k a = i)) as [<-|Hn].
    + by rewrite list_lookup_insert_eq.
    + by rewrite list_lookup_insert_ne.
Qed.

Lemma length_fill_jumptable size paths defblock :
  length (fill_jumptable size paths defblock) = Z.to_nat size.
Proof.
  unfold fill_jumptable. apply (eq_trans (y := length (replicate (Z.to_nat size) (u16 defblock))));
    [|apply length_replicate].
  generalize (replicate (Z.to_nat size) (u16 defblock)) as t.
  induction paths as [|p paths IH]; intros t; cbn [fold_left]; [done|].
  by rewrite IH, length_insert.
Qed.

Lemma sorted_lt_NoDup (l : list Z) : StronglySorted Z.lt l → NoDup l.
Proof.
  induction 1 as [|a l _ IH Hf]; [constructor|].
  apply list.NoDup_cons. split; [|done]. intros Hin.
  apply list_elem_of_lookup_1 in Hin as [i Hi].
  pose proof (Forall_lookup_1 _ _ _ _ Hf Hi). lia.
Qed.

(** The entry for [x] is the block of the path whose key is [x]. *)
Lemma fill_jumptable_lookup w paths defblock x :
  1 <= w → StronglySorted Z.lt (map (λ p, wrap w (pa_v64 p)) paths) → 0 <= x < 2 ^ w →
  fill_jumptable (2 ^ w) paths defblock !! Z.to_nat x = Some (u16 (path_block w paths defblock x)).
Proof.
  intros Hw Hs Hx. unfold fill_jumptable, path_block.
  assert (∀ p, Z.land (pa_v64 p) (2 ^ w - 1) = wrap w (pa_v64 p)) as Hland.
  { intros p.
    unfold wrap. rewrite <-Z.land_ones by lia. f_equal. rewrite Z.ones_equiv. lia. }
  rewrite (fold_insert_lookup (λ p, Z.to_nat (Z.land (pa_v64 p) (2 ^ w - 1)))
             (λ p, u16 (pa_block p))).
  - assert (∀ p, Z.to_nat (Z.land (pa_v64 p) (2 ^ w - 1)) = Z.to_nat x ↔ wrap w (pa_v64 p) = x)
      as Hiff.
    { intros p. rewrite Hland. pose proof (wrap_range w ltac:(lia) (pa_v64 p)). lia. }
    rewrite (list_find_ext _ (λ p, wrap w (pa_v64 p) = x)) by exact Hiff.
    destruct (list_find _ paths) as [[i p]|]; [done|].
    apply lookup_replicate_2. lia.
  - apply sorted_lt_NoDup in Hs. clear -Hs Hland Hw.
    rewrite (map_ext _ (λ p, Z.to_nat (wrap w (pa_v64 p)))) by (intros; by rewrite Hland).
    rewrite <-(map_map (λ p, wrap w (pa_v64 p)) Z.to_nat).
    induction paths as [|p paths IH]; simpl in *; [constructor|].
    apply list.NoDup_cons in Hs as [Hn Hs]. apply list.NoDup_cons. split; [|by apply IH].
    intros Hin. apply Hn. apply list_elem_of_fmap in Hin as (y & Hy & Hin).
    assert (y = wrap w (pa_v64 p)) as ->; [|done].
    apply list_elem_of_fmap in Hin as (q & -> & _).
    pose proof (wrap_range w ltac:(lia) (pa_v64 p)). pose proof (wrap_range w ltac:(lia) (pa_v64 q)).
    lia.
  - rewrite length_replicate. lia.
Qed.

Lemma branch_targets_jumptable t pos reg p offs :
  0 <= p → words_at t pos ([vm_opcode VM_JUMPTABLE; reg; p] ++ offs ++ []) →
  branch_targets t (2 * Z.of_nat pos) =
  Ok (map (λ j, 3 + Z.of_nat j) (seq 0 (Z.to_nat p))).
Proof.
  intros Hp Hat. rewrite app_nil_r in Hat. cbn [app] in Hat.
  unfold branch_targets. rewrite (branch_targets_op _ _ _ _ Hat). rok.
  rewrite vm_decode_opcode.
  assert (text_word t (2 * Z.of_nat pos / 2 + 2) = Ok p) as ->; [|done].
  rewrite (Z.mul_comm 2), Z.div_mul by lia.
  apply (text_word_at t pos _ 2%nat p _ Hat); [done|lia].
Qed.

Lemma layout_jumptable w paths defblock reg e e' :
  1 <= w <= 8 → emit_jumptable reg (2 ^ w) paths defblock e = Ok e' →
  branch_layout e e' [] [vm_opcode VM_JUMPTABLE; u16 reg; 2 ^ w]
    (fill_jumptable (2 ^ w) paths defblock) [].
Proof.
  intros Hw H. unfold emit_jumptable, emit_data in H. inv_res.
  assert (1 <= 2 ^ w <= 2 ^ 8) as Hp.
  { split; [apply (Z.pow_le_mono_r 2 0 w); lia|apply Z.pow_le_mono_r; lia]. }
  apply emit_words_inv in Hm as [He1 Hf1]. cbn [map] in He1.
  change (2 ^ 8) with 256 in Hp.
  rewrite vm_opcode_u16, (wrap_small 16 (2 ^ w)) in He1 by (change (2 ^ 16) with 65536; lia).
  unfold branch_layout. rewrite length_fill_jumptable. split_and!.
  - rewrite app_nil_r. eapply (emits_app _ _ _ _ _ He1). done.
  - cbn [e_fixups emit_append]. rewrite Hf1. simpl. by rewrite Z.add_0_r.
  - simpl. lia.
  - intros t pos offs Ho Hat.
    rewrite (branch_targets_jumptable t pos (u16 reg) (2 ^ w) offs); [done|lia|exact Hat].
Qed.

Lemma emits_goto_jumptable w paths defblock reg e e' :
  1 <= w <= 8 → StronglySorted Z.lt (map (λ p, wrap w (pa_v64 p)) paths) →
  emit_jumptable reg (2 ^ w) paths defblock e = Ok e' →
  emits_goto e e' (λ u rf, x ← reg_rd w u rf reg; Ok (path_block w paths defblock x)).
Proof.
  intros Hw Hs H. eexists _, _, _, _. split; [by apply layout_jumptable|].
  rewrite length_fill_jumptable.
  intros h u f b Hb Hok. destruct (reg_rd w u (f_rf f) reg) as [x|] eqn:Hx; [|done].
  revert Hb. rok. intros [= <-]. 
  assert (0 <= x < 2 ^ w) as Hxr.
  { unfold reg_rd in Hx. inv_res. apply wrap_range. lia. }
  exists (Z.to_nat x). split; [by apply fill_jumptable_lookup; [lia|..]|].
  intros offs o f' Ho Hc Hoi Hbr. rewrite app_nil_r in Hc. cbn [app] in Hc.
  apply (vm_step_op h) in Hc as [Hst Hc].
  exists 1%nat, u. split; [|apply same_but_scratch_refl]. apply steps_one. rewrite Hst.
  destruct (R32_rd w u _ _ 0 reg 0 x Hc eq_refl eq_refl) as (y & Hy & _ & Hxy);
    [apply Hok|lia|exact Hx|].
  unfold vm_case. cbn [vm_op_group]. unfold exec_switch.
  rewrite (code_at_word _ _ _ 1%nat _ Hc eq_refl : Iw _ _ 1 = _). rok.
  unfold R8. rewrite Hy. rok.
  assert (Z.land (u8 y) (2 ^ w - 1) = x) as ->.
  { rewrite Hxy, <-(wrap_le w 8) by lia. unfold wrap at 2. rewrite <-Z.land_ones by lia.
    f_equal. rewrite Z.ones_equiv. lia. }
  rewrite (code_at_words _ _ _ (2 + Z.to_nat x) o _ Hc); [rok|exact Hoi|lia].
  unfold branch. cbn [length] in Hbr. rewrite Z.add_0_r in Hbr. by rewrite Hbr.
Qed.

(** ** The switch instruction *)

(** The bits of a value that are compared. *)
Definition switch_width (t : ir_type) : option Z :=
  match t with
  | T_INT1 | T_INT8 => Some 8 | T_INT16 => Some 16 | T_INT32 => Some 32 | T_INT64 => Some 64
  | T_INTx width => Some width | _ => None
  end.

(** A value brought into the scratch register 0 before a 32-bit search. *)
Lemma scratch_ready h u f w x v reg code op :
  1 <= w <= 32 → code_at u f (vm_opcode op :: u16 0 :: u16 reg :: code) →
  reg_ok u (f_rf f) 0 → reg_rd w u (f_rf f) reg = Ok x →
  (∀ u f y, code_at u f (u16 0 :: u16 reg :: code) → R32 u f 1 = Ok y → wrap w y = x →
     vm_case h op u f = ret32 u f v (2 + Z.of_nat (length code))) → u32 v = x →
  ∃ n u', vm_steps h n u f u' (set_I f (f_I f + Z.of_nat (3 + length code))) ∧
          switch_ready u (f_rf f) 32 0 x u'.
Proof.
  intros Hw Hc Hok Hx Hrun Hv. apply (vm_step_op h) in Hc as [Hst Hc].
  destruct (R32_rd w u _ _ 1 reg 1 x Hc eq_refl eq_refl) as (y & Hy & _ & Hxy);
    [apply Hok|lia|exact Hx|].
  destruct (ret32_at 32 u _ _ 0 v x (2 + Z.of_nat (length code)) ltac:(lia) Hc eq_refl)
    as (u' & Hu & Hres); [done|done|].
  exists 1%nat, u'. split.
  - apply steps_one. rewrite Hst, (Hrun _ _ y Hc Hy), Hu by done.
    rewrite set_I_set_I. cbn [f_I set_I]. do 3 f_equal. lia.
  - split_and!.
    + by eapply result_in_scratch.
    + destruct Hres as (z & m & _ & Hm & ->). eapply wr_le_ok; [apply Hok|exact Hm].
    + eapply result_in_rd; [|exact Hres]. lia.
Qed.

Lemma emit_i8_key e a e' :
  emit_i8 e a = Ok e' → ∃ ws, imm_words 8 a ws ∧ emits e e' ws ∧ e_fixups e' = e_fixups e.
Proof.
  intros H. apply emit_i8_inv in H as (cw & He & Hcw & _ & Hf). exists [cw].
  split_and!; [by exists cw|done|done].
Qed.
Lemma emit_i32_key e a e' :
  emit_i32 e a = Ok e' → ∃ ws, imm_words 32 a ws ∧ emits e e' ws ∧ e_fixups e' = e_fixups e.
Proof. intros [He Hf]%emit_i32_inv. by exists (words32 a). Qed.
Lemma emit_i64_key e a e' :
  emit_i64 e a = Ok e' → ∃ ws, imm_words 64 a ws ∧ emits e e' ws ∧ e_fixups e' = e_fixups e.
Proof. intros [He Hf]%emit_i64_inv. by exists (words64 a). Qed.

Lemma land_mask w v : 0 <= w → Z.land v (2 ^ w - 1) = wrap w v.
Proof.
  intros Hw. unfold wrap. rewrite <-Z.land_ones by lia. f_equal. rewrite Z.ones_equiv. lia.
Qed.

(** A search with nothing before it. *)
Lemma ready_now h u f wk reg x pre :
  (pre = [] ∨ pre = [vm_opcode VM_NOP]) → reg_rd wk u (f_rf f) reg = Ok x →
  reg_ok u (f_rf f) 0 → code_at u f pre →
  ∃ n u', vm_steps h n u f u' (set_I f (f_I f + Z.of_nat (length pre))) ∧
          switch_ready u (f_rf f) wk reg x u'.
Proof.
  intros Hpre Hx Hok Hc. destruct (steps_align h u f pre Hpre Hc) as [n Hn].
  exists n, u. split; [done|]. apply switch_ready_refl; [apply Hok|done].
Qed.

Lemma wrap_ge w v x : 0 <= w <= v → wrap v (wrap w x) = wrap w x.
Proof.
  intros Hw. apply wrap_small. pose proof (wrap_range w ltac:(lia) x).
  assert (2 ^ w <= 2 ^ v) by (apply Z.pow_le_mono_r; lia). lia.
Qed.

(** 16 bits are cut off into the scratch register first; *)
Lemma narrow16_ready h u f reg x :
  reg_rd 16 u (f_rf f) reg = Ok x → reg_ok u (f_rf f) 0 →
  code_at u f (vm_opcode VM_CAST_16_TRUNC_32 :: [u16 0; u16 reg]) →
  ∃ n u', vm_steps h n u f u' (set_I f (f_I f + 3)) ∧ switch_ready u (f_rf f) 32 0 x u'.
Proof.
  intros Hx Hok Hc. apply (scratch_ready h u f 16 x x reg [] VM_CAST_16_TRUNC_32); try done; try lia.
  - intros u1 f1 y _ Hy <-. unfold vm_case. cbn [vm_op_group]. unfold exec_cast_int, R16.
    by rewrite Hy.
  - unfold reg_rd in Hx. inv_res. by apply wrap_ge.
Qed.

(** other widths are masked. *)
Lemma narrowx_ready h u f w reg x :
  1 <= w <= 30 → reg_rd w u (f_rf f) reg = Ok x → reg_ok u (f_rf f) 0 →
  code_at u f ((vm_opcode (VM_BIN K_R32C BINOP_AND) :: [u16 0; u16 reg]) ++ words32 (2 ^ w - 1)) →
  ∃ n u', vm_steps h n u f u' (set_I f (f_I f + 5)) ∧ switch_ready u (f_rf f) 32 0 x u'.
Proof.
  intros Hw Hx Hok Hc.
  assert (1 <= 2 ^ w <= 2 ^ 30) as Hp.
  { split; [apply (Z.pow_le_mono_r 2 0 w); lia|apply Z.pow_le_mono_r; lia]. }
  change (2 ^ 30) with 1073741824 in Hp.
  apply (scratch_ready h u f w x x reg (words32 (2 ^ w - 1)) (VM_BIN K_R32C BINOP_AND));
    try done; try lia.
  - intros u1 f1 y Hc1 Hy <-. unfold vm_case. cbn [vm_op_group]. unfold exec_bin.
    rewrite Hy. rok.
    pose proof (UIMM32_at u1 f1 [u16 0; u16 reg] (2 ^ w - 1) [] 2) as E.
    rewrite app_nil_r in E. rewrite (E Hc1 eq_refl). rok. cbn [c_binop]. rok.
    rewrite (wrap_small 32) by (change (2 ^ 32) with 4294967296; lia). by rewrite land_mask by lia.
  - unfold reg_rd in Hx. inv_res. apply wrap_ge. lia.
Qed.

(** 1-bit and 8-bit values: a table of 256 blocks, or a search. *)
Lemma emit_switch_small reg paths defblock e e' :
  (if bool_decide (64 < length paths)%nat then emit_jumptable reg 256 paths defblock e
   else emit_switch_bs VM_SWITCH8_BS emit_i8 reg (map pa_v64 paths) paths defblock e) = Ok e' →
  StronglySorted Z.lt (map (λ p, wrap 8 (pa_v64 p)) paths) →
  emits_goto e e' (λ u rf, x ← reg_rd 8 u rf reg; Ok (path_block 8 paths defblock x)).
Proof.
  intros H Hs. case_bool_decide as Hn.
  - by apply (emits_goto_jumptable 8) in H.
  - eapply (emits_goto_switch_bs 8 8 pa_v64 emit_i8 paths defblock reg [] e e e');
      eauto using emit_i8_key, emits_nil, ready_now. lia.
Qed.

(** C5: a switch goes to its path: for values of 1, 8, 16, 32 and 64 bits and
    odd widths up to 30 whose keys are in increasing order, the words
    [emit_switch] wrote (a table, a binary search, a narrowing before the
    search) lead to the block of the path whose key is the value of the
    register at that width, and to the default block when no key is. *)
Theorem emit_switch_correct vs value defblock paths e e' c reg cty w :
  emit_switch vs value defblock paths e = Ok e' →
  vget vs value = Ok c → value_reg c = Ok reg →
  type_get (iu_types (vs_types vs)) (vt_type value) = Ok cty →
  switch_width cty = Some w → 1 <= w →
  StronglySorted Z.lt (map (λ p, wrap w (pa_v64 p)) paths) →
  Z.of_nat (length paths) < 65536 →
  emits_goto e e' (λ u rf, x ← reg_rd w u rf reg; Ok (path_block w paths defblock x)).
Proof.
  intros H Hc Hr Ht Hw Hw1 Hs Hlen. unfold emit_switch in H. rewrite Hc, Ht in H.
  cbn [mbind res_bind] in H. apply check_bind in H as [_ H]. rewrite Hr in H.
  cbn [mbind res_bind] in H.
  destruct cty; try discriminate Hw; injection Hw as <-.
  - by apply emit_switch_small in H.
  - by apply emit_switch_small in H.
  - inv_res. apply emit_op2_inv in Hm as [He1 Hf1].
    eapply (emits_goto_switch_bs 16 32 (λ p, Z.land (pa_v64 p) 65535) emit_i32 paths defblock 0 _ e a e');
      eauto using emit_i32_key, narrow16_ready.
    intros p. cbv beta. change 65535 with (2 ^ 16 - 1). rewrite (land_mask 16) by lia. apply wrap_ge. lia.
  - eapply (emits_goto_switch_bs 32 32 (λ p, Z.land (pa_v64 p) 4294967295) emit_i32 paths defblock reg [] e e e');
      eauto using emit_i32_key, emits_nil, ready_now.
    intros p. cbv beta. change 4294967295 with (2 ^ 32 - 1). rewrite (land_mask 32) by lia. apply wrap_wrap. lia.
  - inv_res. apply vm_align32_inv in Hm as [He0 Hf0].
    assert (∃ pre, (pre = [] ∨ pre = [vm_opcode VM_NOP]) ∧ emits e a pre) as (pre & Hp & Hpre)
      by (destruct He0; eauto).
    eapply (emits_goto_switch_bs 64 64 pa_v64 emit_i64 paths defblock reg pre e a e');
      eauto using emit_i64_key, ready_now.
  - rename it_bits into bits. apply check_bind in H as [_ H]. destruct (Z.leb_spec bits 4).
    + rewrite Z.shiftl_1_l in H. apply emits_goto_jumptable in H; [done|lia|done].
    + inv_res. apply int_arith_inv in Hm as [-> Hm]. rewrite Z.shiftl_1_l in *.
      rewrite VM_ADD_code in Hm0. apply emit_op2_inv in Hm0 as [He1 Hf1].
      apply emit_i32_inv in Hm1 as [He2 Hf2].
      assert (bits <= 30).
      { destruct (Z.le_gt_cases bits 30); [done|].
        pose proof (Z.pow_le_mono_r 2 31 bits ltac:(lia) ltac:(lia)). unfold INT32_MAX in Hm.
        change (2 ^ 31) with 2147483648 in *. lia. }
      eapply (emits_goto_switch_bs bits 32 (λ p, Z.land (pa_v64 p) (2 ^ bits - 1)) emit_i32 paths defblock 0 _ e a1 e');
        eauto using emit_i32_key, emits_app, narrowx_ready.
      * intros p. cbv beta. rewrite land_mask by lia. apply wrap_ge. lia.
      * congruence.
Qed.

(** ** Examples *)

Definition example_paths : list ir_path := [mk_path 3 1; mk_path 10 2; mk_path 255 4].
Definition example_switch : emit_state :=
  mk_emit [vm_opcode VM_SWITCH8_BS; 20; 3; 3; 10; 255; 1; 2; 4; 5] (λ _, 0) 4096 [0].

Lemma example_paths_sorted : StronglySorted Z.lt (map (λ p, wrap 8 (pa_v64 p)) example_paths).
Proof. vm_compute. repeat constructor. Defined.

Lemma emit_switch_correct_witness :
  emit_switch example_unit (example_v 4) 5 example_paths example_start = Ok example_switch ∧
  emits_goto example_start example_switch
    (λ u rf, x ← reg_rd 8 u rf 20; Ok (path_block 8 example_paths 5 x)).
Proof.
  split; [vm_compute; reflexivity|].
  apply (emit_switch_correct example_unit (example_v 4) 5 example_paths example_start
           example_switch (example_reg 1 20) 20 T_INT8 8);
    first [exact example_paths_sorted|reflexivity|vm_compute; congruence].
Defined.
