(* ===== verification/VmFunction.v ===== *)
(** Whole functions: what [branch_fixup] does to the text that [emit_bbs]
    wrote, and that in the text of [vm_emit_function] every instruction runs
    as its emitter promises, with branches that lead to the code of their
    blocks. *)
From Stdlib Require Import Sorting.Sorted.
From S2P Require Import Prelude Support Mem Types Values Heap Libc.
From S2P Require Import VmOps Fp Vm VmArith Instr Emit VmEmit VmBranch VmSwitch.
Local Open Scope Z_scope.

(** ** Instructions without branches *)

(** Words were added and no fixup was pushed. *)
Definition emits_plain (e e' : emit_state) : Prop :=
  (∃ ws, emits e e' ws) ∧ e_fixups e' = e_fixups e.

Lemma plain_refl e : emits_plain e e.
Proof. split; [exists []; apply emits_nil|done]. Qed.

Lemma plain_trans e1 e2 e3 : emits_plain e1 e2 → emits_plain e2 e3 → emits_plain e1 e3.
Proof.
  intros [[ws1 H1] F1] [[ws2 H2] F2]. split; [|congruence].
  exists (ws1 ++ ws2). by eapply emits_app.
Qed.

Lemma plain_i8 e v e' : emit_i8 e v = Ok e' → emits_plain e e'.
Proof. intros (w & He & _ & _ & Hf)%emit_i8_inv. split; eauto. Qed.
Lemma plain_i16 e v e' : emit_i16 e v = Ok e' → emits_plain e e'.
Proof. intros [He Hf]%emit_i16_inv. split; eauto. Qed.
Lemma plain_i32 e v e' : emit_i32 e v = Ok e' → emits_plain e e'.
Proof. intros [He Hf]%emit_i32_inv. split; eauto. Qed.
Lemma plain_i64 e v e' : emit_i64 e v = Ok e' → emits_plain e e'.
Proof. intros [He Hf]%emit_i64_inv. split; eauto. Qed.
Lemma plain_words e ws e' : emit_words e ws = Ok e' → emits_plain e e'.
Proof. intros [He Hf]%emit_words_inv. split; eauto. Qed.
Lemma plain_align e b e' : vm_align32 e b = Ok e' → emits_plain e e'.
Proof. intros [[He|He] Hf]%vm_align32_inv; split; eauto. Qed.

Lemma plain_fold {A} (f : emit_state → A → res emit_state) l e e' :
  (∀ e a e', f e a = Ok e' → emits_plain e e') → foldR f e l = Ok e' → emits_plain e e'.
Proof.
  intros Hf. apply (foldR_inv (emits_plain e)); [|apply plain_refl].
  intros s a s' _ Hs H. eapply plain_trans; eauto.
Qed.

(** An emitter whose result, if any, is plain. *)
Definition plain_emitter (e : emit_state) (r : res emit_state) : Prop :=
  ∀ e', r = Ok e' → emits_plain e e'.

Lemma pe_pure {A} e (m : res A) (k : A → res emit_state) :
  (∀ a, plain_emitter e (k a)) → plain_emitter e (m ≫= k).
Proof. intros Hk e' H. inv_res. by eapply Hk. Qed.

Lemma pe_emit e m (k : emit_state → res emit_state) :
  plain_emitter e m → (∀ e1, plain_emitter e1 (k e1)) → plain_emitter e (m ≫= k).
Proof. intros Hm Hk e' H. inv_res. eapply plain_trans; [by apply Hm|by apply Hk]. Qed.

Lemma pe_sel vs iv scratch e (k : Z * emit_state → res emit_state) :
  (∀ r e1, plain_emitter e1 (k (r, e1))) →
  plain_emitter e (emit_sel_value vs iv scratch e ≫= k).
Proof.
  intros Hk e' H. apply bind_Ok in H as ([r e1] & Hm & H).
  eapply plain_trans; [|by eapply Hk]. unfold emit_sel_value in Hm.
  destruct (iv_class iv); inv_res; try apply plain_refl;
    (eapply plain_trans; [by eapply plain_words|by eapply plain_i32]).
Qed.

Lemma plain_regs vs l e : plain_emitter e (emit_regs vs l e).
Proof.
  intros e'. apply plain_fold. intros e0 a. apply pe_pure. intros r e1. apply plain_i16.
Qed.

Create HintDb plain.
#[export] Hint Resolve plain_refl plain_i8 plain_i16 plain_i32 plain_i64 plain_words plain_align
  : plain.

(** Goes through the statements of an emitter. *)
Ltac plain_tac :=
  repeat match goal with
  | |- plain_emitter _ (Fail _) => intros ? ?; discriminate
  | |- plain_emitter _ (Ok _) => intros ? [= <-]; apply plain_refl
  | |- plain_emitter _ (if ?b then _ else _) => destruct b
  | |- plain_emitter _ (emit_regs _ _ _) => apply plain_regs
  | |- plain_emitter _ (match ?x with _ => _ end) => destruct x
  | |- plain_emitter _ (@mbind res _ emit_state _ _ _) => apply pe_emit; [|intros ?]
  | |- plain_emitter _ (mbind _ (emit_sel_value _ _ _ _)) => apply pe_sel; intros ? ?
  | |- plain_emitter _ (mbind _ _) => apply pe_pure; intros ?
  | |- plain_emitter _ (emit_op _ _) => unfold emit_op
  | |- plain_emitter _ (emit_op1 _ _ _) => unfold emit_op1
  | |- plain_emitter _ (emit_op2 _ _ _ _) => unfold emit_op2
  | |- plain_emitter _ (emit_op3 _ _ _ _ _) => unfold emit_op3
  | |- plain_emitter _ (emit_op4 _ _ _ _ _ _) => unfold emit_op4
  | |- plain_emitter _ _ => solve [intros ? ?; eauto 2 with plain]
  | _ => progress cbv zeta
  end.

Section plain.
Context (vs : value_state).

Lemma plain_ret v e : plain_emitter e (emit_ret vs v e).
Proof. unfold emit_ret. plain_tac. Qed.
Lemma plain_binop op l r d e : plain_emitter e (emit_binop vs op l r d e).
Proof. unfold emit_binop, emit_binop_rr, emit_binop_rc. plain_tac. Qed.
Lemma plain_load l d e : plain_emitter e (emit_load vs l d e).
Proof. unfold emit_load, emit_load1, emit_load_off, emit_load_g, emit_roff. plain_tac. Qed.
Lemma plain_store p v off e : plain_emitter e (emit_store vs p v off e).
Proof. unfold emit_store, emit_store_g, emit_store_rr. plain_tac. Qed.
Lemma plain_cmp2 op l r d e : plain_emitter e (emit_cmp2 vs op l r d e).
Proof. unfold emit_cmp2, emit_cmp2_rr, emit_cmp2_rc, emit_icmp_imm. plain_tac. Qed.
Lemma plain_cmp_select op l r t f d e : plain_emitter e (emit_cmp_select vs op l r t f d e).
Proof. unfold emit_cmp_select. plain_tac. Qed.
Lemma plain_move v d e : plain_emitter e (emit_move vs v d e).
Proof. unfold emit_move. plain_tac. Qed.
Lemma plain_stackcopy v n d e : plain_emitter e (emit_stackcopy vs v n d e).
Proof. unfold emit_stackcopy. plain_tac. Qed.
Lemma plain_stackshrink n e : plain_emitter e (emit_stackshrink n e).
Proof. unfold emit_stackshrink. plain_tac. Qed.
Lemma plain_lea b off v m d e : plain_emitter e (emit_lea vs b off v m d e).
Proof. unfold emit_lea. plain_tac. Qed.
Lemma plain_cast op v d e : plain_emitter e (emit_cast vs op v d e).
Proof. unfold emit_cast. plain_tac. Qed.
Lemma plain_call c d rfo ext e : plain_emitter e (emit_call vs c d rfo ext e).
Proof. unfold emit_call. plain_tac. Qed.
Lemma plain_alloca n v a d e : plain_emitter e (emit_alloca vs n v a d e).
Proof. unfold emit_alloca. plain_tac. Qed.
Lemma plain_select t f p d e : plain_emitter e (emit_select vs t f p d e).
Proof. unfold emit_select, emit_select32, emit_select64. plain_tac. Qed.
Lemma plain_vmop c d e : plain_emitter e (emit_vmop vs c d e).
Proof. unfold emit_vmop. plain_tac. Qed.
Lemma plain_vaarg v d e : plain_emitter e (emit_vaarg vs v d e).
Proof. unfold emit_vaarg. plain_tac. Qed.
Lemma plain_mla a b c d e : plain_emitter e (emit_mla vs a b c d e).
Proof. unfold emit_mla. plain_tac. Qed.
Lemma plain_landingpad d e : plain_emitter e (emit_landingpad vs d e).
Proof. unfold emit_landingpad. plain_tac. Qed.
Lemma plain_resume l e : plain_emitter e (emit_resume vs l e).
Proof. unfold emit_resume. plain_tac. Qed.
End plain.

(** ** Instructions with branches *)

(** What an instruction does to the text: words without branches, or one list
    of blocks. *)
Definition emits_some (e e' : emit_state) : Prop :=
  emits_plain e e' ∨ ∃ pre ws1 blocks ws2, branch_layout e e' pre ws1 blocks ws2.

Lemma some_words e op ws1 blocks ws2 e' :
  emit_words (push_fixup e) (vm_opcode op :: ws1 ++ blocks ++ ws2) = Ok e' →
  match op with
  | VM_B => ws1 = [] ∧ length blocks = 1%nat
  | VM_BCOND => length ws1 = 1%nat ∧ length blocks = 2%nat
  | VM_CMP_BR _ _ => ws1 = [] ∧ length blocks = 2%nat
  | VM_INVOKE | VM_INVOKE_EXT | VM_INVOKE_R => length ws1 = 3%nat ∧ length blocks = 2%nat
  | _ => False
  end → emits_some e e'.
Proof.
  intros [He Hf]%emit_words_inv Hop. right.
  exists [], (vm_opcode op :: map (wrap 16) ws1), (map (wrap 16) blocks), (map (wrap 16) ws2).
  apply layout_fixed.
  - cbn [map] in He. by rewrite vm_opcode_u16, !map_app in He.
  - exact Hf.
  - rewrite !length_map. destruct op; try done; destruct Hop as [-> ->]; done.
Qed.

Lemma some_br vs c tb fb next e e' : emit_br vs c tb fb next e = Ok e' → emits_some e e'.
Proof.
  unfold emit_br. intros H. destruct (_ =? -1).
  - destruct (match next with Some _ => _ | None => _ end).
    + inv_res. left. apply plain_refl.
    + by apply (some_words e VM_B [] [tb] []) in H.
  - inv_res. destruct (iv_class a); inv_res.
    + by apply (some_words e VM_B [] [_] []) in H.
    + by apply (some_words e VM_BCOND [_] [_; _] []) in H.
Qed.

Lemma some_invoke vs c d rfo ext e e' : emit_invoke vs c d rfo ext e = Ok e' → emits_some e e'.
Proof.
  unfold emit_invoke. intros H. inv_res.
  assert (∃ op x, emit_words (push_fixup e) [vm_opcode op; x] = Ok a0 ∧
            match op with VM_INVOKE | VM_INVOKE_EXT | VM_INVOKE_R => True | _ => False end)
    as (op & x & Hw & Hop).
  { destruct (value_function vs _); inv_res.
    - eexists _, _. split; [exact Hm0|]. by destruct (ext _).
    - by eexists _, _. }
  apply (some_words e op [x; rfo; a] [ca_normal_dest c; ca_unwind_dest c] []).
  - cbn [app] in *. unfold emit_words in *.
    change (vm_opcode op :: x :: rfo :: a :: ca_normal_dest c :: ca_unwind_dest c :: [])
      with ([vm_opcode op; x] ++ [rfo; a; ca_normal_dest c; ca_unwind_dest c]).
    rewrite foldR_app, Hw. exact H.
  - by destruct op.
Qed.

Lemma words_at_app t pos a b :
  words_at t pos (a ++ b) ↔ words_at t pos a ∧ words_at t (pos + length a) b.
Proof.
  unfold words_at. rewrite length_app, <-drop_drop. set (d := drop pos t). split.
  - intros H. assert (take (length a) d = a) as Ha.
    { apply (f_equal (take (length a))) in H.
      by rewrite take_take, Nat.min_l, take_app_length in H by lia. }
    split; [done|]. rewrite take_drop_commute, H. by rewrite drop_app_length.
  - intros [Ha Hb]. rewrite <-(take_drop (length a) (take _ d)).
    rewrite take_take, Nat.min_l, Ha by lia. f_equal. by rewrite <-take_drop_commute.
Qed.

Lemma some_plain e1 e2 e3 : emits_some e1 e2 → emits_plain e2 e3 → emits_some e1 e3.
Proof.
  intros [H|(pre & ws1 & blocks & ws2 & (He & Hf & Hl & Ht))] Hp.
  - left. by eapply plain_trans.
  - right. destruct Hp as [[ws Hws] Hf2].
    exists pre, ws1, blocks, (ws2 ++ ws). split_and!; [|by rewrite Hf2|done|].
    + pose proof (emits_app _ _ _ _ _ He Hws) as Ha. by rewrite <-!app_assoc in Ha.
    + intros t pos offs Ho Hw. apply (Ht t pos offs Ho).
      rewrite !app_assoc in Hw. apply words_at_app in Hw as [Hw _].
      by rewrite <-app_assoc in Hw.
Qed.

Lemma some_cmp e ws2 k p tb fb e' :
  emit_words (push_fixup e) (icmp_index (icmp_code p) + VM_EQ_BR k :: tb :: fb :: ws2) = Ok e' →
  emits_some e e'.
Proof.
  rewrite VM_EQ_BR_code. intros H. by apply (some_words e _ [] [tb; fb] ws2) in H.
Qed.

(** An emitter that writes at most one list of blocks. *)
Definition some_emitter (e : emit_state) (r : res emit_state) : Prop :=
  ∀ e', r = Ok e' → emits_some e e'.

Lemma se_pure {A} e (m : res A) (k : A → res emit_state) :
  (∀ a, some_emitter e (k a)) → some_emitter e (m ≫= k).
Proof. intros Hk e' H. inv_res. by eapply Hk. Qed.

Lemma se_then e m (k : emit_state → res emit_state) :
  some_emitter e m → (∀ e1, plain_emitter e1 (k e1)) → some_emitter e (m ≫= k).
Proof. intros Hm Hk e' H. inv_res. eapply some_plain; [by apply Hm|by apply Hk]. Qed.

Lemma some_cmp_branch vs p l r tb fb e :
  some_emitter e (emit_cmp_branch vs (icmp_code p) l r tb fb e).
Proof.
  unfold emit_cmp_branch. rewrite swap_pred_code_icmp. cbn [mbind res_bind].
  assert (∀ ws2 k p, some_emitter e
    (emit_words (push_fixup e) (icmp_index (icmp_code p) + VM_EQ_BR k :: tb :: fb :: ws2))) as Hw
    by (intros ws2 k p' e'; apply some_cmp).
  do 3 (apply se_pure; intros ?).
  repeat match goal with
  | |- some_emitter _ (Fail _) => intros ? ?; discriminate
  | |- some_emitter _ (if ?b then _ else _) => destruct b
  | |- some_emitter _ (match ?x with _ => _ end) => destruct x
  | |- some_emitter _ (Ok _ ≫= _) => cbn [mbind res_bind]
  | |- some_emitter _ ((if ?b then _ else _) ≫= _) => destruct b
  | |- some_emitter _ (@mbind res _ emit_state _ _ _) => apply se_then; [apply Hw|intros ?; plain_tac]
  | |- some_emitter _ (mbind _ _) => apply se_pure; intros ?
  | |- some_emitter _ (emit_words _ _) => apply Hw
  end.
Qed.

Lemma some_switch_bs wk emit_key keys paths defblock reg e e1 e' :
  wk = 8 ∨ wk = 32 ∨ wk = 64 →
  (∀ e a e', emit_key e a = Ok e' →
     ∃ ws, imm_words wk a ws ∧ emits e e' ws ∧ e_fixups e' = e_fixups e) →
  length keys = length paths → Z.of_nat (length paths) < 65536 → emits_plain e e1 →
  emit_switch_bs (switch_op wk) emit_key reg keys paths defblock e1 = Ok e' → emits_some e e'.
Proof.
  intros Hwk Hkey Hlk Hlen [[pre Hp] Hf] H. right.
  edestruct (layout_switch_bs wk emit_key keys paths defblock reg pre e e1 e') as (wss & _ & Hl);
    eauto.
Qed.

Lemma some_switch vs value defblock paths e e' :
  Z.of_nat (length paths) < 65536 →
  emit_switch vs value defblock paths e = Ok e' →
  (∀ width, type_get (iu_types (vs_types vs)) (vt_type value) = Ok (T_INTx width) → 1 <= width) →
  emits_some e e'.
Proof.
  intros Hlen H Hwidth. unfold emit_switch in H. inv_res.
  pose proof (plain_refl e) as He.
  assert (∀ w, 1 <= w <= 8 → emit_jumptable a2 (2 ^ w) paths defblock e = Ok e' → emits_some e e')
    as Hjt.
  { intros w Hw Hj. right. eexists _, _, _, _. by apply layout_jumptable. }
  destruct a0; inv_res; try discriminate.
  - case_bool_decide; [by apply (Hjt 8)|].
    eapply (some_switch_bs 8 emit_i8 (map pa_v64 paths));
      [lia|exact emit_i8_key|by rewrite length_map|done|exact He|exact H].
  - case_bool_decide; [by apply (Hjt 8)|].
    eapply (some_switch_bs 8 emit_i8 (map pa_v64 paths));
      [lia|exact emit_i8_key|by rewrite length_map|done|exact He|exact H].
  - eapply (some_switch_bs 32 emit_i32 (map (λ p, Z.land (pa_v64 p) 65535) paths));
      [lia|exact emit_i32_key|by rewrite length_map|done|by eapply plain_words|exact H].
  - eapply (some_switch_bs 32 emit_i32 (map (λ p, Z.land (pa_v64 p) 4294967295) paths));
      [lia|exact emit_i32_key|by rewrite length_map|done|exact He|exact H].
  - eapply (some_switch_bs 64 emit_i64 (map pa_v64 paths));
      [lia|exact emit_i64_key|by rewrite length_map|done|by eapply plain_align|exact H].
  - specialize (Hwidth _ Hm0). destruct (Z.leb_spec it_bits 4).
    + rewrite Z.shiftl_1_l in H. apply (Hjt it_bits); [lia|done].
    + inv_res. eapply (some_switch_bs 32 emit_i32 (map (λ p, Z.land (pa_v64 p) (a3 - 1)) paths));
        [lia|exact emit_i32_key|by rewrite length_map|done| |exact H].
      eapply plain_trans; [by eapply plain_words|by eapply plain_i32].
Qed.

(** What [instr_emit] needs of an instruction: the predicate of a
    compare-and-branch is an integer one, a switch has a number of paths that
    fits its word. *)
Definition instr_ok (vs : value_state) (i : ir_instr) : Prop :=
  match i with
  | IR_IC_CMP_BRANCH op _ _ _ _ => is_icmp op = true
  | IR_IC_SWITCH value _ paths =>
      Z.of_nat (length paths) < 65536 ∧
      ∀ width, type_get (iu_types (vs_types vs)) (vt_type value) = Ok (T_INTx width) → 1 <= width
  | _ => True
  end.

Lemma emit_instr_some vs rfo ext next i e e' :
  instr_ok vs i → emit_instr vs rfo ext next i e = Ok e' → emits_some e e'.
Proof.
  intros Hi H. destruct i; cbn [emit_instr instr_ok] in *; try discriminate H;
    try (left; revert e' H;
         first [apply plain_ret|apply plain_binop|apply plain_load|apply plain_cmp2
               |apply plain_move|apply plain_store|apply plain_lea|apply plain_cast
               |apply plain_call|apply plain_alloca|apply plain_vaarg|apply plain_select
               |apply plain_vmop|apply plain_landingpad|apply plain_resume
               |apply plain_stackcopy|apply plain_stackshrink|apply plain_words
               |apply plain_cmp_select|apply plain_mla]; done).
  - by eapply some_br.
  - by eapply some_invoke.
  - destruct Hi. by eapply some_switch.
  - apply is_icmp_inv in Hi as [p ->]. by eapply some_cmp_branch.
Qed.

(** ** The lists of blocks of a text *)

(** One list of blocks: the place of its opcode, the words before the blocks,
    the blocks and the words after them. *)
Record fx := mk_fx {
  x_pos : nat;
  x_ws1 : list Z;
  x_blocks : list Z;
  x_ws2 : list Z;
}.

Definition x_end (x : fx) : nat :=
  x_pos x + length (x_ws1 x ++ x_blocks x ++ x_ws2 x).
Definition x_off (x : fx) : Z := 2 * Z.of_nat (x_pos x).

(** [branch_targets] finds the blocks of [x], whatever stands there. *)
Definition fx_targets (x : fx) : Prop :=
  (0 < length (x_ws1 x))%nat ∧
  ∀ t offs, length offs = length (x_blocks x) →
    words_at t (x_pos x) (x_ws1 x ++ offs ++ x_ws2 x) →
    branch_targets t (x_off x) =
    Ok (map (λ j, Z.of_nat (length (x_ws1 x)) + Z.of_nat j) (seq 0 (length (x_blocks x)))).

Definition fx_good (t : list Z) (x : fx) : Prop :=
  words_at t (x_pos x) (x_ws1 x ++ x_blocks x ++ x_ws2 x) ∧ fx_targets x.

(** They lie one after the other between [lo] and [hi]. *)
Inductive fx_chain : nat → list fx → nat → Prop :=
  | chain_nil lo hi : (lo <= hi)%nat → fx_chain lo [] hi
  | chain_cons lo x l hi :
      (lo <= x_pos x)%nat → fx_chain (x_end x) l hi → fx_chain lo (x :: l) hi.

Lemma chain_le lo l hi : fx_chain lo l hi → (lo <= hi)%nat.
Proof. induction 1 as [|lo x l hi H _ IH]; [done|]. unfold x_end in IH. lia. Qed.

Lemma chain_app lo l1 mid l2 hi :
  fx_chain lo l1 mid → fx_chain mid l2 hi → fx_chain lo (l1 ++ l2) hi.
Proof.
  intros H1 H2. induction H1 as [lo mid H|lo x l mid H _ IH]; simpl.
  - inversion H2; subst; constructor; [lia|lia|done].
  - constructor; [done|by apply IH].
Qed.

Lemma chain_in lo l hi x : fx_chain lo l hi → x ∈ l → (lo <= x_pos x ∧ x_end x <= hi)%nat.
Proof.
  induction 1 as [|lo y l hi H Hc IH]; intros Hx; [by apply not_elem_of_nil in Hx|].
  apply elem_of_cons in Hx as [->|Hx].
  - apply chain_le in Hc. lia.
  - destruct (IH Hx) as [H1 H2]. unfold x_end in H1 at 1. lia.
Qed.

Lemma words_at_iff t pos ws :
  words_at t pos ws ↔ ∀ i w, ws !! i = Some w → t !! (pos + i)%nat = Some w.
Proof.
  split; [intros H i w; by apply words_at_lookup|]. intros H. apply list_eq. intros i.
  destruct (ws !! i) as [w|] eqn:E.
  - apply lookup_take_Some. split; [|by eapply lookup_lt_Some].
    rewrite lookup_drop. by apply H.
  - apply lookup_ge_None in E. apply lookup_take_None. right. lia.
Qed.

(** Text outside the words does not matter. *)
Lemma words_at_same t t' pos ws :
  (∀ k, (pos <= k < pos + length ws)%nat → t' !! k = t !! k) →
  words_at t pos ws → words_at t' pos ws.
Proof.
  rewrite !words_at_iff. intros Hs H i w Hi. rewrite Hs by (apply lookup_lt_Some in Hi; lia).
  by apply H.
Qed.

Lemma words_at_more t ws2 pos ws : words_at t pos ws → words_at (t ++ ws2) pos ws.
Proof.
  rewrite !words_at_iff. intros H i w Hi. specialize (H i w Hi).
  by apply lookup_app_l_Some.
Qed.

(** ** What [branch_fixup] leaves *)

(** The offset that replaces block [b] in the instruction at [pos]. *)
Definition fixed (offsets : list (Z * Z)) (off b o : Z) : Prop :=
  ∃ d, bb_to_offset_delta offsets b off = Ok d ∧ o = u16 d.

Lemma text_word_nat t k : text_word t (Z.of_nat k) = oget (t !! k) Undef.
Proof. unfold text_word. destruct (Z.ltb_spec (Z.of_nat k) 0); [lia|]. by rewrite Nat2Z.id. Qed.

Lemma fix_words offsets pos first n t t' :
  foldR (fix_word offsets (2 * Z.of_nat pos)) t
    (map (λ j, Z.of_nat first + Z.of_nat j) (seq 0 n)) = Ok t' →
  length t' = length t ∧
  ∀ k, if decide (pos + first <= k < pos + first + n)%nat
       then ∃ b o, t !! k = Some b ∧ t' !! k = Some o ∧ fixed offsets (2 * Z.of_nat pos) b o
       else t' !! k = t !! k.
Proof.
  revert t'. induction n as [|n IH]; intros t' H.
  - simpl in H. inv_res. split; [done|]. intros k. rewrite decide_False by lia. done.
  - rewrite seq_S, map_app, foldR_app in H. inv_res. simpl in H. inv_res.
    destruct (IH _ Hm) as [Hl Hk]. unfold fix_word in Hm0. inv_res.
    replace (2 * Z.of_nat pos / 2 + (Z.of_nat first + Z.of_nat n))
      with (Z.of_nat (pos + first + n)) in *
      by (rewrite (Z.mul_comm 2), Z.div_mul by lia; lia).
    rewrite text_word_nat in Hm1. apply oget_Ok in Hm1. rewrite Nat2Z.id.
    split; [by rewrite length_insert|]. intros k.
    destruct (decide (k = pos + first + n)%nat) as [->|Hne].
    + rewrite decide_True by lia. specialize (Hk (pos + first + n)%nat).
      rewrite decide_False in Hk by lia. rewrite Hm1 in Hk.
      exists a0, (u16 a1). split_and!; [done| |].
      * apply list_lookup_insert_eq. by eapply lookup_lt_Some.
      * by exists a1.
    + rewrite list_lookup_insert_ne by done. specialize (Hk k).
      destruct (decide (pos + first <= k < pos + first + n)%nat).
      * by rewrite decide_True by lia.
      * by rewrite decide_False by lia.
Qed.

(** The words of [x] with offsets in the place of its blocks. *)
Definition fx_fixed (offsets : list (Z * Z)) (t : list Z) (x : fx) : Prop :=
  ∃ offs, words_at t (x_pos x) (x_ws1 x ++ offs ++ x_ws2 x) ∧
          Forall2 (fixed offsets (x_off x)) (x_blocks x) offs.

Lemma fix_branch_spec offsets t x t' :
  fx_good t x → fix_branch offsets t (x_off x) = Ok t' →
  length t' = length t ∧ fx_fixed offsets t' x ∧
  ∀ k, (k < x_pos x ∨ x_end x <= k)%nat → t' !! k = t !! k.
Proof.
  intros [Hw [Hl Ht]] H. unfold fix_branch in H.
  rewrite (Ht t (x_blocks x) eq_refl Hw) in H. cbn [mbind res_bind] in H.
  apply fix_words in H as [Hlen Hk]. set (p := (x_pos x + length (x_ws1 x))%nat) in *.
  set (n := length (x_blocks x)) in *. rewrite !words_at_app in Hw. fold p in Hw.
  destruct Hw as (Hw1 & Hw2 & Hw3). fold n in Hw3.
  assert (∀ j, (j < n)%nat → ∃ b o, x_blocks x !! j = Some b ∧ t' !! (p + j)%nat = Some o ∧
            fixed offsets (x_off x) b o) as Hj.
  { intros j Hj. specialize (Hk (p + j)%nat). rewrite decide_True in Hk by lia.
    destruct Hk as (b & o & Hb & Ho & Hf). exists b, o. split_and!; [|done|done].
    destruct (lookup_lt_is_Some_2 (x_blocks x) j Hj) as [b' Hb'].
    rewrite (words_at_lookup _ _ _ _ _ Hw2 Hb') in Hb. by injection Hb as <-. }
  set (offs := take n (drop p t')).
  assert (∀ j o, offs !! j = Some o ↔ (j < n)%nat ∧ t' !! (p + j)%nat = Some o) as Hoffs.
  { intros j o. unfold offs. rewrite lookup_take_Some, lookup_drop. naive_solver. }
  assert (length offs = n) as Hno.
  { unfold offs. rewrite length_take, length_drop. destruct n as [|m]; [done|].
    destruct (Hj m ltac:(lia)) as (_ & o & _ & Ho & _). apply lookup_lt_Some in Ho. lia. }
  split_and!; [done| |].
  - exists offs. rewrite !words_at_app, Hno. fold p. split_and!.
    + eapply words_at_same; [|exact Hw1]. intros k Hk'. specialize (Hk k).
      by rewrite decide_False in Hk by lia.
    + apply words_at_iff. intros j o Ho. by apply Hoffs in Ho as [_ Ho].
    + eapply words_at_same; [|exact Hw3]. intros k Hk'. specialize (Hk k).
      by rewrite decide_False in Hk by lia.
    + apply Forall2_same_length_lookup_2; [by rewrite Hno|]. intros j b o Hb Ho.
      apply Hoffs in Ho as [Hjn Ho]. destruct (Hj j Hjn) as (b' & o' & Hb' & Ho' & Hf).
      rewrite Hb' in Hb. rewrite Ho' in Ho. by injection Hb as <-; injection Ho as <-.
  - intros k Hkx. specialize (Hk k). rewrite decide_False in Hk; [done|].
    unfold x_end in Hkx. rewrite !length_app in Hkx. fold n in Hkx. lia.
Qed.

Lemma fx_fixed_same offsets t t' x :
  (∀ k, (x_pos x <= k < x_end x)%nat → t' !! k = t !! k) →
  fx_fixed offsets t x → fx_fixed offsets t' x.
Proof.
  intros Hs (offs & Hw & Hf). exists offs. split; [|done].
  eapply words_at_same; [|exact Hw]. intros k Hk. apply Hs.
  unfold x_end. rewrite !length_app in Hk |- *. pose proof (list.Forall2_length _ _ _ Hf). lia.
Qed.

Lemma branch_fixup_spec offsets fxs t t' lo hi :
  fx_chain lo fxs hi → Forall (fx_good t) fxs →
  branch_fixup offsets (map x_off fxs) t = Ok t' →
  length t' = length t ∧ Forall (fx_fixed offsets t') fxs ∧
  ∀ k, (∀ x, x ∈ fxs → k < x_pos x ∨ x_end x <= k)%nat → t' !! k = t !! k.
Proof.
  intros Hc. revert t. induction Hc as [lo hi Hle|lo x l hi Hx Hc IH]; intros t Hg H.
  - unfold branch_fixup in H. simpl in H. inv_res. split_and!; [done|constructor|done].
  - unfold branch_fixup in H. simpl in H. inv_res. apply list.Forall_cons in Hg as [Hgx Hg].
    destruct (fix_branch_spec _ _ _ _ Hgx Hm) as (Hl1 & Hf1 & Ho1).
    destruct (IH a) as (Hl2 & Hf2 & Ho2); [|exact H|].
    { apply list.Forall_forall. intros y Hy. rewrite list.Forall_forall in Hg.
      destruct (Hg y Hy) as [Hw Ht]. split; [|done].
      eapply words_at_same; [|exact Hw]. intros k Hk. apply Ho1.
      destruct (chain_in _ _ _ _ Hc Hy). lia. }
    split_and!; [by rewrite Hl2| |].
    + constructor; [|done]. eapply fx_fixed_same; [|exact Hf1]. intros k Hk. apply Ho2.
      intros y Hy. destruct (chain_in _ _ _ _ Hc Hy). lia.
    + intros k Hk. rewrite Ho2; [apply Ho1, Hk, elem_of_cons; by left|].
      intros y Hy. apply Hk, elem_of_cons. by right.
Qed.

(** ** The text during emission *)

(** From [e] to [e'] words with the lists of blocks [fxs] were written. *)
Definition extends (e e' : emit_state) (fxs : list fx) : Prop :=
  (∃ ws, emits e e' ws) ∧ e_fixups e' = e_fixups e ++ map x_off fxs ∧
  Forall (fx_good (e_text e')) fxs ∧
  fx_chain (length (e_text e)) fxs (length (e_text e')).

Lemma extends_refl e : extends e e [].
Proof.
  split_and!; [exists []; apply emits_nil|by rewrite app_nil_r|constructor|by constructor].
Qed.

Lemma fx_good_more t ws x : fx_good t x → fx_good (t ++ ws) x.
Proof. intros [Hw Ht]. split; [|done]. by apply words_at_more. Qed.

Lemma extends_trans e1 e2 e3 l1 l2 :
  extends e1 e2 l1 → extends e2 e3 l2 → extends e1 e3 (l1 ++ l2).
Proof.
  intros ([ws1 H1] & F1 & G1 & C1) ([ws2 H2] & F2 & G2 & C2). split_and!.
  - exists (ws1 ++ ws2). by eapply emits_app.
  - by rewrite F2, F1, map_app, app_assoc.
  - apply list.Forall_app. split; [|done]. rewrite (proj1 H2).
    eapply list.Forall_impl; [exact G1|]. intros x. apply fx_good_more.
  - by eapply chain_app.
Qed.

Lemma emits_length e e' ws :
  emits e e' ws → length (e_text e') = (length (e_text e) + length ws)%nat.
Proof. intros (-> & _). apply length_app. Qed.

Lemma extends_layout e e' pre ws1 blocks ws2 :
  branch_layout e e' pre ws1 blocks ws2 →
  extends e e' [mk_fx (length (e_text e) + length pre) ws1 blocks ws2].
Proof.
  intros (He & Hf & Hl & Ht). pose proof (emits_length _ _ _ He) as Hlen.
  rewrite !length_app in Hlen. split_and!.
  - by eexists.
  - rewrite Hf. simpl. unfold x_off, text_pos. simpl. do 2 f_equal. lia.
  - repeat constructor; simpl.
    + rewrite (proj1 He). unfold words_at.
      rewrite drop_app_ge, Nat.add_comm, Nat.add_sub by lia.
      rewrite drop_app_length. by rewrite firstn_all.
    + done.
    + intros t offs Ho Hw. apply (Ht t _ offs Ho Hw).
  - constructor; simpl; [lia|]. constructor. unfold x_end. simpl.
    rewrite !length_app. lia.
Qed.

Lemma extends_some e e' : emits_some e e' → ∃ fxs, extends e e' fxs.
Proof.
  intros [[[ws He] Hf]|(pre & ws1 & blocks & ws2 & Hl)].
  - exists []. split_and!; [by eexists|by rewrite app_nil_r|constructor|].
    constructor. rewrite (emits_length _ _ _ He). lia.
  - eexists. by apply extends_layout.
Qed.

(** The states of a loop of instructions are in order. *)
Definition extending (e e' : emit_state) : Prop := ∃ fxs, extends e e' fxs.

Lemma extending_trace (es : list emit_state) j k e1 e2 :
  (∀ i a b, es !! i = Some a → es !! S i = Some b → extending a b) →
  es !! j = Some e1 → es !! k = Some e2 → (j <= k)%nat → extending e1 e2.
Proof.
  intros Hs Hj Hk Hle. revert e2 Hk. induction Hle as [|k Hle IH]; intros e2 Hk.
  - rewrite Hj in Hk. injection Hk as <-. eexists. apply extends_refl.
  - destruct (lookup_lt_is_Some_2 es k) as [e Hke]; [apply lookup_lt_Some in Hk; lia|].
    destruct (IH e Hke) as [l1 H1]. destruct (Hs _ _ _ Hke Hk) as [l2 H2].
    eexists. by eapply extends_trans.
Qed.

(** The blocks of a function, one after the other. *)
Lemma emit_bbs_trace vs rfo ext bbs e offs ef offs' :
  emit_bbs vs rfo ext bbs e offs = Ok (ef, offs') →
  ∃ es, length es = S (length bbs) ∧ es !! 0%nat = Some e ∧ es !! length bbs = Some ef ∧
    offs' = offs ++ zip (map ib_id bbs) (map text_pos es) ∧
    ∀ k bb, bbs !! k = Some bb → ∃ e1 e2, es !! k = Some e1 ∧ es !! S k = Some e2 ∧
      instr_emit vs rfo ext bb (bbs !! S k) e1 = Ok e2.
Proof.
  revert e offs. induction bbs as [|bb bbs IH]; intros e offs H; simpl in H.
  - injection H as <- <-. exists [e]. rewrite app_nil_r. done.
  - destruct (instr_emit vs rfo ext bb (head bbs) e) as [e1|] eqn:E; [|done].
    cbn [mbind res_bind] in H. destruct (IH _ _ H) as (es & Hl & H0 & H1 & -> & Hk).
    exists (e :: es). split_and!; [simpl; by rewrite Hl|done|done|by rewrite <-app_assoc|].
    intros [|k] b Hb; simpl in *; [|by apply Hk]. injection Hb as <-. exists e, e1.
    split_and!; [done|done|]. by destruct bbs.
Qed.

(** ** What the text of a function does *)

(** The text of [f] is [t], and [I] is where [e] ends. *)
Definition at_end (t : list Z) (e : emit_state) (u : vm_unit) (f : vm_frame) : Prop :=
  vm_text u f = Ok t ∧ f_I f = Z.of_nat (length (e_text e)).

(** In the finished text [t] the instruction that was emitted from [e] to [e']
    runs as its emitter promises; a branch leads to the offset of its block. *)
Definition instr_runs (t : list Z) (offsets : list (Z * Z)) (e e' : emit_state) : Prop :=
  (∀ R, emits_code e e' R →
     ∀ h u f, at_end t e u f → R h u f (set_I f (Z.of_nat (length (e_text e'))))) ∧
  (∀ dest, emits_goto e e' dest →
     ∀ h u f b, at_end t e u f → dest u (f_rf f) = Ok b → reg_ok u (f_rf f) 0 →
     ∃ o n u', bb_offset offsets (u16 b) = Some o ∧ vm_steps h n u f u' (set_I f (o / 2)) ∧
               same_but_scratch u (f_rf f) u').

Section fixed_text.
Context (offsets : list (Z * Z)) (e0 e e' ef : emit_state) (l1 l3 : list fx) (t : list Z).
Context (Hf0 : e_fixups e0 = []).
Context (H1 : extends e0 e l1) (H3 : extends e' ef l3).
Context (Ht : branch_fixup offsets (e_fixups ef) (e_text ef) = Ok t).

(** Nothing changes between [e] and [e'] but the lists of blocks there. *)
Lemma fixed_between l2 :
  extends e e' l2 →
  (l2 = [] → ∀ ws, emits e e' ws → words_at t (length (e_text e)) ws) ∧
  (∀ x ws1 ws2, l2 = [x] → emits e e' (ws1 ++ x_ws1 x ++ x_blocks x ++ x_ws2 x ++ ws2) →
     x_pos x = (length (e_text e) + length ws1)%nat →
     ∃ offs, Forall2 (fixed offsets (x_off x)) (x_blocks x) offs ∧
       words_at t (length (e_text e)) (ws1 ++ x_ws1 x ++ offs ++ x_ws2 x ++ ws2)).
Proof using Hf0 H1 H3 Ht.
  intros H2. pose proof (extends_trans _ _ _ _ _ (extends_trans _ _ _ _ _ H1 H2) H3)
    as ([ws Hws] & Hf & Hg & Hc).
  rewrite Hf0 in Hf. rewrite Hf in Ht. cbn [app] in Ht.
  destruct (branch_fixup_spec _ _ _ _ _ _ Hc Hg Ht) as (Hlen & Hfix & Hsame).
  destruct H1 as (_ & _ & _ & C1), H3 as ([ws3 E3] & _ & _ & C3).
  assert (∀ k, (length (e_text e) <= k < length (e_text e'))%nat →
            (∀ x, x ∈ l2 → k < x_pos x ∨ x_end x <= k)%nat →
            t !! k = e_text e' !! k) as Hout.
  { intros k Hk Hx. rewrite Hsame.
    - rewrite (proj1 E3). by rewrite lookup_app_l by lia.
    - intros x Hin. rewrite !elem_of_app in Hin. destruct Hin as [[Hin|Hin]|Hin]; [| by apply Hx|].
      + destruct (chain_in _ _ _ _ C1 Hin). lia.
      + destruct (chain_in _ _ _ _ C3 Hin). lia. }
  split.
  - intros -> ws2 He. apply words_at_iff. intros i w Hi.
    pose proof (lookup_lt_Some _ _ _ Hi). rewrite Hout.
    + rewrite (proj1 He), lookup_app_r by lia. by rewrite Nat.add_comm, Nat.add_sub.
    + rewrite (emits_length _ _ _ He). lia.
    + intros x Hx. by apply not_elem_of_nil in Hx.
  - intros x ws1 ws2 -> He Hpos.
    assert (fx_fixed offsets t x) as (offs & Hw & Hfo).
    { rewrite list.Forall_forall in Hfix. apply Hfix. set_solver. }
    exists offs. split; [done|]. pose proof (list.Forall2_length _ _ _ Hfo) as Hlo.
    pose proof (emits_length _ _ _ He) as Hle. rewrite !length_app in Hle.
    assert (∀ a b c, ws1 ++ x_ws1 x ++ x_blocks x ++ x_ws2 x ++ ws2 = a ++ b ++ c →
              (∀ k, (length (e_text e) + length a <= k < length (e_text e) + length a + length b)%nat →
                 (k < x_pos x ∨ x_end x <= k)%nat) →
              words_at t (length (e_text e) + length a) b) as Hpart.
    { intros a b c Heq Hk. apply words_at_iff. intros i w Hi. pose proof (lookup_lt_Some _ _ _ Hi).
      rewrite Hout.
      - rewrite (proj1 He), Heq, (lookup_app_r (e_text e)), (lookup_app_r a),
          (lookup_app_l b) by lia. rewrite <-Hi. f_equal. lia.
      - apply (f_equal length) in Heq. rewrite !length_app in Heq. lia.
      - intros y Hy%list_elem_of_singleton. subst y. apply Hk. lia. }
    rewrite words_at_app. split.
    + rewrite <-(Nat.add_0_r (length (e_text e))). apply (Hpart [] ws1 _ eq_refl).
      simpl. intros k Hk. lia.
    + rewrite app_assoc, app_assoc, <-(app_assoc (x_ws1 x)), words_at_app. split; [by rewrite <-Hpos|].
      replace (length (e_text e) + length ws1 + length (x_ws1 x ++ offs ++ x_ws2 x))%nat
        with (length (e_text e) + length (ws1 ++ x_ws1 x ++ x_blocks x ++ x_ws2 x))%nat
        by (rewrite !length_app; lia).
      apply (Hpart _ ws2 []); [by rewrite app_nil_r, <-!app_assoc|].
      intros k Hk. unfold x_end. rewrite !length_app. rewrite !length_app in Hk. lia.
Qed.
End fixed_text.

Lemma delta_frame offsets b off d f tgt k :
  bb_to_offset_delta offsets b off = Ok d → bb_offset offsets b = Some tgt →
  Z.even tgt = true → off = 2 * k →
  branch_frame (set_I f (k + 1)) (u16 d) = Ok (set_I f (tgt / 2)).
Proof.
  unfold bb_to_offset_delta. intros Hd Ht Hev ->. rewrite Ht in Hd. cbn [oget mbind res_bind] in Hd.
  inv_res. apply Z.even_spec in Hev as [q ->].
  replace (2 * q - (2 * k + 2)) with (2 * (q - k - 1)) in * by lia. unfold branch_frame.
  assert (Z.even (u16 (2 * (q - k - 1))) = true) as ->.
  { unfold wrap. change (2 ^ 16) with (2 * 32768). rewrite Z.mul_mod_distr_l by lia.
    apply Z.even_spec. by eexists. }
  cbn [check mbind res_bind]. rewrite sgn_wrap by lia. rewrite sgn_small.
  - rewrite !(Z.mul_comm 2), !Z.div_mul by lia. rewrite set_I_set_I. cbn [f_I set_I].
    do 2 f_equal. lia.
  - lia.
  - unfold INT16_MIN, INT16_MAX in *. change (2 ^ (16 - 1)) with 32768. lia.
Qed.

Lemma at_end_code t e u f ws :
  at_end t e u f → words_at t (length (e_text e)) ws → code_at u f ws.
Proof.
  intros [Ht Hi] Hw. exists t. rewrite Hi, Nat2Z.id. split_and!; [done|lia|exact Hw].
Qed.

Section runs.
Context (offsets : list (Z * Z)) (e0 e e' ef : emit_state) (l1 l2 l3 : list fx) (t : list Z).
Context (Hf0 : e_fixups e0 = []).
Context (H1 : extends e0 e l1) (H2 : extends e e' l2) (H3 : extends e' ef l3).
Context (Ht : branch_fixup offsets (e_fixups ef) (e_text ef) = Ok t).
Context (Heven : ∀ b o, bb_offset offsets b = Some o → Z.even o = true).

Lemma instr_runs_fixed : instr_runs t offsets e e'.
Proof using Hf0 H1 H2 H3 Ht Heven.
  split.
  - intros R (ws & He & Hf & Hrun) h u f Hat.
    assert (l2 = []) as Hl2.
    { destruct H2 as (_ & Hf2 & _). rewrite Hf in Hf2.
      apply (f_equal length) in Hf2. rewrite length_app, length_map in Hf2.
      destruct l2; [done|simpl in Hf2; lia]. }
    destruct (fixed_between offsets e0 e e' ef l1 l3 t Hf0 H1 H3 Ht l2 H2) as [Hp _].
    pose proof (Hp Hl2 ws He) as Hw.
    rewrite (emits_length _ _ _ He), Nat2Z.inj_add, <-(proj2 Hat).
    apply Hrun. by eapply at_end_code.
  - intros dest (pre & ws1 & blocks & ws2 & Hl & Hrun) h u f b Hat Hb Hok.
    pose proof (extends_layout _ _ _ _ _ _ Hl) as Hx. set (x := mk_fx _ ws1 blocks ws2) in Hx.
    destruct (fixed_between offsets e0 e e' ef l1 l3 t Hf0 H1 H3 Ht [x] Hx) as [_ Hp].
    destruct (Hp x pre [] eq_refl) as (offs & Hfix & Hw); [|done|].
    { rewrite app_nil_r. apply Hl. }
    rewrite app_nil_r in Hw. pose proof (at_end_code _ _ _ _ _ Hat Hw) as Hcode.
    destruct (Hrun h u f b Hb Hok) as (i & Hi & Hgo).
    destruct (Forall2_lookup_l _ _ _ _ _ Hfix Hi) as (o & Ho & d & Hd & ->).
    destruct (bb_offset offsets (u16 b)) as [tgt|] eqn:Htgt.
    2: { unfold bb_to_offset_delta in Hd. by rewrite Htgt in Hd. }
    assert (branch_frame (set_I f (f_I f + Z.of_nat (length pre) + 1)) (u16 d) =
            Ok (set_I f (tgt / 2))) as Hbr.
    { eapply delta_frame; eauto. unfold x_off. simpl. rewrite (proj2 Hat). lia. }
    destruct (Hgo offs _ _ (eq_sym (list.Forall2_length _ _ _ Hfix)) Hcode Ho Hbr)
      as (n & u' & Hs & Hsc).
    by exists tgt, n, u'.
Qed.
End runs.

Definition bb_ok (vs : value_state) (bb : ir_bb) : Prop := Forall (instr_ok vs) (ib_instrs bb).

(** The states of a block's instructions. *)
Lemma instr_emit_trace vs rfo ext bb next e e' :
  bb_ok vs bb → instr_emit vs rfo ext bb next e = Ok e' →
  ∃ es, length es = S (length (ib_instrs bb)) ∧ es !! 0%nat = Some e ∧
    es !! length (ib_instrs bb) = Some e' ∧
    (∀ i a b, es !! i = Some a → es !! S i = Some b → extending a b) ∧
    ∀ i ins, ib_instrs bb !! i = Some ins → ∃ e1 e2, es !! i = Some e1 ∧ es !! S i = Some e2 ∧
      emit_instr vs rfo ext next ins e1 = Ok e2.
Proof.
  intros Hok H. apply foldR_trace in H as (es & Hl & H0 & H1 & Hk).
  exists es. split_and!; [done|done|done| |done].
  intros i a b Ha Hb. destruct (lookup_lt_is_Some_2 (ib_instrs bb) i) as [ins Hi].
  { apply lookup_lt_Some in Hb. lia. }
  destruct (Hk i ins Hi) as (a' & b' & Ha' & Hb' & He).
  rewrite Ha in Ha'. rewrite Hb in Hb'. injection Ha' as <-; injection Hb' as <-.
  apply extends_some. eapply emit_instr_some; [|exact He].
  exact (Forall_lookup_1 _ _ _ _ Hok Hi).
Qed.

Lemma bb_offset_zip ids poss k id p :
  NoDup ids → ids !! k = Some id → poss !! k = Some p → bb_offset (zip ids poss) id = Some p.
Proof.
  unfold bb_offset. revert poss k. induction ids as [|i ids IH]; intros poss k Hnd Hi Hp; [done|].
  apply list.NoDup_cons in Hnd as [Hnin Hnd]. destruct poss as [|q poss]; [by destruct k|].
  change (zip (i :: ids) (q :: poss)) with ((i, q) :: zip ids poss). cbn [list_find].
  destruct k as [|k]; simpl in Hi, Hp.
  - injection Hi as ->; injection Hp as ->. by rewrite decide_True.
  - rewrite decide_False.
    2: { simpl. intros ->. apply Hnin. by eapply list_elem_of_lookup_2. }
    specialize (IH poss k Hnd Hi Hp).
    destruct (list_find _ (zip ids poss)) as [[? [? ?]]|]; exact IH.
Qed.

Lemma bb_offset_even ids (es : list emit_state) b o :
  bb_offset (zip ids (map text_pos es)) b = Some o → Z.even o = true.
Proof.
  unfold bb_offset. intros H. apply fmap_Some in H as ([i [x y]] & H & ->).
  apply list_find_Some in H as (H & _). simpl.
  apply lookup_zip_with_Some in H as (? & ? & [= <- <-] & _ & Hy).
  rewrite list_lookup_fmap in Hy. destruct (es !! i); [|done]. injection Hy as <-.
  apply Z.even_spec. by eexists.
Qed.

(** C3: the code of a whole function: every block starts at its offset, the
    instructions of a block follow one another in the finished text, each one
    runs there as its emitter promises, a branch leads to the offset of the
    block it chooses, and the end of a block is the start of the next one. *)
Theorem vm_emit_function_correct vs rfo ext bbs stale memsize t offsets k bb :
  vm_emit_function vs rfo ext bbs stale memsize = Ok (t, offsets) →
  NoDup (map ib_id bbs) → Forall (bb_ok vs) bbs → bbs !! k = Some bb →
  ∃ es, length es = S (length (ib_instrs bb)) ∧
    (∀ e, es !! 0%nat = Some e → bb_offset offsets (ib_id bb) = Some (text_pos e)) ∧
    (∀ i ins, ib_instrs bb !! i = Some ins →
       ∃ e e', es !! i = Some e ∧ es !! S i = Some e' ∧
               emit_instr vs rfo ext (bbs !! S k) ins e = Ok e' ∧
               instr_runs t offsets e e') ∧
    (∀ e bb', es !! length (ib_instrs bb) = Some e → bbs !! S k = Some bb' →
       bb_offset offsets (ib_id bb') = Some (text_pos e)).
Proof.
  intros H Hnd Hok Hbb. unfold vm_emit_function in H.
  apply bind_Ok in H as ([ef offs] & Hem & H). inv_res. rename Hm into Ht.
  apply emit_bbs_trace in Hem as (starts & Hsl & Hs0 & Hsf & -> & Hsk). cbn [app] in *.
  set (offsets := zip (map ib_id bbs) (map text_pos starts)) in *.
  assert (∀ j bj ej, bbs !! j = Some bj → starts !! j = Some ej →
            bb_offset offsets (ib_id bj) = Some (text_pos ej)) as Hoff.
  { intros j bj ej Hj He. apply (bb_offset_zip _ _ j).
    - done.
    - by rewrite list_lookup_fmap, Hj.
    - by rewrite list_lookup_fmap, He. }
  assert (∀ j a b, starts !! j = Some a → starts !! S j = Some b → extending a b) as Hext.
  { intros j a b Ha Hb. destruct (lookup_lt_is_Some_2 bbs j) as [bj Hj].
    { apply lookup_lt_Some in Hb. lia. }
    destruct (Hsk j bj Hj) as (a' & b' & Ha' & Hb' & He).
    rewrite Ha in Ha'. rewrite Hb in Hb'. injection Ha' as <-; injection Hb' as <-.
    apply instr_emit_trace in He as (es & _ & H0 & H1 & Hes & _).
    - apply (extending_trace es 0 (length (ib_instrs bj))); eauto. lia.
    - exact (Forall_lookup_1 _ _ _ _ Hok Hj). }
  destruct (Hsk k bb Hbb) as (e1 & e2 & Hk1 & Hk2 & Hem).
  apply instr_emit_trace in Hem as (es & Hel & He0 & He1 & Hes & Hi);
    [|exact (Forall_lookup_1 _ _ _ _ Hok Hbb)].
  exists es. split_and!; [done| | |].
  - intros e He. rewrite He0 in He. injection He as <-. by apply (Hoff k).
  - intros i ins Hins. destruct (Hi i ins Hins) as (a & b & Ha & Hb & Hab).
    exists a, b. split_and!; [done|done|done|].
    pose proof (lookup_lt_Some _ _ _ Hbb). pose proof (lookup_lt_Some _ _ _ Hins).
    destruct (Hes _ _ _ Ha Hb) as [l2 H2].
    destruct (extending_trace starts 0 k _ _ Hext Hs0 Hk1) as [l01 H01]; [lia|].
    destruct (extending_trace es 0 i _ _ Hes He0 Ha) as [l1 H1]; [lia|].
    destruct (extending_trace es (S i) (length (ib_instrs bb)) _ _ Hes Hb He1) as [l3 H3]; [lia|].
    destruct (extending_trace starts (S k) (length bbs) _ _ Hext Hk2 Hsf) as [l34 H34]; [lia|].
    apply (instr_runs_fixed offsets (mk_emit [] stale memsize []) a b ef (l01 ++ l1) l2 (l3 ++ l34));
      [done|by eapply extends_trans|exact H2|by eapply extends_trans|exact Ht|apply bb_offset_even].
  - intros e bb' He Hbb'. rewrite He1 in He. injection He as <-. by apply (Hoff (S k)).
Qed.

(** ** Example *)

(** A loop, a switch and a return. *)
Definition example_bbs : list ir_bb :=
  [mk_bb 1 [IR_IC_BINOP 0 (example_v 0) (example_v 2) (example_ret 3);
            IR_IC_CMP_BRANCH (icmp_code ICMP_ULT) (example_v 3) (example_v 1) 1 2];
   mk_bb 2 [IR_IC_SWITCH (example_v 4) 3 [mk_path 3 1; mk_path 10 2]];
   mk_bb 3 [IR_IC_RET (example_v 3)]].
Definition example_text : list Z :=
  [43; 16; 8; 7; 0; 299; 65524; 8; 16; 12; 356; 20; 2; 3; 10; 65514; 65534; 14; 2; 16].
Definition example_offsets : list (Z * Z) := [(1, 0); (2, 20); (3, 36)].

Lemma example_bbs_ok : Forall (bb_ok example_unit) example_bbs.
Proof.
  repeat constructor. vm_compute. intros width H. discriminate.
Defined.

Lemma vm_emit_function_correct_witness :
  vm_emit_function example_unit 32 (λ _, false) example_bbs (λ _, 0) 4096
    = Ok (example_text, example_offsets) ∧
  ∃ es, length es = 2%nat ∧
    (∀ e, es !! 0%nat = Some e → bb_offset example_offsets 2 = Some (text_pos e)) ∧
    (∀ i ins, [IR_IC_SWITCH (example_v 4) 3 [mk_path 3 1; mk_path 10 2]] !! i = Some ins →
       ∃ e e', es !! i = Some e ∧ es !! S i = Some e' ∧
               emit_instr example_unit 32 (λ _, false) (example_bbs !! 2%nat) ins e = Ok e' ∧
               instr_runs example_text example_offsets e e').
Proof.
  assert (vm_emit_function example_unit 32 (λ _, false) example_bbs (λ _, 0) 4096
    = Ok (example_text, example_offsets)) as H by (vm_compute; reflexivity).
  split; [exact H|].
  destruct (vm_emit_function_correct example_unit 32 (λ _, false) example_bbs (λ _, 0) 4096
    example_text example_offsets 1
    (mk_bb 2 [IR_IC_SWITCH (example_v 4) 3 [mk_path 3 1; mk_path 10 2]]))
    as (es & Hl & H0 & Hi & _).
  - exact H.
  - apply (bool_decide_unpack _). vm_compute. exact I.
  - exact example_bbs_ok.
  - reflexivity.
  - exists es. split; [exact Hl|]. split; [exact H0|exact Hi].
Defined.
