(* ===== verification/PhiLift.v ===== *)
(** Leaving SSA form: [exit_ssa] of [src/src/vmir_transform.c], which replaces
    the PHI instructions of a block by moves at the end of its predecessors.
    The moves of one edge of the control flow graph must act as one parallel
    assignment. The nodes are linked as in [sys/queue.h], with explicit
    pointers. *)
From S2P Require Import Prelude Types Values Instr.
From stdpp Require Import functions.
Local Open Scope Z_scope.

(** ** The graph of moves *)

(** [phi_lift_edge_t]. A node is allocated once for each value
    ([phi_lift_node_find]), so its address is the number of its value. *)
Record phi_lift_edge := mk_edge { ple_src : Z; ple_dst : Z }.

#[export] Instance phi_lift_edge_eq_dec : EqDecision phi_lift_edge.
Proof. solve_decision. Defined.

(** [phi_lift_node_t]. [pln_next] and [pln_prev] are [pln_link]: [le_prev] of
    a first node points to the head of the list ([None]), of another one to
    [le_next] of the node before it. *)
Record phi_lift_node := mk_node {
  pln_next : option Z;
  pln_prev : option Z;
  pln_src : list phi_lift_edge;
  pln_dst : option phi_lift_edge;
  pln_vt : ir_valuetype;
}.

Definition set_pln_next (p : option Z) (n : phi_lift_node) : phi_lift_node :=
  mk_node p (pln_prev n) (pln_src n) (pln_dst n) (pln_vt n).
Definition set_pln_prev (p : option Z) (n : phi_lift_node) : phi_lift_node :=
  mk_node (pln_next n) p (pln_src n) (pln_dst n) (pln_vt n).
Definition set_pln_src (l : list phi_lift_edge) (n : phi_lift_node) : phi_lift_node :=
  mk_node (pln_next n) (pln_prev n) l (pln_dst n) (pln_vt n).
Definition set_pln_dst (e : phi_lift_edge) (n : phi_lift_node) : phi_lift_node :=
  mk_node (pln_next n) (pln_prev n) (pln_src n) (Some e) (pln_vt n).

(** The two lists of [exit_ssa_edge] and the nodes in memory, those that have
    left the list included. *)
Record phi_lift := mk_pl {
  pl_first : option Z;
  pl_nodes : gmap Z phi_lift_node;
  pl_edges : list phi_lift_edge;
}.

Definition pl_empty : phi_lift := mk_pl None ∅ [].

Definition pl_node (st : phi_lift) (n : Z) : res phi_lift_node :=
  oget (pl_nodes st !! n) Undef.

Definition pl_alter (f : phi_lift_node → phi_lift_node) (n : Z) (st : phi_lift) : phi_lift :=
  mk_pl (pl_first st) (alter f n (pl_nodes st)) (pl_edges st).

(** [LIST_INSERT_HEAD(nodes, pln, pln_link)]. *)
Definition node_insert_head (n : Z) (nd : phi_lift_node) (st : phi_lift) : phi_lift :=
  let nodes := match pl_first st with
               | Some k => alter (set_pln_prev (Some n)) k (pl_nodes st)
               | None => pl_nodes st
               end in
  mk_pl (Some n) (<[n := set_pln_next (pl_first st) (set_pln_prev None nd)]> nodes)
        (pl_edges st).

(** [LIST_REMOVE(pln, pln_link)]. *)
Definition node_remove (n : Z) (st : phi_lift) : res phi_lift :=
  nd ← pl_node st n;
  let nodes := match pln_next nd with
               | Some k => alter (set_pln_prev (pln_prev nd)) k (pl_nodes st)
               | None => pl_nodes st
               end in
  Ok match pln_prev nd with
     | Some p => mk_pl (pl_first st) (alter (set_pln_next (pln_next nd)) p nodes) (pl_edges st)
     | None => mk_pl (pln_next nd) nodes (pl_edges st)
     end.

(** [LIST_FOREACH]; the list is never longer than the nodes in memory. *)
Fixpoint node_find_from (fuel : nat) (nodes : gmap Z phi_lift_node) (cur : option Z)
    (value : Z) : res (option Z) :=
  match fuel, cur with
  | _, None => Ok None
  | O, Some _ => Fail NoFuel
  | S fuel, Some n =>
      nd ← oget (nodes !! n) Undef;
      if vt_value (pln_vt nd) =? value then Ok (Some n)
      else node_find_from fuel nodes (pln_next nd) value
  end.

Definition phi_lift_node_find (st : phi_lift) (value : Z) : res (option Z) :=
  node_find_from (size (pl_nodes st)) (pl_nodes st) (pl_first st) value.

Definition phi_lift_node_init (st : phi_lift) (vt : ir_valuetype) : phi_lift :=
  node_insert_head (vt_value vt) (mk_node None None [] None vt) st.

(** The node of [vt], made when there is none. *)
Definition phi_lift_node_get (st : phi_lift) (vt : ir_valuetype) : res (Z * phi_lift) :=
  o ← phi_lift_node_find st (vt_value vt);
  Ok match o with
     | Some n => (n, st)
     | None => (vt_value vt, phi_lift_node_init st vt)
     end.

(** One node of a PHI that comes from the predecessor: [ret] gets [value]. *)
Definition phi_add (st : phi_lift) (m : ir_valuetype * ir_valuetype) : res phi_lift :=
  let '(ret, value) := m in
  if vt_value ret =? vt_value value then Ok st else
  '(dst, st) ← phi_lift_node_get st ret;
  '(src, st) ← phi_lift_node_get st value;
  dn ← pl_node st dst;
  _ ← check (bool_decide (pln_dst dn = None)) ParserError;
  let ple := mk_edge src dst in
  let st := pl_alter (λ n, set_pln_src (ple :: pln_src n) n) src st in
  let st := pl_alter (set_pln_dst ple) dst st in
  Ok (mk_pl (pl_first st) (pl_nodes st) (ple :: pl_edges st)).

(** The pairs (result, value) of the PHIs at the start of a block, for one
    predecessor. *)
Fixpoint phi_pairs (predecessor : Z) (l : list ir_instr)
    : list (ir_valuetype * ir_valuetype) :=
  match l with
  | IR_IC_PHI nodes d :: l =>
      map (λ n, (ii_ret d, phi_value n))
          (filter (λ n, phi_predecessor n = predecessor) nodes)
      ++ phi_pairs predecessor l
  | _ => []
  end.

(** ** The moves *)

(** A move: the value it writes and the value it reads. *)
Notation move := (ir_valuetype * ir_valuetype)%type.

(** [LIST_REMOVE] on the lists of edges, from which an edge goes only once. *)
Definition edge_remove (e : phi_lift_edge) (l : list phi_lift_edge) : list phi_lift_edge :=
  filter (λ e', e' ≠ e) l.

(** The body of the first loop, for one edge: the state, the moves so far and
    [progress]. *)
Definition lift_edge (s : phi_lift * list move * bool) (ple : phi_lift_edge)
    : res (phi_lift * list move * bool) :=
  let '(st, moves, progress) := s in
  dn ← pl_node st (ple_dst ple);
  match pln_src dn with
  | _ :: _ => Ok s
  | [] =>
      sn ← pl_node st (ple_src ple);
      let moves := moves ++ [(pln_vt dn, pln_vt sn)] in
      let st := mk_pl (pl_first st) (pl_nodes st) (edge_remove ple (pl_edges st)) in
      let st := pl_alter (λ n, set_pln_src (edge_remove ple (pln_src n)) n) (ple_src ple) st in
      st ← node_remove (ple_dst ple) st;
      sn ← pl_node st (ple_src ple);
      st ← (match pln_src sn with [] => node_remove (ple_src ple) st | _ => Ok st end);
      Ok (st, moves, true)
  end.

(** The first [while(1)]: each pass but the last one removes an edge. *)
Fixpoint lift_edges (fuel : nat) (st : phi_lift) (moves : list move)
    : res (phi_lift * list move) :=
  match fuel with
  | O => Fail NoFuel
  | S fuel =>
      '(st, moves, progress) ← foldR lift_edge (st, moves, false) (pl_edges st);
      match pl_edges st with
      | [] => Ok (st, moves)
      | _ => if progress : bool then lift_edges fuel st moves else Ok (st, moves)
      end
  end.

(** The walk along a cycle, from [cur] against the edges up to [start], and
    the last node it reaches. *)
Fixpoint lift_cycle (fuel : nat) (st : phi_lift) (moves : list move) (start cur : Z)
    : res (phi_lift * list move * Z) :=
  match fuel with
  | O => Fail NoFuel
  | S fuel =>
      cn ← pl_node st cur;
      ple ← oget (pln_dst cn) Undef;
      let src := ple_src ple in
      if src =? start then Ok (st, moves, cur) else
      sn ← pl_node st src;
      st ← node_remove cur st;
      lift_cycle fuel st (moves ++ [(pln_vt cn, pln_vt sn)]) start src
  end.

(** The second [while(1)]: one cycle each time, through a temporary. *)
Fixpoint lift_cycles (fuel : nat) (vs : value_state) (st : phi_lift) (moves : list move)
    : res (value_state * list move) :=
  match fuel with
  | O => Fail NoFuel
  | S fuel =>
      match pl_first st with
      | None => Ok (vs, moves)
      | Some start =>
          sn ← pl_node st start;
          let type := vt_type (pln_vt sn) in
          '(n, vs) ← value_alloc_temporary vs type;
          let tmpreg := mk_vt (Z.of_nat n) type in
          '(st, moves, cur) ← lift_cycle (size (pl_nodes st)) st
             (moves ++ [(tmpreg, pln_vt sn)]) start start;
          cn ← pl_node st cur;
          st ← node_remove cur st;
          lift_cycles fuel vs st (moves ++ [(pln_vt cn, tmpreg)])
      end
  end.

(** The moves of one edge of the control flow graph, in their order. *)
Definition phi_moves (vs : value_state) (pairs : list (ir_valuetype * ir_valuetype))
    : res (value_state * list move) :=
  st ← foldR phi_add pl_empty pairs;
  match pl_edges st with
  | [] => Ok (vs, [])
  | edges =>
      '(st, moves) ← lift_edges (S (length edges)) st [];
      match pl_edges st with
      | [] => Ok (vs, moves)
      | _ => lift_cycles (S (size (pl_nodes st))) vs st moves
      end
  end.

(** [insert_move]; the links of the instruction to its values are not kept. *)
Definition insert_move (to from : ir_valuetype) : ir_instr := IR_IC_MOVE from (mk_ret to []).

(** [TAILQ_INSERT_BEFORE] the last instruction. *)
Definition insert_before_last (l new : list ir_instr) : res (list ir_instr) :=
  match new with
  | [] => Ok l
  | _ =>
      let n := pred (length l) in
      last ← oget (l !! n) Undef; Ok (take n l ++ new ++ [last])
  end.

Definition exit_ssa_edge (vs : value_state) (bb prebb : ir_bb) : res (value_state * ir_bb) :=
  '(vs, moves) ← phi_moves vs (phi_pairs (ib_id prebb) (ib_instrs bb));
  l ← insert_before_last (ib_instrs prebb) (map (λ '(to, from), insert_move to from) moves);
  Ok (vs, mk_bb (ib_id prebb) l).

(** ** Blocks and functions *)

Definition is_phi (i : ir_instr) : bool :=
  match i with IR_IC_PHI _ _ => true | _ => false end.

Fixpoint drop_phis (l : list ir_instr) : list ir_instr :=
  match l with i :: l' => if is_phi i then drop_phis l' else l | [] => [] end.

(** Writes a block back. *)
Definition bb_update (bbs : list ir_bb) (bb : ir_bb) : list ir_bb :=
  map (λ b, if ib_id b =? ib_id bb then bb else b) bbs.

(** [ib_incoming_edges] of a block, from the (from, to) of the edges. *)
Definition incoming (edges : list (Z * Z)) (id : Z) : list Z :=
  map fst (filter (λ e, e.2 = id) edges).

Definition exit_ssa_bb (edges : list (Z * Z)) (s : value_state * list ir_bb) (id : Z)
    : res (value_state * list ir_bb) :=
  s ← foldR (λ '(vs, bbs) from,
        bb ← oget (bb_find bbs id) Undef;
        prebb ← oget (bb_find bbs from) Undef;
        '(vs, prebb) ← exit_ssa_edge vs bb prebb;
        Ok (vs, bb_update bbs prebb)) s (incoming edges id);
  let '(vs, bbs) := s in
  bb ← oget (bb_find bbs id) Undef;
  Ok (vs, bb_update bbs (mk_bb id (drop_phis (ib_instrs bb)))).

Definition exit_ssa (edges : list (Z * Z)) (vs : value_state) (bbs : list ir_bb)
    : res (value_state * list ir_bb) :=
  foldR (exit_ssa_bb edges) (vs, bbs) (map ib_id bbs).

(** ** Running moves *)

(** The values after a sequence of moves. *)
Definition run_moves {A} (moves : list move) (env : Z → A) : Z → A :=
  foldl (λ env '(to, from), <[vt_value to := env (vt_value from)]> env) env moves.

Lemma run_moves_snoc {A} moves to from (env : Z → A) :
  run_moves (moves ++ [(to, from)]) env =
  <[vt_value to := run_moves moves env (vt_value from)]> (run_moves moves env).
Proof. unfold run_moves. by rewrite foldl_app. Qed.

(** ** The linked list *)

Definition head_or (l : list Z) (q : option Z) : option Z :=
  match l with n :: _ => Some n | [] => q end.
Fixpoint last_or (p : option Z) (l : list Z) : option Z :=
  match l with n :: l => last_or (Some n) l | [] => p end.

(** [dlseg nodes p l q]: the nodes of [l] are linked in this order, the first
    one back to [p] and the last one on to [q]. *)
Fixpoint dlseg (nodes : gmap Z phi_lift_node) (p : option Z) (l : list Z) (q : option Z)
    : Prop :=
  match l with
  | [] => True
  | n :: l =>
      (∃ nd, nodes !! n = Some nd ∧ pln_prev nd = p ∧ pln_next nd = head_or l q) ∧
      dlseg nodes (Some n) l q
  end.

(** The node list of [st] is [l]. *)
Definition pl_list (st : phi_lift) (l : list Z) : Prop :=
  pl_first st = head_or l None ∧ dlseg (pl_nodes st) None l None ∧ NoDup l.

(** The same links. *)
Definition same_links (n1 n2 : phi_lift_node) : Prop :=
  pln_next n1 = pln_next n2 ∧ pln_prev n1 = pln_prev n2.

Lemma dlseg_frame nodes nodes' p l q :
  (∀ n nd, n ∈ l → nodes !! n = Some nd → ∃ nd', nodes' !! n = Some nd' ∧ same_links nd nd') →
  dlseg nodes p l q → dlseg nodes' p l q.
Proof.
  revert p; induction l as [|n l IH]; intros p Hf; [done|].
  intros [(nd & Hn & Hp & Hq) Hl]. destruct (Hf n nd) as (nd' & Hn' & E1 & E2); [set_solver|done|].
  split; [|apply IH; [intros; apply Hf; [set_solver|done]|done]].
  exists nd'. split_and!; congruence.
Qed.

Lemma dlseg_app nodes p l1 l2 q :
  dlseg nodes p (l1 ++ l2) q ↔
  dlseg nodes p l1 (head_or l2 q) ∧ dlseg nodes (last_or p l1) l2 q.
Proof.
  revert p; induction l1 as [|m l1 IH]; intros p; cbn [app dlseg last_or]; [tauto|].
  rewrite (IH (Some m)).
  assert (head_or (l1 ++ l2) q = head_or l1 (head_or l2 q)) as -> by by destruct l1.
  tauto.
Qed.

(** The last node of a segment gets another successor. *)
Lemma dlseg_set_next nodes p l n q q' :
  n ∉ l → dlseg nodes p (l ++ [n]) q →
  dlseg (alter (set_pln_next q') n nodes) p (l ++ [n]) q'.
Proof.
  intros Hn. rewrite !dlseg_app; cbn [head_or dlseg]. intros [Hl [(nd & H1 & H2 & H3) _]].
  split_and!; [|exists (set_pln_next q' nd)|done].
  - eapply dlseg_frame; [|exact Hl]. intros m md Hm E. exists md.
    rewrite lookup_alter_ne by set_solver. done.
  - by rewrite lookup_alter_eq, H1.
Qed.

(** The first node of a segment gets another predecessor. *)
Lemma dlseg_set_prev nodes p p' n l q :
  n ∉ l → dlseg nodes p (n :: l) q →
  dlseg (alter (set_pln_prev p') n nodes) p' (n :: l) q.
Proof.
  intros Hn. cbn [dlseg]. intros [(nd & H1 & H2 & H3) Hl].
  split; [exists (set_pln_prev p' nd); by rewrite lookup_alter_eq, H1|].
  eapply dlseg_frame; [|exact Hl]. intros m md Hm E. exists md.
  rewrite lookup_alter_ne by set_solver. done.
Qed.

(** A change elsewhere. *)
Lemma dlseg_alter nodes p l q f n :
  n ∉ l → dlseg nodes p l q → dlseg (alter f n nodes) p l q.
Proof.
  intros Hn. apply dlseg_frame. intros m md Hm E. exists md.
  rewrite lookup_alter_ne by set_solver. done.
Qed.

(** What the links are not part of. *)
Definition content (n : phi_lift_node)
    : list phi_lift_edge * option phi_lift_edge * ir_valuetype :=
  (pln_src n, pln_dst n, pln_vt n).
Definition pl_view (st : phi_lift) (n : Z) := content <$> pl_nodes st !! n.

Lemma view_alter f (nodes : gmap Z phi_lift_node) n m :
  (∀ nd, content (f nd) = content nd) →
  content <$> alter f n nodes !! m = content <$> nodes !! m.
Proof.
  intros Hf. destruct (decide (n = m)) as [->|].
  - rewrite lookup_alter_eq. destruct (nodes !! m); simpl; [by rewrite Hf|done].
  - by rewrite lookup_alter_ne by done.
Qed.

(** [LIST_REMOVE] of any node in memory, in the list or not. *)
Lemma node_remove_view st n :
  is_Some (pl_view st n) →
  ∃ st', node_remove n st = Ok st' ∧ pl_edges st' = pl_edges st ∧
         ∀ m, pl_view st' m = pl_view st m.
Proof.
  unfold pl_view, node_remove, pl_node. rewrite fmap_is_Some. intros [nd ->]. rok.
  assert (∀ m, content <$> match pln_next nd with
      | Some k => alter (set_pln_prev (pln_prev nd)) k (pl_nodes st)
      | None => pl_nodes st end !! m = content <$> pl_nodes st !! m) as Hm
    by (intros m; destruct (pln_next nd); [by apply view_alter|done]).
  destruct (pln_prev nd) as [p|] eqn:Ep; eexists; (split; [reflexivity|]); simpl;
    (split; [done|]); intros m; [rewrite view_alter by done|]; apply Hm.
Qed.

(** A node of the list has one place in it. *)
Lemma list_snoc (l : list Z) : l = [] ∨ ∃ l' n, l = l' ++ [n].
Proof. induction l using rev_ind; [by left|right; eauto]. Qed.

Lemma last_or_snoc p l n : last_or p (l ++ [n]) = Some n.
Proof. revert p; induction l; intros p; simpl; [done|apply IHl]. Qed.

Lemma node_remove_list st st' a n b :
  pl_list st (a ++ n :: b) → node_remove n st = Ok st' → pl_list st' (a ++ b).
Proof.
  intros (Hf & Hl & Hnd) H. apply list.NoDup_app in Hnd as (Na & Nab & [Hn Nb]%list.NoDup_cons).
  rewrite dlseg_app in Hl. destruct Hl as [Ha [(nd & En & Ep & Eq) Hb]]. cbn [head_or] in Ha.
  unfold node_remove, pl_node in H. rewrite En in H. cbn [oget mbind res_bind] in H.
  rewrite Ep, Eq in H. injection H as <-.
  assert (NoDup (a ++ b)) as Hab by (apply list.NoDup_app; set_solver).
  set (nodes := match head_or b None with
                | Some k => alter (set_pln_prev (last_or None a)) k (pl_nodes st)
                | None => pl_nodes st end) in *.
  assert (dlseg nodes None a (Some n) ∧ dlseg nodes (last_or None a) b None) as [Ha1 Hb1].
  { subst nodes. destruct b as [|k b]; cbn [head_or]; [by split|]. split.
    - apply dlseg_alter; [set_solver|done].
    - apply list.NoDup_cons in Nb as [Hk Nb]. by eapply dlseg_set_prev. }
  destruct (list_snoc a) as [->|(a' & p & ->)].
  - split_and!; done.
  - rewrite last_or_snoc in *. apply list.NoDup_app in Na as (Na & Hp & _).
    split_and!; [|rewrite dlseg_app, last_or_snoc; split|done].
    + simpl. rewrite Hf. by destruct a'.
    + apply dlseg_set_next with (q := Some n); [set_solver|done].
    + apply dlseg_alter; [set_solver|done].
Qed.

(** ** Building the graph *)

(** Each node has the value it is the address of, the edges of [P] that leave
    it and the edge of [E] that reaches it. *)
Definition views (st : phi_lift) (P E : list phi_lift_edge) : Prop :=
  ∀ n src dst vt, pl_view st n = Some (src, dst, vt) →
    vt_value vt = n ∧ (∀ e, e ∈ src ↔ e ∈ P ∧ ple_src e = n) ∧
    (∀ e, dst = Some e ↔ e ∈ E ∧ ple_dst e = n).

(** The nodes are those of [l], and the edges of [E] connect them. *)
Record graph (st : phi_lift) (E : list phi_lift_edge) (l : list Z) : Prop := {
  g_list : pl_list st l;
  g_dom : ∀ n, is_Some (pl_view st n) ↔ n ∈ l;
  g_views : views st E E;
  g_ends : ∀ e, e ∈ E → ple_src e ∈ l ∧ ple_dst e ∈ l;
}.

Lemma pl_view_node st n c :
  pl_view st n = Some c → ∃ nd, pl_nodes st !! n = Some nd ∧ content nd = c.
Proof. unfold pl_view. rewrite fmap_Some. naive_solver. Qed.

Lemma node_find_from_spec fuel nodes l v p :
  dlseg nodes p l None → (length l ≤ fuel)%nat →
  (∀ n nd, n ∈ l → nodes !! n = Some nd → vt_value (pln_vt nd) = n) →
  node_find_from fuel nodes (head_or l None) v = Ok (if decide (v ∈ l) then Some v else None).
Proof.
  revert fuel p; induction l as [|n l IH]; intros fuel p Hl Hf Hv.
  - destruct fuel; (rewrite decide_False by set_solver); done.
  - destruct fuel as [|fuel]; cbn [length] in Hf; [lia|]. cbn [dlseg] in Hl.
    destruct Hl as [(nd & En & Ep & Eq) Hl]. simpl. rewrite En. rok.
    rewrite (Hv n nd) by (set_solver || done). destruct (Z.eqb_spec n v) as [->|].
    + rewrite decide_True by set_solver. done.
    + rewrite Eq, (IH fuel (Some n)) by (done || lia || set_solver).
      by destruct (decide (v ∈ l)); [rewrite decide_True by set_solver|
                                     rewrite decide_False by set_solver].
Qed.

Lemma phi_lift_node_find_spec st E l v :
  graph st E l → phi_lift_node_find st v = Ok (if decide (v ∈ l) then Some v else None).
Proof.
  intros [(Hf & Hl & Hnd) Hd Hv _]. unfold phi_lift_node_find. rewrite Hf.
  apply node_find_from_spec with (p := None); [done| |].
  - rewrite <- size_dom, <- (size_list_to_set (C := gset Z) l) by done.
    apply subseteq_size. intros n Hn%elem_of_list_to_set. apply elem_of_dom.
    apply Hd in Hn as [c Hn]. apply pl_view_node in Hn as (nd & -> & _). eauto.
  - intros n nd _ En. eapply (Hv n (pln_src nd) (pln_dst nd)).
    unfold pl_view. by rewrite En.
Qed.

Lemma node_insert_head_view n nd st m :
  pl_view (node_insert_head n nd st) m =
  if decide (m = n) then Some (content nd) else pl_view st m.
Proof.
  unfold pl_view, node_insert_head; simpl. destruct (decide (m = n)) as [->|].
  - by rewrite lookup_insert_eq.
  - rewrite lookup_insert_ne by done. destruct (pl_first st); [by apply view_alter|done].
Qed.

Lemma node_insert_head_list n nd st l :
  n ∉ l → pl_list st l → pl_list (node_insert_head n nd st) (n :: l).
Proof.
  intros Hn (Hf & Hl & Hnd). split_and!; [done| |by apply list.NoDup_cons].
  unfold node_insert_head; simpl. split; [eexists; rewrite lookup_insert_eq; by split|].
  rewrite Hf. destruct l as [|k l]; [done|]. cbn [head_or].
  apply dlseg_frame with (nodes := alter (set_pln_prev (Some n)) k (pl_nodes st)).
  - intros m md Hm E. exists md. rewrite lookup_insert_ne by set_solver. done.
  - apply list.NoDup_cons in Hnd as [Hk Hnd]. by eapply dlseg_set_prev.
Qed.

Lemma phi_lift_node_get_spec st E l vt :
  graph st E l →
  ∃ st' l', phi_lift_node_get st vt = Ok (vt_value vt, st') ∧ graph st' E l' ∧
    pl_edges st' = pl_edges st ∧ ∀ n, n ∈ l' ↔ n ∈ l ∨ n = vt_value vt.
Proof.
  intros Hg. unfold phi_lift_node_get. rewrite (phi_lift_node_find_spec _ _ _ _ Hg). rok.
  destruct Hg as [Hl Hd Hv He]. case_decide as Hn.
  - exists st, l. split_and!; [done|by split|done|]. set_solver.
  - exists (phi_lift_node_init st vt), (vt_value vt :: l). unfold phi_lift_node_init.
    split_and!; [done| |done|set_solver]. split.
    + by apply node_insert_head_list.
    + intros n. rewrite node_insert_head_view. case_decide; [set_solver|].
      rewrite Hd. set_solver.
    + intros n src dst t. rewrite node_insert_head_view. case_decide as E1; [|apply Hv].
      intros [= <- <- <-]. split_and!; [done| |]; intros e.
      * split; [by intros ?%not_elem_of_nil|]. intros [He1 He2]. destruct (He e He1). congruence.
      * split; [done|]. intros [He1 He2]. destruct (He e He1). congruence.
    + intros e He1. destruct (He e He1). set_solver.
Qed.

(** A node is an end of an edge. *)
Definition is_end (E : list phi_lift_edge) (n : Z) : Prop :=
  ∃ e, e ∈ E ∧ (ple_src e = n ∨ ple_dst e = n).

(** The edges of a list of pairs (result, value). *)
Definition pair_edges (pairs : list move) : list phi_lift_edge :=
  map (λ '(to, from), mk_edge (vt_value from) (vt_value to))
      (filter (λ m, vt_value m.1 ≠ vt_value m.2) pairs).

Lemma elem_of_pair_edges pairs e :
  e ∈ pair_edges pairs ↔
  ∃ to from, (to, from) ∈ pairs ∧ vt_value to ≠ vt_value from ∧
             e = mk_edge (vt_value from) (vt_value to).
Proof.
  unfold pair_edges. rewrite list_elem_of_fmap. split.
  - intros ([to from] & -> & [Hne Hin]%list_elem_of_filter). eauto.
  - intros (to & from & Hin & Hne & ->). exists (to, from). split; [done|].
    by apply list_elem_of_filter.
Qed.

(** Reading a node in terms of its view. *)
Lemma pl_node_view st n c :
  pl_view st n = Some c → ∃ nd, pl_node st n = Ok nd ∧ content nd = c.
Proof.
  intros (nd & H & Hc)%pl_view_node. exists nd. unfold pl_node. by rewrite H.
Qed.

Lemma pl_alter_view f n st m :
  pl_view (pl_alter f n st) m =
  (λ nd, content (if decide (m = n) then f nd else nd)) <$> pl_nodes st !! m.
Proof.
  unfold pl_view, pl_alter; simpl. destruct (decide (m = n)) as [->|].
  - rewrite lookup_alter_eq. by destruct (pl_nodes st !! n).
  - by rewrite lookup_alter_ne.
Qed.

(** A change that leaves the links alone keeps the list. *)
Lemma pl_alter_list f n st l :
  (∀ nd, same_links nd (f nd)) → pl_list st l → pl_list (pl_alter f n st) l.
Proof.
  intros Hf (H1 & H2 & H3). split_and!; [done| |done].
  eapply dlseg_frame; [|exact H2]. intros m md Hm E. unfold pl_alter; simpl.
  destruct (decide (m = n)) as [->|].
  - exists (f md). rewrite lookup_alter_eq, E. split; [done|apply Hf].
  - exists md. by rewrite lookup_alter_ne.
Qed.

(** The new edge in the nodes. *)
Definition edge_added (e : phi_lift_edge) (n : Z)
    (c : list phi_lift_edge * option phi_lift_edge * ir_valuetype) :=
  let '(src, dst, vt) := c in
  (if decide (n = ple_src e) then e :: src else src,
   if decide (n = ple_dst e) then Some e else dst, vt).

Definition add_edge (e : phi_lift_edge) (st : phi_lift) : phi_lift :=
  let st := pl_alter (λ n, set_pln_src (e :: pln_src n) n) (ple_src e) st in
  let st := pl_alter (set_pln_dst e) (ple_dst e) st in
  mk_pl (pl_first st) (pl_nodes st) (e :: pl_edges st).

Lemma add_edge_view e st n : pl_view (add_edge e st) n = edge_added e n <$> pl_view st n.
Proof.
  unfold add_edge, pl_view, pl_alter, edge_added; simpl.
  destruct (decide (n = ple_dst e)) as [Ed|Ed];
    [rewrite <- Ed, lookup_alter_eq|rewrite lookup_alter_ne by congruence];
    (destruct (decide (n = ple_src e)) as [Es|Es];
     [rewrite <- Es, lookup_alter_eq|rewrite lookup_alter_ne by congruence]);
    by destruct (pl_nodes st !! n).
Qed.

Lemma add_edge_views e st E :
  views st E E → (∀ x, x ∈ E → ple_dst x ≠ ple_dst e) →
  views (add_edge e st) (e :: E) (e :: E).
Proof.
  intros Hv Hd n src dst vt. rewrite add_edge_view. intros H.
  apply fmap_Some in H as ([[s d] t] & H & [= -> -> ->]).
  destruct (Hv _ _ _ _ H) as (V1 & V2 & V3). split_and!; [done| |]; intros x.
  - case_decide; rewrite ?elem_of_cons, V2, ?elem_of_cons; naive_solver.
  - rewrite elem_of_cons. case_decide as Hn; [|rewrite V3; naive_solver].
    split; [intros [= <-]; eauto|]. intros [[->|Hx] Hx2]; [done|].
    apply Hd in Hx. congruence.
Qed.

Lemma phi_add_spec st l to from :
  graph st (pl_edges st) l →
  (∀ e, e ∈ pl_edges st → ple_dst e ≠ vt_value to) →
  vt_value to ≠ vt_value from →
  let e := mk_edge (vt_value from) (vt_value to) in
  ∃ st' l', phi_add st (to, from) = Ok st' ∧ pl_edges st' = e :: pl_edges st ∧
    graph st' (e :: pl_edges st) l' ∧
    (∀ n, n ∈ l' ↔ n ∈ l ∨ n = vt_value to ∨ n = vt_value from).
Proof.
  intros Hg Hd Hne e. unfold phi_add. rewrite (proj2 (Z.eqb_neq _ _) Hne).
  destruct (phi_lift_node_get_spec _ _ _ to Hg) as (st1 & l1 & -> & Hg1 & He1 & Hl1). rok.
  destruct (phi_lift_node_get_spec _ _ _ from Hg1) as (st2 & l2 & -> & Hg2 & He2 & Hl2). rok.
  destruct Hg2 as [G1 G2 G3 G4].
  assert (vt_value to ∈ l2) as Hto by set_solver.
  pose proof (proj2 (G2 _) Hto) as [[[s d] vt] Ev].
  destruct (pl_node_view _ _ _ Ev) as (dn & -> & [= _ Edn _]). rok. rewrite Edn.
  destruct (G3 _ _ _ _ Ev) as (_ & _ & Ed).
  assert (d = None) as ->.
  { destruct d as [e'|]; [|done]. destruct (proj1 (Ed e') eq_refl) as [Hin E']. by apply Hd in Hin. }
  rok. fold e. exists (add_edge e st2), l2. split; [reflexivity|]. rewrite <- He1, <- He2.
  split; [done|]. split; [|intros n; rewrite Hl2, Hl1; tauto]. rewrite He2, He1. split.
  - apply (pl_alter_list _ _ (pl_alter _ _ st2)); [done|]. by apply pl_alter_list.
  - intros n. rewrite <- G2, add_edge_view. apply fmap_is_Some.
  - by apply add_edge_views.
  - intros x [->|Hx]%elem_of_cons; [simpl; set_solver|]. by apply G4.
Qed.

(** All the pairs: the edges come out in the opposite order. *)
Lemma build_spec pairs st l :
  graph st (pl_edges st) l → (∀ n, n ∈ l ↔ is_end (pl_edges st) n) →
  NoDup (map (λ m, vt_value m.1) pairs) →
  (∀ e m, e ∈ pl_edges st → m ∈ pairs → ple_dst e ≠ vt_value m.1) →
  ∃ st' l', foldR phi_add st pairs = Ok st' ∧
    pl_edges st' = reverse (pair_edges pairs) ++ pl_edges st ∧
    graph st' (pl_edges st') l' ∧ ∀ n, n ∈ l' ↔ is_end (pl_edges st') n.
Proof.
  revert st l; induction pairs as [|[to from] pairs IH]; intros st l Hg Hl Hnd Hd.
  { by exists st, l. }
  cbn [map] in Hnd. apply list.NoDup_cons in Hnd as [Hto Hnd]. cbn [fst] in Hto.
  cbn [foldR]. unfold pair_edges. rewrite filter_cons. cbn [fst snd]. case_decide as Hne.
  - destruct (phi_add_spec st l to from Hg) as (st1 & l1 & -> & He1 & Hg1 & Hl1);
      [intros e He; eapply (Hd e (to, from)); set_solver|done|]. rok. rewrite <- He1 in Hg1.
    destruct (IH st1 l1) as (st' & l' & -> & He' & Hg' & Hl'); [done| |done| |].
    + intros n. rewrite Hl1, He1, Hl. unfold is_end. set_solver.
    + intros e m. rewrite He1. intros [->|He]%elem_of_cons Hm; [|by apply Hd; set_solver].
      simpl. intros E. apply Hto. rewrite E. apply list_elem_of_fmap. by exists m.
    + exists st', l'. split_and!; [done| |done|done].
      rewrite He', He1. cbn [map]. rewrite reverse_cons, <- app_assoc. done.
  - unfold phi_add. rewrite (proj2 (Z.eqb_eq _ _) Hne). rok.
    apply (IH st l); [done|done|done|]. intros e m He Hm. by apply Hd; set_solver.
Qed.

(** ** The first loop: moves whose destination is no source *)

Lemma elem_of_edge_remove e e' l : e' ∈ edge_remove e l ↔ e' ≠ e ∧ e' ∈ l.
Proof. unfold edge_remove. by rewrite list_elem_of_filter. Qed.

(** [node_remove] seen from the list. *)
Lemma node_remove_elem st n l :
  pl_list st l → n ∈ l → is_Some (pl_view st n) →
  ∃ st' l', node_remove n st = Ok st' ∧ pl_list st' l' ∧ pl_edges st' = pl_edges st ∧
    (∀ m, pl_view st' m = pl_view st m) ∧ (∀ m, m ∈ l' ↔ m ∈ l ∧ m ≠ n) ∧
    length l = S (length l').
Proof.
  intros Hl Hn Hv. destruct (node_remove_view _ _ Hv) as (st' & Hr & He & Hv').
  apply list_elem_of_split in Hn as (a & b & ->). exists st', (a ++ b).
  split_and!; [done|by eapply node_remove_list|done|done| |rewrite !length_app; simpl; lia].
  destruct Hl as (_ & _ & Hnd). apply list.NoDup_app in Hnd as (_ & Ha & [Hb _]%list.NoDup_cons).
  intros m. specialize (Ha m). set_solver.
Qed.

(** An edge waits as long as an edge of [P] leaves its destination. *)
Definition waits (P : list phi_lift_edge) (e : phi_lift_edge) : Prop :=
  ∃ e', e' ∈ P ∧ ple_src e' = ple_dst e.

(** The nodes during the first loop, for the edges [E] of the graph. *)
Record lifting (E : list phi_lift_edge) (st : phi_lift) : Prop := {
  lf_views : views st (pl_edges st) E;
  lf_nodes : ∀ e, e ∈ E → is_Some (pl_view st (ple_src e)) ∧ is_Some (pl_view st (ple_dst e));
  lf_sub : ∀ e, e ∈ pl_edges st → e ∈ E;
}.

Lemma lift_edge_waits E st moves p e :
  lifting E st → e ∈ E → waits (pl_edges st) e →
  lift_edge (st, moves, p) e = Ok (st, moves, p).
Proof.
  intros [Hv Hn _] He (e' & He' & Es). unfold lift_edge.
  destruct (Hn e He) as [_ [[[s d] t] Hd]].
  destruct (pl_node_view _ _ _ Hd) as (dn & -> & [= Esrc _ _]). rok.
  destruct (Hv _ _ _ _ Hd) as (_ & Hs & _). rewrite Esrc.
  destruct s; [|done]. destruct (not_elem_of_nil e'). by apply Hs.
Qed.

(** [LIST_REMOVE] of an edge from both its lists. *)
Definition drop_edge (e : phi_lift_edge) (st : phi_lift) : phi_lift :=
  pl_alter (λ n, set_pln_src (edge_remove e (pln_src n)) n) (ple_src e)
    (mk_pl (pl_first st) (pl_nodes st) (edge_remove e (pl_edges st))).

Lemma drop_edge_view e st n :
  pl_view (drop_edge e st) n =
  (λ '(s, d, t), (if decide (n = ple_src e) then edge_remove e s else s, d, t)) <$> pl_view st n.
Proof.
  unfold drop_edge. rewrite pl_alter_view. unfold pl_view. simpl.
  destruct (pl_nodes st !! n); simpl; [by case_decide|done].
Qed.

Lemma drop_edge_views e st P E :
  views st P E → views (drop_edge e st) (edge_remove e P) E.
Proof.
  intros Hv n src dst vt. rewrite drop_edge_view. intros H.
  apply fmap_Some in H as ([[s d] t] & H & [= -> -> ->]).
  destruct (Hv _ _ _ _ H) as (V1 & V2 & V3). split_and!; [done| |done]. intros x.
  case_decide; rewrite !elem_of_edge_remove, V2; naive_solver.
Qed.

Lemma lift_edge_moves E st moves p e :
  lifting E st → e ∈ pl_edges st → ¬ waits (pl_edges st) e →
  ∃ st' to from, lift_edge (st, moves, p) e = Ok (st', moves ++ [(to, from)], true) ∧
    vt_value to = ple_dst e ∧ vt_value from = ple_src e ∧
    pl_edges st' = edge_remove e (pl_edges st) ∧ lifting E st' ∧
    (∀ l, pl_list st l → ple_dst e ∈ l → ple_src e ∈ l → ple_src e ≠ ple_dst e →
       ∃ l', pl_list st' l' ∧
         ∀ n, n ∈ l' ↔ n ∈ l ∧ n ≠ ple_dst e ∧
           (n = ple_src e → ∃ e', e' ∈ edge_remove e (pl_edges st) ∧ ple_src e' = ple_src e)).
Proof.
  intros [Hv Hn Hs] He Hw. unfold lift_edge.
  destruct (Hn e (Hs _ He)) as [[[[ss sd] st_] Es] [[[ds dd] dt] Ed]].
  destruct (pl_node_view _ _ _ Ed) as (dn & -> & [= Ed1 _ Ed2]). rok.
  destruct (Hv _ _ _ _ Ed) as (Hdt & Hds & _). rewrite Ed1, Ed2.
  destruct ds as [|x ds]; [|destruct Hw; exists x; apply Hds; set_solver].
  destruct (pl_node_view _ _ _ Es) as (sn & -> & [= _ _ Es2]). rok. rewrite Es2.
  destruct (Hv _ _ _ _ Es) as (Hst & _ & _). fold (drop_edge e st).
  pose proof (drop_edge_views e st _ _ Hv) as Hv1.
  assert (∀ n, is_Some (pl_view st n) → is_Some (pl_view (drop_edge e st) n)) as Hsome
    by (intros n; by rewrite drop_edge_view, fmap_is_Some).
  destruct (node_remove_view (drop_edge e st) (ple_dst e)) as (st1 & Hr1 & He1 & Hw1);
    [apply Hsome; eauto|]. rewrite Hr1. rok.
  assert (is_Some (pl_view st1 (ple_src e))) as Hsrc by (rewrite Hw1; apply Hsome; eauto).
  destruct (Hsrc) as [[[s2 d2] t2] Es3].
  destruct (pl_node_view _ _ _ Es3) as (sn2 & -> & [= Esn2 _ _]). rok. rewrite Esn2.
  destruct (node_remove_view st1 (ple_src e) Hsrc) as (st2 & Hr2 & He2 & Hw2).
  assert (∀ st', pl_edges st' = pl_edges st1 → (∀ m, pl_view st' m = pl_view st1 m) →
    pl_edges st' = edge_remove e (pl_edges st) ∧ lifting E st') as Hfin.
  { intros st' Ee Ev. assert (pl_edges st' = edge_remove e (pl_edges st)) as E'
      by by rewrite Ee, He1.
    split; [done|]. split.
    - intros n s d t. rewrite Ev, Hw1, E'. apply Hv1.
    - intros x Hx. destruct (Hn x Hx). rewrite !Ev, !Hw1. eauto.
    - intros x. rewrite E', elem_of_edge_remove. intros [_ Hx]. by apply Hs. }
  rewrite Hw1 in Es3. destruct (Hv1 _ _ _ _ Es3) as (_ & Hs2 & _).
  destruct s2 as [|x s2].
  - exists st2, dt, st_. rewrite Hr2. rok. split; [done|]. do 2 (split; [done|]).
    destruct (Hfin st2 He2 Hw2). split_and!; [done|done|].
    intros l Hl Hd1 Hd2 Hne.
    destruct (node_remove_elem (drop_edge e st) (ple_dst e) l) as (st1' & l1 & Hr1' & Hl1 & _ & _ & Hm1 & _);
      [apply pl_alter_list; [done|exact Hl]|done|apply Hsome; eauto|].
    rewrite Hr1 in Hr1'. injection Hr1' as <-.
    destruct (node_remove_elem st1 (ple_src e) l1) as (st2' & l2 & Hr2' & Hl2 & _ & _ & Hm2 & _);
      [done|by apply Hm1|done|].
    rewrite Hr2 in Hr2'. injection Hr2' as <-.
    exists l2. split; [done|]. intros n. rewrite Hm2, Hm1. split; [naive_solver|].
    intros (H1 & H2 & H3). split_and!; [done|done|]. intros ->.
    destruct H3 as (e' & H3 & H4); [done|]. by eapply not_elem_of_nil, Hs2.
  - exists st1, dt, st_. split; [done|]. do 2 (split; [done|]).
    destruct (Hfin st1) as [? ?]; [done|done|]. split_and!; [done|done|].
    intros l Hl Hd1 Hd2 Hne.
    destruct (node_remove_elem (drop_edge e st) (ple_dst e) l) as (st1' & l1 & Hr1' & Hl1 & _ & _ & Hm1 & _);
      [apply pl_alter_list; [done|exact Hl]|done|apply Hsome; eauto|].
    rewrite Hr1 in Hr1'. injection Hr1' as <-.
    exists l1. split; [done|]. intros n. rewrite Hm1. split; [|naive_solver].
    intros [H1 H2]. split_and!; [done|done|]. intros ->. exists x. apply Hs2. set_solver.
Qed.

Section one_edge.
Context (E : list phi_lift_edge).
Context (E_self : ∀ e, e ∈ E → ple_src e ≠ ple_dst e).
Context (E_dst : ∀ e e', e ∈ E → e' ∈ E → ple_dst e = ple_dst e' → e = e').

Definition flows (a b : Z) : Prop := mk_edge a b ∈ E.

(** Every node that is both a source and a destination lies on a cycle. *)
Definition cyclic : Prop :=
  ∀ e e', e ∈ E → e' ∈ E → ple_dst e = ple_src e' → tc flows (ple_src e') (ple_src e').

(** The moves for the edges that have left [P] are done, and no source of
    another edge is lost. *)
Definition in_flight (P : list phi_lift_edge) (moves : list move) : Prop :=
  (∀ A (env : Z → A) e, e ∈ E → e ∉ P → run_moves moves env (ple_dst e) = env (ple_src e)) ∧
  (∀ A (env : Z → A) v, (∀ e, e ∈ E → e ∉ P → ple_dst e ≠ v) → run_moves moves env v = env v) ∧
  (∀ e e', e ∈ P → e' ∈ E → ple_dst e' = ple_src e → e' ∈ P).

(** The node list is that of the ends of the edges left, and those of the
    cycles are left. *)
Definition chained (st : phi_lift) : Prop :=
  (∃ l, pl_list st l ∧ ∀ n, n ∈ l ↔ is_end (pl_edges st) n) ∧
  ∀ e, e ∈ E → tc flows (ple_dst e) (ple_src e) → e ∈ pl_edges st.

Record lift_inv (st : phi_lift) (moves : list move) : Prop := {
  li_lifting : lifting E st;
  li_flight : in_flight (pl_edges st) moves;
  li_nodup : NoDup (pl_edges st);
  li_chained : cyclic → chained st;
}.

Lemma in_flight_step P moves e to from :
  in_flight P moves → e ∈ E → e ∈ P → ¬ waits P e →
  vt_value to = ple_dst e → vt_value from = ple_src e →
  in_flight (edge_remove e P) (moves ++ [(to, from)]).
Proof.
  intros (Ha & Hb & Hc) HeE He Hw Hto Hfrom.
  assert (∀ e', e' ∉ edge_remove e P → e' = e ∨ e' ∉ P) as Hrm.
  { intros e'. rewrite elem_of_edge_remove. destruct (decide (e' = e)); tauto. }
  assert (e ∉ edge_remove e P) as Hee by (rewrite elem_of_edge_remove; tauto).
  split_and!.
  - intros A env e' He' [->|Hn]%Hrm; rewrite run_moves_snoc, Hto, Hfrom.
    + rewrite fn_lookup_insert. apply Hb. intros e2 H1 H2 H3. by apply H2, (Hc e).
    + destruct (decide (e' = e)) as [->|Hne]; [done|].
      rewrite fn_lookup_insert_ne by (intros E1; by apply Hne, E_dst). by apply Ha.
  - intros A env v Hv. rewrite run_moves_snoc, Hto.
    rewrite fn_lookup_insert_ne by by apply Hv. apply Hb. intros e' H1 H2.
    apply Hv; [done|]. rewrite elem_of_edge_remove. tauto.
  - intros x e' [Hx1 Hx]%elem_of_edge_remove He' Hd. apply elem_of_edge_remove.
    split; [intros ->; apply Hw; by exists x|by apply (Hc x)].
Qed.

Lemma flows_edge e : e ∈ E → flows (ple_src e) (ple_dst e).
Proof. by destruct e. Qed.

Lemma tc_first (R : relation Z) x y : tc R x y → ∃ z, R x z ∧ rtc R z y.
Proof. destruct 1 as [x y H|x z y H Ht]; [by exists y|]. exists z. split; [done|by apply tc_rtc]. Qed.

(** An edge of a cycle waits for the next one. *)
Lemma cycle_waits P e :
  (∀ e, e ∈ E → tc flows (ple_dst e) (ple_src e) → e ∈ P) →
  e ∈ E → tc flows (ple_dst e) (ple_src e) → waits P e.
Proof.
  intros HP He Ht. apply tc_first in Ht as (y & Hy & Hr). exists (mk_edge (ple_dst e) y).
  split; [|done]. apply HP; [done|]. simpl. eapply tc_rtc_l; [done|].
  by apply tc_once, flows_edge.
Qed.

Lemma chained_step st st' e :
  cyclic → chained st → e ∈ E → e ∈ pl_edges st → ¬ waits (pl_edges st) e →
  (∀ x, x ∈ pl_edges st → x ∈ E) →
  pl_edges st' = edge_remove e (pl_edges st) →
  (∀ l, pl_list st l → ple_dst e ∈ l → ple_src e ∈ l → ple_src e ≠ ple_dst e →
     ∃ l', pl_list st' l' ∧ ∀ n, n ∈ l' ↔ n ∈ l ∧ n ≠ ple_dst e ∧
       (n = ple_src e → ∃ e', e' ∈ edge_remove e (pl_edges st) ∧ ple_src e' = ple_src e)) →
  chained st'.
Proof.
  intros HC [(l & Hl & Hm) Hcyc] HeE He Hw Hsub He' Hrem. split.
  - destruct (Hrem l Hl) as (l' & Hl' & Hm'); [apply Hm; exists e; tauto|apply Hm; exists e; tauto|by apply E_self|].
    exists l'. split; [done|]. intros n. rewrite Hm', Hm, He'. unfold is_end.
    setoid_rewrite elem_of_edge_remove. split.
    + intros ((x & Hx & Hn) & Hnd & Hns). destruct (decide (x = e)) as [->|Hne]; [|by exists x].
      destruct Hn as [Hn|Hn]; [|congruence]. destruct (Hns ltac:(done)) as (x & Hx1 & Hx2).
      exists x. split; [done|left; congruence].
    + intros (x & [Hxe Hx] & Hn). split_and!; [by exists x| |].
      * intros ->. destruct Hn as [Hn|Hn]; [apply Hw; by exists x|].
        by apply Hxe, E_dst; [apply Hsub|..].
      * intros ->. destruct Hn as [Hn|Hn]; [by exists x|].
        (* a source that is also a destination: the edge on the cycle is left *)
        pose proof (HC x e (Hsub _ Hx) HeE Hn) as Ht.
        apply tc_first in Ht as (y & Hy & Hr). exists (mk_edge (ple_src e) y).
        assert (mk_edge (ple_src e) y ∈ E) as HyE by done.
        assert (tc flows y (ple_src e)) as Hty.
        { apply rtc_tc in Hr as [->|?]; [|done]. by destruct (E_self _ HyE). }
        split_and!; [|by apply Hcyc|done]. intros E1. apply Hw, cycle_waits; [done..|].
        assert (ple_dst e = y) as -> by by rewrite <- E1. done.
  - intros x HxE Hx. rewrite He', elem_of_edge_remove. split; [|by apply Hcyc].
    intros ->. by apply Hw, cycle_waits.
Qed.

Lemma lift_edge_inv st moves p e :
  lift_inv st moves → e ∈ pl_edges st →
  (waits (pl_edges st) e ∧ lift_edge (st, moves, p) e = Ok (st, moves, p)) ∨
  ∃ st' moves', lift_edge (st, moves, p) e = Ok (st', moves', true) ∧ lift_inv st' moves' ∧
    pl_edges st' = edge_remove e (pl_edges st).
Proof.
  intros [H1 H2 H3 H4] He. pose proof (lf_sub _ _ H1 _ He) as HeE.
  destruct (decide (Exists (λ e', ple_src e' = ple_dst e) (pl_edges st))) as [Hw|Hw];
    rewrite list.Exists_exists in Hw; fold (waits (pl_edges st) e) in Hw.
  - left. split; [done|]. by eapply lift_edge_waits.
  - right. destruct (lift_edge_moves E st moves p e H1 He Hw) as
      (st' & to & from & Hr & Hto & Hfrom & Hed & Hl & Hlist).
    exists st', (moves ++ [(to, from)]). split_and!; [done| |done]. split; [done| | |].
    + rewrite Hed. by apply in_flight_step.
    + rewrite Hed. by apply list.NoDup_filter.
    + intros HC. eapply chained_step; eauto. by apply (lf_sub _ _ H1).
Qed.

Lemma length_edge_remove (e : phi_lift_edge) l : e ∈ l → (length (edge_remove e l) < length l)%nat.
Proof. intros He. eapply length_filter_lt; [done|]. simpl. tauto. Qed.

Lemma lift_pass l st moves p :
  lift_inv st moves → NoDup l → (∀ e, e ∈ l → e ∈ pl_edges st) →
  ∃ st' moves' p', foldR lift_edge (st, moves, p) l = Ok (st', moves', p') ∧
    lift_inv st' moves' ∧
    ((p' = p ∧ st' = st ∧ ∀ e, e ∈ l → waits (pl_edges st) e) ∨
     (p' = true ∧ (length (pl_edges st') < length (pl_edges st))%nat)).
Proof.
  revert st moves p; induction l as [|e l IH]; intros st moves p Hi Hnd Hl.
  { exists st, moves, p. split_and!; [done|done|]. left. split_and!; [done|done|].
    by intros e ?%not_elem_of_nil. }
  apply list.NoDup_cons in Hnd as [Hel Hnd]. cbn [foldR].
  destruct (lift_edge_inv st moves p e Hi) as [[Hw ->]|(st1 & m1 & -> & Hi1 & He1)];
    [set_solver|rok..].
  - destruct (IH st moves p Hi Hnd) as (st' & m' & p' & Hr & Hi' & Hp); [set_solver|].
    exists st', m', p'. split_and!; [done|done|].
    destruct Hp as [(H1 & H2 & H3)|Hp]; [left|by right]. set_solver.
  - assert (length (pl_edges st1) < length (pl_edges st))%nat
      by (rewrite He1; apply length_edge_remove; set_solver).
    destruct (IH st1 m1 true Hi1 Hnd) as (st' & m' & p' & Hr & Hi' & Hp).
    { intros x Hx. rewrite He1. apply elem_of_edge_remove. set_solver. }
    exists st', m', p'. split_and!; [done|done|]. right.
    destruct Hp as [(-> & -> & _)|[-> ?]]; split; (done || lia).
Qed.

Lemma lift_edges_spec fuel st moves :
  lift_inv st moves → (length (pl_edges st) < fuel)%nat →
  ∃ st' moves', lift_edges fuel st moves = Ok (st', moves') ∧ lift_inv st' moves' ∧
    ∀ e, e ∈ pl_edges st' → waits (pl_edges st') e.
Proof.
  revert st moves; induction fuel as [|fuel IH]; intros st moves Hi Hf; [lia|].
  cbn [lift_edges].
  destruct (lift_pass (pl_edges st) st moves false Hi (li_nodup _ _ Hi)) as
    (st' & m' & p' & -> & Hi' & Hp); [done|]. rok.
  destruct (pl_edges st') as [|e es] eqn:Ee.
  { exists st', m'. split_and!; [done|done|]. rewrite Ee. by intros e ?%not_elem_of_nil. }
  destruct Hp as [(-> & -> & Hw)|[-> Hlt]].
  - by exists st, m'.
  - apply IH; [done|]. rewrite <- Ee in Hlt. lia.
Qed.

(** ** The second loop: the cycles *)

(** When the first loop stops, each node left is the source of one edge and
    the destination of one: the number of destinations is that of the edges,
    and the sources are no more. *)
Lemma waits_balanced P :
  NoDup P → (∀ e, e ∈ P → e ∈ E) → (∀ e, e ∈ P → waits P e) →
  (∀ n, is_end P n ↔ n ∈ (ple_dst <$> P)) ∧ NoDup (ple_src <$> P).
Proof.
  intros Hnd Hsub Hw.
  assert (NoDup (ple_dst <$> P)) as Hd.
  { apply NoDup_fmap_2_strong; [|done]. intros e e' He He'. by apply E_dst; apply Hsub. }
  assert (ple_dst <$> P ⊆ ple_src <$> P) as Hincl.
  { intros n (e & -> & He)%list_elem_of_fmap. destruct (Hw e He) as (e' & He' & <-).
    apply list_elem_of_fmap. by exists e'. }
  assert (ple_dst <$> P ≡ₚ ple_src <$> P) as Hp.
  { apply submseteq_length_Permutation; [|by rewrite !length_fmap].
    by apply NoDup_submseteq. }
  split; [|by rewrite <- Hp]. intros n. split.
  - intros (e & He & [<-|<-]); [rewrite Hp|]; apply list_elem_of_fmap; by exists e.
  - intros (e & -> & He)%list_elem_of_fmap. exists e. tauto.
Qed.

Lemma flows_inj m m' n : flows m n → flows m' n → m = m'.
Proof. intros H H'. by injection (E_dst _ _ H H' eq_refl). Qed.

Lemma flows_self n : ¬ flows n n.
Proof. intros H. by apply (E_self _ H). Qed.

(** Each node of [l] has its source in [l], and no two have the same. *)
Definition closed (l : list Z) : Prop :=
  (∀ n, n ∈ l → ∃ m, flows m n ∧ m ∈ l) ∧
  (∀ n n' m, n ∈ l → n' ∈ l → flows m n → flows m n' → n = n').

Lemma pl_list_view st l n : pl_list st l → n ∈ l → is_Some (pl_view st n).
Proof.
  intros (_ & Hl & _) (a & b & ->)%list_elem_of_split. apply dlseg_app in Hl as [_ [(nd & H & _) _]].
  unfold pl_view. rewrite H. by eexists.
Qed.

Lemma pl_list_size st l : pl_list st l → (length l ≤ size (pl_nodes st))%nat.
Proof.
  intros Hl. pose proof Hl as (_ & _ & Hnd).
  rewrite <- size_dom, <- (size_list_to_set (C := gset Z) l) by done.
  apply subseteq_size. intros n Hn%elem_of_list_to_set. apply elem_of_dom.
  apply (pl_list_view _ _ _ Hl) in Hn as [c (nd & H & _)%pl_view_node]. by rewrite H.
Qed.

(** The views do not change when nodes leave the list. *)
Lemma lifting_views st st' :
  lifting E st → pl_edges st' = pl_edges st → (∀ n, pl_view st' n = pl_view st n) →
  lifting E st'.
Proof.
  intros [H1 H2 H3] He Hv. split.
  - intros n s d t. rewrite He, Hv. apply H1.
  - intros e. rewrite !Hv. apply H2.
  - rewrite He. apply H3.
Qed.

(** What the walk reads of a node. *)
Lemma lifting_node st n m :
  lifting E st → is_Some (pl_view st n) → flows m n →
  ∃ cn, pl_node st n = Ok cn ∧ pln_dst cn = Some (mk_edge m n) ∧ vt_value (pln_vt cn) = n.
Proof.
  intros Hl [[[s d] t] Hv] Hf. destruct (pl_node_view _ _ _ Hv) as (cn & -> & [= _ <- <-]).
  destruct (lf_views _ _ Hl _ _ _ _ Hv) as (V1 & _ & V3). exists cn.
  split_and!; [done|by apply V3|done].
Qed.

Lemma lift_cycle_spec fuel st moves start cur l (tmp : ir_valuetype) :
  lifting E st → pl_list st l → cur ∈ l → (length l ≤ fuel)%nat → vt_value tmp ∉ l →
  (∀ n, n ∈ l → ∃ m, flows m n ∧ (m ∈ l ∨ m = start)) →
  (∀ n n' m, n ∈ l → n' ∈ l → flows m n → flows m n' → n = n') →
  (cur ≠ start → ∀ n, n ∈ l → ¬ flows cur n) →
  ∃ st1 moves1 c cn st2 l',
    lift_cycle fuel st moves start cur = Ok (st1, moves1, c) ∧ pl_node st1 c = Ok cn ∧
    node_remove c st1 = Ok st2 ∧ lifting E st2 ∧ pl_list st2 l' ∧ closed l' ∧
    (length l' < length l)%nat ∧ (∀ n, n ∈ l' → n ∈ l) ∧
    ∀ A (env : Z → A),
      let e1 := run_moves moves env in
      let e2 := run_moves (moves1 ++ [(pln_vt cn, tmp)]) env in
      (∀ n, n ∈ l' ∨ n ∉ l → e2 n = e1 n) ∧
      (∀ n m, n ∈ l → n ∉ l' → flows m n →
         e2 n = if decide (m = start) then e1 (vt_value tmp) else e1 m).
Proof.
  revert st moves cur l; induction fuel as [|fuel IH];
    intros st moves cur l Hst Hl Hcur Hf Htmp Hclosed Hinj Hsrc.
  { destruct l; [by apply not_elem_of_nil in Hcur|simpl in Hf; lia]. }
  cbn [lift_cycle]. destruct (Hclosed cur Hcur) as (src & Hsc & Hm).
  pose proof (pl_list_view _ _ _ Hl Hcur) as Hvcur.
  destruct (lifting_node st cur src Hst Hvcur Hsc) as (cn & Hcn & Hdst & Hvt).
  rewrite Hcn. rok. rewrite Hdst. rok. cbn [ple_src].
  destruct (node_remove_elem st cur l Hl Hcur Hvcur) as (st1 & l1 & Hr & Hl1 & He1 & Hv1 & Hin1 & Hlen).
  pose proof (lifting_views st st1 Hst He1 Hv1) as Hst1.
  destruct (Z.eqb_spec src start) as [->|Hne].
  - (* back at the start *)
    exists st, moves, cur, cn, st1, l1. split_and!; [done..| |lia|intros n; rewrite Hin1; tauto|].
    + split; [|intros n n' m; rewrite !Hin1; naive_solver].
      intros n [Hn Hnc]%Hin1. destruct (Hclosed n Hn) as (m & Hmn & Hm').
      assert (m ≠ start) by (intros ->; by apply Hnc, (Hinj n cur start)).
      exists m. split; [done|]. apply Hin1. destruct Hm' as [Hm'|]; [|done]. split; [done|].
      intros ->. by eapply (Hsrc H n).
    + intros A env. rewrite run_moves_snoc, Hvt. split.
      * intros n Hn. rewrite fn_lookup_insert_ne; [done|]. intros <-.
        destruct Hn as [[_ Hn]%Hin1|]; done.
      * intros n m Hn Hn1 Hmn. assert (n = cur) as -> by (destruct (decide (n = cur)); set_solver).
        rewrite (flows_inj m start cur) by done. by rewrite fn_lookup_insert, decide_True.
  - destruct Hm as [Hm|]; [|done].
    destruct (lf_nodes _ _ Hst _ Hsc) as [Hvsrc _]. cbn in Hvsrc.
    destruct (Hclosed src Hm) as (src2 & Hss & _).
    destruct (lifting_node st src src2 Hst Hvsrc Hss) as (sn & -> & _ & Hvs). rok. rewrite Hr. rok.
    assert (cur ≠ src) as Hcs by (intros ->; by apply (flows_self src)).
    destruct (IH st1 (moves ++ [(pln_vt cn, pln_vt sn)]) src l1) as
      (st2 & m2 & c & cn2 & st3 & l' & Hr2 & Hc2 & Hr3 & Hst3 & Hl3 & Hcl & Hlt & Hsub & Henv);
      [done|done|by apply Hin1|lia|rewrite Hin1; tauto| | | |].
    + intros n [Hn Hnc]%Hin1. destruct (Hclosed n Hn) as (m & Hmn & Hm'). exists m.
      split; [done|]. destruct Hm' as [Hm'|]; [|by right]. rewrite Hin1.
      destruct (decide (m = cur)) as [->|]; [|by left]. right.
      destruct (decide (cur = start)); [done|]. by destruct (Hsrc n0 n Hn).
    + intros n n' m; rewrite !Hin1; naive_solver.
    + intros _ n [Hn Hnc]%Hin1 Hfn. by apply Hnc, (Hinj n cur src).
    + exists st2, m2, c, cn2, st3, l'. split_and!; [done..|lia|intros n Hn; by apply Hin1, Hsub|].
      intros A env. destruct (Henv A env) as [Ha Hb]. cbv zeta in Ha, Hb.
      rewrite !(run_moves_snoc moves), Hvt, Hvs in Ha, Hb.
      set (e1 := run_moves moves env) in *. set (e2 := run_moves (m2 ++ _) env) in *. split.
      * intros n Hn. destruct (decide (n = cur)) as [->|Hnc].
        { destruct Hn as [Hn%Hsub|Hn]; [|done]. by apply Hin1 in Hn as [_ ?]. }
        rewrite (Ha n) by (rewrite Hin1; tauto). by rewrite fn_lookup_insert_ne.
      * intros n m Hn Hn' Hmn. destruct (decide (n = cur)) as [->|Hnc].
        { rewrite (flows_inj m src cur), decide_False by done.
          rewrite (Ha cur), fn_lookup_insert by (rewrite Hin1; tauto). done. }
        rewrite (Hb n m) by (rewrite ?Hin1; done). case_decide as Hms.
        { rewrite fn_lookup_insert_ne; [done|]. intros ->. done. }
        rewrite fn_lookup_insert_ne; [done|]. intros ->. by apply (Hsrc Hms n Hn).
Qed.

(** The table has room for [k] more values. *)
Definition vs_room (vs : value_state) (k : nat) : Prop :=
  (vs_next vs ≤ length (vs_values vs))%nat ∧ Z.of_nat (vs_next vs + k) < 2 ^ 32.

(** The values of [vs] are those of [vs'] too. *)
Definition vs_extends (vs vs' : value_state) : Prop :=
  (vs_next vs ≤ vs_next vs')%nat ∧
  ∀ i, (i < vs_next vs)%nat → vs_values vs' !! i = vs_values vs !! i.

Lemma value_alloc_temporary_spec vs type k :
  vs_room vs (S k) →
  ∃ vs', value_alloc_temporary vs type = Ok (vs_next vs, vs') ∧
    vs_next vs' = S (vs_next vs) ∧ vs_room vs' k ∧ vs_extends vs vs'.
Proof.
  intros [H1 H2]. unfold value_alloc_temporary, value_new, value_append.
  assert (Z.to_nat (u32 (Z.of_nat (vs_next vs))) = vs_next vs) as Hu.
  { rewrite (wrap_small 32) by lia. lia. }
  case_bool_decide as Hn.
  - rok. unfold value_get, value_set. rewrite Hu. cbn [vs_values vs_next upd_values].
    rewrite (list_lookup_middle (vs_values vs) [] _ _ Hn). rok.
    eexists. split; [reflexivity|]. cbn [vs_values vs_next upd_values]. split; [done|].
    split; split; cbn [vs_values vs_next upd_values].
    + rewrite length_insert, length_app. simpl. lia.
    + lia.
    + lia.
    + intros i Hi. rewrite list_lookup_insert_ne by lia. by rewrite lookup_app_l by lia.
  - rewrite bool_decide_true by lia. rok. unfold value_get, value_set. rewrite Hu.
    cbn [vs_values vs_next upd_values].
    destruct (lookup_lt_is_Some_2 (vs_values vs) (vs_next vs)) as [x Hx]; [lia|].
    rewrite list_lookup_alter_eq, Hx. cbn [fmap option_fmap option_map]. rok.
    eexists. split; [reflexivity|]. cbn [vs_values vs_next upd_values]. split; [done|].
    split; split; cbn [vs_values vs_next upd_values].
    + rewrite length_insert, length_alter. lia.
    + lia.
    + lia.
    + intros i Hi. by rewrite list_lookup_insert_ne, list_lookup_alter_ne by lia.
Qed.

Lemma vs_extends_trans vs1 vs2 vs3 :
  vs_extends vs1 vs2 → vs_extends vs2 vs3 → vs_extends vs1 vs3.
Proof.
  intros [H1 H2] [H3 H4]. split; [lia|]. intros i Hi. rewrite H4 by lia. by apply H2.
Qed.

Lemma lift_cycles_spec fuel vs st moves l :
  lifting E st → pl_list st l → closed l → (length l < fuel)%nat →
  vs_room vs (length l) → (∀ n, n ∈ l → n < Z.of_nat (vs_next vs)) →
  ∃ vs' moves',
    lift_cycles fuel vs st moves = Ok (vs', moves') ∧ vs_extends vs vs' ∧
    ∀ A (env : Z → A),
      (∀ n m, n ∈ l → flows m n → run_moves moves' env n = run_moves moves env m) ∧
      (∀ v, v ∉ l → v < Z.of_nat (vs_next vs) →
         run_moves moves' env v = run_moves moves env v).
Proof.
  revert vs st moves l; induction fuel as [|fuel IH];
    intros vs st moves l Hst Hl Hcl Hf Hroom Hlt; [lia|].
  cbn [lift_cycles]. pose proof Hl as (-> & _ & _). destruct l as [|start l].
  { cbn [head_or]. exists vs, moves. split; [done|]. split; [by split|]. intros A env. split; [|done].
    intros n m Hn. by apply not_elem_of_nil in Hn. }
  cbn [head_or]. set (l0 := start :: l) in *.
  assert (start ∈ l0) as Hstart by (unfold l0; set_solver).
  destruct Hcl as [Hc1 Hc2]. destruct (Hc1 start Hstart) as (m0 & Hm0 & _).
  destruct (lifting_node st start m0 Hst) as (sn & -> & _ & Hvt); [by eapply pl_list_view|done|].
  rok. destruct (value_alloc_temporary_spec vs (vt_type (pln_vt sn)) (length l)) as
    (vs1 & -> & Hn1 & Hroom1 & Hext1); [done|]. rok.
  set (tmp := mk_vt (Z.of_nat (vs_next vs)) (vt_type (pln_vt sn))).
  destruct (lift_cycle_spec (size (pl_nodes st)) st (moves ++ [(tmp, pln_vt sn)]) start start l0 tmp)
    as (st1 & m1 & c & cn & st2 & l' & -> & Hcn & Hr & Hst2 & Hl' & Hcl' & Hlen & Hsub & Henv);
    [done|done|done|by apply pl_list_size| | |done|done|].
  { intros H%Hlt. simpl in H. lia. }
  { intros n Hn. destruct (Hc1 n Hn) as (m & ? & ?). eauto. }
  rok. rewrite Hcn. rok. rewrite Hr. rok.
  destruct (IH vs1 st2 (m1 ++ [(pln_vt cn, tmp)]) l') as (vs' & m' & -> & Hext & Henv');
    [done|done|done|lia| | |].
  { destruct Hroom1. unfold l0 in Hlen. cbn [length] in Hlen. split; lia. }
  { intros n Hn%Hsub%Hlt. lia. }
  exists vs', m'. split; [done|]. split; [by eapply vs_extends_trans|]. intros A env.
  destruct (Henv A env) as [Ha Hb]. destruct (Henv' A env) as [Ha' Hb'].
  cbv zeta in Ha, Hb. rewrite (run_moves_snoc moves), Hvt in Ha, Hb.
  rewrite fn_lookup_insert in Hb.
  assert (∀ v, v < Z.of_nat (vs_next vs) → vt_value tmp ≠ v) as Htmp by (simpl; lia).
  split.
  - intros n m Hn Hmn. destruct (Hc1 n Hn) as (m2 & Hm2 & Hml).
    rewrite <- (flows_inj m m2 n Hmn Hm2) in Hml. destruct (decide (n ∈ l')) as [Hn'|Hn'].
    + rewrite (Ha' n m Hn' Hmn), (Ha m).
      * by rewrite fn_lookup_insert_ne by by apply Htmp, Hlt.
      * left. destruct Hcl' as [Hcl' _]. destruct (Hcl' n Hn') as (m3 & Hm3 & Hm3').
        by rewrite (flows_inj m m3 n Hmn Hm3).
    + rewrite Hb', (Hb n m Hn Hn' Hmn); [|done|rewrite Hn1; specialize (Hlt n Hn); lia].
      case_decide as E1; [by rewrite E1|].
      by rewrite fn_lookup_insert_ne by by apply Htmp, Hlt.
  - intros v Hv Hvlt. rewrite Hb', Ha; [|by right|intros H%Hsub; done|lia].
    by rewrite fn_lookup_insert_ne by by apply Htmp.
Qed.

(** The moves of a graph: first those out of it, then the cycles. *)
Definition acyclic : Prop := ∃ rank : Z → nat, ∀ e, e ∈ E → (rank (ple_src e) < rank (ple_dst e))%nat.

Lemma acyclic_waits P :
  acyclic → (∀ e, e ∈ P → e ∈ E) → (∀ e, e ∈ P → waits P e) → P = [].
Proof.
  intros [rank Hr] Hsub Hw. destruct P as [|e0 P']; [done|]. set (P := e0 :: P') in *. exfalso.
  assert (∃ N, ∀ e, e ∈ P → (rank (ple_dst e) ≤ N)%nat) as [N HN].
  { clearbody P. clear Hsub Hw. induction P as [|e P [N IH]].
    - exists 0%nat. by intros e ?%not_elem_of_nil.
    - exists (Nat.max N (rank (ple_dst e))). intros x [->|Hx]%elem_of_cons; [lia|].
      specialize (IH x Hx). lia. }
  assert (∀ k, ∃ e, e ∈ P ∧ (k ≤ rank (ple_dst e))%nat) as Hk.
  { induction k as [|k (e & He & Hk)]; [exists e0; split; [unfold P; set_solver|lia]|].
    destruct (Hw e He) as (e' & He' & E'). exists e'. split; [done|].
    pose proof (Hr e' (Hsub _ He')). rewrite E' in *. lia. }
  destruct (Hk (S N)) as (e & He & H). specialize (HN e He). lia.
Qed.

Lemma lift_all_spec vs st l (edges := pl_edges st) :
  graph st (pl_edges st) l → (∀ n, n ∈ l ↔ is_end (pl_edges st) n) →
  (∀ e, e ∈ pl_edges st ↔ e ∈ E) → NoDup (pl_edges st) →
  vs_room vs (length (pl_edges st)) →
  (∀ e, e ∈ E → ple_dst e < Z.of_nat (vs_next vs)) → acyclic ∨ cyclic →
  ∃ st' moves vs' moves',
    lift_edges (S (length edges)) st [] = Ok (st', moves) ∧
    (match pl_edges st' with
     | [] => Ok (vs, moves)
     | _ => lift_cycles (S (size (pl_nodes st'))) vs st' moves
     end) = Ok (vs', moves') ∧ vs_extends vs vs' ∧
    ∀ A (env : Z → A),
      (∀ e, e ∈ E → run_moves moves' env (ple_dst e) = env (ple_src e)) ∧
      (∀ v, (∀ e, e ∈ E → ple_dst e ≠ v) → v < Z.of_nat (vs_next vs) →
         run_moves moves' env v = env v).
Proof.
  intros [Gl Gd Gv Ge] Hl HE Hnd Hroom Hlt Hcase.
  assert (lift_inv st []) as Hi.
  { split; [split| |done|].
    - intros n s d t Hn. destruct (Gv n s d t Hn) as (V1 & V2 & V3).
      split_and!; [done|done|]. intros e. by rewrite V3, HE.
    - intros e He%HE. rewrite !Gd. by apply Ge.
    - intros e. by rewrite HE.
    - split_and!; [|done|].
      + intros A env e He%HE Hn. done.
      + intros e e' _ He' _. by apply HE.
    - intros _. split; [by exists l|]. intros e He _. by apply HE. }
  destruct (lift_edges_spec (S (length edges)) st [] Hi) as (st' & m & Hr & [L1 L2 L3 L4] & Hw);
    [unfold edges; lia|].
  pose proof (lf_sub _ _ L1) as Hsub. destruct L2 as (La & Lb & Lc).
  exists st', m. destruct (pl_edges st') as [|e0 es] eqn:Ee.
  { exists vs, m. split_and!; [done|done|by split|]. intros A env. split.
    - intros e He. apply La; [done|]. apply not_elem_of_nil.
    - intros v Hv _. apply Lb. intros e He _. by apply Hv. }
  destruct Hcase as [Hac|HC]; [by pose proof (acyclic_waits _ Hac Hsub Hw)|].
  destruct (L4 HC) as [(l' & Hl' & Hm') _]. rewrite Ee in Hm'. set (P := e0 :: es) in *.
  destruct (waits_balanced P L3 Hsub Hw) as [Hd Hs].
  assert (length l' = length P) as Hlen.
  { rewrite <- (length_fmap ple_dst P). apply Permutation_length, NoDup_Permutation.
    - by destruct Hl' as (_ & _ & ?).
    - apply NoDup_fmap_2_strong; [|done]. intros e e' He He'. by apply E_dst; apply Hsub.
    - intros n. by rewrite Hm', Hd. }
  assert (∀ n m, n ∈ l' → flows m n → mk_edge m n ∈ P) as Hpend.
  { intros n k Hn Hf. apply Hm', Hd, list_elem_of_fmap in Hn as (e & -> & He).
    assert (e = mk_edge k (ple_dst e)) as <- by (apply E_dst; [by apply Hsub|done|done]). done. }
  destruct (lift_cycles_spec (S (size (pl_nodes st'))) vs st' m l') as (vs' & m' & Hc & Hx & Henv);
    [done|done| |by apply le_n_S, pl_list_size| | |].
  - split.
    + intros n Hn. apply Hm', Hd, list_elem_of_fmap in Hn as (e & -> & He). exists (ple_src e).
      split; [by apply flows_edge, Hsub|]. apply Hm'. exists e. tauto.
    + intros n n' k Hn Hn' Hf Hf'. pose proof (Hpend _ _ Hn Hf) as Hp.
      pose proof (Hpend _ _ Hn' Hf') as Hp'.
      apply list_elem_of_lookup in Hp as [i Hp], Hp' as [j Hp'].
      assert (i = j) as ->; [|congruence]. eapply NoDup_lookup; [exact Hs| |];
        rewrite list_lookup_fmap; [by rewrite Hp|by rewrite Hp'].
  - destruct Hroom. split; [done|]. rewrite Hlen.
    assert (length P ≤ length edges)%nat; [|unfold edges in *; lia].
    apply submseteq_length, NoDup_submseteq; [done|]. intros e He. by apply HE, Hsub.
  - intros n Hn. apply Hm', Hd, list_elem_of_fmap in Hn as (e & -> & He). by apply Hlt, Hsub.
  - exists vs', m'. split_and!; [done|done|done|]. intros A env.
    destruct (Henv A env) as [Ha Hb]. split.
    + intros e He. destruct (decide (e ∈ P)) as [HeP|HeP].
      * rewrite (Ha (ple_dst e) (ple_src e));
          [|apply Hm'; exists e; tauto|by apply flows_edge].
        apply Lb. intros e' He' Hn Hds. by apply Hn, (Lc e).
      * rewrite Hb; [by apply La| |by apply Hlt]. rewrite Hm', Hd.
        intros (e' & Hee & He')%list_elem_of_fmap. apply HeP.
        by rewrite (E_dst e e' He (Hsub _ He') Hee).
    + intros v Hv Hvlt. rewrite Hb; [|rewrite Hm', Hd|done].
      * apply Lb. intros e He _. by apply Hv.
      * intros (e & -> & He)%list_elem_of_fmap. by apply (Hv e (Hsub _ He)).
Qed.
End one_edge.

(** ** An edge of the control flow graph *)

(** The pairs of the PHIs are one assignment each, of values the table has,
    and either they can be ordered, or each value that is both read and
    written is on a cycle. *)
Record phis_ok (vs : value_state) (pairs : list move) : Prop := {
  po_nodup : NoDup (map (λ m, vt_value m.1) pairs);
  po_room : vs_room vs (length pairs);
  po_known : ∀ m, m ∈ pairs → vt_value m.1 < Z.of_nat (vs_next vs);
  po_order : acyclic (pair_edges pairs) ∨ cyclic (pair_edges pairs);
}.

Lemma pair_inj pairs (m m' : move) :
  NoDup (map (λ m : move, vt_value m.1) pairs) →
  m ∈ pairs → m' ∈ pairs → vt_value m.1 = vt_value m'.1 → m = m'.
Proof.
  intros Hnd [i Hi]%list_elem_of_lookup [j Hj]%list_elem_of_lookup E.
  assert (i = j) as ->; [|congruence].
  eapply NoDup_lookup; [exact Hnd| |]; rewrite list_lookup_fmap; [by rewrite Hi|].
  by rewrite Hj, E.
Qed.

Lemma pair_edges_dst pairs e e' :
  NoDup (map (λ m : move, vt_value m.1) pairs) →
  e ∈ pair_edges pairs → e' ∈ pair_edges pairs → ple_dst e = ple_dst e' → e = e'.
Proof.
  intros Hnd (t & f & Hin & _ & ->)%elem_of_pair_edges (t' & f' & Hin' & _ & ->)%elem_of_pair_edges.
  cbn [ple_dst]. intros E. by injection (pair_inj _ (t, f) (t', f') Hnd Hin Hin' E) as -> ->.
Qed.

Lemma pair_edges_self pairs e : e ∈ pair_edges pairs → ple_src e ≠ ple_dst e.
Proof. intros (t & f & _ & Hne & ->)%elem_of_pair_edges. by apply not_eq_sym. Qed.

Lemma pair_edges_nodup pairs :
  NoDup (map (λ m : move, vt_value m.1) pairs) →
  NoDup (pair_edges pairs) ∧ (length (pair_edges pairs) ≤ length pairs)%nat.
Proof.
  unfold pair_edges. rewrite length_map. intros H. split; [|apply length_filter].
  eapply (NoDup_fmap_1 ple_dst). rewrite map_map.
  induction pairs as [|[t f] pairs IH]; [apply NoDup_nil_2|].
  cbn [map] in H. apply list.NoDup_cons in H as [Ht H]. rewrite filter_cons. cbn [fst snd].
  case_decide; [|by apply IH]. cbn [map]. apply list.NoDup_cons. split; [|by apply IH].
  intros ([t' f'] & E & [_ Hin]%list_elem_of_filter)%list_elem_of_fmap. cbn in E. apply Ht.
  cbn [fst]. rewrite E. apply list_elem_of_fmap. by exists (t', f').
Qed.

(** The moves act as one parallel assignment. *)
Lemma phi_moves_spec vs pairs :
  phis_ok vs pairs →
  ∃ vs' moves, phi_moves vs pairs = Ok (vs', moves) ∧ vs_extends vs vs' ∧
    ∀ A (env : Z → A),
      (∀ to from, (to, from) ∈ pairs → run_moves moves env (vt_value to) = env (vt_value from)) ∧
      (∀ v, v < Z.of_nat (vs_next vs) → (∀ m, m ∈ pairs → vt_value m.1 ≠ v) →
         run_moves moves env v = env v).
Proof.
  intros [Hnd Hroom Hknown Hord]. unfold phi_moves.
  destruct (build_spec pairs pl_empty []) as (st & l & -> & He & Hg & Hl); [| |done| |].
  { split; [by split_and!; [|..|apply NoDup_nil_2]| | |].
    - intros n. split; [by intros [c Hc]|by intros ?%not_elem_of_nil].
    - by intros n s d t Hn.
    - by intros e ?%not_elem_of_nil. }
  { intros n. split; [by intros ?%not_elem_of_nil|by intros (e & ?%not_elem_of_nil & _)]. }
  { by intros e m ?%not_elem_of_nil. }
  rok. simpl in He. rewrite app_nil_r in He. destruct (pair_edges_nodup pairs Hnd) as [Hnde Hlen].
  assert (∀ to from, (to, from) ∈ pairs →
    vt_value to = vt_value from ∨ mk_edge (vt_value from) (vt_value to) ∈ pair_edges pairs) as Hin.
  { intros to from Hm. destruct (decide (vt_value to = vt_value from)); [by left|right].
    apply elem_of_pair_edges. eauto. }
  destruct (pl_edges st) as [|e0 es] eqn:Ee.
  { assert (pair_edges pairs = []) as Hnil
      by (apply length_zero_iff_nil; rewrite <- length_reverse, <- He; done).
    exists vs, []. split_and!; [done|by split|]. intros A env. split; [|done].
    intros to from [->|Hm]%Hin; [done|]. rewrite Hnil in Hm. by apply not_elem_of_nil in Hm. }
  rewrite <- Ee in He, Hg, Hl |- *.
  destruct (lift_all_spec (pair_edges pairs) (pair_edges_self pairs) (λ e e', pair_edges_dst pairs e e' Hnd)
    vs st l) as (st' & m & vs' & m' & -> & Hc & Hx & Henv); try done.
  { intros e. by rewrite He, elem_of_reverse. }
  { by rewrite He, reverse_Permutation. }
  { destruct Hroom. split; [done|]. rewrite He, length_reverse. lia. }
  { intros e (t & f & Hm & _ & ->)%elem_of_pair_edges. by apply (Hknown (t, f)). }
  rok. exists vs', m'. split_and!; [done|done|]. intros A env. destruct (Henv A env) as [Ha Hb].
  split.
  - intros to from Hm. destruct (Hin _ _ Hm) as [E|Hm']; [|by apply (Ha _ Hm')].
    rewrite <- E. apply Hb; [|by apply (Hknown _ Hm)].
    intros e (t & f & Hm' & Hne & ->)%elem_of_pair_edges Et. cbn in Et.
    injection (pair_inj _ (t, f) (to, from) Hnd Hm' Hm Et) as -> ->. done.
  - intros v Hv Hn. apply Hb; [|done].
    intros e (t & f & Hm & _ & ->)%elem_of_pair_edges. by apply (Hn (t, f)).
Qed.

(** C14: leaving SSA on an edge is a parallel assignment. For PHIs that write
    different values of the table, and whose copies can be ordered or in which
    every value both read and written is on a cycle, [exit_ssa_edge] returns,
    puts moves before the last instruction of the predecessor and changes
    nothing else; running the moves gives each PHI the value its operand had
    before, and the other values of the table stay. *)
Theorem exit_ssa_edge_correct vs bb prebb :
  let pairs := phi_pairs (ib_id prebb) (ib_instrs bb) in
  phis_ok vs pairs → ib_instrs prebb ≠ [] →
  ∃ vs' moves before last,
    exit_ssa_edge vs bb prebb =
      Ok (vs', mk_bb (ib_id prebb)
                 (before ++ map (λ '(to, from), insert_move to from) moves ++ [last])) ∧
    ib_instrs prebb = before ++ [last] ∧ vs_extends vs vs' ∧
    ∀ A (env : Z → A),
      (∀ to from, (to, from) ∈ pairs → run_moves moves env (vt_value to) = env (vt_value from)) ∧
      (∀ v, v < Z.of_nat (vs_next vs) → (∀ m, m ∈ pairs → vt_value m.1 ≠ v) →
         run_moves moves env v = env v).
Proof.
  intros pairs Hok Hne. destruct (phi_moves_spec vs pairs Hok) as (vs' & moves & Hr & Hx & Henv).
  destruct (exists_last Hne) as (before & last & Hp).
  exists vs', moves, before, last. split; [|done]. unfold exit_ssa_edge. fold pairs.
  rewrite Hr. rok. unfold insert_before_last. rewrite Hp.
  destruct (map _ moves) as [|i is']; [done|]. rewrite length_app, Nat.add_1_r. cbn [pred].
  rewrite list_lookup_middle by done. rok. by rewrite take_app_length.
Qed.

(** Two cycles, chains that hang on them and a copy of its own. *)
Definition example_vs (n : nat) : value_state :=
  mk_vs (replicate n (Some blank_value)) n (mk_types [] false None).
Definition example_phi (m : Z * Z) : ir_instr :=
  IR_IC_PHI [mk_phi 7 (mk_vt 0 0); mk_phi 1 (mk_vt m.2 0)] (mk_ret (mk_vt m.1 0) []).

Definition example_bb (pairs : list (Z * Z)) : ir_bb :=
  mk_bb 2 (map example_phi pairs ++ [IR_IC_UNREACHABLE]).
Definition example_prebb : ir_bb := mk_bb 1 [IR_IC_BR (mk_vt (-1) 0) 2 2].
Definition example_cycles : list (Z * Z) := [(1, 2); (2, 3); (3, 1); (4, 2); (6, 7); (7, 6)].
Definition example_edges : list phi_lift_edge :=
  [mk_edge 2 1; mk_edge 3 2; mk_edge 1 3; mk_edge 2 4; mk_edge 7 6; mk_edge 6 7].

Lemma example_cyclic : cyclic example_edges.
Proof.
  assert (∀ a b, bool_decide (mk_edge a b ∈ example_edges) = true → flows example_edges a b) as Hf
    by (intros a b H; by apply bool_decide_eq_true in H).
  assert (∀ e, e ∈ example_edges → e.(ple_src) ≠ 4 → tc (flows example_edges) (ple_src e) (ple_src e)) as Hc.
  { intros e He Hne. unfold example_edges in He.
    repeat (apply elem_of_cons in He as [->|He]; [cbn [ple_src]|]); [..|by apply not_elem_of_nil in He].
    - apply (tc_l _ _ 1), (tc_l _ _ 3), tc_once; by apply Hf.
    - apply (tc_l _ _ 2), (tc_l _ _ 1), tc_once; by apply Hf.
    - apply (tc_l _ _ 3), (tc_l _ _ 2), tc_once; by apply Hf.
    - apply (tc_l _ _ 1), (tc_l _ _ 3), tc_once; by apply Hf.
    - apply (tc_l _ _ 6), tc_once; by apply Hf.
    - apply (tc_l _ _ 7), tc_once; by apply Hf. }
  intros e e' _ He' _. apply Hc; [done|].
  unfold example_edges in He'. set_solver.
Qed.

Lemma exit_ssa_edge_correct_witness :
  ∃ vs' moves before last,
    exit_ssa_edge (example_vs 9) (example_bb example_cycles) example_prebb =
      Ok (vs', mk_bb 1 (before ++ map (λ '(to, from), insert_move to from) moves ++ [last])) ∧
    run_moves moves id 1 = 2 ∧ run_moves moves id 2 = 3 ∧ run_moves moves id 3 = 1 ∧
    run_moves moves id 4 = 2 ∧ run_moves moves id 6 = 7 ∧ run_moves moves id 8 = 8.
Proof.
  destruct (exit_ssa_edge_correct (example_vs 9) (example_bb example_cycles) example_prebb)
    as (vs' & moves & before & last & H1 & _ & _ & H3); [split| |].
  - apply (bool_decide_eq_true_1 (NoDup [1; 2; 3; 4; 6; 7])). reflexivity.
  - split; vm_compute; [lia|done].
  - apply list.Forall_forall. repeat (constructor; [done|]). constructor.
  - right. apply example_cyclic.
  - done.
  - exists vs', moves, before, last. destruct (H3 Z id) as [Ha Hb].
    assert (∀ a b, bool_decide ((a, b) ∈ example_cycles) = true → run_moves moves id a = b) as Hrun.
    { intros a b H. apply bool_decide_eq_true in H. apply (Ha (mk_vt a 0) (mk_vt b 0)).
      apply (list_elem_of_fmap_2 (λ m, (mk_vt m.1 0, mk_vt m.2 0)) _ _ H). }
    split; [exact H1|]. repeat split; [apply Hrun; reflexivity..|].
    apply (Hb 8); [done|]. apply list.Forall_forall. repeat (constructor; [done|]). constructor.
Defined.

(** C34: a value that is a destination and whose last use as a source is moved
    while it still waits for its own move leaves the node list twice; the
    second time brings back a node that left in between. When a cycle is left
    the second loop starts from that node, and [exit_ssa_edge] reads the NULL
    [pln_dst] of a value that is no destination. The PHIs are those of valid
    SSA: they write different values. *)
Theorem exit_ssa_edge_stale_node :
  let phis := [(10, 11); (1, 2); (2, 3); (4, 5); (5, 4)] in
  NoDup (map fst phis) ∧
  exit_ssa_edge (example_vs 20) (example_bb phis) example_prebb = Fail Undef ∧
  ∃ vs' bb', exit_ssa_edge (example_vs 20) (example_bb (tail phis)) example_prebb = Ok (vs', bb').
Proof.
  split; [apply (bool_decide_eq_true_1 (NoDup [10; 1; 2; 4; 5])); reflexivity|].
  split; [by vm_compute|]. eexists _, _. vm_compute. reflexivity.
Qed.
