(* ===== verification/Cfg.v ===== *)
(** The control flow graph of a function: [construct_cfg],
    [break_crtitical_edges], [bb_change_branch] and [remove_empty_bb] of
    [src/src/vmir_transform.c]. An edge is the pair
    (from, to) of block numbers; the list of edges is [if_edges]. *)
From S2P Require Import Prelude Types Values Instr.
Local Open Scope Z_scope.

Notation edge := (Z * Z)%type.

(** The last instruction of a block; reading it in an empty block is the NULL
    pointer. *)
Definition bb_last (bb : ir_bb) : res ir_instr :=
  oget (ib_instrs bb !! pred (length (ib_instrs bb))) Undef.

Definition set_last (bb : ir_bb) (i : ir_instr) : ir_bb :=
  mk_bb (ib_id bb) (<[pred (length (ib_instrs bb)) := i]> (ib_instrs bb)).

(** Writes the block [bb] back. *)
Definition bb_write (bbs : list ir_bb) (bb : ir_bb) : list ir_bb :=
  map (λ b, if ib_id b =? ib_id bb then bb else b) bbs.

(** The blocks a last instruction leads to, in the order [construct_cfg] adds
    them. *)
Definition branch_blocks (i : ir_instr) : res (list Z) :=
  match i with
  | IR_IC_BR c t f => Ok (if vt_value c =? -1 then [t] else [t; f])
  | IR_IC_SWITCH _ d paths => Ok (d :: map pa_block paths)
  | IR_IC_INVOKE c _ => Ok [ca_normal_dest c; ca_unwind_dest c]
  | IR_IC_RET _ | IR_IC_UNREACHABLE | IR_IC_RESUME _ => Ok []
  | _ => Fail Aborted
  end.

(** [cfg_add_edge]: with [mark], only when the block is not marked yet; the
    marks of the blocks are the second component. *)
Definition cfg_add_edge (bbs : list ir_bb) (from : Z) (s : list edge * list Z) (bb : Z)
    : res (list edge * list Z) :=
  let '(edges, marks) := s in
  to ← oget (bb_find bbs bb) Undef;
  if bool_decide (ib_id to ∈ marks) then Ok s
  else Ok ((from, ib_id to) :: edges, ib_id to :: marks).

(** The edges of one block; [unmark_outgoing_blocks] clears the marks. *)
Definition cfg_block (bbs : list ir_bb) (edges : list edge) (bb : ir_bb) : res (list edge) :=
  i ← bb_last bb;
  targets ← branch_blocks i;
  '(edges, _) ← foldR (cfg_add_edge bbs (ib_id bb)) (edges, []) targets;
  Ok edges.

Definition construct_cfg (bbs : list ir_bb) : res (list edge) := foldR (cfg_block bbs) [] bbs.

(** ** Changing branches *)

Definition retarget (to nb b : Z) : Z := if b =? to then nb else b.

Definition change_branch (to nb : Z) (i : ir_instr) : res ir_instr :=
  let r := retarget to nb in
  match i with
  | IR_IC_BR c t f => Ok (IR_IC_BR c (r t) (if vt_value c =? -1 then f else r f))
  | IR_IC_CMP_BRANCH op l rhs t f => Ok (IR_IC_CMP_BRANCH op l rhs (r t) (r f))
  | IR_IC_SWITCH v d paths =>
      Ok (IR_IC_SWITCH v (r d) (map (λ p, mk_path (pa_v64 p) (r (pa_block p))) paths))
  | IR_IC_INVOKE c d =>
      Ok (IR_IC_INVOKE (mk_call (ca_callee c) (ca_vmop c) (r (ca_normal_dest c))
                          (r (ca_unwind_dest c)) (ca_argv c) (ca_copy_sizes c)) d)
  | IR_IC_RET _ => Ok i
  | _ => Fail Aborted
  end.

Definition bb_change_branch (bbs : list ir_bb) (from to nb : Z) : res (list ir_bb) :=
  bb ← oget (bb_find bbs from) Undef;
  i ← bb_last bb;
  i ← change_branch to nb i;
  Ok (bb_write bbs (set_last bb i)).

(** ** Critical edges *)

(** Number and blocks of a function: [if_num_bbs] and [if_bbs]. *)
Definition phi_repredecessor (from nb : Z) (i : ir_instr) : ir_instr :=
  match i with
  | IR_IC_PHI nodes d =>
      IR_IC_PHI (map (λ n, mk_phi (retarget from nb (phi_predecessor n)) (phi_value n)) nodes) d
  | _ => i
  end.

Fixpoint phis_repredecessor (from nb : Z) (l : list ir_instr) : list ir_instr :=
  match l with
  | (IR_IC_PHI _ _ as i) :: l => phi_repredecessor from nb i :: phis_repredecessor from nb l
  | _ => l
  end.

Fixpoint insert_block (before : Z) (new : ir_bb) (bbs : list ir_bb) : list ir_bb :=
  match bbs with
  | [] => []
  | b :: bbs => if ib_id b =? before then new :: b :: bbs else b :: insert_block before new bbs
  end.

(** [break_critical_edge] for the [k]-th edge of the list, in a state of
    blocks, edges and [if_num_bbs]. *)
Definition break_critical_edge (s : list ir_bb * list edge * Z) (k : nat)
    : res (list ir_bb * list edge * Z) :=
  let '(bbs, edges, num_bbs) := s in
  '(from, to) ← oget (edges !! k) Undef;
  let nb := num_bbs in
  let bbs := insert_block to (mk_bb nb [IR_IC_BR (mk_vt (-1) 0) to 0]) bbs in
  let edges := (nb, to) :: <[k := (from, nb)]> edges in
  bbs ← bb_change_branch bbs from to nb;
  tobb ← oget (bb_find bbs to) Undef;
  Ok (bb_write bbs (mk_bb to (phis_repredecessor from nb (ib_instrs tobb))), edges, num_bbs + 1).

(** One edge of the loop of [break_crtitical_edges]. New edges are put before
    the others, so the [i]-th edge of the list at the start has [i] and the
    number of new edges as its place. *)
Definition critical_step (s : list ir_bb * list edge * Z * nat) (i : nat)
    : res (list ir_bb * list edge * Z * nat) :=
  let '(bbs, edges, num_bbs, new) := s in
  let k := (i + new)%nat in
  '(from, to) ← oget (edges !! k) Undef;
  tobb ← oget (bb_find bbs to) Undef;
  first ← oget (head (ib_instrs tobb)) Undef;
  match first with
  | IR_IC_PHI _ _ =>
      if bool_decide (2 <= length (filter (λ e, e.1 = from) edges))%nat then
        '(bbs, edges, num_bbs) ← break_critical_edge (bbs, edges, num_bbs) k;
        Ok (bbs, edges, num_bbs, S new)
      else Ok s
  | _ => Ok s
  end.

Definition break_critical_edges (bbs : list ir_bb) (edges : list edge) (num_bbs : Z)
    : res (list ir_bb * list edge * Z) :=
  '(bbs, edges, num_bbs, _) ←
    foldR critical_step (bbs, edges, num_bbs, 0%nat) (seq 0 (length edges));
  Ok (bbs, edges, num_bbs).

(** ** Removing blocks *)

(** [bb_destroy]. *)
Definition bb_destroy (bbs : list ir_bb) (edges : list edge) (id : Z) : list ir_bb * list edge :=
  (filter (λ b, ib_id b ≠ id) bbs, filter (λ e, e.1 ≠ id ∧ e.2 ≠ id) edges).

(** One block of [remove_empty_bb]. *)
Definition remove_empty (s : list ir_bb * list edge) (id : Z) : res (list ir_bb * list edge) :=
  let '(bbs, edges) := s in
  ib ← oget (bb_find bbs id) Undef;
  first ← oget (head (ib_instrs ib)) Undef;
  match first with
  | IR_IC_BR c t _ =>
      if negb (vt_value c =? -1) then Ok s else
      nb ← oget (bb_find bbs t) AssertFail;
      if ib_id nb =? id then Ok s else
      bbs ← foldR (λ bbs e, bb_change_branch bbs e.1 id (ib_id nb)) bbs
              (filter (λ e, e.2 = id) edges);
      let edges := map (λ e, (e.1, retarget id (ib_id nb) e.2)) edges in
      Ok (bb_destroy bbs edges id)
  | _ => Ok s
  end.

Definition remove_empty_bb (bbs : list ir_bb) (edges : list edge) : res (list ir_bb * list edge) :=
  foldR remove_empty (bbs, edges) (map ib_id bbs).

(** ** What the blocks mean *)

(** The blocks an instruction at the end of a block leads to. *)
Definition targets (i : ir_instr) : list Z :=
  match i with
  | IR_IC_BR c t f => if vt_value c =? -1 then [t] else [t; f]
  | IR_IC_CMP_BRANCH _ _ _ t f => [t; f]
  | IR_IC_SWITCH _ d paths => d :: map pa_block paths
  | IR_IC_INVOKE c _ => [ca_normal_dest c; ca_unwind_dest c]
  | _ => []
  end.

Definition changeable (i : ir_instr) : bool :=
  match i with
  | IR_IC_BR _ _ _ | IR_IC_CMP_BRANCH _ _ _ _ _ | IR_IC_SWITCH _ _ _ | IR_IC_INVOKE _ _
  | IR_IC_RET _ => true
  | _ => false
  end.

(** An instruction with its blocks renamed. *)
Definition redirect_instr (r : Z → Z) (i : ir_instr) : ir_instr :=
  match i with
  | IR_IC_BR c t f => IR_IC_BR c (r t) (if vt_value c =? -1 then f else r f)
  | IR_IC_CMP_BRANCH op l rhs t f => IR_IC_CMP_BRANCH op l rhs (r t) (r f)
  | IR_IC_SWITCH v d paths =>
      IR_IC_SWITCH v (r d) (map (λ p, mk_path (pa_v64 p) (r (pa_block p))) paths)
  | IR_IC_INVOKE c d =>
      IR_IC_INVOKE (mk_call (ca_callee c) (ca_vmop c) (r (ca_normal_dest c))
                      (r (ca_unwind_dest c)) (ca_argv c) (ca_copy_sizes c)) d
  | _ => i
  end.

(** The last instruction of a block renamed. *)
Definition redirect (r : Z → Z) (bb : ir_bb) : ir_bb :=
  mk_bb (ib_id bb) (alter (redirect_instr r) (pred (length (ib_instrs bb))) (ib_instrs bb)).

(** Blocks and edges that belong together: each block ends in an instruction
    whose blocks it has edges to; an edge joins two blocks and starts at one
    whose last instruction can be changed; a branch without condition is alone
    where it comes first. *)
Record cfg_ok (bbs : list ir_bb) (edges : list edge) : Prop := {
  cf_nodup : NoDup (map ib_id bbs);
  cf_block : ∀ id bb, bb_find bbs id = Some bb →
    ∃ i, bb_last bb = Ok i ∧ ∀ t, t ∈ targets i → (id, t) ∈ edges;
  cf_edge : ∀ a b, (a, b) ∈ edges →
    (∃ ba i, bb_find bbs a = Some ba ∧ bb_last ba = Ok i ∧ changeable i = true) ∧
    is_Some (bb_find bbs b);
  cf_br : ∀ id bb c t f, bb_find bbs id = Some bb → head (ib_instrs bb) = Some (IR_IC_BR c t f) →
    vt_value c = -1 → ib_instrs bb = [IR_IC_BR c t f];
}.

(** From block [id] of [bbs] the branches through blocks that [bbs'] does not
    have come to one that it has. *)
Inductive lands (r : Z → Z) (bbs bbs' : list ir_bb) : Z → Prop :=
  | lands_here id : is_Some (bb_find bbs id) → is_Some (bb_find bbs' id) → r id = id →
      lands r bbs bbs' id
  | lands_skip id bb c t f : bb_find bbs id = Some bb → bb_find bbs' id = None →
      ib_instrs bb = [IR_IC_BR c t f] → vt_value c = -1 → r id = r t → lands r bbs bbs' t →
      lands r bbs bbs' id.

(** [bbs'] is [bbs] without some blocks that only branch, [r] taking each
    block to the one that is left of it. *)
Definition shortcut (r : Z → Z) (bbs bbs' : list ir_bb) : Prop :=
  (∀ id bb, bb_find bbs id = Some bb →
     (bb_find bbs' id = Some (redirect r bb) ∧ r id = id) ∨
     (bb_find bbs' id = None ∧ ∃ c t f, ib_instrs bb = [IR_IC_BR c t f] ∧ vt_value c = -1 ∧
        r id = r t)) ∧
  (∀ id, bb_find bbs id = None → bb_find bbs' id = None) ∧
  map ib_id bbs' `sublist_of` map ib_id bbs ∧
  (∀ id, is_Some (bb_find bbs id) → lands r bbs bbs' id).

(** ** Lemmas on blocks *)

Lemma bb_find_cons b bbs id :
  bb_find (b :: bbs) id = if decide (ib_id b = id) then Some b else bb_find bbs id.
Proof.
  unfold bb_find. cbn [list_find]. case_decide; [done|].
  by destruct (list_find _ bbs) as [[? ?]|].
Qed.

Lemma bb_find_Some bbs id bb : bb_find bbs id = Some bb → ib_id bb = id ∧ bb ∈ bbs.
Proof.
  induction bbs as [|b bbs IH]; [done|]. rewrite bb_find_cons. case_decide.
  - intros [= <-]. split; [done|]. apply elem_of_cons. by left.
  - intros H'. destruct (IH H'). split; [done|]. apply elem_of_cons. by right.
Qed.

Lemma bb_find_elem bbs bb :
  NoDup (map ib_id bbs) → bb ∈ bbs → bb_find bbs (ib_id bb) = Some bb.
Proof.
  induction bbs as [|b bbs IH]; [by intros _ ?%not_elem_of_nil|]. rewrite bb_find_cons.
  cbn [map]. intros [Hn Hnd]%list.NoDup_cons [->|Hin]%elem_of_cons; [by rewrite decide_True|].
  rewrite decide_False; [by apply IH|]. intros E. apply Hn. rewrite E.
  apply list_elem_of_fmap. by exists bb.
Qed.

Lemma bb_find_is_id bbs id : is_Some (bb_find bbs id) ↔ id ∈ map ib_id bbs.
Proof.
  induction bbs as [|b bbs IH]; [split; [by intros []|by intros ?%not_elem_of_nil]|].
  rewrite bb_find_cons. cbn [map]. rewrite elem_of_cons, <- IH. case_decide; naive_solver.
Qed.

Lemma bb_find_map (f : ir_bb → ir_bb) bbs id :
  (∀ b, ib_id (f b) = ib_id b) → bb_find (map f bbs) id = f <$> bb_find bbs id.
Proof.
  intros Hf. induction bbs as [|b bbs IH]; [done|]. cbn [map]. rewrite !bb_find_cons, Hf, IH.
  by case_decide.
Qed.

Lemma bb_find_filter bbs id x :
  bb_find (filter (λ b, ib_id b ≠ id) bbs) x = if decide (x = id) then None else bb_find bbs x.
Proof.
  induction bbs as [|b bbs IH]; [by case_decide|]. rewrite filter_cons.
  destruct (decide (ib_id b ≠ id)) as [H|H%dec_stable]; rewrite ?bb_find_cons, IH;
    repeat case_decide; congruence.
Qed.

Lemma bb_last_alter (f : ir_instr → ir_instr) bb i :
  bb_last bb = Ok i →
  bb_last (mk_bb (ib_id bb) (alter f (pred (length (ib_instrs bb))) (ib_instrs bb))) = Ok (f i).
Proof.
  unfold bb_last. cbn [ib_instrs]. intros H. apply oget_Ok in H.
  by rewrite length_alter, list_lookup_alter_eq, H.
Qed.

Lemma targets_redirect r i : targets (redirect_instr r i) = map r (targets i).
Proof.
  destruct i; cbn; try done; [by destruct (vt_value condition =? -1)|].
  by rewrite !map_map.
Qed.

Lemma changeable_redirect r i : changeable (redirect_instr r i) = changeable i.
Proof. by destruct i. Qed.

Lemma change_branch_redirect to nb i :
  changeable i = true → change_branch to nb i = Ok (redirect_instr (retarget to nb) i).
Proof. by destruct i. Qed.

Lemma redirect_instr_compose r r' i :
  redirect_instr r' (redirect_instr r i) = redirect_instr (r' ∘ r) i.
Proof.
  destruct i; cbn; try done; [by destruct (vt_value condition =? -1)|].
  by rewrite map_map.
Qed.

Lemma alter_alter {A} (f g h : A → A) k (l : list A) :
  (∀ x, f (g x) = h x) → alter f k (alter g k l) = alter h k l.
Proof.
  intros H. revert k; induction l as [|x l IH]; intros [|k]; [done..| |].
  - change (f (g x) :: l = h x :: l). by rewrite H.
  - change (x :: alter f k (alter g k l) = x :: alter h k l). by rewrite IH.
Qed.

Lemma redirect_compose r r' bb : redirect r' (redirect r bb) = redirect (r' ∘ r) bb.
Proof.
  unfold redirect. cbn [ib_id ib_instrs]. rewrite length_alter. f_equal.
  apply alter_alter, redirect_instr_compose.
Qed.

Lemma redirect_instr_id r i : (∀ t, t ∈ targets i → r t = t) → redirect_instr r i = i.
Proof.
  intros H. destruct i; cbn in *; try done.
  - by destruct (vt_value condition =? -1); rewrite !H by set_solver.
  - destruct c; cbn in *. rewrite !H by set_solver. done.
  - rewrite H by set_solver. f_equal.
    assert (∀ p, p ∈ paths → r (pa_block p) = pa_block p) as Hp.
    { intros p Hp. apply H, elem_of_cons. right. apply list_elem_of_fmap. by exists p. }
    clear H. induction paths as [|p paths IH]; [done|]. cbn [map].
    rewrite IH by (intros; apply Hp, elem_of_cons; by right).
    rewrite Hp by (apply elem_of_cons; by left). by destruct p.
  - rewrite !H by set_solver. done.
Qed.

(** ** [remove_empty_bb] *)

Lemma retarget_idem to nb x : nb ≠ to → retarget to nb (retarget to nb x) = retarget to nb x.
Proof.
  intros H. unfold retarget. destruct (Z.eqb_spec x to); [by rewrite (proj2 (Z.eqb_neq _ _))|].
  by rewrite (proj2 (Z.eqb_neq _ _)).
Qed.

Lemma redirect_id_of r bb : ib_id (redirect r bb) = ib_id bb.
Proof. done. Qed.

Lemma redirect_last r bb i : bb_last bb = Ok i → bb_last (redirect r bb) = Ok (redirect_instr r i).
Proof. apply bb_last_alter. Qed.

Lemma redirect_same r bb i :
  bb_last bb = Ok i → (∀ t, t ∈ targets i → r t = t) → redirect r bb = bb.
Proof.
  intros Hl Ht. unfold redirect, bb_last in *. apply oget_Ok in Hl. destruct bb as [id l].
  cbn [ib_id ib_instrs] in *. f_equal. apply list_eq. intros j.
  destruct (decide (j = pred (length l))) as [->|].
  - rewrite list_lookup_alter_eq, Hl. cbn. by rewrite redirect_instr_id.
  - by rewrite list_lookup_alter_ne.
Qed.

(** Changing the branches of some blocks. *)
Lemma change_branches id nb (es : list edge) bbs :
  nb ≠ id →
  (∀ e, e ∈ es → ∃ ba i, bb_find bbs e.1 = Some ba ∧ bb_last ba = Ok i ∧ changeable i = true) →
  ∃ bbs', foldR (λ bbs e, bb_change_branch bbs e.1 id nb) bbs es = Ok bbs' ∧
    map ib_id bbs' = map ib_id bbs ∧
    ∀ x, bb_find bbs' x =
      (if decide (x ∈ map fst es) then redirect (retarget id nb) else λ b, b) <$> bb_find bbs x.
Proof.
  intros Hne. set (r := retarget id nb). revert bbs; induction es as [|[a b] es IH]; intros bbs Hes.
  { exists bbs. split_and!; [done|done|]. intros x. cbn [map]. rewrite decide_False by set_solver.
    by destruct (bb_find bbs x). }
  destruct (Hes (a, b)) as (ba & i & Hba & Hi & Hch); [apply elem_of_cons; by left|]. cbn [fst] in Hba.
  pose proof (bb_find_Some _ _ _ Hba) as [Hida _].
  set (bbs1 := bb_write bbs (redirect r ba)).
  assert (∀ x, bb_find bbs1 x = (if decide (x = a) then redirect r else λ b, b) <$> bb_find bbs x) as H1.
  { intros x. unfold bbs1, bb_write. rewrite bb_find_map.
    - destruct (bb_find bbs x) as [bx|] eqn:Ex; cbn; [|done].
      pose proof (bb_find_Some _ _ _ Ex) as [Hidx _]. rewrite ?redirect_id_of, Hida, Hidx.
      destruct (Z.eqb_spec x a) as [->|]; [rewrite decide_True by done|by rewrite decide_False].
      rewrite Hba in Ex. by injection Ex as ->.
    - intros y. rewrite ?redirect_id_of. destruct (Z.eqb_spec (ib_id y) (ib_id ba)) as [->|]; done. }
  assert (bb_change_branch bbs a id nb = Ok bbs1) as Hc.
  { unfold bb_change_branch. rewrite Hba. rok. rewrite Hi. rok.
    rewrite change_branch_redirect by done. rok. do 2 f_equal. unfold set_last, redirect. f_equal.
    apply list_eq. intros j. unfold bb_last in Hi. apply oget_Ok in Hi.
    destruct (decide (j = pred (length (ib_instrs ba)))) as [->|].
    - rewrite list_lookup_insert_eq by (by eapply lookup_lt_Some). by rewrite list_lookup_alter_eq, Hi.
    - by rewrite list_lookup_insert_ne, list_lookup_alter_ne. }
  destruct (IH bbs1) as (bbs' & Hr & Hids & Hf).
  { intros e He. destruct (Hes e) as (be & ie & Hbe & Hie & Hce); [apply elem_of_cons; by right|].
    rewrite H1, Hbe. case_decide; [|by exists be, ie]. exists (redirect r be), (redirect_instr r ie).
    split_and!; [done|by apply redirect_last|by rewrite changeable_redirect]. }
  exists bbs'. cbn [foldR fst]. rewrite Hc. split_and!; [exact Hr| |].
  - rewrite Hids. unfold bbs1, bb_write. rewrite map_map. apply map_ext. intros y.
    rewrite ?redirect_id_of. destruct (Z.eqb_spec (ib_id y) (ib_id ba)) as [->|]; done.
  - intros x. rewrite Hf, H1. destruct (bb_find bbs x) as [bx|]; [|done]. cbn. f_equal.
    assert (redirect r (redirect r bx) = redirect r bx) as Hidem.
    { unfold redirect. cbn [ib_id ib_instrs]. rewrite length_alter. f_equal.
      apply alter_alter. intros y. rewrite redirect_instr_compose.
      destruct y; cbn; unfold r; rewrite ?retarget_idem by done; try done.
      f_equal. apply map_ext. intros p. by rewrite retarget_idem. }
    repeat case_decide; set_solver.
Qed.

Lemma cfg_head bbs edges id bb :
  cfg_ok bbs edges → bb_find bbs id = Some bb → ∃ i l, ib_instrs bb = i :: l.
Proof.
  intros [_ Hb _ _] Hf. destruct (Hb id bb Hf) as (i & Hi & _). unfold bb_last in Hi.
  destruct (ib_instrs bb) as [|j l]; [done|]. eauto.
Qed.

(** Sending every branch to [id] on to [nb] and dropping [id]. *)
Lemma cfg_drop bbs bbs' edges id nb ib c f :
  cfg_ok bbs edges → bb_find bbs id = Some ib → ib_instrs ib = [IR_IC_BR c nb f] →
  vt_value c = -1 → nb ≠ id → map ib_id bbs' = map ib_id bbs →
  (∀ x, bb_find bbs' x = redirect (retarget id nb) <$> bb_find bbs x) →
  let s := bb_destroy bbs' (map (λ e, (e.1, retarget id nb e.2)) edges) id in
  cfg_ok s.1 s.2 ∧ shortcut (retarget id nb) bbs s.1.
Proof.
  intros [Hnd Hb He Hbr] Hib Hbrn Hc Hne Hids Hf. set (r := retarget id nb) in *.
  assert (∀ x, x ≠ id → r x = x) as Hr by (intros x Hx; unfold r, retarget; by rewrite (proj2 (Z.eqb_neq _ _))).
  assert (r id = nb) as Hrid by (unfold r, retarget; by rewrite Z.eqb_refl).
  assert (∀ x, r x ≠ id) as Hrne by (intros x; destruct (decide (x = id)) as [->|]; [congruence|by rewrite Hr]).
  assert (is_Some (bb_find bbs nb)) as Hnb.
  { destruct (Hb id ib Hib) as (i & Hi & Ht). unfold bb_last in Hi. rewrite Hbrn in Hi.
    injection Hi as <-. cbn [targets] in Ht. rewrite Hc in Ht. simpl in Ht.
    destruct (He id nb) as [_ Hs]; [|exact Hs]. apply Ht. by apply elem_of_cons; left. }
  unfold bb_destroy. cbn [fst snd].
  assert (∀ x, bb_find (filter (λ b, ib_id b ≠ id) bbs') x =
    if decide (x = id) then None else redirect r <$> bb_find bbs x) as Hf'
    by (intros x; by rewrite bb_find_filter, Hf).
  assert (map ib_id (filter (λ b, ib_id b ≠ id) bbs') `sublist_of` map ib_id bbs) as Hsub.
  { rewrite <- Hids. apply fmap_sublist, sublist_filter. }
  split; [split|split_and!].
  - by eapply sublist_NoDup.
  - intros x bb. rewrite Hf'. case_decide as Hx; [done|]. intros H'.
    destruct (bb_find bbs x) as [b0|] eqn:Ex; [|done]. injection H' as <-.
    destruct (Hb x b0 Ex) as (i & Hi & Ht). exists (redirect_instr r i).
    split; [by apply redirect_last|]. intros t. rewrite targets_redirect.
    intros (t0 & -> & Ht0)%list_elem_of_fmap. apply list_elem_of_filter. split; [split; [done|apply Hrne]|].
    apply list_elem_of_fmap. exists (x, t0). split; [done|by apply Ht].
  - intros a b [[Ha Hb'] Hab]%list_elem_of_filter. cbn [fst snd] in *.
    apply list_elem_of_fmap in Hab as ([a0 b0] & [= -> ->] & Hab). cbn [fst snd] in *.
    destruct (He a0 b0 Hab) as ((ba & i & Hba & Hi & Hch) & Hbs). rewrite !Hf'. split.
    + rewrite decide_False by done. exists (redirect r ba), (redirect_instr r i).
      split_and!; [by rewrite Hba|by apply redirect_last|by rewrite changeable_redirect].
    + rewrite decide_False by done. apply fmap_is_Some.
      destruct (decide (b0 = id)) as [->|]; [by rewrite Hrid|by rewrite Hr].
  - intros x bb c' t' f'. rewrite Hf'. case_decide as Hx; [done|]. intros H' Hhd Hc'.
    destruct (bb_find bbs x) as [b0|] eqn:Ex; [|done]. injection H' as <-.
    unfold redirect in *. cbn [ib_instrs] in *. destruct (ib_instrs b0) as [|i0 l0] eqn:El; [done|].
    destruct l0 as [|i1 l1]; [cbn in *; by injection Hhd as ->|].
    cbn in Hhd. injection Hhd as ->.
    pose proof (Hbr x b0 c' t' f' Ex) as H'. rewrite El in H'. by specialize (H' eq_refl Hc').
  - intros x bb Hx. rewrite Hf'. case_decide as E.
    + right. split; [done|]. rewrite E in Hx. rewrite Hib in Hx. injection Hx as <-.
      exists c, nb, f. split_and!; [done|done|]. rewrite E, Hrid. symmetry. by apply Hr.
    + left. rewrite Hx. split; [done|by apply Hr].
  - intros x Hx. rewrite Hf', Hx. by case_decide.
  - done.
  - assert (∀ x, x ≠ id → is_Some (bb_find bbs x) → lands r bbs (filter (λ b, ib_id b ≠ id) bbs') x) as Hl.
    { intros x Hx Hs. apply lands_here; [done| |by apply Hr]. rewrite Hf', decide_False by done.
      by apply fmap_is_Some. }
    intros x Hs. destruct (decide (x = id)) as [->|Hx]; [|by apply Hl].
    apply (lands_skip _ _ _ id ib c nb f); [done|by rewrite Hf', decide_True|done|done| |by apply Hl].
    rewrite Hrid. symmetry. by apply Hr.
Qed.

(** Nothing removed. *)
Lemma shortcut_refl bbs edges : cfg_ok bbs edges → shortcut (λ x, x) bbs bbs.
Proof.
  intros Hcfg. split_and!; [|done|done|intros; by apply lands_here].
  intros x bb Hx. left. split; [|done]. rewrite Hx. f_equal.
  destruct (cf_block _ _ Hcfg x bb Hx) as (i & Hi & _). symmetry. by eapply redirect_same.
Qed.

Lemma remove_empty_spec bbs edges id :
  cfg_ok bbs edges → is_Some (bb_find bbs id) →
  ∃ bbs' edges' r, remove_empty (bbs, edges) id = Ok (bbs', edges') ∧ cfg_ok bbs' edges' ∧
    shortcut r bbs bbs' ∧ (∀ x, x ≠ id → is_Some (bb_find bbs x) → is_Some (bb_find bbs' x)).
Proof.
  intros Hcfg [ib Hib].
  assert (∃ bbs' edges' r, Ok (bbs, edges) = Ok (bbs', edges') ∧ cfg_ok bbs' edges' ∧
    shortcut r bbs bbs' ∧ (∀ x, x ≠ id → is_Some (bb_find bbs x) → is_Some (bb_find bbs' x))) as Hsame
    by (exists bbs, edges, (λ x, x); split_and!; [done|done|by eapply shortcut_refl|done]).
  unfold remove_empty. rewrite Hib. rok.
  destruct (cfg_head _ _ _ _ Hcfg Hib) as (i & l & El). rewrite El. cbn [head hd_error oget mbind res_bind].
  destruct i; try exact Hsame. destruct (Z.eqb_spec (vt_value condition) (-1)) as [Hc|]; [|exact Hsame].
  cbn [negb]. assert (ib_instrs ib = [IR_IC_BR condition true_branch false_branch]) as Hone.
  { eapply (cf_br _ _ Hcfg); [exact Hib|by rewrite El|done]. }
  destruct (cf_block _ _ Hcfg id ib Hib) as (i & Hi & Ht). unfold bb_last in Hi. rewrite Hone in Hi.
  injection Hi as <-. cbn [targets] in Ht. rewrite Hc in Ht. simpl in Ht.
  destruct (cf_edge _ _ Hcfg id true_branch (Ht _ (proj2 (elem_of_cons _ _ _) (or_introl eq_refl)))) as [_ [nb Hnb]].
  rewrite Hnb. rok. destruct (bb_find_Some _ _ _ Hnb) as [-> _].
  destruct (Z.eqb_spec true_branch id) as [|Hne]; [exact Hsame|].
  destruct (change_branches id true_branch (filter (λ e, e.2 = id) edges) bbs Hne) as (bbs' & -> & Hids & Hf).
  { intros [a b] [_ He]%list_elem_of_filter. by destruct (cf_edge _ _ Hcfg a b He). }
  rok. destruct (cfg_drop bbs bbs' edges id true_branch ib condition false_branch) as [H1 H2];
    [done|done|done|done|done|done| |].
  - intros x. rewrite Hf. destruct (bb_find bbs x) as [bx|] eqn:Ex; [|done]. cbn. f_equal.
    case_decide as Hin; [done|]. destruct (cf_block _ _ Hcfg x bx Ex) as (i & Hi & Htx).
    symmetry. eapply redirect_same; [exact Hi|]. intros t Htt. unfold retarget.
    destruct (Z.eqb_spec t id) as [->|]; [|done]. destruct Hin. apply list_elem_of_fmap.
    exists (x, id). split; [done|]. apply list_elem_of_filter. split; [done|by apply Htx].
  - eexists _, _, _. split_and!; [reflexivity|exact H1|exact H2|].
    intros x Hx [bx Hbx]. destruct H2 as (H2 & _). destruct (H2 x bx Hbx) as [[E _]|(Hn & c & t & f & E1 & E2 & E3)];
      [by eexists; exact E|]. unfold bb_destroy in Hn. cbn [fst] in Hn.
    rewrite bb_find_filter, decide_False, Hf, Hbx in Hn by done. discriminate Hn.
Qed.

(** A block that only branches branches where it did before. *)
Lemma redirect_br r bb c t' f :
  ib_instrs (redirect r bb) = [IR_IC_BR c t' f] →
  ∃ t f0, ib_instrs bb = [IR_IC_BR c t f0] ∧ t' = r t.
Proof.
  unfold redirect. cbn [ib_instrs]. intros E.
  pose proof (f_equal length E) as Hlen. rewrite length_alter in Hlen.
  destruct (ib_instrs bb) as [|i [|i2 l]]; try discriminate Hlen.
  cbn in E. injection E as E. destruct i; try discriminate E. cbn in E. injection E as <- <- Ef. eauto.
Qed.

Lemma cfg_target bbs edges id bb c t f :
  cfg_ok bbs edges → bb_find bbs id = Some bb → ib_instrs bb = [IR_IC_BR c t f] →
  vt_value c = -1 → is_Some (bb_find bbs t).
Proof.
  intros Hcfg Hbb E Hc. destruct (cf_block _ _ Hcfg id bb Hbb) as (i & Hi & Ht).
  unfold bb_last in Hi. rewrite E in Hi. injection Hi as <-. cbn [targets] in Ht. rewrite Hc in Ht.
  apply (cf_edge _ _ Hcfg id t). apply Ht. by apply elem_of_cons; left.
Qed.

Lemma lands_trans r r' bbs1 bbs2 bbs3 edges :
  cfg_ok bbs1 edges → shortcut r bbs1 bbs2 →
  (∀ id, bb_find bbs2 id = None → bb_find bbs3 id = None) →
  ∀ id, lands r' bbs2 bbs3 id → ∀ id0, r id0 = id → lands r bbs1 bbs2 id0 →
  lands (r' ∘ r) bbs1 bbs3 id0.
Proof.
  intros Hcfg (H1 & _ & _ & Hl1) Hnone id Hid.
  induction Hid as [id Hs2 Hs3 E|id b2 c t' f Hb2 Hn3 Eb Ec Er Hl IH]; intros id0 Hid0 Hl0;
    induction Hl0 as [id0 Hs1 Hs2' E0|id0 b1 c1 t1 f1 Hb1 Hn2 Eb1 Ec1 Er1 Hl0 IH0].
  - rewrite E0 in Hid0. subst id0. apply lands_here; [done|done|]. unfold compose. by rewrite E0.
  - eapply lands_skip; [exact Hb1|by apply Hnone|exact Eb1|done| |apply IH0; congruence].
    unfold compose. by rewrite Er1.
  - rewrite E0 in Hid0. subst id0. destruct Hs1 as [b1 Hb1].
    destruct (H1 id b1 Hb1) as [[E1 _]|[E1 _]]; rewrite E1 in Hb2; [|done]. injection Hb2 as <-.
    destruct (redirect_br _ _ _ _ _ Eb) as (t & f0 & Eb1 & ->).
    eapply lands_skip; [exact Hb1|done|exact Eb1|done| |].
    + unfold compose. by rewrite E0.
    + apply IH; [done|]. apply Hl1. by eapply cfg_target.
  - eapply lands_skip; [exact Hb1|by apply Hnone|exact Eb1|done| |apply IH0; congruence].
    unfold compose. by rewrite Er1.
Qed.

Lemma shortcut_trans r r' bbs1 bbs2 bbs3 edges :
  cfg_ok bbs1 edges → shortcut r bbs1 bbs2 → shortcut r' bbs2 bbs3 →
  shortcut (r' ∘ r) bbs1 bbs3.
Proof.
  intros Hcfg Hsc (H4 & H5 & H6 & H7). pose proof Hsc as (H1 & H2 & H3 & Hl).
  assert (∀ id, is_Some (bb_find bbs1 id) → is_Some (bb_find bbs2 (r id))) as Hkeep.
  { intros id Hs. pose proof (Hl id Hs) as H. clear Hs.
    induction H as [id _ H E|id bb c t f _ _ _ _ E _ IH]; [by rewrite E|by rewrite E]. }
  split_and!; [|by auto|by etransitivity|].
  - intros id bb Hbb. unfold compose. destruct (H1 id bb Hbb) as [[Hb Hr]|(Hn & c & t & f & E1 & E2 & E3)].
    + destruct (H4 id _ Hb) as [[Hb' Hr']|(Hn & c & t & f & E1 & E2 & E3)].
      * left. rewrite Hb', redirect_compose, Hr. by split.
      * right. split; [done|]. destruct (redirect_br _ _ _ _ _ E1) as (t0 & f0 & Eb & ->).
        exists c, t0, f0. split_and!; [done|done|]. by rewrite Hr, E3.
    + right. split; [by apply H5|]. exists c, t, f. split_and!; [done|done|]. by rewrite E3.
  - intros id Hs. eapply lands_trans; [done|done|done| |reflexivity|by apply Hl].
    by apply H7, Hkeep.
Qed.

Lemma remove_all_spec ids bbs edges :
  cfg_ok bbs edges → NoDup ids → (∀ x, x ∈ ids → is_Some (bb_find bbs x)) →
  ∃ bbs' edges' r, foldR remove_empty (bbs, edges) ids = Ok (bbs', edges') ∧
    cfg_ok bbs' edges' ∧ shortcut r bbs bbs'.
Proof.
  revert bbs edges; induction ids as [|id ids IH]; intros bbs edges Hcfg Hnd Hids.
  - exists bbs, edges, (λ x, x). split_and!; [done|done|]. by eapply shortcut_refl.
  - apply list.NoDup_cons in Hnd as [Hn Hnd].
    destruct (remove_empty_spec bbs edges id Hcfg) as (b1 & e1 & r1 & Hr1 & Hc1 & Hs1 & Hk1);
      [apply Hids, elem_of_cons; by left|].
    destruct (IH b1 e1 Hc1 Hnd) as (b2 & e2 & r2 & Hr2 & Hc2 & Hs2).
    { intros x Hx. apply Hk1; [congruence|]. apply Hids, elem_of_cons. by right. }
    exists b2, e2, (r2 ∘ r1). cbn [foldR]. rewrite Hr1. split_and!; [exact Hr2|done|].
    by eapply shortcut_trans.
Qed.

Lemma remove_empty_bb_spec bbs edges :
  cfg_ok bbs edges →
  ∃ bbs' edges' r, remove_empty_bb bbs edges = Ok (bbs', edges') ∧
    cfg_ok bbs' edges' ∧ shortcut r bbs bbs'.
Proof.
  intros Hcfg. apply remove_all_spec; [done|apply (cf_nodup _ _ Hcfg)|].
  intros x Hx. by apply bb_find_is_id.
Qed.

(** C18: removing empty blocks is a short cut. When blocks and edges belong
    together, [remove_empty_bb] succeeds and they still do; a block that stays
    has its instructions, with its branches sent on through the blocks that
    went, and each of those only branched to where its branches are sent. *)
Theorem remove_empty_bb_correct bbs edges :
  cfg_ok bbs edges →
  ∃ bbs' edges' r, remove_empty_bb bbs edges = Ok (bbs', edges') ∧ cfg_ok bbs' edges' ∧
    (∀ id bb, bb_find bbs id = Some bb →
       (bb_find bbs' id = Some (redirect r bb) ∧ r id = id) ∨
       (bb_find bbs' id = None ∧ ∃ c t f, ib_instrs bb = [IR_IC_BR c t f] ∧ vt_value c = -1 ∧
          r id = r t)) ∧
    map ib_id bbs' `sublist_of` map ib_id bbs.
Proof.
  intros Hcfg. destruct (remove_empty_bb_spec bbs edges Hcfg) as (b & e & r & H1 & H2 & H3 & _ & H4 & _).
  by exists b, e, r.
Qed.

Definition example_v (v : Z) : ir_valuetype := mk_vt v 0.
Definition example_cfg : list ir_bb :=
  [mk_bb 0 [IR_IC_BR (example_v 1) 1 2]; mk_bb 1 [IR_IC_BR (example_v (-1)) 2 0];
   mk_bb 2 [IR_IC_RET (example_v 1)]].

Lemma remove_empty_bb_correct_witness :
  ∃ bbs' edges' (r : Z → Z),
    remove_empty_bb example_cfg [(0, 1); (0, 2); (1, 2)] = Ok (bbs', edges') ∧
    bbs' = [mk_bb 0 [IR_IC_BR (example_v 1) 2 2]; mk_bb 2 [IR_IC_RET (example_v 1)]] ∧
    cfg_ok bbs' edges' ∧ r 1 = r 2.
Proof.
  destruct (remove_empty_bb_correct example_cfg [(0, 1); (0, 2); (1, 2)]) as (b & e & r & H1 & H2 & H3 & _).
  - split.
    + apply (bool_decide_eq_true_1 (NoDup [0; 1; 2])). reflexivity.
    + intros id bb. unfold example_cfg. rewrite !bb_find_cons. cbn [ib_id].
      repeat case_decide; subst; intros [= <-]; (eexists; split; [reflexivity|]);
        intros t; cbn; set_solver.
    + intros a b Hab. assert ((a = 0 ∧ (b = 1 ∨ b = 2)) ∨ (a = 1 ∧ b = 2)) as [[-> [->| ->]]|[-> ->]] by set_solver;
        (split; [eexists _, _; split_and!; reflexivity|by eexists]).
    + intros id bb c t f. unfold example_cfg. rewrite !bb_find_cons. cbn [ib_id].
      repeat case_decide; subst; intros [= <-]; cbn; intros [= <- <- <-]; done.
  - exists b, e, r. split; [exact H1|]. vm_compute in H1. injection H1 as Hb He.
    split; [by rewrite <- Hb|]. split; [exact H2|].
    destruct (H3 1 (mk_bb 1 [IR_IC_BR (example_v (-1)) 2 0])) as [[E _]|(_ & c & t & f & E1 & _ & E2)];
      [reflexivity|rewrite <- Hb in E; discriminate E|]. by injection E1 as <- <- <-.
Defined.

