(* ===== verification/Liveness.v ===== *)
(** Liveness analysis: [liveness_set_succ], [liveness_set_value],
    [liveness_set_gen] and [liveness_update] of [src/src/vmir_transform.c].
    The instructions of a function are numbered in their order; the three bit
    sets of [ii_liveness] are kept beside them. *)
From S2P Require Import Prelude Support Types Values Instr.
Local Open Scope Z_scope.

(** ** Successors and uses *)

(** [ii_num_succ] and [ii_succ]: the next instruction (-1), or blocks; a block
    that [bb_find] does not find is the NULL pointer. *)
Inductive ir_succ : Type :=
  | succ_next
  | succ_blocks (blocks : list (option Z)).

Definition liveness_set_succ (bbs : list ir_bb) (i : ir_instr) : res ir_succ :=
  let blocks l := Ok (succ_blocks (map (λ id, ib_id <$> bb_find bbs id) l)) in
  match i with
  | IR_IC_RET _ | IR_IC_UNREACHABLE | IR_IC_RESUME _ => blocks []
  | IR_IC_CAST _ _ _ | IR_IC_VAARG _ _ | IR_IC_LOAD _ _ | IR_IC_BINOP _ _ _ _
  | IR_IC_CMP2 _ _ _ _ | IR_IC_STORE _ _ _ | IR_IC_ALLOCA _ _ _ _ | IR_IC_SELECT _ _ _ _
  | IR_IC_CMP_SELECT _ _ _ _ _ _ | IR_IC_LEA _ _ _ _ _ | IR_IC_MOVE _ _ | IR_IC_VMOP _ _
  | IR_IC_CALL _ _ | IR_IC_STACKCOPY _ _ _ | IR_IC_STACKSHRINK _ | IR_IC_MLA _ _ _ _
  | IR_IC_LANDINGPAD _ | IR_IC_EXTRACTVAL _ _ _ => Ok succ_next
  | IR_IC_SWITCH _ defblock paths => blocks (defblock :: map pa_block paths)
  | IR_IC_BR condition t f => blocks (if vt_value condition =? -1 then [t] else [t; f])
  | IR_IC_CMP_BRANCH _ _ _ t f => blocks [t; f]
  | IR_IC_INVOKE c _ => blocks [ca_normal_dest c; ca_unwind_dest c]
  | IR_IC_GEP _ _ _ | IR_IC_PHI _ _ | IR_IC_INSERTVAL _ _ _ _ => Fail Aborted
  end.

(** The values [liveness_set_gen] goes through. *)
Definition gen_values (i : ir_instr) : res (list ir_valuetype) :=
  let opt v := if vt_value v =? -1 then [] else [v] in
  match i with
  | IR_IC_UNREACHABLE | IR_IC_STACKSHRINK _ | IR_IC_LANDINGPAD _ => Ok []
  | IR_IC_RET v => Ok (opt v)
  | IR_IC_CAST _ v _ | IR_IC_VAARG v _ => Ok [v]
  | IR_IC_LOAD l _ =>
      Ok (ld_ptr l :: if 0 <=? vt_value (ld_value_offset l) then [ld_value_offset l] else [])
  | IR_IC_BINOP _ l r _ | IR_IC_CMP2 _ l r _ | IR_IC_CMP_BRANCH _ l r _ _ => Ok [l; r]
  | IR_IC_STORE p v _ => Ok [v; p]
  | IR_IC_BR c _ _ => Ok (opt c)
  | IR_IC_ALLOCA _ n _ _ => Ok [n]
  | IR_IC_SELECT t f p _ => Ok [p; t; f]
  | IR_IC_CMP_SELECT _ l r t f _ => Ok [l; r; t; f]
  | IR_IC_LEA b _ v _ _ => Ok (b :: opt v)
  | IR_IC_CALL c _ | IR_IC_VMOP c _ | IR_IC_INVOKE c _ => Ok (ca_callee c :: ca_argv c)
  | IR_IC_SWITCH v _ _ | IR_IC_MOVE v _ | IR_IC_STACKCOPY v _ _ => Ok [v]
  | IR_IC_MLA a b c _ => Ok [a; b; c]
  | IR_IC_RESUME vals => Ok vals
  | IR_IC_GEP _ _ _ | IR_IC_PHI _ _ | IR_IC_EXTRACTVAL _ _ _ | IR_IC_INSERTVAL _ _ _ _ =>
      Fail Aborted
  end.

(** [VECTOR_ITEM(&iu->iu_values, value)]: no bound is checked. *)
Definition value_item (vs : value_state) (value : Z) : res ir_value :=
  if value <? 0 then Fail Undef else
  v ← oget (vs_values vs !! Z.to_nat value) Undef; oget v Undef.

Definition liveness_set_value (vs : value_state) (ffv : Z) (bs : list Z) (vt : ir_valuetype)
    : res (list Z) :=
  iv ← value_item vs (vt_value vt);
  if bool_decide (iv_class iv = IR_VC_TEMPORARY) then
    _ ← check (0 <=? vt_value vt - ffv) AssertFail;
    bitset bs (vt_value vt - ffv)
  else Ok bs.

Definition liveness_set_gen (vs : value_state) (ffv : Z) (bs : list Z) (i : ir_instr)
    : res (list Z) :=
  l ← gen_values i; foldR (liveness_set_value vs ffv) bs l.

(** ** The analysis *)

(** An instruction with what the analysis keeps fixed; [ln_next] tells whether
    an instruction follows in its block. *)
Record live_node := mk_ln {
  ln_instr : ir_instr;
  ln_next : bool;
  ln_succ : ir_succ;
  ln_gen : list Z;
}.

(** The sets [out] and [in] of each instruction. *)
Notation live_sets := (list (list Z * list Z)).

Definition empty_set (setwords : nat) : list Z := replicate setwords 0.

Definition live_node_of (vs : value_state) (ffv : Z) (setwords : nat) (bbs : list ir_bb)
    (p : ir_instr * bool) : res live_node :=
  gen ← liveness_set_gen vs ffv (empty_set setwords) p.1;
  succ ← liveness_set_succ bbs p.1;
  Ok (mk_ln p.1 p.2 succ gen).

(** Whether each instruction of a block has a next one. *)
Fixpoint with_next (l : list ir_instr) : list (ir_instr * bool) :=
  match l with
  | [] => []
  | i :: l' => (i, match l' with [] => false | _ => true end) :: with_next l'
  end.

Definition live_nodes (vs : value_state) (ffv : Z) (setwords : nat) (bbs : list ir_bb)
    : res (list live_node) :=
  mapR (live_node_of vs ffv setwords bbs) (flat_map (with_next ∘ ib_instrs) bbs).

(** [TAILQ_FIRST(&ib->ib_instrs)] of each block, as a number. *)
Fixpoint bb_firsts (bbs : list ir_bb) (k : nat) : list (Z * option nat) :=
  match bbs with
  | [] => []
  | bb :: bbs =>
      (ib_id bb, match ib_instrs bb with [] => None | _ => Some k end)
      :: bb_firsts bbs (k + length (ib_instrs bb))
  end.

Definition bb_first (firsts : list (Z * option nat)) (id : Z) : res nat :=
  p ← oget (snd <$> list_find (λ p, p.1 = id) firsts) Undef;
  oget p.2 AssertFail.

Section update.
Context (nodes : list live_node) (firsts : list (Z * option nat)) (setwords : nat) (ffv : Z).

(** The instructions that may come after the [k]-th one. *)
Definition succ_of (k : nat) (nd : live_node) : res (list nat) :=
  match ln_succ nd with
  | succ_next => Ok (if ln_next nd then [S k] else [])
  | succ_blocks l => mapR (λ o, id ← oget o Undef; bb_first firsts id) l
  end.

Definition live_in (live : live_sets) (j : nat) : res (list Z) :=
  p ← oget (live !! j) Undef; Ok p.2.

(** [o]: the set of the one successor itself, or the union. *)
Definition live_out_of (live : live_sets) (k : nat) (nd : live_node) : res (list Z) :=
  js ← succ_of k nd;
  match ln_succ nd, js with
  | succ_next, [j] => live_in live j
  | _, _ => foldR (λ o j, i ← live_in live j; bitset_or o i) (empty_set setwords) js
  end.

Definition live_kill (o : list Z) (i : ir_instr) : res (list Z) :=
  rets ← ret_values (instr_ret i);
  foldR (λ s v, bitclr s (vt_value v - ffv)) o rets.

(** The body of the loops of [liveness_update]: the sets and [stable]. *)
Definition live_step (s : live_sets * bool) (k : nat) : res (live_sets * bool) :=
  let '(live, stable) := s in
  nd ← oget (nodes !! k) Undef;
  sets ← oget (live !! k) Undef;
  o ← live_out_of live k nd;
  new_in ← live_kill o (ln_instr nd);
  new_in ← bitset_or new_in (ln_gen nd);
  Ok (if bool_decide (sets = (o, new_in)) then (live, stable)
      else (<[k := (o, new_in)]> live, false)).

(** One round, from the last instruction to the first. *)
Definition live_round (live : live_sets) : res (live_sets * bool) :=
  foldR live_step (live, true) (reverse (seq 0 (length nodes))).

Fixpoint liveness_update (fuel : nat) (live : live_sets) : res live_sets :=
  match fuel with
  | O => Fail NoFuel
  | S fuel =>
      '(live, stable) ← live_round live;
      if stable : bool then Ok live else liveness_update fuel live
  end.
End update.

(** The first part of [liveness_analysis]: the instructions and their sets. The
    sets grow, so a round for each bit is enough. *)
Definition liveness_fuel (n setwords : nat) : nat := S (n * (2 * (32 * setwords))).

Definition liveness_sets (vs : value_state) (ffv : Z) (bbs : list ir_bb)
    : res (list live_node * live_sets) :=
  let temp_values := Z.of_nat (vs_next vs) - ffv in
  let setwords := Z.to_nat ((temp_values + 31) / 32) in
  nodes ← live_nodes vs ffv setwords bbs;
  let n := length nodes in
  live ← liveness_update nodes (bb_firsts bbs 0) setwords ffv (liveness_fuel n setwords)
           (replicate n (empty_set setwords, empty_set setwords));
  Ok (nodes, live).

(** ** What the sets mean *)

Definition in_b (live : live_sets) (k : nat) (v : Z) : bool :=
  match live !! k with Some p => bs_in p.2 v | None => false end.
Definition out_b (live : live_sets) (k : nat) (v : Z) : bool :=
  match live !! k with Some p => bs_in p.1 v | None => false end.

(** An instruction reads a value, writes it. *)
Definition node_uses (nd : live_node) (v : Z) : bool := bs_in (ln_gen nd) v.
Definition node_defs (ffv : Z) (nd : live_node) (v : Z) : bool :=
  match ret_values (instr_ret (ln_instr nd)) with
  | Ok l => existsb (λ x, vt_value x - ffv =? v) l
  | Fail _ => false
  end.
Definition node_succs (firsts : list (Z * option nat)) (k : nat) (nd : live_node) : list nat :=
  match succ_of firsts k nd with Ok js => js | Fail _ => [] end.

(** A value is live before an instruction that reads it, and before one that
    does not write it and may be followed by one before which it is live. *)
Inductive live_at (nodes : list live_node) (firsts : list (Z * option nat)) (ffv : Z)
    : nat → Z → Prop :=
  | live_use k nd v :
      nodes !! k = Some nd → node_uses nd v = true → live_at nodes firsts ffv k v
  | live_flow k nd j v :
      nodes !! k = Some nd → j ∈ node_succs firsts k nd → node_defs ffv nd v = false →
      live_at nodes firsts ffv j v → live_at nodes firsts ffv k v.

(** ** Counting bits *)

Section counting.
Context (setwords : nat).

Definition set_ok (bs : list Z) : Prop := length bs = setwords ∧ bs_wf bs.

Definition bit_range (v : Z) : Prop := 0 <= v < 32 * Z.of_nat setwords.

Definition count (bs : list Z) : nat :=
  length (filter (λ v, bs_in bs v = true) (seqZ 0 (32 * Z.of_nat setwords))).

Lemma count_le bs : (count bs ≤ 32 * setwords)%nat.
Proof.
  unfold count. etransitivity; [apply length_filter|]. rewrite length_seqZ. lia.
Qed.

Lemma filter_le {A} (P Q : A → Prop) `{∀ x, Decision (P x), ∀ x, Decision (Q x)} (l : list A) :
  (∀ x, x ∈ l → P x → Q x) →
  (length (filter P l) ≤ length (filter Q l))%nat ∧
  ((∃ x, x ∈ l ∧ Q x ∧ ¬ P x) → (length (filter P l) < length (filter Q l))%nat).
Proof.
  induction l as [|a l IH]; intros HPQ.
  { split; [done|]. by intros (x & ?%not_elem_of_nil & _). }
  destruct IH as [IH1 IH2]; [intros; by apply HPQ; [apply elem_of_cons; right|]|].
  assert (P a → Q a) as Ha by (apply HPQ, elem_of_cons; by left).
  rewrite !filter_cons. split.
  - repeat case_decide; simpl; (tauto || lia).
  - intros (x & [->|Hx]%elem_of_cons & HQ & HP).
    + rewrite (decide_True (P := Q a)), (decide_False (P := P a)) by done. simpl. lia.
    + assert (length (filter P l) < length (filter Q l))%nat by eauto.
      repeat case_decide; simpl; (tauto || lia).
Qed.

Lemma count_grows bs bs' :
  set_ok bs → set_ok bs' →
  (∀ v, bit_range v → bs_in bs v = true → bs_in bs' v = true) →
  (count bs ≤ count bs')%nat ∧ (bs ≠ bs' → (count bs < count bs')%nat).
Proof.
  intros [Hl Hw] [Hl' Hw'] Hsub. unfold count.
  destruct (filter_le (λ v, bs_in bs v = true) (λ v, bs_in bs' v = true)
    (seqZ 0 (32 * Z.of_nat setwords))) as [H1 H2].
  { intros v Hv%elem_of_seqZ. apply Hsub. unfold bit_range. lia. }
  split; [done|]. intros Hne. apply H2.
  destruct (decide (Exists (λ v, bs_in bs' v = true ∧ bs_in bs v = false)
    (seqZ 0 (32 * Z.of_nat setwords)))) as [He|He].
  - apply list.Exists_exists in He as (v & Hv & H3 & H4). exists v. split_and!; [done|done|].
    by rewrite H4.
  - exfalso. apply Hne, bs_ext; [done|done|congruence|]. intros v Hv.
    unfold bs_bits in Hv. rewrite Hl in Hv.
    destruct (bs_in bs v) eqn:E; [by rewrite Hsub|].
    destruct (bs_in bs' v) eqn:E'; [|done]. destruct He. apply list.Exists_exists.
    exists v. split; [apply elem_of_seqZ; lia|done].
Qed.
End counting.

(** The sum over a list after a change. *)
Lemma sum_insert {A} (f : A → nat) (l : list A) k x y :
  l !! k = Some y →
  (sum_list_with f (<[k := x]> l) + f y = sum_list_with f l + f x)%nat.
Proof.
  revert k; induction l as [|a l IH]; intros k H; [done|].
  destruct k as [|k]; simpl in *; [injection H as ->; lia|]. specialize (IH k H). lia.
Qed.

Lemma sum_le {A} (f : A → nat) (l : list A) b :
  (∀ x, x ∈ l → (f x ≤ b)%nat) → (sum_list_with f l ≤ length l * b)%nat.
Proof.
  induction l as [|a l IH]; intros H; simpl; [lia|].
  pose proof (H a ltac:(apply elem_of_cons; by left)).
  assert (sum_list_with f l ≤ length l * b)%nat; [|lia].
  apply IH. intros x Hx. apply H, elem_of_cons. by right.
Qed.

(** ** The analysis is right *)

Section analysis.
Context (nodes : list live_node) (firsts : list (Z * option nat)) (setwords : nat) (ffv : Z).

Notation bit_range := (bit_range setwords).
Notation set_ok := (set_ok setwords).
Notation count := (count setwords).
Notation live := (live_at nodes firsts ffv).

(** What the analysis needs of an instruction: sets of the right size, values
    that have a bit, and successors that exist. *)
Record node_ok (k : nat) (nd : live_node) : Prop := {
  no_gen : set_ok (ln_gen nd);
  no_rets : ∃ l, ret_values (instr_ret (ln_instr nd)) = Ok l ∧
              ∀ x, x ∈ l → bit_range (vt_value x - ffv);
  no_succs : ∃ js, succ_of firsts k nd = Ok js ∧ ∀ j, j ∈ js → (j < length nodes)%nat;
}.
Context (Hnodes : ∀ k nd, nodes !! k = Some nd → node_ok k nd).

Definition sets_ok (s : live_sets) : Prop :=
  length s = length nodes ∧ ∀ k p, s !! k = Some p → set_ok p.1 ∧ set_ok p.2.

(** The sets the equations give for an instruction. *)
Definition new_out (s : live_sets) (k : nat) (nd : live_node) (v : Z) : bool :=
  existsb (λ j, in_b s j v) (node_succs firsts k nd).
Definition new_in (o : Z → bool) (nd : live_node) (v : Z) : bool :=
  node_uses nd v || (negb (node_defs ffv nd v) && o v).

Lemma sets_ok_lookup s j : sets_ok s → (j < length nodes)%nat →
  ∃ p, s !! j = Some p ∧ set_ok p.1 ∧ set_ok p.2 ∧ (∀ v, in_b s j v = bs_in p.2 v) ∧
       (∀ v, out_b s j v = bs_in p.1 v).
Proof.
  intros [Hl Hs] Hj. destruct (lookup_lt_is_Some_2 s j) as [p Hp]; [lia|].
  exists p. destruct (Hs j p Hp). unfold in_b, out_b. by rewrite Hp.
Qed.

Lemma union_spec s o js :
  sets_ok s → set_ok o → (∀ j, j ∈ js → (j < length nodes)%nat) →
  ∃ o', foldR (λ o j, i ← live_in s j; bitset_or o i) o js = Ok o' ∧ set_ok o' ∧
    ∀ v, bit_range v → bs_in o' v = bs_in o v || existsb (λ j, in_b s j v) js.
Proof.
  intros Hs. revert o; induction js as [|j js IH]; intros o [Ho Hw] Hjs.
  { exists o. split_and!; [done|done|]. intros v _. by rewrite orb_false_r. }
  destruct (sets_ok_lookup s j Hs) as (p & Hp & _ & [Hl2 Hw2] & Hin & _);
    [apply Hjs, elem_of_cons; by left|].
  assert (live_in s j = Ok p.2) as Hj by (unfold live_in; by rewrite Hp).
  cbn [foldR]. rewrite Hj. rok.
  destruct (bitset_or_spec o p.2) as (o1 & Ho1 & Hlen & Hb); [lia|]. rewrite Ho1. rok.
  destruct (IH o1) as (o' & Hr & Hok & Hb');
    [split; [congruence|exact (bitset_or_wf _ _ _ Hw Hw2 Ho1)]|intros; by apply Hjs, elem_of_cons; right|].
  exists o'. split_and!; [done|done|]. intros v Hv. rewrite Hb' by done.
  rewrite Hb by (unfold bs_bits; rewrite Ho; exact Hv). cbn [existsb]. by rewrite Hin, orb_assoc.
Qed.

Lemma live_out_of_spec s k nd :
  sets_ok s → node_ok k nd →
  ∃ o, live_out_of firsts setwords s k nd = Ok o ∧ set_ok o ∧
    ∀ v, bit_range v → bs_in o v = new_out s k nd v.
Proof.
  intros Hs [_ _ (js & Hjs & Hlt)]. unfold live_out_of, new_out, node_succs. rewrite Hjs. rok.
  destruct (union_spec s (empty_set setwords) js Hs) as (o & Hr & Hok & Hb);
    [split; [apply length_replicate|apply bs_wf_zeros]|done|].
  unfold empty_set in Hb. setoid_rewrite bs_in_zeros in Hb. cbn [orb] in Hb.
  destruct (ln_succ nd); [|by exists o].
  destruct js as [|j [|j' js]]; [by exists o| |by exists o].
  destruct (sets_ok_lookup s j Hs) as (p & Hp & _ & Hp2 & Hin & _); [apply Hlt, elem_of_cons; by left|].
  exists p.2. unfold live_in. rewrite Hp. split_and!; [done|done|].
  intros v _. cbn [existsb]. by rewrite Hin, orb_false_r.
Qed.

Lemma live_kill_spec o k nd :
  set_ok o → node_ok k nd →
  ∃ o', live_kill ffv o (ln_instr nd) = Ok o' ∧ set_ok o' ∧
    ∀ v, bit_range v → bs_in o' v = negb (node_defs ffv nd v) && bs_in o v.
Proof.
  intros Ho [_ (l & Hl & Hr) _]. unfold live_kill, node_defs. rewrite Hl. rok. clear Hl.
  revert o Ho; induction l as [|x l IH]; intros o [Ho Hw].
  { by exists o. }
  cbn [foldR].
  destruct (bitclr_spec o (vt_value x - ffv)) as (o1 & Ho1 & Hlen & Hb).
  { unfold bs_bits. rewrite Ho. apply Hr, elem_of_cons. by left. }
  rewrite Ho1. rok. destruct (IH (λ y Hy, Hr y (proj2 (elem_of_cons _ _ _) (or_intror Hy))) o1) as (o' & Hr' & Hok & Hb');
    [split; [congruence|exact (bitclr_wf _ _ _ Hw Ho1)]|].
  exists o'. split_and!; [done|done|]. intros v Hv. rewrite Hb', Hb by (done || apply Hv).
  cbn [existsb]. rewrite (Z.eqb_sym v).
  by destruct (vt_value x - ffv =? v), (existsb _ _), (bs_in o v).
Qed.

(** One step writes what the equations give. *)
Lemma live_step_spec s b k nd :
  sets_ok s → nodes !! k = Some nd →
  ∃ o i, live_step nodes firsts setwords ffv (s, b) k =
           Ok (<[k := (o, i)]> s, b && bool_decide (s !! k = Some (o, i))) ∧
    set_ok o ∧ set_ok i ∧ ∀ v, bit_range v →
      bs_in o v = new_out s k nd v ∧ bs_in i v = new_in (new_out s k nd) nd v.
Proof.
  intros Hs Hk. pose proof (Hnodes k nd Hk) as Hok. unfold live_step. rewrite Hk. rok.
  destruct (sets_ok_lookup s k Hs) as (p & Hp & _); [by eapply lookup_lt_Some|]. rewrite Hp. rok.
  destruct (live_out_of_spec s k nd Hs Hok) as (o & -> & Ho & Hob). rok.
  destruct (live_kill_spec o k nd Ho Hok) as (i0 & -> & Hi0 & Hib). rok.
  destruct (no_gen _ _ Hok) as [Hgl Hgw]. destruct Hi0 as [Hil Hiw].
  destruct (bitset_or_spec i0 (ln_gen nd)) as (i & Hi & Hlen & Hb); [lia|]. rewrite Hi. rok.
  exists o, i. split_and!; [|done|split; [congruence|exact (bitset_or_wf _ _ _ Hiw Hgw Hi)]|].
  - repeat case_bool_decide; try congruence.
    + by rewrite list_insert_id, andb_true_r by congruence.
    + by rewrite andb_false_r.
  - intros v Hv. rewrite Hob by done. split; [done|].
    rewrite Hb by (unfold bs_bits; rewrite Hil; exact Hv). rewrite Hib, Hob by done.
    unfold new_in, node_uses. apply orb_comm.
Qed.

(** The sets stay below what the equations give, and mean liveness. *)
Record sets_inv (s : live_sets) : Prop := {
  si_ok : sets_ok s;
  si_out : ∀ k nd v, nodes !! k = Some nd → bit_range v →
    out_b s k v = true → new_out s k nd v = true;
  si_in : ∀ k nd v, nodes !! k = Some nd → bit_range v →
    in_b s k v = true → new_in (out_b s k) nd v = true;
  si_sound : ∀ k v, bit_range v → in_b s k v = true → live k v;
}.

Definition total (s : live_sets) : nat := sum_list_with (λ p, count p.1 + count p.2)%nat s.

Lemma total_le s : sets_ok s → (total s ≤ length nodes * (2 * (32 * setwords)))%nat.
Proof.
  intros [<- _]. apply sum_le. intros p _. cbn beta.
  pose proof (count_le setwords p.1). pose proof (count_le setwords p.2). lia.
Qed.

Lemma new_out_live s k nd v :
  (∀ j, in_b s j v = true → live j v) → nodes !! k = Some nd → node_defs ffv nd v = false →
  new_out s k nd v = true → live k v.
Proof.
  intros Hs Hk Hd H. apply existsb_exists in H as (j & Hj & Hin).
  eapply live_flow; [done| |done|by apply Hs]. by apply list_elem_of_In.
Qed.

(** Writing the new sets. *)
Lemma step_inv s k nd o i :
  sets_inv s → nodes !! k = Some nd → set_ok o → set_ok i →
  (∀ v, bit_range v → bs_in o v = new_out s k nd v ∧ bs_in i v = new_in (new_out s k nd) nd v) →
  sets_inv (<[k := (o, i)]> s) ∧ (total s ≤ total (<[k := (o, i)]> s))%nat ∧
  (s !! k ≠ Some (o, i) → (total s < total (<[k := (o, i)]> s))%nat).
Proof.
  intros [Hok Hout Hin Hsound] Hk Ho Hi Heq. set (s' := <[k := (o, i)]> s).
  destruct (sets_ok_lookup s k Hok) as (p & Hp & Hp1 & Hp2 & Hinp & Houtp);
    [by eapply lookup_lt_Some|].
  assert (∀ j, s' !! j = if decide (j = k) then Some (o, i) else s !! j) as Hs'.
  { intros j. unfold s'. case_decide as E.
    - rewrite E. apply list_lookup_insert_eq. by eapply lookup_lt_Some.
    - by rewrite list_lookup_insert_ne by congruence. }
  assert (∀ v, bit_range v → bs_in p.1 v = true → bs_in o v = true) as Hgo.
  { intros v Hv H. rewrite (proj1 (Heq v Hv)). apply Hout; [done|done|by rewrite Houtp]. }
  assert (∀ v, bit_range v → bs_in p.2 v = true → bs_in i v = true) as Hgi.
  { intros v Hv H. rewrite (proj2 (Heq v Hv)). rewrite <- Hinp in H. apply (Hin k nd) in H; [|done..].
    unfold new_in in *. destruct (node_uses nd v), (node_defs ffv nd v); try done.
    cbn [negb andb orb] in *. by apply Hout. }
  assert (∀ j v, bit_range v → in_b s j v = true → in_b s' j v = true) as Hgrow.
  { intros j v Hv. unfold in_b. rewrite Hs'. case_decide as E; [|done].
    rewrite E, Hp. by apply Hgi. }
  assert (∀ j nd' v, nodes !! j = Some nd' → bit_range v →
    new_out s j nd' v = true → new_out s' j nd' v = true) as Hgn.
  { intros j nd' v _ Hv H. apply existsb_exists in H as (x & Hx & H). apply existsb_exists.
    exists x. split; [done|by apply Hgrow]. }
  split; [split|].
  - split; [unfold s'; rewrite length_insert; apply Hok|]. intros j q. rewrite Hs'.
    case_decide; [by intros [= <-]|apply Hok].
  - intros j nd' v Hj Hv. unfold out_b at 1. rewrite Hs'. case_decide as E.
    + rewrite E, Hk in Hj. injection Hj as <-. cbn [fst]. rewrite (proj1 (Heq v Hv)), E.
      by apply Hgn.
    + intros H. apply Hgn; [done..|]. by apply Hout.
  - intros j nd' v Hj Hv. unfold in_b, out_b, new_in. rewrite Hs'. case_decide as E.
    + rewrite E, Hk in Hj. injection Hj as <-. cbn [fst snd].
      rewrite (proj1 (Heq v Hv)), (proj2 (Heq v Hv)). done.
    + intros H. by apply (Hin j nd' v).
  - intros j v Hv. unfold in_b. rewrite Hs'. case_decide as E; [|by apply Hsound].
    cbn [snd]. rewrite (proj2 (Heq v Hv)), E. unfold new_in. intros H.
    destruct (node_uses nd v) eqn:Eu; [by eapply live_use|]. cbn [orb] in H.
    apply andb_true_iff in H as [Hd H]. apply negb_true_iff in Hd.
    eapply new_out_live; [|done..]. intros x. by apply Hsound.
  - destruct (count_grows setwords p.1 o Hp1 Ho Hgo) as [C1 C2].
    destruct (count_grows setwords p.2 i Hp2 Hi Hgi) as [C3 C4].
    pose proof (sum_insert (λ p, count p.1 + count p.2)%nat s k (o, i) p Hp) as Hsum.
    cbn [fst snd] in Hsum. fold s' in Hsum. change (sum_list_with _ s') with (total s') in Hsum.
    change (sum_list_with _ s) with (total s) in Hsum. split; [lia|].
    rewrite Hp. intros Hne. destruct (decide (p.1 = o)) as [E1|E1]; [|specialize (C2 E1); lia].
    destruct (decide (p.2 = i)) as [E2|E2]; [|specialize (C4 E2); lia].
    destruct Hne. destruct p; simpl in *; congruence.
Qed.

(** The equations hold for an instruction. *)
Definition stable_at (s : live_sets) (k : nat) : Prop :=
  ∀ nd v, nodes !! k = Some nd → bit_range v →
    out_b s k v = new_out s k nd v ∧ in_b s k v = new_in (out_b s k) nd v.

Lemma live_round_spec s :
  sets_inv s →
  ∃ s' b, live_round nodes firsts setwords ffv s = Ok (s', b) ∧ sets_inv s' ∧
    if b then s' = s ∧ ∀ k, (k < length nodes)%nat → stable_at s k
    else (total s < total s')%nat.
Proof.
  intros Hs. unfold live_round.
  set (P := λ n (q : live_sets * bool), let '(s', b) := q in sets_inv s' ∧
    if b then s' = s ∧ ∀ i k, (i < n)%nat → reverse (seq 0 (length nodes)) !! i = Some k → stable_at s k
    else (total s < total s')%nat).
  destruct (foldR_ok P (live_step nodes firsts setwords ffv)
    (reverse (seq 0 (length nodes))) (s, true)) as ([s' b] & Hr & Hinv & Hb).
  - intros n k [s1 b] Hk [Hs1 Hb].
    assert (k < length nodes)%nat as Hlt.
    { apply list_elem_of_lookup_2, elem_of_reverse, elem_of_seq in Hk. lia. }
    destruct (lookup_lt_is_Some_2 nodes k Hlt) as [nd Hnd].
    destruct (live_step_spec s1 b k nd (si_ok _ Hs1) Hnd) as (o & i & -> & Ho & Hi & Heq).
    eexists; split; [reflexivity|]. destruct (step_inv s1 k nd o i Hs1 Hnd Ho Hi Heq) as (H1 & H2 & H3).
    split; [done|]. case_bool_decide as E.
    + rewrite andb_true_r. rewrite list_insert_id by done. destruct b; [|done].
      destruct Hb as [-> Hst]. split; [done|]. intros j x Hj Hx.
      destruct (decide (j = n)) as [->|]; [|apply (Hst j x); [lia|done]].
      rewrite Hk in Hx. injection Hx as <-. intros nd' v Hnd' Hv. rewrite Hnd in Hnd'. injection Hnd' as <-.
      unfold out_b, in_b. rewrite E. cbn [fst snd]. destruct (Heq v Hv) as [E1 E2].
      split; [done|]. rewrite E2. unfold new_in. by rewrite E1.
    + rewrite andb_false_r. specialize (H3 E). destruct b; [destruct Hb as [-> _]|]; lia.
  - split; [done|]. split; [done|]. intros i k Hi. lia.
  - exists s', b. split_and!; [done|done|]. destruct b; [|done]. destruct Hb as [-> Hst].
    split; [done|]. intros k Hk.
    assert (k ∈ reverse (seq 0 (length nodes))) as Hin by (apply elem_of_reverse, elem_of_seq; lia).
    apply list_elem_of_lookup in Hin as [i Hi]. apply (Hst i k); [by eapply lookup_lt_Some|done].
Qed.

Lemma liveness_update_spec fuel s :
  sets_inv s → (length nodes * (2 * (32 * setwords)) < fuel + total s)%nat →
  ∃ s', liveness_update nodes firsts setwords ffv fuel s = Ok s' ∧ sets_inv s' ∧
    ∀ k, (k < length nodes)%nat → stable_at s' k.
Proof.
  revert s; induction fuel as [|fuel IH]; intros s Hs Hf.
  { pose proof (total_le s (si_ok _ Hs)). lia. }
  cbn [liveness_update]. destruct (live_round_spec s Hs) as (s' & b & -> & Hs' & Hb). rok.
  destruct b; [destruct Hb as [-> Hst]; by exists s|]. apply IH; [done|lia].
Qed.

(** At the end a bit of [in] says that the value is live, and one of [out]
    that it is live before a successor. *)
Lemma stable_live s :
  sets_inv s → (∀ k, (k < length nodes)%nat → stable_at s k) →
  ∀ k nd v, nodes !! k = Some nd → bit_range v →
    (in_b s k v = true ↔ live k v) ∧
    (out_b s k v = true ↔ ∃ j, j ∈ node_succs firsts k nd ∧ live j v).
Proof.
  intros Hs Hst.
  assert (∀ k v, live k v → bit_range v → in_b s k v = true) as Hc.
  { intros k v H Hv. induction H as [k nd v Hk Hu|k nd j v Hk Hj Hd Hl IH].
    - destruct (Hst k ltac:(by eapply lookup_lt_Some) nd v Hk Hv) as [_ ->].
      unfold new_in. by rewrite Hu.
    - destruct (Hst k ltac:(by eapply lookup_lt_Some) nd v Hk Hv) as [Ho ->].
      unfold new_in. rewrite Hd, Ho. cbn [negb andb]. apply orb_true_iff. right.
      apply existsb_exists. exists j. split; [by apply list_elem_of_In|by apply IH]. }
  intros k nd v Hk Hv. split; [split; [by apply Hs|intros; by apply Hc]|].
  destruct (Hst k ltac:(by eapply lookup_lt_Some) nd v Hk Hv) as [-> _]. unfold new_out.
  rewrite existsb_exists. split.
  - intros (j & Hj & H). exists j. split; [by apply list_elem_of_In|by apply Hs].
  - intros (j & Hj & H). exists j. split; [by apply list_elem_of_In|by apply Hc].
Qed.

Lemma empty_inv :
  sets_inv (replicate (length nodes) (empty_set setwords, empty_set setwords)).
Proof.
  assert (∀ k v, in_b (replicate (length nodes) (empty_set setwords, empty_set setwords)) k v = false ∧
    out_b (replicate (length nodes) (empty_set setwords, empty_set setwords)) k v = false) as H.
  { intros k v. unfold in_b, out_b. destruct (replicate _ _ !! k) as [p|] eqn:E; [|done].
    apply lookup_replicate in E as [-> _]. unfold empty_set. cbn [fst snd].
    by rewrite bs_in_zeros. }
  split.
  - split; [apply length_replicate|]. intros k p E. apply lookup_replicate in E as [-> _].
    split; (split; [apply length_replicate|apply bs_wf_zeros]).
  - intros k nd v _ _. by rewrite (proj2 (H k v)).
  - intros k nd v _ _. by rewrite (proj1 (H k v)).
  - intros k v _. by rewrite (proj1 (H k v)).
Qed.
End analysis.

(** ** From the blocks *)

(** What [liveness_analysis] relies on: the instructions are of the kinds it
    knows, their temporaries are values of the function, branches lead to
    blocks, and no block is empty. *)
Definition value_ok (vs : value_state) (ffv : Z) (x : ir_valuetype) : bool :=
  (ffv <=? vt_value x) && (vt_value x <? Z.of_nat (vs_next vs)).

Definition use_ok (vs : value_state) (ffv : Z) (x : ir_valuetype) : bool :=
  match value_item vs (vt_value x) with
  | Ok iv => negb (bool_decide (iv_class iv = IR_VC_TEMPORARY)) || value_ok vs ffv x
  | Fail _ => false
  end.

Definition live_instr_ok (vs : value_state) (ffv : Z) (bbs : list ir_bb) (i : ir_instr) : bool :=
  match gen_values i, ret_values (instr_ret i), liveness_set_succ bbs i with
  | Ok l, Ok r, Ok s =>
      forallb (use_ok vs ffv) l && forallb (value_ok vs ffv) r &&
      match s with succ_next => true | succ_blocks bl => forallb (λ o, bool_decide (is_Some o)) bl end
  | _, _, _ => false
  end.

Definition body_ok (vs : value_state) (ffv : Z) (bbs : list ir_bb) : bool :=
  (0 <=? ffv) && (ffv <=? Z.of_nat (vs_next vs)) &&
  forallb (λ bb, negb (bool_decide (length (ib_instrs bb) = 0%nat)) &&
                 forallb (live_instr_ok vs ffv bbs) (ib_instrs bb)) bbs.

Lemma forallb_elem {A} (f : A → bool) l x : forallb f l = true → x ∈ l → f x = true.
Proof. rewrite forallb_forall. intros H Hx. by apply H, list_elem_of_In. Qed.

(** The value [x] is the temporary number [v]. *)
Definition is_temp (vs : value_state) (ffv : Z) (x : ir_valuetype) (v : Z) : bool :=
  match value_item vs (vt_value x) with
  | Ok iv => bool_decide (iv_class iv = IR_VC_TEMPORARY) && (vt_value x - ffv =? v)
  | Fail _ => false
  end.

Lemma liveness_set_gen_spec vs ffv setwords l bs :
  0 <= ffv → Z.of_nat (vs_next vs) - ffv <= 32 * Z.of_nat setwords →
  forallb (use_ok vs ffv) l = true → set_ok setwords bs →
  ∃ bs', foldR (liveness_set_value vs ffv) bs l = Ok bs' ∧ set_ok setwords bs' ∧
    ∀ v, 0 <= v → bs_in bs' v = existsb (λ x, is_temp vs ffv x v) l || bs_in bs v.
Proof.
  intros Hf Hw. revert bs; induction l as [|x l IH]; intros bs Hl Hbs; [by exists bs|].
  cbn [forallb] in Hl. apply andb_true_iff in Hl as [Hx Hl]. cbn [foldR existsb].
  pose proof (eq_refl (liveness_set_value vs ffv bs x)) as Hset.
  unfold use_ok in Hx. unfold liveness_set_value in Hset at 2. unfold is_temp at 1.
  destruct (value_item vs (vt_value x)) as [iv|]; [|done]. rewrite Hset. clear Hset. rok.
  case_bool_decide as Ht; cbn [negb orb andb] in *.
  - unfold value_ok in Hx. apply andb_true_iff in Hx as [H1%Z.leb_le H2%Z.ltb_lt].
    rewrite (proj2 (Z.leb_le _ _)) by lia. rok. destruct Hbs as [Hlen Hwf].
    destruct (bitset_spec bs (vt_value x - ffv)) as (b1 & Hb1 & Hl1 & Hin1);
      [unfold bs_bits; lia|]. rewrite Hb1. rok.
    destruct (IH b1 Hl) as (b2 & -> & Hb2 & Hin2).
    { split; [congruence|]. exact (bitset_wf _ _ _ Hwf Hb1). }
    exists b2. split_and!; [done|done|]. intros v Hv. rewrite Hin2, Hin1, (Z.eqb_sym v) by done.
    by destruct (existsb _ _), (vt_value x - ffv =? v).
  - rok. destruct (IH bs Hl Hbs) as (b2 & -> & Hb2 & Hin2). by exists b2.
Qed.

(** The nodes of a block are numbered from its first one on. *)
Lemma with_next_lookup l m i :
  l !! m = Some i → with_next l !! m = Some (i, bool_decide (S m < length l)%nat).
Proof.
  revert m; induction l as [|j l IH]; intros m H; [done|]. destruct m as [|m].
  - injection H as ->. cbn. destruct l; [done|]. by rewrite bool_decide_eq_true_2 by (cbn; lia).
  - change (with_next l !! m = Some (i, bool_decide (S (S m) < S (length l))%nat)).
    rewrite (IH m H). do 2 f_equal. apply bool_decide_ext. lia.
Qed.

Lemma bb_first_at bbs k id bb :
  (∀ b, b ∈ bbs → length (ib_instrs b) ≠ 0%nat) → bb_find bbs id = Some bb →
  ∃ j, bb_first (bb_firsts bbs k) id = Ok (k + j)%nat ∧
    ∀ m p, with_next (ib_instrs bb) !! m = Some p →
      flat_map (with_next ∘ ib_instrs) bbs !! (j + m)%nat = Some p.
Proof.
  unfold bb_find, bb_first. intros Hne Hf. revert k.
  induction bbs as [|b bbs IH]; intros k; [done|]. cbn [bb_firsts list_find fst flat_map] in *.
  destruct (decide (ib_id b = id)) as [E|E].
  - injection Hf as ->. pose proof (Hne bb ltac:(apply elem_of_cons; by left)) as Hb.
    exists 0%nat. rewrite Nat.add_0_r. cbn [fmap option_fmap option_map snd oget mbind res_bind].
    split; [by destruct (ib_instrs bb)|]. intros m p Hm. unfold compose at 1. cbn [Nat.add].
    by apply lookup_app_l_Some.
  - destruct (IH (λ b' Hb', Hne b' (proj2 (elem_of_cons _ _ _) (or_intror Hb')))) with
      (k := (k + length (ib_instrs b))%nat) as (j & Hj & Hat).
    { destruct (list_find _ bbs) as [[? ?]|]; [exact Hf|done]. }
    exists (length (ib_instrs b) + j)%nat. split.
    + rewrite Nat.add_assoc. destruct (list_find _ (bb_firsts bbs _)) as [[? ?]|]; [exact Hj|done].
    + intros m p Hm. unfold compose at 1. assert (length (with_next (ib_instrs b)) = length (ib_instrs b)) as El.
      { clear. induction (ib_instrs b); simpl; congruence. }
      rewrite lookup_app_r by (rewrite El; lia). rewrite El.
      replace (length (ib_instrs b) + j + m - length (ib_instrs b))%nat with (j + m)%nat by lia.
      by apply Hat.
Qed.

Lemma bb_first_spec bbs k id bb :
  (∀ b, b ∈ bbs → length (ib_instrs b) ≠ 0%nat) → bb_find bbs id = Some bb →
  ∃ j, bb_first (bb_firsts bbs k) id = Ok j ∧
    (k <= j < k + length (flat_map ib_instrs bbs))%nat.
Proof.
  unfold bb_find, bb_first. intros Hne Hf. revert k.
  induction bbs as [|b bbs IH]; intros k; [done|]. cbn [bb_firsts list_find fst flat_map] in *.
  rewrite length_app. destruct (decide (ib_id b = id)) as [E|E].
  - cbn [fmap option_fmap option_map snd oget mbind res_bind].
    pose proof (Hne b ltac:(apply elem_of_cons; by left)).
    destruct (ib_instrs b) eqn:Ei; [done|]. cbn [oget length] in *. exists k. split; [done|lia].
  - destruct (IH (λ b' Hb', Hne b' (proj2 (elem_of_cons _ _ _) (or_intror Hb')))) with
      (k := (k + length (ib_instrs b))%nat) as (j & Hj & Hlt).
    { destruct (list_find _ bbs) as [[? ?]|]; [exact Hf|done]. }
    exists j. split; [|lia].
    destruct (list_find _ (bb_firsts bbs _)) as [[? ?]|]; [exact Hj|done].
Qed.

Lemma with_next_fst l : map fst (with_next l) = l.
Proof. induction l; simpl; congruence. Qed.

Lemma flat_next bbs k i :
  flat_map (with_next ∘ ib_instrs) bbs !! k = Some (i, true) →
  (S k < length (flat_map (with_next ∘ ib_instrs) bbs))%nat.
Proof.
  revert k; induction bbs as [|bb bbs IH]; intros k; [done|]. cbn [flat_map]. unfold compose at 1.
  rewrite length_app, lookup_app. intros H.
  destruct (with_next (ib_instrs bb) !! k) as [p|] eqn:E.
  - injection H as ->. assert (S k < length (with_next (ib_instrs bb)))%nat; [|unfold compose; lia].
    clear -E. revert k E; induction (ib_instrs bb) as [|a [|b l] IH]; intros [|k] E; try done; simpl in *; try lia.
    specialize (IH k E). lia.
  - apply lookup_ge_None in E. specialize (IH _ H). unfold compose in *. lia.
Qed.

Lemma flat_fst bbs : map fst (flat_map (with_next ∘ ib_instrs) bbs) = flat_map ib_instrs bbs.
Proof.
  induction bbs as [|bb bbs IH]; [done|]. cbn [flat_map]. rewrite map_app, IH.
  unfold compose at 1. by rewrite with_next_fst.
Qed.

Lemma mapR_ok {A B} (f : A → res B) (P : A → B → Prop) l :
  (∀ a, a ∈ l → ∃ b, f a = Ok b ∧ P a b) → ∃ l', mapR f l = Ok l' ∧ Forall2 P l l'.
Proof.
  induction l as [|a l IH]; intros H; [by exists []|].
  destruct (H a ltac:(apply elem_of_cons; by left)) as (b & Hb & HP).
  destruct IH as (l' & Hl' & HP'); [intros; by apply H, elem_of_cons; right|].
  exists (b :: l'). cbn [mapR]. rewrite Hb, Hl'. split; [done|by constructor].
Qed.

(** What [live_node_of] keeps of an instruction. *)
Definition node_facts (vs : value_state) (ffv : Z) (setwords : nat) (bbs : list ir_bb)
    (p : ir_instr * bool) (nd : live_node) : Prop :=
  live_instr_ok vs ffv bbs p.1 = true ∧ ln_instr nd = p.1 ∧ ln_next nd = p.2 ∧
  liveness_set_succ bbs p.1 = Ok (ln_succ nd) ∧ set_ok setwords (ln_gen nd) ∧
  ∃ l, gen_values p.1 = Ok l ∧
    ∀ v, 0 <= v → bs_in (ln_gen nd) v = existsb (λ x, is_temp vs ffv x v) l.

Lemma live_node_of_spec vs ffv setwords bbs p :
  0 <= ffv → Z.of_nat (vs_next vs) - ffv <= 32 * Z.of_nat setwords →
  live_instr_ok vs ffv bbs p.1 = true →
  ∃ nd, live_node_of vs ffv setwords bbs p = Ok nd ∧ node_facts vs ffv setwords bbs p nd.
Proof.
  intros Hf Hw Hp. pose proof Hp as H. unfold live_instr_ok in H.
  unfold node_facts, live_node_of, liveness_set_gen.
  destruct (gen_values p.1) as [l|]; [|done].
  destruct (ret_values (instr_ret p.1)) as [r|]; [|done].
  destruct (liveness_set_succ bbs p.1) as [s|]; [|done].
  apply andb_true_iff in H as [[Hl _]%andb_true_iff _]. rok.
  destruct (liveness_set_gen_spec vs ffv setwords l (empty_set setwords) Hf Hw Hl) as (g & -> & Hg & Hb);
    [split; [apply length_replicate|apply bs_wf_zeros]|]. rok.
  eexists (mk_ln p.1 p.2 s g). split; [reflexivity|]. split_and!; [done..|]. exists l. split; [done|].
  intros v Hv. cbn [ln_gen]. rewrite Hb by done. unfold empty_set. by rewrite bs_in_zeros, orb_false_r.
Qed.

Lemma bb_find_id bbs id bb : bb_find bbs id = Some bb → ib_id bb = id.
Proof.
  unfold bb_find. intros H. destruct (list_find _ bbs) as [[k b]|] eqn:E; [|done].
  injection H as <-. by apply list_find_Some in E as (_ & E & _).
Qed.

Lemma succ_blocks_found bbs i bl id :
  liveness_set_succ bbs i = Ok (succ_blocks bl) → Some id ∈ bl →
  ∃ bb, bb_find bbs id = Some bb.
Proof.
  intros H Hin. assert (∃ l, bl = map (λ id, ib_id <$> bb_find bbs id) l) as [l ->].
  { destruct i; cbn [liveness_set_succ] in H; try discriminate H; injection H as <-;
      first [by exists [] | eexists; reflexivity | eexists [_; _]; reflexivity
            | eexists (_ :: map pa_block _); reflexivity]. }
  apply list_elem_of_fmap in Hin as (id' & E & _).
  destruct (bb_find bbs id') as [bb|] eqn:Ef; [|done]. injection E as ->. exists bb.
  by rewrite (bb_find_id _ _ _ Ef).
Qed.

Lemma node_facts_ok vs ffv setwords bbs nodes k nd p :
  (∀ b, b ∈ bbs → length (ib_instrs b) ≠ 0%nat) →
  Z.of_nat (vs_next vs) - ffv <= 32 * Z.of_nat setwords →
  length nodes = length (flat_map (with_next ∘ ib_instrs) bbs) →
  flat_map (with_next ∘ ib_instrs) bbs !! k = Some p → node_facts vs ffv setwords bbs p nd →
  node_ok nodes (bb_firsts bbs 0) setwords ffv k nd.
Proof.
  intros Hne Hw Hlen Hp (Hi & E1 & E2 & E3 & Hg & _). destruct p as [i nx]. cbn [fst snd] in *.
  unfold live_instr_ok in Hi. rewrite E3 in Hi. destruct (gen_values i); [|done].
  destruct (ret_values (instr_ret i)) as [r|] eqn:Er; [|done].
  apply andb_true_iff in Hi as [[_ Hr]%andb_true_iff Hs]. split; [done| |].
  - rewrite E1. exists r. split; [done|]. intros x Hx. apply (forallb_elem _ _ _ Hr) in Hx.
    unfold value_ok in Hx. apply andb_true_iff in Hx as [Hx1%Z.leb_le Hx2%Z.ltb_lt].
    unfold bit_range. lia.
  - unfold succ_of. destruct (ln_succ nd) as [|bl] eqn:Esucc.
    + exists (if ln_next nd then [S k] else []). split; [done|]. rewrite E2.
      destruct nx; [|by intros j ?%not_elem_of_nil]. intros j ->%list_elem_of_singleton.
      rewrite Hlen. apply (flat_next _ _ i Hp).
    + destruct (mapR_ok (λ o, id ← oget o Undef; bb_first (bb_firsts bbs 0) id)
        (λ _ j, (j < length nodes)%nat) bl) as (js & Hjs & HFj).
      { intros o Ho. pose proof (forallb_elem _ _ _ Hs Ho) as Hso.
        apply bool_decide_eq_true in Hso as [id ->]. rok.
        destruct (succ_blocks_found _ _ _ _ E3 Ho) as (bb & Hbb).
        destruct (bb_first_spec bbs 0 id bb Hne Hbb) as (j & Hj & Hlt). exists j.
        split; [done|]. rewrite Hlen, <- (length_map fst), flat_fst. lia. }
      exists js. split; [exact Hjs|]. intros j Hj. apply list_elem_of_lookup in Hj as [n Hj].
      by destruct (Forall2_lookup_r _ _ _ _ _ HFj Hj) as (? & _ & ?).
Qed.

(** Where the sets of a function are in the end. *)
Definition setwords_of (vs : value_state) (ffv : Z) : nat :=
  Z.to_nat ((Z.of_nat (vs_next vs) - ffv + 31) / 32).

Lemma setwords_of_le vs ffv :
  ffv <= Z.of_nat (vs_next vs) → Z.of_nat (vs_next vs) - ffv <= 32 * Z.of_nat (setwords_of vs ffv).
Proof.
  intros H. unfold setwords_of. rewrite Z2Nat.id by (apply Z.div_pos; lia).
  Z.div_mod_to_equations; lia.
Qed.

(** The parts of [body_ok]. *)
Lemma body_ok_inv vs ffv bbs :
  body_ok vs ffv bbs = true →
  0 <= ffv <= Z.of_nat (vs_next vs) ∧
  (∀ b, b ∈ bbs → length (ib_instrs b) ≠ 0%nat) ∧
  (∀ b i, b ∈ bbs → i ∈ ib_instrs b → live_instr_ok vs ffv bbs i = true).
Proof.
  unfold body_ok. intros [[H1%Z.leb_le H2%Z.leb_le]%andb_true_iff H3]%andb_true_iff.
  split; [done|]. split; intros b.
  - intros Hb. apply (forallb_elem _ _ _ H3), andb_true_iff in Hb as [Hb _].
    by apply negb_true_iff, bool_decide_eq_false in Hb.
  - intros i Hb Hi. apply (forallb_elem _ _ _ H3), andb_true_iff in Hb as [_ Hb].
    by apply (forallb_elem _ _ _ Hb).
Qed.

(** The analysis of a function: the instructions are those of the blocks, and
    the sets are right for every number that has a bit. *)
Record live_result (vs : value_state) (ffv : Z) (bbs : list ir_bb) (nodes : list live_node)
    (live : live_sets) : Prop := {
  lr_instrs : map ln_instr nodes = flat_map ib_instrs bbs;
  lr_nodes : ∀ k nd, nodes !! k = Some nd →
    ∃ p, flat_map (with_next ∘ ib_instrs) bbs !! k = Some p ∧
         node_facts vs ffv (setwords_of vs ffv) bbs p nd;
  lr_ok : ∀ k nd, nodes !! k = Some nd →
    node_ok nodes (bb_firsts bbs 0) (setwords_of vs ffv) ffv k nd;
  lr_length : length live = length nodes;
  lr_sets : ∀ k p, live !! k = Some p → set_ok (setwords_of vs ffv) p.1;
  lr_live : ∀ k nd v, nodes !! k = Some nd → bit_range (setwords_of vs ffv) v →
    (in_b live k v = true ↔ live_at nodes (bb_firsts bbs 0) ffv k v) ∧
    (out_b live k v = true ↔
       ∃ j, j ∈ node_succs (bb_firsts bbs 0) k nd ∧ live_at nodes (bb_firsts bbs 0) ffv j v);
}.

Lemma liveness_sets_spec vs ffv bbs :
  body_ok vs ffv bbs = true →
  ∃ nodes live, liveness_sets vs ffv bbs = Ok (nodes, live) ∧ live_result vs ffv bbs nodes live.
Proof.
  intros ([H1 H2] & Hne & Hin)%body_ok_inv. pose proof (setwords_of_le vs ffv H2) as Hw.
  unfold liveness_sets. fold (setwords_of vs ffv). set (setwords := setwords_of vs ffv) in *.
  set (flat := flat_map (with_next ∘ ib_instrs) bbs).
  assert (∀ p, p ∈ flat → live_instr_ok vs ffv bbs p.1 = true) as Hi.
  { intros p Hp. assert (p.1 ∈ flat_map ib_instrs bbs) as Hp1.
    { rewrite <- flat_fst. apply list_elem_of_In, in_map, list_elem_of_In, Hp. }
    apply list_elem_of_In, in_flat_map in Hp1 as (b & Hb%list_elem_of_In & Hp1%list_elem_of_In).
    by eapply Hin. }
  destruct (mapR_ok (live_node_of vs ffv setwords bbs) (node_facts vs ffv setwords bbs) flat)
    as (nodes & Hn & HF); [intros p Hp; by apply live_node_of_spec, Hi|].
  assert (length nodes = length flat) as Hlen by (symmetry; by eapply list.Forall2_length).
  assert (∀ k nd, nodes !! k = Some nd → ∃ p, flat !! k = Some p ∧ node_facts vs ffv setwords bbs p nd)
    as Hfacts by (intros k nd Hk; by apply (Forall2_lookup_r _ _ _ _ _ HF Hk)).
  assert (∀ k nd, nodes !! k = Some nd → node_ok nodes (bb_firsts bbs 0) setwords ffv k nd) as Hok.
  { intros k nd Hk. destruct (Hfacts k nd Hk) as (p & Hp & Hf). by eapply node_facts_ok. }
  destruct (liveness_update_spec nodes (bb_firsts bbs 0) setwords ffv Hok
    (liveness_fuel (length nodes) setwords)
    (replicate (length nodes) (empty_set setwords, empty_set setwords))) as (live & Hu & Hinv & Hst);
    [apply empty_inv|unfold liveness_fuel; lia|].
  exists nodes, live. unfold live_nodes. fold flat. rewrite Hn. rok. rewrite Hu. rok.
  split; [done|]. destruct (si_ok _ _ _ _ _ Hinv) as [Hll Hls]. split; [|done|done|done| |].
  - rewrite <- flat_fst. fold flat. apply list_eq. intros k. rewrite !list_lookup_fmap.
    destruct (nodes !! k) as [nd|] eqn:Hk.
    + destruct (Hfacts k nd Hk) as (p & -> & _ & E & _). simpl. by rewrite E.
    + apply lookup_ge_None in Hk. by rewrite (proj2 (lookup_ge_None flat k)) by lia.
  - intros k p Hp. by apply (Hls k p).
  - intros k nd v Hk Hv. by apply (stable_live nodes (bb_firsts bbs 0) setwords ffv live Hinv Hst k nd v Hk Hv).
Qed.

(** What an instruction reads. *)
Lemma node_uses_spec vs ffv bbs nodes live k nd v :
  live_result vs ffv bbs nodes live → nodes !! k = Some nd → 0 <= v →
  node_uses nd v = true ↔
  ∃ l x, gen_values (ln_instr nd) = Ok l ∧ x ∈ l ∧ is_temp vs ffv x v = true.
Proof.
  intros Hr Hk Hv. destruct (lr_nodes _ _ _ _ _ Hr k nd Hk) as (p & _ & _ & E & _ & _ & _ & l & Hl & Hb).
  rewrite E, Hl. unfold node_uses. rewrite Hb by lia. rewrite existsb_exists. split.
  - intros (x & Hx & Ht). exists l, x. split_and!; [done|by apply list_elem_of_In|done].
  - intros (l' & x & [= <-] & Hx & Ht). exists x. split; [by apply list_elem_of_In|done].
Qed.

(** C15: liveness analysis ends and computes liveness. For blocks that are not
    empty, whose instructions are those it knows, with branches to blocks of
    the function, [liveness_analysis] reaches a stable state within the bound;
    then bit [v] of [gen] says that the instruction reads temporary [v], bit
    [v] of [in] that there is a path from the instruction to a use of [v] that
    does not pass a definition of it before, and bit [v] of [out] the same
    from one of its successors. *)
Theorem liveness_sets_correct vs ffv bbs :
  body_ok vs ffv bbs = true →
  let firsts := bb_firsts bbs 0 in
  ∃ nodes live, liveness_sets vs ffv bbs = Ok (nodes, live) ∧
    map ln_instr nodes = flat_map ib_instrs bbs ∧
    ∀ k nd v, nodes !! k = Some nd → 0 <= v < Z.of_nat (vs_next vs) - ffv →
      (node_uses nd v = true ↔ ∃ l x, gen_values (ln_instr nd) = Ok l ∧ x ∈ l ∧
         is_temp vs ffv x v = true) ∧
      (in_b live k v = true ↔ live_at nodes firsts ffv k v) ∧
      (out_b live k v = true ↔
         ∃ j, j ∈ node_succs firsts k nd ∧ live_at nodes firsts ffv j v).
Proof.
  intros H firsts. pose proof (body_ok_inv _ _ _ H) as [[_ H2] _].
  destruct (liveness_sets_spec vs ffv bbs H) as (nodes & live & Hr & Hl). exists nodes, live.
  split; [done|]. split; [apply Hl|]. intros k nd v Hk Hv.
  split; [by eapply node_uses_spec; [..|lia]|]. apply (lr_live _ _ _ _ _ Hl k nd v Hk).
  pose proof (setwords_of_le vs ffv H2). unfold bit_range. lia.
Qed.

(** A loop: values 0 to 2 are constants, 3 and 4 temporaries. *)
Definition example_temp : ir_value := mk_value IR_VC_TEMPORARY 0 (U_word 0) D_none (-1).
Definition example_live_vs : value_state :=
  mk_vs (replicate 3 (Some blank_value) ++ replicate 2 (Some example_temp)) 5 (mk_types [] false None).
Definition example_vt (v : Z) : ir_valuetype := mk_vt v 0.
Definition example_rv (v : Z) : ir_ret := mk_ret (mk_vt v 0) [].
Definition example_loop : list ir_bb :=
  [mk_bb 1 [IR_IC_MOVE (example_vt 0) (example_rv 3); IR_IC_BR (example_vt (-1)) 2 0];
   mk_bb 2 [IR_IC_BINOP 0 (example_vt 3) (example_vt 1) (example_rv 4);
            IR_IC_MOVE (example_vt 4) (example_rv 3);
            IR_IC_CMP_BRANCH 36 (example_vt 4) (example_vt 2) 2 3];
   mk_bb 3 [IR_IC_RET (example_vt 3)]].

Lemma liveness_sets_correct_witness :
  body_ok example_live_vs 3 example_loop = true ∧
  ∃ nodes live, liveness_sets example_live_vs 3 example_loop = Ok (nodes, live) ∧
    out_b live 4 0 = true ∧ out_b live 4 1 = false ∧ out_b live 2 1 = true ∧
    in_b live 2 0 = true ∧ live_at nodes (bb_firsts example_loop 0) 3 2 0.
Proof.
  split; [by vm_compute|].
  destruct (liveness_sets_correct example_live_vs 3 example_loop) as (nodes & live & H & _ & Hk);
    [by vm_compute|].
  pose proof H as H'. vm_compute in H'. injection H' as Hn Hl.
  exists nodes, live. split; [exact H|].
  assert (in_b live 2 0 = true) as Hin by (rewrite <- Hl; by vm_compute).
  split_and!; [rewrite <- Hl; by vm_compute..|exact Hin|].
  destruct (nodes !! 2%nat) as [nd|] eqn:E; [|by rewrite <- Hn in E; discriminate E].
  destruct (Hk 2%nat nd 0 E) as (_ & Hlive & _); [vm_compute; split; (discriminate || reflexivity)|].
  apply Hlive, Hin.
Defined.
