(* ===== verification/RegAlloc.v ===== *)
(** Register allocation: the interference matrix of [coalesce] and
    [reg_alloc] of [src/src/vmir_transform.c], without the JIT. *)
From S2P Require Import Prelude Support Types Values Instr Liveness.
Local Open Scope Z_scope.

(** ** The interference matrix *)

(** The matrix, and [iv_edges] of the temporaries by their number. *)
Definition bump (edges : list Z) (k d : Z) : res (list Z) :=
  if k <? 0 then Fail Undef else
  e ← oget (edges !! Z.to_nat k) Undef; Ok (<[Z.to_nat k := e + d]> edges).

(** The bits of a set in ascending order, as the loop over [ffs] meets them. *)
Definition bs_elems (bs : list Z) : list Z := filter (λ v, bs_in bs v = true) (seqZ 0 (bs_bits bs)).

(** The body of the loop over the bits [y] of [out], for the result [x]; the
    last component is [edges]. *)
Definition interfere (x v : Z) (s : list Z * list Z * Z) (y : Z) : res (list Z * list Z * Z) :=
  let '(mtx, iv_edges, edges) := s in
  if (y =? x) || (y =? v) then Ok s else
  b ← tribitmtx_get mtx x y;
  if b : bool then Ok s else
  mtx ← tribitmtx_set mtx x y;
  iv_edges ← bump iv_edges y 1;
  Ok (mtx, iv_edges, edges + 1).

Definition interfere_ret (ffv v : Z) (out : list Z) (s : list Z * list Z) (ret : ir_valuetype)
    : res (list Z * list Z) :=
  let x := vt_value ret - ffv in
  '(mtx, iv_edges, edges) ← foldR (interfere x v) (s, 0) (bs_elems out);
  iv_edges ← bump iv_edges x edges;
  Ok (mtx, iv_edges).

(** The source of a move, or -1. *)
Definition move_source (ffv : Z) (i : ir_instr) : Z :=
  match i with IR_IC_MOVE value _ => vt_value value - ffv | _ => -1 end.

Definition interfere_instr (ffv : Z) (s : list Z * list Z) (p : ir_instr * list Z)
    : res (list Z * list Z) :=
  rets ← ret_values (instr_ret p.1);
  foldR (interfere_ret ffv (move_source ffv p.1) p.2) s rets.

(** The first loop of [coalesce], over the instructions with their [out]. *)
Definition interference (temp_values ffv : Z) (l : list (ir_instr * list Z))
    : res (list Z * list Z) :=
  foldR (interfere_instr ffv)
    (default [] (tribitmtx_alloc temp_values), replicate (Z.to_nat temp_values) 0) l.

(** ** [reg_alloc] *)

Definition RA_CLASSES : Z := 3.
Definition RA_CLASS_MACHINEREG_32 : Z := 0.
Definition RA_CLASS_REGFRAME_32 : Z := 1.
Definition RA_CLASS_REGFRAME_64 : Z := 2.

Record value_info := mk_vi { vi_value : Z; vi_score : Z; vi_class : Z }.

(** [__builtin_ffs(w) - 1] of a word, [None] for 0. *)
Definition first_bit (w : Z) : option Z :=
  snd <$> list_find (λ b, Z.testbit w b = true) (seqZ 0 32).

(** The lowest color of a table. *)
Fixpoint first_color (tab : list Z) (j : Z) : option Z :=
  match tab with
  | [] => None
  | w :: tab =>
      match first_bit w with
      | Some c => Some (c + j * 32)
      | None => first_color tab (j + 1)
      end
  end.

(** [value_regframe_slots] gives the class; [iv_jit] is 0. *)
Definition ra_class (slots : Z) : res Z :=
  if slots =? 2 then Ok RA_CLASS_REGFRAME_64
  else if slots =? 1 then Ok RA_CLASS_REGFRAME_32
  else Fail Aborted.

(** A node of the graph: a temporary that is not precolored. *)
Definition is_vertex (iv : ir_value) : bool :=
  bool_decide (iv_class iv = IR_VC_TEMPORARY) && (iv_precolored iv =? -1).

Definition ra_vertex (vs : value_state) (iv_edges : list Z) (ffv : Z)
    (s : list value_info * Z) (i : Z) : res (list value_info * Z) :=
  let '(vi, graph_degree) := s in
  iv ← value_get vs (i + ffv);
  if is_vertex iv then
    slots ← value_regframe_slots (iu_types (vs_types vs)) (iv_type iv);
    class ← ra_class slots;
    e ← oget (iv_edges !! Z.to_nat i) Undef;
    Ok (vi ++ [mk_vi i e class], VMIR_MAX graph_degree e)
  else Ok s.

(** The color of the [x]-th temporary is not for its neighbour [val_index]. *)
Definition ra_exclude (mtx colors : list Z) (val_index : Z) (tab : list Z) (x : Z) : res (list Z) :=
  b ← bitchk mtx (if x <? val_index then (val_index * val_index + val_index) / 2 + x
                  else val_index + (x * x + x) / 2);
  if b : bool then
    c ← oget (colors !! Z.to_nat x) Undef;
    if 0 <=? c then bitclr tab c else Ok tab
  else Ok tab.

Definition ra_color (mtx : list Z) (temp_values degree_words : Z) (colors : list Z)
    (vi : value_info) : res (list Z) :=
  let val_index := vi_value vi in
  tab ← foldR (ra_exclude mtx colors val_index)
          (replicate (Z.to_nat degree_words) (2 ^ 32 - 1)) (seqZ 0 temp_values);
  Ok (match first_color tab 0 with
      | Some c => <[Z.to_nat val_index := c]> colors
      | None => colors
      end).

(** One value of the class [c], placed after [base]. *)
Definition ra_place (colors : list Z) (ffv c rsize base : Z) (s : value_state * Z)
    (vi : value_info) : res (value_state * Z) :=
  let '(vs, regframe_slots) := s in
  if vi_class vi =? c then
    color ← oget (colors !! Z.to_nat (vi_value vi)) Undef;
    iv ← value_get vs (vi_value vi + ffv);
    let iv := set_u32 (set_class iv IR_VC_REGFRAME) (base + color * rsize) in
    Ok (value_set vs (vi_value vi + ffv) iv, VMIR_MAX regframe_slots (color + 1))
  else Ok s.

Definition class_reg_size (c : Z) : Z := if c =? RA_CLASS_REGFRAME_64 then 8 else 4.

(** One class; the second component is [if_regframe_size]. *)
Definition ra_class_place (colors : list Z) (ffv : Z) (vis : list value_info)
    (s : value_state * Z) (c : Z) : res (value_state * Z) :=
  let '(vs, regframe_size) := s in
  let rsize := class_reg_size c in
  let base := VMIR_ALIGN regframe_size rsize in
  '(vs, slots) ← foldR (ra_place colors ffv c rsize base) (vs, 0) vis;
  Ok (vs, base + slots * rsize).

Section reg_alloc.
(** [qsort] with [value_info_cmp]. *)
Context (qsort : list value_info → list value_info).

Definition reg_alloc (vs : value_state) (mtx iv_edges : list Z) (temp_values ffv regframe_size : Z)
    : res (value_state * Z) :=
  '(vi, graph_degree) ← foldR (ra_vertex vs iv_edges ffv) ([], 0) (seqZ 0 temp_values);
  let vi := qsort vi in
  let degree_words := (graph_degree + 32) / 32 in
  colors ← foldR (ra_color mtx temp_values degree_words)
             (replicate (Z.to_nat temp_values) (-1)) vi;
  foldR (ra_class_place colors ffv vi) (vs, regframe_size)
    [RA_CLASS_REGFRAME_32; RA_CLASS_REGFRAME_64].
End reg_alloc.

(** [finalize_call_args]: the argument area lies at the end of the frame. *)
Definition finalize_call_args (vs : value_state) (regframe_size call_arg_base num_call_args : Z)
    : res (value_state * Z) :=
  let size := regframe_size + num_call_args * 4 in
  vs ← foldR (λ vs i,
         iv ← value_get vs (call_arg_base + i);
         Ok (value_set vs (call_arg_base + i)
               (set_u32 (set_class iv IR_VC_REGFRAME) (size - (i + 1) * 4))))
       vs (seqZ 0 num_call_args);
  Ok (vs, size).

(** ** The matrix as a relation *)

Definition adj (mtx : list Z) (x y : Z) : bool := bs_in mtx (tribitmtx_pos x y).

(** Temporaries are numbered below [n]. *)
Definition temp (n x : Z) : Prop := 0 <= x < n.

(** The matrix has a bit for each pair. *)
Definition mtx_ok (n : Z) (mtx : list Z) : Prop := tribitmtx_bits n <= bs_bits mtx.

Lemma adj_comm mtx x y : adj mtx x y = adj mtx y x.
Proof. unfold adj. by rewrite tribitmtx_pos_comm. Qed.

Lemma pos_bits n mtx x y :
  mtx_ok n mtx → temp n x → temp n y → 0 <= tribitmtx_pos x y < bs_bits mtx.
Proof. intros Hm Hx Hy. pose proof (tribitmtx_pos_range n x y Hx Hy). unfold mtx_ok in Hm. lia. Qed.

(** The same place is the same pair, in one order or the other. *)
Definition same_pair (a b x y : Z) : bool := ((a =? x) && (b =? y)) || ((a =? y) && (b =? x)).

Lemma pos_pair n a b x y :
  temp n a → temp n b → temp n x → temp n y →
  (tribitmtx_pos a b =? tribitmtx_pos x y) = same_pair a b x y.
Proof.
  unfold temp, same_pair. intros Ha Hb Hx Hy. apply eq_true_iff_eq. rewrite orb_true_iff, !andb_true_iff, !Z.eqb_eq.
  assert (∀ a b x y, 0 <= a <= b → 0 <= x <= y → tribitmtx_pos a b = tribitmtx_pos x y →
    a = x ∧ b = y) as Hinj by (intros; by apply tribitmtx_pos_inj).
  split; [|intros [[-> ->]|[-> ->]]; [done|by rewrite tribitmtx_pos_comm]].
  intros E. destruct (Z.le_gt_cases a b), (Z.le_gt_cases x y).
  - left. apply Hinj; (lia || done).
  - right. rewrite (tribitmtx_pos_comm x) in E. apply Hinj; (lia || done).
  - right. rewrite (tribitmtx_pos_comm a) in E. apply Hinj in E; lia.
  - left. rewrite (tribitmtx_pos_comm a), (tribitmtx_pos_comm x) in E. apply Hinj in E; lia.
Qed.

Lemma tribitmtx_get_spec n mtx x y :
  mtx_ok n mtx → temp n x → temp n y → tribitmtx_get mtx x y = Ok (adj mtx x y).
Proof. intros Hm Hx Hy. apply bitchk_spec. by eapply pos_bits. Qed.

Lemma tribitmtx_set_spec n mtx x y :
  mtx_ok n mtx → temp n x → temp n y →
  ∃ mtx', tribitmtx_set mtx x y = Ok mtx' ∧ mtx_ok n mtx' ∧
    ∀ a b, temp n a → temp n b → adj mtx' a b = same_pair a b x y || adj mtx a b.
Proof.
  intros Hm Hx Hy. destruct (bitset_spec mtx (tribitmtx_pos x y)) as (m & Hr & Hl & Hb);
    [by eapply pos_bits|]. exists m. split_and!; [done| |].
  - unfold mtx_ok, bs_bits in *. by rewrite Hl.
  - intros a b Ha Hb'. unfold adj. rewrite Hb; [by erewrite pos_pair|].
    by apply (pos_bits n mtx a b Hm).
Qed.

Lemma tribitmtx_clr_spec n mtx x y :
  mtx_ok n mtx → temp n x → temp n y →
  ∃ mtx', tribitmtx_clr mtx x y = Ok mtx' ∧ mtx_ok n mtx' ∧
    ∀ a b, temp n a → temp n b → adj mtx' a b = negb (same_pair a b x y) && adj mtx a b.
Proof.
  intros Hm Hx Hy. destruct (bitclr_spec mtx (tribitmtx_pos x y)) as (m & Hr & Hl & Hb);
    [by eapply pos_bits|]. exists m. split_and!; [done| |].
  - unfold mtx_ok, bs_bits in *. by rewrite Hl.
  - intros a b Ha Hb'. unfold adj. rewrite Hb; [by erewrite pos_pair|].
    by apply (pos_bits n mtx a b Hm).
Qed.

(** ** Degrees *)

(** The number of neighbours of [x]. *)
Definition deg (n : Z) (f : Z → bool) : Z := Z.of_nat (length (filter (λ y, f y = true) (seqZ 0 n))).

Lemma filter_same (f g : Z → bool) (l : list Z) :
  (∀ z, z ∈ l → g z = f z) → filter (λ z, g z = true) l = filter (λ z, f z = true) l.
Proof.
  induction l as [|a l IH]; intros H; [done|]. rewrite !filter_cons.
  rewrite (H a) by (apply elem_of_cons; by left).
  rewrite IH by (intros; apply H, elem_of_cons; by right). done.
Qed.

Lemma filter_flip (f g : Z → bool) y l :
  NoDup l → y ∈ l → (∀ z, z ∈ l → z ≠ y → g z = f z) → f y = false → g y = true →
  length (filter (λ z, g z = true) l) = S (length (filter (λ z, f z = true) l)).
Proof.
  intros Hnd Hy Hz Hf Hg. apply list_elem_of_split in Hy as (l1 & l2 & ->).
  apply list.NoDup_app in Hnd as (_ & H1 & [H2 _]%list.NoDup_cons).
  rewrite !list.filter_app, !length_app, !filter_cons.
  rewrite (decide_True (P := g y = true)), (decide_False (P := f y = true)) by congruence. cbn [length].
  rewrite (filter_same f g l1), (filter_same f g l2); [lia| |]; intros z Hin; apply Hz.
  - set_solver.
  - congruence.
  - set_solver.
  - intros ->. by apply (H1 y Hin), elem_of_cons; left.
Qed.

Lemma deg_flip n f g y :
  temp n y → (∀ z, temp n z → z ≠ y → g z = f z) → f y = false → g y = true →
  deg n g = deg n f + 1.
Proof.
  intros Hy Hz Hf Hg. unfold deg.
  rewrite (filter_flip f g y (seqZ 0 n)); [lia|apply NoDup_seqZ| | |done|done].
  - apply elem_of_seqZ. unfold temp in Hy. lia.
  - intros z Hz1%elem_of_seqZ. apply Hz. unfold temp. lia.
Qed.

Lemma deg_ext n f g : (∀ z, temp n z → g z = f z) → deg n g = deg n f.
Proof.
  intros H. unfold deg. do 2 f_equal. apply filter_same.
  intros z Hz%elem_of_seqZ. apply H. unfold temp. lia.
Qed.

Lemma deg_none n f : (∀ z, f z = false) → deg n f = 0.
Proof.
  intros H. unfold deg. induction (seqZ 0 n) as [|a l IH]; [done|].
  rewrite filter_cons, decide_False by (by rewrite H). exact IH.
Qed.

(** ** The interference matrix is right *)

(** A loop each of whose iterations adds pairs to a relation. *)
Lemma foldR_adds {A S} (G : S → (Z → Z → Prop) → Prop) (f : S → A → res S)
    (adds : A → Z → Z → Prop) l s R :
  (∀ s R R', (∀ x y, R x y ↔ R' x y) → G s R → G s R') →
  (∀ s a R, a ∈ l → G s R → ∃ s', f s a = Ok s' ∧ G s' (λ x y, R x y ∨ adds a x y)) →
  G s R →
  ∃ s', foldR f s l = Ok s' ∧ G s' (λ x y, R x y ∨ ∃ a, a ∈ l ∧ adds a x y).
Proof.
  intros HG. revert s R; induction l as [|a l IH]; intros s R Hf Hs.
  - exists s. split; [done|]. eapply HG; [|exact Hs]. intros x y. split; [by left|].
    intros [?|(a & ?%not_elem_of_nil & _)]; done.
  - destruct (Hf s a R) as (s1 & Hs1 & HG1); [apply elem_of_cons; by left|done|].
    destruct (IH s1 (λ x y, R x y ∨ adds a x y)) as (s2 & Hs2 & HG2);
      [intros; apply Hf; [apply elem_of_cons; by right|done]|done|].
    exists s2. cbn [foldR]. rewrite Hs1. split; [exact Hs2|].
    eapply HG; [|exact HG2]. intros x y. setoid_rewrite elem_of_cons. naive_solver.
Qed.

Section matrix.
Context (n ffv : Z).
Notation temp := (temp n).

(** The edges of a temporary, [extra] of which are not counted for [x]. *)
Definition counted (mtx edges : list Z) (x extra : Z) : Prop :=
  ∀ z, temp z → ∃ e, edges !! Z.to_nat z = Some e ∧
    deg n (adj mtx z) = e + (if z =? x then extra else 0).

(** The matrix holds the relation [R] and nothing on its diagonal. *)
Definition holds (mtx : list Z) (R : Z → Z → Prop) : Prop :=
  mtx_ok n mtx ∧ (∀ z, temp z → adj mtx z z = false) ∧
  ∀ a b, temp a → temp b → (adj mtx a b = true ↔ R a b).

Definition graph_ok (s : list Z * list Z) (R : Z → Z → Prop) : Prop :=
  holds s.1 R ∧ counted s.1 s.2 (-1) 0.

Lemma bump_spec edges k d e :
  0 <= k → edges !! Z.to_nat k = Some e →
  bump edges k d = Ok (<[Z.to_nat k := e + d]> edges).
Proof. intros Hk H. unfold bump. destruct (Z.ltb_spec k 0); [lia|]. by rewrite H. Qed.

Lemma same_pair_self a x y : same_pair a a x y = (a =? x) && (a =? y).
Proof. unfold same_pair. by destruct (a =? x), (a =? y). Qed.

(** A new edge between [x] and [y] and the degrees. *)
Lemma deg_set mtx mtx' x y :
  temp x → temp y → x ≠ y → adj mtx x y = false →
  (∀ a b, temp a → temp b → adj mtx' a b = same_pair a b x y || adj mtx a b) →
  ∀ z, temp z → deg n (adj mtx' z) =
    deg n (adj mtx z) + (if z =? x then 1 else 0) + (if z =? y then 1 else 0).
Proof.
  intros Hx Hy Hne Hadj Hset z Hz. unfold same_pair in Hset.
  destruct (Z.eqb_spec z x) as [->|Hzx]; [|destruct (Z.eqb_spec z y) as [->|Hzy]].
  - rewrite (proj2 (Z.eqb_neq x y)) by done. rewrite Z.add_0_r. apply (deg_flip n _ _ y); [done| |done|].
    + intros b Hb Hbne. rewrite Hset by done. rewrite (proj2 (Z.eqb_neq b y)) by done.
      by rewrite andb_false_r, (proj2 (Z.eqb_neq x y)).
    + rewrite Hset by done. by rewrite !Z.eqb_refl.
  - rewrite Z.add_0_r. apply (deg_flip n _ _ x); [done| |by rewrite adj_comm|].
    + intros b Hb Hbne. rewrite Hset by done. rewrite (proj2 (Z.eqb_neq b x)) by done.
      by rewrite andb_false_r, orb_false_r, (proj2 (Z.eqb_neq y x)).
    + rewrite Hset by done. by rewrite !Z.eqb_refl, orb_true_r.
  - rewrite !Z.add_0_r. apply deg_ext. intros b Hb. rewrite Hset by done.
    by rewrite (proj2 (Z.eqb_neq z x)), (proj2 (Z.eqb_neq z y)).
Qed.

Definition mid_ok (x : Z) (s : list Z * list Z * Z) (R : Z → Z → Prop) : Prop :=
  holds s.1.1 R ∧ counted s.1.1 s.1.2 x s.2.

Lemma holds_ext mtx (R R' : Z → Z → Prop) :
  (∀ x y, R x y ↔ R' x y) → holds mtx R → holds mtx R'.
Proof. intros HR (H1 & H2 & H3). split_and!; [done|done|]. intros a b Ha Hb. by rewrite H3. Qed.

Lemma interfere_spec x v s y R :
  temp x → temp y → mid_ok x s R →
  ∃ s', interfere x v s y = Ok s' ∧
    mid_ok x s' (λ a b, R a b ∨ y ≠ x ∧ y ≠ v ∧ same_pair a b x y = true).
Proof.
  intros Hx Hy. destruct s as [[mtx edges] cnt]. intros [Hh Hc]. cbn [fst snd] in *.
  unfold interfere. destruct (Z.eqb_spec y x) as [Ex|Hyx]; [|destruct (Z.eqb_spec y v) as [Ev|Hyv]].
  1,2: cbn [orb]; exists (mtx, edges, cnt); split; [done|]; split; [|done];
    eapply holds_ext; [|exact Hh]; intros; tauto.
  cbn [orb]. destruct Hh as (Hm & Hd & HR). rewrite (tribitmtx_get_spec n mtx x y) by done. rok.
  destruct (adj mtx x y) eqn:Eadj.
  - exists (mtx, edges, cnt). split; [done|]. split; [|done]. split_and!; [done|done|].
    cbn [fst snd]. intros a b Ha Hb. rewrite (HR a b Ha Hb). split; [by left|].
    intros [H|(_ & _ & Hs)]; [done|]. apply HR; [done..|]. unfold same_pair in Hs.
    apply orb_true_iff in Hs as [Hs|Hs]; apply andb_true_iff in Hs as [->%Z.eqb_eq ->%Z.eqb_eq];
      [done|by rewrite adj_comm].
  - destruct (tribitmtx_set_spec n mtx x y Hm Hx Hy) as (m & -> & Hm' & Hset). rok.
    destruct (Hc y Hy) as (e & He & Hde). unfold RegAlloc.temp in Hy.
    rewrite (bump_spec edges y 1 e) by (lia || done). rok.
    eexists; split; [reflexivity|]. split; cbn [fst snd].
    + split_and!; [done| |].
      * intros z Hz. rewrite Hset, same_pair_self, Hd by done.
        destruct (Z.eqb_spec z x), (Z.eqb_spec z y); try done. congruence.
      * intros a b Ha Hb. rewrite Hset, orb_true_iff, (HR a b) by done. tauto.
    + intros z Hz. rewrite (deg_set mtx m x y) by done.
      destruct (Hc z Hz) as (e' & He' & ->). destruct (Z.eqb_spec z y) as [->|Hzy].
      * rewrite He in He'. injection He' as <-. exists (e + 1).
        rewrite list_lookup_insert_eq by (by eapply lookup_lt_Some). split; [done|].
        destruct (Z.eqb_spec y x); [done|]. lia.
      * exists e'. rewrite list_lookup_insert_ne by (unfold RegAlloc.temp in *; lia). split; [done|].
        destruct (z =? x); lia.
Qed.

Definition ret_pairs (v : Z) (out : list Z) (ret : ir_valuetype) (a b : Z) : Prop :=
  let x := vt_value ret - ffv in
  ∃ y, y ∈ bs_elems out ∧ y ≠ x ∧ y ≠ v ∧ same_pair a b x y = true.

Lemma interfere_ret_spec v out s ret R :
  temp (vt_value ret - ffv) → (∀ y, y ∈ bs_elems out → temp y) → graph_ok s R →
  ∃ s', interfere_ret ffv v out s ret = Ok s' ∧
    graph_ok s' (λ a b, R a b ∨ ret_pairs v out ret a b).
Proof.
  intros Hx Hout [Hh Hc]. unfold interfere_ret. set (x := vt_value ret - ffv) in *.
  destruct (foldR_adds (mid_ok x) (interfere x v)
    (λ y a b, y ≠ x ∧ y ≠ v ∧ same_pair a b x y = true) (bs_elems out) (s, 0) R)
    as ([[m e] c] & Hr & [Hh' Hc']).
  - intros s1 R1 R2 HR [H1 H2]. split; [by eapply holds_ext|done].
  - intros s1 y R1 Hy. apply interfere_spec; [done|by apply Hout].
  - split; [done|]. intros z Hz. destruct (Hc z Hz) as (e & He & Hd). exists e.
    split; [done|]. cbn [fst snd]. rewrite Hd. by destruct (z =? -1), (z =? x).
  - rewrite Hr. rok. cbn [fst snd] in *. destruct (Hc' x Hx) as (ex & Hex & Hdx).
    rewrite (bump_spec e x c ex) by (unfold RegAlloc.temp in Hx; lia || done). rok.
    eexists; split; [reflexivity|]. split; [done|]. cbn [fst snd]. intros z Hz.
    destruct (Z.eqb_spec z (-1)); [unfold RegAlloc.temp in Hz; lia|].
    destruct (decide (z = x)) as [->|Hzx].
    + exists (ex + c). rewrite list_lookup_insert_eq by (by eapply lookup_lt_Some).
      split; [done|]. rewrite Hdx, Z.eqb_refl. lia.
    + destruct (Hc' z Hz) as (ez & Hez & Hdz). exists ez.
      rewrite list_lookup_insert_ne by (unfold RegAlloc.temp in *; lia). split; [done|].
      rewrite Hdz. by rewrite (proj2 (Z.eqb_neq z x)).
Qed.

(** The pairs of an instruction: a result and another value live after it,
    the source of a move apart. *)
Definition instr_pairs (p : ir_instr * list Z) (a b : Z) : Prop :=
  ∃ rets ret, ret_values (instr_ret p.1) = Ok rets ∧ ret ∈ rets ∧
    ret_pairs (move_source ffv p.1) p.2 ret a b.

Definition interferes (l : list (ir_instr * list Z)) (a b : Z) : Prop :=
  ∃ p, p ∈ l ∧ instr_pairs p a b.

(** The results and the sets are of temporaries. *)
Definition outs_ok (p : ir_instr * list Z) : Prop :=
  (∃ rets, ret_values (instr_ret p.1) = Ok rets ∧ ∀ r, r ∈ rets → temp (vt_value r - ffv)) ∧
  ∀ y, y ∈ bs_elems p.2 → temp y.

Lemma graph_ok_ext s (R R' : Z → Z → Prop) :
  (∀ x y, R x y ↔ R' x y) → graph_ok s R → graph_ok s R'.
Proof. intros HR [H1 H2]. split; [by eapply holds_ext|done]. Qed.

Lemma interference_spec l :
  0 <= n → (∀ p, p ∈ l → outs_ok p) →
  ∃ s, interference n ffv l = Ok s ∧ graph_ok s (interferes l).
Proof.
  intros Hn Hl. unfold interference.
  set (mtx0 := default [] (tribitmtx_alloc n)).
  assert (∀ a b, adj mtx0 a b = false) as Hzero.
  { intros a b. unfold mtx0, tribitmtx_alloc, adj. destruct (n =? 0); simpl; [|apply bs_in_zeros].
    unfold bs_in. by rewrite lookup_nil. }
  destruct (foldR_adds graph_ok (interfere_instr ffv) instr_pairs l
    (mtx0, replicate (Z.to_nat n) 0) (λ _ _, False)) as (s & Hr & Hg); [exact graph_ok_ext| | |].
  - intros s p R Hp Hs. destruct (Hl p Hp) as [(rets & Hrets & Hrt) Hout].
    unfold interfere_instr. rewrite Hrets. rok.
    destruct (foldR_adds graph_ok (interfere_ret ffv (move_source ffv p.1) p.2)
      (ret_pairs (move_source ffv p.1) p.2) rets s R) as (s' & Hr & Hg'); [exact graph_ok_ext| |done|].
    { intros s1 r R1 Hr. apply interfere_ret_spec; [by apply Hrt|done]. }
    exists s'. split; [done|]. eapply graph_ok_ext; [|exact Hg'].
    intros a b. unfold instr_pairs. rewrite Hrets. naive_solver.
  - split; [split_and!|].
    + unfold mtx_ok, mtx0, tribitmtx_alloc. cbn [fst].
      destruct (Z.eqb_spec n 0) as [->|Hne]; [by vm_compute|].
      change (default [] (Some ?l)) with l. unfold bs_bits. rewrite length_replicate.
      assert (0 <= tribitmtx_bits n) by (unfold tribitmtx_bits; pose proof (tri_even (n - 1)); nia).
      rewrite Z2Nat.id by (apply Z.div_pos; lia).
      pose proof (Z.div_mod (tribitmtx_bits n + 31) 32 ltac:(lia)).
      pose proof (Z.mod_pos_bound (tribitmtx_bits n + 31) 32 ltac:(lia)). lia.
    + intros z _. apply Hzero.
    + intros a b _ _. cbn [fst]. by rewrite Hzero.
    + intros z Hz. exists 0. cbn [fst snd]. unfold RegAlloc.temp in Hz. split.
      * apply lookup_replicate. split; [done|lia].
      * rewrite deg_none by (intros; apply Hzero). by destruct (z =? -1).
  - exists s. split; [exact Hr|]. eapply graph_ok_ext; [|exact Hg]. intros a b. unfold interferes. naive_solver.
Qed.
End matrix.

(** ** Colors *)

Lemma first_bit_spec w :
  match first_bit w with
  | Some b => 0 <= b < 32 ∧ Z.testbit w b = true
  | None => ∀ b, 0 <= b < 32 → Z.testbit w b = false
  end.
Proof.
  unfold first_bit. destruct (list_find _ (seqZ 0 32)) as [[k b]|] eqn:E; cbn [fmap option_fmap option_map snd].
  - apply list_find_Some in E as (Hk & Hb & _). apply list_elem_of_lookup_2, elem_of_seqZ in Hk.
    split; [lia|done].
  - intros b Hb. apply list_find_None in E.
    pose proof (proj1 (list.Forall_forall _ _) E b (proj2 (elem_of_seqZ 0 32 b) ltac:(lia))) as H.
    cbn beta in H. by destruct (Z.testbit w b).
Qed.

(** [first_color] gives a bit of the table, and there is one to give. *)
Lemma first_color_spec tab j :
  match first_color tab j with
  | Some c => ∃ v, c = v + j * 32 ∧ 0 <= v < bs_bits tab ∧ bs_in tab v = true
  | None => ∀ v, 0 <= v < bs_bits tab → bs_in tab v = false
  end.
Proof.
  revert j; induction tab as [|w tab IH]; intros j; cbn [first_color].
  { unfold bs_bits. simpl. intros; lia. }
  assert (bs_bits (w :: tab) = bs_bits tab + 32) as Hbits by (unfold bs_bits; simpl; lia).
  assert (∀ v, 32 <= v → bs_in (w :: tab) v = bs_in tab (v - 32)) as Htail.
  { intros v Hv. unfold bs_in.
    assert (v / 32 = 1 + (v - 32) / 32) as -> by (Z.div_mod_to_equations; lia).
    assert (v mod 32 = (v - 32) mod 32) as -> by (Z.div_mod_to_equations; lia).
    rewrite Z2Nat.inj_add by (try apply Z.div_pos; lia). done. }
  assert (∀ v, 0 <= v < 32 → bs_in (w :: tab) v = Z.testbit w v) as Hhead
    by (intros v Hv; unfold bs_in; rewrite Z.div_small, Z.mod_small by done; done).
  assert (0 <= bs_bits tab) by (unfold bs_bits; lia).
  pose proof (first_bit_spec w) as Hf. destruct (first_bit w) as [b|].
  - destruct Hf as [Hb Ht]. exists b. split; [done|]. split; [lia|]. by rewrite Hhead.
  - specialize (IH (j + 1)). destruct (first_color tab (j + 1)) as [c|].
    + destruct IH as (v & -> & Hv & Hin). exists (v + 32). split; [lia|]. split; [lia|].
      rewrite Htail by lia. by replace (v + 32 - 32) with v by lia.
    + intros v Hv. destruct (decide (v < 32)); [rewrite Hhead by lia; apply Hf; lia|].
      rewrite Htail by lia. apply IH. lia.
Qed.

Lemma bs_in_ones n v : 0 <= v < 32 * Z.of_nat n → bs_in (replicate n (2 ^ 32 - 1)) v = true.
Proof.
  intros Hv. unfold bs_in. pose proof (Z.mod_pos_bound v 32 ltac:(lia)).
  rewrite lookup_replicate_2.
  - change (2 ^ 32 - 1) with (Z.ones 32). by apply Z.ones_spec_low.
  - apply Nat2Z.inj_lt. rewrite Z2Nat.id by (apply Z.div_pos; lia).
    apply Z.div_lt_upper_bound; lia.
Qed.

(** Fewer than [w] colors are taken by the neighbours of a node of small
    degree. *)
Lemma free_color n (f : Z → bool) (col : Z → Z) w :
  deg n f < w → ∃ c, 0 <= c < w ∧ ∀ x, temp n x → f x = true → col x ≠ c.
Proof.
  intros Hd. set (L := map col (filter (λ y, f y = true) (seqZ 0 n))).
  destruct (decide (Exists (λ c, c ∉ L) (seqZ 0 w))) as [He|He].
  - apply list.Exists_exists in He as (c & Hc%elem_of_seqZ & Hn). exists c. split; [lia|].
    intros x Hx Hf E. apply Hn. rewrite <- E. unfold L. apply list_elem_of_fmap. eexists. split; [done|].
    apply list_elem_of_filter. split; [done|]. apply elem_of_seqZ. unfold temp in Hx. lia.
  - exfalso. assert (∀ c, c ∈ seqZ 0 w → c ∈ L) as Hall.
    { intros c Hc. destruct (decide (c ∈ L)) as [|Hn]; [done|]. destruct He.
      apply list.Exists_exists. by exists c. }
    apply NoDup_submseteq, submseteq_length in Hall; [|apply NoDup_seqZ].
    rewrite length_seqZ in Hall. unfold L in Hall. rewrite length_map in Hall. unfold deg in Hd. lia.
Qed.

Section coloring.
Context (n : Z) (mtx : list Z) (R : Z → Z → Prop) (degree_words : Z).
Context (Hmtx : holds n mtx R).
Notation temp := (temp n).
Notation colors_lt := (32 * degree_words).

(** The colors so far, -1 for none: neighbours have different ones. *)
Record colors_ok (colors : list Z) : Prop := {
  co_range : ∀ i, temp i → ∃ c, colors !! Z.to_nat i = Some c ∧ -1 <= c < colors_lt;
  co_adj : ∀ i j c, temp i → temp j → adj mtx i j = true →
    colors !! Z.to_nat i = Some c → colors !! Z.to_nat j = Some c → c = -1;
}.

Definition color (colors : list Z) (i : Z) : Z := default (-1) (colors !! Z.to_nat i).

Lemma ra_exclude_spec colors v tab x :
  colors_ok colors → temp v → temp x → 0 <= degree_words → bs_bits tab = colors_lt →
  ∃ tab', ra_exclude mtx colors v tab x = Ok tab' ∧ bs_bits tab' = colors_lt ∧
    ∀ c, 0 <= c → bs_in tab' c = negb (adj mtx v x && (c =? color colors x)) && bs_in tab c.
Proof.
  intros [Hr _] Hv Hx Hd Htab. unfold ra_exclude. destruct Hmtx as (Hm & _ & _).
  replace (if x <? v then _ else _) with (tribitmtx_pos v x).
  2: { destruct (Z.ltb_spec x v).
       - by rewrite tribitmtx_pos_comm, tribitmtx_pos_le by lia.
       - rewrite tribitmtx_pos_le by lia. lia. }
  rewrite bitchk_spec by by eapply pos_bits. rok. fold (adj mtx v x).
  destruct (adj mtx v x); cbn [andb negb]; [|by exists tab].
  destruct (Hr x Hx) as (cx & Hcx & Hrange). rewrite Hcx. rok.
  assert (color colors x = cx) as -> by (unfold color; by rewrite Hcx).
  destruct (Z.leb_spec 0 cx).
  - destruct (bitclr_spec tab cx) as (t & Ht & Hl & Hin); [lia|]. exists t. split; [done|].
    split; [unfold bs_bits in *; by rewrite Hl|]. done.
  - exists tab. split; [done|]. split; [done|]. intros c Hc.
    by rewrite (proj2 (Z.eqb_neq c cx)) by lia.
Qed.

Lemma ra_exclude_all colors v tab xs :
  colors_ok colors → temp v → 0 <= degree_words → bs_bits tab = colors_lt →
  (∀ x, x ∈ xs → temp x) →
  ∃ tab', foldR (ra_exclude mtx colors v) tab xs = Ok tab' ∧ bs_bits tab' = colors_lt ∧
    ∀ c, 0 <= c → (bs_in tab' c = true ↔
      bs_in tab c = true ∧ ∀ x, x ∈ xs → adj mtx v x = true → color colors x ≠ c).
Proof.
  intros Hc Hv Hd. revert tab; induction xs as [|x xs IH]; intros tab Htab Hxs.
  { exists tab. split_and!; [done|done|]. intros c _. split; [|tauto].
    intros H. split; [done|]. by intros x ?%not_elem_of_nil. }
  destruct (ra_exclude_spec colors v tab x) as (t1 & Ht1 & Hb1 & Hin1);
    [done|done|apply Hxs, elem_of_cons; by left|done|done|].
  destruct (IH t1 Hb1) as (t2 & Ht2 & Hb2 & Hin2); [intros; apply Hxs, elem_of_cons; by right|].
  exists t2. cbn [foldR]. rewrite Ht1. split_and!; [exact Ht2|done|].
  intros c Hc0. rewrite Hin2, Hin1, andb_true_iff, negb_true_iff, andb_false_iff by done.
  setoid_rewrite elem_of_cons. rewrite Z.eqb_neq. split.
  - intros ((H1 & H2) & H3). split; [done|]. intros y [->|Hy] Ha; [|by apply H3].
    destruct H1 as [H1|H1]; [congruence|by apply not_eq_sym].
  - intros (H1 & H2). split; [split; [|done]|intros y Hy; apply H2; by right].
    destruct (adj mtx v x) eqn:Ea; [right|by left]. apply not_eq_sym, H2; [by left|done].
Qed.

Lemma ra_color_spec colors vi :
  colors_ok colors → temp (vi_value vi) → deg n (adj mtx (vi_value vi)) < colors_lt →
  ∃ colors', ra_color mtx n degree_words colors vi = Ok colors' ∧ colors_ok colors' ∧
    0 <= color colors' (vi_value vi) ∧
    ∀ i, 0 <= i → i ≠ vi_value vi → colors' !! Z.to_nat i = colors !! Z.to_nat i.
Proof.
  intros Hc Hv Hdeg. unfold ra_color. set (v := vi_value vi) in *.
  assert (0 <= degree_words) by (unfold deg in Hdeg; lia).
  destruct (ra_exclude_all colors v (replicate (Z.to_nat degree_words) (2 ^ 32 - 1)) (seqZ 0 n))
    as (tab & -> & Hbits & Hin); [done|done|done|unfold bs_bits; rewrite length_replicate; lia| |].
  { intros x Hx%elem_of_seqZ. unfold RegAlloc.temp. lia. }
  rok. destruct (free_color n (adj mtx v) (color colors) colors_lt Hdeg) as (c0 & Hc0 & Hfree).
  pose proof (first_color_spec tab 0) as Hf. destruct (first_color tab 0) as [c|].
  2: { assert (bs_in tab c0 = true) as Ht; [|by rewrite Hf in Ht by lia].
       apply Hin; [lia|]. split; [apply bs_in_ones; lia|]. intros x Hx%elem_of_seqZ. apply Hfree.
       unfold RegAlloc.temp. lia. }
  destruct Hf as (c' & -> & Hrange & Ht). rewrite Z.mul_0_l, Z.add_0_r in *. rewrite Hbits in Hrange.
  apply Hin in Ht as [_ Hne]; [|lia]. destruct Hc as [Hr Ha].
  destruct (Hr v Hv) as (cv & Hcv & _).
  assert (∀ i, 0 <= i → <[Z.to_nat v := c']> colors !! Z.to_nat i =
    if decide (i = v) then Some c' else colors !! Z.to_nat i) as Hlk.
  { intros i Hi. case_decide as E; [rewrite E; apply list_lookup_insert_eq; by eapply lookup_lt_Some|].
    apply list_lookup_insert_ne. unfold RegAlloc.temp in Hv. lia. }
  assert (∀ x, temp x → adj mtx v x = true → colors !! Z.to_nat x ≠ Some c') as Hnx.
  { intros x Hx Hax E. apply (Hne x); [apply elem_of_seqZ; unfold RegAlloc.temp in Hx; lia|done|].
    unfold color. by rewrite E. }
  eexists; split; [reflexivity|]. split; [split|split].
  - intros i Hi. rewrite Hlk by apply Hi. case_decide; [exists c'; split; [done|lia]|by apply Hr].
  - intros i j c Hi Hj Hij. rewrite !Hlk by (apply Hi || apply Hj).
    destruct Hmtx as (_ & Hdiag & _). repeat case_decide; subst.
    + by rewrite Hdiag in Hij.
    + intros [= <-] Hcj. by destruct (Hnx j Hj Hij).
    + intros Hci [= <-]. rewrite adj_comm in Hij. by destruct (Hnx i Hi Hij).
    + by apply Ha.
  - unfold color. rewrite Hlk, decide_True by (done || apply Hv). simpl. lia.
  - intros i Hi Hiv. rewrite Hlk, decide_False by done. done.
Qed.

Lemma ra_color_all colors vis :
  colors_ok colors →
  (∀ w, w ∈ vis → temp (vi_value w) ∧ deg n (adj mtx (vi_value w)) < colors_lt) →
  ∃ colors', foldR (ra_color mtx n degree_words) colors vis = Ok colors' ∧ colors_ok colors' ∧
    (∀ w, w ∈ vis → 0 <= color colors' (vi_value w)) ∧
    ∀ i, 0 <= i → 0 <= color colors i → 0 <= color colors' i.
Proof.
  revert colors; induction vis as [|w vis IH]; intros colors Hc Hvis.
  { exists colors. split_and!; [done|done| |done]. by intros w ?%not_elem_of_nil. }
  destruct (Hvis w) as [Hw1 Hw2]; [apply elem_of_cons; by left|].
  destruct (ra_color_spec colors w Hc Hw1 Hw2) as (c1 & Hr1 & Hc1 & Hnew & Hold).
  destruct (IH c1 Hc1) as (c2 & Hr2 & Hc2 & Hall & Hkeep);
    [intros; apply Hvis, elem_of_cons; by right|].
  exists c2. cbn [foldR]. rewrite Hr1. split_and!; [exact Hr2|done| |].
  - intros x [->|Hx]%elem_of_cons; [apply Hkeep; [apply Hw1|done]|by apply Hall].
  - intros i Hi Hci. apply Hkeep; [done|]. destruct (decide (i = vi_value w)) as [->|Hne]; [done|].
    unfold color. by rewrite Hold.
Qed.
End coloring.

(** ** Values and their registers *)

(** The register of value [k]: its place and its size in the frame. *)
Definition has_reg (vs : value_state) (k r w : Z) : Prop :=
  ∃ iv, value_get vs k = Ok iv ∧ iv_class iv = IR_VC_REGFRAME ∧ iv_reg iv = Ok r ∧
    value_regframe_size (iu_types (vs_types vs)) (iv_type iv) = Ok w.

(** Two places that do not overlap. *)
Definition disjoint (r w r' w' : Z) : Prop := r + w <= r' ∨ r' + w' <= r.

Lemma iv_reg_set_u32 iv v : - 2 ^ 31 <= v < 2 ^ 31 → iv_reg (set_u32 iv v) = Ok v.
Proof.
  intros Hv. unfold iv_reg, set_u32, iv_u32. cbn [iv_u].
  assert (s32 (u32 v) = v) as Hs by (rewrite sgn_wrap by lia; apply sgn_small; lia).
  destruct (iv_u iv); cbn [iv_u]; rok; rewrite ?wrap_wrap by lia; try by rewrite Hs.
  rewrite Z.shiftl_mul_pow2 by lia. unfold wrap at 1.
  rewrite Z.add_comm, Z_mod_plus_full. change (wrap 32 v mod 2 ^ 32) with (wrap 32 (wrap 32 v)).
  rewrite wrap_wrap by lia. by rewrite Hs.
Qed.

Lemma value_get_set_other vs i j iv :
  0 <= i < 2 ^ 32 → 0 <= j < 2 ^ 32 → i ≠ j → value_get (value_set vs i iv) j = value_get vs j.
Proof.
  intros Hi Hj Hne. unfold value_get, value_set, upd_values. cbn [vs_values].
  rewrite !wrap_small by lia. by rewrite list_lookup_insert_ne by lia.
Qed.

Lemma value_get_set_same vs i iv iv0 :
  value_get vs i = Ok iv0 → value_get (value_set vs i iv) i = Ok iv.
Proof.
  unfold value_get, value_set, upd_values. cbn [vs_values]. intros H. inv_res.
  rewrite list_lookup_insert_eq by (by eapply lookup_lt_Some). done.
Qed.

(** ** The vertices *)

Section allocation.
Context (n ffv : Z).
Notation temp := (temp n).

(** A temporary that gets a register, of one or two slots. *)
Definition vertex (vs : value_state) (i slots : Z) : Prop :=
  ∃ iv, value_get vs (i + ffv) = Ok iv ∧ is_vertex iv = true ∧
    value_regframe_slots (iu_types (vs_types vs)) (iv_type iv) = Ok slots.

(** Each temporary has a value, with a size when it gets a register. *)
Definition values_ok (vs : value_state) : Prop :=
  ∀ i, temp i → ∃ iv, value_get vs (i + ffv) = Ok iv ∧
    (is_vertex iv = true → ∃ slots,
       value_regframe_slots (iu_types (vs_types vs)) (iv_type iv) = Ok slots ∧
       (slots = 1 ∨ slots = 2)).

Lemma vertex_fun vs i s s' : vertex vs i s → vertex vs i s' → s = s'.
Proof. intros (iv & H1 & _ & H3) (iv' & H1' & _ & H3'). congruence. Qed.

Definition vi_ok (vs : value_state) (iv_edges : list Z) (k gd : Z) (l : list value_info) : Prop :=
  NoDup (map vi_value l) ∧
  (∀ w, w ∈ l → 0 <= vi_value w < k ∧ vertex vs (vi_value w) (vi_class w) ∧
     (vi_class w = 1 ∨ vi_class w = 2) ∧
     ∃ e, iv_edges !! Z.to_nat (vi_value w) = Some e ∧ e <= gd) ∧
  (∀ i s, 0 <= i < k → vertex vs i s → ∃ w, w ∈ l ∧ vi_value w = i ∧ vi_class w = s).

Lemma VMIR_MAX_le a b : a <= VMIR_MAX a b ∧ b <= VMIR_MAX a b.
Proof. unfold VMIR_MAX. destruct (Z.ltb_spec b a); lia. Qed.

Lemma ra_vertices vs iv_edges :
  values_ok vs → 0 <= n → (∀ i, temp i → is_Some (iv_edges !! Z.to_nat i)) →
  ∃ l gd, foldR (ra_vertex vs iv_edges ffv) ([], 0) (seqZ 0 n) = Ok (l, gd) ∧
    vi_ok vs iv_edges n gd l ∧ 0 <= gd ∧ (gd = 0 ∨ ∃ i, temp i ∧ iv_edges !! Z.to_nat i = Some gd).
Proof.
  intros Hv Hn He.
  destruct (foldR_ok (λ k '(l, gd), vi_ok vs iv_edges (Z.of_nat k) gd l ∧ 0 <= gd ∧
      (gd = 0 ∨ ∃ i, temp i ∧ iv_edges !! Z.to_nat i = Some gd))
    (ra_vertex vs iv_edges ffv) (seqZ 0 n) ([], 0)) as ([l gd] & Hr & Hok).
  - intros k i [l gd] Hk ((Hnd & Hl & Hc) & Hgd & Hm). apply lookup_seqZ in Hk as [-> Hk].
    rewrite Z.add_0_l in *. assert (temp (Z.of_nat k)) as Ht by (unfold RegAlloc.temp; lia).
    destruct (Hv _ Ht) as (iv & Hiv & Hs). unfold ra_vertex. rewrite Hiv. rok.
    destruct (is_vertex iv) eqn:Eiv.
    + destruct (Hs eq_refl) as (slots & Hslots & Hs12). rewrite Hslots. rok.
      assert (ra_class slots = Ok slots) as -> by (destruct Hs12 as [->| ->]; done). rok.
      destruct (He _ Ht) as [e Hedge]. rewrite Hedge. rok.
      destruct (VMIR_MAX_le gd e) as [M1 M2].
      eexists; split; [reflexivity|]. split; [split_and!|split].
      * rewrite map_app. apply list.NoDup_app. split_and!; [done| |apply NoDup_singleton].
        intros x (w & Ew & Hw)%list_elem_of_fmap Ex%list_elem_of_singleton.
        destruct (Hl w Hw) as (H & _). cbn [vi_value] in *. lia.
      * intros w [Hw| ->%list_elem_of_singleton]%elem_of_app.
        -- destruct (Hl w Hw) as (H1 & H2 & H3 & e' & H4 & H5). split_and!; [lia|lia|done|done|].
           exists e'. split; [done|lia].
        -- cbn [vi_value vi_class]. split_and!; [lia|lia|by exists iv|done|]. by exists e.
      * intros i s Hi Hvx. destruct (decide (i = Z.of_nat k)) as [->|].
        -- exists (mk_vi (Z.of_nat k) e slots). split; [set_solver|]. split; [done|].
           eapply vertex_fun; [|exact Hvx]. by exists iv.
        -- destruct (Hc i s) as (w & Hw & E); [lia|done|]. exists w. split; [set_solver|done].
      * lia.
      * unfold VMIR_MAX. destruct (e <? gd); [done|]. right. eauto.
    + eexists; split; [reflexivity|]. split; [split_and!|done]; [done| |].
      * intros w Hw. destruct (Hl w Hw) as (H1 & H2). split; [lia|done].
      * intros i s Hi Hvx. destruct (decide (i = Z.of_nat k)) as [->|]; [|apply Hc; [lia|done]].
        destruct Hvx as (iv' & Hiv' & Hx & _). congruence.
  - split; [split_and!|split; [done|by left]]; [apply NoDup_nil_2|by intros w ?%not_elem_of_nil|].
    intros i s Hi. lia.
  - exists l, gd. rewrite length_seqZ, Z2Nat.id in Hok by done. by split.
Qed.

(** ** Placing a class *)

Definition index_ok (k : Z) : Prop := 0 <= k < 2 ^ 32.
Context (Hffv : 0 <= ffv) (Hindex : ffv + n <= 2 ^ 32).

Lemma temp_index i : temp i → index_ok (i + ffv).
Proof. unfold RegAlloc.temp, index_ok. lia. Qed.

(** What placing the values [ws] of one class does. *)
Definition placed (colors : list Z) (c rsize base : Z) (ws : list value_info)
    (vs vs' : value_state) : Prop :=
  vs_types vs' = vs_types vs ∧
  (∀ w iv, w ∈ ws → vi_class w = c → value_get vs (vi_value w + ffv) = Ok iv →
     value_get vs' (vi_value w + ffv) =
       Ok (set_u32 (set_class iv IR_VC_REGFRAME) (base + color colors (vi_value w) * rsize))) ∧
  (∀ k, index_ok k → (∀ w, w ∈ ws → vi_class w = c → vi_value w + ffv ≠ k) →
     value_get vs' k = value_get vs k).

Lemma ra_place_all colors c rsize base ws vs slots W :
  NoDup (map vi_value ws) →
  (∀ w, w ∈ ws → temp (vi_value w) ∧ is_Some (colors !! Z.to_nat (vi_value w)) ∧
     0 <= color colors (vi_value w) < W ∧ ∃ iv, value_get vs (vi_value w + ffv) = Ok iv) →
  0 <= slots <= W →
  ∃ vs' slots', foldR (ra_place colors ffv c rsize base) (vs, slots) ws = Ok (vs', slots') ∧
    placed colors c rsize base ws vs vs' ∧ slots <= slots' <= W ∧
    ∀ w, w ∈ ws → vi_class w = c → color colors (vi_value w) < slots'.
Proof.
  revert vs slots; induction ws as [|w ws IH]; intros vs slots Hnd Hws Hsl.
  { exists vs, slots. split; [done|]. split; [split_and!; [done| |done]|split; [lia|]];
      [intros w iv Hw|intros w Hw]; by apply not_elem_of_nil in Hw. }
  cbn [map] in Hnd. apply list.NoDup_cons in Hnd as [Hnw Hnd].
  destruct (Hws w) as (Hw & [col Hcol] & Hcw & iv & Hiv); [apply elem_of_cons; by left|].
  assert (∀ x, x ∈ ws → vi_value x ≠ vi_value w) as Hne.
  { intros x Hx E. apply Hnw. rewrite <- E. apply list_elem_of_fmap. by exists x. }
  assert (color colors (vi_value w) = col) as Ecol by (unfold color; by rewrite Hcol).
  cbn [foldR]. unfold ra_place at 2. destruct (Z.eqb_spec (vi_class w) c) as [Ec|Ec].
  - rewrite Hcol. rok. rewrite Hiv. rok.
    set (iv' := set_u32 (set_class iv IR_VC_REGFRAME) (base + col * rsize)).
    set (vs1 := value_set vs (vi_value w + ffv) iv').
    destruct (VMIR_MAX_le slots (col + 1)) as [M1 M2].
    destruct (IH vs1 (VMIR_MAX slots (col + 1)) Hnd) as (vs' & sl & Hr & (P1 & P2 & P3) & Hs & Hc).
    + intros x Hx. destruct (Hws x) as (Hx1 & Hx2 & Hx3 & ivx & Hx4); [apply elem_of_cons; by right|].
      split_and!; [done|done|lia|lia|]. exists ivx.
      unfold vs1. rewrite value_get_set_other; [done|by apply temp_index..|].
      intros E. apply (Hne x Hx). lia.
    + rewrite Ecol in Hcw. unfold VMIR_MAX. destruct (col + 1 <? slots); lia.
    + assert (value_get vs1 (vi_value w + ffv) = Ok iv') as Hget by (by eapply value_get_set_same).
      exists vs', sl. split; [exact Hr|]. split; [split_and!|split; [lia|]].
      * rewrite P1. done.
      * intros x ivx [->|Hx]%elem_of_cons Hxc Hxv.
        -- rewrite Hiv in Hxv. injection Hxv as <-. rewrite P3; [|by apply temp_index|].
           ++ rewrite Hget. unfold iv'. by rewrite Ecol.
           ++ intros y Hy _ E. apply (Hne y Hy). lia.
        -- apply P2; [done|done|]. unfold vs1.
           destruct (Hws x) as (Hx1 & _); [apply elem_of_cons; by right|].
           rewrite value_get_set_other; [done|by apply temp_index..|].
           intros E. apply (Hne x Hx). lia.
      * intros k Hk Hno. rewrite P3; [|done|].
        -- unfold vs1. rewrite value_get_set_other; [done|by apply temp_index|done|].
           apply Hno; [apply elem_of_cons; by left|done].
        -- intros x Hx Hxc. apply Hno; [apply elem_of_cons; by right|done].
      * intros x [->|Hx]%elem_of_cons Hxc; [lia|by apply Hc].
  - rok. destruct (IH vs slots Hnd) as (vs' & sl & Hr & (P1 & P2 & P3) & Hs & Hc);
      [intros x Hx; apply Hws, elem_of_cons; by right|done|].
    exists vs', sl. split; [exact Hr|]. split; [split_and!|split; [lia|]].
    + done.
    + intros x ivx [->|Hx]%elem_of_cons Hxc; [done|by apply P2].
    + intros k Hk Hno. apply P3; [done|]. intros x Hx. apply Hno, elem_of_cons. by right.
    + intros x [->|Hx]%elem_of_cons Hxc; [done|by apply Hc].
Qed.

Lemma deg_le f : 0 <= n → deg n f <= n.
Proof.
  intros Hn. unfold deg. pose proof (length_filter (λ y, f y = true) (seqZ 0 n)) as H.
  rewrite length_seqZ in H. lia.
Qed.

(** The result of placing both classes. *)
Lemma ra_class_place_spec colors ws c W vs F :
  c = 1 ∨ c = 2 → NoDup (map vi_value ws) → 0 <= W →
  (∀ w, w ∈ ws → temp (vi_value w) ∧ is_Some (colors !! Z.to_nat (vi_value w)) ∧
     0 <= color colors (vi_value w) < W ∧ ∃ iv, value_get vs (vi_value w + ffv) = Ok iv) →
  ∃ vs' slots base, let rsize := 4 * c in
    ra_class_place colors ffv ws (vs, F) c = Ok (vs', base + slots * rsize) ∧
    placed colors c rsize base ws vs vs' ∧ F <= base < F + rsize ∧ (rsize | base) ∧
    0 <= slots <= W ∧ ∀ w, w ∈ ws → vi_class w = c → color colors (vi_value w) < slots.
Proof.
  intros Hc Hnd HW Hws. unfold ra_class_place.
  assert (class_reg_size c = 4 * c) as -> by (destruct Hc as [->| ->]; done).
  set (base := VMIR_ALIGN F (4 * c)).
  destruct (ra_place_all colors c (4 * c) base ws vs 0 W Hnd Hws) as (vs' & slots & -> & Hp & Hs & Hlt);
    [lia|]. rok. exists vs', slots, base. split; [done|].
  split; [done|]. unfold base. destruct Hc as [->| ->]; cbv zeta.
  - destruct (VMIR_ALIGN_bounds F 2) as [H1 H2]; [done|].
    change (4 * 1) with (2 ^ 2). split_and!; [lia..|done|lia|lia|done].
  - destruct (VMIR_ALIGN_bounds F 3) as [H1 H2]; [done|].
    change (4 * 2) with (2 ^ 3). split_and!; [lia..|done|lia|lia|done].
Qed.
(** The vertices with their classes and colors, below [W]. *)
Record colored (vs : value_state) (colors : list Z) (W : Z) (ws : list value_info) : Prop := {
  cd_nodup : NoDup (map vi_value ws);
  cd_color : ∀ w, w ∈ ws → temp (vi_value w) ∧ is_Some (colors !! Z.to_nat (vi_value w)) ∧
    0 <= color colors (vi_value w) < W;
  cd_vertex : ∀ w, w ∈ ws → vertex vs (vi_value w) (vi_class w) ∧ (vi_class w = 1 ∨ vi_class w = 2);
  cd_all : ∀ i s, temp i → vertex vs i s → ∃ w, w ∈ ws ∧ vi_value w = i ∧ vi_class w = s;
}.

Lemma colored_other vs colors W ws w c :
  colored vs colors W ws → w ∈ ws → c ≠ vi_class w →
  ∀ x, x ∈ ws → vi_class x = c → vi_value x + ffv ≠ vi_value w + ffv.
Proof.
  intros Hcd Hw Hc x Hx Ec E. assert (vi_value x = vi_value w) as E1 by lia.
  destruct (cd_vertex _ _ _ _ Hcd x Hx) as [Hvx _], (cd_vertex _ _ _ _ Hcd w Hw) as [Hvw _].
  rewrite E1 in Hvx. pose proof (vertex_fun _ _ _ _ Hvx Hvw). congruence.
Qed.

(** Placing both classes: the 32-bit values lie from [b1] on, the 64-bit ones
    from [b2] on. *)
Definition reg_of (colors : list Z) (b1 b2 i s : Z) : Z :=
  (if s =? 1 then b1 else b2) + color colors i * (4 * s).

Lemma ra_both_spec colors ws W vs F :
  colored vs colors W ws → 0 <= W →
  ∃ vs' b1 s1 b2 s2, let size := b2 + s2 * 8 in
    foldR (ra_class_place colors ffv ws) (vs, F) [RA_CLASS_REGFRAME_32; RA_CLASS_REGFRAME_64] =
      Ok (vs', size) ∧
    vs_types vs' = vs_types vs ∧ F <= b1 ∧ b1 + s1 * 4 <= b2 ∧ (4 | b1) ∧ (8 | b2) ∧ 0 <= s1 ∧
    0 <= s2 ∧ size <= F + 12 * W + 12 ∧
    (∀ i s iv, temp i → vertex vs i s → value_get vs (i + ffv) = Ok iv →
       value_get vs' (i + ffv) =
         Ok (set_u32 (set_class iv IR_VC_REGFRAME) (reg_of colors b1 b2 i s)) ∧
       (s = 1 ∨ s = 2) ∧ 0 <= color colors i < if s =? 1 then s1 else s2) ∧
    (∀ k, index_ok k → (∀ i s, temp i → vertex vs i s → i + ffv ≠ k) →
       value_get vs' k = value_get vs k).
Proof.
  intros Hcd HW. pose proof (colored_other vs colors W ws) as Hother.
  pose proof Hcd as [Hnd Hcol Hvx Hall]. cbn [foldR].
  change RA_CLASS_REGFRAME_32 with 1. change RA_CLASS_REGFRAME_64 with 2.
  destruct (ra_class_place_spec colors ws 1 W vs F) as
    (vs1 & s1 & b1 & -> & (P1 & P2 & P3) & Hb1 & Hd1 & Hs1 & Hc1); [by left|done|done| |].
  { intros w Hw. destruct (Hcol w Hw) as (H1 & H2 & H3). split_and!; [done|done|lia|lia|].
    destruct (Hvx w Hw) as [(iv & Hiv & _) _]. eauto. }
  rok. destruct (ra_class_place_spec colors ws 2 W vs1 (b1 + s1 * (4 * 1))) as
    (vs2 & s2 & b2 & -> & (Q1 & Q2 & Q3) & Hb2 & Hd2 & Hs2 & Hc2); [by right|done|done| |].
  { intros w Hw. destruct (Hcol w Hw) as (H1 & H2 & H3). split_and!; [done|done|lia|lia|].
    destruct (Hvx w Hw) as [(iv & Hiv & _) _]. destruct (decide (vi_class w = 1)).
    - rewrite (P2 w iv) by done. eauto.
    - rewrite P3; [eauto|by apply temp_index|]. by eapply Hother; [| |congruence]. }
  exists vs2, b1, s1, b2, s2. cbv zeta. change (4 * 2) with 8 in *. change (4 * 1) with 4 in *.
  split_and!; [done|by rewrite Q1|lia|lia|done|done|lia|lia|lia| |].
  - intros i s iv Hi Hvi Hiv. destruct (Hall i s Hi Hvi) as (w & Hw & <- & <-).
    destruct (Hcol w Hw) as (_ & _ & H0 & _). destruct (Hvx w Hw) as [_ H12]. unfold reg_of.
    destruct H12 as [E|E]; rewrite E; simpl; (split; [|split; [tauto|]]).
    + rewrite Q3; [by apply P2|by apply temp_index|]. eapply Hother; [done|done|lia].
    + specialize (Hc1 w Hw E). lia.
    + rewrite (Q2 w iv); [done|done|done|]. rewrite P3; [done|by apply temp_index|].
      eapply Hother; [done|done|lia].
    + specialize (Hc2 w Hw E). lia.
  - intros k Hk Hno. rewrite Q3, P3; [done|done| |done|]; intros w Hw _;
      destruct (Hcol w Hw) as (H1 & _), (Hvx w Hw) as [H2 _]; by eapply Hno.
Qed.

(** Every vertex gets a color. *)
Lemma ra_colors_spec qsort vs mtx iv_edges R :
  (∀ l, qsort l ≡ₚ l) → 0 <= n → values_ok vs → graph_ok n (mtx, iv_edges) R →
  ∃ l gd colors W, foldR (ra_vertex vs iv_edges ffv) ([], 0) (seqZ 0 n) = Ok (l, gd) ∧
    foldR (ra_color mtx n ((gd + 32) / 32)) (replicate (Z.to_nat n) (-1)) (qsort l) = Ok colors ∧
    0 <= W <= n + 32 ∧ colored vs colors W (qsort l) ∧
    ∀ i j, temp i → temp j → R i j → 0 <= color colors i → color colors i ≠ color colors j.
Proof.
  intros Hq Hn Hv [Hh Hc]. cbn [fst snd] in *.
  assert (∀ i, temp i → ∃ e, iv_edges !! Z.to_nat i = Some e ∧ e = deg n (adj mtx i)) as Hedge.
  { intros i Hi. destruct (Hc i Hi) as (e & He & Hd). exists e. split; [done|].
    unfold RegAlloc.temp in Hi. rewrite (proj2 (Z.eqb_neq i (-1))) in Hd by lia. lia. }
  destruct (ra_vertices vs iv_edges Hv Hn) as (l & gd & -> & (Hnd & Hl & Hcomp) & Hgd & Hmax).
  { intros i Hi. destruct (Hedge i Hi) as (e & -> & _). by eexists. }
  assert (∀ w, w ∈ qsort l ↔ w ∈ l) as Hws by (intros w; by rewrite Hq).
  assert (gd <= n) as Hgn.
  { destruct Hmax as [->|(i & Hi & Hgi)]; [done|]. destruct (Hedge i Hi) as (e & He & ->).
    rewrite Hgi in He. injection He as ->. by apply deg_le. }
  assert (gd < 32 * ((gd + 32) / 32) <= gd + 32) as Hdw by (Z.div_mod_to_equations; lia).
  assert (∀ i, temp i → replicate (Z.to_nat n) (-1) !! Z.to_nat i = Some (-1)) as Hinit
    by (intros i Hi; apply lookup_replicate_2; unfold RegAlloc.temp in Hi; lia).
  destruct (ra_color_all n mtx R ((gd + 32) / 32) Hh (replicate (Z.to_nat n) (-1)) (qsort l))
    as (colors & Hr & Hco & Hcol & _).
  { split; [intros i Hi; exists (-1); split; [by apply Hinit|lia]|].
    intros i j c Hi _ _ Hci _. rewrite Hinit in Hci by done. by injection Hci. }
  { intros w Hw%Hws. destruct (Hl w Hw) as (H1 & _ & _ & e & He & Hle). split; [done|].
    destruct (Hedge (vi_value w) H1) as (e' & He' & <-). rewrite He in He'. injection He' as <-. lia. }
  exists l, gd, colors, (32 * ((gd + 32) / 32)). split; [done|]. split; [exact Hr|].
  split; [lia|]. split; [split|].
  - by rewrite (Permutation_map vi_value (Hq l)).
  - intros w Hw. pose proof (Hcol w Hw). apply Hws in Hw. destruct (Hl w Hw) as (H1 & _).
    destruct (co_range _ _ _ _ Hco _ H1) as (c & Hcc & Hcr). split; [done|].
    split; [by eexists|]. unfold color in *. rewrite Hcc in *. simpl in *. lia.
  - intros w Hw%Hws. destruct (Hl w Hw) as (_ & H2 & H3 & _). by split.
  - intros i s Hi Hvi. destruct (Hcomp i s Hi Hvi) as (w & Hw & E). exists w. by rewrite Hws.
  - intros i j Hi Hj Hij H0 E. apply (proj2 (proj2 Hh)) in Hij; [|done..].
    destruct (co_range _ _ _ _ Hco i Hi) as (ci & Eci & _).
    destruct (co_range _ _ _ _ Hco j Hj) as (cj & Ecj & _).
    unfold color in *. rewrite Eci, Ecj in *. simpl in *. subst cj.
    pose proof (co_adj _ _ _ _ Hco i j ci Hi Hj Hij Eci Ecj). lia.
Qed.
End allocation.

(** What register allocation promises for a function with [n] temporaries from
    value [ffv], frames of size [F] before and [size] after: the registers of
    the temporaries lie in the new part of the frame, are aligned, overlap
    only when they are the same, and not for neighbours of [R]; the other
    values stay. *)
Record allocated (n ffv F size : Z) (vs vs' : value_state) (R : Z → Z → Prop) : Prop := {
  al_frame : F <= size <= F + 12 * n + 396;
  al_types : vs_types vs' = vs_types vs;
  al_reg : ∀ i s, temp n i → vertex ffv vs i s →
    ∃ r, has_reg vs' (i + ffv) r (4 * s) ∧ F <= r ∧ r + 4 * s <= size ∧ (4 * s | r);
  al_apart : ∀ i j si sj ri rj, temp n i → temp n j → vertex ffv vs i si → vertex ffv vs j sj →
    has_reg vs' (i + ffv) ri (4 * si) → has_reg vs' (j + ffv) rj (4 * sj) →
    (R i j → disjoint ri (4 * si) rj (4 * sj)) ∧
    (disjoint ri (4 * si) rj (4 * sj) ∨ ri = rj ∧ si = sj);
  al_other : ∀ k, index_ok k → (∀ i s, temp n i → vertex ffv vs i s → i + ffv ≠ k) →
    value_get vs' k = value_get vs k;
}.

Lemma has_reg_fun vs k r r' w w' : has_reg vs k r w → has_reg vs k r' w' → r = r' ∧ w = w'.
Proof. intros (iv & E1 & _ & E2 & E3) (iv' & E1' & _ & E2' & E3'). split; congruence. Qed.

Lemma reg_alloc_spec qsort vs mtx iv_edges n ffv F (R : Z → Z → Prop) :
  (∀ l, qsort l ≡ₚ l) →
  0 <= n → 0 <= ffv → ffv + n <= 2 ^ 32 → 0 <= F → F + 12 * n + 400 < 2 ^ 31 →
  values_ok n ffv vs → graph_ok n (mtx, iv_edges) R →
  ∃ vs' size, reg_alloc qsort vs mtx iv_edges n ffv F = Ok (vs', size) ∧
    allocated n ffv F size vs vs' R.
Proof.
  intros Hq Hn Hffv Hidx HF Hsmall Hv Hg. unfold reg_alloc.
  destruct (ra_colors_spec n ffv qsort vs mtx iv_edges R Hq Hn Hv Hg)
    as (l & gd & colors & W & -> & H2 & HW & Hcd & HR). rok. rewrite H2. rok.
  destruct (ra_both_spec n ffv Hffv Hidx colors (qsort l) W vs F Hcd)
    as (vs' & b1 & s1 & b2 & s2 & Hr & Ht & Hb1 & Hb2 & D1 & D2 & Hs1 & Hs2 & Hsz & Hget & Hno); [lia|].
  set (size := b2 + s2 * 8) in *. exists vs', size. split; [exact Hr|].
  assert (F <= size <= F + 12 * n + 396) as Hsize by (unfold size in *; lia).
  assert (∀ i s, temp n i → vertex ffv vs i s → (s = 1 ∨ s = 2) ∧
    0 <= color colors i < if s =? 1 then s1 else s2) as Hcol.
  { intros i s Hi Hvi. pose proof Hvi as (iv & Hiv & _). by apply (Hget i s iv). }
  assert (∀ i s, temp n i → vertex ffv vs i s → F <= reg_of colors b1 b2 i s ∧
    reg_of colors b1 b2 i s + 4 * s <= size ∧ (4 * s | reg_of colors b1 b2 i s)) as Hreg.
  { intros i s Hi Hvi. destruct (Hcol i s Hi Hvi) as [[->| ->] H1]; unfold reg_of; simpl in *;
      (split; [lia|]); (split; [unfold size; lia|]); by apply Z.divide_add_r; [|apply Z.divide_factor_r]. }
  assert (∀ i s, temp n i → vertex ffv vs i s →
    has_reg vs' (i + ffv) (reg_of colors b1 b2 i s) (4 * s)) as Hhas.
  { intros i s Hi Hvi. destruct (Hreg i s Hi Hvi) as (H1 & H3 & _).
    assert (0 <= 4 * s) by (destruct (Hcol i s Hi Hvi) as [[->| ->] _]; lia).
    pose proof Hvi as (iv & Hiv & _ & Hslots). eexists. split; [by apply Hget|].
    split; [unfold set_u32; done|]. split; [apply iv_reg_set_u32; lia|].
    unfold value_regframe_size. rewrite Ht. cbn [iv_type set_u32 set_class]. rewrite Hslots.
    rok. f_equal. lia. }
  split; [done|done| | |exact Hno].
  - intros i s Hi Hvi. exists (reg_of colors b1 b2 i s). by split; [apply Hhas|apply Hreg].
  - intros i j si sj ri rj Hi Hj Hvi Hvj Hri Hrj.
    destruct (has_reg_fun _ _ _ _ _ _ Hri (Hhas i si Hi Hvi)) as [-> _].
    destruct (has_reg_fun _ _ _ _ _ _ Hrj (Hhas j sj Hj Hvj)) as [-> _].
    destruct (Hcol i si Hi Hvi) as [H12i Hci], (Hcol j sj Hj Hvj) as [H12j Hcj].
    specialize (HR i j Hi Hj). unfold disjoint, reg_of.
    destruct H12i as [->| ->], H12j as [->| ->]; simpl in *; (split; [intros Hij; specialize (HR Hij); lia|]);
      destruct (Z.lt_trichotomy (color colors i) (color colors j)) as [|[E|]]; try lia;
      rewrite ?E; lia.
Qed.

(** C19: register allocation. When the matrix holds the interference relation
    [R], [iv_edges] its degrees, and [qsort] reorders the temporaries in any
    way, [reg_alloc] colors the whole graph, and the registers it gives are
    an allocation for [R]. *)
Theorem reg_alloc_correct qsort vs mtx iv_edges n ffv F (R : Z → Z → Prop) :
  (∀ l, qsort l ≡ₚ l) →
  0 <= n → 0 <= ffv → ffv + n <= 2 ^ 32 → 0 <= F → F + 12 * n + 400 < 2 ^ 31 →
  values_ok n ffv vs → graph_ok n (mtx, iv_edges) R →
  ∃ vs' size, reg_alloc qsort vs mtx iv_edges n ffv F = Ok (vs', size) ∧
    allocated n ffv F size vs vs' R.
Proof. apply reg_alloc_spec. Qed.

(** Two integers, the second live over the definition of the first, and a
    64-bit value. *)
Definition example_types : type_state := mk_types [T_INT32; T_INT64] false None.
Definition example_var (t : Z) : option ir_value :=
  Some (mk_value IR_VC_TEMPORARY t (U_word 0) D_none (-1)).
Definition example_vars : value_state :=
  mk_vs [Some blank_value; example_var 0; example_var 0; example_var 1] 4 example_types.
Definition example_outs : list (ir_instr * list Z) :=
  [(IR_IC_CAST 0 (mk_vt 2 0) (mk_ret (mk_vt 1 0) []), [3]);
   (IR_IC_MOVE (mk_vt 1 0) (mk_ret (mk_vt 2 0) []), [7])].

Lemma reg_alloc_correct_witness :
  ∃ s vs' size, interference 3 1 example_outs = Ok s ∧
    reg_alloc (λ l, l) example_vars s.1 s.2 3 1 8 = Ok (vs', size) ∧
    allocated 3 1 8 size example_vars vs' (interferes 1 example_outs) ∧
    has_reg vs' 1 8 4 ∧ has_reg vs' 2 12 4 ∧ has_reg vs' 3 16 8.
Proof.
  destruct (interference_spec 3 1 example_outs) as ([mtx e] & Hs & Hg); [lia| |].
  { intros p Hp. apply elem_of_cons in Hp as [->|Hp];
      [|apply list_elem_of_singleton in Hp as ->]; (split; [eexists; split; [reflexivity|]|]);
      apply list.Forall_forall; unfold bs_elems; vm_compute filter; repeat constructor; unfold temp; simpl; lia. }
  pose proof Hs as Hs'. vm_compute in Hs'. injection Hs' as Hm He.
  destruct (reg_alloc_correct (λ l, l) example_vars mtx e 3 1 8 (interferes 1 example_outs)) as
    (vs' & size & Hr & Ha); [done|lia|lia|lia|lia|lia| |done|].
  { intros i Hi. unfold temp in Hi. assert (i = 0 ∨ i = 1 ∨ i = 2) as [->|[->| ->]] by lia;
      (eexists; split; [reflexivity|]; intros _; eexists; split; [reflexivity|]); tauto. }
  exists (mtx, e), vs', size. split_and!; [done|done|done|..];
    rewrite <- Hm, <- He in Hr; vm_compute in Hr; injection Hr as <- <-; eexists; repeat split; reflexivity.
Defined.
