(* ===== verification/Coalesce.v ===== *)
(** Coalescing: [instr_replace_values] and the merging of values in [coalesce]
    of [src/src/vmir_transform.c], without the JIT, and [liveness_analysis] as
    a whole. *)
From S2P Require Import Prelude Support Types Values Instr Cfg Liveness RegAlloc.
Local Open Scope Z_scope.

(** ** Renaming the values of an instruction *)

Definition replace (f : Z → Z) (v : ir_valuetype) : ir_valuetype := mk_vt (f (vt_value v)) (vt_type v).

Definition replace_ret (f : Z → Z) (d : ir_ret) : ir_ret :=
  if vt_value (ii_ret d) <? -1 then mk_ret (ii_ret d) (map (replace f) (ii_rets d))
  else mk_ret (replace f (ii_ret d)) (ii_rets d).

Definition replace_call (f : Z → Z) (c : ir_call) : ir_call :=
  mk_call (replace f (ca_callee c)) (ca_vmop c) (ca_normal_dest c) (ca_unwind_dest c)
          (map (replace f) (ca_argv c)) (ca_copy_sizes c).

Definition replace_load (f : Z → Z) (l : ir_load) : ir_load :=
  mk_load (replace f (ld_ptr l)) (ld_immediate_offset l) (replace f (ld_value_offset l))
          (ld_value_offset_multiply l) (ld_cast l) (ld_load_type l).

Definition rename_instr (f : Z → Z) (i : ir_instr) : ir_instr :=
  let r := replace f in let rr := replace_ret f in
  match i with
  | IR_IC_UNREACHABLE => IR_IC_UNREACHABLE
  | IR_IC_STACKSHRINK size => IR_IC_STACKSHRINK size
  | IR_IC_LANDINGPAD d => IR_IC_LANDINGPAD (rr d)
  | IR_IC_RET v => IR_IC_RET (r v)
  | IR_IC_CAST op v d => IR_IC_CAST op (r v) (rr d)
  | IR_IC_VAARG v d => IR_IC_VAARG (r v) (rr d)
  | IR_IC_LOAD l d => IR_IC_LOAD (replace_load f l) (rr d)
  | IR_IC_BINOP op a b d => IR_IC_BINOP op (r a) (r b) (rr d)
  | IR_IC_CMP2 op a b d => IR_IC_CMP2 op (r a) (r b) (rr d)
  | IR_IC_CMP_BRANCH op a b t e => IR_IC_CMP_BRANCH op (r a) (r b) t e
  | IR_IC_STORE p v off => IR_IC_STORE (r p) (r v) off
  | IR_IC_BR c t e => IR_IC_BR (r c) t e
  | IR_IC_ALLOCA size n a d => IR_IC_ALLOCA size (r n) a (rr d)
  | IR_IC_SELECT t e p d => IR_IC_SELECT (r t) (r e) (r p) (rr d)
  | IR_IC_LEA b off v m d => IR_IC_LEA (r b) off (r v) m (rr d)
  | IR_IC_CALL c d => IR_IC_CALL (replace_call f c) (rr d)
  | IR_IC_VMOP c d => IR_IC_VMOP (replace_call f c) (rr d)
  | IR_IC_INVOKE c d => IR_IC_INVOKE (replace_call f c) (rr d)
  | IR_IC_SWITCH v def paths => IR_IC_SWITCH (r v) def paths
  | IR_IC_MOVE v d => IR_IC_MOVE (r v) (rr d)
  | IR_IC_STACKCOPY v size d => IR_IC_STACKCOPY (r v) size (rr d)
  | IR_IC_MLA a b c d => IR_IC_MLA (r a) (r b) (r c) (rr d)
  | IR_IC_CMP_SELECT op a b t e d => IR_IC_CMP_SELECT op (r a) (r b) (r t) (r e) (rr d)
  | IR_IC_RESUME l => IR_IC_RESUME (map r l)
  | IR_IC_GEP _ _ _ | IR_IC_PHI _ _ | IR_IC_EXTRACTVAL _ _ _ | IR_IC_INSERTVAL _ _ _ _ => i
  end.

(** [instr_replace_value] as a function on numbers. *)
Definition instr_replace_value (from to v : Z) : Z := if v =? from then to else v.

(** Instructions the switch knows. *)
Definition replaceable (i : ir_instr) : bool :=
  match i with
  | IR_IC_GEP _ _ _ | IR_IC_PHI _ _ | IR_IC_EXTRACTVAL _ _ _ | IR_IC_INSERTVAL _ _ _ _ => false
  | _ => true
  end.

Definition instr_replace_values (from to : Z) (i : ir_instr) : res ir_instr :=
  _ ← check (replaceable i) Aborted;
  Ok (rename_instr (instr_replace_value from to) i).

(** ** Merging two values *)

(** The function while it is coalesced. *)
Record co_state := mk_co {
  co_bbs : list ir_bb;
  co_mtx : list Z;
  co_edges : list Z;
  co_vs : value_state;
}.

(** One neighbour [i] of [killed] goes to [saved]. *)
Definition merge_row (killed saved : Z) (s : list Z * list Z) (i : Z) : res (list Z * list Z) :=
  let '(mtx, edges) := s in
  b ← tribitmtx_get mtx killed i;
  if b : bool then
    mtx ← tribitmtx_clr mtx killed i;
    b ← tribitmtx_get mtx saved i;
    if b : bool then edges ← bump edges i (-1); Ok (mtx, edges)
    else
      mtx ← tribitmtx_set mtx saved i;
      edges ← bump edges saved 1; Ok (mtx, edges)
  else Ok s.

(** [killed] becomes [saved] in every instruction: those of
    [killed->iv_instructions] are the ones that mention it. *)
Definition replace_everywhere (killed saved : Z) (bbs : list ir_bb) : res (list ir_bb) :=
  mapR (λ bb, l ← mapR (instr_replace_values killed saved) (ib_instrs bb);
              Ok (mk_bb (ib_id bb) l)) bbs.

Definition merge_values (temp_values ffv killed saved : Z) (s : co_state) : res co_state :=
  bbs ← replace_everywhere killed saved (co_bbs s);
  '(mtx, edges) ← foldR (merge_row (killed - ffv) (saved - ffv)) (co_mtx s, co_edges s)
                    (seqZ 0 temp_values);
  iv ← value_item (co_vs s) killed;
  _ ← oget (edges !! Z.to_nat (killed - ffv)) Undef;
  Ok (mk_co bbs mtx (<[Z.to_nat (killed - ffv) := 0]> edges)
        (value_set (co_vs s) killed (set_class iv IR_VC_DEAD))).

(** [instr_destroy] of the [i]-th instruction of the [b]-th block. *)
Definition destroy_at (b i : nat) (s : co_state) : co_state :=
  mk_co (alter (λ bb, mk_bb (ib_id bb) (delete i (ib_instrs bb))) b (co_bbs s))
        (co_mtx s) (co_edges s) (co_vs s).

(** The body of the second loop of [coalesce]; the flag tells whether the
    instruction is destroyed. *)
Definition coalesce_instr (temp_values ffv : Z) (s : co_state) (b i : nat) (ii : ir_instr)
    : res (co_state * bool) :=
  match ii with
  | IR_IC_MOVE value d =>
      let v := vt_value value in
      let ret := vt_value (ii_ret d) in
      if u32 v <? u32 ffv then Ok (s, false) else
      src ← value_item (co_vs s) v;
      if negb (bool_decide (iv_class src = IR_VC_TEMPORARY)) then Ok (s, false) else
      if ret <? -1 then Ok (s, false) else
      dst ← value_item (co_vs s) ret;
      if ret =? v then Ok (destroy_at b i s, true) else
      _ ← check (bool_decide (iv_class dst = IR_VC_TEMPORARY)) AssertFail;
      if negb (iv_precolored dst =? -1) && negb (iv_precolored src =? -1) then Ok (s, false) else
      g ← tribitmtx_get (co_mtx s) (ret - ffv) (v - ffv);
      if g : bool then Ok (s, false) else
      let '(killed, saved) := if negb (iv_precolored src =? -1) then (ret, v) else (v, ret) in
      s ← merge_values temp_values ffv killed saved s;
      Ok (destroy_at b i s, true)
  | _ => Ok (s, false)
  end.

(** The instructions of the [b]-th block from the [i]-th on. *)
Fixpoint coalesce_block (fuel : nat) (temp_values ffv : Z) (s : co_state) (b i : nat)
    : res co_state :=
  match fuel with
  | O => Fail NoFuel
  | S fuel =>
      bb ← oget (co_bbs s !! b) Undef;
      match ib_instrs bb !! i with
      | None => Ok s
      | Some ii =>
          '(s, destroyed) ← coalesce_instr temp_values ffv s b i ii;
          coalesce_block fuel temp_values ffv s b (if destroyed : bool then i else S i)
      end
  end.

Definition coalesce_merge (temp_values ffv : Z) (s : co_state) : res co_state :=
  foldR (λ s b, bb ← oget (co_bbs s !! b) Undef;
                coalesce_block (S (length (ib_instrs bb))) temp_values ffv s b 0)
    s (seq 0 (length (co_bbs s))).

(** ** The whole analysis *)

Section analysis.
Context (qsort : list value_info → list value_info).

(** [coalesce]: the blocks, edges, values and [if_regframe_size]. *)
Definition coalesce (vs : value_state) (ffv : Z) (bbs : list ir_bb) (edges : list edge)
    (nodes : list live_node) (live : live_sets) (regframe_size : Z)
    : res (list ir_bb * list edge * value_state * Z) :=
  let temp_values := Z.of_nat (vs_next vs) - ffv in
  '(mtx, iv_edges) ← interference temp_values ffv
     (zip (map ln_instr nodes) (map fst live));
  s ← coalesce_merge temp_values ffv (mk_co bbs mtx iv_edges vs);
  '(bbs, edges) ← remove_empty_bb (co_bbs s) edges;
  '(vs, size) ← reg_alloc qsort (co_vs s) (co_mtx s) (co_edges s) temp_values ffv regframe_size;
  Ok (bbs, edges, vs, size).

Definition liveness_analysis (vs : value_state) (ffv : Z) (bbs : list ir_bb) (edges : list edge)
    (regframe_size : Z) : res (list ir_bb * list edge * value_state * Z) :=
  '(nodes, live) ← liveness_sets vs ffv bbs;
  coalesce vs ffv bbs edges nodes live regframe_size.
End analysis.

(** ** Merging two nodes of the graph *)

Section graph.
Context (n : Z).
Notation temp := (temp n).

(** A cleared edge and the degrees. *)
Lemma deg_clr mtx mtx' x y :
  temp x → temp y → x ≠ y → adj mtx x y = true →
  (∀ a b, temp a → temp b → adj mtx' a b = negb (same_pair a b x y) && adj mtx a b) →
  ∀ z, temp z → deg n (adj mtx' z) =
    deg n (adj mtx z) - (if z =? x then 1 else 0) - (if z =? y then 1 else 0).
Proof.
  intros Hx Hy Hne Hadj Hclr z Hz. rewrite (deg_set n mtx' mtx x y); [lia|done..| | |done].
  - rewrite Hclr by done. unfold same_pair. by rewrite !Z.eqb_refl.
  - intros a b Ha Hb. rewrite Hclr by done. destruct (same_pair a b x y) eqn:E; [|done].
    unfold same_pair in E. apply orb_true_iff in E as [E|E];
      apply andb_true_iff in E as [->%Z.eqb_eq ->%Z.eqb_eq]; [done|by rewrite adj_comm].
Qed.

Context (killed saved : Z) (adj0 : Z → Z → bool).

(** The graph when the neighbours below [k] have been moved. *)
Definition merged (k : Z) (a b : Z) : bool :=
  (adj0 a b && negb ((a =? killed) && (b <? k)) && negb ((b =? killed) && (a <? k))) ||
  ((a =? saved) && (b <? k) && adj0 killed b) || ((b =? saved) && (a <? k) && adj0 killed a).

(** The degrees of all but [killed]. *)
Definition degrees_but (mtx edges : list Z) : Prop :=
  is_Some (edges !! Z.to_nat killed) ∧
  ∀ z, temp z → z ≠ killed → edges !! Z.to_nat z = Some (deg n (adj mtx z)).

Definition merge_inv (k : Z) (s : list Z * list Z) : Prop :=
  mtx_ok n s.1 ∧ (∀ a b, temp a → temp b → adj s.1 a b = merged k a b) ∧ degrees_but s.1 s.2.

Context (Hk : temp killed) (Hs : temp saved) (Hne : killed ≠ saved).
Context (Hcomm : ∀ a b, adj0 a b = adj0 b a).
Context (Hdiag : ∀ z, temp z → adj0 z z = false) (Hadj : adj0 killed saved = false).

Lemma degrees_bump mtx mtx' edges k d :
  temp k → k ≠ killed → degrees_but mtx edges →
  (∀ z, temp z → z ≠ killed → deg n (adj mtx' z) = deg n (adj mtx z) + (if z =? k then d else 0)) →
  ∃ edges', bump edges k d = Ok edges' ∧ degrees_but mtx' edges'.
Proof.
  intros Hkt Hkn [H1 H2] Hdeg. unfold RegAlloc.temp in *.
  rewrite (bump_spec edges k d _ (proj1 Hkt) (H2 k Hkt Hkn)). eexists. split; [done|]. split.
  - rewrite list_lookup_insert_ne by lia. done.
  - intros z Hz Hzn. rewrite Hdeg by done. destruct (Z.eqb_spec z k) as [->|Hzk].
    + rewrite list_lookup_insert_eq by (by eapply lookup_lt_Some, H2). done.
    + rewrite list_lookup_insert_ne by (unfold RegAlloc.temp in Hz; lia). rewrite Z.add_0_r. by apply H2.
Qed.

Lemma ltb_succ x k : (x <? k + 1) = (x <? k) || (x =? k).
Proof. destruct (Z.ltb_spec x (k + 1)), (Z.ltb_spec x k), (Z.eqb_spec x k); lia || done. Qed.

Lemma merged_here k : temp k → merged k killed k = adj0 killed k ∧
  (adj0 killed k = true → merged k saved k = adj0 saved k ∧ k ≠ killed ∧ k ≠ saved).
Proof.
  intros Ht. unfold merged. rewrite !Z.eqb_refl, !Z.ltb_irrefl. rewrite (proj2 (Z.eqb_neq _ _) Hne).
  cbn [andb orb negb]. split.
  - destruct (Z.eqb_spec k killed) as [->|]; [by rewrite Hdiag, !andb_false_r|].
    rewrite Hdiag by done. by rewrite !andb_false_r, !orb_false_r, !andb_true_r.
  - intros E. assert (k ≠ killed) by (intros ->; by rewrite Hdiag in E).
    assert (k ≠ saved) by congruence. split; [|done].
    rewrite (proj2 (Z.eqb_neq k killed)), (proj2 (Z.eqb_neq k saved)), (proj2 (Z.eqb_neq saved killed)) by congruence.
    cbn [andb orb negb]. by rewrite !orb_false_r, !andb_true_r.
Qed.

Lemma merged_next k a b : temp k → temp a → temp b →
  merged (k + 1) a b =
    if adj0 killed k then same_pair a b saved k || negb (same_pair a b killed k) && merged k a b
    else merged k a b.
Proof.
  intros Hkt Ha Hb. unfold merged, same_pair. rewrite !ltb_succ.
  pose proof (Hdiag killed Hk). pose proof (Hcomm saved killed). pose proof (Hcomm k killed).
  destruct (Z.eqb_spec a k) as [->|]; destruct (Z.eqb_spec b k) as [->|]; rewrite ?Z.ltb_irrefl;
    destruct (adj0 killed k) eqn:E;
    repeat match goal with
    | |- context [?x =? ?y] => destruct (Z.eqb_spec x y) as [->|]
    end; try congruence; rewrite ?Z.ltb_irrefl;
    repeat match goal with H : adj0 _ _ = _ |- _ => rewrite H in * end;
    repeat match goal with |- context [?x <? ?y] => destruct (x <? y) end;
    cbn [andb orb negb]; try done; try congruence;
    repeat match goal with |- context [adj0 ?x ?y] => destruct (adj0 x y) eqn:? end; done || congruence.
Qed.

Lemma merge_row_spec k s :
  temp k → merge_inv k s → ∃ s', merge_row killed saved s k = Ok s' ∧ merge_inv (k + 1) s'.
Proof.
  intros Hkt (Hm & Ha & Hd). destruct s as [mtx edges]. cbn [fst snd] in *. unfold merge_row.
  destruct (merged_here k Hkt) as [E1 E2].
  pose proof (λ a b, merged_next k a b Hkt) as Hnext.
  rewrite (tribitmtx_get_spec n), (Ha killed k), E1 by done. rok.
  destruct (adj0 killed k) eqn:E0.
  2: { eexists. split; [done|]. split_and!; [done| |done]. intros a b Hat Hbt. cbn [fst].
       by rewrite Hnext, Ha. }
  destruct (E2 eq_refl) as (E3 & Hkk & Hks).
  destruct (tribitmtx_clr_spec n mtx killed k Hm Hk Hkt) as (m1 & -> & Hm1 & Hclr). rok.
  pose proof (deg_clr mtx m1 killed k Hk Hkt (not_eq_sym Hkk)) as Hdeg1.
  rewrite (tribitmtx_get_spec n) by done. rok.
  assert (adj m1 saved k = adj0 saved k) as E4.
  { rewrite Hclr, (Ha saved k), E3 by done. unfold same_pair.
    rewrite (proj2 (Z.eqb_neq saved killed)), (proj2 (Z.eqb_neq saved k)) by congruence. done. }
  rewrite E4. destruct (adj0 saved k) eqn:E5.
  - destruct (degrees_bump mtx m1 edges k (-1)) as (edges' & -> & Hd'); [done..| |].
    { intros z Hz Hzk. rewrite Hdeg1, (proj2 (Z.eqb_neq z killed)) by (rewrite ?Ha; done).
      destruct (z =? k); lia. }
    rok. eexists. split; [done|]. split_and!; [done| |done]. intros a b Hat Hbt. cbn [fst].
    rewrite Hnext, Hclr, Ha by done. destruct (same_pair a b saved k) eqn:E; [|done].
    assert (adj m1 a b = true) as E6.
    { apply orb_true_iff in E as [E|E]; apply andb_true_iff in E as [->%Z.eqb_eq ->%Z.eqb_eq];
        [done|by rewrite adj_comm]. }
    rewrite Hclr, Ha in E6 by done. by rewrite E6.
  - destruct (tribitmtx_set_spec n m1 saved k Hm1 Hs Hkt) as (m2 & -> & Hm2 & Hset). rok.
    pose proof (deg_set n m1 m2 saved k Hs Hkt (not_eq_sym Hks)) as Hdeg2.
    destruct (degrees_bump mtx m2 edges saved 1) as (edges' & -> & Hd'); [done|congruence|done| |].
    { intros z Hz Hzk.
      rewrite Hdeg2, Hdeg1, (proj2 (Z.eqb_neq z killed)) by (rewrite ?Ha; done || congruence).
      destruct (z =? k), (z =? saved); lia. }
    rok. eexists. split; [done|]. split_and!; [done| |done]. intros a b Hat Hbt. cbn [fst].
    by rewrite Hnext, Hset, Hclr, Ha.
Qed.

(** After the loop [killed] has no neighbours, and those it had are those of
    [saved]. *)
Lemma merge_rows_spec mtx edges R :
  0 <= n → (∀ a b, adj mtx a b = adj0 a b) → graph_ok n (mtx, edges) R →
  ∃ mtx' edges', foldR (merge_row killed saved) (mtx, edges) (seqZ 0 n) = Ok (mtx', edges') ∧
    is_Some (edges' !! Z.to_nat killed) ∧
    graph_ok n (mtx', <[Z.to_nat killed := 0]> edges')
      (λ a b, adj mtx' a b = true) ∧
    ∀ a b, temp a → temp b → adj0 a b = true →
      adj mtx' (if a =? killed then saved else a) (if b =? killed then saved else b) = true.
Proof.
  intros Hn E0 [(Hm & _ & _) Hc]. cbn [fst snd] in *.
  destruct (foldR_ok (λ k s, merge_inv (Z.of_nat k) s) (merge_row killed saved) (seqZ 0 n) (mtx, edges))
    as ([mtx' edges'] & Hr & Hm' & Ha & [e He] & Hd).
  - intros k i s Hi Hs'. apply lookup_seqZ in Hi as [-> Hi]. rewrite Z.add_0_l.
    replace (Z.of_nat (S k)) with (Z.of_nat k + 1) by lia.
    apply merge_row_spec; [unfold RegAlloc.temp; lia|done].
  - split_and!; [done| |split].
    + intros a b Hat Hbt. cbn [fst]. rewrite E0. unfold merged, RegAlloc.temp in *.
      rewrite !(proj2 (Z.ltb_ge _ _)) by lia. rewrite !andb_false_r. cbn. by rewrite !andb_true_r, !orb_false_r.
    + destruct (Hc killed Hk) as (x & Hx & _). by exists x.
    + intros z Hz _. cbn [snd fst]. destruct (Hc z Hz) as (x & Hx & ->). rewrite Hx. f_equal.
      unfold RegAlloc.temp in Hz. rewrite (proj2 (Z.eqb_neq z (-1))) by lia. lia.
  - rewrite length_seqZ, Z2Nat.id in Ha by done. cbn [fst snd] in *.
    assert (∀ a b, temp a → temp b → adj mtx' a b =
      (adj0 a b && negb (a =? killed) && negb (b =? killed)) || ((a =? saved) && adj0 killed b) ||
      ((b =? saved) && adj0 killed a)) as Hadj'.
    { intros a b Hat Hbt. rewrite Ha by done. unfold merged, RegAlloc.temp in *.
      rewrite !(proj2 (Z.ltb_lt _ _)) by lia. by rewrite !andb_true_r. }
    assert (∀ z, temp z → adj mtx' killed z = false) as Hiso.
    { intros z Hz. rewrite Hadj', Z.eqb_refl, (proj2 (Z.eqb_neq killed saved)) by done.
      rewrite Hdiag by done. by rewrite andb_false_r, andb_false_r. }
    exists mtx', edges'. split; [exact Hr|]. split; [by exists e|]. split; [split; [split_and!|]|].
    + done.
    + intros z Hz. cbn [fst]. destruct (Z.eqb_spec z killed) as [->|Hzk]; [by apply Hiso|].
      rewrite Hadj', Hdiag by done. destruct (Z.eqb_spec z saved) as [->|]; [by rewrite Hadj|done].
    + done.
    + intros z Hz. cbn [fst snd]. unfold RegAlloc.temp in *. rewrite (proj2 (Z.eqb_neq z (-1))) by lia.
      destruct (Z.eqb_spec z killed) as [->|Hzk].
      * exists 0. rewrite list_lookup_insert_eq by (by eapply lookup_lt_Some). split; [done|].
        rewrite (deg_ext n (λ _, false)) by (intros; by apply Hiso). by rewrite deg_none.
      * eexists. rewrite list_lookup_insert_ne by lia. split; [by apply Hd|lia].
    + intros a b Hat Hbt Hab.
      destruct (Z.eqb_spec a killed) as [->|Ha'], (Z.eqb_spec b killed) as [->|Hb'].
      * by rewrite Hdiag in Hab.
      * rewrite Hadj', Hab, Z.eqb_refl by done. by rewrite orb_true_r.
      * rewrite Hadj', Z.eqb_refl, Hcomm in * by done. rewrite Hab. by rewrite !orb_true_r.
      * rewrite Hadj', Hab, (proj2 (Z.eqb_neq a killed)), (proj2 (Z.eqb_neq b killed)) by done. done.
Qed.
End graph.

(** ** Renaming *)

(** Numbers of values stay numbers of values; -1 and counts stay. *)
Definition keeps_neg (f : Z → Z) : Prop := ∀ v, (v < 0 → f v = v) ∧ (0 <= v → 0 <= f v).

Lemma keeps_neg_ltb f v k : keeps_neg f → k <= 0 → (f v <? k) = (v <? k).
Proof.
  intros Hf Hk. destruct (Hf v) as [H1 H2]. destruct (Z.lt_ge_cases v 0) as [H|H].
  - by rewrite (H1 H).
  - specialize (H2 H). rewrite !(proj2 (Z.ltb_ge _ _)); lia.
Qed.

Lemma keeps_neg_leb f v : keeps_neg f → (0 <=? f v) = (0 <=? v).
Proof. intros Hf. rewrite !Z.leb_antisym, keeps_neg_ltb; [done|done|lia]. Qed.

Lemma keeps_neg_eqb f v : keeps_neg f → (f v =? -1) = (v =? -1).
Proof.
  intros Hf. destruct (Hf v) as [H1 H2]. destruct (Z.lt_ge_cases v 0) as [H|H].
  - by rewrite (H1 H).
  - specialize (H2 H). rewrite !(proj2 (Z.eqb_neq _ _)); lia.
Qed.

Lemma keeps_neg_compose f g : keeps_neg f → keeps_neg g → keeps_neg (g ∘ f).
Proof.
  intros Hf Hg v. destruct (Hf v) as [F1 F2], (Hg (f v)) as [G1 G2]. unfold compose. split.
  - intros H. rewrite G1; [by apply F1|]. by rewrite F1.
  - intros H. by apply G2, F2.
Qed.

Lemma replace_compose f g v : replace g (replace f v) = replace (g ∘ f) v.
Proof. done. Qed.

Lemma map_replace_compose f g l : map (replace g) (map (replace f) l) = map (replace (g ∘ f)) l.
Proof. by rewrite map_map. Qed.

Lemma replace_ret_compose f g d :
  keeps_neg f → replace_ret g (replace_ret f d) = replace_ret (g ∘ f) d.
Proof.
  intros Hf. unfold replace_ret. destruct (vt_value (ii_ret d) <? -1) eqn:E; cbn [ii_ret ii_rets].
  - rewrite E. by rewrite map_replace_compose.
  - cbn [replace vt_value]. rewrite keeps_neg_ltb, E by (done || lia). done.
Qed.

Lemma rename_compose f g i :
  keeps_neg f → rename_instr g (rename_instr f i) = rename_instr (g ∘ f) i.
Proof.
  intros Hf. destruct i; cbn [rename_instr]; unfold replace_call, replace_load; cbn;
    rewrite ?replace_ret_compose, ?map_replace_compose by done; done.
Qed.

(** What an instruction reads and writes after it is renamed. *)
Lemma gen_values_rename f i l :
  keeps_neg f → gen_values i = Ok l → gen_values (rename_instr f i) = Ok (map (replace f) l).
Proof.
  intros Hf. destruct i; cbn [rename_instr gen_values]; unfold replace_call, replace_load;
    cbn [replace ld_ptr ld_value_offset ca_callee ca_argv vt_value]; try done;
    rewrite ?keeps_neg_eqb, ?keeps_neg_leb by done;
    try (destruct (_ =? -1)); try (destruct (0 <=? _)); intros [= <-]; done.
Qed.

Lemma ret_values_rename f d l :
  keeps_neg f → ret_values d = Ok l → ret_values (replace_ret f d) = Ok (map (replace f) l).
Proof.
  intros Hf. unfold ret_values, replace_ret.
  destruct (vt_value (ii_ret d) <? -1) eqn:E; cbn [ii_ret ii_rets replace vt_value].
  - rewrite E, length_map. destruct (_ <=? _); cbn; [|done]. intros [= <-]. by rewrite firstn_map.
  - rewrite keeps_neg_ltb, E, keeps_neg_eqb by (done || lia). destruct (_ =? -1); by intros [= <-].
Qed.

Lemma instr_ret_rename f i :
  replaceable i = true → keeps_neg f → instr_ret (rename_instr f i) = replace_ret f (instr_ret i).
Proof.
  intros Hi Hf. assert (replace_ret f no_ret = no_ret) as Hno.
  { unfold replace_ret, no_ret, replace. cbn. by rewrite (proj1 (Hf (-1))) by lia. }
  by destruct i; cbn [rename_instr instr_ret]; rewrite ?Hno.
Qed.

Lemma replaceable_rename f i : replaceable (rename_instr f i) = replaceable i.
Proof. by destruct i. Qed.

Lemma gen_values_replaceable i l : gen_values i = Ok l → replaceable i = true.
Proof. by destruct i. Qed.

(** [l'] is [l] renamed, without some moves between temporaries, those of
    [tmp], that have become the same. *)
Section coalesced.
Context (tmp : Z → Prop) (f : Z → Z).

Definition dropped (i : ir_instr) : Prop :=
  ∃ v d, i = IR_IC_MOVE v d ∧ 0 <= vt_value (ii_ret d) ∧ tmp (vt_value v) ∧
    f (vt_value v) = f (vt_value (ii_ret d)).

Inductive coalesced : list ir_instr → list ir_instr → Prop :=
  | co_nil : coalesced [] []
  | co_keep i l l' : coalesced l l' → coalesced (i :: l) (rename_instr f i :: l')
  | co_drop i l l' : dropped i → coalesced l l' → coalesced (i :: l) l'.

Lemma coalesced_lookup l l' k i :
  coalesced l l' → l' !! k = Some i →
  ∃ i0, i0 ∈ l ∧ i = rename_instr f i0 ∧ (dropped i0 → coalesced l (delete k l')).
Proof.
  intros H. revert k. induction H as [|i0 l l' Hc IH|i0 l l' Hd Hc IH]; intros k Hk; [done| |].
  - destruct k as [|k]; cbn in Hk.
    + injection Hk as <-. exists i0. split; [apply elem_of_cons; by left|]. split; [done|].
      intros Hd. by apply co_drop.
    + destruct (IH k Hk) as (i1 & H1 & H2 & H3). exists i1.
      split; [apply elem_of_cons; by right|]. split; [done|]. intros Hd.
      change (delete (S k) (?x :: ?l)) with (x :: delete k l). by apply co_keep, H3.
  - destruct (IH k Hk) as (i1 & H1 & H2 & H3). exists i1.
    split; [apply elem_of_cons; by right|]. split; [done|]. intros Hd1. by apply co_drop, H3.
Qed.

Lemma coalesced_elem l l' i : coalesced l l' → i ∈ l' → ∃ i0, i0 ∈ l ∧ i = rename_instr f i0.
Proof.
  intros H [k Hk]%list_elem_of_lookup. destruct (coalesced_lookup _ _ _ _ H Hk) as (i0 & ? & ? & _). eauto.
Qed.

(** A block ends in its only instruction that ends blocks. *)
Definition terminator (i : ir_instr) : bool :=
  match i with
  | IR_IC_RET _ | IR_IC_UNREACHABLE | IR_IC_RESUME _ | IR_IC_BR _ _ _ | IR_IC_CMP_BRANCH _ _ _ _ _
  | IR_IC_SWITCH _ _ _ | IR_IC_INVOKE _ _ => true
  | _ => false
  end.

Definition block_wf (bb : ir_bb) : Prop :=
  ∃ l i, ib_instrs bb = l ++ [i] ∧ terminator i = true ∧ ∀ j, j ∈ l → terminator j = false.

Lemma coalesced_last l i l' :
  terminator i = true → coalesced (l ++ [i]) l' →
  ∃ l1, l' = l1 ++ [rename_instr f i] ∧ coalesced l l1.
Proof.
  intros Ht. revert l'; induction l as [|j l IH]; intros l' H; cbn in H.
  - inversion H as [|? ? l1 H1|? ? ? Hd H1]; subst.
    + inversion H1; subst. exists []. split; [done|constructor].
    + destruct Hd as (v & d & -> & _). done.
  - inversion H as [|? ? l1 H1|? ? ? Hd H1]; subst; destruct (IH _ H1) as (l2 & -> & H2).
    + exists (rename_instr f j :: l2). split; [done|by constructor].
    + exists l2. split; [done|by apply co_drop].
Qed.
End coalesced.

Lemma coalesced_rename tmp f g l l' :
  keeps_neg f → coalesced tmp f l l' → coalesced tmp (g ∘ f) l (map (rename_instr g) l').
Proof.
  intros Hf. induction 1 as [|i l l' _ IH|i l l' (v & d & -> & Hd & Ht & E) _ IH]; cbn [map].
  - constructor.
  - rewrite rename_compose by done. by constructor.
  - apply co_drop; [|done]. exists v, d. unfold compose. by rewrite E.
Qed.

Lemma rename_id i : rename_instr id i = i.
Proof.
  assert (∀ v, replace id v = v) as Hv by (by intros []).
  assert (∀ l, map (replace id) l = l) as Hl by (intros x; rewrite (map_ext _ id Hv); apply map_id).
  assert (∀ d, replace_ret id d = d) as Hd.
  { intros [r rs]. unfold replace_ret. cbn. rewrite Hl, Hv. by destruct (_ <? _). }
  destruct i; cbn [rename_instr]; unfold replace_call, replace_load; rewrite ?Hd, ?Hl, ?Hv; try done.
  all: try (by destruct c). by destruct l.
Qed.

Lemma coalesced_id tmp l : coalesced tmp id l l.
Proof. induction l as [|i l IH]; [constructor|]. rewrite <- (rename_id i) at 2. by constructor. Qed.

Lemma not_terminator_targets i : terminator i = false → targets i = [].
Proof. by destruct i. Qed.

(** The blocks an instruction leads to do not change. *)
Lemma targets_rename f i : keeps_neg f → targets (rename_instr f i) = targets i.
Proof. intros Hf. destruct i; cbn; try done. by rewrite keeps_neg_eqb. Qed.

Lemma changeable_rename f i : changeable (rename_instr f i) = changeable i.
Proof. by destruct i. Qed.

Definition block_coalesced (tmp : Z → Prop) (f : Z → Z) (b b' : ir_bb) : Prop :=
  ib_id b = ib_id b' ∧ coalesced tmp f (ib_instrs b) (ib_instrs b').

Lemma coalesced_find tmp f bbs bbs' id :
  Forall2 (block_coalesced tmp f) bbs bbs' →
  match bb_find bbs id, bb_find bbs' id with
  | Some b, Some b' => block_coalesced tmp f b b'
  | None, None => True
  | _, _ => False
  end.
Proof.
  induction 1 as [|b b' l l' Hb _ IH]; [done|]. rewrite !bb_find_cons, <- (proj1 Hb).
  by destruct (decide (ib_id b = id)).
Qed.

Lemma block_last bb l i : ib_instrs bb = l ++ [i] → bb_last bb = Ok i.
Proof.
  intros E. unfold bb_last. rewrite E, length_app. cbn [length]. rewrite Nat.add_1_r.
  cbn [pred]. by rewrite lookup_app_r, Nat.sub_diag by done.
Qed.

(** Coalescing keeps the control flow graph. *)
Lemma coalesced_cfg tmp f bbs bbs' edges :
  keeps_neg f → (∀ b, b ∈ bbs → block_wf b) → Forall2 (block_coalesced tmp f) bbs bbs' →
  cfg_ok bbs edges → cfg_ok bbs' edges.
Proof.
  intros Hf Hwf Hbl [Hnd Hb He Hbr].
  assert (∀ id b', bb_find bbs' id = Some b' → ∃ b l i l1, bb_find bbs id = Some b ∧
    ib_instrs b = l ++ [i] ∧ ib_instrs b' = l1 ++ [rename_instr f i] ∧ coalesced tmp f l l1 ∧
    terminator i = true ∧ ∀ j, j ∈ l → terminator j = false) as Hfind.
  { intros id b' Hb'. pose proof (coalesced_find tmp f bbs bbs' id Hbl) as H. rewrite Hb' in H.
    destruct (bb_find bbs id) as [b|] eqn:Ef; [|done]. destruct H as [_ Hc].
    destruct (Hwf b) as (l & i & E & Ht & Hl); [by apply (bb_find_Some _ _ _ Ef)|].
    rewrite E in Hc. destruct (coalesced_last _ _ _ _ _ Ht Hc) as (l1 & E1 & Hc1).
    by exists b, l, i, l1. }
  split.
  - replace (map ib_id bbs') with (map ib_id bbs); [done|]. clear -Hbl.
    induction Hbl as [|b b' ? ? [Hid _] _ IH]; cbn; congruence.
  - intros id b' Hb'. destruct (Hfind id b' Hb') as (b & l & i & l1 & Hfb & E & E' & _).
    destruct (Hb id b Hfb) as (i0 & Hi0 & Ht). rewrite (block_last _ _ _ E) in Hi0. injection Hi0 as <-.
    exists (rename_instr f i). split; [by eapply block_last|]. by rewrite targets_rename.
  - intros a b Hab. destruct (He a b Hab) as ((ba & i & Hba & Hi & Hch) & Hs). split.
    + pose proof (coalesced_find tmp f bbs bbs' a Hbl) as H. rewrite Hba in H.
      destruct (bb_find bbs' a) as [ba'|] eqn:Ea; [|done].
      destruct (Hfind a ba' Ea) as (b0 & l & i0 & l1 & Hfb & E & E' & _). rewrite Hba in Hfb.
      injection Hfb as <-. rewrite (block_last _ _ _ E) in Hi. injection Hi as <-.
      exists ba', (rename_instr f i0). split_and!; [done|by eapply block_last|by rewrite changeable_rename].
    + pose proof (coalesced_find tmp f bbs bbs' b Hbl) as H. destruct Hs as [bb Hbb]. rewrite Hbb in H.
      by destruct (bb_find bbs' b).
  - intros id b' c t e Hb' Hhd _. destruct (Hfind id b' Hb') as (b & l & i & l1 & _ & _ & E' & Hc & _ & Hl).
    rewrite E' in *. destruct l1 as [|j l1]; cbn in Hhd; [by injection Hhd as ->|]. injection Hhd as ->.
    destruct (coalesced_elem _ _ _ _ _ Hc (proj2 (elem_of_cons _ _ _) (or_introl eq_refl))) as (j & Hj & Ej).
    specialize (Hl j Hj). destruct j; done.
Qed.

(** ** The state while values are merged *)

Lemma value_item_get vs k iv : index_ok k → value_get vs k = Ok iv → value_item vs k = Ok iv.
Proof.
  unfold index_ok. intros Hk. unfold value_get, value_item. rewrite wrap_small by lia.
  rewrite (proj2 (Z.ltb_ge k 0)) by lia. destruct (vs_values vs !! Z.to_nat k); done.
Qed.

Lemma mapR_map {A B} (f : A → res B) (g : A → B) l :
  (∀ a, a ∈ l → f a = Ok (g a)) → mapR f l = Ok (map g l).
Proof.
  induction l as [|a l IH]; intros H; [done|]. cbn [mapR map].
  rewrite (H a) by (apply elem_of_cons; by left). rok.
  rewrite IH by (intros; apply H, elem_of_cons; by right). done.
Qed.

Lemma replace_everywhere_spec killed saved bbs :
  (∀ b i, b ∈ bbs → i ∈ ib_instrs b → replaceable i = true) →
  replace_everywhere killed saved bbs =
    Ok (map (λ bb, mk_bb (ib_id bb) (map (rename_instr (instr_replace_value killed saved)) (ib_instrs bb))) bbs).
Proof.
  intros H. apply mapR_map. intros bb Hbb.
  rewrite (mapR_map _ (rename_instr (instr_replace_value killed saved))); [done|].
  intros i Hi. unfold instr_replace_values. by rewrite (H bb i Hbb Hi).
Qed.

Section merging.
Context (n ffv : Z) (bbs0 : list ir_bb) (vs0 : value_state) (R0 : Z → Z → Prop).
Notation temp := (temp n).
Notation slots iv := (value_regframe_slots (iu_types (vs_types vs0)) (iv_type iv)).

Definition is_temporary (iv : ir_value) : Prop := iv_class iv = IR_VC_TEMPORARY.

(** What coalescing relies on: the instructions are those [instr_replace_values]
    knows; each temporary has a value; a move from a temporary writes one
    temporary of the same size, or several values. *)
Record merge_ok : Prop := {
  mo_instrs : ∀ b i, b ∈ bbs0 → i ∈ ib_instrs b → replaceable i = true;
  mo_values : ∀ v, temp (v - ffv) → ∃ iv, value_get vs0 v = Ok iv;
  mo_moves : ∀ b v d iv, b ∈ bbs0 → IR_IC_MOVE v d ∈ ib_instrs b →
    value_get vs0 (vt_value v) = Ok iv → is_temporary iv → -1 <= vt_value (ii_ret d) →
    temp (vt_value v - ffv) ∧ temp (vt_value (ii_ret d) - ffv) ∧
    ∃ iw, value_get vs0 (vt_value (ii_ret d)) = Ok iw ∧ is_temporary iw ∧ slots iw = slots iv;
  mo_uses : ∀ b v d, b ∈ bbs0 → IR_IC_MOVE v d ∈ ib_instrs b →
    index_ok (vt_value v) ∧ ∃ iv, value_get vs0 (vt_value v) = Ok iv;
}.
Context (Hok : merge_ok) (Hn : 0 <= n) (Hffv : 0 <= ffv) (Hidx : ffv + n <= 2 ^ 32).

(** The temporaries before. *)
Definition tmp0 (v : Z) : Prop := ∃ iv, value_get vs0 v = Ok iv ∧ is_temporary iv.

(** The state [s] is the function with its values renamed by [f], which sends
    each temporary to the one it was merged into. *)
Record co_inv (f : Z → Z) (s : co_state) : Prop := {
  ci_blocks : Forall2 (block_coalesced tmp0 f) bbs0 (co_bbs s);
  ci_graph : graph_ok n (co_mtx s, co_edges s) (λ a b, adj (co_mtx s) a b = true);
  ci_rel : ∀ a b, temp a → temp b → R0 a b → adj (co_mtx s) (f (a + ffv) - ffv) (f (b + ffv) - ffv) = true;
  ci_neg : ∀ v, ¬ temp (v - ffv) → f v = v;
  ci_temp : ∀ v, temp (v - ffv) → temp (f v - ffv);
  ci_idem : ∀ v, f (f v) = f v;
  ci_types : vs_types (co_vs s) = vs_types vs0;
  ci_same : ∀ k, index_ok k → f k = k → value_get (co_vs s) k = value_get vs0 k;
  ci_dead : ∀ k, f k ≠ k → ∃ iv iw, value_get vs0 k = Ok iv ∧ value_get vs0 (f k) = Ok iw ∧
    value_get (co_vs s) k = Ok (set_class iv IR_VC_DEAD) ∧
    is_temporary iv ∧ is_temporary iw ∧ iv_precolored iv = -1 ∧ slots iw = slots iv;
}.

Lemma ci_keeps_neg f s : co_inv f s → keeps_neg f.
Proof.
  intros Hinv v. split.
  - intros Hv. apply (ci_neg _ _ Hinv). unfold RegAlloc.temp. lia.
  - intros Hv. destruct (decide (f v = v)) as [->|Hne]; [done|].
    destruct (decide (0 <= v - ffv < n)) as [Ht|Ht].
    + pose proof (ci_temp _ _ Hinv v Ht) as H. unfold RegAlloc.temp in H. lia.
    + destruct Hne. by apply (ci_neg _ _ Hinv).
Qed.

Lemma ci_replaceable f s b i :
  co_inv f s → b ∈ co_bbs s → i ∈ ib_instrs b → replaceable i = true.
Proof.
  intros Hinv Hb Hi. apply list_elem_of_lookup in Hb as [k Hb].
  destruct (Forall2_lookup_r _ _ _ _ _ (ci_blocks _ _ Hinv) Hb) as (b0 & Hb0 & _ & Hc).
  destruct (coalesced_elem _ _ _ _ _ Hc Hi) as (i0 & Hi0 & ->). rewrite replaceable_rename.
  eapply (mo_instrs Hok); [|done]. by eapply list_elem_of_lookup_2.
Qed.

(** Merging [killed] into [saved], both of which stand for themselves. *)
Lemma merge_values_spec f s killed saved ik is' :
  co_inv f s → temp (killed - ffv) → temp (saved - ffv) → killed ≠ saved →
  f killed = killed → f saved = saved →
  adj (co_mtx s) (killed - ffv) (saved - ffv) = false →
  value_get vs0 killed = Ok ik → value_get vs0 saved = Ok is' →
  is_temporary ik → is_temporary is' → iv_precolored ik = -1 → slots is' = slots ik →
  ∃ s', merge_values n ffv killed saved s = Ok s' ∧
    co_inv (instr_replace_value killed saved ∘ f) s' ∧
    co_bbs s' = map (λ bb, mk_bb (ib_id bb)
      (map (rename_instr (instr_replace_value killed saved)) (ib_instrs bb))) (co_bbs s).
Proof.
  intros Hinv Hk Hs Hne Hfk Hfs Hadj Hik His Tk Ts Hpk Hsl.
  pose proof (ci_keeps_neg f s Hinv) as Hneg.
  assert (index_ok killed) as Hik32 by (unfold RegAlloc.temp, index_ok in *; lia).
  assert (index_ok saved) as His32 by (unfold RegAlloc.temp, index_ok in *; lia).
  unfold merge_values. rewrite replace_everywhere_spec by (intros b i; by eapply ci_replaceable). rok.
  destruct (merge_rows_spec n (killed - ffv) (saved - ffv) (adj (co_mtx s)) Hk Hs ltac:(lia)
    (adj_comm (co_mtx s)) (proj1 (proj2 (proj1 (ci_graph _ _ Hinv)))) Hadj
    (co_mtx s) (co_edges s) _ Hn (λ a b, eq_refl) (ci_graph _ _ Hinv))
    as (mtx' & edges' & -> & [e He] & Hg & Hrel). rok.
  rewrite (value_item_get _ killed ik) by (done || by rewrite (ci_same _ _ Hinv)). rok.
  rewrite He. rok. eexists. split; [reflexivity|]. split; [|done].
  set (g := instr_replace_value killed saved).
  assert (∀ v, g v = if decide (v = killed) then saved else v) as Hg'.
  { intros v. unfold g, instr_replace_value. destruct (Z.eqb_spec v killed); by case_decide. }
  assert (∀ v, f v = killed → v = killed ∨ f v ≠ v) as Hto by (intros v E; destruct (decide (v = killed)); [by left|right; congruence]).
  split; cbn [co_bbs co_mtx co_edges co_vs].
  - pose proof (ci_blocks _ _ Hinv) as Hbl. clear -Hbl Hneg. induction Hbl as [|b b' l l' [Hid Hc] _ IH]; cbn [map]; constructor; [|done].
    split; [done|]. by apply coalesced_rename.
  - exact Hg.
  - intros a b Ha Hb HR. pose proof (ci_rel _ _ Hinv a b Ha Hb HR) as H.
    apply Hrel in H; [|apply (ci_temp _ _ Hinv); by rewrite Z.add_simpl_r..]. unfold compose. rewrite !Hg'.
    assert (∀ x, (if decide (x = killed) then saved else x) - ffv =
                 if x - ffv =? killed - ffv then saved - ffv else x - ffv) as E.
    { intros x. case_decide as Ex; destruct (Z.eqb_spec (x - ffv) (killed - ffv)); lia. }
    by rewrite !E.
  - intros v Hv. unfold compose. rewrite (ci_neg _ _ Hinv v Hv), Hg'. case_decide; [by subst|done].
  - intros v Hv. unfold compose. rewrite Hg'. case_decide; [done|by apply (ci_temp _ _ Hinv)].
  - intros v. unfold compose. rewrite (Hg' (f v)). destruct (decide (f v = killed)).
    + rewrite Hfs, Hg'. by rewrite decide_False by congruence.
    + rewrite (ci_idem _ _ Hinv), Hg'. by rewrite decide_False.
  - apply (ci_types _ _ Hinv).
  - intros k Hki. unfold compose. rewrite Hg'. case_decide as E; intros E'.
    + subst k. congruence.
    + assert (k ≠ killed) by congruence. rewrite value_get_set_other by (done || congruence).
      by apply (ci_same _ _ Hinv).
  - intros k. unfold compose. rewrite Hg'. case_decide as E; intros E'.
    + destruct (decide (k = killed)) as [->|Hkk].
      * exists ik, is'. split_and!; try done. erewrite value_get_set_same; [done|].
        by rewrite (ci_same _ _ Hinv).
      * destruct (ci_dead _ _ Hinv k) as (iv & iw & H1 & H2 & H3 & H4 & H5 & H6 & H7); [congruence|].
        exists iv, is'. rewrite E, Hik in H2. injection H2 as <-. split_and!; try done; [|congruence].
        assert (temp (k - ffv)) as Hkt.
        { destruct (decide (0 <= k - ffv < n)) as [|Hno]; [done|]. destruct Hkk.
          by rewrite <- (ci_neg _ _ Hinv k Hno). }
        by rewrite value_get_set_other by (unfold RegAlloc.temp, index_ok in *; lia).
    + destruct (ci_dead _ _ Hinv k E') as (iv & iw & H1 & H2 & H3 & H4).
      exists iv, iw. split_and!; try done; try apply H4.
      assert (temp (k - ffv)) as Hkt.
      { destruct (decide (0 <= k - ffv < n)) as [|Hno]; [done|]. destruct E'. by apply (ci_neg _ _ Hinv). }
      rewrite value_get_set_other; [done|unfold RegAlloc.temp, index_ok in *; lia..|].
      intros ->. by apply E.
Qed.

(** The value a temporary was merged into. *)
Lemma ci_rep f s k iv :
  co_inv f s → index_ok k → value_get vs0 k = Ok iv →
  index_ok (f k) ∧ ∃ iw, value_get vs0 (f k) = Ok iw ∧ value_item (co_vs s) (f k) = Ok iw ∧
    (is_temporary iv ↔ is_temporary iw) ∧ slots iw = slots iv.
Proof.
  intros Hinv Hk Hiv. assert (index_ok (f k)) as Hfk.
  { destruct (decide (0 <= k - ffv < n)) as [Ht|Ht]; [|by rewrite (ci_neg _ _ Hinv)].
    pose proof (ci_temp _ _ Hinv k Ht). unfold RegAlloc.temp, index_ok in *. lia. }
  assert (∀ iw, value_get vs0 (f k) = Ok iw → value_item (co_vs s) (f k) = Ok iw) as Hitem.
  { intros iw Hiw. apply value_item_get; [done|].
    rewrite (ci_same _ _ Hinv); [done|done|apply (ci_idem _ _ Hinv)]. }
  split; [done|]. destruct (decide (f k = k)) as [E|E].
  - exists iv. rewrite E in *. by split_and!; [|apply Hitem|..].
  - destruct (ci_dead _ _ Hinv k E) as (iv' & iw & H1 & H2 & _ & H4 & H5 & _ & H7).
    rewrite Hiv in H1. injection H1 as <-. exists iw. by split_and!; [|apply Hitem|..].
Qed.

(** Destroying a move of a value to itself. *)
Lemma destroy_spec f s b i bb v d :
  co_inv f s → co_bbs s !! b = Some bb → ib_instrs bb !! i = Some (IR_IC_MOVE v d) →
  0 <= vt_value (ii_ret d) → vt_value v = vt_value (ii_ret d) →
  (∀ v0, f v0 = vt_value v → tmp0 v0) → co_inv f (destroy_at b i s).
Proof.
  intros Hinv Hb Hi Hd E Htmp. pose proof (ci_keeps_neg f s Hinv) as Hneg.
  destruct Hinv as [Hbl H1 H2 H3 H4 H5 H6 H7 H8]. split; try done. cbn [destroy_at co_bbs].
  clear -Hbl Hb Hi Hd E Hneg Htmp. revert b Hb. induction Hbl as [|b0 b1 l0 l1 [Hid Hc] Hbl IH]; intros b Hb; [done|].
  destruct b as [|b]; cbn in Hb.
  - injection Hb as <-. change (alter ?f 0%nat (?x :: ?l)) with (f x :: l).
    constructor; [|done]. split; [done|]. cbn [ib_instrs].
    destruct (coalesced_lookup _ _ _ _ _ _ Hc Hi) as (i0 & _ & E0 & Hdel). apply Hdel.
    assert (∃ v0 d0, i0 = IR_IC_MOVE v0 d0) as (v0 & d0 & ->)
      by (destruct i0; try discriminate E0; by eexists _, _).
    injection E0 as -> ->.
    unfold replace_ret in Hd, E. destruct (vt_value (ii_ret d0) <? -1) eqn:El; cbn in Hd, E.
    + apply Z.ltb_lt in El. lia.
    + exists v0, d0. split_and!; [done| |by apply Htmp|done].
      destruct (Hneg (vt_value (ii_ret d0))) as [N _].
      destruct (Z.lt_ge_cases (vt_value (ii_ret d0)) 0) as [Hl|]; [|done]. rewrite N in Hd; done.
  - change (alter ?f (S b) (?x :: ?l)) with (x :: alter f b l). constructor; [done|by apply IH].
Qed.

(** Only temporaries are merged into temporaries. *)
Lemma ci_tmp0 f s v0 w iw :
  co_inv f s → f v0 = w → value_get vs0 w = Ok iw → is_temporary iw → tmp0 v0.
Proof.
  intros Hinv E Hw Hiw. destruct (decide (f v0 = v0)) as [E0|E0].
  - exists iw. by rewrite <- E0, E.
  - destruct (ci_dead _ _ Hinv v0 E0) as (iv & _ & H & _ & _ & Ht & _). by exists iv.
Qed.

Definition shrunk (s s' : co_state) (b : nat) (destroyed : bool) : Prop :=
  length (co_bbs s') = length (co_bbs s) ∧
  ∃ bb bb', co_bbs s !! b = Some bb ∧ co_bbs s' !! b = Some bb' ∧
    length (ib_instrs bb) = (length (ib_instrs bb') + if destroyed then 1 else 0)%nat.

Lemma destroy_shrunk s b i bb ii :
  co_bbs s !! b = Some bb → ib_instrs bb !! i = Some ii → shrunk s (destroy_at b i s) b true.
Proof.
  intros Hb Hi. unfold destroy_at. split; cbn [co_bbs]; [by rewrite length_alter|].
  exists bb. eexists. split; [done|]. rewrite list_lookup_alter_eq, Hb. split; [done|].
  cbn [ib_instrs]. pose proof (lookup_lt_Some _ _ _ Hi). rewrite length_delete by (by eexists). lia.
Qed.

(** A move that is merged away. *)
Lemma merge_destroy_spec f s b i bb v d killed saved ik is' :
  co_inv f s → co_bbs s !! b = Some bb → ib_instrs bb !! i = Some (IR_IC_MOVE v d) →
  0 <= vt_value (ii_ret d) →
  (killed = vt_value v ∧ saved = vt_value (ii_ret d) ∨ saved = vt_value v ∧ killed = vt_value (ii_ret d)) →
  temp (killed - ffv) → temp (saved - ffv) → killed ≠ saved →
  f killed = killed → f saved = saved →
  adj (co_mtx s) (killed - ffv) (saved - ffv) = false →
  value_get vs0 killed = Ok ik → value_get vs0 saved = Ok is' →
  is_temporary ik → is_temporary is' → iv_precolored ik = -1 → slots is' = slots ik →
  ∃ s' f', (s ← merge_values n ffv killed saved s; Ok (destroy_at b i s, true)) = Ok (s', true) ∧
    co_inv f' s' ∧ shrunk s s' b true.
Proof.
  intros Hinv Hb Hi Hd Hks Hk Hs Hne Hfk Hfs Hadj Hik His Tk Ts Hp Hsl.
  destruct (merge_values_spec f s killed saved ik is') as (s1 & -> & Hinv1 & Hbbs); try done. rok.
  set (g := instr_replace_value killed saved) in *.
  exists (destroy_at b i s1), (g ∘ f). split; [done|].
  assert (co_bbs s1 !! b = Some (mk_bb (ib_id bb) (map (rename_instr g) (ib_instrs bb)))) as Hb1
    by (by rewrite Hbbs, list_lookup_fmap, Hb).
  assert (map (rename_instr g) (ib_instrs bb) !! i = Some (IR_IC_MOVE (replace g v) (replace_ret g d))) as Hi1
    by (by rewrite list_lookup_fmap, Hi).
  assert (g (vt_value v) = g (vt_value (ii_ret d))) as E.
  { unfold g, instr_replace_value. destruct Hks as [[-> ->]|[-> ->]]; rewrite Z.eqb_refl;
      by rewrite (proj2 (Z.eqb_neq _ _)) by congruence. }
  assert (0 <= g (vt_value (ii_ret d))) as Hg0.
  { unfold g, instr_replace_value. destruct (_ =? _); unfold RegAlloc.temp in Hs; lia. }
  assert (ii_ret (replace_ret g d) = replace g (ii_ret d)) as Er.
  { unfold replace_ret. by rewrite (proj2 (Z.ltb_ge _ _)) by lia. }
  split.
  - eapply destroy_spec; [done|done|exact Hi1|by rewrite Er|by rewrite Er|].
    intros v0 E0. eapply (ci_tmp0 _ _ _ saved is'); [exact Hinv1| |done|done]. rewrite E0.
    cbn [replace vt_value]. unfold g, instr_replace_value.
    destruct Hks as [[-> ->]|[-> ->]]; [by rewrite Z.eqb_refl|by rewrite (proj2 (Z.eqb_neq _ _)) by done].
  - destruct (destroy_shrunk s1 b i _ _ Hb1 Hi1) as [H1 (x & y & H2 & H3 & H4)].
    split; [rewrite H1, Hbbs; by rewrite length_map|]. exists bb, y. split_and!; [done|done|].
    rewrite Hb1 in H2. injection H2 as <-. cbn [ib_instrs] in H4. by rewrite length_map in H4.
Qed.

Lemma shrunk_refl s b bb : co_bbs s !! b = Some bb → shrunk s s b false.
Proof. intros Hb. split; [done|]. exists bb, bb. split_and!; [done|done|lia]. Qed.

Definition is_move (i : ir_instr) : bool := match i with IR_IC_MOVE _ _ => true | _ => false end.

Lemma coalesce_instr_spec f s b i bb ii :
  co_inv f s → co_bbs s !! b = Some bb → ib_instrs bb !! i = Some ii →
  ∃ s' destroyed f', coalesce_instr n ffv s b i ii = Ok (s', destroyed) ∧ co_inv f' s' ∧
    shrunk s s' b destroyed.
Proof.
  intros Hinv Hb Hi.
  assert (∃ s' destroyed f', Ok (s, false) = Ok (s', destroyed) ∧ co_inv f' s' ∧ shrunk s s' b destroyed)
    as Hsame by (exists s, false, f; by eauto using shrunk_refl).
  destruct (Forall2_lookup_r _ _ _ _ _ (ci_blocks _ _ Hinv) Hb) as (b0 & Hb0%list_elem_of_lookup_2 & _ & Hc).
  destruct (coalesced_lookup _ _ _ _ _ _ Hc Hi) as (i0 & Hi0 & E0 & _).
  destruct (decide (is_move i0 = true)) as [Hmv|Hmv].
  2: { subst ii. destruct i0; try exact Hsame. by destruct Hmv. }
  assert (∃ v0 d0, i0 = IR_IC_MOVE v0 d0) as (v0 & d0 & ->)
    by (destruct i0; try discriminate Hmv; by eexists _, _). clear Hmv.
  pose proof (ci_keeps_neg f s Hinv) as Hneg.
  destruct (mo_uses Hok _ _ _ Hb0 Hi0) as (Hv0 & iv & Hiv).
  pose proof (mo_moves Hok _ _ _ iv Hb0 Hi0 Hiv) as Hmove.
  destruct (ci_rep f s _ _ Hinv Hv0 Hiv) as (Hfv & src & Hsrc & Hsrc' & Tsrc & Ssrc).
  subst ii. cbn [rename_instr coalesce_instr replace vt_value].
  destruct (u32 (f (vt_value v0)) <? u32 ffv); [exact Hsame|]. rewrite Hsrc'. rok.
  destruct (decide (is_temporary src)) as [Ts|Ts]; [|by rewrite bool_decide_eq_false_2].
  rewrite bool_decide_eq_true_2 by done. cbn [negb].
  destruct (vt_value (ii_ret d0) <? -1) eqn:Eret.
  { unfold replace_ret. rewrite Eret. cbn [ii_ret]. rewrite Eret. exact Hsame. }
  assert (ii_ret (replace_ret f d0) = replace f (ii_ret d0)) as Er by (unfold replace_ret; by rewrite Eret).
  pose proof Eret as Eret'. apply Z.ltb_ge in Eret'.
  destruct Hmove as (Tv & Tr & iw & Hiw & Tw & Sw); [by apply Tsrc|done|].
  assert (index_ok (vt_value (ii_ret d0))) as Hr0 by (unfold RegAlloc.temp, index_ok in *; lia).
  destruct (ci_rep f s _ _ Hinv Hr0 Hiw) as (Hfr & dst & Hdst & Hdst' & Tdst & Sdst).
  rewrite Er. cbn [replace vt_value].
  rewrite keeps_neg_ltb, Eret by (done || lia). rewrite Hdst'. rok.
  assert (0 <= f (vt_value (ii_ret d0))) as Hfr0 by (apply Hfr).
  destruct (Z.eqb_spec (f (vt_value (ii_ret d0))) (f (vt_value v0))) as [E|Hne].
  { exists (destroy_at b i s), true, f. split; [done|].
    split; [|by eapply destroy_shrunk]. eapply destroy_spec; [done|done|exact Hi|by rewrite Er|by rewrite Er|].
    intros v1 E1. by eapply ci_tmp0. }
  assert (is_temporary dst) as Td by (by apply Tdst). rewrite (bool_decide_eq_true_2 _ Td). rok.
  destruct (negb (iv_precolored dst =? -1) && negb (iv_precolored src =? -1)) eqn:Ep; [exact Hsame|].
  pose proof (ci_temp _ _ Hinv _ Tv) as Tfv. pose proof (ci_temp _ _ Hinv _ Tr) as Tfr.
  rewrite (tribitmtx_get_spec n) by (done || apply (ci_graph _ _ Hinv)). rok.
  destruct (adj (co_mtx s) _ _) eqn:Eadj; [exact Hsame|].
  destruct (Z.eqb_spec (iv_precolored src) (-1)) as [Eps|Eps]; cbn [negb].
  - destruct (merge_destroy_spec f s b i bb (replace f v0) (replace_ret f d0) (f (vt_value v0))
      (f (vt_value (ii_ret d0))) src dst) as (s' & f' & H); try done.
    + by rewrite Er.
    + left. by rewrite Er.
    + apply (ci_idem _ _ Hinv).
    + apply (ci_idem _ _ Hinv).
    + by rewrite adj_comm.
    + congruence.
    + exists s', true, f'. exact H.
  - assert (iv_precolored dst = -1) as Epd by (by destruct (Z.eqb_spec (iv_precolored dst) (-1))).
    destruct (merge_destroy_spec f s b i bb (replace f v0) (replace_ret f d0)
      (f (vt_value (ii_ret d0))) (f (vt_value v0)) dst src) as (s' & f' & H); try done.
    + by rewrite Er.
    + right. by rewrite Er.
    + apply (ci_idem _ _ Hinv).
    + apply (ci_idem _ _ Hinv).
    + congruence.
    + exists s', true, f'. exact H.
Qed.

Lemma coalesce_block_spec fuel f s b i bb :
  co_inv f s → co_bbs s !! b = Some bb → (length (ib_instrs bb) - i < fuel)%nat →
  ∃ s' f', coalesce_block fuel n ffv s b i = Ok s' ∧ co_inv f' s' ∧
    length (co_bbs s') = length (co_bbs s).
Proof.
  revert f s i bb; induction fuel as [|fuel IH]; intros f s i bb Hinv Hb Hf; [lia|].
  cbn [coalesce_block]. rewrite Hb. rok. destruct (ib_instrs bb !! i) as [ii|] eqn:Hi; [|by exists s, f].
  destruct (coalesce_instr_spec f s b i bb ii Hinv Hb Hi) as (s1 & de & f1 & -> & Hinv1 & Hlen & bx & b1 & Hbx & Hb1 & Hl).
  rok. rewrite Hb in Hbx. injection Hbx as <-. pose proof (lookup_lt_Some _ _ _ Hi).
  destruct (IH f1 s1 (if de then i else S i) b1 Hinv1 Hb1) as (s2 & f2 & Hr & Hinv2 & Hl2);
    [destruct de; lia|]. exists s2, f2. rewrite Hl2. by split.
Qed.

Lemma coalesce_merge_spec f s :
  co_inv f s → ∃ s' f', coalesce_merge n ffv s = Ok s' ∧ co_inv f' s'.
Proof.
  intros Hinv. unfold coalesce_merge. assert (∀ l f s, co_inv f s → (∀ b, b ∈ l → (b < length (co_bbs s))%nat) →
    ∃ s' f', foldR (λ s b, bb ← oget (co_bbs s !! b) Undef;
                coalesce_block (S (length (ib_instrs bb))) n ffv s b 0) s l = Ok s' ∧ co_inv f' s') as H.
  { induction l as [|b l IH]; intros f1 s1 H1 Hl; [by exists s1, f1|]. cbn [foldR].
    destruct (lookup_lt_is_Some_2 (co_bbs s1) b) as [bb Hb]; [apply Hl, elem_of_cons; by left|].
    rewrite Hb. rok.
    destruct (coalesce_block_spec (S (length (ib_instrs bb))) f1 s1 b 0 bb H1 Hb) as (s2 & f2 & -> & H2 & Hlen);
      [lia|]. rok. eapply IH; [exact H2|]. intros b' Hb'. rewrite Hlen. apply Hl, elem_of_cons. by right. }
  apply (H _ f); [done|]. intros b [_ Hb]%elem_of_seq. done.
Qed.
End merging.
