(* ===== verification/Analysis.v ===== *)
(** [liveness_analysis] and [finalize_call_args] of
    [src/src/vmir_transform.c] as a whole: the analysis of a function gives
    every temporary a place in the frame, and values that are needed at the
    same time places that do not overlap. *)
From S2P Require Import Prelude Support Types Values Instr Cfg Liveness RegAlloc Coalesce.
Local Open Scope Z_scope.

(** ** The analysis of a function *)

Lemma value_get_item vs k iv :
  Z.of_nat (length (vs_values vs)) <= 2 ^ 31 → value_item vs k = Ok iv →
  index_ok k ∧ value_get vs k = Ok iv.
Proof.
  intros Hlen. unfold value_item, value_get, index_ok. destruct (Z.ltb_spec k 0); [done|].
  intros H'. apply bind_Ok in H' as (v & Hv%oget_Ok & H'). pose proof (lookup_lt_Some _ _ _ Hv).
  rewrite wrap_small by lia. split; [lia|]. by rewrite Hv.
Qed.

Section function.
Context (vs : value_state) (ffv : Z) (bbs : list ir_bb) (edges : list edge).
Notation n := (Z.of_nat (vs_next vs) - ffv).
Notation slots iv := (value_regframe_slots (iu_types (vs_types vs)) (iv_type iv)).

(** What register allocation relies on in a function: [body_ok] for the
    liveness analysis, blocks with their edges, temporaries of one or two
    slots, moves between temporaries of one size. *)
Record func_ok : Prop := {
  fo_body : body_ok vs ffv bbs = true;
  fo_length : Z.of_nat (vs_next vs) <= Z.of_nat (length (vs_values vs)) <= 2 ^ 31;
  fo_cfg : cfg_ok bbs edges;
  fo_wf : ∀ b, b ∈ bbs → block_wf b;
  fo_values : values_ok n ffv vs;
  fo_moves : ∀ b v d iv, b ∈ bbs → IR_IC_MOVE v d ∈ ib_instrs b →
    value_get vs (vt_value v) = Ok iv → is_temporary iv → -1 <= vt_value (ii_ret d) →
    vt_value (ii_ret d) ≠ -1 ∧
    ∃ iw, value_get vs (vt_value (ii_ret d)) = Ok iw ∧ is_temporary iw ∧ slots iw = slots iv;
}.
Context (Hok : func_ok).

Lemma func_range : 0 <= ffv ∧ 0 <= n ∧ ffv + n <= 2 ^ 31.
Proof. destruct Hok as [Hb Hl _ _ _ _]. apply body_ok_inv in Hb as [? _]. lia. Qed.

(** The operands and the results of an instruction of the function. *)
Lemma func_instr b i :
  b ∈ bbs → i ∈ ib_instrs b →
  ∃ l r, gen_values i = Ok l ∧ ret_values (instr_ret i) = Ok r ∧
    (∀ x, x ∈ l → ∃ iv, index_ok (vt_value x) ∧ value_get vs (vt_value x) = Ok iv ∧
       value_item vs (vt_value x) = Ok iv ∧ (is_temporary iv → temp n (vt_value x - ffv))) ∧
    ∀ x, x ∈ r → temp n (vt_value x - ffv).
Proof.
  intros Hb Hi. pose proof (fo_body Hok) as Hbody. apply body_ok_inv in Hbody as (_ & _ & Hin).
  specialize (Hin b i Hb Hi). unfold live_instr_ok in Hin.
  destruct (gen_values i) as [l|]; [|done]. destruct (ret_values (instr_ret i)) as [r|]; [|done].
  destruct (liveness_set_succ bbs i); [|done].
  apply andb_true_iff in Hin as [[Hl Hr]%andb_true_iff _]. exists l, r. split_and!; [done|done| |].
  - intros x Hx. apply (forallb_elem _ _ _ Hl) in Hx. unfold use_ok in Hx.
    destruct (value_item vs (vt_value x)) as [iv|] eqn:Ei; [|done]. exists iv.
    destruct (value_get_item _ _ _ (proj2 (fo_length Hok)) Ei) as [H1 H2]. do 3 (split; [done|]).
    intros Ht. unfold is_temporary in Ht. rewrite bool_decide_eq_true_2 in Hx by done. simpl in Hx.
    unfold value_ok in Hx. apply andb_true_iff in Hx as [?%Z.leb_le ?%Z.ltb_lt]. unfold temp. lia.
  - intros x Hx. apply (forallb_elem _ _ _ Hr) in Hx. unfold value_ok in Hx.
    apply andb_true_iff in Hx as [?%Z.leb_le ?%Z.ltb_lt]. unfold temp. lia.
Qed.

Lemma func_merge_ok : merge_ok n ffv bbs vs.
Proof.
  split.
  - intros b i Hb Hi. destruct (func_instr b i Hb Hi) as (l & r & Hg & _). by eapply gen_values_replaceable.
  - intros v Hv. destruct (fo_values Hok (v - ffv) Hv) as (iv & Hiv & _). rewrite Z.sub_simpl_r in Hiv. eauto.
  - intros b v d iv Hb Hi Hiv Ht Hr. destruct (fo_moves Hok b v d iv Hb Hi Hiv Ht Hr) as (Hne & iw & H1 & H2 & H3).
    destruct (func_instr b _ Hb Hi) as (l & r & Hg & Hrv & Hops & Hrets). cbn in Hg, Hrv.
    injection Hg as <-. split; [|split; [|by exists iw]].
    + destruct (Hops v) as (iv' & _ & E & _ & H); [by apply elem_of_cons; left|].
      rewrite Hiv in E. injection E as <-. by apply H.
    + apply Hrets. unfold ret_values in Hrv. rewrite (proj2 (Z.ltb_ge _ _)) in Hrv by lia.
      rewrite (proj2 (Z.eqb_neq _ _)) in Hrv by done. injection Hrv as <-. by apply elem_of_cons; left.
  - intros b v d Hb Hi. destruct (func_instr b _ Hb Hi) as (l & r & Hg & _ & Hops & _). cbn in Hg.
    injection Hg as <-. destruct (Hops v) as (iv & H1 & H2 & _); [by apply elem_of_cons; left|]. eauto.
Qed.

Context (nodes : list live_node) (live : live_sets) (Hlive : live_result vs ffv bbs nodes live).

Lemma node_instr k nd :
  nodes !! k = Some nd → ∃ b, b ∈ bbs ∧ ln_instr nd ∈ ib_instrs b.
Proof.
  intros Hk. assert (ln_instr nd ∈ flat_map ib_instrs bbs) as H.
  { rewrite <- (lr_instrs _ _ _ _ _ Hlive). apply list_elem_of_fmap. exists nd. split; [done|].
    by eapply list_elem_of_lookup_2. }
  apply list_elem_of_In, in_flat_map in H as (b & Hb & Hi). exists b. by rewrite !list_elem_of_In.
Qed.

(** Only temporaries are live. *)
Lemma node_uses_temp k nd v : nodes !! k = Some nd → 0 <= v → node_uses nd v = true → temp n v.
Proof.
  intros Hk Hv Hu. destruct (node_instr k nd Hk) as (b & Hb & Hi).
  destruct (proj1 (node_uses_spec _ _ _ _ _ _ _ _ Hlive Hk Hv) Hu) as (l & x & Hl & Hx & Ht).
  destruct (func_instr b _ Hb Hi) as (l' & r & Hg & _ & Hops & _). rewrite Hl in Hg. injection Hg as <-.
  destruct (Hops x Hx) as (iv & _ & _ & Hiv & H). unfold is_temp in Ht. rewrite Hiv in Ht.
  apply andb_true_iff in Ht as [Ht%bool_decide_eq_true <-%Z.eqb_eq]. by apply H.
Qed.

Lemma live_at_temp k v : 0 <= v → live_at nodes (bb_firsts bbs 0) ffv k v → temp n v.
Proof. intros Hv H. induction H; [by eapply node_uses_temp|auto]. Qed.

(** The temporaries [x], that the instruction [k] writes, and [y], live after
    it, must not share a register. *)
Definition conflict (x y : Z) : Prop :=
  ∃ k nd rets ret j, nodes !! k = Some nd ∧ ret_values (instr_ret (ln_instr nd)) = Ok rets ∧ ret ∈ rets ∧
    vt_value ret - ffv = x ∧ j ∈ node_succs (bb_firsts bbs 0) k nd ∧
    live_at nodes (bb_firsts bbs 0) ffv j y ∧ 0 <= y ∧ y ≠ x ∧ y ≠ move_source ffv (ln_instr nd).

Notation outs := (zip (map ln_instr nodes) (map fst live)).

Lemma outs_elem p :
  p ∈ outs → ∃ k nd sets, nodes !! k = Some nd ∧ live !! k = Some sets ∧ p = (ln_instr nd, sets.1).
Proof.
  destruct p as [i out]. intros [k Hk]%list_elem_of_lookup. apply lookup_zip_Some in Hk as [H1 H2].
  rewrite list_lookup_fmap in H1. rewrite list_lookup_fmap in H2. destruct (nodes !! k) as [nd|] eqn:E1; [|done].
  destruct (live !! k) as [sets|] eqn:E2; [|done]. injection H1 as <-. injection H2 as <-.
  by exists k, nd, sets.
Qed.

Lemma out_live k nd sets y :
  nodes !! k = Some nd → live !! k = Some sets →
  y ∈ bs_elems sets.1 ↔ 0 <= y ∧
    ∃ j, j ∈ node_succs (bb_firsts bbs 0) k nd ∧ live_at nodes (bb_firsts bbs 0) ffv j y.
Proof.
  intros Hk Hs. pose proof (lr_sets _ _ _ _ _ Hlive k sets Hs) as [Hlen _].
  assert (out_b live k y = bs_in sets.1 y) as E by (unfold out_b; by rewrite Hs).
  unfold bs_elems. rewrite list_elem_of_filter, elem_of_seqZ. unfold bs_bits. rewrite Hlen, <- E. split.
  - intros [H1 H2]. split; [lia|]. apply (lr_live _ _ _ _ _ Hlive k nd y Hk); [|done]. unfold bit_range. lia.
  - intros (H0 & j & Hj & Hl). pose proof (live_at_temp j y H0 Hl) as Ht. unfold temp in Ht.
    pose proof (setwords_of_le vs ffv ltac:(pose proof func_range; lia)).
    split; [|lia]. apply (lr_live _ _ _ _ _ Hlive k nd y Hk); [|eauto]. unfold bit_range. lia.
Qed.

Lemma outs_ok_all p : p ∈ outs → outs_ok n ffv p.
Proof.
  intros (k & nd & sets & Hk & Hs & ->)%outs_elem. destruct (node_instr k nd Hk) as (b & Hb & Hi).
  split; cbn [fst snd].
  - destruct (func_instr b _ Hb Hi) as (l & r & _ & Hr & _ & H). exists r. by split.
  - intros y (Hy & j & _ & Hl)%(out_live k nd sets y Hk Hs). by eapply live_at_temp.
Qed.

Lemma conflict_interferes x y : conflict x y → interferes ffv outs x y.
Proof.
  intros (k & nd & rets & ret & j & Hk & Hr & Hret & Hx & Hj & Hl & H0 & Hne & Hns).
  destruct (lookup_lt_is_Some_2 live k) as [sets Hs].
  { rewrite (lr_length _ _ _ _ _ Hlive). by eapply lookup_lt_Some. }
  exists (ln_instr nd, sets.1). split.
  - apply list_elem_of_lookup. exists k. apply lookup_zip_Some. cbn [fst snd].
    by rewrite !list_lookup_fmap, Hk, Hs.
  - exists rets, ret. cbn [fst snd]. split_and!; [done|done|]. exists y. rewrite Hx.
    split_and!; [by apply (out_live k nd sets y Hk Hs); eauto|done|done|].
    unfold same_pair. by rewrite !Z.eqb_refl.
Qed.
End function.

(** ** The result of the analysis *)

Section result.
Context (qsort : list value_info → list value_info) (Hq : ∀ l, qsort l ≡ₚ l).
Context (vs : value_state) (ffv : Z) (bbs : list ir_bb) (edges : list edge) (F : Z).
Notation n := (Z.of_nat (vs_next vs) - ffv).
Notation outs nodes live := (zip (map ln_instr nodes) (map fst live)).

(** What [coalesce] makes of a function: [s] is the state when the values have
    been merged as [f] says, [bbs'] its blocks without the empty ones and
    [vs'] its values in registers. *)
Record analysed (nodes : list live_node) (live : live_sets) (f : Z → Z) (s : co_state) (r : Z → Z)
    (bbs' : list ir_bb) (vs' : value_state) (size : Z) : Prop := {
  an_live : live_result vs ffv bbs nodes live;
  an_inv : co_inv n ffv bbs vs (interferes ffv (outs nodes live)) f s;
  an_cfg : cfg_ok (co_bbs s) edges;
  an_shortcut : shortcut r (co_bbs s) bbs';
  an_alloc : allocated n ffv F size (co_vs s) vs' (λ a b, adj (co_mtx s) a b = true);
}.

Lemma ci_values f s R :
  0 <= ffv → ffv + n <= 2 ^ 31 → values_ok n ffv vs → co_inv n ffv bbs vs R f s →
  values_ok n ffv (co_vs s).
Proof.
  intros Hffv Hidx Hv Hinv i Hi. destruct (Hv i Hi) as (iv & Hiv & Hs). rewrite (ci_types _ _ _ _ _ _ _ Hinv).
  destruct (decide (f (i + ffv) = i + ffv)) as [E|E].
  - exists iv. rewrite (ci_same _ _ _ _ _ _ _ Hinv) by (done || unfold temp, index_ok in *; lia). by split.
  - destruct (ci_dead _ _ _ _ _ _ _ Hinv _ E) as (iv' & iw & _ & _ & H & _).
    eexists. split; [exact H|]. done.
Qed.

Lemma coalesce_start R mtx iv_edges :
  graph_ok n (mtx, iv_edges) R → co_inv n ffv bbs vs R id (mk_co bbs mtx iv_edges vs).
Proof.
  intros [(Hm & Hd & HR) Hc]. cbn [fst snd] in *. split; cbn [co_bbs co_mtx co_edges co_vs]; try done.
  - assert (∀ l : list ir_bb, Forall2 (block_coalesced (tmp0 vs) id) l l) as H; [|apply H].
    induction l; constructor; [|done]. split; [done|apply coalesced_id].
  - intros a b Ha Hb HR'. unfold id. rewrite !Z.add_simpl_r. by apply HR.
Qed.

Lemma liveness_analysis_spec :
  func_ok vs ffv bbs edges → 0 <= F → F + 12 * n + 400 < 2 ^ 31 →
  ∃ nodes live f s r bbs' edges' vs' size,
    liveness_analysis qsort vs ffv bbs edges F = Ok (bbs', edges', vs', size) ∧
    cfg_ok bbs' edges' ∧ liveness_sets vs ffv bbs = Ok (nodes, live) ∧
    analysed nodes live f s r bbs' vs' size.
Proof.
  intros Hok HF Hsmall. destruct (func_range _ _ _ _ Hok) as (Hffv & Hn & Hidx).
  destruct (liveness_sets_spec vs ffv bbs (fo_body _ _ _ _ Hok)) as (nodes & live & Hls & Hlive).
  unfold liveness_analysis. rewrite Hls. rok. unfold coalesce.
  destruct (interference_spec n ffv (outs nodes live) Hn) as ([mtx iv_edges] & -> & Hg);
    [by eapply outs_ok_all|]. rok.
  destruct (coalesce_merge_spec n ffv bbs vs (interferes ffv (outs nodes live))
    (func_merge_ok _ _ _ _ Hok) Hn Hffv ltac:(lia) id (mk_co bbs mtx iv_edges vs)) as (s & f & -> & Hinv);
    [by apply coalesce_start|]. rok.
  assert (cfg_ok (co_bbs s) edges) as Hcfg.
  { eapply coalesced_cfg; [exact (ci_keeps_neg _ _ _ _ _ Hffv _ _ Hinv)|apply (fo_wf _ _ _ _ Hok)|exact (ci_blocks _ _ _ _ _ _ _ Hinv)|].
    apply (fo_cfg _ _ _ _ Hok). }
  destruct (remove_empty_bb_spec (co_bbs s) edges Hcfg) as (bbs' & edges' & r & -> & Hcfg' & Hsc). rok.
  destruct (reg_alloc_spec qsort (co_vs s) (co_mtx s) (co_edges s) n ffv F _ Hq Hn Hffv ltac:(lia) HF Hsmall
    (ci_values f s _ Hffv Hidx (fo_values _ _ _ _ Hok) Hinv) (ci_graph _ _ _ _ _ _ _ Hinv))
    as (vs' & size & -> & Hal). rok.
  by exists nodes, live, f, s, r, bbs', edges', vs', size.
Qed.
End result.

(** ** The argument area *)

Lemma finalize_call_args_spec vs size base num :
  0 <= num → 0 <= base → base + num <= 2 ^ 31 →
  (∀ i, 0 <= i < num → ∃ iv, value_get vs (base + i) = Ok iv) →
  ∃ vs', finalize_call_args vs size base num = Ok (vs', size + num * 4) ∧
    vs_types vs' = vs_types vs ∧
    (∀ i iv, 0 <= i < num → value_get vs (base + i) = Ok iv →
       value_get vs' (base + i) =
         Ok (set_u32 (set_class iv IR_VC_REGFRAME) (size + num * 4 - (i + 1) * 4))) ∧
    ∀ k, index_ok k → (k < base ∨ base + num <= k) → value_get vs' k = value_get vs k.
Proof.
  intros Hnum Hbase Hmax Hv. unfold finalize_call_args. set (total := size + num * 4).
  destruct (foldR_ok (λ k v,
      vs_types v = vs_types vs ∧
      (∀ i iv, 0 <= i < num → value_get vs (base + i) = Ok iv → value_get v (base + i) =
         Ok (if i <? Z.of_nat k then set_u32 (set_class iv IR_VC_REGFRAME) (total - (i + 1) * 4) else iv)) ∧
      ∀ j, index_ok j → (j < base ∨ base + num <= j) → value_get v j = value_get vs j)
    (λ vs i, iv ← value_get vs (base + i);
       Ok (value_set vs (base + i) (set_u32 (set_class iv IR_VC_REGFRAME) (total - (i + 1) * 4))))
    (seqZ 0 num) vs) as (vs' & Hr & Ht & Hin & Hout).
  - intros k i v Hk (Ht & Hin & Hout). apply lookup_seqZ in Hk as [-> Hk]. rewrite Z.add_0_l.
    destruct (Hv (Z.of_nat k)) as (iv & Hiv); [lia|].
    pose proof (Hin _ _ (conj (Nat2Z.is_nonneg k) Hk) Hiv) as E. rewrite Z.ltb_irrefl in E. rewrite E. rok.
    eexists. split; [reflexivity|]. split_and!; [done| |].
    + intros j jv Hj Hjv. destruct (Z.eqb_spec j (Z.of_nat k)) as [->|Hne].
      * rewrite (value_get_set_same _ _ _ _ E), (proj2 (Z.ltb_lt _ _)) by lia. congruence.
      * rewrite value_get_set_other by lia. rewrite (Hin j jv Hj Hjv). do 2 f_equal.
        destruct (Z.ltb_spec j (Z.of_nat k)), (Z.ltb_spec j (Z.of_nat (S k))); lia || done.
    + intros j Hj Hjo. rewrite value_get_set_other by (unfold index_ok in Hj; lia). by apply Hout.
  - split_and!; [done| |done]. intros i iv Hi ->. by rewrite (proj2 (Z.ltb_ge _ _)) by lia.
  - rewrite Hr. rok. exists vs'. split_and!; [done|done| |done]. intros i iv Hi Hiv.
    rewrite (Hin i iv Hi Hiv), length_seqZ, (proj2 (Z.ltb_lt _ _)) by lia. done.
Qed.

(** ** The places of the values *)

Lemma iv_class_reg iv r : iv_class (set_u32 (set_class iv IR_VC_REGFRAME) r) = IR_VC_REGFRAME.
Proof. done. Qed.

Section places.
Context (qsort : list value_info → list value_info) (Hq : ∀ l, qsort l ≡ₚ l).
Context (vs : value_state) (ffv : Z) (bbs : list ir_bb) (edges : list edge) (F base num : Z).
Notation n := (Z.of_nat (vs_next vs) - ffv).
Notation slots iv := (value_regframe_slots (iu_types (vs_types vs)) (iv_type iv)).

(** The values [prepare_calls] made for the arguments of calls: those from
    [base] on, one slot each, are the ones that are precolored. *)
Record args_ok : Prop := {
  ag_range : ffv <= base ∧ 0 <= num ∧ base + num <= Z.of_nat (vs_next vs);
  ag_pre : ∀ v iv, value_get vs v = Ok iv → temp n (v - ffv) → is_temporary iv →
    iv_precolored iv ≠ -1 ↔ base <= v < base + num;
  ag_slots : ∀ v, base <= v < base + num →
    ∃ iv, value_get vs v = Ok iv ∧ is_temporary iv ∧ slots iv = Ok 1;
}.

(** Where the temporaries are in the end: [f] names the value that a temporary
    was merged into. *)
Record placed_ok (f : Z → Z) (conflict : Z → Z → Prop) (vs' : value_state) (size : Z) : Prop := {
  pl_types : vs_types vs' = vs_types vs;
  pl_reg : ∀ x iv, value_get vs x = Ok iv → is_temporary iv → temp n (x - ffv) →
    ∃ r s, slots iv = Ok s ∧ (s = 1 ∨ s = 2) ∧ has_reg vs' (f x) r (4 * s) ∧ F <= r ∧ r + 4 * s <= size;
  pl_apart : ∀ x y rx ry wx wy, tmp0 vs x → tmp0 vs y → temp n (x - ffv) → temp n (y - ffv) →
    has_reg vs' (f x) rx wx → has_reg vs' (f y) ry wy →
    (conflict (x - ffv) (y - ffv) → disjoint rx wx ry wy) ∧
    (disjoint rx wx ry wy ∨ rx = ry ∧ wx = wy);
  pl_other : ∀ k iv, index_ok k → value_get vs k = Ok iv → ¬ is_temporary iv →
    f k = k ∧ value_get vs' k = Ok iv;
}.

Context (Hok : func_ok vs ffv bbs edges) (Hargs : args_ok).
Context (HF : 0 <= F) (Hsmall : F + 16 * n + 400 < 2 ^ 31).
Context (R : Z → Z → Prop) (f : Z → Z) (s : co_state) (Hinv : co_inv n ffv bbs vs R f s).
Context (vs1 : value_state) (size : Z).
Context (Hal : allocated n ffv F size (co_vs s) vs1 (λ a b, adj (co_mtx s) a b = true)).
Context (vs2 : value_state).

Notation total := (size + num * 4).
Context (Htypes : vs_types vs2 = vs_types vs1).
Context (Hin : ∀ i iv, 0 <= i < num → value_get vs1 (base + i) = Ok iv →
  value_get vs2 (base + i) = Ok (set_u32 (set_class iv IR_VC_REGFRAME) (total - (i + 1) * 4))).
Context (Hout : ∀ k, index_ok k → (k < base ∨ base + num <= k) → value_get vs2 k = value_get vs1 k).

(** The place of a temporary: an argument slot, or a register of its own. *)
Definition at_place (x r w : Z) : Prop :=
  (base <= f x < base + num ∧ r = total - (f x - base + 1) * 4 ∧ w = 4) ∨
  (¬ base <= f x < base + num ∧ ∃ s', w = 4 * s' ∧ vertex ffv (co_vs s) (f x - ffv) s' ∧
     has_reg vs1 (f x) r w ∧ F <= r ∧ r + w <= size).

Lemma temp_place x iv :
  value_get vs x = Ok iv → is_temporary iv → temp n (x - ffv) →
  ∃ r s', slots iv = Ok s' ∧ (s' = 1 ∨ s' = 2) ∧ has_reg vs2 (f x) r (4 * s') ∧ at_place x r (4 * s').
Proof.
  intros Hiv Ht Hx. destruct (func_range _ _ _ _ Hok) as (Hffv & Hn & Hidx).
  destruct Hargs as [Hrange Hpre Hslots]. pose proof (al_frame _ _ _ _ _ _ _ Hal) as Hsize.
  assert (index_ok x) as Hxi by (unfold temp, index_ok in *; lia).
  destruct (ci_rep n ffv bbs vs R Hffv ltac:(lia) f s x iv Hinv Hxi Hiv) as (Hfi & iw & Hiw & _ & Htw & Hsw).
  pose proof (ci_temp _ _ _ _ _ _ _ Hinv x Hx) as Hfx. apply Htw in Ht as Ht'.
  pose proof (ci_idem _ _ _ _ _ _ _ Hinv x) as Hff.
  assert (value_get (co_vs s) (f x) = Ok iw) as Hco by (by rewrite (ci_same _ _ _ _ _ _ _ Hinv)).
  assert (vs_types vs1 = vs_types vs) as Hty by (by rewrite (al_types _ _ _ _ _ _ _ Hal), (ci_types _ _ _ _ _ _ _ Hinv)).
  destruct (decide (base <= f x < base + num)) as [Hb|Hb].
  - destruct (Hslots _ Hb) as (iw' & E & _ & Es). rewrite Hiw in E. injection E as <-.
    assert (value_get vs1 (f x) = Ok iw) as H1.
    { rewrite <- Hco. apply (al_other _ _ _ _ _ _ _ Hal); [done|]. intros i s0 Hi (iz & E1 & E2 & _) E.
      rewrite E, Hco in E1. injection E1 as <-. apply (Hpre (f x) iw Hiw Hfx Ht') in Hb.
      unfold is_vertex in E2. apply andb_true_iff in E2 as [_ E2%Z.eqb_eq]. done. }
    pose proof (Hin (f x - base) iw ltac:(lia)) as H2. replace (base + (f x - base)) with (f x) in H2 by lia.
    specialize (H2 H1). exists (total - (f x - base + 1) * 4), 1.
    rewrite <- Hsw. split; [done|]. split; [by left|]. split; [|by left; lia].
    eexists. split; [exact H2|]. split; [done|]. split; [apply iv_reg_set_u32; lia|].
    rewrite Htypes, Hty. cbn [set_u32 set_class iv_type]. unfold value_regframe_size. by rewrite Es.
  - assert (is_vertex iw = true) as Hvx.
    { unfold is_vertex. rewrite bool_decide_eq_true_2 by exact Ht'.
      destruct (Z.eqb_spec (iv_precolored iw) (-1)) as [|Hp]; [done|]. by apply (Hpre (f x) iw) in Hp. }
    destruct (fo_values _ _ _ _ Hok (f x - ffv) Hfx) as (iw' & E & H12). rewrite Z.sub_simpl_r, Hiw in E.
    injection E as <-. destruct (H12 Hvx) as (s0 & Es & H12').
    assert (vertex ffv (co_vs s) (f x - ffv) s0) as Hv.
    { exists iw. rewrite Z.sub_simpl_r, (ci_types _ _ _ _ _ _ _ Hinv). by split_and!. }
    destruct (al_reg _ _ _ _ _ _ _ Hal _ s0 Hfx Hv) as (r & Hr & H1 & H2 & _). rewrite Z.sub_simpl_r in Hr.
    exists r, s0. rewrite <- Hsw. split_and!; [done|done| |].
    + destruct Hr as (iz & Hz & Hz'). exists iz. rewrite Hout, Htypes by (done || lia). by split.
    + right. split; [done|]. exists s0. by split_and!.
Qed.

Lemma place_range x r w : at_place x r w → F <= r ∧ r + w <= total ∧ (w = 4 → 0 <= w).
Proof.
  pose proof (al_frame _ _ _ _ _ _ _ Hal). pose proof (ag_range Hargs).
  intros [(? & -> & ->)|(_ & s' & -> & _ & _ & ? & ?)]; lia.
Qed.

Lemma places_apart x y rx ry wx wy :
  at_place x rx wx → at_place y ry wy → temp n (x - ffv) → temp n (y - ffv) →
  (R (x - ffv) (y - ffv) → disjoint rx wx ry wy) ∧ (disjoint rx wx ry wy ∨ rx = ry ∧ wx = wy).
Proof.
  intros Hx Hy Tx Ty. pose proof (al_frame _ _ _ _ _ _ _ Hal) as Hfr. pose proof (ag_range Hargs) as Hr.
  assert (R (x - ffv) (y - ffv) → adj (co_mtx s) (f x - ffv) (f y - ffv) = true) as HR.
  { intros H. apply (ci_rel _ _ _ _ _ _ _ Hinv) in H; [|done..]. by rewrite !Z.sub_simpl_r in H. }
  pose proof (ci_temp _ _ _ _ _ _ _ Hinv x Tx) as Tfx. pose proof (ci_temp _ _ _ _ _ _ _ Hinv y Ty) as Tfy.
  unfold disjoint. destruct Hx as [(Bx & -> & ->)|(Bx & sx & -> & Vx & Hrx & Ex1 & Ex2)],
    Hy as [(By & -> & ->)|(By & sy & -> & Vy & Hry & Ey1 & Ey2)]; try lia.
  - split; [|lia]. intros HRxy%HR. destruct (decide (f x = f y)) as [E|E]; [|lia].
    rewrite E in HRxy. by rewrite (proj1 (proj2 (proj1 (ci_graph _ _ _ _ _ _ _ Hinv)))) in HRxy.
  - destruct (al_apart _ _ _ _ _ _ _ Hal (f x - ffv) (f y - ffv) sx sy rx ry Tfx Tfy Vx Vy) as [A1 A2];
      [by rewrite Z.sub_simpl_r..|]. unfold disjoint in *. split; [auto|]. lia.
Qed.

Lemma placed_spec conflict :
  (∀ x y, conflict x y → R x y) → placed_ok f conflict vs2 total.
Proof.
  intros HC. destruct (func_range _ _ _ _ Hok) as (Hffv & Hn & Hidx).
  split.
  - by rewrite Htypes, (al_types _ _ _ _ _ _ _ Hal), (ci_types _ _ _ _ _ _ _ Hinv).
  - intros x iv Hiv Ht Hx. destruct (temp_place x iv Hiv Ht Hx) as (r & s' & H1 & H2 & H3 & H4).
    exists r, s'. pose proof (place_range _ _ _ H4). split_and!; (done || lia).
  - intros x y rx ry wx wy (ix & Hix & Tix) (iy & Hiy & Tiy) Tx Ty Hrx Hry.
    destruct (temp_place x ix Hix Tix Tx) as (r & s' & _ & _ & H3 & H4).
    destruct (temp_place y iy Hiy Tiy Ty) as (r' & s'' & _ & _ & H3' & H4').
    destruct (has_reg_fun _ _ _ _ _ _ Hrx H3) as [-> ->], (has_reg_fun _ _ _ _ _ _ Hry H3') as [-> ->].
    destruct (places_apart x y r r' (4 * s') (4 * s'') H4 H4' Tx Ty). auto.
  - intros k iv Hk Hiv Ht. pose proof (ag_slots Hargs) as Hsl.
    assert (f k = k) as E.
    { destruct (decide (f k = k)) as [|E]; [done|]. destruct (ci_dead _ _ _ _ _ _ _ Hinv k E)
        as (iv' & _ & E1 & _ & _ & Hd & _). rewrite Hiv in E1. by injection E1 as <-. }
    split; [done|]. assert (¬ base <= k < base + num) as Hnb.
    { intros Hb. destruct (Hsl k Hb) as (iv' & E1 & Hd & _). rewrite Hiv in E1. by injection E1 as <-. }
    rewrite Hout by (done || lia). rewrite (al_other _ _ _ _ _ _ _ Hal k Hk);
      [by rewrite (ci_same _ _ _ _ _ _ _ Hinv)|]. intros i s0 _ (iz & E1 & E2 & _) <-. rewrite (ci_same _ _ _ _ _ _ _ Hinv) in E1 by done.
    rewrite Hiv in E1. injection E1 as <-. unfold is_vertex in E2.
    apply andb_true_iff in E2 as [E2%bool_decide_eq_true _]. done.
Qed.
End places.

(** ** The whole *)

(** What happens to the program: [bbs1] is the program with its temporaries
    merged as [f] says, [bbs'] the same without empty blocks. *)
Record framed (vs : value_state) (ffv : Z) (bbs : list ir_bb) (F : Z) (nodes : list live_node)
    (live : live_sets) (f r : Z → Z) (bbs1 bbs' : list ir_bb) (edges edges' : list edge)
    (vs' : value_state) (size : Z) : Prop := {
  fr_live : live_result vs ffv bbs nodes live;
  fr_neg : keeps_neg f;
  fr_blocks : Forall2 (block_coalesced (tmp0 vs) f) bbs bbs1;
  fr_cfg : cfg_ok bbs1 edges;
  fr_shortcut : shortcut r bbs1 bbs';
  fr_cfg' : cfg_ok bbs' edges';
  fr_placed : placed_ok vs ffv F f (conflict ffv bbs nodes) vs' size;
}.

Lemma frame_spec qsort vs ffv bbs edges F base num :
  (∀ l, qsort l ≡ₚ l) → func_ok vs ffv bbs edges → args_ok vs ffv base num →
  0 <= F → F + 16 * (Z.of_nat (vs_next vs) - ffv) + 400 < 2 ^ 31 →
  ∃ nodes live f r bbs1 bbs' edges' vs1 size vs2,
    liveness_sets vs ffv bbs = Ok (nodes, live) ∧
    liveness_analysis qsort vs ffv bbs edges F = Ok (bbs', edges', vs1, size) ∧
    finalize_call_args vs1 size base num = Ok (vs2, size + num * 4) ∧
    framed vs ffv bbs F nodes live f r bbs1 bbs' edges edges' vs2 (size + num * 4).
Proof.
  intros Hq Hok Hargs HF Hsmall. destruct (func_range _ _ _ _ Hok) as (Hffv & Hn & Hidx).
  destruct (liveness_analysis_spec qsort Hq vs ffv bbs edges F Hok HF ltac:(lia))
    as (nodes & live & f & s & r & bbs' & edges' & vs1 & size & Hr & Hcfg' & Hls & [Hlive Hinv Hcfg Hsc Hal]).
  destruct (finalize_call_args_spec vs1 size base num) as (vs2 & Hfin & Ht & Hin & Hout);
    [apply Hargs|pose proof (ag_range _ _ _ _ Hargs); lia|pose proof (ag_range _ _ _ _ Hargs); lia| |].
  { intros i Hi. destruct (ag_slots _ _ _ _ Hargs (base + i)) as (iv & Hiv & Tiv & _); [lia|].
    pose proof (ag_range _ _ _ _ Hargs) as Hrange.
    assert (temp (Z.of_nat (vs_next vs) - ffv) (base + i - ffv)) as Ht by (unfold temp; lia).
    exists iv. rewrite (al_other _ _ _ _ _ _ _ Hal); [|unfold index_ok; lia|].
    - rewrite (ci_same _ _ _ _ _ _ _ Hinv); [done|unfold index_ok; lia|].
      destruct (decide (f (base + i) = base + i)) as [|E]; [done|].
      destruct (ci_dead _ _ _ _ _ _ _ Hinv _ E) as (iv' & _ & E1 & _ & _ & _ & _ & Hp & _).
      rewrite Hiv in E1. injection E1 as <-.
      by destruct (proj2 (ag_pre _ _ _ _ Hargs (base + i) iv Hiv Ht Tiv) ltac:(lia)).
    - intros j s0 _ (iz & E1 & E2 & _) E. rewrite E in E1.
      destruct (decide (f (base + i) = base + i)) as [Ef|Ef].
      + rewrite (ci_same _ _ _ _ _ _ _ Hinv) in E1 by (done || unfold index_ok; lia).
        rewrite Hiv in E1. injection E1 as <-.
        apply (proj2 (ag_pre _ _ _ _ Hargs (base + i) iv Hiv Ht Tiv)); [lia|].
        unfold is_vertex in E2. by apply andb_true_iff in E2 as [_ E2%Z.eqb_eq].
      + destruct (ci_dead _ _ _ _ _ _ _ Hinv _ Ef) as (iv' & _ & _ & _ & E3 & _).
        rewrite E1 in E3. injection E3 as ->. done. }
  exists nodes, live, f, r, (co_bbs s), bbs', edges', vs1, size, vs2. split_and!; [done|done|done|]. split.
  - done.
  - exact (ci_keeps_neg _ _ _ _ _ Hffv _ _ Hinv).
  - exact (ci_blocks _ _ _ _ _ _ _ Hinv).
  - done.
  - done.
  - done.
  - eapply placed_spec; try done. intros x y H. by eapply conflict_interferes.
Qed.

(** C16: every temporary has a place, and what is needed at the same time is
    apart. For a function whose temporaries have one or two slots,
    [liveness_analysis] and [finalize_call_args] succeed; the blocks they
    leave are those of the function with the temporaries merged, less moves
    within one register and blocks that only branch; each temporary has a
    register within the frame, of its size; and when an instruction writes a
    temporary while another is live, their registers do not overlap, merged or
    not, unless the instruction is a move from the one to the other. *)
Theorem liveness_analysis_correct qsort vs ffv bbs edges F base num :
  (∀ l, qsort l ≡ₚ l) → func_ok vs ffv bbs edges → args_ok vs ffv base num →
  0 <= F → F + 16 * (Z.of_nat (vs_next vs) - ffv) + 400 < 2 ^ 31 →
  ∃ nodes live f r bbs1 bbs' edges' vs1 size vs2,
    liveness_sets vs ffv bbs = Ok (nodes, live) ∧
    liveness_analysis qsort vs ffv bbs edges F = Ok (bbs', edges', vs1, size) ∧
    finalize_call_args vs1 size base num = Ok (vs2, size + num * 4) ∧
    Forall2 (block_coalesced (tmp0 vs) f) bbs bbs1 ∧ shortcut r bbs1 bbs' ∧ cfg_ok bbs' edges' ∧
    placed_ok vs ffv F f (conflict ffv bbs nodes) vs2 (size + num * 4).
Proof.
  intros Hq Hok Hargs HF Hsmall.
  destruct (frame_spec qsort vs ffv bbs edges F base num Hq Hok Hargs HF Hsmall)
    as (nodes & live & f & r & bbs1 & bbs' & edges' & vs1 & size & vs2 & H1 & H2 & H3 & Hf).
  exists nodes, live, f, r, bbs1, bbs', edges', vs1, size, vs2.
  split_and!; [done|done|done|apply Hf..].
Qed.

(** A loop and a call: value 5 is the slot of the argument of the call. *)
Definition example_types32 : type_state := mk_types [T_INT32] false None.
Definition example_tmp (p : Z) : option ir_value :=
  Some (mk_value IR_VC_TEMPORARY 0 (U_word 0) D_none p).
Definition example_fn_vs : value_state :=
  mk_vs (replicate 3 (Some blank_value) ++ [example_tmp (-1); example_tmp (-1); example_tmp 0]) 6 example_types32.
Definition example_fn : list ir_bb :=
  [mk_bb 1 [IR_IC_MOVE (example_vt 0) (example_rv 3); IR_IC_BR (example_vt (-1)) 2 0];
   mk_bb 2 [IR_IC_BINOP 0 (example_vt 3) (example_vt 1) (example_rv 4);
            IR_IC_BINOP 0 (example_vt 3) (example_vt 4) (example_rv 3);
            IR_IC_CMP_BRANCH 36 (example_vt 4) (example_vt 2) 2 4];
   mk_bb 4 [IR_IC_BR (example_vt (-1)) 3 0];
   mk_bb 3 [IR_IC_MOVE (example_vt 3) (example_rv 5);
            IR_IC_CALL (mk_call (example_vt 0) 0 0 0 [example_vt 5] [0]) no_ret;
            IR_IC_RET (example_vt (-1))]].
Definition example_fn_edges : list edge := [(4, 3); (2, 4); (2, 2); (1, 2)].

Lemma example_fn_cfg : cfg_ok example_fn example_fn_edges.
Proof.
  assert (∀ id bb, bb_find example_fn id = Some bb →
    ib_id bb = id ∧ (bb = mk_bb 1 (ib_instrs (nth 0 example_fn bb)) ∨ bb = mk_bb 2 (ib_instrs (nth 1 example_fn bb)) ∨
    bb = mk_bb 4 (ib_instrs (nth 2 example_fn bb)) ∨ bb = mk_bb 3 (ib_instrs (nth 3 example_fn bb)))) as Hfind.
  { intros id bb [<- H]%bb_find_Some. split; [done|]. unfold example_fn in H. set_solver. }
  split.
  - apply (bool_decide_eq_true_1 (NoDup [1; 2; 4; 3])). reflexivity.
  - intros id bb [<- H]%Hfind. destruct H as [->|[->|[->| ->]]]; (eexists; split; [reflexivity|]);
      intros t; cbn; unfold example_fn_edges; set_solver.
  - intros a b H. assert ((a = 4 ∧ b = 3) ∨ (a = 2 ∧ b = 4) ∨ (a = 2 ∧ b = 2) ∨ (a = 1 ∧ b = 2)) as H'
      by (unfold example_fn_edges in H; set_solver).
    destruct H' as [[-> ->]|[[-> ->]|[[-> ->]|[-> ->]]]]; (split; [eexists _, _; split_and!; reflexivity|by eexists]).
  - intros id bb c t e [_ H]%Hfind. destruct H as [->|[->|[->| ->]]]; cbn; intros [= <- <- <-]; done.
Qed.

Lemma example_fn_ok : func_ok example_fn_vs 3 example_fn example_fn_edges.
Proof.
  split.
  - by vm_compute.
  - simpl. lia.
  - exact example_fn_cfg.
  - intros b Hb. unfold example_fn in Hb. repeat (apply elem_of_cons in Hb as [->|Hb]); [| | | |by apply not_elem_of_nil in Hb].
    + exists [IR_IC_MOVE (example_vt 0) (example_rv 3)]. eexists. split_and!; [reflexivity|done|set_solver].
    + eexists [_; _], _. split_and!; [reflexivity|done|set_solver].
    + eexists [], _. split_and!; [reflexivity|done|set_solver].
    + eexists [_; _], _. split_and!; [reflexivity|done|set_solver].
  - intros i Hi. unfold temp in Hi. simpl in Hi. assert (i = 0 ∨ i = 1 ∨ i = 2) as [->|[->| ->]] by lia;
      (eexists; split; [reflexivity|]); intros _; exists 1; (split; [reflexivity|by left]).
  - intros b v d iv Hb Hi Hiv Ht _. unfold example_fn in Hb. repeat (apply elem_of_cons in Hb as [->|Hb]);
      [| | | |by apply not_elem_of_nil in Hb]; cbn in Hi; repeat (apply elem_of_cons in Hi as [Hi|Hi]);
      try discriminate Hi; try (by apply not_elem_of_nil in Hi); injection Hi as -> ->.
    + cbn in Hiv. injection Hiv as <-. discriminate Ht.
    + cbn in Hiv. injection Hiv as <-. split; [done|]. eexists. split_and!; reflexivity.
Qed.

Lemma example_fn_args : args_ok example_fn_vs 3 5 1.
Proof.
  split.
  - simpl. lia.
  - intros v iv Hiv Hv _. unfold temp in Hv. simpl in Hv.
    assert (v = 3 ∨ v = 4 ∨ v = 5) as [->|[->| ->]] by lia; cbn in Hiv; injection Hiv as <-; cbn; lia.
  - intros v Hv. assert (v = 5) as -> by lia. eexists. split_and!; reflexivity.
Qed.

Lemma liveness_analysis_correct_witness :
  ∃ nodes live f r bbs1 bbs' edges' vs1 size vs2,
    liveness_sets example_fn_vs 3 example_fn = Ok (nodes, live) ∧
    liveness_analysis (λ l, l) example_fn_vs 3 example_fn example_fn_edges 8 = Ok (bbs', edges', vs1, size) ∧
    finalize_call_args vs1 size 5 1 = Ok (vs2, size + 1 * 4) ∧
    shortcut r bbs1 bbs' ∧ map ib_id bbs' = [1; 2; 3] ∧ size = 16 ∧
    placed_ok example_fn_vs 3 8 f (conflict 3 example_fn nodes) vs2 (size + 1 * 4) ∧
    has_reg vs2 5 16 4 ∧ has_reg vs2 4 8 4.
Proof.
  destruct (liveness_analysis_correct (λ l, l) example_fn_vs 3 example_fn example_fn_edges 8 5 1)
    as (nodes & live & f & r & bbs1 & bbs' & edges' & vs1 & size & vs2 & H1 & H2 & H3 & _ & H5 & _ & H7);
    [done|exact example_fn_ok|exact example_fn_args|lia|simpl; lia|].
  exists nodes, live, f, r, bbs1, bbs', edges', vs1, size, vs2.
  pose proof H2 as E2. vm_compute in E2. injection E2 as Eb Ee Ev Es.
  pose proof H3 as E3. rewrite <- Ev, <- Es in E3. vm_compute in E3. injection E3 as E3.
  do 4 (split; [done|]). split; [by rewrite <- Eb|]. split; [by rewrite <- Es|]. split; [done|].
  split; rewrite <- E3; eexists; repeat split; reflexivity.
Defined.
