(* ===== verification/Machine.v ===== *)
(** A machine for the instructions of a function, over any store of values and
    any meaning of the instructions, and what it takes for two machines to
    stop with the same results. *)
From S2P Require Import Prelude Support Mem Types Values Instr Cfg Liveness RegAlloc Coalesce.
Local Open Scope Z_scope.

(** ** Simulation *)

Section simulation.
Context {A B W : Type} (step1 : A → res (A + W)) (step2 : B → res (B + W)).

Fixpoint run {A} (step : A → res (A + W)) (fuel : nat) (a : A) : option W :=
  match fuel with
  | O => None
  | S fuel =>
      match step a with
      | Ok (inl a) => run step fuel a
      | Ok (inr w) => Some w
      | Fail _ => None
      end
  end.

(** The machine stops with [w]. *)
Definition halts {A} (step : A → res (A + W)) (a : A) (w : W) : Prop := ∃ fuel, run step fuel a = Some w.

Inductive steps {A} (step : A → res (A + W)) : A → A → Prop :=
  | steps_refl a : steps step a a
  | steps_cons a a1 a2 : step a = Ok (inl a1) → steps step a1 a2 → steps step a a2.

Context (R : A → B → Prop).

Definition lockstep (a : A) (b : B) : Prop :=
  match step1 a with
  | Ok (inl a') => ∃ b', step2 b = Ok (inl b') ∧ R a' b'
  | Ok (inr w) => step2 b = Ok (inr w)
  | Fail _ => ∃ e, step2 b = Fail e
  end.

Context (Hsim : ∀ a b, R a b → ∃ a1, steps step1 a a1 ∧ lockstep a1 b).

Lemma halts_steps a a1 w : steps step1 a a1 → halts step1 a1 w → halts step1 a w.
Proof.
  induction 1 as [|a a1 a2 H _ IH]; [done|]. intros [fuel Hf]%IH. exists (S fuel). cbn. by rewrite H.
Qed.

Lemma run_steps a a1 w fuel :
  steps step1 a a1 → run step1 fuel a = Some w →
  ∃ fuel', (fuel' <= fuel)%nat ∧ run step1 fuel' a1 = Some w.
Proof.
  intros H. revert fuel. induction H as [|a a1 a2 H _ IH]; intros fuel Hf; [by exists fuel|].
  destruct fuel as [|fuel]; [done|]. cbn in Hf. rewrite H in Hf. destruct (IH fuel Hf) as (f' & ? & ?).
  exists f'. split; [lia|done].
Qed.

Lemma simulation_halts a b w : R a b → halts step1 a w ↔ halts step2 b w.
Proof.
  intros HR. split.
  - intros [fuel Hf]. revert a b HR Hf. induction fuel as [fuel IH] using lt_wf_ind. intros a b HR Hf.
    destruct (Hsim a b HR) as (a1 & Hs & Hl). destruct (run_steps a a1 w fuel Hs Hf) as (f1 & Hle & Hf1).
    destruct f1 as [|f1]; [done|]. cbn in Hf1. unfold lockstep in Hl.
    destruct (step1 a1) as [[a'|w']|]; [| |done].
    + destruct Hl as (b' & Hb & HR'). destruct (IH f1 ltac:(lia) a' b' HR' Hf1) as [f2 Hf2].
      exists (S f2). cbn. by rewrite Hb.
    + injection Hf1 as ->. exists 1%nat. cbn. by rewrite Hl.
  - intros [fuel Hf]. revert a b HR Hf. induction fuel as [|fuel IH]; intros a b HR Hf; [done|].
    destruct (Hsim a b HR) as (a1 & Hs & Hl). apply (halts_steps a a1); [done|]. unfold lockstep in Hl.
    cbn in Hf. destruct (step1 a1) as [[a'|w']|] eqn:E1.
    + destruct Hl as (b' & Hb & HR'). rewrite Hb in Hf. destruct (IH a' b' HR' Hf) as [f2 Hf2].
      exists (S f2). cbn. by rewrite E1.
    + rewrite Hl in Hf. injection Hf as ->. exists 1%nat. cbn. by rewrite E1.
    + destruct Hl as [e2 He]. by rewrite He in Hf.
Qed.
End simulation.

(** ** The machine *)

(** What an instruction does next: the next instruction, one of the blocks it
    leads to, or the end of the function. *)
Inductive ctl := Next | Jump (k : nat) | Stop.

(** A store of values: reading and writing the value of a number. *)
Record store_ops (S : Type) := mk_store { st_rd : S → Z → res Z; st_wr : S → Z → Z → res S }.
Arguments st_rd {S}.
Arguments st_wr {S}.

(** An instruction without the names of its values and blocks. *)
Definition erase (v : Z) : Z := Z.min v 0.
Definition shape (i : ir_instr) : ir_instr := redirect_instr (λ _, 0) (rename_instr erase i).

(** The meaning of an instruction: from its shape, the values it reads and
    the rest of the world, the values it writes. *)
Notation meaning W := (ir_instr → list Z → W → option (list Z * W * ctl)).

Section machine.
Context {S W : Type} (ops : store_ops S) (sem : meaning W) (bbs : list ir_bb).

Definition write_all (s : S) (rets : list ir_valuetype) (outs : list Z) : res S :=
  foldR (λ s p, st_wr ops s (vt_value p.1) p.2) s (zip rets outs).

Definition exec_any (i : ir_instr) (s : S) (w : W) : res (S * W * ctl) :=
  l ← gen_values i;
  xs ← mapR (λ x, st_rd ops s (vt_value x)) l;
  '(outs, w, c) ← oget (sem (shape i) xs w) Undef;
  rets ← ret_values (instr_ret i);
  _ ← check (bool_decide (length rets = length outs)) Undef;
  s ← write_all s rets outs;
  Ok (s, w, c).

(** A move copies its value; a branch without condition goes to its block. *)
Definition exec_instr (i : ir_instr) (s : S) (w : W) : res (S * W * ctl) :=
  match i with
  | IR_IC_MOVE v d =>
      if 0 <=? vt_value (ii_ret d) then
        x ← st_rd ops s (vt_value v);
        s ← st_wr ops s (vt_value (ii_ret d)) x;
        Ok (s, w, Next)
      else exec_any i s w
  | IR_IC_BR c _ _ => if vt_value c =? -1 then Ok (s, w, Jump 0) else exec_any i s w
  | _ => exec_any i s w
  end.

(** The instructions that are left of a block, the values and the world. *)
Notation state := (list ir_instr * S * W)%type.

Definition enter (id : Z) (s : S) (w : W) : res state :=
  bb ← oget (bb_find bbs id) Undef; Ok (ib_instrs bb, s, w).

Definition step (st : state) : res (state + W) :=
  let '(l, s, w) := st in
  match l with
  | [] => Fail Undef
  | i :: l =>
      '(s, w, c) ← exec_instr i s w;
      match c with
      | Next => Ok (inl (l, s, w))
      | Jump k => t ← oget (targets i !! k) Undef; st ← enter t s w; Ok (inl st)
      | Stop => Ok (inr w)
      end
  end.
End machine.

(** A renaming keeps the shape. *)
Lemma rename_ext f g i : (∀ v, f v = g v) → rename_instr f i = rename_instr g i.
Proof.
  intros H. assert (∀ v, replace f v = replace g v) as Hv by (intros v; unfold replace; by rewrite H).
  assert (∀ l, map (replace f) l = map (replace g) l) as Hl by (intros l; by apply map_ext).
  assert (∀ d, replace_ret f d = replace_ret g d) as Hd
    by (intros d; unfold replace_ret; by rewrite Hl, Hv).
  destruct i; cbn [rename_instr]; unfold replace_call, replace_load; by rewrite ?Hd, ?Hl, ?Hv.
Qed.

Lemma shape_rename f i : keeps_neg f → shape (rename_instr f i) = shape i.
Proof.
  intros Hf. unfold shape. rewrite rename_compose by done. f_equal. apply rename_ext.
  intros v. unfold erase, compose. destruct (Hf v) as [H1 H2].
  destruct (Z.lt_ge_cases v 0); [by rewrite H1|]. specialize (H2 ltac:(done)). lia.
Qed.

(** ** The two stores *)

(** The values by number; a temporary holds as many bits as its type. *)
Definition env_ops (vs : value_state) : store_ops (Z → Z) := {|
  st_rd ρ v := Ok (ρ v);
  st_wr ρ v x :=
    iv ← value_get vs v;
    w ← value_regframe_size (iu_types (vs_types vs)) (iv_type iv);
    Ok (λ v', if v' =? v then x mod 2 ^ (8 * w) else ρ v') |}.

(** The frame at [rf] in the memory of registers; values without a register
    are constants. *)
Definition frame_ops (vs : value_state) (cst : Z → Z) (rf : Z) : store_ops memory := {|
  st_rd m v :=
    iv ← value_get vs v;
    if bool_decide (iv_class iv = IR_VC_REGFRAME) then
      r ← iv_reg iv;
      w ← value_regframe_size (iu_types (vs_types vs)) (iv_type iv);
      rd_le (Z.to_nat w) m (rf + r)
    else Ok (cst v);
  st_wr m v x :=
    iv ← value_get vs v;
    _ ← check (bool_decide (iv_class iv = IR_VC_REGFRAME)) Undef;
    r ← iv_reg iv;
    w ← value_regframe_size (iu_types (vs_types vs)) (iv_type iv);
    wr_le (Z.to_nat w) m (rf + r) x |}.
