(* ===== verification/RegSim.v ===== *)
(** The program before and after register allocation behaves the same: in the
    machine of [Machine], with the values of the temporaries on the one side
    and the frame of registers on the other. *)
From S2P Require Import Prelude Support Mem Types Values Instr Cfg Liveness RegAlloc Coalesce Analysis Machine.
Local Open Scope Z_scope.

(** ** From values to registers *)

Section registers.
Context (vs : value_state) (ffv : Z) (bbs : list ir_bb) (edges : list edge) (F : Z).
Notation n := (Z.of_nat (vs_next vs) - ffv).
Notation slots iv := (value_regframe_slots (iu_types (vs_types vs)) (iv_type iv)).

(** What the simulation relies on besides: instructions write temporaries; a
    move to several temporaries splits its value, so that they have another
    size; the registers values have already, those of the arguments, lie
    before [F]. *)
Record frame_ok : Prop := {
  fx_rets : ∀ b i rets ret, b ∈ bbs → i ∈ ib_instrs b → ret_values (instr_ret i) = Ok rets → ret ∈ rets →
    tmp0 vs (vt_value ret);
  fx_split : ∀ b v d rets ret iv iw, b ∈ bbs → IR_IC_MOVE v d ∈ ib_instrs b → vt_value (ii_ret d) < -1 →
    ret_values d = Ok rets → ret ∈ rets →
    value_get vs (vt_value v) = Ok iv → is_temporary iv → value_get vs (vt_value ret) = Ok iw → slots iw ≠ slots iv;
  fx_fixed : ∀ k iv r w, index_ok k → value_get vs k = Ok iv → iv_class iv = IR_VC_REGFRAME →
    iv_reg iv = Ok r → value_regframe_size (iu_types (vs_types vs)) (iv_type iv) = Ok w →
    0 <= w ∧ r + w <= F;
}.

Context (Hok : func_ok vs ffv bbs edges) (Hfx : frame_ok).
Context (nodes : list live_node) (live : live_sets) (Hlive : live_result vs ffv bbs nodes live).
Context (f : Z → Z) (Hneg : keeps_neg f) (vs2 : value_state) (size : Z).
Context (Hpl : placed_ok vs ffv F f (conflict ffv bbs nodes) vs2 size).
Context (cst : Z → Z) (rf M : Z) (Hrf : 0 <= rf + F) (HM : rf + size <= M).

Notation tmp x := (tmp0 vs x ∧ temp n (x - ffv)).
Notation env := (env_ops vs).
Notation frame := (frame_ops vs2 cst rf).

(** The frame [m] holds the values [ρ] of the temporaries in [L] and of what
    is not a temporary. *)
Record agree (L : Z → Prop) (ρ : Z → Z) (m : memory) : Prop := {
  ag_ok : Mem.mem_ok m;
  ag_size : mem_size m = M;
  ag_tmp : ∀ x, tmp x → L (x - ffv) → st_rd frame m (f x) = Ok (ρ x);
  ag_other : ∀ x iv, index_ok x → value_get vs x = Ok iv → ¬ is_temporary iv → st_rd frame m (f x) = Ok (ρ x);
}.

Lemma agree_weaken (L L' : Z → Prop) ρ m : (∀ y, L' y → L y) → agree L ρ m → agree L' ρ m.
Proof. intros HL [H1 H2 H3 H4]. split; [done|done| |done]. intros x Hx HL'. by apply H3, HL. Qed.

(** The place of a temporary. *)
Lemma place x : tmp x →
  ∃ iv r s, value_get vs x = Ok iv ∧ slots iv = Ok s ∧ (s = 1 ∨ s = 2) ∧ has_reg vs2 (f x) r (4 * s) ∧
    F <= r ∧ r + 4 * s <= size ∧
    (∀ m, st_rd frame m (f x) = rd_le (Z.to_nat (4 * s)) m (rf + r)) ∧
    (∀ m v, st_wr frame m (f x) v = wr_le (Z.to_nat (4 * s)) m (rf + r) v) ∧
    ∀ ρ v, st_wr env ρ x v = Ok (λ y, if y =? x then v mod 2 ^ (8 * (4 * s)) else ρ y).
Proof.
  intros [(iv & Hiv & Ht) Hx].
  destruct (pl_reg _ _ _ _ _ _ _ Hpl x iv Hiv Ht Hx) as (r & s & Hs & H12 & Hr & H1 & H2).
  exists iv, r, s. split_and!; try done.
  - intros m. cbn [st_rd frame_ops]. destruct Hr as (iw & -> & Hc & E & Hw). rok.
    rewrite bool_decide_eq_true_2 by done. rewrite E. rok. by rewrite Hw.
  - intros m v. cbn [st_wr frame_ops]. destruct Hr as (iw & -> & Hc & E & Hw). rok.
    rewrite bool_decide_eq_true_2 by done. rok. rewrite E. rok. by rewrite Hw.
  - intros ρ v. cbn [st_wr env_ops]. rewrite Hiv. rok. unfold value_regframe_size. rewrite Hs. rok.
    by rewrite (Z.mul_comm s 4).
Qed.

(** Two temporaries whose places do not overlap. *)
Definition apart (x y : Z) : Prop :=
  ∀ rx ry wx wy, has_reg vs2 (f x) rx wx → has_reg vs2 (f y) ry wy → disjoint rx wx ry wy.

Lemma st_rd_other m m' x r w v y :
  tmp x → has_reg vs2 (f x) r w → wr_le (Z.to_nat w) m (rf + r) v = Ok m' → tmp y → apart x y →
  st_rd frame m' (f y) = st_rd frame m (f y).
Proof.
  intros Hx Hr Hw Hy Hxy. destruct (place x Hx) as (_ & rx & sx & _ & _ & Hsx & Hrx & _).
  destruct (place y Hy) as (_ & ry & sy & _ & _ & Hsy & Hry & _ & _ & Hrd & _).
  destruct (has_reg_fun _ _ _ _ _ _ Hr Hrx) as [-> ->]. rewrite !Hrd.
  eapply rd_wr_other; [exact Hw|]. specialize (Hxy _ _ _ _ Hrx Hry). unfold disjoint in Hxy. lia.
Qed.

Lemma st_rd_fixed m m' r w v y iv :
  wr_le (Z.to_nat w) m (rf + r) v = Ok m' → F <= r → mem_size m' = mem_size m →
  index_ok y → value_get vs y = Ok iv → ¬ is_temporary iv →
  st_rd frame m' (f y) = st_rd frame m (f y).
Proof.
  intros Hw HF Hs Hy Hiv Ht. destruct (pl_other _ _ _ _ _ _ _ Hpl y iv Hy Hiv Ht) as [-> Hg].
  cbn [st_rd frame_ops]. rewrite Hg, (pl_types _ _ _ _ _ _ _ Hpl). rok. case_bool_decide as Hc; [|done].
  destruct (iv_reg iv) as [r'|] eqn:Er; [|done]. rok.
  destruct (value_regframe_size _ _) as [w'|] eqn:Ew; [|done]. rok.
  destruct (fx_fixed Hfx y iv r' w' Hy Hiv Hc Er Ew). eapply rd_wr_other; [exact Hw|]. lia.
Qed.

(** Writing a temporary keeps what does not overlap it, and what reads as
    before. *)
Lemma agree_write (L : Z → Prop) ρ m x v :
  agree L ρ m → tmp x →
  (∀ y, tmp y → L (y - ffv) → y ≠ x → apart x y ∨
     (∀ r w, has_reg vs2 (f x) r w → has_reg vs2 (f y) r w) ∧ ρ y = v) →
  ∃ ρ' m', st_wr env ρ x v = Ok ρ' ∧ st_wr frame m (f x) v = Ok m' ∧
    agree (λ y, L y ∨ y = x - ffv) ρ' m'.
Proof.
  intros Hag Hx Hap. destruct (place x Hx) as (iv & r & s & Hiv & Hs & H12 & Hr & Hr1 & Hr2 & Hrd & Hwr & Hew).
  pose proof (ag_size _ _ _ Hag) as HMs. destruct (wr_le_total (Z.to_nat (4 * s)) m (rf + r) v) as [m' Hm'];
    [lia|rewrite HMs; lia|].
  eexists _, m'. split; [apply Hew|]. split; [by rewrite Hwr|].
  pose proof (wr_le_spec _ _ _ _ _ Hm') as (Hsz & _ & _).
  assert (st_rd frame m' (f x) = Ok (v mod 2 ^ (8 * (4 * s)))) as Hself.
  { rewrite Hrd, (rd_wr_same _ _ _ _ _ Hm'). by rewrite Z2Nat.id by lia. }
  split.
  - eapply wr_le_ok; [apply (ag_ok _ _ _ Hag)|exact Hm'].
  - congruence.
  - intros y Hy HL. destruct (Z.eqb_spec y x) as [->|Hne]; [done|].
    destruct HL as [HL|?]; [|lia]. pose proof (ag_tmp _ _ _ Hag y Hy HL) as Hold.
    assert (st_rd frame m' (f y) = st_rd frame m (f y) ∨
      st_rd frame m' (f y) = Ok (v mod 2 ^ (8 * (4 * s))) ∧ ρ y = v ∧
      ∃ a, rd_le (Z.to_nat (4 * s)) m a = Ok (ρ y)) as [->|(-> & <- & a & Ha)]; [|done|].
    + destruct (Hap y Hy HL Hne) as [Hxy|[E Ev]].
      * left. exact (st_rd_other m m' x r _ v y Hx Hr Hm' Hy Hxy).
      * right. specialize (E _ _ Hr). destruct (place y Hy) as (_ & ry & sy & _ & _ & _ & Hry & _ & _ & Hrdy & _).
        destruct (has_reg_fun _ _ _ _ _ _ E Hry) as [<- Es]. assert (sy = s) as -> by lia.
        rewrite Hrdy in Hold |- *. rewrite Hrd in Hself. split_and!; [done|done|]. by exists (rf + r).
    + pose proof (rd_le_range _ _ _ _ (ag_ok _ _ _ Hag) Ha) as Hrange. rewrite Z2Nat.id in Hrange by lia.
      f_equal. apply Z.mod_small. lia.
  - intros y jv Hy Hjv Htj. assert (y ≠ x) as Hne.
    { intros ->. destruct Hx as [(iv' & E & Ht) _]. rewrite Hjv in E. by injection E as <-. }
    rewrite (proj2 (Z.eqb_neq y x)) by done.
    rewrite (st_rd_fixed m m' r (4 * s) v y jv) by done. by apply (ag_other _ _ _ Hag y jv).
Qed.

(** ** One instruction *)

Notation live_k := (live_at nodes (bb_firsts bbs 0) ffv).
Notation succs := (node_succs (bb_firsts bbs 0)).

Definition live_out (k : nat) (nd : live_node) (y : Z) : Prop := ∃ j, j ∈ succs k nd ∧ live_k j y.

Lemma apart_conflict x y : tmp x → tmp y → conflict ffv bbs nodes (x - ffv) (y - ffv) → apart x y.
Proof.
  intros [Hx1 Hx2] [Hy1 Hy2] Hc rx ry wx wy Hrx Hry.
  by apply (pl_apart _ _ _ _ _ _ _ Hpl x y rx ry wx wy Hx1 Hy1 Hx2 Hy2 Hrx Hry).
Qed.

(** Two temporaries have one place or places apart. *)
Lemma apart_or_same x y : tmp x → tmp y →
  apart x y ∨ ∀ r w, has_reg vs2 (f x) r w → has_reg vs2 (f y) r w.
Proof.
  intros Hx Hy. destruct (place x Hx) as (_ & rx & sx & _ & _ & _ & Hrx & _).
  destruct (place y Hy) as (_ & ry & sy & _ & _ & _ & Hry & _).
  destruct Hx as [Hx1 Hx2], Hy as [Hy1 Hy2].
  destruct (pl_apart _ _ _ _ _ _ _ Hpl x y _ _ _ _ Hx1 Hy1 Hx2 Hy2 Hrx Hry) as [_ [Hd|[-> E]]].
  - left. intros r r' w w' H H'. destruct (has_reg_fun _ _ _ _ _ _ H Hrx) as [-> ->].
    by destruct (has_reg_fun _ _ _ _ _ _ H' Hry) as [-> ->].
  - right. intros r w H. destruct (has_reg_fun _ _ _ _ _ _ H Hrx) as [-> ->]. by rewrite E.
Qed.

Section instruction.
Context {W : Type} (sem : meaning W).
Context (k : nat) (nd : live_node) (i : ir_instr) (Hk : nodes !! k = Some nd) (Hi : ln_instr nd = i).

(** An instruction that writes [ret] while [y] is live. *)
Lemma ret_conflict rets ret y :
  ret_values (instr_ret i) = Ok rets → ret ∈ rets → live_out k nd (y - ffv) → temp n (y - ffv) →
  y ≠ vt_value ret → y - ffv ≠ move_source ffv i → conflict ffv bbs nodes (vt_value ret - ffv) (y - ffv).
Proof.
  intros Hr Hret (j & Hj & Hl) [Hy _] Hne Hns.
  exists k, nd, rets, ret, j. rewrite Hi. split_and!; (done || lia).
Qed.

Lemma live_through rets y :
  ret_values (instr_ret i) = Ok rets → live_out k nd y →
  live_k k y ∨ ∃ ret, ret ∈ rets ∧ y = vt_value ret - ffv.
Proof.
  intros Hr (j & Hj & Hl). destruct (node_defs ffv nd y) eqn:Ed.
  - right. unfold node_defs in Ed. rewrite Hi, Hr in Ed. apply existsb_exists in Ed as (ret & H1 & H2%Z.eqb_eq).
    exists ret. by rewrite list_elem_of_In.
  - left. by eapply live_flow.
Qed.

(** The operands have their values in the frame. *)
Lemma operand b l x ρ m :
  b ∈ bbs → i ∈ ib_instrs b → gen_values i = Ok l → x ∈ l → agree (live_k k) ρ m →
  st_rd frame m (f (vt_value x)) = Ok (ρ (vt_value x)).
Proof.
  intros Hb Hib Hl Hx Hag. destruct (func_instr _ _ _ _ Hok b i Hb Hib) as (l' & r & Hg & _ & Hops & _).
  rewrite Hl in Hg. injection Hg as <-. destruct (Hops x Hx) as (iv & Hix & Hiv & Hit & Ht).
  destruct (decide (is_temporary iv)) as [Htmp|Htmp]; [|by eapply (ag_other _ _ _ Hag)].
  specialize (Ht Htmp). apply (ag_tmp _ _ _ Hag); [by split; [exists iv|]|]. eapply live_use; [exact Hk|].
  apply (node_uses_spec _ _ _ _ _ _ _ _ Hlive Hk); [apply Ht|]. exists l, x. rewrite Hi. split_and!; [done|done|].
  unfold is_temp. rewrite Hit. rewrite bool_decide_eq_true_2 by exact Htmp. by rewrite Z.eqb_refl.
Qed.

Lemma operands b l ρ m :
  b ∈ bbs → i ∈ ib_instrs b → gen_values i = Ok l → agree (live_k k) ρ m →
  mapR (λ x, st_rd env ρ (vt_value x)) l = Ok (map (λ x, ρ (vt_value x)) l) ∧
  mapR (λ x, st_rd frame m (vt_value x)) (map (replace f) l) = Ok (map (λ x, ρ (vt_value x)) l).
Proof.
  intros Hb Hib Hl Hag. split; [by apply mapR_map|].
  assert (∀ x, x ∈ l → st_rd frame m (f (vt_value x)) = Ok (ρ (vt_value x))) as Hx
    by (intros x Hx; by eapply operand). clear Hl. induction l as [|x l IH]; [done|]. cbn [map mapR replace vt_value].
  rewrite Hx by (apply elem_of_cons; by left). rok. rewrite IH by (intros; apply Hx, elem_of_cons; by right). done.
Qed.

(** The results, one after the other; [Lout] is live after them. *)
Lemma write_all_sim (L Lout : Z → Prop) rets outs ρ m :
  length rets = length outs → agree L ρ m → (∀ y, L y → Lout y) →
  (∀ ret, ret ∈ rets → tmp (vt_value ret) ∧
     ∀ y, tmp y → Lout (y - ffv) → y ≠ vt_value ret → apart (vt_value ret) y) →
  ∃ ρ' m', write_all env ρ rets outs = Ok ρ' ∧ write_all frame m (map (replace f) rets) outs = Ok m' ∧
    agree (λ y, L y ∨ Lout y ∧ ∃ ret, ret ∈ rets ∧ y = vt_value ret - ffv) ρ' m'.
Proof.
  revert outs L ρ m; induction rets as [|ret rets IH]; intros [|x outs] L ρ m Hlen Hag HL Hrets; try done.
  - exists ρ, m. split_and!; [done|done|]. eapply agree_weaken; [|exact Hag].
    intros y [?|(_ & ret & Hret & _)]; [done|]. by apply not_elem_of_nil in Hret.
  - destruct (Hrets ret) as [Ht Hap]; [apply elem_of_cons; by left|].
    destruct (agree_write L ρ m (vt_value ret) x Hag Ht) as (ρ1 & m1 & H1 & H2 & Hag1).
    { intros y Hy HLy Hne. left. apply Hap; [done|by apply HL|done]. }
    destruct (IH outs (λ y, L y ∨ Lout y ∧ y = vt_value ret - ffv) ρ1 m1) as (ρ' & m' & H3 & H4 & Hag').
    + by injection Hlen.
    + eapply agree_weaken; [|exact Hag1]. tauto.
    + intros y [?|[? _]]; auto.
    + intros r' Hr'. apply Hrets, elem_of_cons. by right.
    + exists ρ', m'. unfold write_all in *. cbn [map zip zip_with foldR fst snd replace vt_value].
      rewrite H1, H2. split_and!; [exact H3|exact H4|]. eapply agree_weaken; [|exact Hag'].
      intros y [?|(Ho & r' & [->|Hr']%elem_of_cons & Ey)]; [by left; left|by left; right|].
      right. eauto.
Qed.

Lemma ret_tmp b rets ret :
  b ∈ bbs → i ∈ ib_instrs b → ret_values (instr_ret i) = Ok rets → ret ∈ rets → tmp (vt_value ret).
Proof.
  intros Hb Hib Hr Hret. split; [by eapply (fx_rets Hfx)|].
  destruct (func_instr _ _ _ _ Hok b i Hb Hib) as (l & r & _ & Hr' & _ & H). rewrite Hr in Hr'.
  injection Hr' as <-. by apply H.
Qed.

(** A result of an instruction other than a simple move is apart from what is
    live. *)
Lemma ret_apart b rets ret y :
  b ∈ bbs → i ∈ ib_instrs b → ret_values (instr_ret i) = Ok rets → ret ∈ rets →
  (∀ v d, i = IR_IC_MOVE v d → vt_value (ii_ret d) < 0) →
  tmp y → live_out k nd (y - ffv) → y ≠ vt_value ret → apart (vt_value ret) y.
Proof.
  intros Hb Hib Hr Hret Hmv Hy Hout Hne. pose proof (ret_tmp b rets ret Hb Hib Hr Hret) as Hx.
  destruct (Z.eqb_spec (y - ffv) (move_source ffv i)) as [Es|Es].
  2: { apply apart_conflict; [done|done|]. eapply ret_conflict; (done || apply Hy). }
  assert ((∃ v d, i = IR_IC_MOVE v d) ∨ move_source ffv i = -1) as [(v & d & Ei)|E]
    by (destruct i; eauto); [|destruct Hy as [_ [H _]]; lia].
  specialize (Hmv v d Ei). rewrite Ei in Hr, Es. cbn [instr_ret move_source] in Hr, Es.
  assert (y = vt_value v) as -> by lia.
  assert (vt_value (ii_ret d) < -1) as Hd.
  { unfold ret_values in Hr. destruct (Z.ltb_spec (vt_value (ii_ret d)) (-1)); [done|].
    rewrite (proj2 (Z.eqb_eq _ (-1))) in Hr by lia. injection Hr as <-. by apply not_elem_of_nil in Hret. }
  destruct (place _ Hx) as (iw & rx & sx & Hiw & Hsx & _ & Hrx & _).
  destruct (place _ Hy) as (iv & ry & sy & Hiv & Hsy & _ & Hry & _).
  destruct (apart_or_same _ _ Hx Hy) as [|Hsame]; [done|]. exfalso.
  apply Hsame in Hrx. destruct (has_reg_fun _ _ _ _ _ _ Hrx Hry) as [_ E].
  destruct Hy as [(iv' & Hiv' & Ht) _]. rewrite Hiv in Hiv'. injection Hiv' as <-.
  rewrite Ei in Hib. apply (fx_split Hfx b v d rets ret iv iw); try done. rewrite Hsx, Hsy. f_equal. lia.
Qed.

Definition simple (i : ir_instr) : bool :=
  match i with IR_IC_MOVE _ _ | IR_IC_BR _ _ _ => true | _ => false end.

(** The instruction in both machines. *)
Definition matched (o : res ((Z → Z) * W * ctl)) (o' : res (memory * W * ctl)) : Prop :=
  match o with
  | Ok (ρ', w', c) => ∃ m', o' = Ok (m', w', c) ∧ agree (live_out k nd) ρ' m'
  | Fail _ => ∃ e, o' = Fail e
  end.

Lemma exec_any_sim b ρ m w :
  b ∈ bbs → i ∈ ib_instrs b → (∀ v d, i = IR_IC_MOVE v d → vt_value (ii_ret d) < 0) →
  agree (live_k k) ρ m →
  matched (exec_any env sem i ρ w) (exec_any frame sem (rename_instr f i) m w).
Proof.
  intros Hb Hib Hmv Hag. destruct (func_instr _ _ _ _ Hok b i Hb Hib) as (l & rets & Hl & Hr & _).
  destruct (operands b l ρ m Hb Hib Hl Hag) as [Hx1 Hx2]. unfold exec_any.
  rewrite Hl, (gen_values_rename f i l Hneg Hl). rok. rewrite Hx1, Hx2. rok.
  rewrite shape_rename by done. set (xs := map _ l). destruct (sem (shape i) xs w) as [[[outs w'] c]|];
    [|by eexists]. rok.
  rewrite Hr, instr_ret_rename, (ret_values_rename f (instr_ret i) rets Hneg Hr)
    by (done || by eapply gen_values_replaceable). rok. rewrite length_map.
  case_bool_decide as Hlen; [|by eexists]. rok.
  destruct (write_all_sim (λ y, live_out k nd y ∧ live_k k y) (live_out k nd) rets outs ρ m Hlen)
    as (ρ' & m' & -> & -> & Hag').
  - eapply agree_weaken; [|exact Hag]. by intros y [_ ?].
  - by intros y [? _].
  - intros ret Hret. split; [by eapply ret_tmp|]. intros y Hy Ho Hne. by eapply ret_apart.
  - rok. exists m'. split; [done|]. eapply agree_weaken; [|exact Hag']. intros y Hy.
    destruct (live_through rets y Hr Hy) as [?|?]; auto.
Qed.

Lemma move_sim b v d ρ m w :
  b ∈ bbs → i ∈ ib_instrs b → i = IR_IC_MOVE v d → 0 <= vt_value (ii_ret d) → agree (live_k k) ρ m →
  ∃ ρ' m', st_wr env ρ (vt_value (ii_ret d)) (ρ (vt_value v)) = Ok ρ' ∧
    exec_instr frame sem (rename_instr f i) m w = Ok (m', w, Next) ∧ agree (live_out k nd) ρ' m'.
Proof.
  intros Hb Hib Ei Hd Hag.
  assert (ret_values (instr_ret i) = Ok [ii_ret d]) as Hr.
  { rewrite Ei. cbn [instr_ret]. unfold ret_values. rewrite (proj2 (Z.ltb_ge _ _)) by lia.
    by rewrite (proj2 (Z.eqb_neq _ _)) by lia. }
  assert (tmp (vt_value (ii_ret d))) as Hx by (eapply ret_tmp; [done|done|done|by apply elem_of_cons; left]).
  pose proof (operand b [v] v ρ m Hb Hib) as Hv. rewrite Ei in Hv at 1. cbn [gen_values] in Hv.
  specialize (Hv eq_refl ltac:(by apply elem_of_cons; left) Hag).
  destruct (agree_write (λ y, live_out k nd y ∧ live_k k y) ρ m (vt_value (ii_ret d)) (ρ (vt_value v)))
    as (ρ' & m' & H1 & H2 & Hag'); [|done| |].
  - eapply agree_weaken; [|exact Hag]. by intros y [_ ?].
  - intros y Hy [Ho _] Hne. destruct (Z.eqb_spec y (vt_value v)) as [->|Hyv].
    + destruct (apart_or_same _ _ Hx Hy); [by left|by right].
    + left. apply apart_conflict; [done|done|]. eapply ret_conflict; try done;
        [by apply elem_of_cons; left|apply Hy|]. rewrite Ei. cbn [move_source]. lia.
  - exists ρ', m'. split; [done|]. split.
    + rewrite Ei. cbn [rename_instr exec_instr]. unfold replace_ret.
      rewrite (proj2 (Z.ltb_ge _ _)) by lia. cbn [ii_ret replace vt_value].
      rewrite (proj2 (Z.leb_le _ _)) by (by apply (Hneg (vt_value (ii_ret d)))). rewrite Hv. rok. by rewrite H2.
    + eapply agree_weaken; [|exact Hag']. intros y Hy. destruct (live_through _ y Hr Hy) as [?|(r & Hr' & ->)]; [auto|].
      apply list_elem_of_singleton in Hr' as ->. auto.
Qed.

Lemma exec_sim b ρ m w :
  b ∈ bbs → i ∈ ib_instrs b → agree (live_k k) ρ m →
  matched (exec_instr env sem i ρ w) (exec_instr frame sem (rename_instr f i) m w).
Proof.
  intros Hb Hib Hag.
  assert ((∃ v d, i = IR_IC_MOVE v d ∧ 0 <= vt_value (ii_ret d)) ∨ (∃ c t e, i = IR_IC_BR c t e ∧ vt_value c = -1) ∨
    (∀ v d, i = IR_IC_MOVE v d → vt_value (ii_ret d) < 0) ∧ exec_instr env sem i ρ w = exec_any env sem i ρ w ∧
    exec_instr frame sem (rename_instr f i) m w = exec_any frame sem (rename_instr f i) m w)
    as [(v & d & Ei & Hd)|[(c & t & e & Ei & Hc)|(Hmv & -> & ->)]].
  - assert (simple i = false ∨ (∃ v d, i = IR_IC_MOVE v d) ∨ ∃ c t e, i = IR_IC_BR c t e)
      as [Es|[(v & d & ->)|(c & t & e & ->)]] by (destruct i; eauto 6); cbn [rename_instr exec_instr].
    + right. right. destruct i; try discriminate Es; (split; [intros ? ? E'; discriminate E'|by split]).
    + destruct (Z.leb_spec 0 (vt_value (ii_ret d))) as [Hd|Hd]; [by left; eauto|].
      right. right. split; [by intros ? ? [= <- <-]|]. split; [done|].
      unfold replace_ret. destruct (Z.ltb_spec (vt_value (ii_ret d)) (-1)); cbn [ii_ret replace vt_value].
      * rewrite (proj2 (Z.leb_gt _ _)) by done. done.
      * rewrite (proj1 (Hneg _) Hd), (proj2 (Z.leb_gt _ _)) by done. done.
    + cbn [replace vt_value]. rewrite keeps_neg_eqb by done.
      destruct (Z.eqb_spec (vt_value c) (-1)); [right; left; eauto 6|right; right; split; [done|by split]].
  - destruct (move_sim b v d ρ m w Hb Hib Ei Hd Hag) as (ρ' & m' & H1 & H2 & H3). rewrite H2.
    assert (exec_instr env sem i ρ w = Ok (ρ', w, Next)) as ->; [|by exists m'].
    rewrite Ei. cbn [exec_instr]. destruct (Z.leb_spec 0 (vt_value (ii_ret d))); [|lia].
    change (st_rd env ρ (vt_value v)) with (Ok (ρ (vt_value v))). rok. by rewrite H1.
  - rewrite Ei. cbn [rename_instr exec_instr replace vt_value]. rewrite keeps_neg_eqb, Hc by done. simpl.
    exists m. split; [done|]. eapply agree_weaken; [|exact Hag]. intros y Hy.
    destruct (live_through [] y) as [?|(ret & Hret & _)]; [by rewrite Ei|done|done|by apply not_elem_of_nil in Hret].
  - by eapply exec_any_sim.
Qed.
End instruction.

(** A move that was dropped: both values are in one register. *)
Lemma dropped_step {W : Type} (sem : meaning W) k nd v d b ρ m (w : W) :
  nodes !! k = Some nd → ln_instr nd = IR_IC_MOVE v d → b ∈ bbs → IR_IC_MOVE v d ∈ ib_instrs b →
  0 <= vt_value (ii_ret d) → tmp0 vs (vt_value v) → f (vt_value v) = f (vt_value (ii_ret d)) →
  agree (live_k k) ρ m →
  ∃ ρ', exec_instr env sem (IR_IC_MOVE v d) ρ w = Ok (ρ', w, Next) ∧ agree (live_out k nd) ρ' m.
Proof.
  intros Hnd Hi Hb Hib Hd Htv E Hag. set (x := vt_value (ii_ret d)) in *.
  assert (ret_values (instr_ret (IR_IC_MOVE v d)) = Ok [ii_ret d]) as Hr.
  { cbn [instr_ret]. unfold ret_values. fold x. rewrite (proj2 (Z.ltb_ge _ _)) by lia.
    by rewrite (proj2 (Z.eqb_neq _ _)) by lia. }
  assert (tmp x) as Hx by (eapply (ret_tmp (IR_IC_MOVE v d)); [done|done|done|by apply elem_of_cons; left]).
  pose proof (operand k nd _ Hnd Hi b [v] v ρ m Hb Hib eq_refl ltac:(by apply elem_of_cons; left) Hag) as Hv.
  destruct (place x Hx) as (iv & r & s & _ & _ & H12 & Hr' & _ & _ & Hrd & _ & Hew).
  eexists. split.
  { cbn [exec_instr]. fold x. rewrite (proj2 (Z.leb_le _ _)) by done.
    change (st_rd env ρ (vt_value v)) with (Ok (ρ (vt_value v))). rok. rewrite Hew. by rok. }
  destruct Hag as [H1 H2 H3 H4]. split; [done|done| |].
  - intros y Hy HL. destruct (Z.eqb_spec y x) as [->|Hne].
    + rewrite <- E, Hv. rewrite E, Hrd in Hv. pose proof (rd_le_range _ _ _ _ H1 Hv) as Hrange.
      rewrite Z2Nat.id in Hrange by lia. f_equal. symmetry. apply Z.mod_small. lia.
    + apply H3; [done|]. destruct (live_through k nd _ Hnd Hi [ii_ret d] _ Hr HL) as [?|(r' & Hr1 & Er)]; [done|].
      apply list_elem_of_singleton in Hr1 as ->. fold x in Er. lia.
  - intros y jv Hy Hjv Htj. destruct (Z.eqb_spec y x) as [->|]; [|by eapply H4].
    destruct Hx as [(iv' & E' & Ht) _]. rewrite Hjv in E'. injection E' as <-. done.
Qed.

(** ** The blocks *)

(** The instructions [l] are the nodes from [k] on to the end of a block. *)
Definition at_node (k : nat) (l : list ir_instr) : Prop :=
  ∀ j i, l !! j = Some i → ∃ nd b, nodes !! (k + j)%nat = Some nd ∧ ln_instr nd = i ∧
    ln_next nd = bool_decide (S j < length l)%nat ∧ b ∈ bbs ∧ i ∈ ib_instrs b ∧
    liveness_set_succ bbs i = Ok (ln_succ nd) ∧ (terminator i = true → S j = length l).

Lemma at_node_tail k i l : at_node k (i :: l) → at_node (S k) l.
Proof.
  intros H j x Hx. destruct (H (S j) x Hx) as (nd & b & H1 & H2 & H3 & H4 & H5 & H6 & H7). exists nd, b.
  replace (S k + j)%nat with (k + S j)%nat by lia. split_and!; [done|done| |done|done|done|].
  - rewrite H3. apply bool_decide_ext. cbn. lia.
  - intros Ht. specialize (H7 Ht). cbn in H7. lia.
Qed.

Lemma block_nodes id bb :
  bb_find bbs id = Some bb →
  ∃ j, bb_first (bb_firsts bbs 0) id = Ok j ∧ at_node j (ib_instrs bb).
Proof.
  intros Hbb. pose proof (body_ok_inv _ _ _ (fo_body _ _ _ _ Hok)) as (_ & Hne & _).
  destruct (bb_first_at bbs 0 id bb Hne Hbb) as (j & Hj & Hat). exists j. split; [exact Hj|].
  destruct (bb_find_Some _ _ _ Hbb) as [_ Hb]. intros m i Hi.
  pose proof (Hat m _ (with_next_lookup _ _ _ Hi)) as Hf.
  assert (is_Some (nodes !! (j + m)%nat)) as [nd Hnd].
  { apply lookup_lt_is_Some. rewrite <- (length_map ln_instr), (lr_instrs _ _ _ _ _ Hlive), <- flat_fst, length_map.
    by eapply lookup_lt_Some. }
  destruct (lr_nodes _ _ _ _ _ Hlive _ _ Hnd) as (p & Hp & _ & E1 & E2 & E3 & _). rewrite Hf in Hp.
  injection Hp as <-. cbn [fst snd] in *. exists nd, bb.
  split_and!; [done|done|done|done|by eapply list_elem_of_lookup_2|done|].
  intros Ht. destruct (fo_wf _ _ _ _ Hok bb Hb) as (l & i' & E & _ & Hl). rewrite E in *.
  rewrite length_app. cbn [length]. destruct (decide (m < length l)%nat) as [Hm|Hm].
  - rewrite lookup_app_l in Hi by done. apply list_elem_of_lookup_2, Hl in Hi. congruence.
  - apply lookup_lt_Some in Hi. rewrite length_app in Hi. cbn in Hi. lia.
Qed.

Lemma mapR_lookup {X Y} (g : X → res Y) l l' k x :
  mapR g l = Ok l' → l !! k = Some x → ∃ y, g x = Ok y ∧ y ∈ l'.
Proof.
  revert l' k; induction l as [|a l IH]; intros l' k H Hk; [done|]. cbn [mapR] in H. inv_res.
  destruct k as [|k]; cbn in Hk.
  - injection Hk as ->. exists a0. split; [done|]. apply elem_of_cons. by left.
  - destruct (IH _ k Hm0 Hk) as (y & H1 & H2). exists y. split; [done|]. apply elem_of_cons. by right.
Qed.

(** What comes after an instruction: the next one, or the first of a block. *)
Lemma succ_kind i su :
  liveness_set_succ bbs i = Ok su →
  if terminator i then su = succ_blocks (map (λ id, ib_id <$> bb_find bbs id) (targets i))
  else su = succ_next ∧ targets i = [].
Proof. destruct i; cbn; try done; try (by intros [= <-]). all: by intros ?. Qed.

Lemma succ_next_elem k nd i :
  nodes !! k = Some nd → ln_instr nd = i → liveness_set_succ bbs i = Ok (ln_succ nd) →
  terminator i = false → ln_next nd = true → S k ∈ succs k nd.
Proof.
  intros Hk Hi Hs Ht Hn. apply succ_kind in Hs. rewrite Ht in Hs. destruct Hs as [Hs _].
  unfold node_succs, succ_of. rewrite Hs, Hn. by apply elem_of_cons; left.
Qed.

Lemma succ_jump k nd i c t :
  nodes !! k = Some nd → ln_instr nd = i → liveness_set_succ bbs i = Ok (ln_succ nd) →
  targets i !! c = Some t →
  ∃ j bb, bb_find bbs t = Some bb ∧ j ∈ succs k nd ∧ at_node j (ib_instrs bb).
Proof.
  intros Hk Hi Hs Ht. apply succ_kind in Hs. destruct (terminator i) eqn:Et.
  2: { destruct Hs as [_ E]. by rewrite E in Ht. }
  destruct (no_succs _ _ _ _ _ _ (lr_ok _ _ _ _ _ Hlive k nd Hk)) as (js & Hjs & _).
  unfold succ_of in Hjs. rewrite Hs in Hjs.
  destruct (mapR_lookup _ _ _ c (ib_id <$> bb_find bbs t) Hjs) as (j & Hj & Hin);
    [by rewrite list_lookup_fmap, Ht|].
  destruct (bb_find bbs t) as [bb|] eqn:Ebb; [|done]. cbn in Hj.
  rewrite (bb_find_id _ _ _ Ebb) in Hj. destruct (block_nodes t bb Ebb) as (j' & Hj' & Hat).
  rewrite Hj in Hj'. injection Hj' as <-. exists j, bb. split_and!; [done| |done].
  unfold node_succs, succ_of. by rewrite Hs, Hjs.
Qed.

Context (bbs1 : list ir_bb) (Hbbs : Forall2 (block_coalesced (tmp0 vs) f) bbs bbs1).

Section blocks.
Context {W : Type} (sem : meaning W).

Notation state1 := (list ir_instr * (Z → Z) * W)%type.
Notation state2 := (list ir_instr * memory * W)%type.

(** The states of both machines. *)
Definition same_state (a : state1) (b : state2) : Prop :=
  a.2 = b.2 ∧ coalesced (tmp0 vs) f a.1.1 b.1.1 ∧
  ∃ k, at_node k a.1.1 ∧ agree (λ y, a.1.1 ≠ [] ∧ live_k k y) a.1.2 b.1.2.

Lemma same_next k nd i l l' ρ m (w : W) :
  nodes !! k = Some nd → ln_instr nd = i → at_node k (i :: l) → coalesced (tmp0 vs) f l l' →
  agree (live_out k nd) ρ m → same_state (l, ρ, w) (l', m, w).
Proof.
  intros Hk Hi Hat Hc Hag. split; [done|]. split; [done|]. exists (S k). cbn [fst snd].
  split; [by eapply at_node_tail|]. eapply agree_weaken; [|exact Hag]. intros y [Hl Hy]. exists (S k).
  split; [|done]. destruct (Hat 0%nat i eq_refl) as (nd' & b & H1 & H2 & H3 & _ & _ & H6 & H7).
  rewrite Nat.add_0_r, Hk in H1. injection H1 as <-. destruct l as [|x l]; [done|].
  eapply succ_next_elem; try done. destruct (terminator i); [|done]. by specialize (H7 eq_refl).
Qed.

Lemma same_step a b :
  same_state a b → ∃ a1, steps (step env sem bbs) a a1 ∧
    lockstep (step env sem bbs) (step frame sem bbs1) same_state a1 b.
Proof.
  destruct a as [[l ρ] w], b as [[l' m] w']. intros (Hw & Hc & k & Hat & Hag). cbn [fst snd] in *. subst w'.
  revert k ρ Hat Hag. induction Hc as [|i l l' Hc _|i l l' (v & d & -> & Hd & Htv & E) Hc IH]; intros k ρ Hat Hag.
  - exists ([], ρ, w). split; [constructor|]. by eexists.
  - exists (i :: l, ρ, w). split; [constructor|].
    destruct (Hat 0%nat i eq_refl) as (nd & b & Hnd & Hi & _ & Hb & Hib & Hsu & _). rewrite Nat.add_0_r in Hnd.
    pose proof (exec_sim sem k nd i Hnd Hi b ρ m w Hb Hib) as Hex.
    specialize (Hex ltac:(eapply agree_weaken; [|exact Hag]; done)).
    unfold lockstep, step, matched in *.
    destruct (exec_instr env sem i ρ w) as [[[ρ' w'] c]|]; [|destruct Hex as [e2 ->]; rok; eauto].
    destruct Hex as (m' & -> & Hag'). rok. destruct c as [|c|]; [|rewrite targets_rename by done|done].
    + eexists. split; [done|]. by eapply same_next.
    + destruct (targets i !! c) as [t|] eqn:Et; [|by eexists]. rok.
      destruct (succ_jump k nd i c t Hnd Hi Hsu Et) as (j & bb & Hbb & Hj & Hatj).
      unfold enter. rewrite Hbb. rok. pose proof (coalesced_find _ _ _ _ t Hbbs) as Hf. rewrite Hbb in Hf.
      destruct (bb_find bbs1 t) as [bb'|]; [|done]. rok. eexists. split; [done|].
      split; [done|]. split; [apply Hf|]. exists j. cbn [fst snd]. split; [done|].
      eapply agree_weaken; [|exact Hag']. intros y [_ Hy]. by exists j.
  - destruct (Hat 0%nat _ eq_refl) as (nd & b & Hnd & Hi & _ & Hb & Hib & Hsu & _). rewrite Nat.add_0_r in Hnd.
    assert (agree (live_k k) ρ m) as Hag0 by (eapply agree_weaken; [|exact Hag]; done).
    destruct (dropped_step sem k nd v d b ρ m w Hnd Hi Hb Hib Hd Htv E Hag0) as (ρ' & Hex & Hag').
    destruct (same_next k nd _ l l' ρ' m w Hnd Hi Hat Hc Hag') as (_ & _ & k' & Hat' & Hag1).
    destruct (IH k' ρ' Hat' Hag1) as (a1 & Hs & Hl). exists a1. split; [|done].
    eapply steps_cons; [|exact Hs]. unfold step. by rewrite Hex.
Qed.
End blocks.
End registers.

(** ** Without the empty blocks *)

Lemma shape_redirect r i : shape (redirect_instr r i) = shape i.
Proof.
  unfold shape. assert (rename_instr erase (redirect_instr r i) = redirect_instr r (rename_instr erase i)) as ->.
  { destruct i; cbn; try done. f_equal. assert ((erase (vt_value condition) =? -1) = (vt_value condition =? -1)) as ->; [|done].
    unfold erase. destruct (Z.eqb_spec (Z.min (vt_value condition) 0) (-1)), (Z.eqb_spec (vt_value condition) (-1)); lia || done. }
  by rewrite redirect_instr_compose.
Qed.

Lemma exec_redirect {S W : Type} (ops : store_ops S) (sem : meaning W) r i s w :
  exec_instr ops sem (redirect_instr r i) s w = exec_instr ops sem i s w.
Proof.
  assert (exec_any ops sem (redirect_instr r i) s w = exec_any ops sem i s w) as E.
  { unfold exec_any. rewrite shape_redirect.
    assert (gen_values (redirect_instr r i) = gen_values i) as -> by (by destruct i).
    by assert (instr_ret (redirect_instr r i) = instr_ret i) as -> by (by destruct i). }
  destruct i; try exact E; cbn [redirect_instr exec_instr] in *; [by destruct (_ =? -1)|done].
Qed.

Lemma terminator_rename f i : terminator (rename_instr f i) = terminator i.
Proof. by destruct i. Qed.

Lemma coalesced_wf tmp f b b' : block_wf b → block_coalesced tmp f b b' → block_wf b'.
Proof.
  intros (l & i & E & Ht & Hl) [_ Hc]. rewrite E in Hc.
  destruct (coalesced_last _ _ _ _ _ Ht Hc) as (l1 & E1 & Hc1). exists l1, (rename_instr f i).
  split_and!; [done|by rewrite terminator_rename|]. intros j Hj.
  destruct (coalesced_elem _ _ _ _ _ Hc1 Hj) as (j0 & Hj0 & ->). rewrite terminator_rename. by apply Hl.
Qed.

Section shortcut.
Context {S W : Type} (ops : store_ops S) (sem : meaning W).
Context (bbs bbs' : list ir_bb) (edges : list edge) (r : Z → Z).
Context (Hcfg : cfg_ok bbs edges) (Hwf : ∀ b, b ∈ bbs → block_wf b) (Hsc : shortcut r bbs bbs').

Notation state := (list ir_instr * S * W)%type.

(** The rest of a block and its redirection. *)
Definition rest_ok (l : list ir_instr) : Prop :=
  ∀ j i, l !! j = Some i →
    (terminator i = true → Datatypes.S j = length l) ∧ ∀ t, t ∈ targets i → is_Some (bb_find bbs t).

Definition redirected (a b : state) : Prop :=
  a.1.2 = b.1.2 ∧ a.2 = b.2 ∧ rest_ok a.1.1 ∧
  b.1.1 = alter (redirect_instr r) (pred (length a.1.1)) a.1.1.

Definition short_state (a b : state) : Prop := ∃ a1, steps (step ops sem bbs) a a1 ∧ redirected a1 b.

Lemma block_rest_ok id bb : bb_find bbs id = Some bb → rest_ok (ib_instrs bb).
Proof.
  intros Hbb. destruct (bb_find_Some _ _ _ Hbb) as [_ Hin].
  destruct (Hwf bb Hin) as (l & i & E & Ht & Hl). intros j x Hx. rewrite E in *. rewrite length_app. cbn [length].
  destruct (decide (j < length l)%nat) as [Hj|Hj].
  - rewrite lookup_app_l in Hx by done. apply list_elem_of_lookup_2, Hl in Hx as Hx'. split; [congruence|].
    rewrite not_terminator_targets by done. by intros t ?%not_elem_of_nil.
  - pose proof (lookup_lt_Some _ _ _ Hx) as Hlt. rewrite length_app in Hlt. cbn in Hlt. split; [lia|].
    rewrite lookup_app_r in Hx by lia. replace (j - length l)%nat with 0%nat in Hx by lia. injection Hx as <-.
    intros t Htt. destruct (cf_block _ _ Hcfg id bb Hbb) as (i' & Hi' & Hed).
    rewrite (block_last _ _ _ E) in Hi'. injection Hi' as <-. by destruct (cf_edge _ _ Hcfg id t (Hed t Htt)).
Qed.

(** Entering a block, or what is left of it. *)
Lemma enter_short id s w :
  lands r bbs bbs' id → ∃ bb bb', bb_find bbs id = Some bb ∧ bb_find bbs' (r id) = Some bb' ∧
    short_state (ib_instrs bb, s, w) (ib_instrs bb', s, w).
Proof.
  induction 1 as [id [bb Hbb] [b2 Hb2] Er|id bb c t f Hbb Hn Ei Ec Er _ (bt & bb' & Hbt & Hbb' & Hs)].
  - exists bb, (redirect r bb). rewrite Er. split; [done|].
    destruct (proj1 Hsc id bb Hbb) as [[E _]|[E _]]; [|congruence]. split; [done|].
    exists (ib_instrs bb, s, w). split; [constructor|]. split_and!; [done|done|by eapply block_rest_ok|done].
  - exists bb, bb'. rewrite Er. split_and!; [done|done|]. destruct Hs as (a1 & Hst & Hr). exists a1.
    split; [|done]. eapply steps_cons; [|exact Hst]. rewrite Ei. unfold step. cbn [exec_instr]. rewrite Ec.
    cbn [Z.eqb]. change (-1 =? -1) with true. cbn. rewrite Ec. cbn. unfold enter. by rewrite Hbt.
Qed.

Lemma rest_ok_tail i l : rest_ok (i :: l) → rest_ok l.
Proof.
  intros H j x Hx. destruct (H (Datatypes.S j) x Hx) as [H1 H2]. split; [|done].
  intros Ht. specialize (H1 Ht). cbn in H1. lia.
Qed.

Lemma short_step a b :
  short_state a b → ∃ a1, steps (step ops sem bbs) a a1 ∧
    lockstep (step ops sem bbs) (step ops sem bbs') short_state a1 b.
Proof.
  intros (a1 & Hst & Hr). exists a1. split; [done|]. clear a Hst.
  destruct a1 as [[l s] w], b as [[l' s'] w'], Hr as (E1 & E2 & Hok & E3). cbn [fst snd] in *. subst s' w' l'.
  unfold lockstep, step. destruct l as [|i l]; [by eexists|]. destruct l as [|i2 l].
  - change (alter (redirect_instr r) (pred (length [i])) [i]) with [redirect_instr r i].
    cbv beta iota.     rewrite exec_redirect. destruct (exec_instr ops sem i s w) as [[[s' w'] c]|]; [|by eexists]. rok.
    destruct c as [|c|]; [| |done].
    + eexists. split; [done|]. exists ([], s', w'). split; [constructor|]. split_and!; [done|done|by eapply rest_ok_tail|done].
    + rewrite targets_redirect, list_lookup_fmap. destruct (targets i !! c) as [t|] eqn:Et; [|by eexists]. rok.
      destruct (Hok 0%nat i eq_refl) as [_ Htt]. specialize (Htt t ltac:(by eapply list_elem_of_lookup_2)).
      destruct (enter_short t s' w' (proj2 (proj2 (proj2 Hsc)) t Htt)) as (bb & bb' & Hbb & Hbb' & Hs).
      cbn [fmap option_fmap option_map oget mbind res_bind]. unfold enter. rewrite Hbb, Hbb'. rok. eauto.
  - change (alter (redirect_instr r) (pred (length (i :: i2 :: l))) (i :: i2 :: l))
      with (i :: alter (redirect_instr r) (pred (length (i2 :: l))) (i2 :: l)).
    cbv beta iota. destruct (exec_instr ops sem i s w) as [[[s' w'] c]|]; [|by eexists]. rok. destruct c as [|c|]; [| |done].
    + eexists. split; [done|]. exists (i2 :: l, s', w'). split; [constructor|].
      split_and!; [done|done|by eapply rest_ok_tail|done].
    + destruct (Hok 0%nat i eq_refl) as [Ht _]. rewrite not_terminator_targets; [by eexists|].
      destruct (terminator i); [|done]. specialize (Ht eq_refl). cbn in Ht. lia.
Qed.
End shortcut.

(** ** The whole *)

(** C2: register allocation keeps what a function does. Let a function be as
    [liveness_analysis] relies on, its instructions mean anything, its values
    be read and written by number: [liveness_analysis] and
    [finalize_call_args] give a program that stops with the same result from
    the same block, when its values are read from and written to their
    registers in a frame, if the frame holds the arguments of the function and
    no temporary is live at the block. *)
Theorem register_allocation_correct qsort vs ffv bbs edges F base num :
  (∀ l, qsort l ≡ₚ l) → func_ok vs ffv bbs edges → args_ok vs ffv base num → frame_ok vs bbs F →
  0 <= F → F + 16 * (Z.of_nat (vs_next vs) - ffv) + 400 < 2 ^ 31 →
  ∃ nodes live r bbs' edges' vs1 size vs2, let total := size + num * 4 in
    liveness_sets vs ffv bbs = Ok (nodes, live) ∧
    liveness_analysis qsort vs ffv bbs edges F = Ok (bbs', edges', vs1, size) ∧
    finalize_call_args vs1 size base num = Ok (vs2, total) ∧
    ∀ (W : Type) (sem : meaning W) cst rf ρ m w id bb j,
      bb_find bbs id = Some bb → bb_first (bb_firsts bbs 0) id = Ok j →
      (∀ y, 0 <= y → ¬ live_at nodes (bb_firsts bbs 0) ffv j y) →
      0 <= rf + F → rf + total <= mem_size m → Mem.mem_ok m →
      (∀ x iv, index_ok x → value_get vs x = Ok iv → ¬ is_temporary iv →
         st_rd (frame_ops vs2 cst rf) m x = Ok (ρ x)) →
      ∃ bb', bb_find bbs' (r id) = Some bb' ∧ ∀ w',
        halts (step (env_ops vs) sem bbs) (ib_instrs bb, ρ, w) w' ↔
        halts (step (frame_ops vs2 cst rf) sem bbs') (ib_instrs bb', m, w) w'.
Proof.
  intros Hq Hok Hargs Hfx HF Hsmall.
  destruct (frame_spec qsort vs ffv bbs edges F base num Hq Hok Hargs HF Hsmall)
    as (nodes & live & f & r & bbs1 & bbs' & edges' & vs1 & size & vs2 & H1 & H2 & H3 & Hf).
  destruct Hf as [Hlive Hneg Hbl Hcfg Hsc _ Hpl].
  exists nodes, live, r, bbs', edges', vs1, size, vs2. split_and!; [done|done|done|].
  intros W sem cst rf ρ m w id bb j Hbb Hj Hnl Hrf HM Hm Hρ.
  pose proof (coalesced_find _ _ _ _ id Hbl) as Hc. rewrite Hbb in Hc.
  destruct (bb_find bbs1 id) as [b1|] eqn:Hb1; [|done].
  assert (∀ b, b ∈ bbs1 → block_wf b) as Hwf1.
  { intros b [i Hi]%list_elem_of_lookup. destruct (Forall2_lookup_r _ _ _ _ _ Hbl Hi) as (b0 & Hb0 & Hbc).
    eapply coalesced_wf; [|exact Hbc]. apply (fo_wf _ _ _ _ Hok). by eapply list_elem_of_lookup_2. }
  destruct (enter_short (frame_ops vs2 cst rf) sem bbs1 bbs' edges r Hcfg Hwf1 Hsc id m w)
    as (b1' & bb' & E1 & E2 & Hs); [apply Hsc; by eexists|]. rewrite Hb1 in E1. injection E1 as <-.
  exists bb'. split; [done|]. intros w'.
  rewrite <- (simulation_halts _ _ _
    (short_step (frame_ops vs2 cst rf) sem bbs1 bbs' edges r Hcfg Hwf1 Hsc) _ _ w' Hs).
  apply (simulation_halts _ _ _ (same_step vs ffv bbs edges F Hok Hfx nodes live Hlive f Hneg vs2 _ Hpl
    cst rf (mem_size m) Hrf HM bbs1 Hbl sem)).
  split; [done|]. split; [apply Hc|].
  destruct (block_nodes vs ffv bbs edges Hok nodes live Hlive id bb Hbb) as (j' & Hj' & Hat).
  rewrite Hj in Hj'. injection Hj' as <-. exists j. cbn [fst snd]. split; [done|].
  split; [done|done| |].
  - intros x [_ [H0 _]] [_ Hx]. by apply Hnl in Hx.
  - intros x iv Hx Hiv Ht. rewrite (proj1 (pl_other _ _ _ _ _ _ _ Hpl x iv Hx Hiv Ht)). by eapply Hρ.
Qed.

(** [example_fn] sums, compares and calls: the argument of the call is the
    result. *)
Definition example_meaning : meaning (list Z) := λ i xs w,
  match i, xs with
  | IR_IC_BINOP _ _ _ _, [a; b] => Some ([a + b], w, Next)
  | IR_IC_CMP_BRANCH _ _ _ _ _, [a; b] => Some ([], w, Jump (if a <? b then 0 else 1))
  | IR_IC_CALL _ _, _ :: args => Some ([], w ++ args, Next)
  | IR_IC_RET _, _ => Some ([], w, Stop)
  | _, _ => None
  end.
Definition example_cst (v : Z) : Z := if v =? 2 then 5 else v.
Definition example_frame : memory := mk_mem 64 ∅.

Lemma example_fn_frame : frame_ok example_fn_vs example_fn 8.
Proof.
  assert (∀ b i, b ∈ example_fn → i ∈ ib_instrs b →
    instr_ret i = no_ret ∨ ∃ v, instr_ret i = example_rv v ∧ (v = 3 ∨ v = 4 ∨ v = 5)) as Hret.
  { intros b i Hb Hi. unfold example_fn in Hb. repeat (apply elem_of_cons in Hb as [->|Hb]);
      [| | | |by apply not_elem_of_nil in Hb]; cbn in Hi; repeat (apply elem_of_cons in Hi as [->|Hi]);
      try (by apply not_elem_of_nil in Hi); cbn; (by left) || (right; eexists; split; [reflexivity|tauto]). }
  split.
  - intros b i rets ret Hb Hi. destruct (Hret b i Hb Hi) as [->|(v & -> & Hv)]; cbn; intros Hr Hin.
    + injection Hr as <-. by apply not_elem_of_nil in Hin.
    + assert (rets = [example_vt v]) as -> by (destruct Hv as [->|[->| ->]]; by injection Hr as <-).
      apply list_elem_of_singleton in Hin as ->. destruct Hv as [->|[->| ->]]; by eexists.
  - intros b v d rets ret iv iw Hb Hi Hd. destruct (Hret b _ Hb Hi) as [E|(x & E & Hx)]; cbn in E; subst d; cbn in Hd; lia.
  - intros k iv r w Hk Hiv Hc. exfalso. unfold index_ok in Hk. unfold value_get in Hiv.
    rewrite wrap_small in Hiv by lia. apply bind_Ok in Hiv as (o & Ho%oget_Ok & Hiv%oget_Ok). subst o.
    apply list_elem_of_lookup_2 in Ho. cbn in Ho. repeat (apply elem_of_cons in Ho as [Ho|Ho]; [injection Ho as ->; discriminate Hc|]).
    by apply not_elem_of_nil in Ho.
Qed.

Lemma example_fn_entry nodes live y :
  liveness_sets example_fn_vs 3 example_fn = Ok (nodes, live) → 0 <= y →
  ¬ live_at nodes (bb_firsts example_fn 0) 3 0 y.
Proof.
  intros H Hy Hl.
  destruct (liveness_sets_spec example_fn_vs 3 example_fn (fo_body _ _ _ _ example_fn_ok)) as (n' & l' & H' & Hr).
  rewrite H in H'. injection H' as <- <-.
  pose proof (live_at_temp _ _ _ _ example_fn_ok _ _ Hr 0 y Hy Hl) as Ht. unfold temp in Ht. simpl in Ht.
  assert (∃ nd, nodes !! 0%nat = Some nd) as [nd Hnd] by (vm_compute in H; injection H as <- _; by eexists).
  apply (lr_live _ _ _ _ _ Hr 0 nd y Hnd) in Hl; [|unfold bit_range; vm_compute setwords_of; lia].
  vm_compute in H. injection H as _ <-. assert (y = 0 ∨ y = 1 ∨ y = 2) as [->|[->| ->]] by lia; discriminate Hl.
Qed.

Lemma register_allocation_correct_witness :
  ∃ bbs' edges' vs1 size vs2 bb',
    liveness_analysis (λ l, l) example_fn_vs 3 example_fn example_fn_edges 8 = Ok (bbs', edges', vs1, size) ∧
    finalize_call_args vs1 size 5 1 = Ok (vs2, size + 1 * 4) ∧ bb' ∈ bbs' ∧
    halts (step (frame_ops vs2 example_cst 0) example_meaning bbs') (ib_instrs bb', example_frame, []) [15].
Proof.
  destruct (register_allocation_correct (λ l, l) example_fn_vs 3 example_fn example_fn_edges 8 5 1)
    as (nodes & live & r & bbs' & edges' & vs1 & size & vs2 & H1 & H2 & H3 & H);
    [done|exact example_fn_ok|exact example_fn_args|exact example_fn_frame|lia|simpl; lia|].
  destruct (H (list Z) example_meaning example_cst 0 example_cst example_frame [] 1
    (mk_bb 1 [IR_IC_MOVE (example_vt 0) (example_rv 3); IR_IC_BR (example_vt (-1)) 2 0]) 0%nat)
    as (bb' & Hbb' & Hhalt); [reflexivity|reflexivity| |lia| | | |].
  - intros y Hy. by eapply example_fn_entry.
  - vm_compute in H2. injection H2 as _ _ _ <-. simpl. lia.
  - intros a. unfold mem_byte, example_frame. cbn [mem_data]. rewrite lookup_empty. cbn. lia.
  - intros x iv Hx Hiv Ht. vm_compute in H2. injection H2 as _ _ <- <-. vm_compute in H3. injection H3 as <-.
    unfold index_ok in Hx. cbn [st_rd frame_ops]. unfold value_get in *. rewrite wrap_small in * by lia.
    assert (x = 0 ∨ x = 1 ∨ x = 2 ∨ x = 3 ∨ x = 4 ∨ x = 5 ∨ 6 <= x) as Hx' by lia.
    destruct Hx' as [->|[->|[->|[->|[->|[->|Hx']]]]]]; cbn in Hiv |- *;
      [reflexivity..| | | |]; try (injection Hiv as <-; by destruct Ht).
    apply bind_Ok in Hiv as (o & Ho%oget_Ok & _). apply lookup_lt_Some in Ho. simpl in Ho. lia.
  - exists bbs', edges', vs1, size, vs2, bb'. split; [exact H2|]. split; [exact H3|].
    split; [by apply bb_find_Some in Hbb' as [_ ?]|]. apply Hhalt. exists 20%nat. by vm_compute.
Defined.
