(* ===== verification/DeadCode.v ===== *)
(** Dead code: [eliminate_dead_code_in_bb] and [eliminate_dead_code] of
    [src/src/vmir_transform.c]. Instructions whose result nothing reads,
    blocks nothing leads to, and branches between blocks that can be one. *)
From stdpp Require Import relations.
From S2P Require Import Prelude Support Types Values Instr Cfg Liveness RegAlloc Coalesce Machine.
Local Open Scope Z_scope.

(** ** In a block *)

(** An input is bound to the values an instruction reads: whether one of
    [output->iv_instructions] has the relation [IVI_INPUT]. *)
Definition reads (v : Z) (i : ir_instr) : bool :=
  match gen_values i with Ok l => existsb (λ x, vt_value x =? v) l | Fail _ => false end.
Definition is_read (bbs : list ir_bb) (v : Z) : bool :=
  existsb (λ bb, existsb (reads v) (ib_instrs bb)) bbs.

(** The classes that are never removed, and results that are. *)
Definition kept_class (i : ir_instr) : bool :=
  match i with IR_IC_VMOP _ _ | IR_IC_VAARG _ _ | IR_IC_CALL _ _ | IR_IC_INVOKE _ _ => true | _ => false end.
Definition removable (i : ir_instr) : bool :=
  let ret := vt_value (ii_ret (instr_ret i)) in
  negb ((ret =? -1) || kept_class i) && negb (ret <? 1).

(** The [k]-th instruction of block [id]. *)
Definition dead_at (id : Z) (s : list ir_bb * value_state) (k : nat) : res (list ir_bb * value_state) :=
  let '(bbs, vs) := s in
  bb ← oget (bb_find bbs id) Undef;
  ii ← oget (ib_instrs bb !! k) Undef;
  let ret := vt_value (ii_ret (instr_ret ii)) in
  if (ret =? -1) || kept_class ii then Ok s else
  if ret <? 1 then Ok s else
  output ← value_get vs ret;
  if is_read bbs ret then Ok s else
  Ok (bb_write bbs (mk_bb id (delete k (ib_instrs bb))), value_set vs ret (set_class output IR_VC_DEAD)).

Definition eliminate_dead_code_in_bb (s : list ir_bb * value_state) (id : Z)
    : res (list ir_bb * value_state) :=
  bb ← oget (bb_find s.1 id) Undef;
  foldR (dead_at id) s (reverse (seq 0 (length (ib_instrs bb)))).

(** ** Over the blocks *)

Notation dc_state := (list ir_bb * list edge * value_state)%type.

Section blocks.
Context (fuel : nat).

(** Moving the instructions of a block to its own end, as long as there are
    any. *)
Fixpoint move_self (fuel : nat) (l : list ir_instr) : res (list ir_instr) :=
  match fuel with
  | O => Fail NoFuel
  | S fuel => match l with [] => Ok [] | i :: l => move_self fuel (l ++ [i]) end
  end.

(** Block [id] goes to the end of [from], which only branches to it. *)
Definition merge_blocks (bbs : list ir_bb) (edges : list edge) (from id : Z)
    : res (list ir_bb * list edge) :=
  fb ← oget (bb_find bbs from) Undef;
  let fb := mk_bb from (removelast (ib_instrs fb)) in
  let bbs := bb_write bbs fb in
  let edges := filter (λ e, e ≠ (from, id)) edges in
  _ ← check (bool_decide (filter (λ e : edge, e.1 = from) edges = [])) AssertFail;
  ib ← oget (bb_find bbs id) Undef;
  bbs ← (if from =? id then l ← move_self fuel (ib_instrs ib); Ok (bb_write bbs (mk_bb id l))
         else Ok (bb_write bbs (mk_bb from (ib_instrs fb ++ ib_instrs ib))));
  let edges := map (λ e, (retarget id from e.1, e.2)) edges in
  Ok (bb_destroy bbs edges id).

(** The body of the loop of [eliminate_dead_code]. *)
Definition dead_block (s : dc_state) (id : Z) : res dc_state :=
  let '(bbs, edges, vs) := s in
  match filter (λ e : edge, e.2 = id) edges with
  | [] => Ok (bb_destroy bbs edges id, vs)
  | (from, _) :: more =>
      '(bbs, vs) ← eliminate_dead_code_in_bb (bbs, vs) id;
      match more with
      | _ :: _ => Ok (bbs, edges, vs)
      | [] =>
          fb ← oget (bb_find bbs from) Undef;
          last ← bb_last fb;
          match last with
          | IR_IC_BR c _ _ =>
              if vt_value c =? -1 then s ← merge_blocks bbs edges from id; Ok (s, vs)
              else Ok (bbs, edges, vs)
          | _ => Ok (bbs, edges, vs)
          end
      end
  end.

Definition eliminate_dead_code (bbs : list ir_bb) (edges : list edge) (vs : value_state) : res dc_state :=
  match bbs with
  | [] => Ok (bbs, edges, vs)
  | entry :: _ =>
      '(bbs, vs) ← eliminate_dead_code_in_bb (bbs, vs) (ib_id entry);
      foldR dead_block (bbs, edges, vs) (tail (map ib_id bbs))
  end.
End blocks.

(** ** What is assumed *)

Definition edge_of (edges : list edge) (a b : Z) : Prop := (a, b) ∈ edges.

(** The control flow graph of a function that starts at block [entry]: its
    edges are the branches, each once; a block that leads back to itself can be
    reached. *)
Record flow_ok (bbs : list ir_bb) (edges : list edge) (entry : Z) : Prop := {
  fl_nodup : NoDup (map ib_id bbs);
  fl_entry : is_Some (bb_find bbs entry);
  fl_wf : ∀ b, b ∈ bbs → block_wf b;
  fl_edges : ∀ a b, (a, b) ∈ edges ↔
    ∃ ba i, bb_find bbs a = Some ba ∧ bb_last ba = Ok i ∧ b ∈ targets i;
  fl_targets : ∀ a b, (a, b) ∈ edges → is_Some (bb_find bbs b);
  fl_once : NoDup edges;
  fl_loops : ∀ id, tc (edge_of edges) id id → rtc (edge_of edges) entry id;
}.

Section machine.
Context (vs : value_state) {W : Type} (sem : meaning W).
Notation env := (env_ops vs).

(** An instruction that may be removed only gives its result. *)
Definition instr_ok (i : ir_instr) : Prop :=
  (∃ l, gen_values i = Ok l) ∧
  (removable i = true →
     (∃ iv sz, value_get vs (vt_value (ii_ret (instr_ret i))) = Ok iv ∧
        value_regframe_size (iu_types (vs_types vs)) (iv_type iv) = Ok sz) ∧
     ∀ l xs w, gen_values i = Ok l → length xs = length l →
       ∃ x, sem (shape i) xs w = Some ([x], w, Next)).

Definition code_ok (bbs : list ir_bb) : Prop := ∀ b i, b ∈ bbs → i ∈ ib_instrs b → instr_ok i.

(** From block [entry] the function stops with [w']. *)
Definition behaves (entry : Z) (bbs : list ir_bb) (ρ : Z → Z) (w w' : W) : Prop :=
  ∃ bb, bb_find bbs entry = Some bb ∧ halts (step env sem bbs) (ib_instrs bb, ρ, w) w'.

Definition same_behaviour (entry : Z) (bbs bbs' : list ir_bb) : Prop :=
  ∀ ρ w w', behaves entry bbs ρ w w' ↔ behaves entry bbs' ρ w w'.

#[export] Instance same_behaviour_equiv entry : Equivalence (same_behaviour entry).
Proof.
  split.
  - by intros bbs ρ w w'.
  - intros bbs bbs' H ρ w w'. symmetry. apply H.
  - intros b1 b2 b3 H1 H2 ρ w w'. etransitivity; [apply H1|apply H2].
Qed.

(** ** An instruction whose result is not read *)

(** [l'] is [l] without some occurrences of [d]. *)
Inductive erased (d : ir_instr) : list ir_instr → list ir_instr → Prop :=
  | er_nil : erased d [] []
  | er_keep i l l' : erased d l l' → erased d (i :: l) (i :: l')
  | er_drop l l' : erased d l l' → erased d (d :: l) l'.

Lemma erased_refl d l : erased d l l.
Proof. induction l; by constructor. Qed.

Lemma erased_delete d l k : l !! k = Some d → erased d l (delete k l).
Proof.
  revert k; induction l as [|i l IH]; intros [|k] H; try done.
  - injection H as ->. constructor. apply erased_refl.
  - change (delete (S k) (i :: l)) with (i :: delete k l). by constructor; apply IH.
Qed.

Lemma erased_elem d l l' i : erased d l l' → i ∈ l' → i ∈ l.
Proof.
  induction 1 as [|j l l' _ IH|l l' _ IH]; rewrite ?elem_of_cons; [done| |auto]. intros [->|?]; auto.
Qed.

Lemma erased_last d l i l' :
  i ≠ d → erased d (l ++ [i]) l' → ∃ l1, l' = l1 ++ [i] ∧ ∀ j, j ∈ l1 → j ∈ l.
Proof.
  intros Hne. revert l'; induction l as [|j l IH]; intros l' H; cbn in H.
  - inversion H as [|? ? l1 H1|? l1 H1]; subst; [|done]. inversion H1; subst.
    exists []. split; [done|]. by intros ? ?%not_elem_of_nil.
  - inversion H as [|? ? l1 H1|? l1 H1]; subst; destruct (IH _ H1) as (l2 & -> & Hl2).
    + exists (j :: l2). split; [done|]. intros x. rewrite !elem_of_cons. intros [?|?]; auto.
    + exists l2. split; [done|]. intros x Hx. apply elem_of_cons. auto.
Qed.

Definition erased_block (d : ir_instr) (b b' : ir_bb) : Prop :=
  ib_id b = ib_id b' ∧ erased d (ib_instrs b) (ib_instrs b').

(** Both programs have a block or none has. *)
Lemma Forall2_find (P : ir_bb → ir_bb → Prop) bbs bbs' id :
  Forall2 (λ b b', ib_id b = ib_id b' ∧ P b b') bbs bbs' →
  match bb_find bbs id, bb_find bbs' id with
  | Some b, Some b' => P b b'
  | None, None => True
  | _, _ => False
  end.
Proof.
  induction 1 as [|b b' l l' [Hb HP] _ IH]; [done|]. rewrite !bb_find_cons, <- Hb.
  by destruct (decide (ib_id b = id)).
Qed.

Lemma Forall2_ids (P : ir_bb → ir_bb → Prop) bbs bbs' :
  Forall2 (λ b b', ib_id b = ib_id b' ∧ P b b') bbs bbs' → map ib_id bbs' = map ib_id bbs.
Proof. induction 1 as [|b b' l l' [Hb _] _ IH]; cbn; congruence. Qed.

Lemma removable_spec i :
  removable i = true → terminator i = false ∧ targets i = [] ∧ kept_class i = false ∧
    ret_values (instr_ret i) = Ok [ii_ret (instr_ret i)] ∧ 1 <= vt_value (ii_ret (instr_ret i)).
Proof.
  unfold removable. intros [[H1 H2]%negb_true_iff%orb_false_iff H3%negb_true_iff%Z.ltb_ge]%andb_true_iff.
  assert (terminator i = false) as Ht by (destruct i; done). split; [done|].
  split; [by apply not_terminator_targets|]. split_and!; [done| |done].
  unfold ret_values. by rewrite (proj2 (Z.ltb_ge _ _)), H1 by lia.
Qed.

(** Instructions that do not read [v] do the same when only [v] differs. *)
Definition off (v : Z) (ρ ρ' : Z → Z) : Prop := ∀ y, y ≠ v → ρ y = ρ' y.

Lemma off_write v ρ ρ' x y :
  off v ρ ρ' →
  match st_wr env ρ x y with
  | Ok ρ1 => ∃ ρ1', st_wr env ρ' x y = Ok ρ1' ∧ off v ρ1 ρ1'
  | Fail e => st_wr env ρ' x y = Fail e
  end.
Proof.
  intros Hoff. cbn [st_wr env_ops]. destruct (value_get vs x) as [iv|]; [|done]. rok.
  destruct (value_regframe_size _ _); [|done]. rok. eexists. split; [done|].
  intros z Hz. destruct (z =? x); [done|by apply Hoff].
Qed.

Lemma off_write_all v rets outs ρ ρ' :
  off v ρ ρ' →
  match write_all env ρ rets outs with
  | Ok ρ1 => ∃ ρ1', write_all env ρ' rets outs = Ok ρ1' ∧ off v ρ1 ρ1'
  | Fail e => write_all env ρ' rets outs = Fail e
  end.
Proof.
  unfold write_all. revert ρ ρ'; induction (zip rets outs) as [|p l IH]; intros ρ ρ' Hoff; cbn [foldR]; [eauto|].
  pose proof (off_write v ρ ρ' (vt_value p.1) p.2 Hoff) as H.
  destruct (st_wr env ρ (vt_value p.1) p.2) as [ρ1|]; [|by rewrite H].
  destruct H as (ρ1' & -> & Hoff1). by apply IH.
Qed.

Lemma off_exec v i ρ ρ' w :
  off v ρ ρ' → reads v i = false → (∃ l, gen_values i = Ok l) →
  match exec_instr env sem i ρ w with
  | Ok (ρ1, w1, c) => ∃ ρ1', exec_instr env sem i ρ' w = Ok (ρ1', w1, c) ∧ off v ρ1 ρ1'
  | Fail e => exec_instr env sem i ρ' w = Fail e
  end.
Proof.
  intros Hoff Hr [l Hl]. unfold reads in Hr. rewrite Hl in Hr.
  assert (∀ x, x ∈ l → ρ (vt_value x) = ρ' (vt_value x)) as Hx.
  { intros x Hx. apply Hoff. intros E. rewrite <- not_true_iff_false, existsb_exists in Hr. apply Hr.
    exists x. rewrite <- list_elem_of_In. split; [done|by apply Z.eqb_eq]. }
  assert (match exec_any env sem i ρ w with
    | Ok (ρ1, w1, c) => ∃ ρ1', exec_any env sem i ρ' w = Ok (ρ1', w1, c) ∧ off v ρ1 ρ1'
    | Fail e => exec_any env sem i ρ' w = Fail e end) as Hany.
  { unfold exec_any. rewrite Hl. rok. clear Hl Hr.
    assert (mapR (λ x, st_rd env ρ (vt_value x)) l = Ok (map (λ x, ρ (vt_value x)) l)) as -> by (by apply mapR_map).
    assert (mapR (λ x, st_rd env ρ' (vt_value x)) l = Ok (map (λ x, ρ (vt_value x)) l)) as ->
      by (apply mapR_map; intros x Hx'; cbn; by rewrite Hx).
    rok. destruct (sem (shape i) _ w) as [[[outs w1] c]|]; [|done]. rok.
    destruct (ret_values (instr_ret i)) as [rets|]; [|done]. rok. case_bool_decide; [|done]. rok.
    pose proof (off_write_all v rets outs ρ ρ' Hoff) as H'.
    destruct (write_all env ρ rets outs) as [ρ1|]; [|by rewrite H'].
    destruct H' as (ρ1' & -> & Hoff1). rok. eauto. }
  destruct i; try exact Hany; cbn [exec_instr].
  - destruct (_ =? -1); [|exact Hany]. eauto.
  - destruct (0 <=? _); [|exact Hany]. cbn [gen_values] in Hl. injection Hl as <-.
    cbn [st_rd env_ops]. rok. rewrite <- (Hx value) by (by apply elem_of_cons; left).
    pose proof (off_write v ρ ρ' (vt_value (ii_ret ret)) (ρ (vt_value value)) Hoff) as H'.
    destruct (st_wr env ρ _ _) as [ρ1|]; [|by rewrite H']. destruct H' as (ρ1' & -> & ?). rok. eauto.
Qed.

(** Removing the instruction [d] from some blocks. *)
Lemma is_read_none bbs v b i : is_read bbs v = false → b ∈ bbs → i ∈ ib_instrs b → reads v i = false.
Proof.
  intros H Hb Hi. unfold is_read in H. rewrite <- not_true_iff_false, existsb_exists in H.
  destruct (reads v i) eqn:E; [|done]. destruct H. exists b. rewrite <- list_elem_of_In. split; [done|].
  apply existsb_exists. exists i. by rewrite <- list_elem_of_In.
Qed.

Section erase.
Context (bbs bbs' : list ir_bb) (d : ir_instr).
Notation v := (vt_value (ii_ret (instr_ret d))).
Context (Hbbs : Forall2 (erased_block d) bbs bbs') (Hcode : code_ok bbs).
Context (Hd : removable d = true) (Hdok : instr_ok d) (Hv : is_read bbs v = false).

Notation state := (list ir_instr * (Z → Z) * W)%type.

Definition erased_state (a b : state) : Prop :=
  a.2 = b.2 ∧ off v a.1.2 b.1.2 ∧ erased d a.1.1 b.1.1 ∧
  ∀ i, i ∈ a.1.1 → instr_ok i ∧ reads v i = false.

Lemma block_code b i : b ∈ bbs → i ∈ ib_instrs b → instr_ok i ∧ reads v i = false.
Proof. intros Hb Hi. split; [by eapply Hcode|by eapply is_read_none]. Qed.

(** The removed instruction only writes its result. *)
Lemma exec_dead ρ w : ∃ ρ', exec_instr env sem d ρ w = Ok (ρ', w, Next) ∧ ∀ y, y ≠ v → ρ' y = ρ y.
Proof.
  destruct (removable_spec d Hd) as (Ht & _ & _ & Hr & H1). destruct Hdok as [[l Hl] Hpure].
  destruct (Hpure Hd) as [(iv & sz & Hiv & Hsz) Hsem].
  assert (∀ x, st_wr env ρ v x = Ok (λ y, if y =? v then x mod 2 ^ (8 * sz) else ρ y)) as Hwr.
  { intros x. cbn [st_wr env_ops]. rewrite Hiv. rok. by rewrite Hsz. }
  assert (∀ x y, y ≠ v → (if y =? v then x mod 2 ^ (8 * sz) else ρ y) = ρ y) as Hoff
    by (intros x y Hy; by rewrite (proj2 (Z.eqb_neq _ _))).
  assert (∃ ρ', exec_any env sem d ρ w = Ok (ρ', w, Next) ∧ ∀ y, y ≠ v → ρ' y = ρ y) as Hany.
  { unfold exec_any. rewrite Hl. rok.
    assert (mapR (λ x, st_rd env ρ (vt_value x)) l = Ok (map (λ x, ρ (vt_value x)) l)) as -> by (by apply mapR_map).
    rok. destruct (Hsem l (map (λ x, ρ (vt_value x)) l) w Hl (length_map _ _)) as (x & ->). rok. rewrite Hr. rok.
    rewrite bool_decide_eq_true_2 by done. rok. unfold write_all. cbn [zip zip_with foldR fst snd].
    rewrite Hwr. rok. eexists. split; [done|]. apply Hoff. }
  destruct d; try exact Hany; cbn [exec_instr]; [done|]. cbn [instr_ret] in *.
  rewrite (proj2 (Z.leb_le _ _)) by lia. cbn [st_rd env_ops]. rok. rewrite Hwr. rok.
  eexists. split; [done|]. apply Hoff.
Qed.

Lemma erased_step a b :
  erased_state a b → ∃ a1, steps (step env sem bbs) a a1 ∧
    lockstep (step env sem bbs) (step env sem bbs') erased_state a1 b.
Proof.
  destruct a as [[l ρ] w], b as [[l' ρ'] w']. intros (Hw & Hoff & Her & Hin). cbn [fst snd] in *. subst w'.
  revert ρ Hoff. induction Her as [|i l l' Her _|l l' Her IH]; intros ρ Hoff.
  - exists ([], ρ, w). split; [constructor|]. by eexists.
  - exists (i :: l, ρ, w). split; [constructor|]. destruct (Hin i) as [[Hg _] Hr]; [apply elem_of_cons; by left|].
    pose proof (off_exec v i ρ ρ' w Hoff Hr Hg) as Hex. unfold lockstep, step.
    destruct (exec_instr env sem i ρ w) as [[[ρ1 w1] c]|]; [|rewrite Hex; rok; eauto].
    destruct Hex as (ρ1' & -> & Hoff1). rok. destruct c as [|c|]; [| |done].
    + eexists. split; [done|]. split_and!; [done|done|done|]. intros j Hj. apply Hin, elem_of_cons. by right.
    + destruct (targets i !! c) as [t|]; [|by eexists]. rok. unfold enter.
      pose proof (Forall2_find _ _ _ t Hbbs) as Hf. destruct (bb_find bbs t) as [bt|] eqn:Et;
        destruct (bb_find bbs' t) as [bt'|]; try done; rok; [|by eexists].
      eexists. split; [done|]. split_and!; [done|done|done|]. cbn [fst]. intros j Hj.
      eapply block_code; [|exact Hj]. by apply bb_find_Some in Et as [_ ?].
  - destruct (exec_dead ρ w) as (ρ1 & Hex & Hρ1). destruct (IH (λ j Hj, Hin j (proj2 (elem_of_cons _ _ _) (or_intror Hj))) ρ1) as (a1 & Hs & Hl).
    { intros y Hy. rewrite Hρ1 by done. by apply Hoff. }
    exists a1. split; [|done]. eapply steps_cons; [|exact Hs]. unfold step. by rewrite Hex.
Qed.

Lemma erase_behaves entry : same_behaviour entry bbs bbs'.
Proof.
  intros ρ w w'. unfold behaves. pose proof (Forall2_find _ _ _ entry Hbbs) as Hf.
  destruct (bb_find bbs entry) as [b|] eqn:Eb, (bb_find bbs' entry) as [b'|]; try done;
    [|split; by intros (? & ? & _)].
  assert (halts (step env sem bbs) (ib_instrs b, ρ, w) w' ↔ halts (step env sem bbs') (ib_instrs b', ρ, w) w') as Hh.
  { apply (simulation_halts _ _ _ erased_step). split_and!; [done|done|exact Hf|]. cbn [fst]. intros i Hi.
    eapply block_code; [|exact Hi]. by apply bb_find_Some in Eb as [_ ?]. }
  split; intros (? & [= <-] & H); eexists; (split; [done|]); by apply Hh.
Qed.

Lemma erase_wf b b' : block_wf b → erased_block d b b' → block_wf b' ∧ bb_last b' = bb_last b.
Proof.
  intros (l & i & E & Ht & Hl) [_ He]. rewrite E in He. destruct (removable_spec d Hd) as (Htd & _).
  destruct (erased_last d l i _ ltac:(congruence) He) as (l1 & E1 & H1). split.
  - exists l1, i. split_and!; [done|done|]. intros j Hj. by apply Hl, H1.
  - by rewrite (block_last _ _ _ E), (block_last _ _ _ E1).
Qed.

Lemma erase_flow edges entry : flow_ok bbs edges entry → flow_ok bbs' edges entry.
Proof.
  intros [H1 H2 H3 H4 H5 H6 H7].
  assert (∀ id, match bb_find bbs id, bb_find bbs' id with
    | Some b, Some b' => bb_last b' = bb_last b | None, None => True | _, _ => False end) as Hlast.
  { intros id. pose proof (Forall2_find _ _ _ id Hbbs) as Hf.
    destruct (bb_find bbs id) as [b|] eqn:Eb, (bb_find bbs' id) as [b'|] eqn:Eb'; try done.
    apply erase_wf; [apply H3; by apply bb_find_Some in Eb as [_ ?]|]. split; [|done].
    by rewrite (proj1 (bb_find_Some _ _ _ Eb)), (proj1 (bb_find_Some _ _ _ Eb')). }
  assert (∀ id, is_Some (bb_find bbs id) → is_Some (bb_find bbs' id)) as Hsome.
  { intros id [b Hb]. specialize (Hlast id). rewrite Hb in Hlast. by destruct (bb_find bbs' id). }
  split; [by rewrite (Forall2_ids _ _ _ Hbbs)|by apply Hsome| | |by eauto|done|done].
  - intros b' [k Hk]%list_elem_of_lookup. destruct (Forall2_lookup_r _ _ _ _ _ Hbbs Hk) as (b & Hb & He).
    apply (erase_wf b); [|done]. apply H3. by eapply list_elem_of_lookup_2.
  - intros a b. rewrite H4. specialize (Hlast a).
    destruct (bb_find bbs a) as [ba|], (bb_find bbs' a) as [ba'|]; try done.
    split; intros (? & i & [= <-] & Hi & Hb); eexists _, i; (split; [done|split; [congruence|done]]).
Qed.

Lemma erase_code : code_ok bbs'.
Proof.
  intros b' i [k Hk]%list_elem_of_lookup Hi. destruct (Forall2_lookup_r _ _ _ _ _ Hbbs Hk) as (b & Hb & _ & He).
  eapply Hcode; [by eapply list_elem_of_lookup_2|]. by eapply erased_elem.
Qed.
End erase.

(** ** [eliminate_dead_code_in_bb] *)

Lemma bb_write_erased bbs id bb l d :
  NoDup (map ib_id bbs) → bb_find bbs id = Some bb → erased d (ib_instrs bb) l →
  Forall2 (erased_block d) bbs (bb_write bbs (mk_bb id l)) ∧
  bb_find (bb_write bbs (mk_bb id l)) id = Some (mk_bb id l).
Proof.
  intros Hnd Hf He. split.
  - pose proof (bb_find_Some _ _ _ Hf) as [Hid _]. unfold bb_write. cbn [ib_id].
    induction bbs as [|b bbs IH]; [done|]. cbn [map]. rewrite bb_find_cons in Hf.
    apply list.NoDup_cons in Hnd as [Hn Hnd]. constructor.
    + destruct (Z.eqb_spec (ib_id b) id) as [E|E]; [|by split; [|apply erased_refl]].
      rewrite decide_True in Hf by done. injection Hf as ->. by split.
    + destruct (decide (ib_id b = id)) as [E|E]; [|by apply IH].
      assert (∀ b', b' ∈ bbs → ib_id b' ≠ id) as Hb'.
      { intros b' Hb' E'. apply Hn. rewrite E, <- E'. apply list_elem_of_fmap. by exists b'. }
      clear -Hb'. induction bbs as [|b' bbs IH]; cbn [map]; constructor.
      * rewrite (proj2 (Z.eqb_neq _ _)) by (apply Hb', elem_of_cons; by left). split; [done|apply erased_refl].
      * apply IH. intros x Hx. apply Hb', elem_of_cons. by right.
  - unfold bb_write. cbn [ib_id]. clear Hnd He. induction bbs as [|b bbs IH]; [done|]. cbn [map].
    rewrite bb_find_cons in Hf |- *. destruct (Z.eqb_spec (ib_id b) id) as [E|E].
    + by rewrite decide_True.
    + rewrite decide_False in Hf by done. rewrite decide_False by done. by apply IH.
Qed.

Definition vs_ok (vs' : value_state) : Prop := ∀ k iv, value_get vs k = Ok iv → ∃ iv', value_get vs' k = Ok iv'.

Lemma vs_ok_set vs' k iv : vs_ok vs' → vs_ok (value_set vs' k iv).
Proof.
  intros H j iv0 Hj. destruct (H j iv0 Hj) as [iv' Hiv']. unfold value_get, value_set in *. cbn [upd_values vs_values].
  apply bind_Ok in Hiv' as (o & Ho%oget_Ok & Hiv'). destruct (decide (Z.to_nat (u32 j) = Z.to_nat (u32 k))) as [E|E].
  - rewrite E in *. rewrite list_lookup_insert_eq by (by eapply lookup_lt_Some). rok. eauto.
  - rewrite list_lookup_insert_ne by done. rewrite Ho. rok. eauto.
Qed.

(** What every step keeps. *)
Record dc_inv (entry : Z) (bbs0 : list ir_bb) (s : dc_state) : Prop := {
  di_flow : flow_ok s.1.1 s.1.2 entry;
  di_code : code_ok s.1.1;
  di_same : same_behaviour entry bbs0 s.1.1;
  di_vs : vs_ok s.2;
}.

Lemma dead_at_spec entry bbs0 bbs edges vs' id bb k :
  dc_inv entry bbs0 (bbs, edges, vs') → bb_find bbs id = Some bb → (k < length (ib_instrs bb))%nat →
  ∃ bbs1 vs1 bb1, dead_at id (bbs, vs') k = Ok (bbs1, vs1) ∧ dc_inv entry bbs0 (bbs1, edges, vs1) ∧
    map ib_id bbs1 = map ib_id bbs ∧ bb_find bbs1 id = Some bb1 ∧ (k <= length (ib_instrs bb1))%nat.
Proof.
  intros Hinv Hbb Hk. pose proof Hinv as [Hflow Hcode Hsame Hvs]. cbn [fst snd] in *.
  assert (∃ bbs1 vs1 bb1, Ok (bbs, vs') = Ok (bbs1, vs1) ∧ dc_inv entry bbs0 (bbs1, edges, vs1) ∧
    map ib_id bbs1 = map ib_id bbs ∧ bb_find bbs1 id = Some bb1 ∧ (k <= length (ib_instrs bb1))%nat) as Hstay
    by (exists bbs, vs', bb; split_and!; (done || lia)).
  unfold dead_at. rewrite Hbb. rok. destruct (lookup_lt_is_Some_2 (ib_instrs bb) k Hk) as [d Hd]. rewrite Hd. rok.
  destruct (removable d) eqn:Er.
  2: { unfold removable in Er. destruct (_ || kept_class d); [exact Hstay|]. cbn [negb andb] in Er.
       destruct (_ <? 1); [exact Hstay|done]. }
  pose proof (bb_find_Some _ _ _ Hbb) as [_ Hin].
  assert (instr_ok d) as Hdok by (eapply Hcode; [exact Hin|by eapply list_elem_of_lookup_2]).
  pose proof Hdok as [_ Hp]. destruct (Hp Er) as [(iv & sz & Hiv & _) _]. destruct (Hvs _ _ Hiv) as [iv' Hiv'].
  pose proof Er as Er'. unfold removable in Er'. apply andb_true_iff in Er' as [E1%negb_true_iff E2%negb_true_iff].
  rewrite E1, E2, Hiv'. rok. destruct (is_read bbs _) eqn:Ev; [exact Hstay|].
  destruct (bb_write_erased bbs id bb (delete k (ib_instrs bb)) d) as [HF Hfind];
    [apply Hflow|done|by apply erased_delete|].
  eexists _, _, _. split; [reflexivity|]. split; [|split; [exact (Forall2_ids (λ b b', erased d (ib_instrs b) (ib_instrs b')) _ _ HF)|split; [exact Hfind|]]].
  - split; cbn [fst snd].
    + by eapply erase_flow.
    + by eapply erase_code.
    + etransitivity; [exact Hsame|]. by eapply erase_behaves.
    + by apply vs_ok_set.
  - cbn [ib_instrs]. rewrite length_delete by (by eexists). lia.
Qed.

Lemma eliminate_in_bb_spec entry bbs0 bbs edges vs' id bb :
  dc_inv entry bbs0 (bbs, edges, vs') → bb_find bbs id = Some bb →
  ∃ bbs1 vs1, eliminate_dead_code_in_bb (bbs, vs') id = Ok (bbs1, vs1) ∧
    dc_inv entry bbs0 (bbs1, edges, vs1) ∧ map ib_id bbs1 = map ib_id bbs.
Proof.
  intros Hinv Hbb. unfold eliminate_dead_code_in_bb. cbn [fst]. rewrite Hbb. rok.
  assert (length (ib_instrs bb) <= length (ib_instrs bb))%nat as Hlen by done. revert Hlen.
  generalize (length (ib_instrs bb)) at 1 3. intros m. revert bbs vs' bb Hinv Hbb.
  induction m as [|m IH]; intros bbs vs' bb Hinv Hbb Hm; [by exists bbs, vs'|].
  rewrite seq_S, reverse_app. cbn [Nat.add reverse rev_append app].
  change (reverse [m] ++ reverse (seq 0 m)) with (m :: reverse (seq 0 m)). cbn [foldR].
  destruct (dead_at_spec entry bbs0 bbs edges vs' id bb m Hinv Hbb ltac:(lia))
    as (bbs1 & vs1 & bb1 & -> & Hinv1 & Hids & Hbb1 & Hl). rok.
  destruct (IH bbs1 vs1 bb1 Hinv1 Hbb1 Hl) as (bbs2 & vs2 & Hr & Hinv2 & Hids2).
  exists bbs2, vs2. split_and!; [exact Hr|done|by rewrite Hids2].
Qed.

(** ** Blocks that nothing leads to *)

Lemma flow_target bbs edges entry b i t :
  flow_ok bbs edges entry → b ∈ bbs → i ∈ ib_instrs b → t ∈ targets i → (ib_id b, t) ∈ edges.
Proof.
  intros Hf Hb Hi Ht. apply (fl_edges _ _ _ Hf). destruct (fl_wf _ _ _ Hf b Hb) as (l & i' & E & Hti & Hl).
  exists b, i'. split; [apply bb_find_elem; [apply Hf|done]|]. split; [by eapply block_last|].
  rewrite E in Hi. apply elem_of_app in Hi as [Hi|Hi%list_elem_of_singleton]; [|congruence].
  rewrite not_terminator_targets in Ht by auto. by apply not_elem_of_nil in Ht.
Qed.

Lemma incoming_elem (edges : list edge) a id : (a, id) ∈ edges ↔ (a, id) ∈ filter (λ e : edge, e.2 = id) edges.
Proof. rewrite list_elem_of_filter. naive_solver. Qed.

Lemma tc_mono {A} (R S : relation A) x y : (∀ a b, R a b → tc S a b) → tc R x y → tc S x y.
Proof. intros H. induction 1 as [a b Hab|a b c Hab _ IH]; [by apply H|]. etransitivity; [by apply H|done]. Qed.

Section unreachable.
Context (bbs : list ir_bb) (edges : list edge) (entry id : Z).
Context (Hflow : flow_ok bbs edges entry) (Hne : id ≠ entry).
Context (Hin : filter (λ e : edge, e.2 = id) edges = []).
Notation bbs' := (bb_destroy bbs edges id).1.
Notation edges' := (bb_destroy bbs edges id).2.

Lemma no_edge_to a : (a, id) ∉ edges.
Proof. intros H. apply incoming_elem in H. rewrite Hin in H. by apply not_elem_of_nil in H. Qed.

Lemma destroy_find x : x ≠ id → bb_find bbs' x = bb_find bbs x.
Proof. intros Hx. unfold bb_destroy. cbn [fst]. by rewrite bb_find_filter, decide_False. Qed.

Lemma unreachable_step a b :
  (a = b ∧ ∀ i t, i ∈ a.1.1 → t ∈ targets i → t ≠ id) →
  ∃ a1, steps (step env sem bbs) a a1 ∧ lockstep (step env sem bbs) (step env sem bbs')
    (λ a b, a = b ∧ ∀ i t, i ∈ a.1.1 → t ∈ targets i → t ≠ id) a1 b.
Proof.
  intros [<- Ht]. exists a. split; [constructor|]. destruct a as [[l ρ] w]. cbn [fst] in Ht.
  unfold lockstep, step. destruct l as [|i l]; [by eexists|].
  destruct (exec_instr env sem i ρ w) as [[[ρ' w'] c]|]; [|by eexists]. rok. destruct c as [|c|]; [| |done].
  - eexists. split; [done|]. split; [done|]. intros j t Hj. apply Ht, elem_of_cons. by right.
  - destruct (targets i !! c) as [t|] eqn:Et; [|by eexists]. rok. unfold enter.
    rewrite destroy_find by (eapply Ht; [by apply elem_of_cons; left|by eapply list_elem_of_lookup_2]).
    destruct (bb_find bbs t) as [bt|] eqn:Eb; [|by eexists]. rok. eexists. split; [done|]. split; [done|].
    cbn [fst]. intros j x Hj Hx ->. apply bb_find_Some in Eb as [_ Hbt].
    by apply (no_edge_to (ib_id bt)), (flow_target _ _ _ _ j id Hflow).
Qed.

Lemma unreachable_behaves : same_behaviour entry bbs bbs'.
Proof.
  intros ρ w w'. unfold behaves. rewrite destroy_find by done.
  assert (∀ bb, bb_find bbs entry = Some bb → halts (step env sem bbs) (ib_instrs bb, ρ, w) w' ↔
    halts (step env sem bbs') (ib_instrs bb, ρ, w) w') as Hh.
  { intros bb Hbb. apply (simulation_halts _ _ _ unreachable_step). split; [done|]. cbn [fst].
    intros j x Hj Hx ->. apply bb_find_Some in Hbb as [_ Hbt].
    by apply (no_edge_to (ib_id bb)), (flow_target _ _ _ _ j id Hflow). }
  split; intros (bb & Hbb & H); exists bb; (split; [done|]); by apply Hh.
Qed.

Lemma destroy_edge a b : (a, b) ∈ edges' ↔ (a, b) ∈ edges ∧ a ≠ id.
Proof.
  unfold bb_destroy. cbn [snd]. rewrite list_elem_of_filter. cbn [fst snd]. split; [naive_solver|]. intros [H Ha].
  split_and!; [done| |done]. intros ->. by apply (no_edge_to a).
Qed.

Lemma unreachable_flow : flow_ok bbs' edges' entry.
Proof.
  pose proof Hflow as [H1 H2 H3 H4 H5 H6 H7]. split.
  - eapply sublist_NoDup; [exact H1|]. apply fmap_sublist, sublist_filter.
  - by rewrite destroy_find.
  - intros b Hb. apply H3. cbn in Hb. by apply list_elem_of_filter in Hb as [_ ?].
  - intros a b. rewrite destroy_edge, H4. destruct (decide (a = id)) as [->|Ha].
    + split; [naive_solver|]. intros (ba & i & Hba & _).
      unfold bb_destroy in Hba. cbn [fst] in Hba. by rewrite bb_find_filter, decide_True in Hba.
    + rewrite destroy_find by done. naive_solver.
  - intros a b [H Ha]%destroy_edge. rewrite destroy_find; [by eapply H5|]. intros ->. by apply (no_edge_to a).
  - cbn. by apply list.NoDup_filter.
  - assert (∀ x, rtc (edge_of edges) entry x → rtc (edge_of edges') entry x ∧ x ≠ id) as Hreach.
    { apply rtc_ind_r; [by split; [apply rtc_refl|apply not_eq_sym]|intros y z _ Hyz [IH Hy]]. split.
      - eapply rtc_r; [exact IH|]. by apply destroy_edge.
      - intros ->. by apply (no_edge_to y). }
    intros x Hx. apply Hreach, H7. eapply tc_mono; [|exact Hx].
    intros a b [? _]%destroy_edge. by apply tc_once.
Qed.

Lemma destroy_code : code_ok bbs → code_ok bbs'.
Proof. intros H b i Hb. cbn in Hb. apply list_elem_of_filter in Hb as [_ Hb]. by eapply H. Qed.
End unreachable.

(** ** Two blocks that can be one *)

Section merge.
Context (bbs : list ir_bb) (edges : list edge) (entry id from : Z).
Context (Hflow : flow_ok bbs edges entry) (Hne : id ≠ entry).
Context (Hin : filter (λ e : edge, e.2 = id) edges = [(from, id)]).
Context (fb ib : ir_bb) (c : ir_valuetype) (t f : Z) (Hc : vt_value c = -1).
Context (Hfb : bb_find bbs from = Some fb) (Hib : bb_find bbs id = Some ib).
Context (Hlast : bb_last fb = Ok (IR_IC_BR c t f)).

Lemma incoming_only a : (a, id) ∈ edges → a = from.
Proof. intros H. apply incoming_elem in H. rewrite Hin in H. apply list_elem_of_singleton in H. congruence. Qed.

Lemma from_edge : (from, id) ∈ edges.
Proof. apply incoming_elem. rewrite Hin. by apply elem_of_cons; left. Qed.

Lemma from_targets b : (from, b) ∈ edges → b = id.
Proof.
  assert (∀ b, (from, b) ∈ edges → b = t) as H.
  { intros b' (ba & i & Hba & Hi & Hb)%(fl_edges _ _ _ Hflow). rewrite Hfb in Hba. injection Hba as <-.
    rewrite Hlast in Hi. injection Hi as <-. cbn [targets] in Hb. rewrite Hc in Hb.
    by apply list_elem_of_singleton in Hb. }
  intros Hb. by rewrite (H b Hb), (H id from_edge).
Qed.

Lemma from_br : t = id.
Proof.
  symmetry. pose proof from_edge as (ba & i & Hba & Hi & Hb)%(fl_edges _ _ _ Hflow). rewrite Hfb in Hba.
  injection Hba as <-. rewrite Hlast in Hi. injection Hi as <-. cbn [targets] in Hb. rewrite Hc in Hb.
  by apply list_elem_of_singleton in Hb.
Qed.

(** A block that can only be reached from itself cannot be reached. *)
Lemma from_ne : from ≠ id.
Proof.
  intros E. pose proof from_edge as He. rewrite E in He.
  assert (∀ x, rtc (edge_of edges) entry x → x ≠ id) as H.
  { apply rtc_ind_r; [by apply not_eq_sym|intros y z _ Hyz IH ->].
    apply IH. by rewrite (incoming_only y Hyz). }
  apply (H id); [|done]. apply (fl_loops _ _ _ Hflow). by apply tc_once.
Qed.

Lemma from_split : ∃ l0, ib_instrs fb = l0 ++ [IR_IC_BR c t f] ∧ ∀ j, j ∈ l0 → terminator j = false.
Proof.
  destruct (fl_wf _ _ _ Hflow fb) as (l & i & E & Ht & Hl); [by apply bb_find_Some in Hfb as [_ ?]|].
  rewrite (block_last _ _ _ E) in Hlast. injection Hlast as ->. eauto.
Qed.

Notation l0 := (removelast (ib_instrs fb)).
Notation merged := (mk_bb from (l0 ++ ib_instrs ib)).
Notation bbs1 := (bb_write (bb_write bbs (mk_bb from l0)) merged).
Notation edges1 := (map (λ e : edge, (retarget id from e.1, e.2)) (filter (λ e, e ≠ (from, id)) edges)).
Notation bbs' := (bb_destroy bbs1 edges1 id).1.
Notation edges' := (bb_destroy bbs1 edges1 id).2.

Lemma bb_write_find bs b x :
  bb_find (bb_write bs b) x = (λ b0, if ib_id b0 =? ib_id b then b else b0) <$> bb_find bs x.
Proof.
  unfold bb_write. apply bb_find_map. intros b0. by destruct (Z.eqb_spec (ib_id b0) (ib_id b)).
Qed.

Lemma merged_find x : bb_find bbs' x =
  if decide (x = id) then None else if decide (x = from) then Some merged else bb_find bbs x.
Proof.
  unfold bb_destroy. cbn [fst]. rewrite bb_find_filter. case_decide; [done|]. rewrite !bb_write_find.
  case_decide as Hx.
  - subst x. rewrite Hfb. cbn. rewrite (proj1 (bb_find_Some _ _ _ Hfb)), Z.eqb_refl. cbn. by rewrite Z.eqb_refl.
  - destruct (bb_find bbs x) as [b|] eqn:E; [|done]. cbn. destruct (bb_find_Some _ _ _ E) as [-> _].
    rewrite (proj2 (Z.eqb_neq x from)) by done. destruct (bb_find_Some _ _ _ E) as [-> _].
    by rewrite (proj2 (Z.eqb_neq x from)).
Qed.

Lemma merge_blocks_ok fuel : merge_blocks fuel bbs edges from id = Ok (bbs', edges').
Proof.
  unfold merge_blocks. rewrite Hfb. rok.
  rewrite (bool_decide_eq_true_2 (filter (λ e : edge, e.1 = from) _ = [])).
  - rok. rewrite bb_write_find, Hib. cbn. rewrite (proj1 (bb_find_Some _ _ _ Hib)).
    rewrite (proj2 (Z.eqb_neq id from)) by (by apply not_eq_sym, from_ne).
    rewrite (proj2 (Z.eqb_neq from id)) by apply from_ne. by rok.
  - destruct (filter _ (filter _ edges)) as [|[a b] l] eqn:E; [done|]. exfalso.
    assert ((a, b) ∈ (a, b) :: l) as H by (by apply elem_of_cons; left). rewrite <- E in H.
    apply list_elem_of_filter in H as [Ha [Hab Hf]%list_elem_of_filter]. cbn in Ha. subst a.
    apply Hab. by rewrite (from_targets b).
Qed.

(** The state of the program before is that of the program after, or in the
    block that is now followed by the other one. *)
Definition no_id (l : list ir_instr) : Prop := ∀ i, i ∈ l → id ∉ targets i.

Definition merge_state (a b : list ir_instr * (Z → Z) * W) : Prop :=
  a.1.2 = b.1.2 ∧ a.2 = b.2 ∧
  (b.1.1 = a.1.1 ∧ no_id a.1.1 ∨
   ∃ l, a.1.1 = l ++ [IR_IC_BR c t f] ∧ b.1.1 = l ++ ib_instrs ib ∧ ∀ j, j ∈ l → terminator j = false).

Lemma block_no_id b : b ∈ bbs → ib_id b ≠ from → no_id (ib_instrs b).
Proof.
  intros Hb Hbf i Hi Ht. apply Hbf, incoming_only. by eapply flow_target.
Qed.

Lemma no_id_tail i l : no_id (i :: l) → no_id l.
Proof. intros H j Hj. apply H, elem_of_cons. by right. Qed.

(** Entering a block other than the one that was moved. *)
Lemma merge_enter x : x ≠ id →
  match bb_find bbs x, bb_find bbs' x with
  | Some b, Some b' => ∀ ρ w, merge_state (ib_instrs b, ρ, w) (ib_instrs b', ρ, w)
  | None, None => True
  | _, _ => False
  end.
Proof.
  intros Hx. rewrite merged_find. rewrite decide_False by done. case_decide as Hf.
  - subst x. rewrite Hfb. intros ρ w. split; [done|]. split; [done|]. right. exists l0. cbn [fst snd ib_instrs].
    destruct from_split as (l & E & Hl). rewrite E, removelast_last. split_and!; done.
  - destruct (bb_find bbs x) as [b|] eqn:E; [|done]. intros ρ w. split; [done|]. split; [done|]. left.
    split; [done|]. cbn [fst]. destruct (bb_find_Some _ _ _ E) as [Hid Hb].
    apply block_no_id; [done|congruence].
Qed.

Lemma merge_lockstep l ρ w :
  no_id l → lockstep (step env sem bbs) (step env sem bbs') merge_state (l, ρ, w) (l, ρ, w).
Proof.
  intros Hno. unfold lockstep, step. destruct l as [|i l]; [by eexists|].
  destruct (exec_instr env sem i ρ w) as [[[ρ' w'] k]|]; [|by eexists]. rok. destruct k as [|k|]; [| |done].
  - eexists. split; [done|]. split; [done|]. split; [done|]. left. split; [done|by eapply no_id_tail].
  - destruct (targets i !! k) as [x|] eqn:Et; [|by eexists]. rok. unfold enter.
    assert (x ≠ id) as Hx.
    { intros ->. apply (Hno i); [by apply elem_of_cons; left|by eapply list_elem_of_lookup_2]. }
    pose proof (merge_enter x Hx) as He. destruct (bb_find bbs x), (bb_find bbs' x); try done; rok; [|by eexists].
    eexists. split; [done|apply He].
Qed.

Lemma merge_step a b :
  merge_state a b → ∃ a1, steps (step env sem bbs) a a1 ∧
    lockstep (step env sem bbs) (step env sem bbs') merge_state a1 b.
Proof.
  destruct a as [[l ρ] w], b as [[l' ρ'] w']. intros (E1 & E2 & H). cbn [fst snd] in *. subst ρ' w'.
  destruct H as [[-> Hno]|(l1 & -> & -> & Hl)].
  - exists (l, ρ, w). split; [constructor|]. by apply merge_lockstep.
  - destruct l1 as [|i l1]; cbn [app].
    + exists (ib_instrs ib, ρ, w). split.
      * eapply steps_cons; [|constructor]. unfold step. cbn [exec_instr]. rewrite Hc. cbn [Z.eqb].
        change (-1 =? -1) with true. cbn [mbind res_bind targets]. rewrite Hc, from_br. cbn. unfold enter. by rewrite Hib.
      * apply merge_lockstep. destruct (bb_find_Some _ _ _ Hib) as [Hid Hb].
        apply block_no_id; [done|]. rewrite Hid. by apply not_eq_sym, from_ne.
    + exists (i :: l1 ++ [IR_IC_BR c t f], ρ, w). split; [constructor|]. unfold lockstep, step.
      destruct (exec_instr env sem i ρ w) as [[[ρ' w'] k]|]; [|by eexists]. rok. destruct k as [|k|]; [| |done].
      * eexists. split; [done|]. split; [done|]. split; [done|]. right. exists l1.
        split_and!; [done|done|]. intros j Hj. apply Hl, elem_of_cons. by right.
      * rewrite not_terminator_targets by (apply Hl, elem_of_cons; by left). by eexists.
Qed.

Lemma merge_behaves : same_behaviour entry bbs bbs'.
Proof.
  intros ρ w w'. unfold behaves. pose proof (merge_enter entry (not_eq_sym Hne)) as He.
  destruct (bb_find bbs entry) as [b|], (bb_find bbs' entry) as [b'|]; try done; [|split; by intros (? & ? & _)].
  pose proof (simulation_halts _ _ _ merge_step _ _ w' (He ρ w)) as Hh.
  split; intros (? & [= <-] & H); eexists; (split; [done|]); by apply Hh.
Qed.

Lemma merged_edge a b : (a, b) ∈ edges' ↔ ∃ a0, (a0, b) ∈ edges ∧ a0 ≠ from ∧ a = retarget id from a0.
Proof.
  unfold bb_destroy. cbn [snd]. rewrite list_elem_of_filter, list_elem_of_fmap. cbn [fst snd]. split.
  - intros [_ ([a0 b0] & [= -> ->] & [Hne' He]%list_elem_of_filter)]. exists a0. split_and!; [done| |done].
    cbn in *. intros ->. apply Hne'. by rewrite (from_targets b0).
  - intros (a0 & He & Ha0 & ->). split.
    + unfold retarget. split; [by destruct (Z.eqb_spec a0 id); [apply from_ne|]|]. intros ->.
      by apply Ha0, incoming_only.
    + exists (a0, b). split; [done|]. apply list_elem_of_filter. split; [congruence|done].
Qed.

Lemma ib_last : ∃ l i, ib_instrs ib = l ++ [i] ∧ terminator i = true ∧ ∀ j, j ∈ l → terminator j = false.
Proof. apply (fl_wf _ _ _ Hflow). by apply bb_find_Some in Hib as [_ ?]. Qed.

Lemma merge_flow : flow_ok bbs' edges' entry.
Proof.
  pose proof Hflow as [H1 H2 H3 H4 H5 H6 H7]. destruct ib_last as (l2 & i2 & E2 & Ht2 & Hl2).
  destruct from_split as (l1 & E1 & Hl1).
  assert (∀ x, x ≠ id → is_Some (bb_find bbs x) → is_Some (bb_find bbs' x)) as Hsome.
  { intros x Hx Hs. rewrite merged_find, decide_False by done. by case_decide. }
  split.
  - assert (map ib_id bbs1 = map ib_id bbs) as E.
    { unfold bb_write. rewrite !map_map. apply map_ext. intros b. cbn [ib_id].
      destruct (Z.eqb_spec (ib_id b) from); [cbn; by rewrite Z.eqb_refl|].
      destruct (Z.eqb_spec (ib_id b) from); done. }
    rewrite <- E in H1. eapply sublist_NoDup; [exact H1|]. apply fmap_sublist, sublist_filter.
  - by apply Hsome.
  - intros b Hb. assert (b = merged ∨ b ∈ bbs ∧ ib_id b ≠ from) as [->|[Hb' _]].
    + unfold bb_destroy in Hb. cbn [fst] in Hb. apply list_elem_of_filter in Hb as [_ Hb].
      unfold bb_write in Hb. apply list_elem_of_fmap in Hb as (b1 & -> & Hb1).
      apply list_elem_of_fmap in Hb1 as (b0 & -> & Hb0). cbn [ib_id].
      destruct (Z.eqb_spec (ib_id b0) from) as [E|E]; [left; cbn; by rewrite Z.eqb_refl|].
      right. rewrite (proj2 (Z.eqb_neq _ _)) by done. by split.
    + exists (l1 ++ l2), i2. cbn [ib_instrs]. rewrite E1, removelast_last, E2, app_assoc. split_and!; [done|done|].
      intros j [Hj|Hj]%elem_of_app; auto.
    + by apply H3.
  - intros a b. rewrite merged_edge. rewrite merged_find. split.
    + intros (a0 & He & Ha0 & ->). apply H4 in He as (ba & i & Hba & Hi & Hb). unfold retarget.
      destruct (Z.eqb_spec a0 id) as [->|Hai].
      * rewrite decide_False, decide_True by (done || apply from_ne). exists merged, i. split; [done|].
        split; [|done]. rewrite Hib in Hba. injection Hba as <-. rewrite (block_last _ _ _ E2) in Hi.
        injection Hi as <-. apply (block_last _ (l0 ++ l2)). cbn [ib_instrs]. by rewrite E2, app_assoc.
      * rewrite !decide_False by done. eauto.
    + case_decide as Ha; [naive_solver|]. case_decide as Haf.
      * intros (ba & i & [= <-] & Hi & Hb). exists id. subst a.
        assert (bb_last merged = Ok i2) as Hi' by (apply (block_last _ (l0 ++ l2)); cbn [ib_instrs]; by rewrite E2, app_assoc).
        rewrite Hi' in Hi. injection Hi as <-. split; [|split; [by apply not_eq_sym, from_ne|]].
        -- apply H4. exists ib, i2. split_and!; [done|by eapply block_last|done].
        -- unfold retarget. by rewrite Z.eqb_refl.
      * intros H. exists a. split; [by apply H4|]. split; [done|]. unfold retarget.
        by rewrite (proj2 (Z.eqb_neq _ _)).
  - intros a b (a0 & He & Ha0 & ->)%merged_edge. apply Hsome; [|by eapply H5]. intros ->.
    by apply Ha0, incoming_only.
  - unfold bb_destroy. cbn [snd]. apply list.NoDup_filter, NoDup_fmap_2_strong; [|by apply list.NoDup_filter].
    intros [a b] [a' b'] [Hx1 Hx]%list_elem_of_filter [Hy1 Hy]%list_elem_of_filter. cbn [fst snd]. intros [= E ->].
    assert (∀ z, (z, b') ∈ edges → (z, b') ≠ (from, id) → z ≠ from) as Hzf.
    { intros z Hz Hn ->. apply Hn. by rewrite (from_targets b'). }
    apply Hzf in Hx1; [|done]. apply Hzf in Hy1; [|done]. unfold retarget in E.
    destruct (Z.eqb_spec a id), (Z.eqb_spec a' id); congruence.
  - assert (∀ a b, edge_of edges' a b → tc (edge_of edges) a b) as Hsub.
    { intros a b (a0 & He & Ha0 & ->)%merged_edge. unfold retarget. destruct (Z.eqb_spec a0 id) as [->|].
      - eapply tc_l; [apply from_edge|by apply tc_once].
      - by apply tc_once. }
    assert (∀ x, rtc (edge_of edges) entry x → rtc (edge_of edges') entry (retarget id from x)) as Hreach.
    { apply rtc_ind_r; [|intros y z Hy Hyz IH].
      - unfold retarget. rewrite (proj2 (Z.eqb_neq _ _)) by done. apply rtc_refl.
      - destruct (decide (y = from)) as [->|Hyf].
        + rewrite (from_targets z Hyz). unfold retarget in *. rewrite Z.eqb_refl.
          by rewrite (proj2 (Z.eqb_neq _ _)) in IH by apply from_ne.
        + eapply rtc_r; [exact IH|]. apply merged_edge. exists y. unfold retarget at 1.
          rewrite (proj2 (Z.eqb_neq z id)); [done|]. intros ->. by apply Hyf, incoming_only. }
    intros x Hx. assert (x ≠ id) as Hxi.
    { intros ->. assert (∀ a b, tc (edge_of edges') a b → ∃ y, edge_of edges' y b) as Hr by (induction 1; eauto).
      apply Hr in Hx as (y & (a0 & He & Ha0 & _)%merged_edge). by apply Ha0, incoming_only. }
    assert (tc (edge_of edges) x x) as Hx' by (by eapply tc_mono).
    pose proof (Hreach x (H7 x Hx')) as H. unfold retarget in H. by rewrite (proj2 (Z.eqb_neq _ _)) in H.
Qed.

Lemma merge_code : code_ok bbs → code_ok bbs'.
Proof.
  intros H b i Hb Hi. unfold bb_destroy in Hb. cbn [fst] in Hb. apply list_elem_of_filter in Hb as [_ Hb].
  unfold bb_write in Hb. apply list_elem_of_fmap in Hb as (b1 & -> & Hb1).
  apply list_elem_of_fmap in Hb1 as (b0 & -> & Hb0). cbn [ib_id] in Hi.
  destruct (bb_find_Some _ _ _ Hfb) as [_ Hfin], (bb_find_Some _ _ _ Hib) as [_ Hiin].
  destruct (Z.eqb_spec (ib_id b0) from) as [E|E].
  - cbn in Hi. rewrite Z.eqb_refl in Hi. cbn in Hi. destruct from_split as (l1 & E1 & _).
    rewrite E1, removelast_last in Hi. apply elem_of_app in Hi as [Hi|Hi]; [|exact (H ib i Hiin Hi)].
    apply (H fb); [done|]. rewrite E1. apply elem_of_app. by left.
  - rewrite (proj2 (Z.eqb_neq _ _)) in Hi by done. exact (H b0 i Hb0 Hi).
Qed.
End merge.

(** ** The whole *)

Lemma eliminate_edges entry bbs edges x : flow_ok bbs edges entry → ∀ from l,
  filter (λ e : edge, e.2 = x) edges = (from, x) :: l →
  ∃ fb i, bb_find bbs from = Some fb ∧ bb_last fb = Ok i.
Proof.
  intros Hf from l E. assert ((from, x) ∈ edges) as He.
  { apply incoming_elem. rewrite E. by apply elem_of_cons; left. }
  apply (fl_edges _ _ _ Hf) in He as (ba & i & H1 & H2 & _). eauto.
Qed.

Lemma dead_block_spec fuel entry bbs0 s id :
  dc_inv entry bbs0 s → id ≠ entry → is_Some (bb_find s.1.1 id) →
  ∃ s', dead_block fuel s id = Ok s' ∧ dc_inv entry bbs0 s' ∧
    ∀ x, x ≠ id → is_Some (bb_find s.1.1 x) → is_Some (bb_find s'.1.1 x).
Proof.
  destruct s as [[bbs edges] vs']. cbn [fst]. intros Hinv Hne [ib Hib].
  pose proof Hinv as [Hflow Hcode Hsame Hvs]. cbn [fst snd] in *. unfold dead_block.
  destruct (filter _ edges) as [|[from x] more] eqn:Ein.
  - eexists. split; [reflexivity|]. split.
    + split; cbn [fst snd].
      * by apply unreachable_flow.
      * by apply destroy_code.
      * etransitivity; [exact Hsame|]. by eapply unreachable_behaves.
      * done.
    + intros x Hx Hs. cbn [fst]. by rewrite destroy_find.
  - assert (x = id) as ->.
    { assert ((from, x) ∈ filter (λ e : edge, e.2 = id) edges) as H by (rewrite Ein; by apply elem_of_cons; left).
      by apply list_elem_of_filter in H as [? _]. }
    destruct (eliminate_in_bb_spec entry bbs0 bbs edges vs' id ib Hinv Hib) as (bbs1 & vs1 & -> & Hinv1 & Hids). rok.
    pose proof Hinv1 as [Hflow1 Hcode1 Hsame1 Hvs1]. cbn [fst snd] in *.
    assert (∀ y, is_Some (bb_find bbs y) → is_Some (bb_find bbs1 y)) as Hsome
      by (intros y; by rewrite !bb_find_is_id, Hids).
    assert (∃ s', Ok (bbs1, edges, vs1) = Ok s' ∧ dc_inv entry bbs0 s' ∧
      ∀ x, x ≠ id → is_Some (bb_find bbs x) → is_Some (bb_find s'.1.1 x)) as Hstay
      by (eexists; split; [done|]; split; [done|auto]).
    destruct more; [|exact Hstay].
    destruct (eliminate_edges entry bbs1 edges id Hflow1 from [] Ein) as (fb & i & Hfb & Hi). rewrite Hfb. rok.
    rewrite Hi. rok. destruct i as [| | | |c t f| | | | | | | | | | | | | | | | | | | | | | |]; try exact Hstay.
    destruct (Z.eqb_spec (vt_value c) (-1)) as [Hc|]; [|exact Hstay].
    destruct (Hsome id (mk_is_Some _ _ Hib)) as [ib1 Hib1].
    rewrite (merge_blocks_ok bbs1 edges entry id from Hflow1 Hne Ein fb ib1 c t f Hc Hfb Hib1 Hi fuel). rok.
    eexists. split; [reflexivity|]. split.
    + split; cbn [fst snd].
      * by eapply (merge_flow bbs1 edges entry id from Hflow1 Hne Ein fb ib1 c t f).
      * by eapply (merge_code bbs1 edges entry id from Hflow1 fb ib1 c t f).
      * etransitivity; [exact Hsame1|]. by eapply (merge_behaves bbs1 edges entry id from Hflow1 Hne Ein fb ib1 c t f).
      * done.
    + intros y Hy Hs. cbn [fst]. rewrite (merged_find bbs1 edges id from fb ib1 Hfb), decide_False by done.
      case_decide; [done|by apply Hsome].
Qed.

Lemma dead_blocks_spec fuel entry bbs0 ids s :
  dc_inv entry bbs0 s → entry ∉ ids → NoDup ids → (∀ x, x ∈ ids → is_Some (bb_find s.1.1 x)) →
  ∃ s', foldR (dead_block fuel) s ids = Ok s' ∧ dc_inv entry bbs0 s'.
Proof.
  revert s; induction ids as [|id ids IH]; intros s Hinv Hen Hnd Hids; [by exists s|].
  apply list.NoDup_cons in Hnd as [Hn Hnd]. cbn [foldR].
  destruct (dead_block_spec fuel entry bbs0 s id Hinv) as (s1 & -> & Hinv1 & Hk);
    [intros ->; apply Hen, elem_of_cons; by left|apply Hids, elem_of_cons; by left|]. rok.
  apply IH; [done|intros H; apply Hen, elem_of_cons; by right|done|].
  intros x Hx. apply Hk; [by intros ->|]. apply Hids, elem_of_cons. by right.
Qed.
End machine.

(** C17: removing dead code keeps what a function does. When the edges are the
    branches of the blocks, blocks on a cycle can be reached, and the
    instructions that may be removed only give their results,
    [eliminate_dead_code] ends, its edges are the branches again, and the
    function stops with the same results for all values and worlds. *)
Theorem eliminate_dead_code_correct {W : Type} (sem : meaning W) fuel vs b0 bbs edges :
  flow_ok (b0 :: bbs) edges (ib_id b0) → code_ok vs sem (b0 :: bbs) →
  ∃ bbs' edges' vs', eliminate_dead_code fuel (b0 :: bbs) edges vs = Ok (bbs', edges', vs') ∧
    flow_ok bbs' edges' (ib_id b0) ∧ same_behaviour vs sem (ib_id b0) (b0 :: bbs) bbs'.
Proof.
  intros Hflow Hcode. unfold eliminate_dead_code.
  assert (dc_inv vs sem (ib_id b0) (b0 :: bbs) (b0 :: bbs, edges, vs)) as Hinv.
  { split; [done|done|done|]. intros k iv Hk. eauto. }
  destruct (eliminate_in_bb_spec vs sem _ _ _ _ _ (ib_id b0) b0 Hinv) as (bbs1 & vs1 & -> & Hinv1 & Hids);
    [by rewrite bb_find_cons, decide_True|]. rok.
  pose proof (fl_nodup _ _ _ Hflow) as Hnd. cbn [map] in Hids, Hnd. apply list.NoDup_cons in Hnd as [Hn Hnd].
  rewrite Hids. cbn [tail].
  destruct (dead_blocks_spec vs sem fuel _ _ (map ib_id bbs) _ Hinv1 Hn Hnd) as ([[bbs2 edges2] vs2] & -> & Hinv2).
  { intros x Hx. cbn [fst]. rewrite bb_find_is_id, Hids. apply elem_of_cons. by right. }
  exists bbs2, edges2, vs2. split; [done|]. by destruct Hinv2.
Qed.

(** A branch to a block of its own, a sum nothing reads, and a block nothing
    leads to. *)
Definition example_dead : list ir_bb :=
  [mk_bb 1 [IR_IC_BINOP 0 (example_vt 1) (example_vt 2) (example_rv 3);
            IR_IC_BINOP 0 (example_vt 1) (example_vt 3) (example_rv 4); IR_IC_BR (example_vt (-1)) 2 0];
   mk_bb 3 [IR_IC_BR (example_vt (-1)) 2 0];
   mk_bb 2 [IR_IC_RET (example_vt 3)]].
Definition example_dead_edges : list edge := [(1, 2); (3, 2)].
Definition example_sum : meaning Z := λ i xs w,
  match i, xs with
  | IR_IC_BINOP _ _ _ _, [a; b] => Some ([a + b], w, Next)
  | IR_IC_RET _, [a] => Some ([], a, Stop)
  | _, _ => None
  end.

Lemma example_dead_find id bb :
  bb_find example_dead id = Some bb →
  (id = 1 ∨ id = 2 ∨ id = 3) ∧ bb ∈ example_dead ∧ ib_id bb = id.
Proof.
  intros [<- H]%bb_find_Some. split; [|done]. unfold example_dead in H.
  repeat (apply elem_of_cons in H as [->|H]); [cbn; tauto..|by apply not_elem_of_nil in H].
Qed.

Lemma example_dead_flow : flow_ok example_dead example_dead_edges 1.
Proof.
  split.
  - apply (bool_decide_eq_true_1 (NoDup [1; 3; 2])). reflexivity.
  - by eexists.
  - intros b Hb. unfold example_dead in Hb. repeat (apply elem_of_cons in Hb as [->|Hb]); [| | |by apply not_elem_of_nil in Hb].
    + eexists [_; _], _. split_and!; [reflexivity|done|set_solver].
    + eexists [], _. split_and!; [reflexivity|done|set_solver].
    + eexists [], _. split_and!; [reflexivity|done|set_solver].
  - intros a b. unfold example_dead_edges. split.
    + intros H. assert ((a = 1 ∨ a = 3) ∧ b = 2) as [[->| ->] ->] by set_solver;
        (eexists _, _; split; [reflexivity|]; split; [reflexivity|]; cbn; set_solver).
    + intros (ba & i & Hba & Hi & Hb). destruct (example_dead_find a ba Hba) as ([->|[->| ->]] & _);
        injection Hba as <-; injection Hi as <-; cbn in Hb; set_solver.
  - intros a b H. unfold example_dead_edges in H. assert (b = 2) as -> by set_solver. by eexists.
  - apply (bool_decide_eq_true_1 (NoDup example_dead_edges)). reflexivity.
  - assert (∀ a b, tc (edge_of example_dead_edges) a b → b = 2 ∧ a ≠ 2) as H.
    { induction 1 as [a b H|a b c H _ [IH _]]; unfold edge_of, example_dead_edges in H; set_solver. }
    intros id [? ?]%H. done.
Qed.

Definition example_dead_vs : value_state :=
  mk_vs (replicate 3 (Some blank_value) ++ replicate 2 (Some example_temp)) 5 (mk_types [T_INT32] false None).

Lemma example_dead_code : code_ok example_dead_vs example_sum example_dead.
Proof.
  assert (∀ a b r, r = 3 ∨ r = 4 → instr_ok example_dead_vs example_sum (IR_IC_BINOP 0 a b (example_rv r))) as Hbin.
  { intros a b r Hr. split; [by eexists|]. intros _. split.
    - destruct Hr as [->| ->]; (eexists _, _; split; [reflexivity|reflexivity]).
    - intros l xs w [= <-] Hlen. destruct xs as [|x [|y [|]]]; try discriminate Hlen. by eexists. }
  intros b i Hb Hi. unfold example_dead in Hb. repeat (apply elem_of_cons in Hb as [->|Hb]); [| | |by apply not_elem_of_nil in Hb];
    cbn in Hi; repeat (apply elem_of_cons in Hi as [->|Hi]); try (by apply not_elem_of_nil in Hi);
    first [apply Hbin; tauto|split; [by eexists|done]].
Qed.

Lemma eliminate_dead_code_correct_witness :
  ∃ bbs' edges' vs', eliminate_dead_code 0 example_dead example_dead_edges example_dead_vs = Ok (bbs', edges', vs') ∧
    bbs' = [mk_bb 1 [IR_IC_BINOP 0 (example_vt 1) (example_vt 2) (example_rv 3); IR_IC_RET (example_vt 3)]] ∧
    flow_ok bbs' edges' 1 ∧ behaves example_dead_vs example_sum 1 bbs' (λ v, v) 0 3.
Proof.
  destruct (eliminate_dead_code_correct example_sum 0 example_dead_vs
    (mk_bb 1 [IR_IC_BINOP 0 (example_vt 1) (example_vt 2) (example_rv 3);
              IR_IC_BINOP 0 (example_vt 1) (example_vt 3) (example_rv 4); IR_IC_BR (example_vt (-1)) 2 0])
    (tail example_dead) example_dead_edges example_dead_flow example_dead_code)
    as (bbs' & edges' & vs' & H1 & H2 & H3).
  exists bbs', edges', vs'. split; [exact H1|]. pose proof H1 as E. vm_compute in E. injection E as <- _ _.
  split; [reflexivity|]. split; [exact H2|]. apply H3. eexists. split; [reflexivity|]. exists 10%nat. by vm_compute.
Defined.

Lemma move_self_endless fuel l : l ≠ [] → move_self fuel l = Fail NoFuel.
Proof. revert l; induction fuel as [|n IH]; [done|]. intros [|i l] Hl; [done|]. apply IH. by destruct l. Qed.

(** A block that branches to itself and holds something else. *)
Lemma merge_self_endless fuel bbs edges id l i :
  filter (λ e : edge, e.1 = id) (filter (λ e, e ≠ (id, id)) edges) = [] → bb_find bbs id = Some (mk_bb id (l ++ [i])) → l ≠ [] →
  merge_blocks fuel bbs edges id id = Fail NoFuel.
Proof.
  intros He Hf Hl. unfold merge_blocks. rewrite Hf. rok. cbn [ib_instrs]. rewrite removelast_last.
  rewrite bool_decide_eq_true_2 by done. rok.
  rewrite bb_write_find, Hf. cbn. rewrite !Z.eqb_refl. cbn. by rewrite move_self_endless.
Qed.

(** C36: dead code elimination may not end. Two blocks that nothing reaches and
    that branch to each other become one block that branches to itself, and
    the loop that moves the instructions of a block into its predecessor then
    moves them from the block to itself for ever. *)
Theorem eliminate_dead_code_endless fuel vs :
  let bbs := [mk_bb 0 [IR_IC_BR (example_vt (-1)) 3 0];
              mk_bb 1 [IR_IC_STORE (example_vt 1) (example_vt 2) 0; IR_IC_BR (example_vt (-1)) 2 0];
              mk_bb 2 [IR_IC_BR (example_vt (-1)) 1 0]; mk_bb 3 [IR_IC_RET (example_vt (-1))]] in
  ∃ edges, construct_cfg bbs = Ok edges ∧ eliminate_dead_code fuel bbs edges vs = Fail NoFuel.
Proof.
  exists [(2, 1); (1, 2); (0, 3)]. split; [reflexivity|].
  set (bbs := [mk_bb 0 [IR_IC_BR (example_vt (-1)) 3 0];
            mk_bb 2 [IR_IC_STORE (example_vt 1) (example_vt 2) 0; IR_IC_BR (example_vt (-1)) 2 0];
            mk_bb 3 [IR_IC_RET (example_vt (-1))]]).
  transitivity (s ← dead_block fuel (bbs, [(2, 2); (0, 3)], vs) 2; foldR (dead_block fuel) s [3]); [reflexivity|].
  transitivity (s ← (s ← merge_blocks fuel bbs [(2, 2); (0, 3)] 2 2; Ok (s, vs)); foldR (dead_block fuel) s [3]); [reflexivity|].
  by rewrite (merge_self_endless fuel bbs _ 2 [IR_IC_STORE (example_vt 1) (example_vt 2) 0] (IR_IC_BR (example_vt (-1)) 2 0)).
Qed.
