(* ===== verification/Bitcode.v ===== *)
(** The container of a bitcode file: [src/src/vmir_bitcode_parser.c] without
    the handlers of records. Blocks, abbreviations and records are read from
    the bit stream and given to the handlers, which are a [client]. *)
From Stdlib Require Import Ascii String.
From S2P Require Import Prelude Support Bitstream.
Local Open Scope Z_scope.

(** ** State *)

(** [ir_abbrev_operand_t], an [ia_abbrev_operand_type_t] with its data. *)
Inductive ir_abbrev_operand : Type :=
  | IAOT_LITTERAL (data : Z)
  | IAOT_FIXED_WIDTH (data : Z)
  | IAOT_VBR (data : Z)
  | IAOT_ARRAY
  | IAOT_CHAR6
  | IAOT_BLOB.

#[export] Instance ir_abbrev_operand_eq_dec : EqDecision ir_abbrev_operand.
Proof. solve_decision. Defined.

Definition ir_abbrev : Type := list ir_abbrev_operand.

(** [ir_block_t]; the block info is named by its [ib_id]. *)
Record ir_block := mk_block {
  ib_scoped_abbrevs : list ir_abbrev;
  ib_blockinfo : option Z;
}.

(** [iu_blocks], the innermost first, and [iu_blockinfos] with their
    abbreviations; [ib_num_abbrevs] is the length of the list. *)
Record parse_state := mk_parse {
  iu_blocks : list ir_block;
  iu_blockinfos : list (Z * list ir_abbrev);
}.

Definition BITCODE_BLOCKINFO : Z := 0.
Definition BITCODE_MODULE : Z := 8.
Definition BITCODE_PARAMATTR : Z := 9.
Definition BITCODE_PARAMATTR_GROUP : Z := 10.
Definition BITCODE_CONSTANTS : Z := 11.
Definition BITCODE_FUNCTION : Z := 12.
Definition BITCODE_IDENTIFICATION_BLOCK_ID : Z := 13.
Definition BITCODE_VALUE_SYMTAB : Z := 14.
Definition BITCODE_METADATA : Z := 15.
Definition BITCODE_METADATA_ATTACHMENT : Z := 16.
Definition BITCODE_TYPES_NEW : Z := 17.
Definition BITCODE_USELIST : Z := 18.
Definition BITCODE_OPERAND_BUNDLE_TAGS_BLOCK_ID : Z := 21.
Definition BITCODE_METADATA_KIND_BLOCK_ID : Z := 22.

(** The cases of the switch in [ir_enter_subblock]. *)
Definition known_blocks : list Z :=
  [BITCODE_BLOCKINFO; BITCODE_MODULE; BITCODE_PARAMATTR; BITCODE_PARAMATTR_GROUP;
   BITCODE_CONSTANTS; BITCODE_FUNCTION; BITCODE_VALUE_SYMTAB; BITCODE_METADATA;
   BITCODE_METADATA_ATTACHMENT; BITCODE_TYPES_NEW; BITCODE_USELIST;
   BITCODE_METADATA_KIND_BLOCK_ID; BITCODE_IDENTIFICATION_BLOCK_ID;
   BITCODE_OPERAND_BUNDLE_TAGS_BLOCK_ID].

(** What the parser needs of the rest of the unit [U]: the handler of the
    records of each block, [iu_vstoffset], and what happens when a function
    block starts and when a block ends. [cl_start_function] is the part before
    the symbol table is read ahead (it returns [valuelistsize]),
    [cl_next_function] the part after it. *)
Record client (U : Type) := mk_client {
  cl_record : Z → U → Z → list ir_arg → res U;
  cl_vstoffset : U → Z;
  cl_clear_vstoffset : U → U;
  cl_start_function : U → nat * U;
  cl_next_function : U → res U;
  cl_end_block : Z → nat → U → res U;
}.
Arguments cl_record {U}. Arguments cl_vstoffset {U}. Arguments cl_clear_vstoffset {U}.
Arguments cl_start_function {U}. Arguments cl_next_function {U}. Arguments cl_end_block {U}.

(** ** Abbreviations *)

Definition blockinfo_abbrevs (infos : list (Z * list ir_abbrev)) (id : Z) : option (list ir_abbrev) :=
  snd ∘ snd <$> list_find (λ ib, ib.1 = id) infos.

(** [blockinfo_find]: the block info is made when there is none. *)
Definition blockinfo_find (ps : parse_state) (id : Z) : parse_state :=
  match blockinfo_abbrevs (iu_blockinfos ps) id with
  | Some _ => ps
  | None => mk_parse (iu_blocks ps) ((id, []) :: iu_blockinfos ps)
  end.

(** [LIST_FIRST(&iu->iu_blocks)], which is dereferenced. *)
Definition current_block (ps : parse_state) : res ir_block := oget (head (iu_blocks ps)) Undef.
Definition set_current_block (ps : parse_state) (ib : ir_block) : parse_state :=
  mk_parse (ib :: tail (iu_blocks ps)) (iu_blockinfos ps).

(** The end of [ir_define_abbrev]: where the abbreviation goes. *)
Definition add_abbrev (ps : parse_state) (ia : ir_abbrev) : res parse_state :=
  ib ← current_block ps;
  match ib_blockinfo ib with
  | Some id =>
      Ok (mk_parse (iu_blocks ps)
            (map (λ i, if i.1 =? id then (i.1, i.2 ++ [ia]) else i) (iu_blockinfos ps)))
  | None => Ok (set_current_block ps (mk_block (ib_scoped_abbrevs ib ++ [ia]) None))
  end.

(** The abbreviation [ir_dispatch_abbrev] looks up. *)
Definition find_abbrev (ps : parse_state) (ibi : option Z) (id : Z) : res ir_abbrev :=
  info ← oget ibi Undef;
  shared ← oget (blockinfo_abbrevs (iu_blockinfos ps) info) Undef;
  let id := Z.to_nat (id - 4) in
  if bool_decide (length shared <= id)%nat then
    ib ← current_block ps;
    oget (ib_scoped_abbrevs ib !! (id - length shared)%nat) ParserError
  else oget (shared !! id) ParserError.

(** A loop that reads one thing for each element of a list. *)
Fixpoint read_each {A B} (rd : A → bcbitstream → res (B * bcbitstream)) (l : list A) (bs : bcbitstream)
    : res (list B * bcbitstream) :=
  match l with
  | [] => Ok ([], bs)
  | a :: l =>
      '(b, bs) ← rd a bs;
      '(r, bs) ← read_each rd l bs;
      Ok (b :: r, bs)
  end.

(** The [i]-th operand of an abbreviation with [numops] operands. *)
Definition read_abbrev_operand (numops i : Z) (bs : bcbitstream) : res (ir_abbrev_operand * bcbitstream) :=
  '(litteral, bs) ← read_bits bs 1;
  if negb (litteral =? 0) then
    '(d, bs) ← read_vbr bs 8; Ok (IAOT_LITTERAL d, bs)
  else
  '(type, bs) ← read_bits bs 3;
  if type =? 1 then '(d, bs) ← read_vbr bs 5; Ok (IAOT_FIXED_WIDTH d, bs)
  else if type =? 2 then '(d, bs) ← read_vbr bs 5; Ok (IAOT_VBR d, bs)
  else if type =? 4 then Ok (IAOT_CHAR6, bs)
  else if type =? 5 then _ ← check (i =? u32 (numops - 1)) ParserError; Ok (IAOT_BLOB, bs)
  else if type =? 3 then _ ← check (i =? u32 (numops - 2)) ParserError; Ok (IAOT_ARRAY, bs)
  else Fail ParserError.

Definition char6_table : list ir_arg :=
  map (λ c, Z.of_N (N_of_ascii c))
    (list_ascii_of_string "abcdefghijklmnopqrstuvwxyzABCDEFGHIJKLMNOPQRSTUVWXYZ0123456789._").

(** One element of an array. *)
Definition read_element (type : ir_abbrev_operand) (bs : bcbitstream) : res (ir_arg * bcbitstream) :=
  match type with
  | IAOT_FIXED_WIDTH d => read_bits bs (s32 d)
  | IAOT_VBR d => read_vbr bs (s32 d)
  | IAOT_CHAR6 =>
      '(x, bs) ← read_bits bs 6;
      c ← oget (char6_table !! Z.to_nat x) Undef; Ok (c, bs)
  | _ => Fail ParserError
  end.

Definition load_array (type : ir_abbrev_operand) (bs : bcbitstream) : res (list ir_arg * bcbitstream) :=
  '(n, bs) ← read_vbr bs 6;
  read_each (λ _, read_element type) (replicate (Z.to_nat (s32 n)) ()) bs.

(** The loop of [ir_dispatch_abbrev]. After an array, whose element type is the
    last operand, the loop ends. *)
Fixpoint read_fields (ops : ir_abbrev) (bs : bcbitstream) : res (list ir_arg * bcbitstream) :=
  match ops with
  | [] => Ok ([], bs)
  | IAOT_LITTERAL d :: ops => '(r, bs) ← read_fields ops bs; Ok (d :: r, bs)
  | IAOT_FIXED_WIDTH d :: ops =>
      '(a, bs) ← read_bits bs (s32 d); '(r, bs) ← read_fields ops bs; Ok (a :: r, bs)
  | IAOT_VBR d :: ops =>
      '(a, bs) ← read_vbr64 bs (s32 d); '(r, bs) ← read_fields ops bs; Ok (s64 a :: r, bs)
  | IAOT_ARRAY :: ops =>
      match ops with [type] => load_array type bs | _ => Fail AssertFail end
  | IAOT_CHAR6 :: _ | IAOT_BLOB :: _ => Fail ParserError
  end.

(** ** The parser *)

Section parser.
Context {U : Type} (cl : client U).
Notation state := (parse_state * U)%type.

Definition blockinfo_rec_handler (ps : parse_state) (op : Z) (argv : list ir_arg) : res parse_state :=
  ib ← current_block ps;
  if op =? 1 then
    match argv with
    | [a] =>
        let ps := blockinfo_find ps (s32 a) in
        Ok (set_current_block ps (mk_block (ib_scoped_abbrevs ib) (Some (s32 a))))
    | _ => Fail ParserError
    end
  else Ok ps.

(** The call of [rh], the handler of block [rh]; NULL at the top and while the
    symbol table is read ahead. *)
Definition call_handler (rh : option Z) (s : state) (op : Z) (argv : list ir_arg) : res state :=
  b ← oget rh Undef;
  if b =? BITCODE_BLOCKINFO then ps ← blockinfo_rec_handler s.1 op argv; Ok (ps, s.2)
  else u ← cl_record cl b s.2 op argv; Ok (s.1, u).

Definition ir_unabbrev_record (rh : option Z) (s : state) (bs : bcbitstream)
    : res (state * bcbitstream) :=
  '(code, bs) ← read_vbr bs 6;
  '(numops, bs) ← read_vbr bs 6;
  '(argv, bs) ← read_each (λ _ bs, '(a, bs) ← read_vbr64 bs 6; Ok (s64 a, bs))
                  (replicate (Z.to_nat numops) ()) bs;
  s ← call_handler rh s (s32 code) argv;
  Ok (s, bs).

Definition ir_define_abbrev (s : state) (bs : bcbitstream) : res (state * bcbitstream) :=
  '(numops, bs) ← read_vbr bs 5;
  '(ia, bs) ← read_each (read_abbrev_operand numops) (seqZ 0 numops) bs;
  ps ← add_abbrev s.1 ia;
  Ok (ps, s.2, bs).

Definition ir_dispatch_abbrev (id : Z) (rh ibi : option Z) (s : state) (bs : bcbitstream)
    : res (state * bcbitstream) :=
  ia ← find_abbrev s.1 ibi id;
  '(argv, bs) ← read_fields ia bs;
  match argv with
  | [] => Fail Undef
  | code :: argv => s ← call_handler rh s (s32 code) argv; Ok (s, bs)
  end.

(** [parse width rh ibi] is [ir_parse_blocks]. *)
Definition parser : Type := Z → option Z → option Z → state → bcbitstream → res (state * bcbitstream).

(** The case of [BITCODE_FUNCTION]; the symbol table is read ahead from a
    stream of its own. *)
Definition enter_function (parse : parser) (outer_id_width blockid : Z) (s : state) (bs : bcbitstream)
    : res (nat * state) :=
  let '(valuelistsize, u) := cl_start_function cl s.2 in
  s ← (if cl_vstoffset cl u =? 0 then Ok (s.1, u)
       else
         off ← int_arith (cl_vstoffset cl u * 4);
         let vstbs := mk_bs (rdata bs) (bytes_length bs) off 0 (tmp bs) in
         '(s, _) ← parse outer_id_width None (Some blockid) (s.1, u) vstbs;
         Ok (s.1, cl_clear_vstoffset cl s.2));
  u ← cl_next_function cl s.2;
  Ok (valuelistsize, (s.1, u)).

Definition open_block (ps : parse_state) (blockid : Z) : parse_state :=
  blockinfo_find (mk_parse (mk_block [] None :: iu_blocks ps) (iu_blockinfos ps)) blockid.
Definition block_destroy (ps : parse_state) : parse_state :=
  mk_parse (tail (iu_blocks ps)) (iu_blockinfos ps).

Definition ir_enter_subblock (parse : parser) (outer_id_width : Z) (s : state) (bs : bcbitstream)
    : res (state * bcbitstream) :=
  '(blockid, bs) ← read_vbr bs 8;
  '(inner_id_width, bs) ← read_vbr bs 4;
  let bs := align_bits32 bs in
  '(_, bs) ← read_bits bs 32;
  let ps := open_block s.1 (s32 blockid) in
  _ ← check (bool_decide (blockid ∈ known_blocks)) ParserError;
  '(valuelistsize, s) ←
    (if blockid =? BITCODE_FUNCTION then enter_function parse outer_id_width blockid (ps, s.2) bs
     else Ok (0%nat, (ps, s.2)));
  '(s, bs) ← parse (s32 inner_id_width) (Some blockid) (Some blockid) s bs;
  u ← cl_end_block cl blockid valuelistsize s.2;
  Ok (block_destroy s.1, u, bs).

(** The loop of [ir_parse_blocks] and the assertion before it. *)
Fixpoint parse_loop (fuel : nat) (abbrev_id_width : Z) (rh ibi : option Z) (s : state)
    (bs : bcbitstream) : res (state * bcbitstream) :=
  match fuel with
  | O => Fail NoFuel
  | S fuel =>
      '(id, bs) ← read_bits bs abbrev_id_width;
      if id =? 0 then Ok (s, align_bits32 bs) else
      '(s, bs) ←
        (if id =? 1 then
           ir_enter_subblock (λ w rh ibi s bs, _ ← check (remain bs =? 0) AssertFail;
                                               parse_loop fuel w rh ibi s bs)
             abbrev_id_width s bs
         else if id =? 2 then ir_define_abbrev s bs
         else if id =? 3 then ir_unabbrev_record rh s bs
         else ir_dispatch_abbrev id rh ibi s bs);
      parse_loop fuel abbrev_id_width rh ibi s bs
  end.

Definition ir_parse_blocks (fuel : nat) : parser := λ abbrev_id_width rh ibi s bs,
  _ ← check (remain bs =? 0) AssertFail; parse_loop fuel abbrev_id_width rh ibi s bs.

(** How [vmir_load] reads a file: [None] is [VMIR_ERR_NOT_BITCODE]. *)
Definition parse_file (u : U) (data : list Z) : res (option U) :=
  '(x, bs) ← read_bits (bs_init data) 32;
  if negb (x =? 0xdec04342) then Ok None else
  '(s, _) ← ir_parse_blocks (S (8 * length data)) 2 None None (mk_parse [] [], u) bs;
  Ok (Some s.2).
End parser.
