(* ===== verification/Document.v ===== *)
(** The document in a bitcode file: what a writer of the format emits and what
    it means for the handlers, and that [ir_parse_blocks] reads a file as the
    document that was written; the parser ends on every file. *)
From S2P Require Import Prelude Support Bitstream Bitcode.
Local Open Scope Z_scope.

(** ** What a writer writes *)

(** The fields of a record that uses an abbreviation; an array has the type of
    its elements. *)
Inductive field : Type :=
  | F_LITTERAL (v : Z)
  | F_FIXED_WIDTH (w v : Z)
  | F_VBR (w v : Z)
  | F_ARRAY (type : ir_abbrev_operand) (vs : list Z).

(** The items of a block, in their order. *)
Inductive item : Type :=
  | I_block (id width : Z) (l : items)
  | I_define (ops : ir_abbrev)
  | I_record (code : Z) (ops : list Z)
  | I_abbrev (id : Z) (fields : list field)
with items : Type :=
  | I_end
  | I_then (it : item) (l : items).

Scheme item_mut := Induction for item Sort Prop
  with items_mut := Induction for items Sort Prop.

Definition enc_fixed (w v : Z) : list bool := bits_of (Z.to_nat w) v.
Definition enc_vbr (w v : Z) : list bool := vbr_encode 33 w v.
Definition enc_vbr64 (w v : Z) : list bool := vbr_encode 65 w v.

(** What fills up to the next multiple of 32 bits. *)
Definition enc_pad (n : nat) : list bool := replicate (Z.to_nat (- Z.of_nat n mod 32)) false.

Definition enc_operand (o : ir_abbrev_operand) : list bool :=
  match o with
  | IAOT_LITTERAL d => true :: enc_vbr 8 d
  | IAOT_FIXED_WIDTH d => false :: enc_fixed 3 1 ++ enc_vbr 5 d
  | IAOT_VBR d => false :: enc_fixed 3 2 ++ enc_vbr 5 d
  | IAOT_ARRAY => false :: enc_fixed 3 3
  | IAOT_CHAR6 => false :: enc_fixed 3 4
  | IAOT_BLOB => false :: enc_fixed 3 5
  end.

Definition char6_index (c : ir_arg) : Z :=
  default 0 (Z.of_nat ∘ fst <$> list_find (λ x : ir_arg, x = c) char6_table).

Definition enc_element (type : ir_abbrev_operand) (v : Z) : list bool :=
  match type with
  | IAOT_FIXED_WIDTH w => enc_fixed w v
  | IAOT_VBR w => enc_vbr w v
  | IAOT_CHAR6 => enc_fixed 6 (char6_index v)
  | _ => []
  end.

Definition enc_field (f : field) : list bool :=
  match f with
  | F_LITTERAL _ => []
  | F_FIXED_WIDTH w v => enc_fixed w v
  | F_VBR w v => enc_vbr64 w v
  | F_ARRAY type vs => enc_vbr 6 (Z.of_nat (length vs)) ++ concat (map (enc_element type) vs)
  end.

(** The content of a block with the items [bits], up to its end, from a word
    boundary on. *)
Definition close_block (w : Z) (bits : list bool) : list bool :=
  let content := bits ++ enc_fixed w 0 in content ++ enc_pad (length content).

(** A block at bit [pos] of a file; the word before its content is the number
    of words of that. *)
Definition enc_header (w id width : Z) : list bool := enc_fixed w 1 ++ enc_vbr 8 id ++ enc_vbr 4 width.
Definition enc_block (w : Z) (pos : nat) (id width : Z) (body : list bool) : list bool :=
  enc_header w id width ++ enc_pad (pos + length (enc_header w id width)) ++
  enc_fixed 32 (Z.of_nat (length body) / 32) ++ body.

(** The bits of an item at bit [pos] in a block with abbreviation ids of [w]
    bits, and of items one after the other, the first at bit [pos]. *)
Fixpoint enc_item (w : Z) (pos : nat) (it : item) : list bool :=
  match it with
  | I_block id width l => enc_block w pos id width (close_block width (enc_items width 0 l))
  | I_define ops =>
      enc_fixed w 2 ++ enc_vbr 5 (Z.of_nat (length ops)) ++ concat (map enc_operand ops)
  | I_record code ops =>
      enc_fixed w 3 ++ enc_vbr 6 code ++ enc_vbr 6 (Z.of_nat (length ops)) ++
      concat (map (enc_vbr64 6) ops)
  | I_abbrev id fields => enc_fixed w id ++ concat (map enc_field fields)
  end
with enc_items (w : Z) (pos : nat) (l : items) : list bool :=
  match l with
  | I_end => []
  | I_then it l => enc_item w pos it ++ enc_items w (pos + length (enc_item w pos it)) l
  end.

(** What may be written: values that fit their fields. *)
Definition operand_ok (numops i : Z) (o : ir_abbrev_operand) : Prop :=
  match o with
  | IAOT_LITTERAL d => 0 <= d < 2 ^ 32
  | IAOT_FIXED_WIDTH d | IAOT_VBR d => 0 <= d < 2 ^ 32
  | IAOT_ARRAY => i = numops - 2
  | IAOT_CHAR6 => True
  | IAOT_BLOB => i = numops - 1
  end.

Definition element_ok (type : ir_abbrev_operand) (v : Z) : Prop :=
  match type with
  | IAOT_FIXED_WIDTH w => 0 <= w <= 32 ∧ 0 <= v < 2 ^ w
  | IAOT_VBR w => 2 <= w <= 32 ∧ 0 <= v < 2 ^ 32
  | IAOT_CHAR6 => v ∈ char6_table
  | _ => False
  end.

Definition field_ok (f : field) : Prop :=
  match f with
  | F_LITTERAL v => 0 <= v < 2 ^ 32
  | F_FIXED_WIDTH w v => 0 <= w <= 32 ∧ 0 <= v < 2 ^ w
  | F_VBR w v => 2 <= w <= 32 ∧ 0 <= v < 2 ^ 64
  | F_ARRAY type vs => Z.of_nat (length vs) < 2 ^ 31 ∧ ∀ v, v ∈ vs → element_ok type v
  end.

(** An array is the last field. *)
Definition fields_ok (l : list field) : Prop :=
  (∀ f, f ∈ l → field_ok f) ∧
  ∀ k type vs, l !! k = Some (F_ARRAY type vs) → S k = length l.

Definition define_ok (ops : ir_abbrev) : Prop :=
  Z.of_nat (length ops) < 2 ^ 32 ∧
  ∀ k o, ops !! k = Some o → operand_ok (Z.of_nat (length ops)) (Z.of_nat k) o.

Definition record_ok (code : Z) (ops : list Z) : Prop :=
  0 <= code < 2 ^ 32 ∧ Z.of_nat (length ops) < 2 ^ 32 ∧ ∀ v, v ∈ ops → 0 <= v < 2 ^ 64.

Fixpoint item_ok (w : Z) (it : item) : Prop :=
  match it with
  | I_block id width l => (id ∈ known_blocks ∧ 2 <= width <= 32) ∧ items_ok width l
  | I_define ops => define_ok ops
  | I_record code ops => record_ok code ops
  | I_abbrev id fields => 4 <= id < 2 ^ w ∧ fields_ok fields
  end
with items_ok (w : Z) (l : items) : Prop :=
  match l with
  | I_end => True
  | I_then it l => item_ok w it ∧ items_ok w l
  end.

(** ** What a document means *)

Definition field_operands (f : field) : ir_abbrev :=
  match f with
  | F_LITTERAL v => [IAOT_LITTERAL v]
  | F_FIXED_WIDTH w _ => [IAOT_FIXED_WIDTH w]
  | F_VBR w _ => [IAOT_VBR w]
  | F_ARRAY type _ => [IAOT_ARRAY; type]
  end.
Definition field_values (f : field) : list ir_arg :=
  match f with
  | F_LITTERAL v | F_FIXED_WIDTH _ v => [v]
  | F_VBR _ v => [s64 v]
  | F_ARRAY _ vs => vs
  end.

Section meaning.
Context {U : Type} (cl : client U).
Notation state := (parse_state * U)%type.

(** The start of a block: the value of [valuelistsize] and the state. *)
Definition start_block (id : Z) (s : state) : res (nat * state) :=
  if id =? BITCODE_FUNCTION then
    let '(n, u) := cl_start_function cl s.2 in
    _ ← check (cl_vstoffset cl u =? 0) Undef;
    u ← cl_next_function cl u;
    Ok (n, (open_block s.1 id, u))
  else Ok (0%nat, (open_block s.1 id, s.2)).

(** What the handlers do with an item of a block with handler [rh] and block
    info [ibi]. A record with an abbreviation has a meaning only when its
    fields are those of the abbreviation with its number. *)
Fixpoint run_item (rh ibi : option Z) (s : state) (it : item) : res state :=
  match it with
  | I_block id width l =>
      '(n, s) ← start_block id s;
      s ← run_items (Some id) (Some id) s l;
      u ← cl_end_block cl id n s.2;
      Ok (block_destroy s.1, u)
  | I_define ops => ps ← add_abbrev s.1 ops; Ok (ps, s.2)
  | I_record code ops => call_handler cl rh s (s32 code) (map s64 ops)
  | I_abbrev id fields =>
      ia ← find_abbrev s.1 ibi id;
      _ ← check (bool_decide (ia = concat (map field_operands fields))) Undef;
      match concat (map field_values fields) with
      | [] => Fail Undef
      | code :: argv => call_handler cl rh s (s32 code) argv
      end
  end
with run_items (rh ibi : option Z) (s : state) (l : items) : res state :=
  match l with
  | I_end => Ok s
  | I_then it l => s ← run_item rh ibi s it; run_items rh ibi s l
  end.
End meaning.

(** ** Readers *)

Lemma read_bits_loop_remain fuel bs num off r x bs' :
  read_bits_loop fuel bs num off r = Ok (x, bs') → 0 <= remain bs < 8 → 0 <= remain bs' < 8.
Proof.
  revert bs num off r; induction fuel as [|fuel IH]; intros bs num off r H Hr; cbn [read_bits_loop] in H;
    destruct (Z.leb_spec num 0); inv_res; [done..|].
  destruct (_ <=? _); inv_res; [done|]. apply IH in H; [done|]. cbn [remain].
  assert (1 <= remain a <= 8) as Ha.
  { unfold refill in Hm. destruct (Z.eqb_spec (remain bs) 0); inv_res; cbn; lia. }
  unfold VMIR_MIN. destruct (Z.ltb_spec num (remain a)); lia.
Qed.

Lemma read_vbr_loop_remain limit fuel bs width ret stride x bs' :
  read_vbr_loop limit fuel bs width ret stride = Ok (x, bs') → 0 <= remain bs < 8 → 0 <= remain bs' < 8.
Proof.
  revert bs ret stride; induction fuel as [|fuel IH]; intros bs ret stride H Hr; cbn [read_vbr_loop] in H; [done|].
  inv_res. destruct a as [y b1]. apply read_bits_loop_remain in Hm; [|done].
  destruct (negb _); inv_res; [by eapply IH|done].
Qed.

(** The stream has [bits] left, of [n] bytes in all. *)
Record holds (n : nat) (bs : bcbitstream) (bits : list bool) : Prop := {
  ho_valid : bs_valid bs;
  ho_bits : pending bs = bits;
  ho_remain : 0 <= remain bs < 8;
  ho_length : length (rdata bs) = n;
}.

(** [rd] reads [a] where [e] is written, unless the file ends there. *)
Definition reads (n : nat) {A} (rd : bcbitstream → res (A * bcbitstream)) (e : list bool) (a : A) : Prop :=
  ∀ bs rest, holds n bs (e ++ rest) → (8 < length rest)%nat →
    ∃ bs', rd bs = Ok (a, bs') ∧ holds n bs' rest.

Section readers.
Context (n : nat).
Notation reads := (reads n).

Lemma reads_bits w x : 0 <= w <= 32 → 0 <= x < 2 ^ w → reads (λ bs, read_bits bs w) (enc_fixed w x) x.
Proof.
  intros Hw Hx bs rest [Hv Hb Hr Hl] Hlen.
  destruct (read_bits_of bs w x rest Hv Hw Hlen Hb) as (bs' & E & Hv' & Hp').
  rewrite wrap_small in E by done. exists bs'. split; [done|]. split; [done|done| |].
  - by eapply read_bits_loop_remain.
  - destruct (read_bits_ends bs w Hv Hw) as (y & b2 & E2 & _ & Hd & _). rewrite E2 in E. injection E as -> ->. congruence.
Qed.

Lemma reads_vbr_loop limit k w v :
  2 <= w <= 32 → 0 < limit → 0 <= v < 2 ^ limit → v < 2 ^ (Z.of_nat k * (w - 1)) → (0 < k <= 65)%nat →
  reads (λ bs, read_vbr_loop limit (vbr_fuel bs) bs w 0 0) (vbr_encode k w v) v.
Proof.
  intros Hw Hlim Hv Hk Hk0 bs rest [Hval Hb Hr Hl] Hlen.
  destruct (read_vbr_loop_encode limit k (vbr_fuel bs) bs w v 0 0 rest) as (bs' & E & Hv' & Hp'); try lia; try done.
  { unfold vbr_fuel. lia. }
  change (2 ^ 0) with 1 in E. rewrite Z.mul_1_l, Z.add_0_l in E. exists bs'. split; [done|]. split; [done|done| |].
  - by eapply read_vbr_loop_remain.
  - destruct (read_vbr_loop_ends limit (vbr_fuel bs) bs w 0 0 Hval ltac:(lia) (vbr_fuel_enough bs Hval))
      as [(y & b2 & E2 & _ & Hd & _)|E2]; rewrite E2 in E; [|done]. injection E as -> ->. congruence.
Qed.

Lemma reads_vbr w v : 2 <= w <= 32 → 0 <= v < 2 ^ 32 → reads (λ bs, read_vbr bs w) (enc_vbr w v) v.
Proof.
  intros Hw Hv bs rest Hb Hlen. unfold read_vbr.
  rewrite (proj2 (Z.ltb_lt 0 w)), (proj2 (Z.leb_le w 32)) by lia. rok.
  apply (reads_vbr_loop 32 33 w v); try lia; try done. by apply (encode_bound w v 32); lia.
Qed.

Lemma reads_vbr64 w v : 2 <= w <= 32 → 0 <= v < 2 ^ 64 → reads (λ bs, read_vbr64 bs w) (enc_vbr64 w v) v.
Proof.
  intros Hw Hv bs rest Hb Hlen. unfold read_vbr64.
  rewrite (proj2 (Z.ltb_lt 0 w)), (proj2 (Z.leb_le w 32)) by lia. rok.
  apply (reads_vbr_loop 64 65 w v); try lia; try done. by apply (encode_bound w v 64); lia.
Qed.

Lemma reads_each {A B C} (rd : A → bcbitstream → res (B * bcbitstream)) (enc : C → list bool) (val : C → B) l cs :
  length l = length cs →
  (∀ k a c, l !! k = Some a → cs !! k = Some c → reads (rd a) (enc c) (val c)) →
  reads (read_each rd l) (concat (map enc cs)) (map val cs).
Proof.
  revert cs; induction l as [|a l IH]; intros [|c cs] Hlen H; try discriminate Hlen; intros bs rest Hb Hrest.
  - by exists bs.
  - cbn [map concat] in Hb. rewrite <- (assoc_L (++)) in Hb. cbn [read_each].
    destruct (H 0%nat a c eq_refl eq_refl bs _ Hb) as (b1 & -> & Hb1); [rewrite length_app; lia|]. rok.
    destruct (IH cs) with (bs := b1) (rest := rest) as (b2 & -> & Hb2); [by injection Hlen| |done..|].
    { intros k x y Hx Hy. by apply (H (S k)). }
    rok. by exists b2.
Qed.

Lemma replicate_lookup_all {A B} (x y : A) (l : list B) m k : replicate m x !! k = Some y → y = x.
Proof. intros [-> _]%lookup_replicate. done. Qed.

(** One read of a sequence of binds: finds the reader at the head of the goal
    and replaces it by its result. *)
Ltac reading H Hb :=
  let b := fresh "b" in let Hn := fresh "Hb" in
  rewrite <- ?(assoc_L (++)) in Hb;
  destruct (H _ _ Hb) as (b & -> & Hn); [rewrite ?length_app; lia|]; rok; clear Hb; rename Hn into Hb.

Lemma u32_pred k i : 0 <= i → i = k → k < 2 ^ 32 → (i =? u32 k) = true.
Proof. intros ? -> ?. rewrite wrap_small by lia. apply Z.eqb_refl. Qed.

Lemma reads_operand numops i o :
  0 <= i < numops → numops < 2 ^ 32 → operand_ok numops i o →
  reads (read_abbrev_operand numops i) (enc_operand o) o.
Proof.
  intros Hi Hn Ho bs rest Hb Hrest. unfold read_abbrev_operand.
  assert (∀ b : bool, reads (λ bs, read_bits bs 1) [b] (if b then 1 else 0)) as H1.
  { intros [|]; [apply (reads_bits 1 1)|apply (reads_bits 1 0)]; done. }
  assert (∀ t, 0 <= t < 8 → reads (λ bs, read_bits bs 3) (enc_fixed 3 t) t) as H3 by (intros; by apply reads_bits).
  destruct o as [d|d|d| | |]; cbn [enc_operand operand_ok] in *;
    lazymatch type of Hb with holds _ _ ((?b :: ?l) ++ ?r) =>
      change ((b :: l) ++ r) with ([b] ++ l ++ r) in Hb; reading (H1 b) Hb end.
  - cbn [Z.eqb negb]. reading (reads_vbr 8 d ltac:(lia) Ho) Hb. by eexists.
  - cbn [Z.eqb negb]. reading (H3 1 ltac:(lia)) Hb. cbn [Z.eqb Pos.eqb negb]. reading (reads_vbr 5 d ltac:(lia) Ho) Hb. by eexists.
  - cbn [Z.eqb negb]. reading (H3 2 ltac:(lia)) Hb. cbn [Z.eqb Pos.eqb negb]. reading (reads_vbr 5 d ltac:(lia) Ho) Hb. by eexists.
  - cbn [Z.eqb negb]. reading (H3 3 ltac:(lia)) Hb. cbn [Z.eqb Pos.eqb negb]. rewrite u32_pred by lia. rok. by eexists.
  - cbn [Z.eqb negb]. reading (H3 4 ltac:(lia)) Hb. cbn [Z.eqb Pos.eqb negb]. by eexists.
  - cbn [Z.eqb negb]. reading (H3 5 ltac:(lia)) Hb. cbn [Z.eqb Pos.eqb negb]. rewrite u32_pred by lia. rok. by eexists.
Qed.

Lemma char6_index_spec (c : ir_arg) : c ∈ char6_table →
  0 <= char6_index c < 64 ∧ char6_table !! Z.to_nat (char6_index c) = Some c.
Proof.
  intros Hc. unfold char6_index. destruct (list_find (λ x : ir_arg, x = c) char6_table) as [[i x]|] eqn:E.
  - apply list_find_Some in E as (Hi & H & _); subst x. change (default 0 (Z.of_nat ∘ fst <$> Some (i, c))) with (Z.of_nat i). rewrite Nat2Z.id. split; [|done].
    apply lookup_lt_Some in Hi. change (length char6_table) with 64%nat in Hi. lia.
  - rewrite list_find_None, list.Forall_forall in E. by destruct (E c Hc).
Qed.

Lemma width_s32 w : 0 <= w <= 32 → s32 w = w.
Proof. intros. apply sgn_small; lia. Qed.

Lemma reads_element type (v : ir_arg) : element_ok type v → reads (read_element type) (enc_element type v) v.
Proof.
  destruct type as [|w|w| | |]; cbn [element_ok enc_element]; intros Hok; try done; intros bs rest Hb Hrest; cbn [read_element].
  - destruct Hok as [Hw Hv]. rewrite width_s32 by lia. by apply reads_bits.
  - destruct Hok as [Hw Hv]. rewrite width_s32 by lia. by apply reads_vbr.
  - destruct (char6_index_spec v Hok) as [Hi Hc].
    reading (reads_bits 6 (char6_index v) ltac:(lia) Hi) Hb. rewrite Hc. rok. by eexists.
Qed.

Lemma reads_array type vs :
  Z.of_nat (length vs) < 2 ^ 31 → (∀ v, v ∈ vs → element_ok type v) →
  reads (load_array type) (enc_field (F_ARRAY type vs)) vs.
Proof.
  intros Hl Hok bs rest Hb Hrest. unfold load_array. cbn [enc_field] in Hb.
  reading (reads_vbr 6 (Z.of_nat (length vs)) ltac:(lia) ltac:(lia)) Hb.
  rewrite sgn_small, Nat2Z.id by lia.
  destruct (reads_each (λ _, read_element type) (enc_element type) id (replicate (length vs) ()) vs)
    with (bs := b) (rest := rest) as (b' & E & Hb'); [by rewrite length_replicate| |done|done|].
  { intros k [] v _ Hv. by apply reads_element, Hok, (list_elem_of_lookup_2 _ k). }
  rewrite map_id in E. eauto.
Qed.

Lemma reads_fields fs :
  fields_ok fs →
  reads (read_fields (concat (map field_operands fs))) (concat (map enc_field fs)) (concat (map field_values fs)).
Proof.
  induction fs as [|f fs IH]; intros [Hok Harr] bs rest Hb Hrest; cbn [map concat] in *.
  { by exists bs. }
  assert (fields_ok fs) as Hfs.
  { split; [intros x Hx; apply Hok, elem_of_cons; by right|]. intros k type vs Hk.
    pose proof (Harr (S k) type vs Hk) as H. cbn in H. lia. }
  assert (field_ok f) as Hf by (apply Hok, elem_of_cons; by left).
  specialize (IH Hfs). destruct f as [v|w v|w v|type vs]; cbn [field_operands enc_field app field_ok] in *.
  - cbn [read_fields]. reading IH Hb. by eexists.
  - destruct Hf as [Hw Hv]. cbn [read_fields]. rewrite width_s32 by lia.
    reading (reads_bits w v Hw Hv) Hb. reading IH Hb. by eexists.
  - destruct Hf as [Hw Hv]. cbn [read_fields]. rewrite width_s32 by lia.
    reading (reads_vbr64 w v Hw Hv) Hb. reading IH Hb. by eexists.
  - pose proof (Harr 0%nat type vs eq_refl) as Hlen. destruct fs; [|discriminate Hlen].
    cbn [map concat field_values read_fields] in *. rewrite !app_nil_r in *. destruct Hf. by apply (reads_array type vs).
Qed.

(** ** Word boundaries *)

Lemma drop_concat_bits j l :
  drop (8 * j) (concat (map (bits_of 8) l)) = concat (map (bits_of 8) (drop j l)).
Proof.
  revert l; induction j as [|j IH]; intros l; [done|]. destruct l as [|x l]; [by rewrite !drop_nil|].
  replace (8 * S j)%nat with (8 + 8 * j)%nat by lia. cbn [map concat].
  rewrite <- drop_drop, drop_app_length' by (by rewrite length_bits_of). apply IH.
Qed.

Lemma VMIR_ALIGN_4 x : 0 <= x → VMIR_ALIGN x 4 = 4 * ((x + 3) / 4).
Proof.
  intros Hx. unfold VMIR_ALIGN. change (Z.lnot (4 - 1)) with (Z.lnot (Z.ones 2)).
  rewrite <- Z.ldiff_land, Z.ldiff_ones_r, Z.shiftl_mul_pow2, Z.shiftr_div_pow2 by lia.
  change (2 ^ 2) with 4. rewrite Z.mul_comm. do 2 f_equal. lia.
Qed.

Lemma align_bits32_spec bs bits :
  holds n bs bits → (4 | n)%nat →
  holds n (align_bits32 bs) (drop (length bits mod 32) bits) ∧ remain (align_bits32 bs) = 0.
Proof.
  intros [[Hvl Hvo Hvr] Hb Hr Hl] [k Hk]. split; [|done].
  assert (bytes_offset (align_bits32 bs) = 4 * ((bytes_offset bs + 3) / 4)) as Ha by (by apply VMIR_ALIGN_4).
  set (o := bytes_offset bs) in *. set (q := (o + 3) / 4) in *.
  assert (4 * q - 3 <= o <= 4 * q) as Hq.
  { unfold q. pose proof (Z.div_mod (o + 3) 4 ltac:(lia)). pose proof (Z.mod_pos_bound (o + 3) 4 ltac:(lia)). lia. }
  clearbody q. split; [split; [done|lia|cbn; lia]| |cbn; lia|done].
  unfold pending at 1. rewrite Ha. change (remain (align_bits32 bs)) with 0.
  change (bits_of (Z.to_nat 0) (tmp (align_bits32 bs))) with (@nil bool). cbn [app].
  change (rdata (align_bits32 bs)) with (rdata bs). rewrite <- Hb, length_pending, Hl. fold o. unfold pending. fold o.
  destruct (decide (o <= Z.of_nat n)) as [Ho|Ho].
  - replace ((Z.to_nat (remain bs) + 8 * (n - Z.to_nat o)) mod 32)%nat
      with (Z.to_nat (remain bs) + 8 * Z.to_nat (4 * q - o))%nat.
    2:{ symmetry. replace (Z.to_nat (remain bs) + 8 * (n - Z.to_nat o))%nat
          with (Z.to_nat (remain bs) + 8 * Z.to_nat (4 * q - o) + (k - Z.to_nat q) * 32)%nat by lia.
        rewrite Nat.Div0.mod_add. apply Nat.mod_small. lia. }
    rewrite <- drop_drop, drop_app_length' by (by rewrite length_bits_of).
    rewrite drop_concat_bits, drop_drop. do 3 f_equal. lia.
  - rewrite !(drop_ge (rdata bs)) by lia. cbn [map concat]. rewrite app_nil_r.
    rewrite drop_ge; [done|]. rewrite length_bits_of. replace (n - Z.to_nat o)%nat with 0%nat by lia.
    rewrite Nat.mod_small by lia. lia.
Qed.

Lemma reads_word x : reads (λ bs, read_bits bs 32) (enc_fixed 32 x) (wrap 32 x).
Proof.
  intros bs rest Hb Hrest. pose proof (wrap_range 32 ltac:(lia) x) as Hx.
  apply (reads_bits 32 (wrap 32 x) ltac:(lia) Hx bs rest); [|done].
  enough (enc_fixed 32 (wrap 32 x) = enc_fixed 32 x) as -> by done.
  unfold enc_fixed, bits_of. apply list_fmap_ext. intros i j Hj%lookup_seq.
  rewrite wrap_testbit, (proj2 (Z.ltb_lt _ _)) by lia. done.
Qed.

Lemma enc_pad_aligned p : (32 | p + length (enc_pad p))%nat.
Proof.
  unfold enc_pad. rewrite length_replicate. pose proof (Z.mod_pos_bound (- Z.of_nat p) 32 ltac:(lia)).
  pose proof (Z.div_mod (- Z.of_nat p) 32 ltac:(lia)). exists (Z.to_nat (- (- Z.of_nat p / 32))). lia.
Qed.

Lemma length_enc_pad p : (length (enc_pad p) < 32)%nat.
Proof. unfold enc_pad. rewrite length_replicate. pose proof (Z.mod_pos_bound (- Z.of_nat p) 32). lia. Qed.

Lemma skip_pad bs p rest :
  (4 | n)%nat → holds n bs (enc_pad p ++ rest) → (32 | length rest)%nat →
  holds n (align_bits32 bs) rest ∧ remain (align_bits32 bs) = 0.
Proof.
  intros Hn Hb [k Hk]. pose proof (length_enc_pad p) as Hp.
  destruct (align_bits32_spec bs _ Hb Hn) as [H Hr]. split; [|done].
  rewrite length_app, Hk, Nat.Div0.mod_add, Nat.mod_small in H by lia. by rewrite drop_app_length in H.
Qed.

Lemma holds_whole bs bits : holds n bs bits → (8 | length bits)%nat → remain bs = 0.
Proof.
  intros [Hv Hb Hr Hl] [k Hk]. pose proof (length_pending bs) as H. rewrite Hb, Hk in H. lia.
Qed.

(** ** The parser on a document *)

Section document.
Context {U : Type} (cl : client U) (Hn : (4 | n)%nat).
Notation state := (parse_state * U)%type.

(** The loop of [ir_parse_blocks] reaches the state [s'] with [rest] to read. *)
Definition goes_on (w : Z) (rh ibi : option Z) (s : state) (bs : bcbitstream) (fuel : nat)
    (s' : state) (rest : list bool) : Prop :=
  ∃ bs' fuel', parse_loop cl fuel w rh ibi s bs = parse_loop cl fuel' w rh ibi s' bs' ∧
    holds n bs' rest ∧ (length rest < fuel')%nat.

Lemma parse_end w rh ibi s bs p rest fuel :
  1 <= w <= 32 → holds n bs (enc_fixed w 0 ++ enc_pad p ++ rest) → (32 <= length rest)%nat →
  (32 | length rest)%nat →
  ∃ bs', parse_loop cl (S fuel) w rh ibi s bs = Ok (s, bs') ∧ holds n bs' rest ∧ remain bs' = 0.
Proof.
  intros Hw Hb Hrest Hal. cbn [parse_loop].
  reading (reads_bits w 0 ltac:(lia) ltac:(split; [done|by apply Z.pow_pos_nonneg; lia])) Hb.
  cbn [Z.eqb]. destruct (skip_pad _ _ _ Hn Hb Hal). eauto.
Qed.

(** One item other than a block. *)
Lemma parse_step w rh ibi s s' bs rest fuel id e :
  2 <= w <= 32 → 2 <= id < 2 ^ w → (32 <= length rest)%nat →
  holds n bs ((enc_fixed w id ++ e) ++ rest) → (length ((enc_fixed w id ++ e) ++ rest) < fuel)%nat →
  (∀ b, holds n b (e ++ rest) → ∃ b',
    (if id =? 2 then ir_define_abbrev s b else if id =? 3 then ir_unabbrev_record cl rh s b
     else ir_dispatch_abbrev cl id rh ibi s b) = Ok (s', b') ∧ holds n b' rest) →
  goes_on w rh ibi s bs fuel s' rest.
Proof.
  intros Hw Hid Hrest Hb Hfuel Hop. destruct fuel as [|fuel]; [lia|].
  assert (0 < length (enc_fixed w id))%nat as Hlen by (unfold enc_fixed; rewrite length_bits_of; lia).
  rewrite !length_app in Hfuel. rewrite <- (assoc_L (++)) in Hb.
  destruct (reads_bits w id ltac:(lia) ltac:(lia) bs _ Hb) as (b & E & Hb1); [rewrite length_app; lia|].
  destruct (Hop b Hb1) as (b' & E' & Hb'). exists b', fuel.
  split; [|split; [done|lia]]. cbn [parse_loop]. rewrite E. rok.
  rewrite (proj2 (Z.eqb_neq id 0)), (proj2 (Z.eqb_neq id 1)) by lia. rewrite E'. by rok.
Qed.

Lemma parse_define w rh ibi s s' bs pos rest fuel ops :
  2 <= w <= 32 → define_ok ops → run_item cl rh ibi s (I_define ops) = Ok s' →
  holds n bs (enc_item w pos (I_define ops) ++ rest) → (32 <= length rest)%nat →
  (length (enc_item w pos (I_define ops) ++ rest) < fuel)%nat →
  goes_on w rh ibi s bs fuel s' rest.
Proof.
  intros Hw [Hl Hops] Hrun Hb Hrest Hfuel. cbn [run_item enc_item] in *.
  assert (2 ^ 2 <= 2 ^ w) by (apply Z.pow_le_mono_r; lia).
  eapply parse_step; [done| |done|done|done|]; [lia|]. clear bs Hb. intros bs Hb. cbn [Z.eqb Pos.eqb].
  unfold ir_define_abbrev. reading (reads_vbr 5 (Z.of_nat (length ops)) ltac:(lia) ltac:(lia)) Hb.
  destruct (reads_each (read_abbrev_operand (Z.of_nat (length ops))) enc_operand id
    (seqZ 0 (Z.of_nat (length ops))) ops) with (bs := b) (rest := rest) as (b' & E & Hb'); [| |done|lia|].
  { by rewrite length_seqZ, Nat2Z.id. }
  { intros k i o [-> Hk]%lookup_seqZ Ho. apply reads_operand; [lia|lia|]. rewrite Z.add_0_l. by apply Hops. }
  rewrite map_id in E. rewrite E. rok. inv_res. rewrite Hm. rok. eauto.
Qed.

Lemma parse_record w rh ibi s s' bs pos rest fuel code ops :
  2 <= w <= 32 → record_ok code ops → run_item cl rh ibi s (I_record code ops) = Ok s' →
  holds n bs (enc_item w pos (I_record code ops) ++ rest) → (32 <= length rest)%nat →
  (length (enc_item w pos (I_record code ops) ++ rest) < fuel)%nat →
  goes_on w rh ibi s bs fuel s' rest.
Proof.
  intros Hw (Hc & Hl & Hops) Hrun Hb Hrest Hfuel. cbn [run_item enc_item] in *.
  assert (2 ^ 2 <= 2 ^ w) by (apply Z.pow_le_mono_r; lia).
  eapply parse_step; [done| |done|done|done|]; [lia|]. clear bs Hb. intros bs Hb. cbn [Z.eqb Pos.eqb].
  unfold ir_unabbrev_record. reading (reads_vbr 6 code ltac:(lia) Hc) Hb.
  reading (reads_vbr 6 (Z.of_nat (length ops)) ltac:(lia) ltac:(lia)) Hb. rewrite Nat2Z.id.
  destruct (reads_each (λ (_ : unit) bs, '(a, bs) ← read_vbr64 bs 6; Ok (s64 a, bs)) (enc_vbr64 6) s64
    (replicate (length ops) ()) ops) with (bs := b0) (rest := rest) as (b' & E & Hb'); [| |done|lia|].
  { by rewrite length_replicate. }
  { intros k [] v _ Hv bs' rest' H' Hrest'.
    reading (reads_vbr64 6 v ltac:(lia) (Hops v (list_elem_of_lookup_2 _ _ _ Hv))) H'. eauto. }
  rewrite E. rok. rewrite Hrun. rok. eauto.
Qed.

Lemma parse_abbrev w rh ibi s s' bs pos rest fuel id fields :
  2 <= w <= 32 → 4 <= id < 2 ^ w → fields_ok fields → run_item cl rh ibi s (I_abbrev id fields) = Ok s' →
  holds n bs (enc_item w pos (I_abbrev id fields) ++ rest) → (32 <= length rest)%nat →
  (length (enc_item w pos (I_abbrev id fields) ++ rest) < fuel)%nat →
  goes_on w rh ibi s bs fuel s' rest.
Proof.
  intros Hw Hid Hf Hrun Hb Hrest Hfuel. cbn [run_item enc_item] in *. inv_res.
  eapply parse_step; [done| |done|done|done|]; [lia|]. clear bs Hb. intros bs Hb.
  rewrite (proj2 (Z.eqb_neq id 2)), (proj2 (Z.eqb_neq id 3)) by lia.
  unfold ir_dispatch_abbrev. rewrite Hm. rok. apply bool_decide_eq_true in Hm0 as ->.
  reading (reads_fields fields Hf) Hb. destruct (concat (map field_values fields)); [done|].
  rewrite Hrun. rok. eauto.
Qed.

(** The items of a block end at [pos + length e] bits of a file that is a whole
    number of words. *)
Notation parses w rh ibi s s' pos e :=
  (∀ bs rest fuel, holds n bs (e ++ rest) → (32 <= length rest)%nat →
     (32 | pos + length e + length rest)%nat → (length (e ++ rest) < fuel)%nat →
     goes_on w rh ibi s bs fuel s' rest).

Lemma known_small id : id ∈ known_blocks → 0 <= id < 32.
Proof. unfold known_blocks. intros H. repeat (apply elem_of_cons in H as [->|H]); [done..|]. by apply not_elem_of_nil in H. Qed.

Lemma s32_small x : 0 <= x < 2 ^ 31 → s32 x = x.
Proof. intros. apply sgn_small; lia. Qed.

Lemma start_block_spec parse w id s bs n0 s' :
  start_block cl id s = Ok (n0, s') →
  (if id =? BITCODE_FUNCTION then enter_function cl parse w id (open_block s.1 id, s.2) bs
   else Ok (0%nat, (open_block s.1 id, s.2))) = Ok (n0, s').
Proof.
  unfold start_block, enter_function. destruct (id =? BITCODE_FUNCTION); [|done]. cbn [fst snd].
  destruct (cl_start_function cl s.2) as [k u]. destruct (cl_vstoffset cl u =? 0); [|done]. done.
Qed.

(** The start of a block: up to its first item. *)
Lemma enter_block w pos id width body bs rest :
  2 <= w <= 32 → id ∈ known_blocks → 2 <= width <= 32 →
  holds n bs (enc_block w pos id width body ++ rest) → (8 < length (body ++ rest))%nat →
  (32 | pos + length (enc_block w pos id width body) + length rest)%nat → (32 | length (body ++ rest))%nat →
  ∃ b1 b2 b3 b4, read_bits bs w = Ok (1, b1) ∧ read_vbr b1 8 = Ok (id, b2) ∧ read_vbr b2 4 = Ok (width, b3) ∧
    read_bits (align_bits32 b3) 32 = Ok (wrap 32 (Z.of_nat (length body) / 32), b4) ∧
    holds n b4 (body ++ rest) ∧ remain b4 = 0.
Proof.
  intros Hw Hid%known_small Hwidth Hb Hrest Hal Hbody. unfold enc_block, enc_header in *.
  set (h := enc_fixed w 1 ++ enc_vbr 8 id ++ enc_vbr 4 width) in *.
  set (word := enc_fixed 32 (Z.of_nat (length body) / 32)) in *.
  assert (length word = 32%nat) as Hword by (unfold word, enc_fixed; by rewrite length_bits_of).
  pose proof (enc_pad_aligned (pos + length h)) as Hpad.
  assert (1 < 2 ^ w) by (apply Z.pow_gt_1; lia).
  rewrite <- !(assoc_L (++)) in Hb. unfold h in Hb. rewrite <- !(assoc_L (++)) in Hb.
  rewrite length_app in Hrest, Hbody.
  destruct (reads_bits w 1 ltac:(lia) ltac:(lia) _ _ Hb) as (b1 & E1 & Hb1); [rewrite !length_app; lia|].
  destruct (reads_vbr 8 id ltac:(lia) ltac:(lia) _ _ Hb1) as (b2 & E2 & Hb2); [rewrite !length_app; lia|].
  destruct (reads_vbr 4 width ltac:(lia) ltac:(lia) _ _ Hb2) as (b3 & E3 & Hb3); [rewrite !length_app; lia|].
  destruct (skip_pad _ _ _ Hn Hb3) as [Hb4 Hr].
  { rewrite !length_app, Hword. destruct Hbody as [k Hk]. exists (S k). lia. }
  destruct (reads_word _ _ _ Hb4) as (b4 & E4 & Hb5); [rewrite length_app; lia|].
  exists b1, b2, b3, b4. split_and!; try done. apply (holds_whole _ _ Hb5). rewrite length_app.
  destruct Hbody as [k Hk]. exists (4 * k)%nat. lia.
Qed.

Lemma close_block_app w e rest :
  close_block w e ++ rest = e ++ enc_fixed w 0 ++ enc_pad (length (e ++ enc_fixed w 0)) ++ rest.
Proof. unfold close_block. by rewrite <- !(assoc_L (++)). Qed.

Lemma close_block_aligned w e : (32 | length (close_block w e))%nat.
Proof. unfold close_block. rewrite length_app. apply enc_pad_aligned. Qed.

Lemma length_enc_block w pos id width body : 2 <= w →
  ∃ k, length (enc_block w pos id width body) = (S k + length body)%nat ∧ (32 | pos + S k)%nat.
Proof.
  intros Hw. unfold enc_block. set (h := enc_header w id width). pose proof (enc_pad_aligned (pos + length h)) as [a Ha].
  assert (0 < length h)%nat.
  { unfold h, enc_header, enc_fixed. rewrite length_app, length_bits_of. lia. }
  exists (length h + length (enc_pad (pos + length h)) + 31)%nat. rewrite !length_app.
  unfold enc_fixed. rewrite length_bits_of. split; [lia|]. exists (S a). lia.
Qed.

(** From the first item of a block to its end. *)
Lemma parse_body width rh ibi s s' bs rest fuel l :
  2 <= width <= 32 →
  (∀ s s' pos rh ibi, run_items cl rh ibi s l = Ok s' → parses width rh ibi s s' pos (enc_items width pos l)) →
  run_items cl rh ibi s l = Ok s' → holds n bs (close_block width (enc_items width 0 l) ++ rest) →
  (32 <= length rest)%nat → (32 | length rest)%nat →
  (length (close_block width (enc_items width 0 l) ++ rest) < fuel)%nat →
  ∃ bs', parse_loop cl fuel width rh ibi s bs = Ok (s', bs') ∧ holds n bs' rest ∧ remain bs' = 0.
Proof.
  intros Hwidth Hl Hrun Hb Hrest [k Hal] Hfuel. pose proof (close_block_aligned width (enc_items width 0 l)) as [j Hj].
  assert (length (close_block width (enc_items width 0 l) ++ rest) = (j + k) * 32)%nat as Hlen by (rewrite length_app; lia).
  rewrite close_block_app in Hb, Hfuel, Hlen. rewrite length_app in Hlen.
  destruct (Hl s s' 0%nat rh ibi Hrun bs _ fuel Hb) as (b1 & fuel1 & -> & Hb1 & Hf1).
  { rewrite !length_app. lia. }
  { exists (j + k)%nat. lia. }
  { done. }
  destruct fuel1 as [|fuel1]; [lia|]. eapply parse_end; [lia|done..|]. by exists k.
Qed.

(** A bind whose first part is known, without looking into the rest. *)
Lemma bind_step {A B} (m : res A) (f : A → res B) a r : m = Ok a → f a = r → m ≫= f = r.
Proof. by intros ->. Qed.

Lemma enter_subblock_spec parse w s b1 id width x b2 b3 b4 b5 n0 s1 s2 u :
  read_vbr b1 8 = Ok (id, b2) → read_vbr b2 4 = Ok (width, b3) →
  read_bits (align_bits32 b3) 32 = Ok (x, b4) → id ∈ known_blocks → 2 <= width <= 32 →
  start_block cl id s = Ok (n0, s1) →
  parse width (Some id) (Some id) s1 b4 = Ok (s2, b5) → cl_end_block cl id n0 s2.2 = Ok u →
  ir_enter_subblock cl parse w s b1 = Ok (block_destroy s2.1, u, b5).
Proof.
  intros E2 E3 E4 Hid Hwidth Hst E5 Hu. pose proof (known_small id Hid).
  unfold ir_enter_subblock.
  eapply bind_step; [exact E2|]. eapply bind_step; [exact E3|]. cbv beta iota zeta.
  eapply bind_step; [exact E4|]. cbv beta iota zeta. rewrite !s32_small by lia.
  rewrite bool_decide_eq_true_2 by done. eapply bind_step; [reflexivity|].
  eapply bind_step; [exact (start_block_spec parse w id s b4 n0 s1 Hst)|].
  eapply bind_step; [exact E5|]. by eapply bind_step; [exact Hu|].
Qed.

Lemma parse_loop_block fuel w rh ibi s bs b1 s' b5 :
  read_bits bs w = Ok (1, b1) →
  ir_enter_subblock cl (λ w rh ibi s bs, _ ← check (remain bs =? 0) AssertFail; parse_loop cl fuel w rh ibi s bs)
    w s b1 = Ok (s', b5) →
  parse_loop cl (S fuel) w rh ibi s bs = parse_loop cl fuel w rh ibi s' b5.
Proof. intros E1 E2. cbn [parse_loop]. rewrite E1. rok. cbn [Z.eqb Pos.eqb]. rewrite E2. by rok. Qed.

Lemma run_item_block rh ibi s id width l :
  run_item cl rh ibi s (I_block id width l) =
    ('(n, s) ← start_block cl id s;
     s ← run_items cl (Some id) (Some id) s l;
     u ← cl_end_block cl id n s.2;
     Ok (block_destroy s.1, u)).
Proof. reflexivity. Qed.

Lemma run_items_then rh ibi s it l :
  run_items cl rh ibi s (I_then it l) = (s ← run_item cl rh ibi s it; run_items cl rh ibi s l).
Proof. reflexivity. Qed.

Lemma parse_block w rh ibi s s' pos id width l :
  2 <= w <= 32 → id ∈ known_blocks → 2 <= width <= 32 →
  (∀ s s' pos rh ibi, run_items cl rh ibi s l = Ok s' → parses width rh ibi s s' pos (enc_items width pos l)) →
  run_item cl rh ibi s (I_block id width l) = Ok s' →
  parses w rh ibi s s' pos (enc_item w pos (I_block id width l)).
Proof.
  intros Hw Hid Hwidth Hl Hrun bs rest fuel Hb Hrest [c Hal] Hfuel.
  change (enc_item w pos (I_block id width l)) with
    (enc_block w pos id width (close_block width (enc_items width 0 l))) in *.
  rewrite run_item_block in Hrun.
  pose proof (close_block_aligned width (enc_items width 0 l)) as [d Hd].
  remember (close_block width (enc_items width 0 l)) as body eqn:Ebody.
  destruct (length_enc_block w pos id width body ltac:(lia)) as (k & Hk & [a Ha]).
  assert (32 | length rest)%nat as Hrl by (exists (c - a - d)%nat; lia).
  assert (length (body ++ rest) = (c - a) * 32)%nat as Hbr by (rewrite length_app; lia).
  destruct (enter_block w pos id width body bs rest Hw Hid Hwidth Hb) as (b1 & b2 & b3 & b4 & E1 & E2 & E3 & E4 & Hb4 & Hr4);
    [rewrite length_app; lia|by exists c|by exists (c - a)%nat|].
  destruct fuel as [|fuel]; [lia|]. rewrite length_app in Hfuel.
  inv_res. destruct a0 as [n0 s1]. inv_res.
  destruct (parse_body width (Some id) (Some id) s1 a0 b4 rest fuel l Hwidth Hl Hm0 Hb4 Hrest Hrl) as (b5 & E5 & Hb5 & _);
    [lia|].
  exists b5, fuel. split; [|split; [done|rewrite length_app in Hbr; lia]].
  rewrite (parse_loop_block fuel w rh ibi s bs b1 (block_destroy a0.1, a1) b5 E1); [done|].
  eapply enter_subblock_spec; try done. by rewrite Hr4.
Qed.

Lemma parse_items l : ∀ w rh ibi s s' pos,
  2 <= w <= 32 → items_ok w l → run_items cl rh ibi s l = Ok s' → parses w rh ibi s s' pos (enc_items w pos l).
Proof.
  refine (items_mut (λ it, ∀ w rh ibi s s' pos,
    2 <= w <= 32 → item_ok w it → run_item cl rh ibi s it = Ok s' → parses w rh ibi s s' pos (enc_item w pos it))
    (λ l, ∀ w rh ibi s s' pos,
    2 <= w <= 32 → items_ok w l → run_items cl rh ibi s l = Ok s' → parses w rh ibi s s' pos (enc_items w pos l))
    _ _ _ _ _ _ l); clear l.
  - intros id width l IH w rh ibi s s' pos Hw [[Hid Hwidth] Hok] Hrun. apply parse_block; try done.
    intros s0 s0' pos0 rh0 ibi0 Hrun0. by apply IH.
  - intros ops w rh ibi s s' pos Hw Hok Hrun bs rest fuel Hb Hrest _ Hfuel. by eapply parse_define.
  - intros code ops w rh ibi s s' pos Hw Hok Hrun bs rest fuel Hb Hrest _ Hfuel. by eapply parse_record.
  - intros id fields w rh ibi s s' pos Hw [Hid Hok] Hrun bs rest fuel Hb Hrest _ Hfuel. by eapply parse_abbrev.
  - intros w rh ibi s s' pos Hw _ [= <-] bs rest fuel Hb Hrest _ Hfuel. by exists bs, fuel.
  - intros it IHit l IHl w rh ibi s s' pos Hw [Hit Hl] Hrun bs rest fuel Hb Hrest Hal Hfuel.
    change (enc_items w pos (I_then it l)) with
      (enc_item w pos it ++ enc_items w (pos + length (enc_item w pos it)) l) in *.
    rewrite run_items_then in Hrun. set (e := enc_item w pos it) in *. inv_res. rewrite <- (assoc_L (++)) in Hb. rewrite !length_app in Hal. rewrite !length_app in Hfuel.
    destruct (IHit w rh ibi s a pos Hw Hit Hm bs (enc_items w (pos + length e) l ++ rest) fuel Hb)
      as (b1 & fuel1 & E1 & Hb1 & Hf1); [rewrite length_app; lia| |fold e; rewrite !length_app; lia|].
    { fold e. rewrite length_app. destruct Hal as [k Hk]. exists k. lia. }
    destruct (IHl w rh ibi a s' (pos + length e)%nat Hw Hl Hrun b1 rest fuel1 Hb1 Hrest) as (b2 & fuel2 & E2 & Hb2 & Hf2); [|done|].
    { destruct Hal as [k Hk]. exists k. lia. }
    exists b2, fuel2. by rewrite E1.
Qed.
End document.
End readers.

(** ** The parser ends *)

(** A step does not run out of fuel and leaves no more of the stream than it
    found. *)
Definition shrinks {A} (bs : bcbitstream) (r : res (A * bcbitstream)) : Prop :=
  match r with
  | Ok (_, bs') => bs_valid bs' ∧ (length (pending bs') <= length (pending bs))%nat
  | Fail e => e ≠ NoFuel
  end.

Lemma shrinks_bind {A B} bs (m : res (A * bcbitstream)) (f : A * bcbitstream → res (B * bcbitstream)) :
  shrinks bs m →
  (∀ a bs', bs_valid bs' → (length (pending bs') <= length (pending bs))%nat → shrinks bs' (f (a, bs'))) →
  shrinks bs (m ≫= f).
Proof.
  intros Hm Hf. destruct m as [[a b]|e]; [|done]. destruct Hm as [Hv Hl]. specialize (Hf a b Hv Hl).
  cbn [mbind res_bind]. destruct (f (a, b)) as [[c b']|]; [|done]. cbn in *. destruct Hf. split; [done|lia].
Qed.

Lemma shrinks_pure {A B} bs (m : res A) (f : A → res (B * bcbitstream)) :
  m ≠ Fail NoFuel → (∀ a, m = Ok a → shrinks bs (f a)) → shrinks bs (m ≫= f).
Proof. intros Hm Hf. destruct m as [a|e]; [by apply Hf|]. cbn. congruence. Qed.

Lemma shrinks_ok {A} bs (a : A) : bs_valid bs → shrinks bs (Ok (a, bs)).
Proof. intros. by split. Qed.

Lemma read_bits_loop_shrinks fuel bs num off r :
  bs_valid bs → (Z.to_nat num <= fuel)%nat →
  match read_bits_loop fuel bs num off r with
  | Ok (x, bs') => bs_valid bs' ∧ (length (pending bs') <= length (pending bs))%nat ∧
      (0 < num → x ≠ 0 → (length (pending bs') < length (pending bs))%nat)
  | Fail e => e ≠ NoFuel
  end.
Proof.
  revert bs num off r; induction fuel as [|fuel IH]; intros bs num off r Hv Hf; cbn [read_bits_loop];
    destruct (Z.leb_spec num 0); try lia; try (split_and!; [done|lia|lia]).
  destruct (Z.leb_spec (bytes_length bs) (bytes_offset bs)) as [|Hm]; [by split_and!|].
  destruct (refill_spec bs Hv Hm) as (b1 & -> & Hv1 & <- & Hr1 & _). rok.
  destruct (off <? 32); [|done]. rok. set (pick := VMIR_MIN num (remain b1)).
  assert (0 < pick <= num ∧ pick <= remain b1) as Hpk.
  { unfold pick, VMIR_MIN. destruct (Z.ltb_spec num (remain b1)); lia. }
  clearbody pick. destruct (pick_spec b1 pick Hv1 ltac:(lia)) as (Hv2 & Hp2 & _). set (b2 := mk_bs _ _ _ _ _) in *.
  assert (length (pending b2) < length (pending b1))%nat as Hlt.
  { rewrite Hp2, length_drop, (length_pending b1). lia. }
  match goal with |- context [read_bits_loop fuel b2 ?m ?o ?q] => specialize (IH b2 m o q Hv2 ltac:(lia)) end.
  destruct (read_bits_loop _ _ _ _ _) as [[x b3]|]; [|done]. destruct IH as (Hv3 & Hl3 & _). split_and!; [done|lia|lia].
Qed.

Lemma read_bits_shrinks bs num : bs_valid bs → shrinks bs (read_bits bs num).
Proof.
  intros Hv. pose proof (read_bits_loop_shrinks (Z.to_nat num) bs num 0 0 Hv ltac:(lia)) as H.
  unfold read_bits, shrinks. destruct (read_bits_loop _ _ _ _ _) as [[x b]|]; [|done]. by destruct H as (? & ? & _).
Qed.

Lemma read_bits_less bs num x bs' :
  bs_valid bs → read_bits bs num = Ok (x, bs') → x ≠ 0 → (length (pending bs') < length (pending bs))%nat.
Proof.
  intros Hv H Hx. pose proof (read_bits_loop_shrinks (Z.to_nat num) bs num 0 0 Hv ltac:(lia)) as H'.
  unfold read_bits in H. destruct (Z.le_gt_cases num 0).
  - rewrite Z2Nat.nonpos in H by lia. cbn in H. rewrite (proj2 (Z.leb_le num 0)) in H by lia. congruence.
  - rewrite H in H'. apply H'; [lia|done].
Qed.

Lemma vbr_loop_shrinks limit bs width :
  bs_valid bs → shrinks bs (_ ← check (0 <? width) AssertFail; _ ← check (width <=? 32) Undef;
                            read_vbr_loop limit (vbr_fuel bs) bs width 0 0).
Proof.
  intros Hv. destruct (Z.ltb_spec 0 width); [rok|done]. destruct (Z.leb_spec width 32); [rok|done].
  destruct (read_vbr_loop_ends limit (vbr_fuel bs) bs width 0 0 Hv ltac:(lia) (vbr_fuel_enough bs Hv))
    as [(v & b & -> & Hv' & _ & Hl)| ->]; [|done]. by split.
Qed.

Lemma read_vbr_shrinks bs width : bs_valid bs → shrinks bs (read_vbr bs width).
Proof. apply vbr_loop_shrinks. Qed.
Lemma read_vbr64_shrinks bs width : bs_valid bs → shrinks bs (read_vbr64 bs width).
Proof. apply vbr_loop_shrinks. Qed.

Lemma read_each_shrinks {A B} (rd : A → bcbitstream → res (B * bcbitstream)) l bs :
  (∀ a bs, bs_valid bs → shrinks bs (rd a bs)) → bs_valid bs → shrinks bs (read_each rd l bs).
Proof.
  intros Hrd. revert bs; induction l as [|a l IH]; intros bs Hv; [by apply shrinks_ok|].
  apply shrinks_bind; [by apply Hrd|]. intros b bs1 Hv1 _. apply shrinks_bind; [by apply IH|].
  intros r bs2 Hv2 _. by apply shrinks_ok.
Qed.

Create HintDb shrinks.
#[export] Hint Resolve read_bits_shrinks read_vbr_shrinks read_vbr64_shrinks @shrinks_ok : shrinks.

(** Goes through the binds of a reader. *)
Ltac shrink :=
  repeat match goal with
  | |- shrinks _ (Ok (_, _)) => by apply shrinks_ok
  | |- shrinks _ (Fail _) => done
  | |- shrinks _ (check ?b ?e ≫= _) => apply shrinks_pure; [by destruct b|]; intros ? _
  | |- shrinks _ (oget ?b ?e ≫= _) => apply shrinks_pure; [by destruct b|]; intros ? _
  | |- shrinks _ (mbind _ _) => apply shrinks_bind; [by auto with shrinks|]; intros ? ? ? _; cbv beta iota
  | |- shrinks _ (if ?b then _ else _) => destruct b
  | |- shrinks _ _ => by auto with shrinks
  end.

Lemma read_abbrev_operand_shrinks numops i bs : bs_valid bs → shrinks bs (read_abbrev_operand numops i bs).
Proof. intros Hv. unfold read_abbrev_operand. shrink. Qed.

Lemma read_element_shrinks type bs : bs_valid bs → shrinks bs (read_element type bs).
Proof. intros Hv. destruct type; cbn [read_element]; shrink. Qed.

Lemma load_array_shrinks type bs : bs_valid bs → shrinks bs (load_array type bs).
Proof.
  intros Hv. apply shrinks_bind; [by auto with shrinks|]. intros m bs1 Hv1 _. apply read_each_shrinks; [|done].
  intros _. apply read_element_shrinks.
Qed.

Lemma read_fields_shrinks ops bs : bs_valid bs → shrinks bs (read_fields ops bs).
Proof.
  revert bs; induction ops as [|[d|d|d| | |] ops IH]; intros bs Hv; cbn [read_fields]; shrink.
  destruct ops as [|type [|? ?]]; [done| |done]. by apply load_array_shrinks.
Qed.

Lemma align_shrinks bs : bs_valid bs →
  bs_valid (align_bits32 bs) ∧ (length (pending (align_bits32 bs)) <= length (pending bs))%nat.
Proof.
  intros [Hl Ho Hr]. pose proof (VMIR_ALIGN_4 (bytes_offset bs) Ho) as Ha.
  assert (bytes_offset bs <= VMIR_ALIGN (bytes_offset bs) 4) as Hge.
  { rewrite Ha. pose proof (Z.div_mod (bytes_offset bs + 3) 4 ltac:(lia)). pose proof (Z.mod_pos_bound (bytes_offset bs + 3) 4 ltac:(lia)). lia. }
  split; [split; [done| |cbn; lia]|].
  - change (bytes_offset (align_bits32 bs)) with (VMIR_ALIGN (bytes_offset bs) 4). lia.
  - rewrite !length_pending. change (rdata (align_bits32 bs)) with (rdata bs).
    change (bytes_offset (align_bits32 bs)) with (VMIR_ALIGN (bytes_offset bs) 4).
    change (remain (align_bits32 bs)) with 0. lia.
Qed.

Section ends.
Context {U : Type} (cl : client U).

(** The rest of the unit ends and reads no symbol table ahead. *)
Record client_ends : Prop := {
  ce_record b u op argv : cl_record cl b u op argv ≠ Fail NoFuel;
  ce_vstoffset u : cl_vstoffset cl (cl_start_function cl u).2 = 0;
  ce_next u : cl_next_function cl u ≠ Fail NoFuel;
  ce_end b k u : cl_end_block cl b k u ≠ Fail NoFuel;
}.
Context (Hcl : client_ends).

Lemma bind_fuel {A B} (m : res A) (f : A → res B) :
  m ≠ Fail NoFuel → (∀ a, f a ≠ Fail NoFuel) → (m ≫= f) ≠ Fail NoFuel.
Proof. intros Hm Hf. destruct m as [a|e]; [apply Hf|]. cbn. congruence. Qed.

Lemma add_abbrev_fuel ps ia : add_abbrev ps ia ≠ Fail NoFuel.
Proof. unfold add_abbrev, current_block. destruct (head _) as [b|]; [rok|done]. by destruct (ib_blockinfo b). Qed.

Lemma find_abbrev_fuel ps ibi id : find_abbrev ps ibi id ≠ Fail NoFuel.
Proof.
  unfold find_abbrev, current_block. destruct ibi; [rok|done]. destruct (blockinfo_abbrevs _ _); [rok|done].
  case_bool_decide; [destruct (head _); [rok|done]|]; by destruct (_ !! _).
Qed.

Lemma call_handler_fuel rh s op argv : call_handler cl rh s op argv ≠ Fail NoFuel.
Proof.
  unfold call_handler. destruct rh as [b|]; [rok|done]. destruct (b =? _).
  - apply bind_fuel; [|done]. unfold blockinfo_rec_handler, current_block. destruct (head _); [rok|done].
    destruct (op =? 1); [|done]. by destruct argv as [|? [|]].
  - apply bind_fuel; [apply Hcl|done].
Qed.

Lemma define_abbrev_shrinks s bs : bs_valid bs → shrinks bs (@ir_define_abbrev U s bs).
Proof.
  intros Hv. unfold ir_define_abbrev. apply shrinks_bind; [by auto with shrinks|]. intros m b2 Hv2 _.
  apply shrinks_bind; [apply read_each_shrinks; [|done]; intros i bs0 Hv0; by apply read_abbrev_operand_shrinks|].
  intros ia b3 Hv3 _. apply shrinks_pure; [apply add_abbrev_fuel|]. intros ps _. by apply shrinks_ok.
Qed.

Lemma unabbrev_record_shrinks rh s bs : bs_valid bs → shrinks bs (ir_unabbrev_record cl rh s bs).
Proof.
  intros Hv. unfold ir_unabbrev_record. apply shrinks_bind; [by auto with shrinks|]. intros code b2 Hv2 _.
  apply shrinks_bind; [by auto with shrinks|]. intros m b3 Hv3 _.
  apply shrinks_bind; [apply read_each_shrinks; [|done]; intros _ bs0 Hv0; shrink|].
  intros argv b4 Hv4 _. apply shrinks_pure; [apply call_handler_fuel|]. intros s' _. by apply shrinks_ok.
Qed.

Lemma dispatch_abbrev_shrinks id rh ibi s bs : bs_valid bs → shrinks bs (ir_dispatch_abbrev cl id rh ibi s bs).
Proof.
  intros Hv. unfold ir_dispatch_abbrev. apply shrinks_pure; [apply find_abbrev_fuel|]. intros ia _.
  apply shrinks_bind; [by apply read_fields_shrinks|]. intros argv b3 Hv3 _. destruct argv; [done|].
  apply shrinks_pure; [apply call_handler_fuel|]. intros s' _. by apply shrinks_ok.
Qed.

Lemma enter_function_fuel (parse : parser) w id s bs : enter_function cl parse w id s bs ≠ Fail NoFuel.
Proof.
  unfold enter_function. pose proof (ce_vstoffset Hcl s.2) as Hv0.
  destruct (cl_start_function cl s.2) as [k u]. cbn [snd] in Hv0.
  rewrite Hv0. cbn [Z.eqb]. rok. apply bind_fuel; [apply Hcl|done].
Qed.

(** Nested blocks start with no more of the stream than is left after the
    header of the block. *)
Lemma enter_subblock_shrinks (parse : parser) w s bs :
  bs_valid bs →
  (∀ w rh ibi s b, bs_valid b → (length (pending b) <= length (pending bs))%nat → shrinks b (parse w rh ibi s b)) →
  shrinks bs (ir_enter_subblock cl parse w s bs).
Proof.
  intros Hv Hparse. unfold ir_enter_subblock. apply shrinks_bind; [by auto with shrinks|]. intros id b2 Hv2 Hl2.
  apply shrinks_bind; [by auto with shrinks|]. intros width b3 Hv3 Hl3. cbv beta iota zeta.
  pose proof (align_shrinks b3 Hv3) as [Hv3' Hl3'].
  pose proof (read_bits_shrinks (align_bits32 b3) 32 Hv3') as H.
  destruct (read_bits (align_bits32 b3) 32) as [[x b4]|]; [|done]. destruct H as [Hv4 Hl4]. rok.
  destruct (bool_decide _); [rok|done].
  enough (shrinks b4 ('(n, s0) ← (if id =? BITCODE_FUNCTION then enter_function cl parse w id (open_block s.1 (s32 id), s.2) b4
      else Ok (0%nat, (open_block s.1 (s32 id), s.2)));
      '(s0, bs0) ← parse (s32 width) (Some id) (Some id) s0 b4;
      u ← cl_end_block cl id n s0.2; Ok (block_destroy s0.1, u, bs0))) as H.
  { destruct (_ ≫= _) as [[? ?]|]; [|done]. destruct H. split; [done|lia]. }
  apply shrinks_pure; [destruct (id =? _); [apply enter_function_fuel|done]|]. intros [k s0] _.
  apply shrinks_bind; [apply Hparse; [done|lia]|]. intros s1 b5 Hv5 _.
  apply shrinks_pure; [apply Hcl|]. intros u _. by apply shrinks_ok.
Qed.

Lemma parse_loop_shrinks fuel w rh ibi s bs :
  bs_valid bs → (length (pending bs) < fuel)%nat → shrinks bs (parse_loop cl fuel w rh ibi s bs).
Proof.
  revert w rh ibi s bs; induction fuel as [|fuel IH]; intros w rh ibi s bs Hv Hf; [lia|]. cbn [parse_loop].
  pose proof (read_bits_shrinks bs w Hv) as H. destruct (read_bits bs w) as [[id b1]|e] eqn:E; [|done].
  destruct H as [Hv1 Hl1]. rok. destruct (Z.eqb_spec id 0) as [|Hid].
  { pose proof (align_shrinks b1 Hv1) as [? ?]. split; [done|lia]. }
  pose proof (read_bits_less bs w id b1 Hv E Hid) as Hlt.
  match goal with |- shrinks bs (?m ≫= ?f) => enough (shrinks b1 (m ≫= f)) as H end.
  { destruct (_ ≫= _) as [[? ?]|]; [|done]. destruct H. split; [done|lia]. }
  apply shrinks_bind; [|intros s' b2 Hv2 Hl2; apply IH; [done|lia]].
  destruct (id =? 1); [|destruct (id =? 2); [|destruct (id =? 3)]].
  - apply enter_subblock_shrinks; [done|]. intros w1 rh1 ibi1 s1 b Hb Hlb.
    apply shrinks_pure; [by destruct (remain b =? 0)|]. intros _ _. apply IH; [done|lia].
  - by apply define_abbrev_shrinks.
  - by apply unabbrev_record_shrinks.
  - by apply dispatch_abbrev_shrinks.
Qed.
End ends.

(** ** Properties *)

Lemma bs_init_holds data : holds (length data) (bs_init data) (concat (map (bits_of 8) data)).
Proof. split; [by split|done|cbn; lia|done]. Qed.

(** C6: a file that consists of the items [l] is parsed into what the handlers
    do with these items, one after the other: blocks are entered and left,
    abbreviations are kept where they are defined (in a block or, inside
    BLOCKINFO, for all blocks with a number), and every record reaches the
    handler of its block with the values that were written, whatever
    abbreviation it uses. The file is a whole number of words and ends with two
    words of zeros. *)
Theorem parse_file_written {U} (cl : client U) (u : U) data l s' :
  (4 | length data)%nat → items_ok 2 l →
  concat (map (bits_of 8) data) = enc_fixed 32 0xdec04342 ++ enc_items 2 32 l ++ replicate 64 false →
  run_items cl None None (mk_parse [] [], u) l = Ok s' →
  parse_file cl u data = Ok (Some s'.2).
Proof.
  intros Hn Hok Hdata Hrun. pose proof (bs_init_holds data) as Hb. rewrite Hdata in Hb.
  destruct (reads_word (length data) _ _ _ Hb) as (b1 & E1 & Hb1); [rewrite length_app, length_replicate; lia|].
  assert (length (concat (map (bits_of 8) data)) = (8 * length data)%nat) as Hlen by apply length_concat_bits.
  rewrite Hdata, !length_app, length_replicate in Hlen. unfold enc_fixed at 1 in Hlen. rewrite length_bits_of in Hlen.
  destruct Hn as [k Hk]. unfold parse_file. rewrite E1. rok.
  change (negb (wrap 32 0xdec04342 =? 0xdec04342)) with false. cbv iota. unfold ir_parse_blocks.
  rewrite (holds_whole (length data) b1 _ Hb1); [|exists (4 * k - 4)%nat; rewrite length_app, length_replicate; lia].
  cbn [Z.eqb]. rok.
  destruct (parse_items (length data) cl (ex_intro _ k Hk) l 2 None None (mk_parse [] [], u) s' 32%nat ltac:(lia) Hok Hrun
    b1 (replicate 64 false) (S (8 * length data)) Hb1) as (b2 & fuel & -> & Hb2 & Hf).
  { rewrite length_replicate. lia. }
  { rewrite length_replicate. exists k. lia. }
  { rewrite length_app, length_replicate. lia. }
  destruct fuel as [|fuel]; [lia|].
  destruct (parse_end (length data) cl (ex_intro _ k Hk) 2 None None s' b2 2 (replicate 32 false) fuel ltac:(lia) Hb2)
    as (b3 & -> & _); [by rewrite length_replicate|by exists 1%nat|done].
Qed.

(** The bytes of a list of bits. *)
Fixpoint bytes_of (l : list bool) : list Z :=
  match l with
  | a :: b :: c :: d :: e :: f :: g :: h :: l => bits_val [a; b; c; d; e; f; g; h] :: bytes_of l
  | _ => []
  end.
Definition file_bytes (l : items) : list Z :=
  bytes_of (enc_fixed 32 0xdec04342 ++ enc_items 2 32 l ++ replicate 64 false).

(** A unit that notes the records it gets, with the number of their block. *)
Definition example_client : client (list (Z * Z * list ir_arg)) := {|
  cl_record b u op argv := Ok (u ++ [(b, op, argv)]);
  cl_vstoffset _ := 0;
  cl_clear_vstoffset u := u;
  cl_start_function u := (0%nat, u);
  cl_next_function u := Ok u;
  cl_end_block _ _ u := Ok u;
|}.

(** A module with an abbreviation for the types block and one of its own. *)
Definition example_items : items :=
  I_then (I_block BITCODE_MODULE 3
    (I_then (I_record 1 [2])
    (I_then (I_block BITCODE_BLOCKINFO 2
      (I_then (I_record 1 [17])
      (I_then (I_define [IAOT_LITTERAL 7; IAOT_VBR 6]) I_end)))
    (I_then (I_define [IAOT_FIXED_WIDTH 3; IAOT_ARRAY; IAOT_CHAR6])
    (I_then (I_block BITCODE_TYPES_NEW 4 (I_then (I_abbrev 4 [F_LITTERAL 7; F_VBR 6 1000]) I_end))
    (I_then (I_abbrev 4 [F_FIXED_WIDTH 3 2; F_ARRAY IAOT_CHAR6 [97; 46; 90]]) I_end)))))) I_end.

Lemma parse_file_written_witness :
  parse_file example_client [] (file_bytes example_items) =
    Ok (Some [(BITCODE_MODULE, 1, [2]); (BITCODE_TYPES_NEW, 7, [1000]); (BITCODE_MODULE, 2, [97; 46; 90])]).
Proof.
  apply (parse_file_written example_client [] (file_bytes example_items) example_items
    (mk_parse [] [(17, [[IAOT_LITTERAL 7; IAOT_VBR 6]]); (0, []); (8, [])],
     [(BITCODE_MODULE, 1, [2]); (BITCODE_TYPES_NEW, 7, [1000]); (BITCODE_MODULE, 2, [97; 46; 90])])).
  - exists (length (file_bytes example_items) / 4)%nat. by vm_compute.
  - assert (∀ (P : Z → Prop) x, P x → ∀ v, v ∈ [x] → P v) as H1 by (intros P x Hx v ->%list_elem_of_singleton; done).
    assert (∀ (P : field → Prop) x y, P x → P y → ∀ v, v ∈ [x; y] → P v) as H2
      by (intros P x y Hx Hy v [->| ->%list_elem_of_singleton]%elem_of_cons; done).
    assert (∀ c v, 0 <= c < 2 ^ 32 → 0 <= v < 2 ^ 64 → record_ok c [v]) as Hr.
    { intros c v Hc Hv. split; [done|]. split; [done|]. by apply (H1 (λ v, 0 <= v < 2 ^ 64)). }
    split; [|done]. split; [split; [set_solver|lia]|].
    split; [apply Hr; lia|].
    split.
    { split; [split; [set_solver|lia]|]. split; [apply Hr; lia|]. split; [|done].
      split; [done|]. intros [|[|k]] o; [by intros [= <-]..|]. done. }
    split.
    { split; [done|]. intros [|[|[|k]]] o; [by intros [= <-]..|]. done. }
    split.
    { split; [split; [set_solver|lia]|]. split; [|done]. split; [done|]. split; [by apply H2; cbn; lia|].
      intros [|[|k]] type vs; done. }
    split; [|done]. split; [done|]. split; [|intros [|[|k]] type vs; done].
    apply H2; cbn; [lia|]. split; [lia|]. intros v Hv. repeat (apply elem_of_cons in Hv as [->|Hv]; [set_solver|]).
    by apply not_elem_of_nil in Hv.
  - by vm_compute.
  - by vm_compute.
Defined.

(** C13: parsing ends on every input, well formed or not, as long as the
    handlers end and no symbol table is read ahead: each abbreviation id and
    each block header takes bits from the stream, and a stream without bits
    yields the id 0, which ends a block. *)
Theorem parse_file_ends {U} (cl : client U) u data :
  client_ends cl → parse_file cl u data ≠ Fail NoFuel.
Proof.
  intros Hcl. unfold parse_file. assert (bs_valid (bs_init data)) as Hv by apply (bs_init_holds data).
  pose proof (read_bits_shrinks (bs_init data) 32 Hv) as H.
  destruct (read_bits (bs_init data) 32) as [[x b]|e]; [|cbn; cbn in H; congruence]. destruct H as [Hb Hl].
  rok. destruct (negb _); [done|]. unfold ir_parse_blocks. destruct (remain b =? 0); [rok|done].
  pose proof (parse_loop_shrinks cl Hcl (S (8 * length data)) 2 None None (mk_parse [] [], u) b Hb) as Hp.
  destruct (parse_loop _ _ _ _ _ _ _) as [[s b2]|e]; [done|]. rok. intros [= ->]. apply Hp; [|done].
  rewrite (length_pending (bs_init data)) in Hl. cbn [bs_init remain bytes_offset rdata] in Hl. lia.
Qed.

Lemma example_client_ends : client_ends example_client.
Proof. by split. Qed.

(** A file that is cut off in a record. *)
Lemma parse_file_ends_witness :
  parse_file example_client [] (take 14 (file_bytes example_items)) ≠ Fail NoFuel.
Proof. apply (parse_file_ends example_client [] _ example_client_ends). Defined.

(** A function block without content. *)
Definition endless_file : list Z := file_bytes (I_then (I_block BITCODE_FUNCTION 2 I_end) I_end).

Lemma endless_reads t :
  read_bits (mk_bs endless_file 24 4 0 t) 2 = Ok (1, mk_bs endless_file 24 5 6 12) ∧
  read_vbr (mk_bs endless_file 24 5 6 12) 8 = Ok (12, mk_bs endless_file 24 6 6 2) ∧
  read_vbr (mk_bs endless_file 24 6 6 2) 4 = Ok (2, mk_bs endless_file 24 6 2 0) ∧
  read_bits (align_bits32 (mk_bs endless_file 24 6 2 0)) 32 = Ok (1, mk_bs endless_file 24 12 0 0).
Proof. split_and!; by vm_compute. Qed.

Definition endless_client : client unit :=
  mk_client unit (λ _ u _ _, Ok u) (λ _, 1) (λ u, u) (λ u, (0%nat, u)) Ok (λ _ _, Ok).


(** The same value is read differently as an operand and as an element of
    an array: elements are read with [read_vbr], which keeps 32 bits, so 2^32
    becomes 0; and a value of more than 35 bits stops at its assertion. *)
Theorem load_array_32_bits :
  let operand v := bytes_of (enc_vbr64 6 v ++ replicate 32 false) in
  let array v := bytes_of (enc_vbr 6 1 ++ enc_vbr64 6 v ++ replicate 32 false) in
  fst <$> read_fields [IAOT_VBR 6] (bs_init (operand (2 ^ 32))) = Ok [2 ^ 32] ∧
  fst <$> read_fields [IAOT_ARRAY; IAOT_VBR 6] (bs_init (array (2 ^ 32))) = Ok [0] ∧
  fst <$> read_fields [IAOT_VBR 6] (bs_init (operand (2 ^ 40))) = Ok [2 ^ 40] ∧
  read_fields [IAOT_ARRAY; IAOT_VBR 6] (bs_init (array (2 ^ 40))) = Fail AssertFail.
Proof. split_and!; by vm_compute. Qed.
