(* ===== verification/Unit.v ===== *)
(** The unit that is loaded and the records that build it: the record handlers
    of [src/src/vmir_bitcode_parser.c] apart from those of function blocks
    ([FuncParse]), with [vmop_resolve] of [src/src/vmir_vm.c] and
    [function_prepare_parse] of [src/src/vmir_function.c]. *)
From Stdlib Require Import Ascii String.
From S2P Require Import Prelude Support Bitstream Types Values ConstExpr VmOps Instr Bitcode.
Local Open Scope Z_scope.

(** ** State *)

(** [ir_attr_t] and [ir_attrset_t]. *)
Record ir_attr := mk_attr { ia_group_id : Z; ia_index : Z; ia_flags : Z }.
Definition ir_attrset : Type := list ir_attr.

(** [ir_function_t] as the parser and the transformations use it; its
    [if_gfid] is its position in [iu_functions]. A host function is a number. *)
Record ir_function := mk_func {
  if_type : Z;
  if_name : option (list Z);
  if_isproto : bool;
  if_used : bool;
  if_regframe_size : Z;
  if_callarg_size : Z;
  if_vmop : Z;
  if_vmop_args : Z;
  if_ext_func : option Z;
  if_num_bbs : Z;
  if_bbs : list ir_bb;
}.

(** [ir_unit_t], the part that parsing reads and writes. Functions and blocks
    are named by [if_gfid] and [ib_id]. *)
Record ir_unit := mk_unit {
  iu_values : value_state;
  iu_data_ptr : Z;
  iu_version : Z;
  iu_triple : option (list Z);
  iu_vstoffset : Z;
  iu_attribute_groups : list ir_attr;
  iu_attrsets : list ir_attrset;
  iu_functions : list ir_function;
  iu_functions_with_bodies : list nat;
  iu_initializers : list (Z * Z);
  iu_current_type : Z;
  iu_first_func_value : nat;
  iu_current_function : option nat;
  iu_current_bb : option Z;
}.

Definition set_values (u : ir_unit) (vs : value_state) : ir_unit :=
  mk_unit vs (iu_data_ptr u) (iu_version u) (iu_triple u) (iu_vstoffset u) (iu_attribute_groups u)
    (iu_attrsets u) (iu_functions u) (iu_functions_with_bodies u) (iu_initializers u)
    (iu_current_type u) (iu_first_func_value u) (iu_current_function u) (iu_current_bb u).
Definition set_data_ptr (u : ir_unit) (p : Z) : ir_unit :=
  mk_unit (iu_values u) p (iu_version u) (iu_triple u) (iu_vstoffset u) (iu_attribute_groups u)
    (iu_attrsets u) (iu_functions u) (iu_functions_with_bodies u) (iu_initializers u)
    (iu_current_type u) (iu_first_func_value u) (iu_current_function u) (iu_current_bb u).
Definition set_version (u : ir_unit) (v : Z) : ir_unit :=
  mk_unit (iu_values u) (iu_data_ptr u) v (iu_triple u) (iu_vstoffset u) (iu_attribute_groups u)
    (iu_attrsets u) (iu_functions u) (iu_functions_with_bodies u) (iu_initializers u)
    (iu_current_type u) (iu_first_func_value u) (iu_current_function u) (iu_current_bb u).
Definition set_triple (u : ir_unit) (t : option (list Z)) : ir_unit :=
  mk_unit (iu_values u) (iu_data_ptr u) (iu_version u) t (iu_vstoffset u) (iu_attribute_groups u)
    (iu_attrsets u) (iu_functions u) (iu_functions_with_bodies u) (iu_initializers u)
    (iu_current_type u) (iu_first_func_value u) (iu_current_function u) (iu_current_bb u).
Definition set_vstoffset (u : ir_unit) (o : Z) : ir_unit :=
  mk_unit (iu_values u) (iu_data_ptr u) (iu_version u) (iu_triple u) o (iu_attribute_groups u)
    (iu_attrsets u) (iu_functions u) (iu_functions_with_bodies u) (iu_initializers u)
    (iu_current_type u) (iu_first_func_value u) (iu_current_function u) (iu_current_bb u).
Definition set_attributes (u : ir_unit) (g : list ir_attr) (s : list ir_attrset) : ir_unit :=
  mk_unit (iu_values u) (iu_data_ptr u) (iu_version u) (iu_triple u) (iu_vstoffset u) g
    s (iu_functions u) (iu_functions_with_bodies u) (iu_initializers u)
    (iu_current_type u) (iu_first_func_value u) (iu_current_function u) (iu_current_bb u).
Definition set_functions (u : ir_unit) (f : list ir_function) (b : list nat) : ir_unit :=
  mk_unit (iu_values u) (iu_data_ptr u) (iu_version u) (iu_triple u) (iu_vstoffset u) (iu_attribute_groups u)
    (iu_attrsets u) f b (iu_initializers u)
    (iu_current_type u) (iu_first_func_value u) (iu_current_function u) (iu_current_bb u).
Definition set_initializers (u : ir_unit) (i : list (Z * Z)) : ir_unit :=
  mk_unit (iu_values u) (iu_data_ptr u) (iu_version u) (iu_triple u) (iu_vstoffset u) (iu_attribute_groups u)
    (iu_attrsets u) (iu_functions u) (iu_functions_with_bodies u) i
    (iu_current_type u) (iu_first_func_value u) (iu_current_function u) (iu_current_bb u).
Definition set_current_type (u : ir_unit) (t : Z) : ir_unit :=
  mk_unit (iu_values u) (iu_data_ptr u) (iu_version u) (iu_triple u) (iu_vstoffset u) (iu_attribute_groups u)
    (iu_attrsets u) (iu_functions u) (iu_functions_with_bodies u) (iu_initializers u)
    t (iu_first_func_value u) (iu_current_function u) (iu_current_bb u).
Definition set_first_func_value (u : ir_unit) (n : nat) : ir_unit :=
  mk_unit (iu_values u) (iu_data_ptr u) (iu_version u) (iu_triple u) (iu_vstoffset u) (iu_attribute_groups u)
    (iu_attrsets u) (iu_functions u) (iu_functions_with_bodies u) (iu_initializers u)
    (iu_current_type u) n (iu_current_function u) (iu_current_bb u).
Definition set_current (u : ir_unit) (f : option nat) (bb : option Z) : ir_unit :=
  mk_unit (iu_values u) (iu_data_ptr u) (iu_version u) (iu_triple u) (iu_vstoffset u) (iu_attribute_groups u)
    (iu_attrsets u) (iu_functions u) (iu_functions_with_bodies u) (iu_initializers u)
    (iu_current_type u) (iu_first_func_value u) f bb.

Definition unit_types (u : ir_unit) : list ir_type := types_of (iu_values u).

(** Assignments to one function. *)
Definition alter_function (u : ir_unit) (g : nat) (h : ir_function → ir_function) : ir_unit :=
  set_functions u (alter h g (iu_functions u)) (iu_functions_with_bodies u).
Definition set_name (f : ir_function) (n : list Z) : ir_function :=
  mk_func (if_type f) (Some n) (if_isproto f) (if_used f) (if_regframe_size f) (if_callarg_size f)
    (if_vmop f) (if_vmop_args f) (if_ext_func f) (if_num_bbs f) (if_bbs f).
Definition set_vmop (f : ir_function) (op args : Z) : ir_function :=
  mk_func (if_type f) (if_name f) (if_isproto f) (if_used f) (if_regframe_size f) (if_callarg_size f)
    op args (if_ext_func f) (if_num_bbs f) (if_bbs f).
Definition set_ext_func (f : ir_function) (e : option Z) : ir_function :=
  mk_func (if_type f) (if_name f) (if_isproto f) (if_used f) (if_regframe_size f) (if_callarg_size f)
    (if_vmop f) (if_vmop_args f) e (if_num_bbs f) (if_bbs f).
Definition set_frame (f : ir_function) (regframe callarg : Z) : ir_function :=
  mk_func (if_type f) (if_name f) (if_isproto f) (if_used f) regframe callarg
    (if_vmop f) (if_vmop_args f) (if_ext_func f) (if_num_bbs f) (if_bbs f).
Definition set_bbs (f : ir_function) (num : Z) (bbs : list ir_bb) : ir_function :=
  mk_func (if_type f) (if_name f) (if_isproto f) (if_used f) (if_regframe_size f) (if_callarg_size f)
    (if_vmop f) (if_vmop_args f) (if_ext_func f) num bbs.

(** ** The module block *)

Definition argc (argv : list ir_arg) : Z := Z.of_nat (length argv).

(** Appends a value with what [f] makes of its slot. *)
Definition append_value (u : ir_unit) (f : ir_value → ir_value) : res (nat * ir_unit) :=
  '(n, vs) ← value_new (iu_values u) f; Ok (n, set_values u vs).

(** The pointer type and the type pointed to of a global variable. *)
Definition globalvar_type (u : ir_unit) (explicit : bool) (a : ir_arg) : res (Z * Z) :=
  if explicit then
    let '(type, _) := type_make_pointer (vs_types (iu_values u)) (s32 a) false in
    _ ← check (negb (type =? -1)) ParserError; Ok (type, u32 a)
  else pointee ← type_get_pointee (unit_types u) a; Ok (s32 a, pointee).

Definition module_globalvar (u : ir_unit) (argv : list ir_arg) : res ir_unit :=
  _ ← check (6 <=? argc argv) ParserError;
  a0 ← arg argv 0; a1 ← arg argv 1; a2 ← arg argv 2; a4 ← arg argv 4;
  '(type, pointee) ← globalvar_type u (negb (Z.land a1 2 =? 0)) a0;
  alignment ← vmir_llvm_alignment (s32 a4) 4;
  _ ← check (0 <? alignment) AssertFail;
  size ← type_sizeof (unit_types u) pointee;
  let ptr := u32 (VMIR_ALIGN (iu_data_ptr u) alignment) in
  '(val_id, u) ← append_value u (λ iv,
     set_union (set_type (set_class iv IR_VC_GLOBALVAR) type) (U_gvar (mk_gvar pointee None ptr size)));
  let u := set_data_ptr u (u32 (ptr + size)) in
  let initializer := u32 a2 in
  Ok (if 0 <? initializer then
        set_initializers u (iu_initializers u ++ [(Z.of_nat val_id, s32 (initializer - 1))])
      else u).

Definition module_function (u : ir_unit) (argv : list ir_arg) : res ir_unit :=
  _ ← check (8 <=? argc argv) ParserError;
  a0 ← arg argv 0; a2 ← arg argv 2;
  it ← type_get (unit_types u) a0;
  let type := match it with T_POINTER pointee => u32 pointee | _ => u32 a0 end in
  let isproto := negb (a2 =? 0) in
  let gfid := length (iu_functions u) in
  let f := mk_func type None isproto false 0 0 0 0 None 0 [] in
  let u := set_functions u (iu_functions u ++ [f])
             (if isproto then iu_functions_with_bodies u else iu_functions_with_bodies u ++ [gfid]) in
  '(_, u) ← append_value u (λ iv,
     set_union (set_type (set_class iv IR_VC_FUNCTION) (s32 type)) (U_func (Z.of_nat gfid)));
  Ok u.

Definition module_alias (u : ir_unit) (argv : list ir_arg) : res ir_unit :=
  _ ← check (3 <=? argc argv) ParserError;
  a0 ← arg argv 0; a1 ← arg argv 1;
  '(_, u) ← append_value u (λ iv, set_u32 (set_type (set_class iv IR_VC_ALIAS) (s32 a0)) a1);
  Ok u.

Definition module_vstoffset (u : ir_unit) (argv : list ir_arg) : res ir_unit :=
  match argv with [a] => Ok (set_vstoffset u (s32 a)) | _ => Fail ParserError end.

Definition MODULE_CODE_VERSION : Z := 1.
Definition MODULE_CODE_TRIPLE : Z := 2.
Definition MODULE_CODE_DATALAYOUT : Z := 3.
Definition MODULE_CODE_GLOBALVAR : Z := 7.
Definition MODULE_CODE_FUNCTION : Z := 8.
Definition MODULE_CODE_ALIAS : Z := 9.
Definition MODULE_CODE_COMDAT : Z := 12.
Definition MODULE_CODE_VSTOFFSET : Z := 13.
Definition MODULE_CODE_METADATA_VALUES_UNUSED : Z := 15.

Definition module_rec_handler (u : ir_unit) (op : Z) (argv : list ir_arg) : res ir_unit :=
  if op =? MODULE_CODE_VERSION then a ← arg argv 0; Ok (set_version u (s32 a))
  else if op =? MODULE_CODE_TRIPLE then Ok (set_triple u (Some (read_str_from_argv argv)))
  else if op =? MODULE_CODE_DATALAYOUT then Ok u
  else if op =? MODULE_CODE_GLOBALVAR then module_globalvar u argv
  else if op =? MODULE_CODE_FUNCTION then module_function u argv
  else if op =? MODULE_CODE_ALIAS then module_alias u argv
  else if op =? MODULE_CODE_VSTOFFSET then module_vstoffset u argv
  else if (op =? MODULE_CODE_COMDAT) || (op =? MODULE_CODE_METADATA_VALUES_UNUSED) then Ok u
  else Fail ParserError.

(** ** Attributes *)

(** The loop over the attributes of a group: [ia_flags]. An integer attribute
    takes two arguments after only one was checked for; without the second
    [argc] wraps round and the loop reads on behind the record. *)
Fixpoint group_attrs (fuel : nat) (flags : Z) (argv : list ir_arg) : res Z :=
  match fuel, argv with
  | _, [] => Ok flags
  | O, _ => Fail NoFuel
  | S fuel, type :: argv =>
      let type := s32 type in
      _ ← check (bool_decide (argv ≠ [])) ParserError;
      if type =? 0 then
        match argv with
        | a :: argv =>
            _ ← check ((0 <=? a) && (a <? 64)) Undef;
            group_attrs fuel (Z.lor flags (Z.shiftl 1 a)) argv
        | [] => Fail ParserError
        end
      else if type =? 1 then
        match argv with _ :: _ :: argv => group_attrs fuel flags argv | _ => Fail Undef end
      else if type =? 3 then
        '(_, argv) ← oget (read_zstr_from_argv argv) ParserError;
        group_attrs fuel flags argv
      else if type =? 4 then
        '(_, argv) ← oget (read_zstr_from_argv argv) ParserError;
        '(_, argv) ← oget (read_zstr_from_argv argv) ParserError;
        group_attrs fuel flags argv
      else Fail ParserError
  end.

Definition paramattr_group_rec_handler (u : ir_unit) (op : Z) (argv : list ir_arg) : res ir_unit :=
  if op =? 3 then
    _ ← check (3 <=? argc argv) ParserError;
    a0 ← arg argv 0; a1 ← arg argv 1;
    flags ← group_attrs (length argv) 0 (drop 2 argv);
    Ok (set_attributes u (mk_attr (u32 a0) (u32 a1) flags :: iu_attribute_groups u) (iu_attrsets u))
  else Fail ParserError.

Definition find_group (groups : list ir_attr) (a : ir_arg) : option ir_attr :=
  snd <$> list_find (λ ia, ia_group_id ia = a) groups.

Definition paramattr_rec_handler (u : ir_unit) (op : Z) (argv : list ir_arg) : res ir_unit :=
  if op =? 2 then
    ias ← mapR (λ a, oget (find_group (iu_attribute_groups u) a) ParserError) argv;
    Ok (set_attributes u (iu_attribute_groups u) (iu_attrsets u ++ [ias]))
  else Fail ParserError.

(** ** Names *)

Definition bytes_of_string (s : string) : list Z :=
  map (λ c, Z.of_N (N_of_ascii c)) (list_ascii_of_string s).

(** The characters of a C string up to its terminator. *)
Fixpoint c_str (l : list Z) : list Z :=
  match l with [] => [] | c :: l => if c =? 0 then [] else c :: c_str l end.

Definition vmop_map : list (string * vm_op * Z) :=
  [("llvm.memcpy.p0i8.p0i8.i32", VM_LLVM_MEMCPY, 3); ("llvm.memset.p0i8.i32", VM_LLVM_MEMSET, 3);
   ("llvm.memset.p0i8.i64", VM_LLVM_MEMSET64, 3); ("llvm.va_copy", VM_VACOPY, 2);
   ("llvm.invariant.start", VM_NOP, 2); ("llvm.stacksave", VM_STACKSAVE, 0);
   ("llvm.stackrestore", VM_STACKRESTORE, 1); ("llvm.cttz.i32", VM_CTZ32, 1);
   ("llvm.ctlz.i32", VM_CLZ32, 1); ("llvm.ctpop.i32", VM_POP32, 1);
   ("llvm.cttz.i64", VM_CTZ64, 1); ("llvm.ctlz.i64", VM_CLZ64, 1);
   ("llvm.ctpop.i64", VM_POP64, 1); ("llvm.uadd.with.overflow.i32", VM_UADDO32, 2);
   ("llvm.umul.with.overflow.i32", VM_UMULO32, 2);
   ("memcpy", VM_MEMCPY, 3); ("memmove", VM_MEMMOVE, 3); ("memset", VM_MEMSET, 3);
   ("memcmp", VM_MEMCMP, 3); ("strcmp", VM_STRCMP, 2); ("strcasecmp", VM_STRCASECMP, 2);
   ("strchr", VM_STRCHR, 2); ("strrchr", VM_STRRCHR, 2); ("strlen", VM_STRLEN, 1);
   ("strcpy", VM_STRCPY, 2); ("strncpy", VM_STRNCPY, 3); ("strcat", VM_STRCAT, 2);
   ("strncat", VM_STRNCAT, 3); ("strncmp", VM_STRNCMP, 3); ("strdup", VM_STRDUP, 1);
   ("llvm.va_start", VM_VASTART, 2); ("abs", VM_ABS, 1);
   ("floor", VM_MATH false M_FLOOR, 1); ("sin", VM_MATH false M_SIN, 1);
   ("cos", VM_MATH false M_COS, 1); ("pow", VM_MATH false M_POW, 2);
   ("fabs", VM_MATH false M_FABS, 1); ("fmod", VM_MATH false M_FMOD, 2);
   ("log", VM_MATH false M_LOG, 1); ("log10", VM_MATH false M_LOG10, 1);
   ("round", VM_MATH false M_ROUND, 1); ("sqrt", VM_MATH false M_SQRT, 1);
   ("exp", VM_MATH false M_EXP, 1); ("ceil", VM_MATH false M_CEIL, 1);
   ("floorf", VM_MATH true M_FLOOR, 1); ("sinf", VM_MATH true M_SIN, 1);
   ("cosf", VM_MATH true M_COS, 1); ("powf", VM_MATH true M_POW, 2);
   ("fabsf", VM_MATH true M_FABS, 1); ("fmodf", VM_MATH true M_FMOD, 2);
   ("logf", VM_MATH true M_LOG, 1); ("log10f", VM_MATH true M_LOG10, 1);
   ("roundf", VM_MATH true M_ROUND, 1); ("sqrtf", VM_MATH true M_SQRT, 1);
   ("expf", VM_MATH true M_EXP, 1); ("ceilf", VM_MATH true M_CEIL, 1)]%string.

(** Whether the name is in the table, and the function with [if_vmop] set;
    [name] is [if_name]. *)
Definition vmop_resolve (f : ir_function) (name : list Z) : bool * ir_function :=
  match list_find (λ vt, bytes_of_string vt.1.1 = name) vmop_map with
  | Some (_, vt) => (true, set_vmop f (vm_opcode vt.1.2) vt.2)
  | None => (false, set_vmop f 0 (if_vmop_args f))
  end.

Section names.
(** [iu_external_function_resolver]; [None] is NULL. *)
Context (resolver : list Z → option Z).

Definition name_function (f : ir_function) (str : list Z) : ir_function :=
  let f := set_name f str in
  match if_ext_func f with
  | Some _ => f
  | None =>
      let '(resolved, f) := vmop_resolve f str in
      if resolved then f else set_ext_func f (resolver str)
  end.

(** [iv_name], which is only printed, is left out. *)
Definition set_value_name (u : ir_unit) (vid : Z) (str : list Z) : res ir_unit :=
  let str := c_str str in
  iv ← value_get (iu_values u) vid;
  match iv_class iv with
  | IR_VC_FUNCTION =>
      match iv_u iv with
      | U_func g => Ok (alter_function u (Z.to_nat g) (λ f, name_function f str))
      | _ => Fail Undef
      end
  | IR_VC_GLOBALVAR =>
      match iv_u iv with
      | U_gvar ig =>
          Ok (set_values u (value_set (iu_values u) vid
                (set_union iv (U_gvar (mk_gvar (ig_type ig) (Some str) (ig_addr ig) (ig_size ig))))))
      | _ => Fail Undef
      end
  | IR_VC_CONSTANT | IR_VC_ZERO_INITIALIZER | IR_VC_TEMPORARY | IR_VC_REGFRAME | IR_VC_ALIAS => Ok u
  | _ => Fail ParserError
  end.

Definition value_symtab_rec_handler (u : ir_unit) (op : Z) (argv : list ir_arg) : res ir_unit :=
  if op =? 1 then
    _ ← check (2 <=? argc argv) ParserError;
    vid ← arg argv 0; set_value_name u (u32 vid) (read_str_from_argv (drop 1 argv))
  else if op =? 2 then Ok u
  else if op =? 3 then
    _ ← check (3 <=? argc argv) ParserError;
    vid ← arg argv 0; set_value_name u (u32 vid) (read_str_from_argv (drop 2 argv))
  else Fail ParserError.
End names.

(** ** Constants *)

Definition CST_CODE_SETTYPE : Z := 1.
Definition CST_CODE_NULL : Z := 2.
Definition CST_CODE_UNDEF : Z := 3.
Definition CST_CODE_INTEGER : Z := 4.
Definition CST_CODE_FLOAT : Z := 6.
Definition CST_CODE_AGGREGATE : Z := 7.
Definition CST_CODE_STRING : Z := 8.
Definition CST_CODE_CSTRING : Z := 9.
Definition CST_CODE_CE_BINOP : Z := 10.
Definition CST_CODE_CE_CAST : Z := 11.
Definition CST_CODE_CE_GEP : Z := 12.
Definition CST_CODE_CE_CMP : Z := 17.
Definition CST_CODE_CE_INBOUNDS_GEP : Z := 20.
Definition CST_CODE_DATA : Z := 22.

(** The operators of a code. *)
Definition ir_casts : list ir_cast :=
  [CAST_TRUNC; CAST_ZEXT; CAST_SEXT; CAST_FPTOUI; CAST_FPTOSI; CAST_UITOFP; CAST_SITOFP;
   CAST_FPTRUNC; CAST_FPEXT; CAST_PTRTOINT; CAST_INTTOPTR; CAST_BITCAST].
Definition nth_of {A} (l : list A) (code : Z) : option A :=
  if code <? 0 then None else l !! Z.to_nat code.
Definition cast_of (code : Z) : option ir_cast := nth_of ir_casts code.
Definition binop_of (code : Z) : option binop := nth_of binops code.
Definition pred_of (code : Z) : option icmp := if is_icmp code then icmp_of code else None.

(** [host_wr16], [host_wr32] and [host_wr64] of each argument. *)
Fixpoint le_bytes (n : nat) (v : Z) : list Z :=
  match n with O => [] | S n => u8 v :: le_bytes n (Z.shiftr v 8) end.
Definition host_words (n : nat) (argv : list ir_arg) : list Z := concat (map (le_bytes n) argv).

(** Every second argument, from the second on. *)
Fixpoint odd_args (argv : list ir_arg) : list ir_arg :=
  match argv with _ :: v :: argv => v :: odd_args argv | _ => [] end.

Definition set_data (iv : ir_value) (d : iv_payload) : ir_value :=
  mk_value (iv_class iv) (iv_type iv) (iv_u iv) d (iv_precolored iv).
Definition set_ce (iv : ir_value) (ce : ir_constexpr) : ir_value :=
  set_union (set_class iv IR_VC_CE) (U_ce ce).

Definition constant_null (types : list ir_type) (iv : ir_value) : res ir_value :=
  it ← type_get types (iv_type iv);
  match it_code it with
  | IR_TYPE_INT1 | IR_TYPE_INT8 | IR_TYPE_INT16 | IR_TYPE_INT32 | IR_TYPE_POINTER
  | IR_TYPE_DOUBLE | IR_TYPE_INT64 | IR_TYPE_FLOAT | IR_TYPE_INTx =>
      Ok (set_union (set_class iv IR_VC_CONSTANT) (U_word 0))
  | IR_TYPE_ARRAY | IR_TYPE_STRUCT => Ok (set_class iv IR_VC_ZERO_INITIALIZER)
  | _ => Fail ParserError
  end.

Definition constant_integer (types : list ir_type) (iv : ir_value) (a : ir_arg) : res ir_value :=
  let iv := set_class iv IR_VC_CONSTANT in
  it ← type_get types (iv_type iv);
  match it_code it with
  | IR_TYPE_INT1 | IR_TYPE_INT8 | IR_TYPE_INT16 | IR_TYPE_INT32 => Ok (set_u32 iv (read_sign_rotated a))
  | IR_TYPE_INT64 | IR_TYPE_INTx => Ok (set_union iv (U_word (u64 (read_sign_rotated a))))
  | _ => Fail ParserError
  end.

Definition constant_float (types : list ir_type) (iv : ir_value) (a : ir_arg) : res ir_value :=
  let iv := set_class iv IR_VC_CONSTANT in
  it ← type_get types (iv_type iv);
  match it_code it with
  | IR_TYPE_FLOAT => Ok (set_u32 iv a)
  | IR_TYPE_DOUBLE => Ok (set_union iv (U_word (u64 a)))
  | _ => Fail ParserError
  end.

Definition constant_aggregate (vs : value_state) (iv : ir_value) (argv : list ir_arg) : res ir_value :=
  values ← mapR (λ a, ivx ← value_get vs a; Ok (s32 a, iv_type ivx)) argv;
  Ok (set_data (set_u32 (set_class iv IR_VC_AGGREGATE) (argc argv)) (D_values values)).

Definition constant_data (types : list ir_type) (iv : ir_value) (argv : list ir_arg) : res ir_value :=
  ty ← type_get types (iv_type iv);
  match ty with
  | T_ARRAY _ et =>
      ety ← type_get types et;
      n ← (match it_code ety with
           | IR_TYPE_INT64 | IR_TYPE_DOUBLE => Ok 8%nat
           | IR_TYPE_INT32 | IR_TYPE_FLOAT => Ok 4%nat
           | IR_TYPE_INT16 => Ok 2%nat
           | _ => Fail ParserError
           end);
      Ok (set_data (set_class iv IR_VC_DATA) (D_bytes (host_words n argv)))
  | _ => Fail ParserError
  end.

Definition constant_cast (iv : ir_value) (argv : list ir_arg) : res ir_value :=
  op ← arg argv 0; src ← arg argv 2;
  Ok (set_ce iv (CE_CAST (cast_of (s32 op)) (s32 src))).

Definition constant_gep (iv : ir_value) (argv : list ir_arg) : ir_value :=
  let argv := if Nat.odd (length argv) then tail argv else argv in
  set_ce iv (CE_GEP (map s32 (odd_args argv))).

Definition constant_binop (iv : ir_value) (argv : list ir_arg) : res ir_value :=
  match argv with
  | op :: lhs :: rhs :: _ => Ok (set_ce iv (CE_BINOP (binop_of (s32 op)) (s32 lhs) (s32 rhs)))
  | _ => Fail ParserError
  end.

Definition constant_cmp (iv : ir_value) (argv : list ir_arg) : res ir_value :=
  match argv with
  | opty :: lhs :: rhs :: pred :: _ =>
      Ok (set_ce iv (CE_CMP (s32 opty) (s32 lhs) (s32 rhs) (pred_of (s32 pred))))
  | _ => Fail ParserError
  end.

(** What a record makes of the value [iv] it is for. *)
Definition constant_value (vs : value_state) (iv : ir_value) (op : Z) (argv : list ir_arg) : res ir_value :=
  let types := types_of vs in
  if (op =? CST_CODE_UNDEF) || (op =? CST_CODE_NULL) then constant_null types iv
  else if op =? CST_CODE_INTEGER then
    a ← oget (head argv) AssertFail; constant_integer types iv a
  else if op =? CST_CODE_FLOAT then
    a ← oget (head argv) AssertFail; constant_float types iv a
  else if op =? CST_CODE_AGGREGATE then constant_aggregate vs iv argv
  else if op =? CST_CODE_DATA then constant_data types iv argv
  else if (op =? CST_CODE_CSTRING) || (op =? CST_CODE_STRING) then
    Ok (set_data (set_class iv IR_VC_DATA) (D_bytes (read_str_from_argv argv ++ [0])))
  else if op =? CST_CODE_CE_CAST then constant_cast iv argv
  else if (op =? CST_CODE_CE_GEP) || (op =? CST_CODE_CE_INBOUNDS_GEP) then Ok (constant_gep iv argv)
  else if op =? CST_CODE_CE_BINOP then constant_binop iv argv
  else if op =? CST_CODE_CE_CMP then constant_cmp iv argv
  else Fail ParserError.

Definition constants_rec_handler (u : ir_unit) (op : Z) (argv : list ir_arg) : res ir_unit :=
  if op =? CST_CODE_SETTYPE then
    a ← oget (head argv) ParserError; Ok (set_current_type u (s32 a))
  else
    '(n, vs) ← value_append (iu_values u);
    let n := Z.of_nat n in
    iv ← value_get vs n;
    let iv := set_type iv (iu_current_type u) in
    let vs := value_set vs n iv in
    iv ← constant_value vs iv op argv;
    Ok (set_values u (value_set vs n iv)).

(** ** Function blocks *)

(** The next function with a body. *)
Definition next_function (u : ir_unit) : option nat :=
  match iu_current_function u with
  | None => head (iu_functions_with_bodies u)
  | Some g =>
      '(i, _) ← list_find (g =.) (iu_functions_with_bodies u);
      iu_functions_with_bodies u !! S i
  end.

Definition function_prepare_parse (u : ir_unit) (g : nat) : res ir_unit :=
  f ← oget (iu_functions u !! g) Undef;
  it ← type_get (unit_types u) (if_type f);
  match it with
  | T_FUNCTION ft =>
      '(vs, callarg) ← foldR (λ s type, '(_, reg, vs) ← value_alloc_function_arg s.1 s.2 type; Ok (vs, reg))
                         (iu_values u, 0) (ft_parameters ft);
      Ok (alter_function (set_values u vs) g (λ f, set_frame f 8 callarg))
  | _ => Fail Undef
  end.

(** ** Appending a value *)

(** [vs'] is [vs] with a value at [n], the first free number. *)
Record appended (vs : value_state) (n : nat) (iv : ir_value) (vs' : value_state) : Prop := {
  ap_n : n = vs_next vs;
  ap_next : vs_next vs' = S n;
  ap_types : vs_types vs' = vs_types vs;
  ap_here : vs_values vs' !! n = Some (Some iv);
  ap_other i : i ≠ n → vs_values vs' !! i = vs_values vs !! i;
  ap_length : (vs_next vs <= length (vs_values vs))%nat ∧ (S n <= length (vs_values vs'))%nat;
}.

(** What a slot holds when a value is put in it. *)
Definition slot (vs : value_state) (n : nat) : ir_value :=
  default blank_value (mjoin (vs_values vs !! n)).

Lemma value_append_spec vs n vs' :
  value_append vs = Ok (n, vs') → appended vs n (slot vs n) vs'.
Proof.
  unfold value_append, slot. case_bool_decide as Hn; intros H; inv_res.
  - split; simpl; rewrite ?length_app; simpl; try done; [| |lia].
    + rewrite Hn, (lookup_ge_None_2 (vs_values vs) (length (vs_values vs))) by lia.
      by rewrite lookup_app_r, Nat.sub_diag by lia.
    + intros i Hi. destruct (decide (i < length (vs_values vs))%nat).
      * by rewrite lookup_app_l.
      * rewrite lookup_app_r by lia. rewrite (lookup_ge_None_2 (vs_values vs)) by lia.
        destruct (i - length (vs_values vs))%nat eqn:E; [lia|done].
  - apply bool_decide_eq_true in Hm. split; simpl; rewrite ?length_alter; try done; [| |lia].
    + rewrite list_lookup_alter_eq. by destruct (lookup_lt_is_Some_2 _ _ Hm) as [[v|] ->].
    + intros i Hi. by rewrite list_lookup_alter_ne.
Qed.

Lemma value_append_small vs n vs' iv :
  value_append vs = Ok (n, vs') → Z.of_nat (vs_next vs) < 2 ^ 32 →
  appended vs n iv (value_set vs' (Z.of_nat n) iv) ∧ value_get vs' (Z.of_nat n) = Ok (slot vs n).
Proof.
  intros H Hs. apply value_append_spec in H as [H1 H2 H3 H4 H5 H6].
  assert (Z.to_nat (u32 (Z.of_nat n)) = n) as Hn by (rewrite wrap_small by lia; lia).
  split.
  - unfold value_set, upd_values. rewrite Hn. split; simpl; try done.
    + apply list_lookup_insert_eq. by apply lookup_lt_Some in H4.
    + intros i Hi. rewrite list_lookup_insert_ne by done. by apply H5.
    + by rewrite length_insert.
  - unfold value_get. rewrite Hn, H4. done.
Qed.

(** A table small enough that its numbers are [int]s. *)
Definition small_table (vs : value_state) : Prop := Z.of_nat (length (vs_values vs)) < 2 ^ 31.

Lemma value_append_length vs n vs' :
  value_append vs = Ok (n, vs') →
  (length (vs_values vs') <= S (length (vs_values vs)))%nat.
Proof.
  unfold value_append. case_bool_decide; intros H1; inv_res; simpl;
    rewrite ?length_app, ?length_alter; simpl; lia.
Qed.

Lemma value_new_spec vs f n vs' :
  Z.of_nat (vs_next vs) < 2 ^ 32 → value_new vs f = Ok (n, vs') → appended vs n (f (slot vs n)) vs'.
Proof.
  intros Hs H. unfold value_new in H. inv_res. destruct a as [k vs1]. inv_res. simplify_eq.
  destruct (value_append_small vs n vs1 (f (slot vs n)) Hm Hs) as [Ha Hg].
  rewrite Hg in Hm0. by inv_res.
Qed.

Lemma small_next vs n vs' : small_table vs → value_append vs = Ok (n, vs') → Z.of_nat (vs_next vs) < 2 ^ 32.
Proof.
  intros Hs H. apply value_append_spec in H. pose proof (ap_length _ _ _ _ H). unfold small_table in Hs. lia.
Qed.

Lemma value_new_ok vs f :
  small_table vs → (vs_next vs <= length (vs_values vs))%nat →
  ∃ vs', value_new vs f = Ok (vs_next vs, vs') ∧ appended vs (vs_next vs) (f (slot vs (vs_next vs))) vs' ∧
    length (vs_values vs') = Nat.max (length (vs_values vs)) (S (vs_next vs)).
Proof.
  intros Hs Hn. unfold value_new.
  assert (∃ vs1, value_append vs = Ok (vs_next vs, vs1) ∧
    length (vs_values vs1) = Nat.max (length (vs_values vs)) (S (vs_next vs))) as (vs1 & E & Hl).
  { unfold value_append. case_bool_decide.
    - eexists. split; [done|]. simpl. rewrite length_app. simpl. lia.
    - rewrite bool_decide_true by lia. eexists. split; [done|]. simpl. rewrite length_alter. lia. }
  rewrite E. rok. unfold small_table in Hs.
  destruct (value_append_small vs (vs_next vs) vs1 (f (slot vs (vs_next vs))) E ltac:(lia)) as [Ha Hg].
  rewrite Hg. rok. eexists. split; [done|]. split; [done|].
  unfold value_set, upd_values. simpl. by rewrite length_insert.
Qed.

(** ** Well-formed units *)

Notation functions := (list ir_function).

(** The functions with a body, by number. *)
Definition bodies (fs : functions) : list nat :=
  filter (λ g, if_isproto <$> fs !! g = Some false) (seq 0 (length fs)).

(** What a value says of the unit is true: a function value names a function
    and has its type, a global variable lies in the data that was laid out. *)
Definition value_ok (fs : functions) (data_ptr : Z) (iv : ir_value) : Prop :=
  match iv_class iv with
  | IR_VC_FUNCTION =>
      ∃ g f, iv_u iv = U_func (Z.of_nat g) ∧ fs !! g = Some f ∧ iv_type iv = s32 (if_type f)
  | IR_VC_GLOBALVAR =>
      ∃ ig, iv_u iv = U_gvar ig ∧ 4096 <= ig_addr ig ∧ 0 <= ig_size ig ∧
        ig_addr ig + ig_size ig <= data_ptr
  | _ => True
  end.

(** The memory of two global variables. *)
Definition gvars_apart (v w : ir_value) : Prop :=
  ∀ a b, iv_class v = IR_VC_GLOBALVAR → iv_class w = IR_VC_GLOBALVAR →
    iv_u v = U_gvar a → iv_u w = U_gvar b →
    ig_addr a + ig_size a <= ig_addr b ∨ ig_addr b + ig_size b <= ig_addr a.

Definition values_apart (l : list (option ir_value)) : Prop :=
  ∀ i j v w, i ≠ j → l !! i = Some (Some v) → l !! j = Some (Some w) → gvars_apart v w.

Record unit_ok (u : ir_unit) : Prop := {
  uo_data : 4096 <= iu_data_ptr u < 2 ^ 32;
  uo_bodies : iu_functions_with_bodies u = bodies (iu_functions u);
  uo_values i iv : vs_values (iu_values u) !! i = Some (Some iv) →
    value_ok (iu_functions u) (iu_data_ptr u) iv;
  uo_apart : values_apart (vs_values (iu_values u));
}.

(** Values stay right when functions are added or changed and data is added. *)
Definition functions_le (fs fs' : functions) : Prop :=
  ∀ g f, fs !! g = Some f → ∃ f', fs' !! g = Some f' ∧ if_type f' = if_type f.

Lemma value_ok_mono fs fs' d d' iv :
  functions_le fs fs' → d <= d' → value_ok fs d iv → value_ok fs' d' iv.
Proof.
  intros Hf Hd. unfold value_ok. destruct (iv_class iv); try done.
  - intros (g & f & H1 & H2 & H3). destruct (Hf _ _ H2) as (f' & H4 & H5).
    exists g, f'. split_and!; [done|done|congruence].
  - intros (ig & ? & ? & ? & ?). exists ig. split_and!; try done. lia.
Qed.

Lemma functions_le_refl fs : functions_le fs fs.
Proof. intros g f H. eauto. Qed.
Lemma functions_le_app fs f : functions_le fs (fs ++ [f]).
Proof. intros g f' H. exists f'. split; [|done]. by apply lookup_app_l_Some. Qed.
Lemma functions_le_alter fs g h : (∀ f, if_type (h f) = if_type f) → functions_le fs (alter h g fs).
Proof.
  intros Hh k f Hk. destruct (decide (k = g)) as [->|].
  - rewrite list_lookup_alter_eq, Hk. eauto.
  - rewrite list_lookup_alter_ne by done. eauto.
Qed.
#[export] Hint Resolve functions_le_refl functions_le_app : core.

Lemma bodies_filter_same {A} (P Q : A → Prop) `{∀ x, Decision (P x), ∀ x, Decision (Q x)} (l : list A) :
  (∀ x, x ∈ l → P x ↔ Q x) → filter P l = filter Q l.
Proof.
  induction l as [|x l IH]; intros H'; [done|]. rewrite !filter_cons.
  rewrite IH by (intros; apply H'; by right). specialize (H' x (list_elem_of_here _ _)).
  destruct (decide (P x)), (decide (Q x)); naive_solver.
Qed.

Lemma bodies_app fs f :
  bodies (fs ++ [f]) = if if_isproto f then bodies fs else bodies fs ++ [length fs].
Proof.
  unfold bodies. rewrite length_app, Nat.add_1_r, seq_S, list.filter_app, filter_cons, filter_nil.
  rewrite Nat.add_0_l, list_lookup_middle by done.
  assert (filter (λ g, if_isproto <$> (fs ++ [f]) !! g = Some false) (seq 0 (length fs)) =
          filter (λ g, if_isproto <$> fs !! g = Some false) (seq 0 (length fs))) as ->.
  { apply bodies_filter_same. intros g Hg. apply elem_of_seq in Hg. by rewrite lookup_app_l by lia. }
  simpl. destruct (if_isproto f); simpl; [by rewrite app_nil_r|done].
Qed.

Lemma bodies_alter fs g h : (∀ f, if_isproto (h f) = if_isproto f) → bodies (alter h g fs) = bodies fs.
Proof.
  intros Hh. unfold bodies. rewrite length_alter. apply list_filter_iff. intros k.
  destruct (decide (k = g)) as [->|].
  - rewrite list_lookup_alter_eq. destruct (fs !! g); [|done]. simpl. by rewrite Hh.
  - by rewrite list_lookup_alter_ne.
Qed.

(** Nothing the values depend on changes. *)
Lemma unit_ok_same u u' :
  unit_ok u → vs_values (iu_values u') = vs_values (iu_values u) → iu_data_ptr u' = iu_data_ptr u →
  iu_functions u' = iu_functions u → iu_functions_with_bodies u' = iu_functions_with_bodies u →
  unit_ok u'.
Proof. intros [H1 H2 H3 H4] Ev Ed Ef Eb. split; by rewrite ?Ev, ?Ed, ?Ef, ?Eb. Qed.

(** A value is added, and perhaps a function. *)
Lemma unit_ok_append u u' n iv :
  unit_ok u → appended (iu_values u) n iv (iu_values u') →
  iu_data_ptr u <= iu_data_ptr u' < 2 ^ 32 → functions_le (iu_functions u) (iu_functions u') →
  iu_functions_with_bodies u' = bodies (iu_functions u') →
  value_ok (iu_functions u') (iu_data_ptr u') iv →
  (∀ ig, iv_class iv = IR_VC_GLOBALVAR → iv_u iv = U_gvar ig → iu_data_ptr u <= ig_addr ig) →
  unit_ok u'.
Proof.
  intros [H1 H2 H3 H4] Ha Hd Hf Hb Hv Hg. split; [lia|done| |].
  - intros i v Hi. destruct (decide (i = n)) as [->|Hn].
    + rewrite (ap_here _ _ _ _ Ha) in Hi. by simplify_eq.
    + rewrite (ap_other _ _ _ _ Ha) in Hi by done. eapply (value_ok_mono (iu_functions u) _ (iu_data_ptr u)); [done|lia|by eapply H3].
  - assert (∀ i v, i ≠ n → vs_values (iu_values u) !! i = Some (Some v) → gvars_apart v iv) as Hnew.
    { intros i v Hi Hl a b Ca Cb Ea Eb. left. pose proof (H3 _ _ Hl) as Ho. unfold value_ok in Ho.
      rewrite Ca in Ho. destruct Ho as (ig & E & _ & _ & Hle). rewrite E in Ea. injection Ea as ->. specialize (Hg _ Cb Eb). lia. }
    intros i j v w Hij Hi Hj.
    destruct (decide (i = n)) as [->|Hin], (decide (j = n)) as [->|Hjn]; [done| | |].
    + rewrite (ap_here _ _ _ _ Ha) in Hi. rewrite (ap_other _ _ _ _ Ha) in Hj by done. simplify_eq.
      intros a b Ca Cb Ea Eb. destruct (Hnew _ _ Hjn Hj b a); auto.
    + rewrite (ap_here _ _ _ _ Ha) in Hj. rewrite (ap_other _ _ _ _ Ha) in Hi by done. simplify_eq. eauto.
    + rewrite (ap_other _ _ _ _ Ha) in Hi, Hj by done. eauto.
Qed.

(** A value of another class than these two says nothing. *)
Definition plain_class (c : ir_value_class) : Prop := c ≠ IR_VC_FUNCTION ∧ c ≠ IR_VC_GLOBALVAR.

Lemma plain_value_ok fs d iv : plain_class (iv_class iv) → value_ok fs d iv.
Proof. unfold value_ok. intros [? ?]. by destruct (iv_class iv). Qed.

Lemma unit_ok_plain u vs' n iv :
  unit_ok u → appended (iu_values u) n iv vs' → plain_class (iv_class iv) → unit_ok (set_values u vs').
Proof.
  intros Hu Ha Hp. eapply unit_ok_append; [done|exact Ha|..]; simpl; auto using plain_value_ok.
  - pose proof (uo_data u Hu). lia.
  - by apply uo_bodies.
  - intros ig Hc. by destruct Hp.
Qed.

(** ** Every record keeps the unit well-formed *)

Lemma llvm_alignment_pow2 a al :
  vmir_llvm_alignment a 4 = Ok al → 0 < al → ∃ k, 0 <= k <= 8 ∧ al = 2 ^ k.
Proof.
  unfold vmir_llvm_alignment. intros H Hp. destruct (a =? 0) eqn:E0; [inv_res; by exists 2|].
  destruct (9 <? a) eqn:E9; [inv_res; by exists 8|]. destruct (a <? 0) eqn:En; inv_res.
  exists (a - 1). split; [lia|]. rewrite Z.shiftl_1_l, Z.shiftr_div_pow2 by lia.
  replace a with (Z.succ (a - 1)) at 1 by lia. rewrite Z.pow_succ_r by lia. rewrite Z.mul_comm, Z.div_mul by lia. done.
Qed.

(** Where a variable of [size] bytes goes, unless the address space is full. *)
Lemma data_placed p al size :
  4096 <= p < 2 ^ 32 → (∃ k, 0 <= k <= 8 ∧ al = 2 ^ k) → 0 <= size < 2 ^ 31 →
  let ptr := u32 (VMIR_ALIGN p al) in
  p <= u32 (ptr + size) → p <= ptr ∧ u32 (ptr + size) = ptr + size.
Proof.
  intros Hp (k & Hk & ->) Hs ptr Hle.
  destruct (VMIR_ALIGN_bounds p k ltac:(lia)) as [Hb _].
  assert (2 ^ k <= 2 ^ 8) by (apply Z.pow_le_mono_r; lia).
  change (2 ^ 8) with 256 in *. subst ptr. revert Hle. unfold u32, wrap.
  destruct (decide (VMIR_ALIGN p (2 ^ k) < 2 ^ 32)) as [H1|H1].
  - rewrite (Z.mod_small (VMIR_ALIGN p (2 ^ k))) by lia.
    destruct (decide (VMIR_ALIGN p (2 ^ k) + size < 2 ^ 32)).
    + rewrite Z.mod_small by lia. lia.
    + rewrite <-(Z.mod_add _ (-1)), Z.mod_small by lia. lia.
  - rewrite <-(Z.mod_add (VMIR_ALIGN p (2 ^ k)) (-1)), (Z.mod_small (_ + -1 * _)) by lia.
    rewrite Z.mod_small by lia. lia.
Qed.

Lemma append_value_spec u f n u' :
  small_table (iu_values u) → append_value u f = Ok (n, u') →
  ∃ vs', u' = set_values u vs' ∧ appended (iu_values u) n (f (slot (iu_values u) n)) vs'.
Proof.
  intros Hs H. unfold append_value in H. inv_res. destruct a as [k vs]. inv_res. simplify_eq.
  exists vs. split; [done|]. apply value_new_spec; [|done].
  unfold value_new in Hm. inv_all. by eapply small_next.
Qed.

Lemma module_globalvar_ok u argv u' :
  unit_ok u → small_table (iu_values u) → sizes_small (unit_types u) → module_globalvar u argv = Ok u' →
  iu_data_ptr u <= iu_data_ptr u' → unit_ok u'.
Proof.
  intros Hu Ht Hsz H Hle. unfold module_globalvar in H. inv_all.
  match goal with H : append_value _ _ = _ |- _ => apply append_value_spec in H as (vs' & -> & Ha); [|done] end.
  match goal with H : (0 <? _) = true |- _ => apply Z.ltb_lt in H end.
  match goal with H : vmir_llvm_alignment _ _ = Ok _, H1 : 0 < _ |- _ => pose proof (llvm_alignment_pow2 _ _ H H1) as Hal end.
  match goal with H : type_sizeof _ _ = Ok ?s |- _ =>
    pose proof (type_sizeof_nonneg _ _ _ H) as H0; pose proof (Hsz _ _ H) as H1; set (size := s) in * end.
  pose proof (uo_data u Hu) as Hd.
  pose proof (data_placed (iu_data_ptr u) _ size Hd Hal ltac:(lia)) as Hp. cbv zeta in Hp.
  assert (iu_data_ptr u <= u32 (u32 (VMIR_ALIGN (iu_data_ptr u) a4) + size)) as Hle'
    by (destruct (0 <? u32 a2); exact Hle).
  destruct (Hp Hle') as [Hp1 Hp2]. clear Hp Hle.
  pose proof (wrap_range 32 ltac:(lia) (u32 (VMIR_ALIGN (iu_data_ptr u) a4) + size)) as Hw.
  destruct (0 <? u32 a2); (eapply unit_ok_append; [exact Hu|exact Ha|..]); simpl; auto using uo_bodies.
  all: try (unfold u32 in *; lia).
  all: try (intros ig _ [= <-]; simpl; lia).
  all: unfold value_ok; simpl; eexists; split_and!; [done|simpl; lia..].
Qed.

Lemma module_function_ok u argv u' :
  unit_ok u → small_table (iu_values u) → module_function u argv = Ok u' → unit_ok u'.
Proof.
  intros Hu Ht H. unfold module_function in H. inv_all.
  match goal with H : append_value _ _ = _ |- _ => apply append_value_spec in H as (vs' & -> & Ha); [|done] end.
  pose proof (uo_data u Hu).
  eapply unit_ok_append; [exact Hu|exact Ha|..]; simpl; auto; try lia; try done.
  - rewrite bodies_app. simpl. rewrite (uo_bodies u Hu). by destruct (negb _).
  - unfold value_ok; simpl. eexists _, _. split_and!; [done|by apply list_lookup_middle|done].
Qed.

Lemma module_alias_ok u argv u' :
  unit_ok u → small_table (iu_values u) → module_alias u argv = Ok u' → unit_ok u'.
Proof.
  intros Hu Ht H. unfold module_alias in H. inv_all.
  match goal with H : append_value _ _ = _ |- _ => apply append_value_spec in H as (vs' & -> & Ha); [|done] end.
  by eapply unit_ok_plain.
Qed.

Lemma module_rec_handler_ok u op argv u' :
  unit_ok u → small_table (iu_values u) → sizes_small (unit_types u) → module_rec_handler u op argv = Ok u' →
  iu_data_ptr u <= iu_data_ptr u' → unit_ok u'.
Proof.
  intros Hu Ht Hsz H Hle. unfold module_rec_handler in H.
  repeat match type of H with (if ?b then _ else _) = _ => destruct b end; inv_res;
    try (by apply (unit_ok_same u)); eauto using module_globalvar_ok, module_function_ok, module_alias_ok.
  unfold module_vstoffset in H. destruct argv as [|a [|]]; inv_res. by apply (unit_ok_same u).
Qed.

Lemma name_function_keeps resolver f str :
  if_type (name_function resolver f str) = if_type f ∧
  if_isproto (name_function resolver f str) = if_isproto f.
Proof.
  unfold name_function, vmop_resolve. destruct (if_ext_func (set_name f str)); [done|].
  by destruct (list_find _ _) as [[]|].
Qed.

Lemma set_value_name_ok resolver u vid str u' :
  unit_ok u → set_value_name resolver u vid str = Ok u' → unit_ok u'.
Proof.
  intros Hu H. unfold set_value_name in H. inv_all. destruct Hu as [H1 H2 H3 H4].
  destruct (iv_class a) eqn:Ec; inv_res; try done; destruct (iv_u a) eqn:Eu; inv_res; try done.
  - split; simpl; [done| | |done].
    + rewrite H2. symmetry. apply bodies_alter. intros f. apply name_function_keeps.
    + intros i iv Hi. eapply (value_ok_mono (iu_functions u)); [| |by eapply H3]; [|simpl; lia].
      apply functions_le_alter. intros f. apply name_function_keeps.
  - apply value_get_lookup in Hm.
    pose proof (H3 _ _ Hm) as Ho. unfold value_ok in Ho. rewrite Ec in Ho. destruct Ho as (ig & Ei & Ho). rewrite Eu in Ei. injection Ei as <-.
    assert (∀ i v, vs_values (iu_values u) !! i = Some (Some v) → i ≠ Z.to_nat (u32 vid) → gvars_apart a v) as Hap
      by (intros i v Hi Hn; apply (H4 (Z.to_nat (u32 vid)) i); auto).
    set (a' := set_union a _). split; simpl; [done|done| |].
    + intros i iv Hi. apply list_lookup_insert_Some in Hi as [(<- & [= <-] & _)|[_ Hi]]; [|eauto].
      subst a'. unfold value_ok. simpl. rewrite Ec. eexists. split; [done|]. done.
    + assert (∀ v, gvars_apart a v → gvars_apart a' v ∧ gvars_apart v a') as Hsw.
      { intros v Hv. split; intros x y Cx Cy Ex Ey.
        - injection Ex as <-. simpl. by apply Hv.
        - injection Ey as <-. simpl. destruct (Hv g x); auto. }
      intros i j v w Hij Hi Hj.
      apply list_lookup_insert_Some in Hi as [(<- & [= <-] & _)|[Hni Hi]];
        apply list_lookup_insert_Some in Hj as [(<- & [= <-] & _)|[Hnj Hj]]; [done| | |by apply (H4 i j)].
      * apply Hsw. eauto.
      * apply Hsw. eauto.
Qed.

Lemma value_symtab_rec_handler_ok resolver u op argv u' :
  unit_ok u → value_symtab_rec_handler resolver u op argv = Ok u' → unit_ok u'.
Proof.
  intros Hu H. unfold value_symtab_rec_handler in H.
  repeat match type of H with (if ?b then _ else _) = _ => destruct b end; inv_res; eauto using set_value_name_ok.
Qed.

Lemma attributes_ok u op argv u' :
  unit_ok u →
  paramattr_group_rec_handler u op argv = Ok u' ∨ paramattr_rec_handler u op argv = Ok u' → unit_ok u'.
Proof.
  intros Hu [H|H]; [unfold paramattr_group_rec_handler in H; destruct (op =? 3)
                |unfold paramattr_rec_handler in H; destruct (op =? 2)]; inv_res; by apply (unit_ok_same u).
Qed.

Lemma appended_set vs n iv vs' iv' :
  appended vs n iv vs' → Z.of_nat n < 2 ^ 32 → appended vs n iv' (value_set vs' (Z.of_nat n) iv').
Proof.
  intros [H1 H2 H3 H4 H5 H6] Hn. unfold value_set, upd_values.
  rewrite wrap_small, Nat2Z.id by lia. split; simpl; try done.
  - apply list_lookup_insert_eq. by apply lookup_lt_Some in H4.
  - intros i Hi. rewrite list_lookup_insert_ne by done. by apply H5.
  - by rewrite length_insert.
Qed.

(** Constants are no functions and no variables. *)
Lemma constant_value_plain vs iv op argv iv' :
  constant_value vs iv op argv = Ok iv' → plain_class (iv_class iv').
Proof.
  unfold constant_value, constant_null, constant_integer, constant_float, constant_aggregate,
    constant_data, constant_cast, constant_binop, constant_cmp. intros H.
  repeat match type of H with (if ?b then _ else _) = _ => destruct b end; inv_all; try done.
  all: repeat (case_match; inv_all; try done).
Qed.

Lemma constants_rec_handler_ok u op argv u' :
  unit_ok u → small_table (iu_values u) → constants_rec_handler u op argv = Ok u' → unit_ok u'.
Proof.
  intros Hu Ht H. unfold constants_rec_handler in H. destruct (op =? CST_CODE_SETTYPE); inv_all.
  { by apply (unit_ok_same u). }
  apply constant_value_plain in Hm1. pose proof (value_append_length _ _ _ Hm) as Hl.
  apply value_append_spec in Hm as Ha. pose proof (ap_length _ _ _ _ Ha). unfold small_table in Ht.
  eapply unit_ok_plain; [done| |exact Hm1].
  eapply appended_set; [eapply appended_set; [exact Ha|]|]; lia.
Qed.

(** ** The handlers of all blocks but those of functions *)

Definition set_types (u : ir_unit) (ts : type_state) : ir_unit :=
  set_values u (mk_vs (vs_values (iu_values u)) (vs_next (iu_values u)) ts).

(** The handler that [ir_enter_subblock] chooses for a block; [frh] is
    [function_rec_handler]. *)
Definition unit_rec_handler (resolver : list Z → option Z)
    (frh : ir_unit → Z → list ir_arg → res ir_unit) (blockid : Z) (u : ir_unit) (op : Z)
    (argv : list ir_arg) : res ir_unit :=
  if blockid =? BITCODE_MODULE then module_rec_handler u op argv
  else if blockid =? BITCODE_PARAMATTR then paramattr_rec_handler u op argv
  else if blockid =? BITCODE_PARAMATTR_GROUP then paramattr_group_rec_handler u op argv
  else if blockid =? BITCODE_CONSTANTS then constants_rec_handler u op argv
  else if blockid =? BITCODE_FUNCTION then frh u op argv
  else if blockid =? BITCODE_VALUE_SYMTAB then value_symtab_rec_handler resolver u op argv
  else if blockid =? BITCODE_TYPES_NEW then
    ts ← types_new_rec_handler (vs_types (iu_values u)) op argv; Ok (set_types u ts)
  else Ok u.

Lemma unit_rec_handler_keeps resolver frh blockid u op argv u' :
  blockid ≠ BITCODE_FUNCTION → unit_ok u → small_table (iu_values u) → sizes_small (unit_types u) →
  unit_rec_handler resolver frh blockid u op argv = Ok u' →
  iu_data_ptr u <= iu_data_ptr u' → unit_ok u'.
Proof.
  intros Hb Hu Ht Hsz H Hle. unfold unit_rec_handler in H.
  destruct (blockid =? BITCODE_MODULE); [by eapply module_rec_handler_ok|].
  destruct (blockid =? BITCODE_PARAMATTR); [eapply attributes_ok; eauto|].
  destruct (blockid =? BITCODE_PARAMATTR_GROUP); [eapply attributes_ok; eauto|].
  destruct (blockid =? BITCODE_CONSTANTS); [by eapply constants_rec_handler_ok|].
  destruct (Z.eqb_spec blockid BITCODE_FUNCTION); [done|].
  destruct (blockid =? BITCODE_VALUE_SYMTAB); [by eapply value_symtab_rec_handler_ok|].
  destruct (blockid =? BITCODE_TYPES_NEW); inv_all; [by apply (unit_ok_same u)|done].
Qed.

(** ** The ends of blocks *)

Definition table_ok (fs : functions) (d : Z) (vs : value_state) : Prop :=
  (∀ i iv, vs_values vs !! i = Some (Some iv) → value_ok fs d iv) ∧ values_apart (vs_values vs).

(** A value that is no variable is written. *)
Lemma table_ok_set fs d vs i w :
  table_ok fs d vs → iv_class w ≠ IR_VC_GLOBALVAR → value_ok fs d w →
  table_ok fs d (value_set vs i w).
Proof.
  intros [H1 H2] Hc Hw. unfold value_set, upd_values. split; simpl.
  - intros k v Hk. apply list_lookup_insert_Some in Hk as [(<- & [= <-] & _)|[_ Hk]]; eauto.
  - intros k j v v' Hkj Hk Hj.
    apply list_lookup_insert_Some in Hk as [(<- & [= <-] & _)|[_ Hk]];
      apply list_lookup_insert_Some in Hj as [(<- & [= <-] & _)|[_ Hj]]; try done; [..|by apply (H2 k j)].
    all: by intros a b Ca Cb.
Qed.

Lemma table_ok_plain fs d vs i w :
  table_ok fs d vs → plain_class (iv_class w) →
  table_ok fs d (value_set vs i w).
Proof. intros Ht Hp. apply table_ok_set; [done|apply Hp|by apply plain_value_ok]. Qed.

Lemma eval_cast_ok fs d types iv tc op src iv' :
  eval_cast types (set_class iv IR_VC_CONSTANT) tc op src = Ok iv' → value_ok fs d src →
  iv_class iv' ≠ IR_VC_GLOBALVAR ∧ value_ok fs d iv'.
Proof.
  unfold eval_cast. intros H Hs.
  destruct tc; try done; destruct op as [[]|]; try done; destruct (iv_class src) eqn:Ec; inv_res; try done.
  split; [done|]. unfold value_ok in *. by rewrite Ec in Hs.
Qed.

Lemma eval_binop_plain types iv tc op l r iv' :
  eval_binop types iv tc op l r = Ok iv' → plain_class (iv_class iv').
Proof. unfold eval_binop. intros H. by destruct tc; inv_res. Qed.
Lemma eval_cmp_plain types iv tc op l r iv' :
  eval_cmp types iv tc op l r = Ok iv' → plain_class (iv_class iv').
Proof. unfold eval_cmp. intros H. by destruct tc; inv_res. Qed.

Lemma eval_constexpr_ok fs d fuel vs i ic vs' :
  eval_constexpr fuel vs i ic = Ok vs' → table_ok fs d vs → table_ok fs d vs'.
Proof.
  revert vs i ic vs'; induction fuel as [|fuel IH]; intros vs i ic vs' H Ht; [done|].
  cbn [eval_constexpr] in H. unfold eval_constexpr_body in H.
  assert (∀ v vs1, eval_operand (eval_constexpr fuel) vs v = Ok vs1 → table_ok fs d vs1) as Hop.
  { intros v vs1 H1. unfold eval_operand in H1. inv_res.
    destruct (is_ce a); [destruct (iv_u a); eauto; done|by inv_res]. }
  destruct ic as [op src|op lhs rhs|opty lhs rhs pred|[|v0 vv]]; inv_res; try done.
  - apply Hop in Hm1. assert (table_ok fs d (value_set a1 i (set_class a4 IR_VC_CONSTANT))) as Ht1
      by by apply table_ok_plain.
    apply value_get_lookup in Hm5. apply eval_cast_ok with (fs := fs) (d := d) in Hm6 as [H1 H2]; [|exact (proj1 Ht1 _ _ Hm5)].
    by apply table_ok_set.
  - apply table_ok_plain; [done|]. by eapply eval_binop_plain.
  - apply table_ok_plain; [done|]. by eapply eval_cmp_plain.
  - apply Hop in Hm0. destruct a3 as [addr ty]. destruct (type_make_pointer _ _ _) as [t ts]. inv_res.
    by apply table_ok_plain.
Qed.

Lemma eval_constexprs_ok fs d vs vs' :
  eval_constexprs vs = Ok vs' → table_ok fs d vs → table_ok fs d vs'.
Proof.
  unfold eval_constexprs. intros H Ht.
  eapply (foldR_ind (λ _ v, table_ok fs d v)); [|exact Ht|exact H].
  intros n k v1 v2 _ H1 H2. unfold eval_one in H2. inv_res.
  destruct (is_ce a0); [|by inv_res]. destruct (iv_u a0); try done. by eapply eval_constexpr_ok.
Qed.

Lemma value_resize_ok fs d vs n vs' :
  value_resize vs n = Ok vs' → table_ok fs d vs → table_ok fs d vs'.
Proof.
  unfold value_resize. intros H [H1 H2]. inv_res.
  assert (∀ i iv, imap (λ i v, if bool_decide (n <= i)%nat then None else v) (vs_values vs) !! i = Some (Some iv) →
    vs_values vs !! i = Some (Some iv)) as Hi.
  { intros i iv. rewrite list_lookup_imap. destruct (vs_values vs !! i); simpl; [|done].
    destruct (bool_decide (n <= i)%nat); intros E; [discriminate|done]. }
  split; simpl; [eauto|]. intros i j v w Hij Hv Hw. eauto.
Qed.

(** What happens at the end of a block: [process] is [function_process]. *)
Definition end_block (process : ir_unit → res ir_unit) (blockid : Z) (valuelistsize : nat)
    (u : ir_unit) : res ir_unit :=
  if blockid =? BITCODE_FUNCTION then
    u ← process u;
    vs ← value_resize (iu_values u) valuelistsize; Ok (set_values u vs)
  else if blockid =? BITCODE_CONSTANTS then
    vs ← eval_constexprs (iu_values u); Ok (set_values u vs)
  else if blockid =? BITCODE_TYPES_NEW then
    let ts := vs_types (iu_values u) in
    types ← types_finalize (iu_types ts);
    Ok (set_types u (mk_types types (iu_types_created ts) (iu_current_struct_name ts)))
  else Ok u.

Lemma unit_ok_table u vs :
  unit_ok u → table_ok (iu_functions u) (iu_data_ptr u) vs → unit_ok (set_values u vs).
Proof. intros [H1 H2 H3 H4] [H5 H6]. by split. Qed.

Lemma unit_table u : unit_ok u → table_ok (iu_functions u) (iu_data_ptr u) (iu_values u).
Proof. intros [H1 H2 H3 H4]. by split. Qed.

Lemma end_block_keeps process blockid n u u' :
  (∀ v, process u = Ok v → unit_ok v) → unit_ok u →
  end_block process blockid n u = Ok u' → unit_ok u'.
Proof.
  intros Hp Hu H. unfold end_block in H.
  destruct (blockid =? BITCODE_FUNCTION); inv_res.
  { apply unit_ok_table; [by apply Hp|]. eapply value_resize_ok; [done|]. by apply unit_table, Hp. }
  destruct (blockid =? BITCODE_CONSTANTS); inv_res.
  { apply unit_ok_table; [done|]. eapply eval_constexprs_ok; [done|]. by apply unit_table. }
  destruct (blockid =? BITCODE_TYPES_NEW); inv_res; [|done]. by apply (unit_ok_same u).
Qed.

(** ** Units that records build *)

(** [vmir_create] and the start of [vmir_load]. *)
Definition initial_unit : ir_unit :=
  mk_unit (mk_vs [] 0 (mk_types [] false None)) 4096 0 None 0 [] [] [] [] [] 0 0 None None.

(** A record outside function blocks, or the end of such a block. *)
Inductive unit_step (resolver : list Z → option Z) : ir_unit → ir_unit → Prop :=
  | step_record frh blockid u op argv u' :
      blockid ≠ BITCODE_FUNCTION → unit_rec_handler resolver frh blockid u op argv = Ok u' →
      unit_step resolver u u'
  | step_end process blockid n u u' :
      blockid ≠ BITCODE_FUNCTION → end_block process blockid n u = Ok u' → unit_step resolver u u'.

(** Numbers of values and sizes of types are [int]s, and the data pointer does
    not run over. *)
Inductive built (resolver : list Z → option Z) : ir_unit → Prop :=
  | built_initial : built resolver initial_unit
  | built_step u u' :
      built resolver u → small_table (iu_values u) → sizes_small (unit_types u) →
      unit_step resolver u u' → iu_data_ptr u <= iu_data_ptr u' → built resolver u'.


(** [i8], [i32], their pointer types and a function type; two variables, of 1
    and 4 bytes, and a function. *)
Definition example_records : list (Z * Z * list ir_arg) :=
  [(BITCODE_TYPES_NEW, TYPE_CODE_INTEGER, [8]); (BITCODE_TYPES_NEW, TYPE_CODE_INTEGER, [32]);
   (BITCODE_TYPES_NEW, TYPE_CODE_POINTER, [0]); (BITCODE_TYPES_NEW, TYPE_CODE_POINTER, [1]);
   (BITCODE_TYPES_NEW, TYPE_CODE_FUNCTION, [0; 1; 1]);
   (BITCODE_MODULE, MODULE_CODE_GLOBALVAR, [2; 0; 0; 0; 1; 0]);
   (BITCODE_MODULE, MODULE_CODE_GLOBALVAR, [1; 2; 5; 0; 0; 0]);
   (BITCODE_MODULE, MODULE_CODE_FUNCTION, [4; 0; 0; 0; 0; 0; 0; 0])].

Definition handle (u : ir_unit) (r : Z * Z * list ir_arg) : res ir_unit :=
  unit_rec_handler (λ _, None) (λ u _ _, Ok u) r.1.1 u r.1.2 r.2.

Definition example_unit : ir_unit :=
  match foldR handle initial_unit example_records with Ok u => u | Fail _ => initial_unit end.

(** Records with the bounds of [built], for types without parts. *)
Definition simple_type (t : ir_type) : bool :=
  match t with T_STRUCT _ | T_ARRAY _ _ => false | _ => true end.

Fixpoint build (u : ir_unit) (l : list (Z * Z * list ir_arg)) : option ir_unit :=
  match l with
  | [] => Some u
  | r :: l =>
      match handle u r with
      | Ok u' =>
          if negb (r.1.1 =? BITCODE_FUNCTION) && (Z.of_nat (length (vs_values (iu_values u))) <? 2 ^ 31) &&
             forallb simple_type (unit_types u) && (iu_data_ptr u <=? iu_data_ptr u')
          then build u' l else None
      | Fail _ => None
      end
  end.

Lemma simple_sizes_small t : forallb simple_type t = true → sizes_small t.
Proof.
  intros Ht id s H. unfold type_sizeof in H. inv_res. unfold type_get in Hm. inv_res.
  apply list_elem_of_lookup_2, list_elem_of_In in Hm. rewrite forallb_forall in Ht. apply Ht in Hm.
  unfold type_sizeof_ptr in H. cbn [type_sizeof_fuel] in H.
  destruct a; try done; inv_res; try lia. destruct (_ <=? _); [inv_res; lia|].
  destruct (_ <=? _); inv_res; lia.
Qed.

Lemma build_built l u u' : built (λ _, None) u → build u l = Some u' → built (λ _, None) u'.
Proof.
  revert u; induction l as [|r l IH]; intros u Hb H; simpl in H; [by injection H as <-|].
  destruct (handle u r) as [v|] eqn:Hv; [|done].
  destruct (_ && _) eqn:Hc in H; [|done]. repeat (apply andb_prop in Hc as [Hc ?]).
  apply (IH v); [|done]. eapply built_step; [exact Hb| |by apply simple_sizes_small| |lia].
  - unfold small_table. lia.
  - eapply (step_record _ (λ u _ _, Ok u) r.1.1); [|exact Hv]. lia.
Qed.


(** ** Where the handlers do not do what they mean to *)

(** An integer attribute is one argument short in this group: the handler
    checks for one argument and takes two, so the count runs below zero and it
    reads on behind the record. *)
Theorem group_attrs_short u group index key :
  paramattr_group_rec_handler u 3 [group; index; 1; key] = Fail Undef.
Proof. reflexivity. Qed.

(** [i8], an array of 2^31 - 1 of them, and pointers to both. *)
Definition wrap_unit : ir_unit :=
  set_types initial_unit
    (mk_types [T_INT8; T_ARRAY 2147483647 0; T_POINTER 1; T_POINTER 0] false None).

(** Nothing checks that the variables fit the address space: with two
    arrays of 2^31 - 1 bytes the data pointer runs over, and the third variable
    gets the address of the first. *)
Theorem globals_wrap :
  ∃ u v w a b,
    foldR (λ u, module_rec_handler u MODULE_CODE_GLOBALVAR) wrap_unit
      [[2; 0; 0; 0; 0; 0]; [2; 0; 0; 0; 0; 0]; [3; 0; 0; 0; 0; 0]] = Ok u ∧
    value_get (iu_values u) 0 = Ok v ∧ iv_u v = U_gvar a ∧ ig_size a = 2147483647 ∧
    value_get (iu_values u) 2 = Ok w ∧ iv_u w = U_gvar b ∧ ig_addr a = ig_addr b.
Proof. do 5 eexists. split_and!; vm_compute; reflexivity. Qed.

(** ** Constants *)

Lemma iv_u32_set iv v : iv_u32 (set_u32 iv v) = Ok (u32 v).
Proof.
  unfold iv_u32, set_u32. simpl. pose proof (wrap_range 32 ltac:(lia) v).
  destruct (iv_u iv); simpl; f_equal; try (apply wrap_small; done).
  unfold wrap at 1. rewrite Z.shiftl_mul_pow2, Z.add_comm, Z_mod_plus_full by lia.
  by apply Z.mod_small.
Qed.

(** The value of an integer of the type of [it], as [v] is written. *)
Definition read_integer (types : list ir_type) (it : ir_type) (iv : ir_value) : res Z :=
  match it with
  | T_INT64 | T_INTx _ => value_get_const64 types iv
  | _ => value_get_const32 types iv
  end.
Definition integer_of (it : ir_type) (v : Z) : option Z :=
  match it with
  | T_INT1 => Some (bool_to_Z (negb (u32 v =? 0)))
  | T_INT8 | T_INT16 | T_INT32 => Some (u32 v)
  | T_INT64 | T_INTx _ => Some (u64 v)
  | _ => None
  end.

Lemma constant_integer_value types iv it v w :
  type_get types (iv_type iv) = Ok it → - 2 ^ 63 <= v < 2 ^ 63 → integer_of it v = Some w →
  ∃ iv', constant_integer types iv (sign_rotate v) = Ok iv' ∧ iv_class iv' = IR_VC_CONSTANT ∧
    iv_type iv' = iv_type iv ∧ read_integer types it iv' = Ok w.
Proof.
  intros Hty Hv Hw. unfold constant_integer. simpl. rewrite Hty, read_sign_rotated_inverse by done. rok.
  destruct it; simpl in *; simplify_eq; eexists; (split; [reflexivity|]); (split; [done|]); (split; [done|]);
    unfold read_integer, value_get_const32, value_get_const64; simpl; rewrite Hty; rok;
    rewrite ?iv_u32_set; simpl; try done.
  all: unfold iv_u64; simpl; f_equal; apply wrap_small, wrap_range; lia.
Qed.

(** An integer constant that is written sign-rotated, the way the bitcode
    has it, becomes the next value, has the current type and reads as the number
    that was written, at its width; no other value changes. *)
Theorem integer_constant_read u it v w :
  small_table (iu_values u) → (vs_next (iu_values u) <= length (vs_values (iu_values u)))%nat →
  type_get (unit_types u) (iu_current_type u) = Ok it → - 2 ^ 63 <= v < 2 ^ 63 →
  integer_of it v = Some w →
  ∃ vs iv, constants_rec_handler u CST_CODE_INTEGER [sign_rotate v] = Ok (set_values u vs) ∧
    appended (iu_values u) (vs_next (iu_values u)) iv vs ∧
    iv_class iv = IR_VC_CONSTANT ∧ iv_type iv = iu_current_type u ∧
    read_integer (unit_types u) it iv = Ok w.
Proof.
  intros Hs Hn Hty Hv Hw. unfold constants_rec_handler. simpl.
  destruct (value_append (iu_values u)) as [[n vs]|e] eqn:Ha.
  2: { exfalso. unfold value_append in Ha. case_bool_decide; [done|].
       rewrite bool_decide_true in Ha by lia. done. }
  pose proof (value_append_length _ _ _ Ha) as Hl. unfold small_table in Hs.
  destruct (value_append_small _ _ _ (set_type (slot (iu_values u) n) (iu_current_type u)) Ha ltac:(lia)) as [Hap Hg].
  pose proof (ap_n _ _ _ _ Hap) as ->. rok. rewrite Hg. rok.
  unfold constant_value. simpl.
  destruct (constant_integer_value (unit_types u) (set_type (slot (iu_values u) (vs_next (iu_values u))) (iu_current_type u))
    it v w) as (iv' & E & Hc & Ht & Hr); [done..|].
  assert (types_of (value_set vs (Z.of_nat (vs_next (iu_values u)))
    (set_type (slot (iu_values u) (vs_next (iu_values u))) (iu_current_type u))) = unit_types u) as ->.
  { unfold types_of, unit_types. by rewrite (ap_types _ _ _ _ Hap). }
  rewrite E. rok. do 2 eexists. split; [done|]. split_and!; [|done|done|done].
  eapply appended_set; [exact Hap|]. lia.
Qed.

Definition example_const_unit : ir_unit := set_current_type example_unit 1.

Lemma integer_constant_read_witness :
  ∃ vs iv, constants_rec_handler example_const_unit CST_CODE_INTEGER [sign_rotate (-5)]
             = Ok (set_values example_const_unit vs) ∧
    value_get vs 3 = Ok iv ∧ value_get_const32 (unit_types example_const_unit) iv = Ok 4294967291.
Proof.
  destruct (integer_constant_read example_const_unit T_INT32 (-5) 4294967291) as (vs & iv & H1 & H2 & _ & _ & H3);
    [vm_compute; reflexivity|apply Nat.leb_le; vm_compute; reflexivity|vm_compute; reflexivity|lia|vm_compute; reflexivity|].
  exists vs, iv. split; [exact H1|]. split; [|exact H3].
  apply value_get_lookup. exact (ap_here _ _ _ _ H2).
Defined.
