(* ===== verification/FuncParse.v ===== *)
(** The parser of function blocks: [instr_get_*], [parse_*] and
    [function_rec_handler] of [src/src/vmir_instr_parse.c]. A record becomes
    an instruction at the end of the current block. *)
From S2P Require Import Prelude Support Bitstream Types Values ConstExpr VmOps Instr Unit.
Local Open Scope Z_scope.

(** ** Operands *)

(** What is left of the record is passed on with the result. *)
Definition instr_get_uint (argv : list ir_arg) : res (Z * list ir_arg) :=
  match argv with a :: argv => Ok (u32 a, argv) | [] => Fail ParserError end.

Definition instr_get_value (u : ir_unit) (argv : list ir_arg) (type : Z)
    : res (ir_valuetype * list ir_arg) :=
  match argv with
  | a :: argv => Ok (mk_vt (s32 (Z.of_nat (vs_next (iu_values u)) - a)) type, argv)
  | [] => Fail ParserError
  end.

Definition instr_get_value_signed (u : ir_unit) (argv : list ir_arg) (type : Z)
    : res (ir_valuetype * list ir_arg) :=
  match argv with
  | a :: argv =>
      Ok (mk_vt (s32 (Z.of_nat (vs_next (iu_values u)) - read_sign_rotated a)) type, argv)
  | [] => Fail ParserError
  end.

(** The slot of a value that comes later: it gets a type ahead of time. *)
Definition forward_value (vs : value_state) (val : nat) (type : Z) : value_state :=
  let l := vs_values vs ++ replicate (S val - length (vs_values vs)) None in
  upd_values vs (alter (λ v, Some (set_type (default blank_value v) type)) val l).

Definition instr_get_vtp (u : ir_unit) (argv : list ir_arg)
    : res (ir_valuetype * list ir_arg * ir_unit) :=
  match argv with
  | [] => Fail ParserError
  | a :: argv =>
      let vs := iu_values u in
      let val := u32 (Z.of_nat (vs_next vs) - a) in
      if val <? Z.of_nat (vs_next vs) then
        v ← oget (vs_values vs !! Z.to_nat val) Undef;
        iv ← oget v Undef;
        Ok (mk_vt (s32 val) (iv_type iv), argv, u)
      else
        match argv with
        | [] => Fail Undef
        | t :: argv =>
            Ok (mk_vt (s32 val) (s32 t), argv, set_values u (forward_value vs (Z.to_nat val) (s32 t)))
        end
  end.

(** Reads pairs while there are arguments. *)
Fixpoint get_vtps (fuel : nat) (u : ir_unit) (argv : list ir_arg) : res (list ir_valuetype * ir_unit) :=
  match fuel, argv with
  | _, [] => Ok ([], u)
  | O, _ => Fail NoFuel
  | S fuel, _ =>
      '(v, argv, u) ← instr_get_vtp u argv;
      '(r, u) ← get_vtps fuel u argv; Ok (v :: r, u)
  end.

(** ** Blocks *)

(** [bb_make] and [bb_add] at the end. *)
Definition bb_add (f : ir_function) : ir_function :=
  set_bbs f (if_num_bbs f + 1) (if_bbs f ++ [mk_bb (if_num_bbs f) []]).

(** [instr_add] writes into the current block, which must be there. *)
Definition instr_add (u : ir_unit) : res Z := oget (iu_current_bb u) Undef.

Definition push_instr (i : ir_instr) (id : Z) (bb : ir_bb) : ir_bb :=
  if ib_id bb =? id then mk_bb id (ib_instrs bb ++ [i]) else bb.
(** The instruction that [instr_add] made, with its fields filled in. *)
Definition add_instr (u : ir_unit) (bb : Z) (i : ir_instr) : res ir_unit :=
  g ← oget (iu_current_function u) Undef;
  Ok (alter_function u g (λ f, set_bbs f (if_num_bbs f) (map (push_instr i bb) (if_bbs f)))).

Definition value_alloc_instr_ret (u : ir_unit) (type : Z) : res (ir_ret * ir_unit) :=
  '(n, vs) ← value_alloc_temporary (iu_values u) type;
  Ok (mk_ret (mk_vt (Z.of_nat n) type) [], set_values u vs).

(** The end of most parsers: the instruction with its result. *)
Definition add_result (u : ir_unit) (bb type : Z) (i : ir_ret → ir_instr) : res ir_unit :=
  '(r, u) ← value_alloc_instr_ret u type; add_instr u bb (i r).

(** [TAILQ_NEXT(iu->iu_current_bb, ib_link)]. *)
Definition next_bb (u : ir_unit) : res ir_unit :=
  id ← oget (iu_current_bb u) Undef;
  g ← oget (iu_current_function u) Undef;
  f ← oget (iu_functions u !! g) Undef;
  '(k, _) ← oget (list_find (λ bb, ib_id bb = id) (if_bbs f)) Undef;
  Ok (set_current u (iu_current_function u) (ib_id <$> if_bbs f !! S k)).

(** ** Instructions *)

Definition parse_ret (u : ir_unit) (argv : list ir_arg) : res ir_unit :=
  bb ← instr_add u;
  match argv with
  | [] => add_instr u bb (IR_IC_RET (mk_vt (-1) 0))
  | _ => '(v, _, u) ← instr_get_vtp u argv; add_instr u bb (IR_IC_RET v)
  end.

Definition parse_unreachable (u : ir_unit) : res ir_unit :=
  bb ← instr_add u; add_instr u bb IR_IC_UNREACHABLE.

Definition parse_binop (u : ir_unit) (argv : list ir_arg) : res ir_unit :=
  bb ← instr_add u;
  '(lhs, argv, u) ← instr_get_vtp u argv;
  '(rhs, argv) ← instr_get_value u argv (vt_type lhs);
  '(op, _) ← instr_get_uint argv;
  add_result u bb (vt_type lhs) (IR_IC_BINOP (s32 op) lhs rhs).

Definition parse_cast (u : ir_unit) (argv : list ir_arg) : res ir_unit :=
  bb ← instr_add u;
  '(v, argv, u) ← instr_get_vtp u argv;
  '(type, argv) ← instr_get_uint argv;
  '(op, _) ← instr_get_uint argv;
  add_result u bb (s32 type) (IR_IC_CAST (s32 op) v).

Definition parse_load (u : ir_unit) (argv : list ir_arg) : res ir_unit :=
  bb ← instr_add u;
  '(ptr, argv, u) ← instr_get_vtp u argv;
  type ← (match argv with
          | [a; _; _] => Ok (s32 a)
          | _ => p ← type_get_pointee (unit_types u) (vt_type ptr); Ok (s32 p)
          end);
  add_result u bb type (IR_IC_LOAD (mk_load ptr 0 (mk_vt (-1) 0) 0 (-1) 0)).

Definition parse_store (u : ir_unit) (argv : list ir_arg) (old : bool) : res ir_unit :=
  bb ← instr_add u;
  '(ptr, argv, u) ← instr_get_vtp u argv;
  '(v, u) ← (if old then
               p ← type_get_pointee (unit_types u) (vt_type ptr);
               '(v, _) ← instr_get_value u argv (s32 p); Ok (v, u)
             else '(v, _, u) ← instr_get_vtp u argv; Ok (v, u));
  add_instr u bb (IR_IC_STORE ptr v 0).

Definition parse_insertval (u : ir_unit) (argv : list ir_arg) : res ir_unit :=
  '(src, argv, u) ← instr_get_vtp u argv;
  '(replacement, argv, u) ← instr_get_vtp u argv;
  bb ← instr_add u;
  add_result u bb (vt_type src) (IR_IC_INSERTVAL src replacement (map s32 argv)).

(** The type an index leads to. *)
Definition gep_inner (types : list ir_type) (iv : ir_value) (type : Z) : res Z :=
  ct ← type_get types type;
  match ct with
  | T_POINTER pointee => Ok (s32 pointee)
  | T_STRUCT st =>
      _ ← check (bool_decide (iv_class iv = IR_VC_CONSTANT)) ParserError;
      v ← value_get_const32 types iv;
      let element := s32 v in
      _ ← check (element <? Z.of_nat (length (st_elements st))) ParserError;
      _ ← check (0 <=? element) Undef;
      '(t, _) ← oget (st_elements st !! Z.to_nat element) Undef; Ok t
  | T_ARRAY _ et => Ok et
  | _ => Fail ParserError
  end.

(** The indices with the types they index, and the type they lead to. *)
Fixpoint gep_indicies (u : ir_unit) (type : Z) (values : list ir_valuetype)
    : res (list ir_gep_index * Z) :=
  match values with
  | [] => Ok ([], type)
  | v :: values =>
      iv ← value_get (iu_values u) (vt_value v);
      inner ← gep_inner (unit_types u) iv type;
      '(r, last) ← gep_indicies u inner values;
      Ok (mk_gep v type :: r, last)
  end.

(** [type_make_pointer(iu, type, 1)]. *)
Definition make_pointer (u : ir_unit) (type : Z) : Z * ir_unit :=
  let vs := iu_values u in
  let '(t, ts) := type_make_pointer (vs_types vs) type true in
  (t, set_values u (mk_vs (vs_values vs) (vs_next vs) ts)).

Definition FUNC_CODE_INST_GEP : Z := 43.

Definition parse_gep (u : ir_unit) (argv : list ir_arg) (op : Z) : res ir_unit :=
  let argv := if op =? FUNC_CODE_INST_GEP then drop 2 argv else argv in
  '(baseptr, argv, u) ← instr_get_vtp u argv;
  '(values, u) ← get_vtps (length argv) u argv;
  bb ← instr_add u;
  '(indicies, type) ← gep_indicies u (vt_type baseptr) values;
  let '(ret, u) := make_pointer u type in
  add_result u bb ret (IR_IC_GEP baseptr indicies).

Definition parse_cmp2 (u : ir_unit) (argv : list ir_arg) : res ir_unit :=
  bb ← instr_add u;
  '(lhs, argv, u) ← instr_get_vtp u argv;
  '(rhs, argv) ← instr_get_value u argv (vt_type lhs);
  '(op, _) ← instr_get_uint argv;
  type ← type_find_by_code (unit_types u) IR_TYPE_INT1;
  add_result u bb type (IR_IC_CMP2 (s32 op) lhs rhs).

Definition parse_br (u : ir_unit) (argv : list ir_arg) : res ir_unit :=
  bb ← instr_add u;
  '(t, argv) ← instr_get_uint argv;
  match argv with
  | [] => add_instr u bb (IR_IC_BR (mk_vt (-1) 0) (s32 t) 0)
  | _ =>
      '(f, argv) ← instr_get_uint argv;
      let vs := iu_values u in
      '(type, ts) ← type_make (vs_types vs) IR_TYPE_INT1;
      let u := set_values u (mk_vs (vs_values vs) (vs_next vs) ts) in
      '(c, _) ← instr_get_value u argv type;
      add_instr u bb (IR_IC_BR c (s32 t) (s32 f))
  end.

(** The pairs of a PHI record; a last argument without a partner is left. *)
Fixpoint phi_nodes (u : ir_unit) (type : Z) (argv : list ir_arg) : res (list ir_phi_node) :=
  match argv with
  | v :: p :: argv =>
      '(value, _) ← instr_get_value_signed u [v] type;
      r ← phi_nodes u type argv;
      Ok (mk_phi (s32 p) value :: r)
  | _ => Ok []
  end.

(** Of neighbours with the same predecessor the first is kept. *)
Fixpoint unique_nodes (prev : Z) (nodes : list ir_phi_node) : list ir_phi_node :=
  match nodes with
  | [] => []
  | n :: nodes =>
      if phi_predecessor n =? prev then unique_nodes prev nodes
      else n :: unique_nodes (phi_predecessor n) nodes
  end.

Section sorts.
(** [qsort] with [phi_sort] and with [switch_sort64]. *)
Context (qsort_nodes : list ir_phi_node → list ir_phi_node).
Context (qsort_paths : list ir_path → list ir_path).

(** Without any node one is counted that lies behind the instruction. *)
Definition parse_phi (u : ir_unit) (argv : list ir_arg) : res ir_unit :=
  '(type, argv) ← instr_get_uint argv;
  bb ← instr_add u;
  nodes ← phi_nodes u (s32 type) argv;
  match qsort_nodes nodes with
  | [] => Fail Undef
  | n :: nodes =>
      add_result u bb (s32 type) (IR_IC_PHI (n :: unique_nodes (phi_predecessor n) nodes))
  end.

(** The mask of a width: [~1ULL] for 64 bits. *)
Definition switch_mask (width : Z) : Z :=
  if width =? 64 then u64 (Z.lnot 1) else Z.shiftl 1 width - 1.

Fixpoint switch_paths (u : ir_unit) (typeid mask : Z) (argv : list ir_arg) : res (list ir_path) :=
  match argv with
  | val :: block :: argv =>
      iv ← value_get (iu_values u) (u32 val);
      _ ← check (bool_decide (iv_class iv = IR_VC_CONSTANT)) ParserError;
      _ ← check (u32 (iv_type iv) =? typeid) ParserError;
      v ← value_get_const64 (unit_types u) iv;
      r ← switch_paths u typeid mask argv;
      Ok (mk_path (Z.land v mask) (s32 block) :: r)
  | _ => Ok []
  end.

Definition parse_switch (u : ir_unit) (argv : list ir_arg) : res ir_unit :=
  '(typeid, argv) ← instr_get_uint argv;
  '(value, argv) ← instr_get_value u argv (s32 typeid);
  '(defblock, argv) ← instr_get_uint argv;
  bb ← instr_add u;
  ty ← type_get (unit_types u) typeid;
  width ← type_bitwidth ty;
  _ ← check (width <=? 64) Undef;
  paths ← switch_paths u typeid (switch_mask width) argv;
  add_instr u bb (IR_IC_SWITCH value (s32 defblock) (qsort_paths paths)).

(** Functions whose calls are dropped. *)
Definition dropped_functions : list (list Z) :=
  map bytes_of_string ["llvm.lifetime.start"; "llvm.lifetime.end"; "llvm.prefetch"; "llvm.va_end"]%string.

(** The loop over aliases; it does not end when they lead to each other. *)
Fixpoint resolve_alias (fuel : nat) (vs : value_state) (v : Z) : res (Z * ir_value) :=
  match fuel with
  | O => Fail NoFuel
  | S fuel =>
      fn ← value_get vs v;
      if bool_decide (iv_class fn = IR_VC_ALIAS) then r ← iv_reg fn; resolve_alias fuel vs r
      else Ok (v, fn)
  end.
Definition alias_fuel (vs : value_state) : nat := S (length (vs_values vs)).

(** The type of what is called; [None] when the call is dropped. *)
Definition callee_type (u : ir_unit) (fn : ir_value) : res (option ir_type) :=
  match iv_class fn with
  | IR_VC_FUNCTION =>
      match iv_u fn with
      | U_func g =>
          f ← oget (iu_functions u !! Z.to_nat g) Undef;
          name ← oget (if_name f) Undef;
          if bool_decide (name ∈ dropped_functions) then Ok None
          else t ← type_get (unit_types u) (iv_type fn); Ok (Some t)
      | _ => Fail Undef
      end
  | IR_VC_TEMPORARY | IR_VC_REGFRAME =>
      p ← type_get_pointee (unit_types u) (iv_type fn);
      t ← type_get (unit_types u) p; Ok (Some t)
  | _ => Fail ParserError
  end.

(** Arguments: as many as there are parameters have the types of these, the
    others come with theirs. *)
Fixpoint call_args (fuel : nat) (u : ir_unit) (params : list Z) (argv : list ir_arg)
    : res (list ir_valuetype * ir_unit) :=
  match fuel, argv with
  | _, [] => Ok ([], u)
  | O, _ => Fail NoFuel
  | S fuel, _ =>
      match params with
      | t :: params =>
          '(v, argv) ← instr_get_value u argv t;
          '(r, u) ← call_args fuel u params argv; Ok (v :: r, u)
      | [] =>
          '(v, argv, u) ← instr_get_vtp u argv;
          '(r, u) ← call_args fuel u [] argv; Ok (v :: r, u)
      end
  end.

Definition ATTR_KIND_BY_VAL : Z := 3.

(** One attribute of the set: the copy sizes. An index of -1, the function,
    is not left out. *)
Definition call_attr (types : list ir_type) (args : list ir_valuetype) (sizes : list Z) (ia : ir_attr)
    : res (list Z) :=
  if ia_index ia =? 0 then Ok sizes else
  let arg := s32 (ia_index ia - 1) in
  if (arg <? Z.of_nat (length args)) && Z.testbit (ia_flags ia) ATTR_KIND_BY_VAL then
    _ ← check (0 <=? arg) Undef;
    v ← oget (args !! Z.to_nat arg) Undef;
    ty ← type_get types (vt_type v);
    match ty with
    | T_POINTER pointee =>
        size ← type_sizeof types pointee; Ok (<[Z.to_nat arg := s32 size]> sizes)
    | _ => Fail ParserError
    end
  else Ok sizes.

Definition call_copy_sizes (u : ir_unit) (attribute_set : Z) (args : list ir_valuetype) : res (list Z) :=
  let sizes := replicate (length args) 0 in
  match iu_attrsets u !! Z.to_nat attribute_set with
  | Some ias => foldR (call_attr (unit_types u) args) sizes ias
  | None => Ok sizes
  end.

(** What comes before the callee in the record: the attribute set, the flags
    and the destinations. *)
Definition call_header (invoke : bool) (argv : list ir_arg) : res (Z * Z * (Z * Z) * list ir_arg) :=
  '(attrs, argv) ← instr_get_uint argv;
  '(cc, argv) ← instr_get_uint argv;
  if invoke then
    '(normal, argv) ← instr_get_uint argv;
    '(unwind, argv) ← instr_get_uint argv;
    Ok (u32 (attrs - 1), cc, (normal, unwind), if Z.testbit cc 13 then drop 1 argv else argv)
  else Ok (u32 (attrs - 1), cc, (u32 (-1), u32 (-1)), if Z.testbit cc 15 then drop 1 argv else argv).

Definition parse_call_or_invoke (u : ir_unit) (argv : list ir_arg) (invoke : bool) : res ir_unit :=
  '(attribute_set, cc, (normal_dest, unwind_dest), argv) ← call_header invoke argv;
  '(fnidx, argv, u) ← instr_get_vtp u argv;
  '(v, fn) ← resolve_alias (alias_fuel (iu_values u)) (iu_values u) (vt_value fnidx);
  fnty ← callee_type u fn;
  match fnty with
  | None => Ok u
  | Some (T_FUNCTION ft) =>
      _ ← check (negb (Z.testbit cc 14)) ParserError;
      '(args, u) ← call_args (length argv) u (ft_parameters ft) argv;
      bb ← instr_add u;
      sizes ← call_copy_sizes u attribute_set args;
      let c := mk_call (mk_vt v (vt_type fnidx)) 0 normal_dest unwind_dest args sizes in
      let i := if invoke then IR_IC_INVOKE c else IR_IC_CALL c in
      rety ← type_get (unit_types u) (ft_return_type ft);
      match rety with
      | T_VOID => add_instr u bb (i no_ret)
      | _ => add_result u bb (ft_return_type ft) i
      end
  | Some _ => Fail ParserError
  end.

(** The clauses are read but, like the other fields of a landing pad, never
    used except by the printer. *)
Fixpoint get_clauses (n : nat) (argv : list ir_arg) : res (list ir_arg) :=
  match n with
  | O => Ok argv
  | S n =>
      '(_, argv) ← instr_get_uint argv;
      '(_, argv) ← instr_get_uint argv; get_clauses n argv
  end.

Definition parse_landingpad (u : ir_unit) (argv : list ir_arg) (old : bool) : res ir_unit :=
  '(type, argv) ← instr_get_uint argv;
  '(argv, u) ← (if old then '(_, argv, u) ← instr_get_vtp u argv; Ok (argv, u) else Ok (argv, u));
  '(_, argv) ← instr_get_uint argv;
  '(num_clauses, argv) ← instr_get_uint argv;
  bb ← instr_add u;
  _ ← get_clauses (Z.to_nat num_clauses) argv;
  add_result u bb (s32 type) IR_IC_LANDINGPAD.

Definition parse_resume (u : ir_unit) (argv : list ir_arg) : res ir_unit :=
  bb ← instr_add u;
  '(v, _, u) ← instr_get_vtp u argv;
  add_instr u bb (IR_IC_RESUME [v]).

Definition parse_alloca (u : ir_unit) (argv : list ir_arg) : res ir_unit :=
  match argv with
  | [a0; a1; a2; flags] =>
      bb ← instr_add u;
      let rtype := u32 a0 in
      '(size, rtype, u) ←
        (if Z.testbit flags 6 then
           size ← type_sizeof (unit_types u) rtype;
           let '(t, u) := make_pointer u (s32 rtype) in Ok (size, t, u)
         else
           pointee ← type_get_pointee (unit_types u) rtype;
           size ← type_sizeof (unit_types u) pointee; Ok (size, s32 rtype, u));
      alignment ← vmir_llvm_alignment (Z.land flags 31) 4;
      add_result u bb rtype (IR_IC_ALLOCA (s32 size) (mk_vt (s32 a2) (s32 a1)) alignment)
  | _ => Fail ParserError
  end.

Definition parse_vselect (u : ir_unit) (argv : list ir_arg) : res ir_unit :=
  bb ← instr_add u;
  '(t, argv, u) ← instr_get_vtp u argv;
  '(f, argv) ← instr_get_value u argv (vt_type t);
  '(pred, _, u) ← instr_get_vtp u argv;
  add_result u bb (vt_type t) (IR_IC_SELECT t f pred).

Definition parse_vaarg (u : ir_unit) (argv : list ir_arg) : res ir_unit :=
  bb ← instr_add u;
  type ← arg argv 0;
  '(v, argv) ← instr_get_value u (drop 1 argv) (s32 type);
  '(rtype, _) ← instr_get_uint argv;
  add_result u bb (s32 rtype) (IR_IC_VAARG v).

(** The type of the part that the indices select. *)
Fixpoint extract_type (types : list ir_type) (type : Z) (indicies : list Z) : res Z :=
  match indicies with
  | [] => Ok type
  | idx :: indicies =>
      ty ← type_get types type;
      t ← (match ty with
           | T_STRUCT st =>
               _ ← check (idx <? Z.of_nat (length (st_elements st))) ParserError;
               _ ← check (0 <=? idx) Undef;
               '(t, _) ← oget (st_elements st !! Z.to_nat idx) Undef; Ok t
           | T_ARRAY _ et => Ok et
           | _ => Fail ParserError
           end);
      extract_type types t indicies
  end.

Definition parse_extractval (u : ir_unit) (argv : list ir_arg) : res ir_unit :=
  '(base, argv, u) ← instr_get_vtp u argv;
  bb ← instr_add u;
  let indicies := map s32 argv in
  type ← extract_type (unit_types u) (vt_type base) indicies;
  add_result u bb type (IR_IC_EXTRACTVAL base indicies).

(** ** Records *)

Definition FUNC_CODE_DECLAREBLOCKS : Z := 1.
Definition FUNC_CODE_INST_BINOP : Z := 2.
Definition FUNC_CODE_INST_CAST : Z := 3.
Definition FUNC_CODE_INST_GEP_OLD : Z := 4.
Definition FUNC_CODE_INST_RET : Z := 10.
Definition FUNC_CODE_INST_BR : Z := 11.
Definition FUNC_CODE_INST_SWITCH : Z := 12.
Definition FUNC_CODE_INST_INVOKE : Z := 13.
Definition FUNC_CODE_INST_UNREACHABLE : Z := 15.
Definition FUNC_CODE_INST_PHI : Z := 16.
Definition FUNC_CODE_INST_ALLOCA : Z := 19.
Definition FUNC_CODE_INST_LOAD : Z := 20.
Definition FUNC_CODE_INST_VAARG : Z := 23.
Definition FUNC_CODE_INST_STORE_OLD : Z := 24.
Definition FUNC_CODE_INST_EXTRACTVAL : Z := 26.
Definition FUNC_CODE_INST_INSERTVAL : Z := 27.
Definition FUNC_CODE_INST_CMP2 : Z := 28.
Definition FUNC_CODE_INST_VSELECT : Z := 29.
Definition FUNC_CODE_INST_INBOUNDS_GEP_OLD : Z := 30.
Definition FUNC_CODE_INST_CALL : Z := 34.
Definition FUNC_CODE_INST_RESUME : Z := 39.
Definition FUNC_CODE_INST_LANDINGPAD_OLD : Z := 40.
Definition FUNC_CODE_INST_LOADATOMIC : Z := 41.
Definition FUNC_CODE_INST_STOREATOMIC_OLD : Z := 42.
Definition FUNC_CODE_INST_STORE : Z := 44.
Definition FUNC_CODE_INST_STOREATOMIC : Z := 45.
Definition FUNC_CODE_INST_LANDINGPAD : Z := 47.

Definition declare_blocks (u : ir_unit) (argv : list ir_arg) : res ir_unit :=
  g ← oget (iu_current_function u) Undef;
  f ← oget (iu_functions u !! g) Undef;
  _ ← check (bool_decide (if_bbs f = [])) ParserError;
  a ← arg argv 0;
  let numbbs := u32 a in
  _ ← check (negb (numbbs =? 0)) ParserError;
  _ ← check (numbbs <=? 65535) ParserError;
  let f := Nat.iter (Z.to_nat numbbs) bb_add f in
  Ok (set_current (alter_function u g (λ _, f)) (iu_current_function u) (ib_id <$> head (if_bbs f))).

Definition function_rec_handler (u : ir_unit) (op : Z) (argv : list ir_arg) : res ir_unit :=
  if op =? FUNC_CODE_DECLAREBLOCKS then declare_blocks u argv
  else if op =? FUNC_CODE_INST_RET then u ← parse_ret u argv; next_bb u
  else if op =? FUNC_CODE_INST_BINOP then parse_binop u argv
  else if op =? FUNC_CODE_INST_CAST then parse_cast u argv
  else if (op =? FUNC_CODE_INST_LOAD) || (op =? FUNC_CODE_INST_LOADATOMIC) then parse_load u argv
  else if (op =? FUNC_CODE_INST_STORE_OLD) || (op =? FUNC_CODE_INST_STOREATOMIC_OLD) then
    parse_store u argv true
  else if (op =? FUNC_CODE_INST_STORE) || (op =? FUNC_CODE_INST_STOREATOMIC) then
    parse_store u argv false
  else if (op =? FUNC_CODE_INST_INBOUNDS_GEP_OLD) || (op =? FUNC_CODE_INST_GEP_OLD)
          || (op =? FUNC_CODE_INST_GEP) then parse_gep u argv op
  else if op =? FUNC_CODE_INST_CMP2 then parse_cmp2 u argv
  else if op =? FUNC_CODE_INST_BR then u ← parse_br u argv; next_bb u
  else if op =? FUNC_CODE_INST_PHI then parse_phi u argv
  else if op =? FUNC_CODE_INST_INVOKE then u ← parse_call_or_invoke u argv true; next_bb u
  else if op =? FUNC_CODE_INST_CALL then parse_call_or_invoke u argv false
  else if op =? FUNC_CODE_INST_SWITCH then u ← parse_switch u argv; next_bb u
  else if op =? FUNC_CODE_INST_ALLOCA then parse_alloca u argv
  else if op =? FUNC_CODE_INST_UNREACHABLE then u ← parse_unreachable u; next_bb u
  else if op =? FUNC_CODE_INST_VSELECT then parse_vselect u argv
  else if op =? FUNC_CODE_INST_VAARG then parse_vaarg u argv
  else if op =? FUNC_CODE_INST_EXTRACTVAL then parse_extractval u argv
  else if op =? FUNC_CODE_INST_LANDINGPAD_OLD then parse_landingpad u argv true
  else if op =? FUNC_CODE_INST_LANDINGPAD then parse_landingpad u argv false
  else if op =? FUNC_CODE_INST_INSERTVAL then parse_insertval u argv
  else if op =? FUNC_CODE_INST_RESUME then u ← parse_resume u argv; next_bb u
  else Fail ParserError.
End sorts.
