(* ===== verification/FuncWrite.v ===== *)
(** How the bitcode format writes the body of a function, and that
    [FuncParse.function_rec_handler] reads it back: the records of a list of
    blocks, numbered the way LLVM numbers values, are parsed to these blocks. *)
From Stdlib Require Import Sorted.
From stdpp Require Import sorting.
From S2P Require Import Prelude Support Bitstream Types Values ConstExpr VmOps Instr Bitcode Unit FuncParse.
Local Open Scope Z_scope.

(** ** Records *)

(** A value relative to the number of the next one. *)
Definition rel (next : Z) (v : ir_valuetype) : ir_arg := u32 (next - vt_value v).
(** With its type when it comes later. *)
Definition vtp (next : Z) (v : ir_valuetype) : list ir_arg :=
  if vt_value v <? next then [rel next v] else [rel next v; vt_type v].
(** The pair of a PHI. *)
Definition node_args (next : Z) (n : ir_phi_node) : list ir_arg :=
  [sign_rotate (next - vt_value (phi_value n)); phi_predecessor n].

Section encoding.
(** The constant that a case of a switch on a type has. *)
Context (case_id : Z → Z → Z).

Definition ret_type (d : ir_ret) : Z := vt_type (ii_ret d).

Definition call_args_enc (next : Z) (params : list Z) (args : list ir_valuetype) : list ir_arg :=
  map (rel next) (take (length params) args) ++ concat (map (vtp next) (drop (length params) args)).

(** The record of an instruction; [params] are the parameters of the callee.
    Instructions of later passes have none. *)
Definition enc_instr (next : Z) (params : list Z) (i : ir_instr) : option (Z * list ir_arg) :=
  match i with
  | IR_IC_RET v => Some (FUNC_CODE_INST_RET, if vt_value v =? -1 then [] else vtp next v)
  | IR_IC_UNREACHABLE => Some (FUNC_CODE_INST_UNREACHABLE, [])
  | IR_IC_BINOP op l r _ => Some (FUNC_CODE_INST_BINOP, vtp next l ++ [rel next r; op])
  | IR_IC_CAST op v d => Some (FUNC_CODE_INST_CAST, vtp next v ++ [ret_type d; op])
  | IR_IC_LOAD l d => Some (FUNC_CODE_INST_LOAD, vtp next (ld_ptr l) ++ [ret_type d; 0; 0])
  | IR_IC_STORE p v _ => Some (FUNC_CODE_INST_STORE, vtp next p ++ vtp next v ++ [0; 0])
  | IR_IC_CMP2 op l r _ => Some (FUNC_CODE_INST_CMP2, vtp next l ++ [rel next r; op])
  | IR_IC_BR c t f =>
      Some (FUNC_CODE_INST_BR, if vt_value c =? -1 then [t] else [t; f; rel next c])
  | IR_IC_SWITCH v d paths =>
      Some (FUNC_CODE_INST_SWITCH, [vt_type v; rel next v; d] ++
              concat (map (λ p, [case_id (vt_type v) (pa_v64 p); pa_block p]) paths))
  | IR_IC_ALLOCA _ n al d =>
      Some (FUNC_CODE_INST_ALLOCA, [ret_type d; vt_type n; vt_value n; Z.log2 al + 1])
  | IR_IC_VAARG v d => Some (FUNC_CODE_INST_VAARG, [vt_type v; rel next v; ret_type d])
  | IR_IC_SELECT t f p _ => Some (FUNC_CODE_INST_VSELECT, vtp next t ++ [rel next f] ++ vtp next p)
  | IR_IC_LANDINGPAD d => Some (FUNC_CODE_INST_LANDINGPAD, [ret_type d; 0; 0])
  | IR_IC_RESUME [v] => Some (FUNC_CODE_INST_RESUME, vtp next v)
  | IR_IC_GEP b idx _ =>
      Some (FUNC_CODE_INST_GEP, [1; 0] ++ vtp next b ++ concat (map (λ x, vtp next (gep_value x)) idx))
  | IR_IC_PHI nodes d => Some (FUNC_CODE_INST_PHI, ret_type d :: concat (map (node_args next) nodes))
  | IR_IC_EXTRACTVAL v idx _ => Some (FUNC_CODE_INST_EXTRACTVAL, vtp next v ++ idx)
  | IR_IC_INSERTVAL s r idx _ => Some (FUNC_CODE_INST_INSERTVAL, vtp next s ++ vtp next r ++ idx)
  | IR_IC_CALL c _ =>
      Some (FUNC_CODE_INST_CALL,
            [0; 32768; 0] ++ vtp next (ca_callee c) ++ call_args_enc next params (ca_argv c))
  | IR_IC_INVOKE c _ =>
      Some (FUNC_CODE_INST_INVOKE,
            [0; 8192; ca_normal_dest c; ca_unwind_dest c; 0] ++ vtp next (ca_callee c) ++
            call_args_enc next params (ca_argv c))
  | _ => None
  end.
End encoding.

(** ** Instructions the parser makes *)

Definition is_int (z : Z) : Prop := 0 <= z < 2 ^ 31.

Lemma int_u32 z : is_int z → u32 z = z.
Proof. intros []. apply wrap_small; lia. Qed.
Lemma int_s32 z : is_int z → s32 z = z.
Proof. intros []. apply sgn_small; lia. Qed.

Lemma s32_rel next v : - 2 ^ 31 <= v < 2 ^ 31 → s32 (next - u32 (next - v)) = v.
Proof.
  intros Hv. rewrite <-sgn_wrap by lia. unfold wrap. rewrite Zminus_mod_idemp_r.
  replace (next - (next - v)) with v by lia. change (v mod 2 ^ 32) with (wrap 32 v).
  rewrite sgn_wrap by lia. apply sgn_small; lia.
Qed.

Lemma u32_rel next v : 0 <= v < 2 ^ 31 → u32 (next - u32 (next - v)) = v.
Proof.
  intros Hv. unfold wrap. rewrite Zminus_mod_idemp_r.
  replace (next - (next - v)) with v by lia. apply Z.mod_small. lia.
Qed.

(** A list that is strictly sorted by a key is what sorting it gives. *)
Lemma sorted_same {A} (key : A → Z) l l' :
  StronglySorted (λ x y, key x < key y) l → l' ≡ₚ l → StronglySorted (λ x y, key x <= key y) l' → l' = l.
Proof.
  intros Hs Hp Hw.
  assert (∀ x y, x ∈ l → y ∈ l → key x = key y → x = y) as Hinj.
  { clear -Hs. induction Hs as [|z l Hs IH Hz]; intros x y Hx Hy Hk; [by apply not_elem_of_nil in Hx|].
    rewrite list.Forall_forall in Hz.
    apply elem_of_cons in Hx as [->|Hx]; apply elem_of_cons in Hy as [->|Hy]; auto.
    - specialize (Hz _ Hy). lia.
    - specialize (Hz _ Hx). lia. }
  apply (StronglySorted_unique_strong (λ x y, key x <= key y)); [| |clear -Hs; induction Hs as [|z l Hs IH Hz]|done].
  - intros x y Hx Hy H1 H2. rewrite Hp in Hx. apply Hinj; [done|done|lia].
  - done.
  - constructor.
  - constructor; [done|]. revert Hz. apply Forall_impl. intros; lia.
Qed.

Section written.
Context (u0 : ir_unit) (g : nat) (n : Z) (V : Z → ir_value) (N : nat).
Context (HN : Z.of_nat N < 2 ^ 31).
Context (case_id : Z → Z → Z).
Context (qsort_nodes : list ir_phi_node → list ir_phi_node).
Context (qsort_paths : list ir_path → list ir_path).

Notation types := (unit_types u0).

(** The state while the function is parsed: the values, the blocks of the
    function [g] and the current block. *)
Definition st (vs : value_state) (bl : list ir_bb) (cur : option Z) : ir_unit :=
  set_current (alter_function (set_values u0 vs) g (λ f, set_bbs f n bl)) (Some g) cur.

(** A slot that a later value gets: nothing but perhaps its type is known. *)
Definition pristine (v : option ir_value) : Prop :=
  match v with Some iv => iv = set_type blank_value (iv_type iv) | None => True end.

(** The values below [next] are those of [V]. *)
Record table (vs : value_state) (next : Z) : Prop := {
  ta_next : Z.of_nat (vs_next vs) = next;
  ta_types : vs_types vs = vs_types (iu_values u0);
  ta_length : next <= Z.of_nat (length (vs_values vs)) <= Z.of_nat N;
  ta_below k : 0 <= k < next → vs_values vs !! Z.to_nat k = Some (Some (V k));
  ta_above k v : (vs_next vs <= k)%nat → vs_values vs !! k = Some v → pristine v;
}.

(** A value as an operand. *)
Definition opnd (v : ir_valuetype) : Prop :=
  0 <= vt_value v < Z.of_nat N ∧ vt_type v = iv_type (V (vt_value v)) ∧ is_int (vt_type v).

(** The result of an instruction of type [t]: the next value. *)
Definition result (next t : Z) (d : ir_ret) : Prop :=
  d = mk_ret (mk_vt next t) [] ∧ is_int t ∧
  V next = mk_value IR_VC_TEMPORARY t (U_word 0) D_none (-1).

(** An operand whose type the record has elsewhere: any number. *)
Definition rel_opnd (v : ir_valuetype) (t : Z) : Prop := - 2 ^ 31 <= vt_value v < 2 ^ 31 ∧ vt_type v = t.

Lemma get_value_enc vs next v t rest bl cur :
  table vs next → rel_opnd v t →
  instr_get_value (st vs bl cur) (rel next v :: rest) t = Ok (v, rest).
Proof.
  intros Ht [Hv <-]. unfold instr_get_value, rel. cbn [st set_current iu_values alter_function set_functions set_values].
  rewrite (ta_next _ _ Ht), s32_rel by done. by destruct v.
Qed.

Lemma forward_table vs next val t :
  table vs next → next <= Z.of_nat val → (S val <= N)%nat → table (forward_value vs val t) next.
Proof.
  intros [H1 H2 H3 H4 H5] Hval Hlt. unfold forward_value, upd_values.
  assert (vs_next vs <= val)%nat as Hn by lia. split; simpl; [done|done| | |].
  - rewrite length_alter, length_app, length_replicate. lia.
  - intros k Hk. rewrite list_lookup_alter_ne by lia. rewrite lookup_app_l by lia. by apply H4.
  - intros k v Hk Hv.
    assert (∀ w, (vs_values vs ++ replicate (S val - length (vs_values vs)) None) !! k = Some w → pristine w) as Hp.
    { intros w Hw. apply lookup_app_Some in Hw as [Hw|[_ Hw]]; [by eapply H5|].
      apply lookup_replicate in Hw as [-> _]. done. }
    destruct (decide (k = val)) as [->|Hne].
    + rewrite list_lookup_alter_eq in Hv. destruct (_ !! val) as [w|] eqn:Hw; [|done]. specialize (Hp w eq_refl).
      injection Hv as <-. destruct w as [iv|]; [|done]. simpl in Hp. simpl. by rewrite Hp.
    + rewrite list_lookup_alter_ne in Hv by done. by apply Hp.
Qed.

Lemma get_vtp_enc vs next v rest bl cur :
  table vs next → opnd v →
  ∃ vs', instr_get_vtp (st vs bl cur) (vtp next v ++ rest) = Ok (v, rest, st vs' bl cur) ∧ table vs' next.
Proof.
  intros Ht (Hv & Hty & Hi). unfold instr_get_vtp, vtp, rel.
  destruct (Z.ltb_spec (vt_value v) next) as [Hlt|Hge]; cbn [app];
    cbn [st set_current iu_values alter_function set_functions set_values];
    rewrite (ta_next _ _ Ht), u32_rel by lia.
  - exists vs. rewrite (proj2 (Z.ltb_lt _ _) Hlt), (ta_below _ _ Ht) by lia. rok. split; [|done].
    rewrite sgn_small by lia. rewrite <-Hty. by destruct v.
  - rewrite (proj2 (Z.ltb_ge _ _) Hge). eexists. split.
    + rewrite sgn_small by lia. rewrite int_s32 by done. by destruct v.
    + apply forward_table; [done|lia|lia].
Qed.

Lemma table_small vs next : table vs next → small_table vs.
Proof. intros Ht. pose proof (ta_length _ _ Ht). unfold small_table. lia. Qed.

Lemma alloc_ret_enc vs next t d bl cur :
  table vs next → next < Z.of_nat N → result next t d →
  ∃ vs', value_alloc_instr_ret (st vs bl cur) t = Ok (d, st vs' bl cur) ∧ table vs' (next + 1).
Proof.
  intros Ht Hn (-> & Hi & HV). pose proof (ta_next _ _ Ht) as Hnx. pose proof (ta_length _ _ Ht) as Hl.
  destruct (value_new_ok vs (λ iv, set_type (set_precolored (set_class iv IR_VC_TEMPORARY) (-1)) t))
    as (vs' & E & Ha & Hlen); [by eapply table_small|lia|].
  exists vs'. unfold value_alloc_instr_ret, value_alloc_temporary.
  cbn [st set_current iu_values alter_function set_functions set_values]. rewrite E. rok. rewrite Hnx.
  split; [done|]. destruct Ha as [_ H2 H3 H4 H5 H6]. split; [lia|by rewrite H3; apply Ht|lia| |].
  - intros k Hk. destruct (decide (k = next)) as [->|].
    + replace (Z.to_nat next) with (vs_next vs) by lia. rewrite H4, HV. do 2 f_equal.
      unfold slot. destruct (vs_values vs !! vs_next vs) as [[iv|]|] eqn:Es; simpl; [|done..].
      pose proof (ta_above _ _ Ht _ _ (Nat.le_refl _) Es) as Hp. simpl in Hp. by rewrite Hp.
    + rewrite H5 by lia. apply Ht. lia.
  - intros k v Hk Hv. rewrite H5 in Hv by lia. eapply (ta_above _ _ Ht); [|done]. lia.
Qed.

Lemma add_instr_st vs bl id i :
  add_instr (st vs bl (Some id)) id i = Ok (st vs (map (push_instr i id) bl) (Some id)).
Proof.
  unfold add_instr, st, alter_function, set_functions, set_current, set_values. rok. simpl.
  rewrite list_alter_alter_eq. do 2 f_equal.
Qed.

Lemma add_result_enc vs next t d bl id i :
  table vs next → next < Z.of_nat N → result next t d →
  ∃ vs', add_result (st vs bl (Some id)) id t i = Ok (st vs' (map (push_instr (i d) id) bl) (Some id)) ∧
    table vs' (next + 1).
Proof.
  intros Ht Hn Hr. destruct (alloc_ret_enc vs next t d bl (Some id) Ht Hn Hr) as (vs' & E & Ht').
  exists vs'. unfold add_result. rewrite E. rok. by rewrite add_instr_st.
Qed.

(** What is called: a function that is not dropped, or a pointer to one. *)
Definition wf_callee (next : Z) (c : ir_call) (ft : ir_ftype) : Prop :=
  opnd (ca_callee c) ∧ vt_value (ca_callee c) < next ∧
  iv_class (V (vt_value (ca_callee c))) ≠ IR_VC_ALIAS ∧
  callee_type u0 (V (vt_value (ca_callee c))) = Ok (Some (T_FUNCTION ft)).

Definition wf_args (params : list Z) (args : list ir_valuetype) : Prop :=
  (length params <= length args)%nat ∧ Forall2 rel_opnd (take (length params) args) params ∧
  Forall opnd (drop (length params) args).

(** A call without attributes; its result is that of the function. *)
Definition wf_call (next : Z) (params : list Z) (c : ir_call) (d : ir_ret) : Prop :=
  ∃ ft ret, wf_callee next c ft ∧ params = ft_parameters ft ∧ wf_args params (ca_argv c) ∧
    ca_vmop c = 0 ∧ ca_copy_sizes c = replicate (length (ca_argv c)) 0 ∧
    type_get types (ft_return_type ft) = Ok ret ∧
    (ret = T_VOID ∧ d = no_ret ∨ ret ≠ T_VOID ∧ result next (ft_return_type ft) d).

(** The indices of a GEP from a type, and where they lead. *)
Fixpoint wf_gep (next type : Z) (idx : list ir_gep_index) (last : Z) : Prop :=
  match idx with
  | [] => type = last
  | x :: idx =>
      opnd (gep_value x) ∧ vt_value (gep_value x) < next ∧ gep_type x = type ∧
      ∃ inner, gep_inner types (V (vt_value (gep_value x))) type = Ok inner ∧ wf_gep next inner idx last
  end.

(** A case: its constant is in the table. *)
Definition wf_path (next typeid mask : Z) (p : ir_path) : Prop :=
  is_int (pa_block p) ∧ let id := case_id typeid (pa_v64 p) in
  0 <= id < next ∧ iv_class (V id) = IR_VC_CONSTANT ∧ iv_type (V id) = typeid ∧
  ∃ v, value_get_const64 types (V id) = Ok v ∧ Z.land v mask = pa_v64 p.

(** The instructions that records can describe, with the value table [V]: the
    operands have the types of their values, the results are numbered in
    order, PHI nodes and cases are sorted. *)
Definition wf_instr (next : Z) (params : list Z) (i : ir_instr) : Prop :=
  match i with
  | IR_IC_RET v => v = mk_vt (-1) 0 ∨ opnd v
  | IR_IC_UNREACHABLE => True
  | IR_IC_BINOP op l r d =>
      is_int op ∧ opnd l ∧ rel_opnd r (vt_type l) ∧ result next (vt_type l) d
  | IR_IC_CAST op v d => is_int op ∧ opnd v ∧ result next (ret_type d) d
  | IR_IC_LOAD l d =>
      l = mk_load (ld_ptr l) 0 (mk_vt (-1) 0) 0 (-1) 0 ∧ opnd (ld_ptr l) ∧ result next (ret_type d) d
  | IR_IC_STORE p v o => o = 0 ∧ opnd p ∧ opnd v
  | IR_IC_CMP2 op l r d =>
      is_int op ∧ opnd l ∧ rel_opnd r (vt_type l) ∧
      ∃ t, type_find_by_code types IR_TYPE_INT1 = Ok t ∧ result next t d
  | IR_IC_BR c t f =>
      is_int t ∧ (c = mk_vt (-1) 0 ∧ f = 0 ∨
        is_int f ∧ 0 <= vt_value c ∧ find_type (has_code IR_TYPE_INT1) types 0 = Some (vt_type c) ∧
        rel_opnd c (vt_type c))
  | IR_IC_SWITCH v d paths =>
      is_int d ∧ rel_opnd v (vt_type v) ∧ is_int (vt_type v) ∧
      ∃ ty w, type_get types (vt_type v) = Ok ty ∧ type_bitwidth ty = Ok w ∧ w < 64 ∧
        Forall (wf_path next (vt_type v) (2 ^ w - 1)) paths ∧
        StronglySorted (λ p q, pa_v64 p < pa_v64 q) paths
  | IR_IC_ALLOCA size k al d =>
      is_int (vt_value k) ∧ is_int (vt_type k) ∧ (∃ e, 0 <= e <= 8 ∧ al = 2 ^ e) ∧
      result next (ret_type d) d ∧
      ∃ p s, type_get_pointee types (ret_type d) = Ok p ∧ type_sizeof types p = Ok s ∧ size = s32 s
  | IR_IC_VAARG v d => rel_opnd v (vt_type v) ∧ is_int (vt_type v) ∧ result next (ret_type d) d
  | IR_IC_SELECT t f p d => opnd t ∧ rel_opnd f (vt_type t) ∧ opnd p ∧ result next (vt_type t) d
  | IR_IC_LANDINGPAD d => result next (ret_type d) d
  | IR_IC_RESUME values => ∃ v, values = [v] ∧ opnd v
  | IR_IC_GEP b idx d =>
      opnd b ∧ ∃ last t, wf_gep next (vt_type b) idx last ∧
        find_type (is_pointer_to last) types 0 = Some t ∧ result next t d
  | IR_IC_PHI nodes d =>
      nodes ≠ [] ∧ result next (ret_type d) d ∧
      Forall (λ x, rel_opnd (phi_value x) (ret_type d) ∧ is_int (phi_predecessor x)) nodes ∧
      StronglySorted (λ x y, phi_predecessor x < phi_predecessor y) nodes
  | IR_IC_EXTRACTVAL v idx d =>
      opnd v ∧ Forall is_int idx ∧ ∃ t, extract_type types (vt_type v) idx = Ok t ∧ result next t d
  | IR_IC_INSERTVAL s r idx d => opnd s ∧ opnd r ∧ Forall is_int idx ∧ result next (vt_type s) d
  | IR_IC_CALL c d =>
      ca_normal_dest c = u32 (-1) ∧ ca_unwind_dest c = u32 (-1) ∧ wf_call next params c d
  | IR_IC_INVOKE c d =>
      is_int (ca_normal_dest c) ∧ is_int (ca_unwind_dest c) ∧ wf_call next params c d
  | _ => False
  end.

Definition is_term (i : ir_instr) : bool :=
  match i with
  | IR_IC_RET _ | IR_IC_BR _ _ _ | IR_IC_SWITCH _ _ _ | IR_IC_INVOKE _ _ | IR_IC_UNREACHABLE
  | IR_IC_RESUME _ => true
  | _ => false
  end.

(** The number after an instruction. *)
Definition next_after (next : Z) (i : ir_instr) : Z :=
  if vt_value (ii_ret (instr_ret i)) =? -1 then next else next + 1.

(** ** Reading one record *)

Lemma unit_types_st vs next bl cur : table vs next → unit_types (st vs bl cur) = types.
Proof. intros Ht. unfold unit_types, types_of. simpl. by rewrite (ta_types _ _ Ht). Qed.

Section instr.
Context (vs : value_state) (next : Z) (bl : list ir_bb) (id : Z).
Context (Ht : table vs next) (Hnext : next < Z.of_nat N).
Notation s := (st vs bl (Some id)).

(** What reading an instruction leads to. *)
Definition reads_to (r : res ir_unit) (i : ir_instr) (next' : Z) : Prop :=
  ∃ vs', r = Ok (st vs' (map (push_instr i id) bl) (Some id)) ∧ table vs' next'.

Lemma reads_result vs1 i d t :
  table vs1 next → result next t d →
  reads_to (add_result (st vs1 bl (Some id)) id t i) (i d) (next + 1).
Proof. intros H1 Hr. destruct (add_result_enc vs1 next t d bl id i H1 Hnext Hr) as (vs' & ? & ?). by exists vs'. Qed.

Lemma reads_plain vs1 i : table vs1 next → reads_to (add_instr (st vs1 bl (Some id)) id i) i next.
Proof. intros H1. exists vs1. by rewrite add_instr_st. Qed.

Lemma result_after i t d : 0 <= next → instr_ret i = d → result next t d → next_after next i = next + 1.
Proof. intros H0 Hi (-> & _ & _). unfold next_after. rewrite Hi. simpl. destruct (Z.eqb_spec next (-1)); lia. Qed.

Lemma table_nonneg : 0 <= next.
Proof. pose proof (ta_next _ _ Ht). lia. Qed.
End instr.

(** The next operand of the record. *)
Ltac vtp_step :=
  match goal with
  | Ht : table ?vs ?next, Ho : opnd ?v |- context[instr_get_vtp (st ?vs ?bl ?cur) (vtp ?next ?v ++ ?rest)] =>
      let vs' := fresh "vs" in let H1 := fresh "Hr" in let Ht' := fresh "Ht" in
      destruct (get_vtp_enc vs next v rest bl cur Ht Ho) as (vs' & H1 & Ht'); rewrite H1; clear H1; clear Ht; rok
  end.
Ltac rel_step :=
  match goal with
  | Ht : table ?vs ?next, Ho : rel_opnd ?v ?t |- context[instr_get_value (st ?vs ?bl ?cur) (rel ?next ?v :: ?rest) ?t] =>
      rewrite (get_value_enc vs next v t rest bl cur Ht Ho); rok
  end.

Lemma parse_binop_enc vs next bl id op l r d :
  table vs next → next < Z.of_nat N → is_int op → opnd l → rel_opnd r (vt_type l) → result next (vt_type l) d →
  reads_to bl id (parse_binop (st vs bl (Some id)) (vtp next l ++ [rel next r; op])) (IR_IC_BINOP op l r d) (next + 1).
Proof.
  intros Ht Hn Hop Hl Hr Hd. unfold parse_binop, instr_add. cbn [iu_current_bb st set_current]. rok.
  vtp_step. rel_step. unfold instr_get_uint. rok. rewrite int_u32, int_s32 by done. by apply reads_result.
Qed.

Ltac enter p := unfold p, instr_add; cbn [iu_current_bb st set_current]; rok.
Ltac ints := rewrite ?int_u32, ?int_s32 by done.

Section parsers.
Context (vs : value_state) (next : Z) (bl : list ir_bb) (id : Z).
Context (Ht : table vs next) (Hn : next < Z.of_nat N).
Notation s := (st vs bl (Some id)).
Notation reads := (reads_to bl id).

Lemma parse_ret_enc v :
  v = mk_vt (-1) 0 ∨ opnd v →
  reads (parse_ret s (if vt_value v =? -1 then [] else vtp next v)) (IR_IC_RET v) next.
Proof.
  intros Hv. enter parse_ret. destruct Hv as [->|Hv]; [by apply reads_plain|].
  destruct (Z.eqb_spec (vt_value v) (-1)); [destruct Hv as [? _]; lia|].
  rewrite <-(app_nil_r (vtp next v)). vtp_step.
  destruct (vtp next v ++ []) eqn:E; [|by apply reads_plain].
  unfold vtp in E. by destruct (_ <? _).
Qed.

Lemma parse_cast_enc op v d :
  is_int op → opnd v → result next (ret_type d) d →
  reads (parse_cast s (vtp next v ++ [ret_type d; op])) (IR_IC_CAST op v d) (next + 1).
Proof.
  intros Hop Hv Hd. pose proof (proj1 (proj2 Hd)) as Hi. enter parse_cast. vtp_step.
  unfold instr_get_uint. rok. ints. by apply reads_result.
Qed.

Lemma parse_load_enc l d :
  l = mk_load (ld_ptr l) 0 (mk_vt (-1) 0) 0 (-1) 0 → opnd (ld_ptr l) → result next (ret_type d) d →
  reads (parse_load s (vtp next (ld_ptr l) ++ [ret_type d; 0; 0])) (IR_IC_LOAD l d) (next + 1).
Proof.
  intros Hl Hp Hd. pose proof (proj1 (proj2 Hd)) as Hi. enter parse_load. vtp_step. ints.
  rewrite <-Hl. by apply reads_result.
Qed.

Lemma parse_store_enc p v :
  opnd p → opnd v →
  reads (parse_store s (vtp next p ++ vtp next v ++ [0; 0]) false) (IR_IC_STORE p v 0) next.
Proof. intros Hp Hv. enter parse_store. vtp_step. vtp_step. by apply reads_plain. Qed.

Lemma parse_insertval_enc a r idx d :
  opnd a → opnd r → Forall is_int idx → result next (vt_type a) d →
  reads (parse_insertval s (vtp next a ++ vtp next r ++ idx)) (IR_IC_INSERTVAL a r idx d) (next + 1).
Proof.
  intros Ha Hr Hi Hd. unfold parse_insertval. vtp_step. vtp_step. unfold instr_add. cbn [iu_current_bb st set_current]. rok.
  replace (map s32 idx) with idx; [by apply reads_result|].
  clear -Hi. induction Hi; simpl; [done|]. rewrite int_s32 by done. by f_equal.
Qed.

Lemma parse_cmp2_enc op l r t d :
  is_int op → opnd l → rel_opnd r (vt_type l) → type_find_by_code types IR_TYPE_INT1 = Ok t → result next t d →
  reads (parse_cmp2 s (vtp next l ++ [rel next r; op])) (IR_IC_CMP2 op l r d) (next + 1).
Proof.
  intros Hop Hl Hr Htc Hd. enter parse_cmp2. vtp_step. rel_step. unfold instr_get_uint. rok.
  match goal with H : table _ _ |- _ => rewrite (unit_types_st _ _ _ _ H) end. rewrite Htc. rok. ints.
  by apply reads_result.
Qed.

Lemma st_values vs' bl' cur : iu_values (st vs' bl' cur) = vs'.
Proof. done. Qed.

Lemma same_types vs' : table vs' next → mk_vs (vs_values vs') (vs_next vs') (vs_types (iu_values u0)) = vs'.
Proof. intros H. rewrite <-(ta_types _ _ H). by destruct vs'. Qed.

Lemma parse_br_enc c t f :
  is_int t → (c = mk_vt (-1) 0 ∧ f = 0 ∨
     is_int f ∧ 0 <= vt_value c ∧ find_type (has_code IR_TYPE_INT1) types 0 = Some (vt_type c) ∧ rel_opnd c (vt_type c)) →
  reads (parse_br s (if vt_value c =? -1 then [t] else [t; f; rel next c])) (IR_IC_BR c t f) next.
Proof.
  intros Hit Hc. enter parse_br. destruct Hc as [[-> ->]|(Hf & Hc0 & Hty & Hr)]; cbn [vt_value]; [rewrite Z.eqb_refl|].
  - unfold instr_get_uint. rok. ints. by apply reads_plain.
  - destruct (Z.eqb_spec (vt_value c) (-1)); [lia|]. unfold instr_get_uint. rok.
    rewrite st_values. unfold type_make. rewrite (ta_types _ _ Ht). unfold unit_types, types_of in Hty.
    rewrite Hty. rok. rewrite same_types by done.
    change (set_values s vs) with s. rel_step. ints. by apply reads_plain.
Qed.

Lemma parse_vselect_enc t f p d :
  opnd t → rel_opnd f (vt_type t) → opnd p → result next (vt_type t) d →
  reads (parse_vselect s (vtp next t ++ [rel next f] ++ vtp next p)) (IR_IC_SELECT t f p d) (next + 1).
Proof.
  intros Hot Hf Hp Hd. enter parse_vselect. vtp_step. cbn [app]. rel_step.
  rewrite <-(app_nil_r (vtp next p)). vtp_step. by apply reads_result.
Qed.

Lemma parse_vaarg_enc v d :
  rel_opnd v (vt_type v) → is_int (vt_type v) → result next (ret_type d) d →
  reads (parse_vaarg s [vt_type v; rel next v; ret_type d]) (IR_IC_VAARG v d) (next + 1).
Proof.
  intros Hv Hi Hd. pose proof (proj1 (proj2 Hd)) as Hi'. enter parse_vaarg. unfold arg. simpl drop. rok. ints.
  cbn [lookup list_lookup oget]. rok. ints. rel_step. unfold instr_get_uint. rok. ints. by apply reads_result.
Qed.

Lemma parse_landingpad_enc d :
  result next (ret_type d) d →
  reads (parse_landingpad s [ret_type d; 0; 0] false) (IR_IC_LANDINGPAD d) (next + 1).
Proof.
  intros Hd. pose proof (proj1 (proj2 Hd)) as Hi. unfold parse_landingpad, instr_get_uint, instr_add.
  cbn [iu_current_bb st set_current]. rok. simpl get_clauses. rok. ints. by apply reads_result.
Qed.

Lemma parse_resume_enc v : opnd v → reads (parse_resume s (vtp next v)) (IR_IC_RESUME [v]) next.
Proof. intros Hv. enter parse_resume. rewrite <-(app_nil_r (vtp next v)). vtp_step. by apply reads_plain. Qed.

Lemma parse_unreachable_enc : reads (parse_unreachable s) IR_IC_UNREACHABLE next.
Proof. enter parse_unreachable. by apply reads_plain. Qed.

Lemma value_get_table vs' v : table vs' next → 0 <= v < next → value_get vs' v = Ok (V v).
Proof.
  intros H Hv. pose proof (ta_length _ _ H). apply value_get_lookup.
  rewrite wrap_small by lia. by apply (ta_below _ _ H).
Qed.

Lemma get_vtps_enc vs1 vals fuel :
  table vs1 next → Forall opnd vals → (length vals <= fuel)%nat →
  ∃ vs', get_vtps fuel (st vs1 bl (Some id)) (concat (map (vtp next) vals)) = Ok (vals, st vs' bl (Some id)) ∧
    table vs' next.
Proof.
  intros H1 Hv. revert vs1 fuel H1; induction Hv as [|v vals Hv _ IH]; intros vs1 fuel H1 Hf.
  { exists vs1. by destruct fuel. }
  destruct fuel as [|fuel]; [simpl in Hf; lia|]. cbn [map concat].
  destruct (get_vtp_enc vs1 next v (concat (map (vtp next) vals)) bl (Some id) H1 Hv) as (vs2 & E & H2).
  destruct (IH vs2 fuel H2 ltac:(simpl in Hf; lia)) as (vs3 & E3 & H3).
  exists vs3. split; [|done]. cbn [get_vtps].
  destruct (vtp next v ++ concat (map (vtp next) vals)) eqn:Ea.
  { unfold vtp in Ea. by destruct (_ <? _). }
  rewrite E. rok. by rewrite E3.
Qed.

Lemma vtps_length vals : (length vals <= length (concat (map (vtp next) vals)))%nat.
Proof.
  induction vals as [|v vals IH]; simpl; [lia|]. rewrite length_app.
  unfold vtp at 1. destruct (_ <? _); simpl; lia.
Qed.

Lemma wf_gep_opnds type idx last : wf_gep next type idx last → Forall opnd (map gep_value idx).
Proof. revert type; induction idx as [|x idx IH]; intros type; simpl; [by constructor|]. naive_solver. Qed.

Lemma gep_indicies_enc vs1 type idx last :
  table vs1 next → wf_gep next type idx last →
  gep_indicies (st vs1 bl (Some id)) type (map gep_value idx) = Ok (idx, last).
Proof.
  intros H1. revert type; induction idx as [|x idx IH]; intros type Hw; simpl in *; [by subst|].
  destruct Hw as (Hx & Hlt & Hty & inner & Hi & Hw). rewrite (value_get_table _ _ H1) by (destruct Hx; lia). rok.
  rewrite (unit_types_st _ _ _ _ H1), Hi. rok. rewrite IH by done. rok. destruct x. by simplify_eq/=.
Qed.

Lemma make_pointer_enc vs1 last t :
  table vs1 next → find_type (is_pointer_to last) types 0 = Some t →
  make_pointer (st vs1 bl (Some id)) last = (t, st vs1 bl (Some id)).
Proof.
  intros H1 Hf. unfold make_pointer, type_make_pointer. rewrite st_values, (ta_types _ _ H1).
  unfold unit_types, types_of in Hf. rewrite Hf. by rewrite same_types.
Qed.

Lemma parse_gep_enc b idx last t d :
  opnd b → wf_gep next (vt_type b) idx last → find_type (is_pointer_to last) types 0 = Some t →
  result next t d →
  reads (parse_gep s ([1; 0] ++ vtp next b ++ concat (map (λ x, vtp next (gep_value x)) idx)) FUNC_CODE_INST_GEP)
    (IR_IC_GEP b idx d) (next + 1).
Proof.
  intros Hb Hw Hf Hd. unfold parse_gep. rewrite Z.eqb_refl. cbn [app drop]. rewrite drop_0. vtp_step.
  rewrite <-(map_map gep_value (vtp next) idx).
  match goal with H : table ?v next |- _ =>
    destruct (get_vtps_enc v (map gep_value idx) (length (concat (map (vtp next) (map gep_value idx)))) H) as (vs2 & E & H2);
      [by eapply wf_gep_opnds|apply vtps_length|] end.
  rewrite E. unfold instr_add. cbn [iu_current_bb st set_current]. rok.
  rewrite (gep_indicies_enc _ _ _ _ H2 Hw). rok. rewrite (make_pointer_enc _ _ _ H2 Hf). by apply reads_result.
Qed.

Lemma parse_alloca_enc size k e d p sz :
  is_int (vt_value k) → is_int (vt_type k) → 0 <= e <= 8 → result next (ret_type d) d →
  type_get_pointee types (ret_type d) = Ok p → type_sizeof types p = Ok sz → size = s32 sz →
  reads (parse_alloca s [ret_type d; vt_type k; vt_value k; Z.log2 (2 ^ e) + 1])
    (IR_IC_ALLOCA size k (2 ^ e) d) (next + 1).
Proof.
  intros Hk Hkt He Hd Hp Hsz ->. pose proof (proj1 (proj2 Hd)) as Hi. enter parse_alloca. ints.
  rewrite Z.log2_pow2 by lia.
  assert (Z.testbit (e + 1) 6 = false ∧ Z.land (e + 1) 31 = e + 1 ∧ vmir_llvm_alignment (e + 1) 4 = Ok (2 ^ e))
    as (-> & -> & ->).
  { assert (∃ m, (m < 9)%nat ∧ e = Z.of_nat m) as (m & Hm & ->) by (exists (Z.to_nat e); lia).
    do 9 (destruct m as [|m]; [by split_and!|]). lia. }
  rewrite (unit_types_st _ _ _ _ Ht), Hp. rok. rewrite Hsz. rok. destruct k. by apply reads_result.
Qed.

Lemma parse_extractval_enc v idx t d :
  opnd v → Forall is_int idx → extract_type types (vt_type v) idx = Ok t → result next t d →
  reads (parse_extractval s (vtp next v ++ idx)) (IR_IC_EXTRACTVAL v idx d) (next + 1).
Proof.
  intros Hv Hi Hx Hd. unfold parse_extractval. vtp_step. unfold instr_add. cbn [iu_current_bb st set_current]. rok.
  replace (map s32 idx) with idx.
  2: { clear -Hi. induction Hi; simpl; [done|]. rewrite int_s32 by done. by f_equal. }
  match goal with H : table _ _ |- _ => rewrite (unit_types_st _ _ _ _ H) end. rewrite Hx. rok. by apply reads_result.
Qed.

(** ** PHI nodes and switches *)

Lemma phi_nodes_enc nodes t :
  Forall (λ x, rel_opnd (phi_value x) t ∧ is_int (phi_predecessor x)) nodes →
  phi_nodes s t (concat (map (node_args next) nodes)) = Ok nodes.
Proof.
  induction 1 as [|x nodes [[Hx Hty] Hp] _ IH]; [done|]. cbn [map concat node_args app phi_nodes].
  pose proof (table_nonneg vs next Ht). unfold instr_get_value_signed at 1. rewrite st_values, (ta_next _ _ Ht).
  rewrite read_sign_rotated_inverse by lia. rok. rewrite IH. rok. ints.
  replace (next - (next - vt_value (phi_value x))) with (vt_value (phi_value x)) by lia.
  rewrite sgn_small by lia. destruct x as [? []]. simpl in *. by subst.
Qed.

Lemma unique_nodes_sorted x nodes :
  StronglySorted (λ x y, phi_predecessor x < phi_predecessor y) (x :: nodes) →
  unique_nodes (phi_predecessor x) nodes = nodes.
Proof.
  revert x; induction nodes as [|y nodes IH]; intros x Hs; [done|]. simpl.
  apply StronglySorted_inv in Hs as [Hs Hx]. pose proof (Forall_inv Hx) as Hlt; simpl in Hlt.
  destruct (Z.eqb_spec (phi_predecessor y) (phi_predecessor x)); [lia|]. f_equal. by apply IH.
Qed.

Lemma parse_phi_enc nodes d :
  (∀ l, qsort_nodes l ≡ₚ l ∧ StronglySorted (λ x y, phi_predecessor x <= phi_predecessor y) (qsort_nodes l)) →
  nodes ≠ [] → result next (ret_type d) d →
  Forall (λ x, rel_opnd (phi_value x) (ret_type d) ∧ is_int (phi_predecessor x)) nodes →
  StronglySorted (λ x y, phi_predecessor x < phi_predecessor y) nodes →
  reads (parse_phi qsort_nodes s (ret_type d :: concat (map (node_args next) nodes))) (IR_IC_PHI nodes d) (next + 1).
Proof.
  intros Hq Hne Hd Hf Hs. pose proof (proj1 (proj2 Hd)) as Hi. unfold parse_phi, instr_get_uint, instr_add.
  cbn [iu_current_bb st set_current]. rok. ints. rewrite phi_nodes_enc by done. rok.
  destruct (Hq nodes) as [Hp Hw]. rewrite (sorted_same phi_predecessor nodes _ Hs Hp Hw).
  destruct nodes as [|x nodes]; [done|]. rewrite unique_nodes_sorted by done. by apply reads_result.
Qed.

Lemma switch_paths_enc v w paths :
  is_int (vt_type v) → Forall (wf_path next (vt_type v) (2 ^ w - 1)) paths →
  switch_paths s (vt_type v) (2 ^ w - 1)
    (concat (map (λ p, [case_id (vt_type v) (pa_v64 p); pa_block p]) paths)) = Ok paths.
Proof.
  intros Hi. induction 1 as [|p paths Hp _ IH]; [done|]. cbn [map concat app switch_paths].
  destruct Hp as (Hb & Hid & Hc & Hty & v64 & Hv & Hm). pose proof (ta_length _ _ Ht).
  rewrite st_values, wrap_small, (value_get_table _ _ Ht) by lia. rok. rewrite Hc. rok.
  rewrite Hty, int_u32, Z.eqb_refl by done. rok. rewrite (unit_types_st _ _ _ _ Ht), Hv. rok.
  rewrite IH. rok. ints. rewrite Hm. by destruct p.
Qed.

Lemma parse_switch_enc v d paths ty w :
  (∀ l, qsort_paths l ≡ₚ l ∧ StronglySorted (λ x y, pa_v64 x <= pa_v64 y) (qsort_paths l)) →
  is_int d → rel_opnd v (vt_type v) → is_int (vt_type v) → type_get types (vt_type v) = Ok ty →
  type_bitwidth ty = Ok w → w < 64 → Forall (wf_path next (vt_type v) (2 ^ w - 1)) paths →
  StronglySorted (λ p q, pa_v64 p < pa_v64 q) paths →
  reads (parse_switch qsort_paths s (([vt_type v; rel next v; d] : list ir_arg) ++
           concat (map (λ p, [case_id (vt_type v) (pa_v64 p); pa_block p]) paths)))
    (IR_IC_SWITCH v d paths) next.
Proof.
  intros Hq Hd Hv Hi Hty Hw Hlt Hf Hs. unfold parse_switch, instr_get_uint, instr_add. cbn [app]. rok. ints. rel_step.
  cbn [iu_current_bb st set_current]. rok. rewrite (unit_types_st _ _ _ _ Ht), Hty. rok. rewrite Hw. rok.
  rewrite (proj2 (Z.leb_le w 64)) by lia. rok.
  assert (switch_mask w = 2 ^ w - 1) as ->.
  { unfold switch_mask. destruct (Z.eqb_spec w 64); [lia|]. by rewrite Z.shiftl_1_l. }
  rewrite switch_paths_enc by done. rok.
  destruct (Hq paths) as [Hp Hw']. rewrite (sorted_same pa_v64 paths _ Hs Hp Hw'). ints. by apply reads_plain.
Qed.

(** ** Calls *)

Lemma callee_type_st vs1 cur fn : table vs1 next → callee_type (st vs1 bl cur) fn = callee_type u0 fn.
Proof.
  intros H1. unfold callee_type. rewrite (unit_types_st _ _ _ _ H1). destruct (iv_class fn); try done.
  destruct (iv_u fn) as [| |k| |]; try done. cbn [st set_current iu_functions alter_function set_functions set_values].
  destruct (decide (Z.to_nat k = g)) as [->|Hne].
  - rewrite list_lookup_alter_eq. by destruct (iu_functions u0 !! g).
  - by rewrite list_lookup_alter_ne.
Qed.

Lemma call_varargs_enc vs1 args fuel :
  table vs1 next → Forall opnd args → (length args <= fuel)%nat →
  ∃ vs', call_args fuel (st vs1 bl (Some id)) [] (concat (map (vtp next) args)) = Ok (args, st vs' bl (Some id)) ∧
    table vs' next.
Proof.
  intros H1 Hv. revert vs1 fuel H1; induction Hv as [|v args Hv _ IH]; intros vs1 fuel H1 Hf.
  { exists vs1. by destruct fuel. }
  destruct fuel as [|fuel]; [simpl in Hf; lia|]. cbn [map concat].
  destruct (get_vtp_enc vs1 next v (concat (map (vtp next) args)) bl (Some id) H1 Hv) as (vs2 & E & H2).
  destruct (IH vs2 fuel H2 ltac:(simpl in Hf; lia)) as (vs3 & E3 & H3).
  exists vs3. split; [|done]. cbn [call_args].
  destruct (vtp next v ++ concat (map (vtp next) args)) eqn:Ea.
  { unfold vtp in Ea. by destruct (_ <? _). }
  rewrite E. rok. by rewrite E3.
Qed.

Lemma call_args_enc_ok vs1 params args fuel :
  table vs1 next → wf_args params args → (length (call_args_enc next params args) <= fuel)%nat →
  ∃ vs', call_args fuel (st vs1 bl (Some id)) params (call_args_enc next params args) =
           Ok (args, st vs' bl (Some id)) ∧ table vs' next.
Proof.
  unfold call_args_enc. intros H1 (Hl & Hp & Ho). revert args fuel Hl Hp Ho.
  induction params as [|t params IH]; intros args fuel Hl Hp Ho Hf.
  { simpl in *. rewrite drop_0 in *. apply call_varargs_enc; [done|done|]. pose proof (vtps_length args). lia. }
  destruct args as [|v args]; [simpl in Hl; lia|]. cbn [length take drop map app] in *.
  apply Forall2_cons_1 in Hp as [Hv Hp]. destruct fuel as [|fuel]; [lia|].
  destruct (IH args fuel ltac:(lia) Hp Ho ltac:(lia)) as (vs' & E & H').
  exists vs'. split; [|done]. cbn [call_args]. rel_step. by rewrite E.
Qed.

Context (HA : Z.of_nat (length (iu_attrsets u0)) < 2 ^ 32 - 1).

Lemma no_attributes vs1 args :
  call_copy_sizes (st vs1 bl (Some id)) (u32 (0 - 1)) args = Ok (replicate (length args) 0).
Proof.
  unfold call_copy_sizes. cbn [st set_current iu_attrsets alter_function set_functions set_values].
  rewrite lookup_ge_None_2; [done|]. change (u32 (0 - 1)) with (2 ^ 32 - 1).
  apply Nat2Z.inj_le. rewrite Z2Nat.id by done. exact (Z.lt_le_incl _ _ HA).
Qed.

Definition call_instr (invoke : bool) (c : ir_call) (d : ir_ret) : ir_instr :=
  if invoke then IR_IC_INVOKE c d else IR_IC_CALL c d.
Definition call_head (invoke : bool) (c : ir_call) : list ir_arg :=
  if invoke then [0; 8192; ca_normal_dest c; ca_unwind_dest c; 0] else [0; 32768; 0].
Definition dests_ok (invoke : bool) (c : ir_call) : Prop :=
  if invoke then is_int (ca_normal_dest c) ∧ is_int (ca_unwind_dest c)
  else ca_normal_dest c = u32 (-1) ∧ ca_unwind_dest c = u32 (-1).

Lemma call_header_enc invoke c rest :
  dests_ok invoke c →
  ∃ cc, call_header invoke (call_head invoke c ++ rest) =
    Ok (u32 (0 - 1), cc, (ca_normal_dest c, ca_unwind_dest c), rest) ∧ Z.testbit cc 14 = false.
Proof.
  unfold dests_ok, call_header, call_head, instr_get_uint. intros H.
  destruct invoke; cbn [app]; rok; destruct H as [H1 H2].
  - exists 8192. split; [|done]. rewrite (int_u32 (ca_normal_dest c)), (int_u32 (ca_unwind_dest c)) by done.
    change (Z.testbit (u32 8192) 13) with true. cbn [drop]. by rewrite drop_0.
  - exists 32768. split; [|done]. rewrite H1, H2.
    change (Z.testbit (u32 32768) 15) with true. cbn [drop]. by rewrite drop_0.
Qed.

Lemma parse_call_enc invoke params c d :
  dests_ok invoke c → wf_call next params c d →
  reads (parse_call_or_invoke s (call_head invoke c ++ vtp next (ca_callee c) ++ call_args_enc next params (ca_argv c))
           invoke) (call_instr invoke c d) (next_after next (call_instr invoke c d)).
Proof.
  intros Hd (ft & ret & (Hc & Hlt & Ha & Hct) & -> & Hargs & Hvm & Hsz & Hret & Hr). unfold parse_call_or_invoke.
  destruct (call_header_enc invoke c (vtp next (ca_callee c) ++ call_args_enc next (ft_parameters ft) (ca_argv c)) Hd)
    as (cc & -> & Hcc). rok. vtp_step.
  match goal with H1 : table ?v next |- _ => rename v into vs1; rename H1 into Ht1 end.
  rewrite st_values. unfold alias_fuel. cbn [resolve_alias].
  rewrite (value_get_table _ _ Ht1) by (destruct Hc; lia). rok.
  rewrite bool_decide_false by done. rok. rewrite (callee_type_st _ _ _ Ht1), Hct. rok. rewrite Hcc. rok.
  destruct (call_args_enc_ok vs1 (ft_parameters ft) (ca_argv c) _ Ht1 Hargs (Nat.le_refl _)) as (vs2 & -> & Ht2). rok.
  unfold instr_add. cbn [iu_current_bb st set_current]. rok. rewrite no_attributes. rok.
  rewrite (unit_types_st _ _ _ _ Ht2), Hret. rok.
  assert (mk_call (mk_vt (vt_value (ca_callee c)) (vt_type (ca_callee c))) 0 (ca_normal_dest c) (ca_unwind_dest c)
            (ca_argv c) (replicate (length (ca_argv c)) 0) = c) as ->.
  { rewrite <-Hsz, <-Hvm. by destruct c as [[]]. }
  pose proof (table_nonneg _ _ Ht2).
  destruct Hr as [[-> ->]|[Hnv Hr]].
  - replace (next_after next _) with next by by destruct invoke. destruct invoke; by apply reads_plain.
  - rewrite (result_after next _ (ft_return_type ft) d) by (done || by destruct invoke).
    destruct ret; [|done|..]; destruct invoke; by apply reads_result.
Qed.
End parsers.

(** ** The handler of records *)

Notation handler := (function_rec_handler qsort_nodes qsort_paths).

Record sorts_ok : Prop := {
  so_nodes l : qsort_nodes l ≡ₚ l ∧ StronglySorted (λ x y, phi_predecessor x <= phi_predecessor y) (qsort_nodes l);
  so_paths l : qsort_paths l ≡ₚ l ∧ StronglySorted (λ x y, pa_v64 x <= pa_v64 y) (qsort_paths l);
}.

Definition attrs_small : Prop := Z.of_nat (length (iu_attrsets u0)) < 2 ^ 32 - 1.

Lemma after_result next i t d :
  0 <= next → instr_ret i = d → result next t d → next + 1 = next_after next i.
Proof. intros H0 Hi Hr. symmetry. by eapply result_after. Qed.

(** Reads [lem], whose [reads_to] gives the state. *)
Ltac finish lem :=
  let vs' := fresh "vs" in let E := fresh "E" in let H := fresh "Ht" in
  destruct lem as (vs' & E & H); exists vs'; split; [|exact H];
  first [exact E|exact (f_equal (λ r, r ≫= next_bb) E)].

Ltac after Hr :=
  match goal with H0 : 0 <= ?next |- context[next_after ?next ?i] =>
    rewrite <-(after_result next i _ (instr_ret i) H0 eq_refl Hr) end.

Lemma record_read vs next bl id params i op argv :
  sorts_ok → attrs_small → table vs next → next < Z.of_nat N → wf_instr next params i →
  enc_instr case_id next params i = Some (op, argv) →
  ∃ vs', handler (st vs bl (Some id)) op argv =
           (if is_term i then next_bb else Ok) (st vs' (map (push_instr i id) bl) (Some id)) ∧
         table vs' (next_after next i).
Proof.
  intros Hq HA Ht Hn Hw He. pose proof (table_nonneg _ _ Ht) as H0.
  destruct i; simpl in Hw; try done; cbn [is_term].
  - injection He as <- <-. change (handler ?s FUNC_CODE_INST_RET ?a) with (u ← parse_ret s a; next_bb u).
    finish (parse_ret_enc vs next bl id Ht value Hw).
  - injection He as <- <-. destruct Hw as (H1 & H2 & H3 & H4). after H4.
    change (handler ?s FUNC_CODE_INST_BINOP ?a) with (parse_binop s a).
    finish (parse_binop_enc vs next bl id op0 lhs rhs ret Ht Hn H1 H2 H3 H4).
  - injection He as <- <-. destruct Hw as (H1 & H2 & H3). after H3.
    change (handler ?s FUNC_CODE_INST_LOAD ?a) with (parse_load s a).
    finish (parse_load_enc vs next bl id Ht Hn l ret H1 H2 H3).
  - injection He as <- <-. destruct Hw as (H1 & H2 & H3 & t & H4 & H5). after H5.
    change (handler ?s FUNC_CODE_INST_CMP2 ?a) with (parse_cmp2 s a).
    finish (parse_cmp2_enc vs next bl id Ht Hn op0 lhs rhs t ret H1 H2 H3 H4 H5).
  - injection He as <- <-. destruct Hw as [H1 H2].
    change (handler ?s FUNC_CODE_INST_BR ?a) with (u ← parse_br s a; next_bb u).
    finish (parse_br_enc vs next bl id Ht condition true_branch false_branch H1 H2).
  - injection He as <- <-. destruct Hw as (-> & H1 & H2).
    change (handler ?s FUNC_CODE_INST_STORE ?a) with (parse_store s a false).
    finish (parse_store_enc vs next bl id Ht ptr value H1 H2).
  - injection He as <- <-. destruct Hw as (H1 & H2 & H3). after H3.
    change (handler ?s FUNC_CODE_INST_CAST ?a) with (parse_cast s a).
    finish (parse_cast_enc vs next bl id Ht Hn op0 value ret H1 H2 H3).
  - injection He as <- <-. destruct Hw as (H1 & H2 & H3).
    change (handler ?s FUNC_CODE_INST_CALL ?a) with (parse_call_or_invoke s a false).
    finish (parse_call_enc vs next bl id Ht Hn HA false params c ret (conj H1 H2) H3).
  - injection He as <- <-. destruct Hw as (H1 & H2 & H3).
    change (handler ?s FUNC_CODE_INST_INVOKE ?a) with (u ← parse_call_or_invoke s a true; next_bb u).
    finish (parse_call_enc vs next bl id Ht Hn HA true params c ret (conj H1 H2) H3).
  - injection He as <- <-. destruct Hw as (H1 & H2 & H3 & ty & w & H4 & H5 & H6 & H7 & H8).
    change (handler ?s FUNC_CODE_INST_SWITCH ?a) with (u ← parse_switch qsort_paths s a; next_bb u).
    finish (parse_switch_enc vs next bl id Ht Hn value defblock paths ty w (so_paths Hq) H1 H2 H3 H4 H5 H6 H7 H8).
  - injection He as <- <-. destruct Hw as (H1 & H2 & (e & H3 & ->) & H4 & p & sz & H5 & H6 & H7). after H4.
    change (handler ?s FUNC_CODE_INST_ALLOCA ?a) with (parse_alloca s a).
    finish (parse_alloca_enc vs next bl id Ht Hn size num_items e ret p sz H1 H2 H3 H4 H5 H6 H7).
  - injection He as <- <-. destruct Hw as (H1 & H2 & H3). after H3.
    change (handler ?s FUNC_CODE_INST_VAARG ?a) with (parse_vaarg s a).
    finish (parse_vaarg_enc vs next bl id Ht Hn value ret H1 H2 H3).
  - injection He as <- <-. destruct Hw as (H1 & H2 & H3 & H4). after H4.
    change (handler ?s FUNC_CODE_INST_VSELECT ?a) with (parse_vselect s a).
    finish (parse_vselect_enc vs next bl id Ht Hn true_value false_value pred ret H1 H2 H3 H4).
  - injection He as <- <-. after Hw.
    change (handler ?s FUNC_CODE_INST_LANDINGPAD ?a) with (parse_landingpad s a false).
    finish (parse_landingpad_enc vs next bl id Ht Hn ret Hw).
  - destruct Hw as (v & -> & H1). injection He as <- <-.
    change (handler ?s FUNC_CODE_INST_RESUME ?a) with (u ← parse_resume s a; next_bb u).
    finish (parse_resume_enc vs next bl id Ht v H1).
  - injection He as <- <-. change (handler ?s FUNC_CODE_INST_UNREACHABLE ?a) with (u ← parse_unreachable s; next_bb u).
    finish (parse_unreachable_enc vs next bl id Ht).
  - injection He as <- <-. destruct Hw as (H1 & last & t & H2 & H3 & H4). after H4.
    change (handler ?s FUNC_CODE_INST_GEP ?a) with (parse_gep s a FUNC_CODE_INST_GEP).
    finish (parse_gep_enc vs next bl id Ht Hn baseptr indicies last t ret H1 H2 H3 H4).
  - injection He as <- <-. destruct Hw as (H1 & H2 & H3 & H4). after H2.
    change (handler ?s FUNC_CODE_INST_PHI ?a) with (parse_phi qsort_nodes s a).
    finish (parse_phi_enc vs next bl id Ht Hn nodes ret (so_nodes Hq) H1 H2 H3 H4).
  - injection He as <- <-. destruct Hw as (H1 & H2 & t & H3 & H4). after H4.
    change (handler ?s FUNC_CODE_INST_EXTRACTVAL ?a) with (parse_extractval s a).
    finish (parse_extractval_enc vs next bl id Ht Hn value indicies t ret H1 H2 H3 H4).
  - injection He as <- <-. destruct Hw as (H1 & H2 & H3 & H4). after H4.
    change (handler ?s FUNC_CODE_INST_INSERTVAL ?a) with (parse_insertval s a).
    finish (parse_insertval_enc vs next bl id Ht Hn src replacement indicies ret H1 H2 H3 H4).
Qed.

(** ** A whole function *)

Context (params_of : ir_instr → list Z).

Fixpoint enc_instrs (next : Z) (l : list ir_instr) : option (list (Z * list ir_arg)) :=
  match l with
  | [] => Some []
  | i :: l =>
      r ← enc_instr case_id next (params_of i) i;
      rs ← enc_instrs (next_after next i) l; Some (r :: rs)
  end.

Fixpoint wf_instrs (next : Z) (l : list ir_instr) : Prop :=
  match l with
  | [] => True
  | i :: l => next < Z.of_nat N ∧ wf_instr next (params_of i) i ∧ wf_instrs (next_after next i) l
  end.

Fixpoint number_after (next : Z) (l : list ir_instr) : Z :=
  match l with [] => next | i :: l => number_after (next_after next i) l end.

(** A block ends with its only terminator. *)
Definition wf_bb (bb : ir_bb) : Prop :=
  ∃ body t, ib_instrs bb = body ++ [t] ∧ is_term t = true ∧ Forall (λ i, is_term i = false) body.

Definition records (u : ir_unit) (l : list (Z * list ir_arg)) : res ir_unit :=
  foldR (λ u r, handler u r.1 r.2) u l.

Definition push_instrs (l : list ir_instr) (id : Z) (bb : ir_bb) : ir_bb :=
  if ib_id bb =? id then mk_bb id (ib_instrs bb ++ l) else bb.

Lemma push_instrs_cons i l id bb : push_instrs l id (push_instr i id bb) = push_instrs (i :: l) id bb.
Proof.
  unfold push_instrs, push_instr. destruct (Z.eqb_spec (ib_id bb) id) as [E|E]; simpl.
  - rewrite Z.eqb_refl. by rewrite <-app_assoc.
  - by rewrite (proj2 (Z.eqb_neq _ _) E).
Qed.

Lemma push_instrs_nil id bb : push_instrs [] id bb = bb.
Proof. unfold push_instrs. destruct (Z.eqb_spec (ib_id bb) id); [|done]. subst. rewrite app_nil_r. by destruct bb. Qed.

Lemma enc_instrs_app next l1 l2 :
  enc_instrs next (l1 ++ l2) =
    r1 ← enc_instrs next l1; r2 ← enc_instrs (number_after next l1) l2; Some (r1 ++ r2).
Proof.
  revert next; induction l1 as [|i l1 IH]; intros next; simpl; [by destruct (enc_instrs _ _)|].
  destruct (enc_instr _ _ _ _); simpl; [|done]. rewrite IH.
  destruct (enc_instrs (next_after next i) l1); simpl; [|done]. by destruct (enc_instrs _ l2).
Qed.

Lemma wf_instrs_app next l1 l2 :
  wf_instrs next (l1 ++ l2) ↔ wf_instrs next l1 ∧ wf_instrs (number_after next l1) l2.
Proof. revert next; induction l1 as [|i l1 IH]; intros next; simpl; [tauto|]. rewrite IH. tauto. Qed.

Lemma number_after_app next l1 l2 : number_after next (l1 ++ l2) = number_after (number_after next l1) l2.
Proof. revert next; induction l1 as [|i l1 IH]; intros next; simpl; [done|apply IH]. Qed.

Context (Hq : sorts_ok) (HA : attrs_small).

Lemma body_read vs next bl id l recs :
  table vs next → wf_instrs next l → Forall (λ i, is_term i = false) l → enc_instrs next l = Some recs →
  ∃ vs', records (st vs bl (Some id)) recs = Ok (st vs' (map (push_instrs l id) bl) (Some id)) ∧
    table vs' (number_after next l).
Proof.
  revert vs next bl recs; induction l as [|i l IH]; intros vs next bl recs Ht Hw Hb He.
  { injection He as <-. exists vs. split; [|done]. rewrite (map_ext _ (λ b, b) (push_instrs_nil id)).
    by rewrite map_id. }
  destruct Hw as (Hn & Hw & Hws). apply Forall_cons_1 in Hb as [Hi Hb]. simpl in He.
  destruct (enc_instr _ _ _ _) as [[op argv]|] eqn:Ei; simpl in He; [|done].
  destruct (enc_instrs _ _) as [rs|] eqn:Es; simpl in He; [|done]. injection He as <-.
  destruct (record_read vs next bl id _ i op argv Hq HA Ht Hn Hw Ei) as (vs1 & E1 & H1). rewrite Hi in E1.
  destruct (IH vs1 _ (map (push_instr i id) bl) rs H1 Hws Hb Es) as (vs2 & E2 & H2).
  exists vs2. split; [|done]. unfold records in *. cbn [foldR fst snd]. rewrite E1. rok. rewrite E2. do 2 f_equal.
  rewrite map_map. apply map_ext. intros bb. apply push_instrs_cons.
Qed.

Context (f0 : ir_function) (Hf0 : iu_functions u0 !! g = Some f0).

Lemma next_bb_st vs bl id k :
  list_find (λ bb, ib_id bb = id) bl = Some k →
  next_bb (st vs bl (Some id)) = Ok (st vs bl (ib_id <$> bl !! S k.1)).
Proof.
  intros Hk. unfold next_bb. cbn [st set_current iu_current_bb iu_current_function iu_functions alter_function set_functions set_values].
  rok. rewrite list_lookup_alter_eq, Hf0. cbn [fmap option_fmap option_map]. rok. cbn [if_bbs set_bbs]. rewrite Hk. rok. by destruct k.
Qed.

Definition blank (bb : ir_bb) : ir_bb := mk_bb (ib_id bb) [].

Lemma push_other l id bl : Forall (λ bb, ib_id bb ≠ id) bl → map (push_instrs l id) bl = bl.
Proof.
  induction 1 as [|bb bl Hne _ IH]; simpl; [done|]. rewrite IH. f_equal.
  unfold push_instrs. by rewrite (proj2 (Z.eqb_neq _ _) Hne).
Qed.

Lemma find_middle bl1 id bb bl2 :
  Forall (λ bb, ib_id bb ≠ id) bl1 → ib_id bb = id →
  list_find (λ bb, ib_id bb = id) (bl1 ++ bb :: bl2) = Some (length bl1, bb).
Proof.
  intros H1 Hid. apply list_find_Some. split_and!; [by apply list_lookup_middle|done|].
  intros j y Hj Hlt. rewrite lookup_app_l in Hj by done. by eapply (list.Forall_lookup_1 _ _ _ _ H1).
Qed.

Lemma block_read vs next done bb rest recs :
  table vs next → NoDup (map ib_id (done ++ bb :: rest)) → wf_bb bb → wf_instrs next (ib_instrs bb) →
  enc_instrs next (ib_instrs bb) = Some recs →
  ∃ vs', records (st vs (done ++ map blank (bb :: rest)) (Some (ib_id bb))) recs =
           Ok (st vs' ((done ++ [bb]) ++ map blank rest) (ib_id <$> head rest)) ∧
    table vs' (number_after next (ib_instrs bb)).
Proof.
  intros Ht Hnd (body & t & Hi & Hterm & Hbody) Hw He. set (id := ib_id bb).
  assert (Forall (λ b, ib_id b ≠ id) done ∧ Forall (λ b, ib_id b ≠ id) (map blank rest)) as [Hd Hr].
  { rewrite map_app in Hnd. apply list.NoDup_app in Hnd as (_ & Hx & Hnd). simpl in Hnd. apply list.NoDup_cons in Hnd as [Hy _].
    split; apply list.Forall_forall; intros b Hb E.
    - apply (Hx id); [|apply list_elem_of_here]. rewrite <-E. apply list_elem_of_In, in_map. by apply list_elem_of_In.
    - apply list_elem_of_In, in_map_iff in Hb as (b' & <- & Hb). apply Hy. fold id. rewrite <-E.
      apply list_elem_of_In. exact (in_map ib_id _ _ Hb). }
  rewrite Hi in *. rewrite enc_instrs_app in He. apply wf_instrs_app in Hw as [Hw Hwt].
  destruct (enc_instrs next body) as [r1|] eqn:E1; simpl in He; [|done].
  destruct (enc_instr _ _ _ t) as [[op argv]|] eqn:Et; simpl in He; [|done]. injection He as <-.
  destruct (body_read vs next (done ++ map blank (bb :: rest)) id body r1 Ht Hw Hbody E1) as (vs1 & Hr1 & H1).
  destruct Hwt as (Hn & Hwt & _).
  destruct (record_read vs1 _ (map (push_instrs body id) (done ++ map blank (bb :: rest))) id _ t op argv Hq HA H1 Hn Hwt Et)
    as (vs2 & E2 & H2). rewrite Hterm in E2.
  exists vs2. rewrite number_after_app. split; [|done]. unfold records in *. rewrite foldR_app, Hr1. rok.
  cbn [foldR fst snd]. rewrite E2. rewrite map_map.
  rewrite (map_ext _ (push_instrs (body ++ [t]) id)).
  2: { intros b. unfold push_instr, push_instrs. destruct (Z.eqb_spec (ib_id b) id) as [E|E]; simpl.
       - by rewrite Z.eqb_refl, app_assoc.
       - by rewrite (proj2 (Z.eqb_neq _ _) E). }
  rewrite map_app, (push_other _ _ done) by done. cbn [map]. rewrite (push_other _ _ (map blank rest)) by done.
  assert (push_instrs (body ++ [t]) id (blank bb) = bb) as ->.
  { unfold push_instrs, blank. simpl. rewrite Z.eqb_refl, <-Hi. by destruct bb. }
  rewrite (next_bb_st _ _ _ _ (find_middle done id bb (map blank rest) Hd eq_refl)). rok.
  do 2 f_equal; [by rewrite <-app_assoc|]. cbn [fst].
  rewrite lookup_app_r by lia. replace (S (length done) - length done)%nat with 1%nat by lia. simpl.
  by destruct rest.
Qed.

Lemma blocks_read vs next done rest recs :
  table vs next → NoDup (map ib_id (done ++ rest)) → Forall wf_bb rest →
  wf_instrs next (concat (map ib_instrs rest)) → enc_instrs next (concat (map ib_instrs rest)) = Some recs →
  ∃ vs', records (st vs (done ++ map blank rest) (ib_id <$> head rest)) recs = Ok (st vs' (done ++ rest) None) ∧
    table vs' (number_after next (concat (map ib_instrs rest))).
Proof.
  revert vs next done recs; induction rest as [|bb rest IH]; intros vs next done recs Ht Hnd Hwf Hw He.
  { injection He as <-. by exists vs. }
  apply Forall_cons_1 in Hwf as [Hbb Hwf]. cbn [map concat] in *. apply wf_instrs_app in Hw as [Hw1 Hw2].
  rewrite enc_instrs_app in He. destruct (enc_instrs next _) as [r1|] eqn:E1; simpl in He; [|done].
  destruct (enc_instrs _ (concat _)) as [r2|] eqn:E2; simpl in He; [|done]. injection He as <-.
  destruct (block_read vs next done bb rest r1 Ht Hnd Hbb Hw1 E1) as (vs1 & Hr1 & H1).
  destruct (IH vs1 _ (done ++ [bb]) r2 H1) as (vs2 & Hr2 & H2); [by rewrite <-app_assoc|done|done|done|].
  exists vs2. rewrite number_after_app. split; [|done]. unfold records in *. rewrite foldR_app. cbn [head fmap option_fmap option_map].
  cbn [map] in Hr1. rewrite Hr1. rok. rewrite Hr2. by rewrite <-app_assoc.
Qed.

Lemma iter_bb_add k :
  if_bbs f0 = [] → if_num_bbs f0 = 0 →
  Nat.iter k bb_add f0 = set_bbs f0 (Z.of_nat k) (map (λ i, mk_bb i []) (seqZ 0 (Z.of_nat k))).
Proof.
  intros Hb Hz. induction k as [|k IH].
  - simpl. destruct f0; simpl in *. by rewrite Hb, Hz.
  - rewrite Nat.iter_succ, IH. unfold bb_add. cbn [if_num_bbs if_bbs set_bbs].
    rewrite seqZ_S, map_app. unfold set_bbs. simpl. f_equal. lia.
Qed.

(** C1: the records of a function body are read back: a list of blocks is
    written as DECLAREBLOCKS and one record for each instruction, operands
    relative to the number of the next value, forward ones with their types;
    the handler of function records gives the function exactly these blocks and
    the value table exactly their results, and changes nothing else. *)
Theorem function_body_read bbs next recs :
  iu_current_function u0 = Some g → if_bbs f0 = [] → if_num_bbs f0 = 0 →
  n = Z.of_nat (length bbs) → 0 < n <= 65535 → map ib_id bbs = seqZ 0 n →
  table (iu_values u0) next → Forall wf_bb bbs →
  wf_instrs next (concat (map ib_instrs bbs)) → enc_instrs next (concat (map ib_instrs bbs)) = Some recs →
  ∃ vs', records u0 ((FUNC_CODE_DECLAREBLOCKS, [n]) :: recs) = Ok (st vs' bbs None) ∧
    table vs' (number_after next (concat (map ib_instrs bbs))).
Proof.
  intros Hc Hb Hz Hlen Hn Hids Ht Hwf Hw He. unfold records. cbn [foldR fst snd].
  change (handler u0 FUNC_CODE_DECLAREBLOCKS [n]) with (declare_blocks u0 [n]).
  assert (map blank bbs = map (λ i, mk_bb i []) (seqZ 0 n)) as Hbl by by rewrite <-Hids, map_map.
  assert (declare_blocks u0 [n] = Ok (st (iu_values u0) (map blank bbs) (ib_id <$> head bbs))) as ->.
  { unfold declare_blocks. rewrite Hc. rok. rewrite Hf0. rok. rewrite Hb. cbn [arg lookup list_lookup oget]. rok.
    rewrite (wrap_small 32 n) by lia. destruct (Z.eqb_spec n 0); [lia|]. rewrite (proj2 (Z.leb_le n 65535)) by lia. rok.
    rewrite iter_bb_add by done. rewrite Z2Nat.id by lia. rewrite <-Hbl. unfold st.
    cbn [if_bbs set_bbs]. f_equal. unfold set_current, alter_function, set_functions, set_values. simpl. f_equal. f_equal.
    - apply list_alter_ext; [|done]. intros x Hx. rewrite Hf0 in Hx. by injection Hx as <-.
    - by destruct bbs. }
  rok. apply (blocks_read (iu_values u0) next [] bbs recs); [done|simpl; rewrite Hids; apply NoDup_seqZ|done..].
Qed.
End written.

(** ** An example *)

(** [qsort] as a merge sort. *)
Definition key_le {A} (key : A → Z) (x y : A) : Prop := key x <= key y.
#[export] Instance key_le_dec {A} (key : A → Z) x y : Decision (key_le key x y) := Z.le_dec (key x) (key y).
Definition sort_by {A} (key : A → Z) : list A → list A := merge_sort (key_le key).

#[export] Instance key_le_trans {A} (key : A → Z) : Transitive (key_le key).
Proof. intros x y z. unfold key_le. lia. Qed.
#[export] Instance key_le_total {A} (key : A → Z) : Total (key_le key).
Proof. intros x y. unfold key_le. lia. Qed.

Lemma sort_by_ok {A} (key : A → Z) l :
  sort_by key l ≡ₚ l ∧ StronglySorted (λ x y, key x <= key y) (sort_by key l).
Proof.
  split; [apply merge_sort_Permutation|]. apply (StronglySorted_merge_sort (key_le key)).
Qed.

Lemma sort_ok : sorts_ok (sort_by phi_predecessor) (sort_by pa_v64).
Proof. split; intros l; apply sort_by_ok. Qed.

(** [int f(int x) { return x == 5 ? x + 5 : x; }] with a PHI and a switch-less
    branch: value 0 is [f], 1 the constant, 2 the argument. *)
Definition ex_types : list ir_type := [T_INT32; T_INT1; T_FUNCTION (mk_ftype [0] 0 0)].
Definition ex_values (v : Z) : ir_value :=
  if v =? 0 then mk_value IR_VC_FUNCTION 2 (U_func 0) D_none 0
  else if v =? 1 then mk_value IR_VC_CONSTANT 0 (U_word 5) D_none 0
  else if v =? 2 then mk_value IR_VC_REGFRAME 0 (U_word 4294967292) D_none 0
  else mk_value IR_VC_TEMPORARY (if v =? 3 then 1 else 0) (U_word 0) D_none (-1).
Definition ex_vt (v : Z) : ir_valuetype := mk_vt v (iv_type (ex_values v)).
Definition ex_ret (v : Z) : ir_ret := mk_ret (ex_vt v) [].
Definition ex_func : ir_function := mk_func 2 (Some [102]) false false 8 (-4) 0 0 None 0 [].
Definition ex_unit : ir_unit :=
  mk_unit (mk_vs [Some (ex_values 0); Some (ex_values 1); Some (ex_values 2)] 3 (mk_types ex_types true None))
    4096 0 None 0 [] [] [ex_func] [0%nat] [] 0 3 (Some 0%nat) None.
Definition ex_bbs : list ir_bb :=
  [mk_bb 0 [IR_IC_CMP2 32 (ex_vt 2) (ex_vt 1) (ex_ret 3); IR_IC_BR (ex_vt 3) 1 2];
   mk_bb 1 [IR_IC_BINOP 0 (ex_vt 2) (ex_vt 1) (ex_ret 4); IR_IC_BR (mk_vt (-1) 0) 2 0];
   mk_bb 2 [IR_IC_PHI [mk_phi 0 (ex_vt 2); mk_phi 1 (ex_vt 4)] (ex_ret 5); IR_IC_RET (ex_vt 5)]].
Definition ex_recs : list (Z * list ir_arg) :=
  default [] (enc_instrs (λ _ _, 0) (λ _, []) 3 (concat (map ib_instrs ex_bbs))).

Lemma ex_table : table ex_unit ex_values 10 (iu_values ex_unit) 3.
Proof.
  split; [done|done|simpl; lia| |].
  - intros k Hk. assert (k = 0 ∨ k = 1 ∨ k = 2) as [->|[->| ->]] by lia; reflexivity.
  - intros k v Hk. simpl in Hk. rewrite lookup_ge_None_2; [done|simpl; lia].
Qed.

Lemma ex_opnd v : 0 <= v < 10 → opnd ex_values 10 (ex_vt v).
Proof.
  intros Hv. unfold opnd, ex_vt, is_int. cbn [vt_value vt_type]. split; [simpl; lia|]. split; [done|].
  unfold ex_values. repeat case_match; simpl; lia.
Qed.

Lemma ex_result v : 3 <= v → result ex_values v (iv_type (ex_values v)) (ex_ret v).
Proof.
  intros Hv. unfold result, is_int. split; [done|]. unfold ex_values.
  destruct (Z.eqb_spec v 0); [lia|]. destruct (Z.eqb_spec v 1); [lia|]. destruct (Z.eqb_spec v 2); [lia|]. split; [simpl; case_match; lia|done].
Qed.

Lemma ex_rel v : 0 <= v < 10 → rel_opnd (ex_vt v) (iv_type (ex_values v)).
Proof. intros Hv. split; [simpl; lia|done]. Qed.

Lemma ex_wf : wf_instrs ex_unit ex_values 10 (λ _ _, 0) (λ _, []) 3 (concat (map ib_instrs ex_bbs)).
Proof.
  cbn [wf_instrs ex_bbs map concat ib_instrs app].
  assert (∀ z, 0 <= z < 100 → is_int z) as Hi by (unfold is_int; lia).
  repeat match goal with |- context[next_after ?a ?b] =>
    let v := eval vm_compute in (next_after a b) in change (next_after a b) with v end.
  split; [simpl; lia|split].
  { split; [by apply Hi|]. split; [by apply ex_opnd|]. split; [by apply ex_rel|]. exists 1. split; [done|by apply (ex_result 3)]. }
  split; [simpl; lia|split].
  { split; [by apply Hi|]. right. split; [by apply Hi|]. split; [simpl; lia|]. split; [done|by apply (ex_rel 3)]. }
  split; [simpl; lia|split].
  { split; [by apply Hi|]. split; [by apply ex_opnd|]. split; [by apply ex_rel|by apply (ex_result 4)]. }
  split; [simpl; lia|split].
  { split; [by apply Hi|by left]. }
  split; [simpl; lia|split].
  { split; [done|]. split; [by apply (ex_result 5)|]. split.
    - repeat constructor; simpl; try lia; by apply Hi.
    - repeat constructor; simpl; lia. }
  split; [simpl; lia|split; [|done]]. right. by apply ex_opnd.
Qed.

Lemma function_body_read_witness :
  ∃ vs', records (sort_by phi_predecessor) (sort_by pa_v64) ex_unit ((FUNC_CODE_DECLAREBLOCKS, [3]) :: ex_recs) =
           Ok (st ex_unit 0 3 vs' ex_bbs None) ∧ vs_next vs' = 6%nat.
Proof.
  destruct (function_body_read ex_unit 0 3 ex_values 10 eq_refl (λ _ _, 0) (sort_by phi_predecessor) (sort_by pa_v64)
    (λ _, []) sort_ok ltac:(vm_compute; reflexivity) ex_func eq_refl ex_bbs 3 ex_recs eq_refl eq_refl eq_refl eq_refl
    ltac:(lia) eq_refl ex_table) as (vs' & H1 & H2).
  - repeat apply Forall_cons_2; [| | |apply Forall_nil_2].
    + eexists [_], _. split_and!; [reflexivity|done|by constructor].
    + eexists [_], _. split_and!; [reflexivity|done|by constructor].
    + eexists [_], _. split_and!; [reflexivity|done|by constructor].
  - exact ex_wf.
  - vm_compute. reflexivity.
  - exists vs'. split; [exact H1|]. apply Nat2Z.inj. exact (ta_next _ _ _ _ _ H2).
Defined.
