(* ===== verification/FuncSsa.v ===== *)
(** What holds of every function that is parsed, whatever its records are:
    results are numbered once, and each is a temporary of its type. And inputs
    on which the parser of function blocks does not do what it means to. *)
From S2P Require Import Prelude Support Bitstream Types Values ConstExpr VmOps Instr Bitcode Unit FuncParse FuncWrite.
Local Open Scope Z_scope.

(** ** Typed functions *)

Definition results_of (i : ir_instr) : list ir_valuetype :=
  let d := ii_ret (instr_ret i) in if vt_value d =? -1 then [] else [d].
Definition results (bbs : list ir_bb) : list ir_valuetype :=
  concat (map (λ bb, concat (map results_of (ib_instrs bb))) bbs).

(** A temporary of the type the instruction says. *)
Definition typed (vs : value_state) (r : ir_valuetype) : Prop :=
  0 <= vt_value r < Z.of_nat (vs_next vs) ∧
  ∃ iv, vs_values vs !! Z.to_nat (vt_value r) = Some (Some iv) ∧
    iv_class iv = IR_VC_TEMPORARY ∧ iv_type iv = vt_type r.

Record ssa (vs : value_state) (bbs : list ir_bb) : Prop := {
  ssa_ids : NoDup (map ib_id bbs);
  ssa_once : NoDup (map vt_value (results bbs));
  ssa_typed : Forall (typed vs) (results bbs);
}.

(** The blocks of the current function. *)
Definition current_bbs (u : ir_unit) : list ir_bb :=
  from_option if_bbs [] (iu_current_function u ≫= λ g, iu_functions u !! g).
Definition unit_ssa (u : ir_unit) : Prop := ssa (iu_values u) (current_bbs u).

(** ** Steps that add no instruction *)

(** The temporaries below [vs_next] stay. *)
Definition grows (vs vs' : value_state) : Prop :=
  (vs_next vs <= vs_next vs')%nat ∧
  ∀ k iv, (k < vs_next vs)%nat → iv_class iv = IR_VC_TEMPORARY →
    vs_values vs !! k = Some (Some iv) → vs_values vs' !! k = Some (Some iv).

#[export] Instance grows_preorder : PreOrder grows.
Proof.
  split; [done|]. intros a b c [H1 H2] [H3 H4]. split; [lia|].
  intros k iv Hk Hc Hi. apply H4; [lia|done|]. by apply H2.
Qed.

Lemma typed_grows vs vs' r : grows vs vs' → typed vs r → typed vs' r.
Proof. intros [H1 H2] [H3 (iv & H4 & H5 & H6)]. split; [lia|]. exists iv. split; [|done]. apply H2; [lia|done..]. Qed.

Lemma ssa_grows vs vs' bbs : grows vs vs' → ssa vs bbs → ssa vs' bbs.
Proof.
  intros Hg [H1 H2 H3]. split; [done|done|]. eapply Forall_impl; [|exact H3]. intros r. by apply typed_grows.
Qed.

(** [u'] is [u] with other values from [vs_next] on. *)
Definition keeps (u u' : ir_unit) : Prop :=
  ∃ vs, u' = set_values u vs ∧ vs_next vs = vs_next (iu_values u) ∧ grows (iu_values u) vs.

#[export] Instance keeps_preorder : PreOrder keeps.
Proof.
  split; [intros u; by exists (iu_values u); destruct u|].
  intros a b c (v & -> & H1 & H2) (w & -> & H3 & H4). exists w. split_and!; [done|simpl in *; congruence|].
  by etrans.
Qed.

Lemma keeps_ssa u u' : keeps u u' → unit_ssa u → unit_ssa u'.
Proof. intros (vs & -> & _ & H). apply (ssa_grows _ _ _ H). Qed.

Lemma keeps_next u u' : keeps u u' → vs_next (iu_values u') = vs_next (iu_values u).
Proof. by intros (vs & -> & H & _). Qed.

Lemma forward_grows vs val t : (vs_next vs <= val)%nat → (vs_next vs <= length (vs_values vs))%nat →
  grows vs (forward_value vs val t).
Proof.
  intros Hv Hn. unfold forward_value, upd_values. split; simpl; [done|]. intros k iv Hk _ Hi.
  rewrite list_lookup_alter_ne by lia. by rewrite lookup_app_l by lia.
Qed.

(** The table holds at least the values that are numbered. *)
Definition enough (u : ir_unit) : Prop :=
  (vs_next (iu_values u) <= length (vs_values (iu_values u)))%nat ∧ Z.of_nat (vs_next (iu_values u)) < 2 ^ 32.

Lemma get_vtp_keeps u argv v argv' u' :
  instr_get_vtp u argv = Ok (v, argv', u') → enough u → keeps u u' ∧ enough u'.
Proof.
  unfold instr_get_vtp. intros H [Hn Hs]. destruct argv as [|a argv]; [done|].
  destruct (Z.ltb_spec (u32 (Z.of_nat (vs_next (iu_values u)) - a)) (Z.of_nat (vs_next (iu_values u)))) as [Hlt|Hge].
  - inv_res. simplify_eq. by split.
  - destruct argv as [|t argv]; [done|]. simplify_eq. split.
    + eexists. split_and!; [done|done|]. by apply forward_grows; [lia|].
    + split; simpl; [|done]. rewrite length_alter, length_app. lia.
Qed.

Lemma get_vtps_keeps fuel u argv vals u' :
  get_vtps fuel u argv = Ok (vals, u') → enough u → keeps u u' ∧ enough u'.
Proof.
  revert u argv vals; induction fuel as [|fuel IH]; intros u argv vals H He.
  - destruct argv; [|done]. simpl in H. by simplify_eq.
  - cbn [get_vtps] in H. destruct argv; [by simplify_eq|]. inv_all. simplify_eq.
    apply get_vtp_keeps in Hm as [H1 H2]; [|done]. apply IH in Hm0 as [H3 H4]; [|done]. split; [by etrans|done].
Qed.

Lemma call_args_keeps fuel u params argv vals u' :
  call_args fuel u params argv = Ok (vals, u') → enough u → keeps u u' ∧ enough u'.
Proof.
  revert u params argv vals; induction fuel as [|fuel IH]; intros u params argv vals H He.
  - destruct argv; [|done]. simpl in H. by simplify_eq.
  - cbn [call_args] in H. destruct argv; [by simplify_eq|]. destruct params; inv_all; simplify_eq.
    + apply get_vtp_keeps in Hm as [H1 H2]; [|done]. apply IH in Hm0 as [H3 H4]; [|done]. split; [by etrans|done].
    + by eapply IH.
Qed.

(** Another type table. *)
Lemma types_keep u ts :
  let vs := iu_values u in
  enough u → keeps u (set_values u (mk_vs (vs_values vs) (vs_next vs) ts)) ∧
  enough (set_values u (mk_vs (vs_values vs) (vs_next vs) ts)).
Proof. intros vs He. split; [|done]. eexists. split_and!; [done|done|]. by split. Qed.

Lemma make_pointer_keeps u t p u' : make_pointer u t = (p, u') → enough u → keeps u u' ∧ enough u'.
Proof.
  unfold make_pointer. destruct (type_make_pointer _ _ _) as [q ts]. intros [= <- <-]. apply types_keep.
Qed.

(** ** Steps that add one *)

Lemma current_bbs_alter u g h :
  iu_current_function u = Some g → h [] = [] →
  current_bbs (alter_function u g (λ f, set_bbs f (if_num_bbs f) (h (if_bbs f)))) = h (current_bbs u).
Proof.
  intros Hg Hh. unfold current_bbs. simpl. rewrite Hg. simpl. rewrite list_lookup_alter_eq.
  by destruct (iu_functions u !! g).
Qed.

Lemma push_results i bb bbs :
  NoDup (map ib_id bbs) →
  results (map (push_instr i bb) bbs) ≡ₚ results_of i ++ results bbs ∨ results (map (push_instr i bb) bbs) = results bbs.
Proof.
  unfold results. induction bbs as [|b bbs IH]; intros Hnd; [by right|]. cbn [map] in Hnd.
  apply list.NoDup_cons in Hnd as [Hb Hnd]. cbn [map concat]. unfold push_instr at 1 3.
  destruct (Z.eqb_spec (ib_id b) bb) as [E|E].
  - left. cbn [ib_instrs]. rewrite map_app, concat_app. cbn [map concat]. rewrite app_nil_r.
    assert (map (push_instr i bb) bbs = bbs) as ->.
    { clear -Hb E. induction bbs as [|c bbs IH]; [done|]. cbn [map] in *.
      rewrite IH by (intros H; apply Hb; by right). f_equal. unfold push_instr.
      destruct (Z.eqb_spec (ib_id c) bb) as [E'|]; [|done]. destruct Hb. rewrite E, <-E'. by left. }
    rewrite (Permutation_app_comm _ (results_of i)). by rewrite <-app_assoc.
  - destruct (IH Hnd) as [H|H]; [left|right].
    + rewrite H. rewrite !(Permutation_app_comm (concat (map results_of (ib_instrs b)))). by rewrite app_assoc.
    + by rewrite H.
Qed.

Lemma push_ids i bb bbs : map ib_id (map (push_instr i bb) bbs) = map ib_id bbs.
Proof.
  rewrite map_map. apply map_ext. intros b. unfold push_instr. by destruct (Z.eqb_spec (ib_id b) bb).
Qed.

(** The instruction has no result, or a new one. *)
Lemma ssa_push vs vs' bbs i bb :
  ssa vs bbs → grows vs vs' →
  (results_of i = [] ∨ ∃ r, results_of i = [r] ∧ vt_value r = Z.of_nat (vs_next vs) ∧ typed vs' r) →
  ssa vs' (map (push_instr i bb) bbs).
Proof.
  intros Hs Hg Hi. pose proof (ssa_grows _ _ _ Hg Hs) as [H1 H2 H3].
  split; [by rewrite push_ids| |]; destruct (push_results i bb bbs H1) as [Hp|Hp]; try (by rewrite Hp).
  - rewrite (fmap_Permutation vt_value _ _ Hp) || rewrite (Permutation_map vt_value Hp).
    destruct Hi as [->|(r & -> & Hr & _)]; [done|]. simpl. apply list.NoDup_cons. split; [|done].
    intros Hin. apply list_elem_of_In, in_map_iff in Hin as (r' & E & Hin). apply list_elem_of_In in Hin.
    destruct Hs as [_ _ Hs3]. rewrite list.Forall_forall in Hs3. destruct (Hs3 _ Hin) as [Hlt _]. lia.
  - rewrite Hp. destruct Hi as [->|(r & -> & _ & Ht)]; [done|]. by apply Forall_cons_2.
Qed.

(** What a record makes of a unit: [n] is the number of the next value before. *)
Record fine (n : nat) (u : ir_unit) : Prop := {
  fi_ssa : unit_ssa u;
  fi_length : (vs_next (iu_values u) <= length (vs_values (iu_values u)))%nat;
  fi_next : (n <= vs_next (iu_values u) <= S n)%nat;
}.

Lemma add_instr_fine u bb i u' :
  add_instr u bb i = Ok u' → results_of i = [] → unit_ssa u → enough u → fine (vs_next (iu_values u)) u'.
Proof.
  intros H Hi Hs He. unfold add_instr in H. inv_res. split; [|apply He|simpl; lia]. unfold unit_ssa in *.
  rewrite (current_bbs_alter u a (map (push_instr i bb)) Hm eq_refl). simpl. by eapply ssa_push; [exact Hs|done|left].
Qed.

Lemma appended_grows vs n iv vs' : appended vs n iv vs' → grows vs vs'.
Proof.
  intros [H1 H2 H3 H4 H5 H6]. split; [lia|]. intros k iv' Hk _ Hi. rewrite H5; [done|lia].
Qed.

Lemma add_result_fine u bb t i u' :
  add_result u bb t i = Ok u' → (∀ d, instr_ret (i d) = d) → unit_ssa u → enough u → fine (vs_next (iu_values u)) u'.
Proof.
  intros H Hi Hs [Hn Hlt]. unfold add_result, value_alloc_instr_ret, value_alloc_temporary in H. inv_all. simplify_eq.
  apply value_new_spec in Hm0; [|done]. pose proof (ap_n _ _ _ _ Hm0) as ->.
  set (r := mk_vt (Z.of_nat (vs_next (iu_values u))) t) in *.
  assert (results_of (i (mk_ret r [])) = [r]) as Hr.
  { unfold results_of. rewrite Hi. cbn [ii_ret].
    destruct (Z.eqb_spec (vt_value r) (-1)) as [E|]; [subst r; simpl in E; lia|reflexivity]. }
  assert (typed v r) as Ht.
  { split; [simpl; rewrite (ap_next _ _ _ _ Hm0); lia|]. eexists.
    split; [simpl; rewrite Nat2Z.id; apply (ap_here _ _ _ _ Hm0)|split; reflexivity]. }
  unfold add_instr in H. inv_res. pose proof (ap_next _ _ _ _ Hm0) as Hx. pose proof (ap_length _ _ _ _ Hm0) as Hy.
  split; [|simpl; lia..]. unfold unit_ssa in *.
  rewrite (current_bbs_alter (set_values u v) a (map (push_instr (i (mk_ret r [])) bb)) Hm eq_refl). simpl.
  eapply ssa_push; [exact Hs|by eapply appended_grows|right; by exists r].
Qed.

(** Goes through the operands of a parser. *)
Ltac operands :=
  repeat match goal with
  | H : instr_get_vtp ?u _ = Ok (_, _, ?v), He : enough ?u, Hs : unit_ssa ?u |- _ =>
      let Hk := fresh "Hk" in
      apply get_vtp_keeps in H as [Hk ?]; [|exact He]; apply (keeps_ssa _ _ Hk) in Hs; try rewrite <-(keeps_next _ _ Hk); clear He Hk
  | H : get_vtps _ ?u _ = Ok (_, ?v), He : enough ?u, Hs : unit_ssa ?u |- _ =>
      let Hk := fresh "Hk" in
      apply get_vtps_keeps in H as [Hk ?]; [|exact He]; apply (keeps_ssa _ _ Hk) in Hs; try rewrite <-(keeps_next _ _ Hk); clear He Hk
  | H : call_args _ ?u _ _ = Ok (_, ?v), He : enough ?u, Hs : unit_ssa ?u |- _ =>
      let Hk := fresh "Hk" in
      apply call_args_keeps in H as [Hk ?]; [|exact He]; apply (keeps_ssa _ _ Hk) in Hs; try rewrite <-(keeps_next _ _ Hk); clear He Hk
  | H : make_pointer ?u _ = (_, ?v), He : enough ?u, Hs : unit_ssa ?u |- _ =>
      let Hk := fresh "Hk" in
      apply make_pointer_keeps in H as [Hk ?]; [|exact He]; apply (keeps_ssa _ _ Hk) in Hs; try rewrite <-(keeps_next _ _ Hk); clear He Hk
  end.
Ltac add_step :=
  first [ eapply add_result_fine; [eassumption|done|eassumption|eassumption]
        | eapply add_instr_fine; [eassumption|done|eassumption|eassumption] ].
Ltac parser f := intros H Hs He; unfold f in H; inv_all; operands; add_step.

Lemma parse_ret_fine u argv u' : parse_ret u argv = Ok u' → unit_ssa u → enough u → fine (vs_next (iu_values u)) u'.
Proof. intros H Hs He. unfold parse_ret in H. destruct argv; inv_all; operands; add_step. Qed.
Lemma parse_unreachable_fine u u' : parse_unreachable u = Ok u' → unit_ssa u → enough u → fine (vs_next (iu_values u)) u'.
Proof. parser parse_unreachable. Qed.
Lemma parse_binop_fine u argv u' : parse_binop u argv = Ok u' → unit_ssa u → enough u → fine (vs_next (iu_values u)) u'.
Proof. parser parse_binop. Qed.
Lemma parse_cast_fine u argv u' : parse_cast u argv = Ok u' → unit_ssa u → enough u → fine (vs_next (iu_values u)) u'.
Proof. parser parse_cast. Qed.
Lemma parse_load_fine u argv u' : parse_load u argv = Ok u' → unit_ssa u → enough u → fine (vs_next (iu_values u)) u'.
Proof. parser parse_load. Qed.
Lemma parse_store_fine u argv old u' : parse_store u argv old = Ok u' → unit_ssa u → enough u → fine (vs_next (iu_values u)) u'.
Proof. intros H Hs He. unfold parse_store in H. destruct old; inv_all; operands; inv_all; simplify_eq; operands; add_step. Qed.
Lemma parse_insertval_fine u argv u' : parse_insertval u argv = Ok u' → unit_ssa u → enough u → fine (vs_next (iu_values u)) u'.
Proof. parser parse_insertval. Qed.
Lemma parse_gep_fine u argv op u' : parse_gep u argv op = Ok u' → unit_ssa u → enough u → fine (vs_next (iu_values u)) u'.
Proof.
  intros H Hs He. unfold parse_gep in H. inv_all. destruct (make_pointer _ _) as [ret u1] eqn:Hp. operands. add_step.
Qed.
Lemma parse_cmp2_fine u argv u' : parse_cmp2 u argv = Ok u' → unit_ssa u → enough u → fine (vs_next (iu_values u)) u'.
Proof. parser parse_cmp2. Qed.

Section sorts.
Context (qsort_nodes : list ir_phi_node → list ir_phi_node).
Context (qsort_paths : list ir_path → list ir_path).

Lemma parse_br_fine u argv u' : parse_br u argv = Ok u' → unit_ssa u → enough u → fine (vs_next (iu_values u)) u'.
Proof.
  intros H Hs He. unfold parse_br in H. inv_res. destruct a0 as [t rest]. destruct rest; inv_all; [add_step|].
  match goal with ts : type_state |- _ => destruct (types_keep u ts He) as [Hk He'] end. apply (keeps_ssa _ _ Hk) in Hs. rewrite <-(keeps_next _ _ Hk). add_step.
Qed.
Lemma parse_phi_fine u argv u' : parse_phi qsort_nodes u argv = Ok u' → unit_ssa u → enough u → fine (vs_next (iu_values u)) u'.
Proof. intros H Hs He. unfold parse_phi in H. inv_all. destruct (qsort_nodes _); inv_all; add_step. Qed.
Lemma parse_switch_fine u argv u' : parse_switch qsort_paths u argv = Ok u' → unit_ssa u → enough u → fine (vs_next (iu_values u)) u'.
Proof. parser parse_switch. Qed.
Lemma parse_call_fine u argv invoke u' :
  parse_call_or_invoke u argv invoke = Ok u' → unit_ssa u → enough u → fine (vs_next (iu_values u)) u'.
Proof.
  intros H Hs He. unfold parse_call_or_invoke in H. inv_res.
  repeat match goal with p : (_ * _)%type |- _ => destruct p end. inv_all. operands.
  match goal with H : match ?o with Some _ => _ | None => _ end = _ |- _ => destruct o as [[]|] end; inv_all; operands;
    [|simplify_eq; match goal with H : enough _ |- _ => by split; [|apply H|lia] end].
  match goal with H : match ?t with T_VOID => _ | _ => _ end = _ |- _ => destruct t end; destruct invoke; add_step.
Qed.
Lemma parse_landingpad_fine u argv old u' :
  parse_landingpad u argv old = Ok u' → unit_ssa u → enough u → fine (vs_next (iu_values u)) u'.
Proof. intros H Hs He. unfold parse_landingpad in H. destruct old; inv_all; simplify_eq; operands; add_step. Qed.
Lemma parse_resume_fine u argv u' : parse_resume u argv = Ok u' → unit_ssa u → enough u → fine (vs_next (iu_values u)) u'.
Proof. parser parse_resume. Qed.
Lemma parse_alloca_fine u argv u' : parse_alloca u argv = Ok u' → unit_ssa u → enough u → fine (vs_next (iu_values u)) u'.
Proof.
  intros H Hs He. unfold parse_alloca in H. destruct argv as [|a0 [|a1 [|a2 [|fl []]]]]; try done. inv_all.
  match goal with H : (if ?b then _ else _) = _ |- _ => destruct b end; inv_all; [|simplify_eq; add_step].
  destruct (make_pointer _ _) eqn:E. simplify_eq. operands. add_step.
Qed.
Lemma parse_vselect_fine u argv u' : parse_vselect u argv = Ok u' → unit_ssa u → enough u → fine (vs_next (iu_values u)) u'.
Proof. parser parse_vselect. Qed.
Lemma parse_vaarg_fine u argv u' : parse_vaarg u argv = Ok u' → unit_ssa u → enough u → fine (vs_next (iu_values u)) u'.
Proof. parser parse_vaarg. Qed.
Lemma parse_extractval_fine u argv u' : parse_extractval u argv = Ok u' → unit_ssa u → enough u → fine (vs_next (iu_values u)) u'.
Proof. parser parse_extractval. Qed.

Lemma next_bb_fine n u u' : next_bb u = Ok u' → fine n u → fine n u'.
Proof. intros H []. unfold next_bb in H. inv_all. by split. Qed.

Lemma iter_bb_add_ids k f :
  if_bbs f = [] →
  if_num_bbs (Nat.iter k bb_add f) = if_num_bbs f + Z.of_nat k ∧
  if_bbs (Nat.iter k bb_add f) = map (λ i, mk_bb i []) (seqZ (if_num_bbs f) (Z.of_nat k)).
Proof.
  intros Hf. induction k as [|k [IH1 IH2]]; [split; [simpl; lia|done]|].
  rewrite Nat.iter_succ. destruct (Nat.iter k bb_add f); simpl in *. split; [lia|].
  by rewrite IH1, IH2, seqZ_S, map_app.
Qed.

Lemma blank_ssa vs l : NoDup l → ssa vs (map (λ i, mk_bb i []) l).
Proof.
  intros Hl. assert (results (map (λ i, mk_bb i []) l) = []) as Hr.
  { unfold results. rewrite map_map. simpl. by induction l as [|a l IH]; [|apply list.NoDup_cons in Hl as [_ Hl]; apply IH]. }
  split; rewrite ?Hr; [|constructor..]. by rewrite map_map, map_id.
Qed.

Lemma declare_blocks_fine u argv u' :
  declare_blocks u argv = Ok u' → enough u → fine (vs_next (iu_values u)) u'.
Proof.
  intros H [He _]. unfold declare_blocks in H. inv_all. split; simpl; [|done|lia]. unfold unit_ssa, current_bbs. simpl.
  rewrite Hm. simpl. rewrite list_lookup_alter_eq, Hm0. simpl.
  rewrite (proj2 (iter_bb_add_ids _ _ (bool_decide_eq_true_1 _ Hm1))). apply blank_ssa, NoDup_seqZ.
Qed.

Lemma function_rec_handler_fine u op argv u' :
  function_rec_handler qsort_nodes qsort_paths u op argv = Ok u' → unit_ssa u → enough u →
  fine (vs_next (iu_values u)) u'.
Proof.
  intros H Hs He. unfold function_rec_handler in H.
  repeat match type of H with (if ?b then _ else _) = _ => destruct b end; inv_res;
    eauto 4 using next_bb_fine, declare_blocks_fine, parse_ret_fine, parse_binop_fine, parse_cast_fine, parse_load_fine,
      parse_store_fine, parse_gep_fine, parse_cmp2_fine, parse_br_fine, parse_phi_fine, parse_call_fine,
      parse_switch_fine, parse_alloca_fine, parse_unreachable_fine, parse_vselect_fine, parse_vaarg_fine,
      parse_extractval_fine, parse_landingpad_fine, parse_insertval_fine, parse_resume_fine.
Qed.

(** The other blocks inside a function. *)
Lemma constants_fine u op argv u' :
  constants_rec_handler u op argv = Ok u' → unit_ssa u → enough u → fine (vs_next (iu_values u)) u'.
Proof.
  intros H Hs [Hn Hlt]. unfold constants_rec_handler in H. destruct (op =? CST_CODE_SETTYPE); inv_all.
  { split; simpl; [done|done|lia]. }
  match goal with H : value_append _ = _ |- _ => apply value_append_spec in H as Ha end.
  pose proof (ap_n _ _ _ _ Ha) as ->.
  assert (appended (iu_values u) (vs_next (iu_values u)) a0 (value_set (value_set v (Z.of_nat (vs_next (iu_values u)))
    (set_type a (iu_current_type u))) (Z.of_nat (vs_next (iu_values u))) a0)) as Ha'.
  { by repeat (eapply appended_set; [|lia]). }
  pose proof (ap_next _ _ _ _ Ha'). pose proof (ap_length _ _ _ _ Ha').
  split; simpl in *; [|lia..]. eapply ssa_grows; [by eapply appended_grows|exact Hs].
Qed.

Lemma name_function_bbs resolver f str : if_bbs (name_function resolver f str) = if_bbs f.
Proof.
  unfold name_function, vmop_resolve. destruct (if_ext_func (set_name f str)); [done|].
  by destruct (list_find _ _) as [[]|].
Qed.

Lemma set_value_name_fine resolver u vid str u' :
  set_value_name resolver u vid str = Ok u' → unit_ssa u → enough u → fine (vs_next (iu_values u)) u'.
Proof.
  intros H Hs [Hn Hlt]. unfold set_value_name in H. inv_all.
  assert (fine (vs_next (iu_values u)) u) as Hu by (split; [done|done|lia]).
  destruct (iv_class a) eqn:Ec; inv_all; try done; destruct (iv_u a) eqn:Eu; inv_all; try done;
    (split; simpl; [|rewrite ?length_insert; lia..]).
  - unfold unit_ssa in *. simpl.
    assert (∀ (fs : list ir_function) (i k : nat), from_option if_bbs [] (alter (λ f, name_function resolver f (c_str str)) k fs !! i)
      = from_option if_bbs [] (fs !! i)) as Hx.
    { intros fs i k. destruct (decide (i = k)) as [->|].
      - rewrite list_lookup_alter_eq. destruct (fs !! k); [|done]. simpl. apply name_function_bbs.
      - by rewrite list_lookup_alter_ne by done. }
    unfold current_bbs in *. simpl in *. destruct (iu_current_function u); simpl in *; [|done]. by rewrite Hx.
  - eapply ssa_grows; [|exact Hs]. apply value_get_lookup in Hm. split; simpl; [done|]. intros k iv Hk Hc Hi.
    rewrite list_lookup_insert_ne; [done|]. intros <-. rewrite Hm in Hi. injection Hi as <-. by rewrite Ec in Hc.
Qed.

Lemma value_symtab_fine resolver u op argv u' :
  value_symtab_rec_handler resolver u op argv = Ok u' → unit_ssa u → enough u → fine (vs_next (iu_values u)) u'.
Proof.
  intros H Hs He. unfold value_symtab_rec_handler in H.
  repeat match type of H with (if ?b then _ else _) = _ => destruct b end; inv_all; eauto using set_value_name_fine.
  split; [done|apply He|lia].
Qed.

Lemma eval_constexprs_le vs vs' :
  Z.of_nat (vs_next vs) < 2 ^ 32 → eval_constexprs vs = Ok vs' → vs_le vs vs'.
Proof.
  intros Hn H. unfold eval_constexprs in H.
  eapply (foldR_ind (λ _ v, vs_le vs v)); [|done|exact H].
  intros n a v1 v2 Ha Hle Hone. apply lookup_seq in Ha as [-> Hlt]. rewrite Nat.add_0_l in Hone.
  unfold eval_one in Hone. inv_all. subst. destruct (is_ce a0) eqn:Hc; [|by inv_res].
  destruct (iv_u a0); try done. etrans; [exact Hle|]. eapply eval_constexpr_evaluates; [|exact Hc|exact Hone].
  apply value_get_lookup. rewrite wrap_small by lia. by rewrite Nat2Z.id.
Qed.

Lemma vs_le_grows vs vs' : vs_le vs vs' → grows vs vs'.
Proof.
  intros (H1 & H2 & _). split; [lia|]. intros k iv Hk Hc Hi.
  destruct (Forall2_lookup_l _ _ _ _ _ H2 Hi) as (w & Hw & Hle). simpl in Hle.
  unfold is_ce in Hle. rewrite Hc in Hle. simpl in Hle. by rewrite Hw, Hle.
Qed.

(** ** What happens while the body of a function is read *)

(** A record of the function's block or of a block in it, or the end of a block
    in it. *)
Inductive body_event :=
  | rec_event (blockid op : Z) (argv : list ir_arg)
  | end_event (blockid : Z).

Section steps.
Context (resolver : list Z → option Z).

Definition body_step (u : ir_unit) (e : body_event) : res ir_unit :=
  match e with
  | rec_event blockid op argv =>
      unit_rec_handler resolver (function_rec_handler qsort_nodes qsort_paths) blockid u op argv
  | end_event blockid => end_block (λ _, Fail Undef) blockid 0 u
  end.
Definition in_body (e : body_event) : Prop :=
  match e with rec_event b _ _ | end_event b => b ∈ [BITCODE_FUNCTION; BITCODE_CONSTANTS; BITCODE_VALUE_SYMTAB] end.

Lemma body_step_fine u e u' :
  body_step u e = Ok u' → in_body e → unit_ssa u → enough u → fine (vs_next (iu_values u)) u'.
Proof.
  intros H Hb Hs He. destruct e as [b op argv|b]; simpl in *;
    rewrite !elem_of_cons, elem_of_nil in Hb; destruct Hb as [->|[->|[->|[]]]].
  - eapply function_rec_handler_fine; [exact H|done..].
  - eapply constants_fine; [exact H|done..].
  - eapply value_symtab_fine; [exact H|done..].
  - discriminate H.
  - unfold end_block in H. simpl in H. inv_res. apply eval_constexprs_le in Hm; [|apply He].
    pose proof (vs_le_grows _ _ Hm) as Hg. destruct Hm as (Hn & Hf & _).
    apply list.Forall2_length in Hf. destruct He. split; simpl; [by eapply ssa_grows|lia..].
  - unfold end_block in H. simpl in H. inv_res. split; [done|apply He|lia].
Qed.

(** C8: whatever records the body of a function has, with the constants and the
    names between them, every result of an instruction has a number of its own,
    and the value of this number is a temporary of the type the instruction
    says: what is parsed is in single-assignment form and typed. *)
Theorem function_body_typed u events u' :
  Forall in_body events → current_bbs u = [] →
  (vs_next (iu_values u) <= length (vs_values (iu_values u)))%nat →
  Z.of_nat (vs_next (iu_values u)) + Z.of_nat (length events) < 2 ^ 32 →
  foldR body_step u events = Ok u' →
  NoDup (map vt_value (results (current_bbs u'))) ∧
  Forall (typed (iu_values u')) (results (current_bbs u')).
Proof.
  intros Hin Hb Hn Hlt H. assert (unit_ssa u) as Hs by (unfold unit_ssa; rewrite Hb; by split; constructor).
  cut (unit_ssa u'); [by intros []|]. clear Hb. revert u Hs Hn Hlt H.
  induction Hin as [|e events He Hin IH]; intros u Hs Hn Hlt H; simpl in H; [by injection H as <-|].
  inv_res. simpl in Hlt. apply body_step_fine in Hm as [H1 H2 H3]; [|done|done|split; lia].
  eapply IH; [done|done|lia|exact H].
Qed.
End steps.
End sorts.

Definition example_body (u : ir_unit) (l : list body_event) : res ir_unit :=
  foldR (body_step (sort_by phi_predecessor) (sort_by pa_v64) (λ _, None)) u l.

(** [int f(int x) { int a = x + 2; return a + a; }], and the name of [a]. *)
Definition example_events : list body_event :=
  [rec_event BITCODE_FUNCTION FUNC_CODE_DECLAREBLOCKS [1];
   rec_event BITCODE_CONSTANTS CST_CODE_SETTYPE [0]; rec_event BITCODE_CONSTANTS CST_CODE_INTEGER [4];
   end_event BITCODE_CONSTANTS;
   rec_event BITCODE_FUNCTION FUNC_CODE_INST_BINOP [2; 1; 0];
   rec_event BITCODE_FUNCTION FUNC_CODE_INST_BINOP [1; 1; 0];
   rec_event BITCODE_FUNCTION FUNC_CODE_INST_RET [1];
   rec_event BITCODE_VALUE_SYMTAB 1 [4; 97]; end_event BITCODE_VALUE_SYMTAB].
Definition example_parsed : ir_unit := match example_body ex_unit example_events with Ok u => u | Fail _ => ex_unit end.

Lemma function_body_typed_witness :
  map vt_value (results (current_bbs example_parsed)) = [4; 5] ∧
  Forall (typed (iu_values example_parsed)) (results (current_bbs example_parsed)).
Proof.
  destruct (function_body_typed (sort_by phi_predecessor) (sort_by pa_v64) (λ _, None) ex_unit example_events example_parsed)
    as [_ H]; [|reflexivity|simpl; lia|simpl; lia|vm_compute; reflexivity|split; [vm_compute; reflexivity|exact H]].
  repeat apply Forall_cons_2; [simpl; set_solver..|apply Forall_nil_2].
Defined.

(** ** Aliases *)

(** [n] aliases lead from [v] to the result. *)
Inductive leads (vs : value_state) : nat → Z → Z * ir_value → Prop :=
  | leads_end v fn :
      value_get vs v = Ok fn → iv_class fn ≠ IR_VC_ALIAS → leads vs 0 v (v, fn)
  | leads_alias n v fn r w :
      value_get vs v = Ok fn → iv_class fn = IR_VC_ALIAS → iv_reg fn = Ok r → leads vs n r w →
      leads vs (S n) v w.

Lemma resolve_alias_leads fuel vs v w :
  resolve_alias fuel vs v = Ok w ↔ ∃ n, (n < fuel)%nat ∧ leads vs n v w.
Proof.
  revert v; induction fuel as [|fuel IH]; intros v; [split; [done|intros (n & Hn & _); lia]|].
  cbn [resolve_alias]. split.
  - intros H. inv_res. case_bool_decide as Hc; inv_res.
    + apply IH in H as (n & Hn & Hl). exists (S n). split; [lia|]. by eapply leads_alias.
    + exists 0%nat. split; [lia|]. by constructor.
  - intros (n & Hn & Hl). inversion Hl as [? fn Hg Hc|m ? fn r ? Hg Hc Hr Hl']; subst; rewrite Hg; rok.
    + by rewrite bool_decide_false by done.
    + rewrite bool_decide_true, Hr by done. rok. apply IH. exists m. split; [lia|done].
Qed.

Lemma leads_det vs n m v v' w w' : leads vs n v w → leads vs m v' w' → u32 v = u32 v' → n = m.
Proof.
  intros H. revert m v' w'. induction H as [v fn Hg Hc|n v fn r w Hg Hc Hr Hl IH]; intros m v' w' H' E;
    inversion H' as [? fn' Hg' Hc'|m' ? fn' r' ? Hg' Hc' Hr' Hl']; subst; try done;
    apply value_get_lookup in Hg, Hg'; rewrite E in Hg; rewrite Hg in Hg'; injection Hg' as ->; try done.
  f_equal. rewrite Hr in Hr'. injection Hr' as <-. by eapply IH.
Qed.

Lemma leads_trail vs n v w :
  leads vs n v w → ∃ l, length l = S n ∧ NoDup l ∧
    Forall (λ x, x < length (vs_values vs) ∧ ∃ m v' w', m <= n ∧ leads vs m v' w' ∧ x = Z.to_nat (u32 v'))%nat l.
Proof.
  assert (∀ i fn, value_get vs i = Ok fn → Z.to_nat (u32 i) < length (vs_values vs))%nat as Hlt
    by (intros i fn Hg; apply value_get_lookup in Hg; by eapply lookup_lt_Some).
  induction 1 as [v fn Hg Hc|n v fn r w Hg Hc Hr Hl IH].
  - exists [Z.to_nat (u32 v)]. split; [done|]. split; [apply NoDup_singleton|]. constructor; [|constructor].
    split; [by eapply Hlt|]. exists 0%nat, v, (v, fn). split; [done|]. split; [by constructor|done].
  - destruct IH as (l & Hlen & Hnd & Hall).
    assert (leads vs (S n) v w) as Hv by by eapply leads_alias.
    exists (Z.to_nat (u32 v) :: l). split; [simpl; lia|]. split.
    + apply list.NoDup_cons. split; [|done]. intros Hin. rewrite list.Forall_forall in Hall.
      apply Hall in Hin as (_ & m & v' & w' & Hm & Hl' & E). pose proof (wrap_range 32 ltac:(lia) v).
      pose proof (wrap_range 32 ltac:(lia) v'). assert (S n = m) by (apply (leads_det _ _ _ _ _ _ _ Hv Hl'); apply Z2Nat.inj; [lia|lia|exact E]). lia.
    + constructor; [split; [by eapply Hlt|by exists (S n), v, w]|].
      eapply list.Forall_impl; [exact Hall|]. intros x (H1 & m & v' & w' & H2 & H3). split; [done|]. exists m, v', w'. split; [lia|done].
Qed.

(** The bound of [parse_call_or_invoke] is enough: a search for the function
    that ends at all ends within it. *)
Lemma alias_fuel_enough fuel vs v w :
  resolve_alias fuel vs v = Ok w → resolve_alias (alias_fuel vs) vs v = Ok w.
Proof.
  intros H. apply resolve_alias_leads in H as (n & _ & Hl). apply resolve_alias_leads. exists n. split; [|done].
  apply leads_trail in Hl as (l & Hlen & Hnd & Hall). unfold alias_fuel.
  assert (length l <= length (seq 0 (length (vs_values vs))))%nat as Hle; [|rewrite length_seq in Hle; lia].
  apply submseteq_length, NoDup_submseteq; [done|]. intros x Hx. rewrite list.Forall_forall in Hall.
  apply elem_of_seq. apply Hall in Hx as [Hx _]. lia.
Qed.

(** ** Where the parser does not do what it means to *)

(** Value 1 is an argument of 64 bits. *)
Definition wide_unit : ir_unit :=
  set_values ex_unit (mk_vs [Some (ex_values 0); Some (mk_value IR_VC_REGFRAME 0 (U_word 0) D_none 0)] 2
                        (mk_types [T_INT64; T_INT1; T_FUNCTION (mk_ftype [0] 0 0)] true None)).


(** C39: an alias that a module declares for itself is followed for ever when a
    call names it: however many steps are allowed, the call is not parsed. *)
Theorem alias_endless fuel :
  ∃ u, module_rec_handler ex_unit MODULE_CODE_ALIAS [2; 3; 0] = Ok u ∧
    resolve_alias fuel (iu_values u) 3 = Fail NoFuel ∧
    parse_call_or_invoke u [0; 0; 1] false = Fail NoFuel.
Proof.
  eexists. split; [vm_compute; reflexivity|]. split; [|vm_compute; reflexivity].
  induction fuel as [|fuel IH]; [reflexivity|]. exact IH.
Qed.
