(* ===== verification/Calls.v ===== *)
(** [prepare_call] and [prepare_calls] of [src/src/vmir_transform.c]: the
    arguments of calls are moved to the end of the frame, where the callee
    finds its parameters. *)
From S2P Require Import Prelude Support Types Values ConstExpr VmOps Instr Emit RegAlloc Analysis Bitcode Unit.
Local Open Scope Z_scope.

(** ** State *)

(** The values, the functions ([if_used]) and [num_call_args]. *)
Record call_state := mk_calls {
  cs_values : value_state;
  cs_functions : list ir_function;
  cs_num_call_args : Z;
}.

Definition set_used (f : ir_function) : ir_function :=
  mk_func (if_type f) (if_name f) (if_isproto f) true (if_regframe_size f) (if_callarg_size f)
    (if_vmop f) (if_vmop_args f) (if_ext_func f) (if_num_bbs f) (if_bbs f).

(** [instr_bind_input]: a value is looked up; the link itself is not kept. *)
Definition instr_bind_input (vs : value_state) (vt : ir_valuetype) : res unit :=
  if vt_value vt =? -1 then Ok () else _ ← value_get vs (vt_value vt); Ok ().
Definition value_bind_return_value (vs : value_state) (value : Z) : res unit :=
  _ ← value_get vs value; Ok ().

(** ** One call *)

(** The loop that allocates [n] argument values, from number [num] on. *)
Fixpoint alloc_call_args (n : nat) (callargtype num : Z) (vs : value_state) : res value_state :=
  match n with
  | O => Ok vs
  | S n =>
      '(v, vs) ← value_alloc_temporary vs callargtype;
      iv ← value_get vs (Z.of_nat v);
      alloc_call_args n callargtype (num + 1) (value_set vs (Z.of_nat v) (set_precolored iv num))
  end.

(** What the loop over the arguments has so far: the values,
    [num_call_args], [total_slots], [stackgrowth], the instructions put before
    the call and the new arguments. *)
Record arg_state := mk_args {
  as_values : value_state;
  as_num : Z;
  as_slots : Z;
  as_growth : Z;
  as_before : list ir_instr;
  as_argv : list ir_valuetype;
}.

Section calls.
(** [call_arg_base] and [callargtype]. *)
Context (call_arg_base callargtype : Z).

Definition prepare_arg (s : arg_state) (a : ir_valuetype * Z) : res arg_state :=
  let '(v, copy_size) := a in
  slots ← value_regframe_slots (types_of (as_values s)) (vt_type v);
  let arg := call_arg_base + as_slots s in
  let total := as_slots s + slots in
  vs ← alloc_call_args (Z.to_nat (total - as_num s)) callargtype (as_num s) (as_values s);
  let num := Z.max total (as_num s) in
  _ ← instr_bind_input vs v;
  let new := mk_vt arg (vt_type v) in
  '(i, growth) ←
    (if negb (copy_size =? 0) then
       _ ← check (slots =? 1) AssertFail;
       _ ← value_bind_return_value vs arg;
       growth ← int_arith (as_growth s + copy_size);
       Ok (IR_IC_STACKCOPY v copy_size (mk_ret (mk_vt arg callargtype) []), growth)
     else if slots =? 2 then
       _ ← value_bind_return_value vs (arg + 1);
       _ ← value_bind_return_value vs arg;
       Ok (IR_IC_MOVE v (mk_ret (mk_vt (-2) (-1)) [mk_vt (arg + 1) callargtype; mk_vt arg callargtype]),
           as_growth s)
     else
       _ ← value_bind_return_value vs arg;
       Ok (IR_IC_MOVE v (mk_ret (mk_vt arg (vt_type v)) []), as_growth s));
  _ ← instr_bind_input vs new;
  Ok (mk_args vs num total growth (as_before s ++ [i]) (as_argv s ++ [new])).

(** The state, the instructions before the call, the call, and those after. *)
Definition prepare_call (st : call_state) (c : ir_call)
    : res (call_state * list ir_instr * ir_call * list ir_instr) :=
  _ ← instr_bind_input (cs_values st) (ca_callee c);
  a ← foldR prepare_arg (mk_args (cs_values st) (cs_num_call_args st) 0 0 [] [])
        (zip (ca_argv c) (ca_copy_sizes c));
  let fs := match value_function (as_values a) (vt_value (ca_callee c)) with
            | Some g => alter set_used (Z.to_nat g) (cs_functions st)
            | None => cs_functions st
            end in
  Ok (mk_calls (as_values a) fs (as_num a), as_before a,
      mk_call (ca_callee c) (ca_vmop c) (ca_normal_dest c) (ca_unwind_dest c) (as_argv a) (ca_copy_sizes c),
      if 0 <? as_growth a then [IR_IC_STACKSHRINK (as_growth a)] else []).

(** ** All calls *)

Fixpoint prepare_instrs (st : call_state) (l : list ir_instr) : res (call_state * list ir_instr) :=
  match l with
  | [] => Ok (st, [])
  | i :: l =>
      '(st, new) ← (match i with
                    | IR_IC_CALL c d =>
                        '(st, before, c, after) ← prepare_call st c; Ok (st, before ++ IR_IC_CALL c d :: after)
                    | IR_IC_INVOKE c d =>
                        '(st, before, c, after) ← prepare_call st c; Ok (st, before ++ IR_IC_INVOKE c d :: after)
                    | _ => Ok (st, [i])
                    end);
      '(st, l) ← prepare_instrs st l; Ok (st, new ++ l)
  end.

Definition prepare_block (s : call_state * list ir_bb) (bb : ir_bb) : res (call_state * list ir_bb) :=
  '(st, l) ← prepare_instrs s.1 (ib_instrs bb); Ok (st, s.2 ++ [mk_bb (ib_id bb) l]).
End calls.

Definition prepare_calls (vs : value_state) (fs : list ir_function) (bbs : list ir_bb)
    : res (call_state * list ir_bb) :=
  let call_arg_base := Z.of_nat (vs_next vs) in
  '(callargtype, ts) ← type_make (vs_types vs) IR_TYPE_INT32;
  foldR (prepare_block call_arg_base callargtype)
    (mk_calls (mk_vs (vs_values vs) (vs_next vs) ts) fs 0, []) bbs.

(** ** The calling convention *)

Lemma value_regframe_slots_range types t n : value_regframe_slots types t = Ok n → n = 1 ∨ n = 2.
Proof.
  unfold value_regframe_slots. intros H. inv_res. destruct a; inv_res; try (by left); try (by right); try done.
  destruct (_ <=? _); inv_res; [by left|by right].
Qed.

Lemma value_new_types vs f n vs' : value_new vs f = Ok (n, vs') → vs_types vs' = vs_types vs.
Proof.
  unfold value_new, value_append. intros H. case_bool_decide; inv_all; by simplify_eq.
Qed.

Lemma alloc_call_args_types n cat num vs vs' :
  alloc_call_args n cat num vs = Ok vs' → vs_types vs' = vs_types vs.
Proof.
  revert num vs; induction n as [|n IH]; intros num vs H; simpl in H; inv_all; [done|].
  apply IH in H. simpl in H. rewrite H. by eapply value_new_types.
Qed.

(** The slots of the first arguments, or parameters, of these types. *)
Definition slots_of (types : list ir_type) (t : Z) : Z :=
  match value_regframe_slots types t with Ok n => n | Fail _ => 0 end.
Definition slots_before (types : list ir_type) (l : list Z) (k : nat) : Z :=
  foldr (λ t n, slots_of types t + n) 0 (take k l).

Lemma slots_before_S types t l k : slots_before types (t :: l) (S k) = slots_of types t + slots_before types l k.
Proof. done. Qed.
Lemma slots_before_next types l k t :
  l !! k = Some t → slots_before types l (S k) = slots_before types l k + slots_of types t.
Proof.
  revert k; induction l as [|u l IH]; intros [|k] H; try done.
  - injection H as ->. unfold slots_before. simpl. lia.
  - rewrite (slots_before_S types u l (S k)), slots_before_S, (IH k H). lia.
Qed.
Lemma slots_of_nonneg types t : 0 <= slots_of types t.
Proof.
  unfold slots_of. destruct (value_regframe_slots types t) as [n|] eqn:E; [|lia].
  apply value_regframe_slots_range in E. lia.
Qed.
Lemma slots_before_mono types l k : 0 <= slots_before types l k <= slots_before types l (length l).
Proof.
  unfold slots_before. rewrite (take_ge l (length l)) by lia.
  revert k; induction l as [|t l IH]; intros [|k]; simpl; try lia.
  - pose proof (IH 0%nat). simpl in *. pose proof (slots_of_nonneg types t). lia.
  - pose proof (IH k). pose proof (slots_of_nonneg types t). lia.
Qed.

(** Where an instruction before the call writes: the lower of two slots has the
    higher number. *)
Definition arg_dest (i : ir_instr) : Z :=
  let d := instr_ret i in
  match ii_rets d with r :: _ => vt_value r | [] => vt_value (ii_ret d) end.
(** What it reads. *)
Definition arg_source (i : ir_instr) : option ir_valuetype :=
  match i with IR_IC_MOVE v _ | IR_IC_STACKCOPY v _ _ => Some v | _ => None end.

Lemma prepare_arg_spec base cat s v size s' :
  prepare_arg base cat s (v, size) = Ok s' →
  ∃ i, as_before s' = as_before s ++ [i] ∧ arg_source i = Some v ∧
    types_of (as_values s') = types_of (as_values s) ∧
    value_regframe_slots (types_of (as_values s)) (vt_type v) = Ok (slots_of (types_of (as_values s)) (vt_type v)) ∧
    as_slots s' = as_slots s + slots_of (types_of (as_values s)) (vt_type v) ∧
    arg_dest i = base + as_slots s' - 1 ∧ as_num s' = Z.max (as_slots s') (as_num s).
Proof.
  unfold prepare_arg. intros H. inv_res. unfold slots_of. rewrite Hm.
  apply value_regframe_slots_range in Hm as Hr.
  apply alloc_call_args_types in Hm0.
  destruct (negb (size =? 0)); [|destruct (Z.eqb_spec a 2)]; inv_all; simplify_eq;
    (eexists; split; [reflexivity|]; split; [reflexivity|]; split; [unfold types_of; simpl; by rewrite Hm0|]);
    (split; [done|]); simpl; unfold arg_dest; simpl; lia.
Qed.

(** All arguments of a call. *)
Lemma prepare_args_spec base cat l s s' :
  foldR (prepare_arg base cat) s l = Ok s' →
  let types := types_of (as_values s) in
  types_of (as_values s') = types ∧
  as_slots s' = as_slots s + slots_before types (map (λ a, vt_type a.1) l) (length l) ∧
  (as_num s <= as_num s') ∧ (l ≠ [] → as_slots s' <= as_num s') ∧
  ∃ ls, as_before s' = as_before s ++ ls ∧
    ∀ k v, map fst l !! k = Some v → ∃ i, ls !! k = Some i ∧ arg_source i = Some v ∧
      arg_dest i = base + as_slots s + slots_before types (map (λ a, vt_type a.1) l) (S k) - 1 ∧
      1 <= slots_of types (vt_type v).
Proof.
  revert s; induction l as [|[v size] l IH]; intros s H; simpl in H.
  - inv_res. intros types. split_and!; [done|unfold slots_before; simpl; lia|lia|done|].
    exists []. split; [by rewrite app_nil_r|done].
  - apply bind_Ok in H as (s1 & Hm & H). intros types. apply prepare_arg_spec in Hm as (i & H1 & H2 & H3 & H4 & H5 & H6 & H7).
    apply IH in H as (K1 & K2 & K3 & K3' & ls & K4 & K5). rewrite H3 in *. fold types in H4, H5, K1, K2, K5.
    cbn [map length fst snd]. rewrite slots_before_S.
    split; [done|]. split; [lia|]. split; [lia|]. split.
    { intros _. destruct l; [|by apply K3']. unfold slots_before in K2. simpl in K2. lia. }
    exists (i :: ls). split; [by rewrite K4, H1, <-app_assoc|]. intros [|k] w Hw; simpl in Hw.
    + injection Hw as <-. exists i. split; [done|]. split; [done|]. apply value_regframe_slots_range in H4.
      rewrite slots_before_S. unfold slots_before. simpl. lia.
    + destruct (K5 k w Hw) as (j & J1 & J2 & J3 & J4). exists j. split; [done|]. split; [done|].
      rewrite slots_before_S. lia.
Qed.

(** The registers of the parameters. *)
Lemma params_spec params vs reg0 vs' reg' :
  let types := types_of vs in
  foldR (λ s type, '(_, reg, vs) ← value_alloc_function_arg s.1 s.2 type; Ok (vs, reg)) (vs, reg0) params = Ok (vs', reg') →
  Z.of_nat (vs_next vs + length params) < 2 ^ 32 → reg0 <= 0 →
  - 2 ^ 31 <= reg0 - 4 * slots_before types params (length params) →
  (∀ i iv, (i < vs_next vs)%nat → vs_values vs !! i = Some (Some iv) → vs_values vs' !! i = Some (Some iv)) ∧
  ∀ k p, params !! k = Some p → ∃ iv, vs_values vs' !! (vs_next vs + k)%nat = Some (Some iv) ∧
    iv_class iv = IR_VC_REGFRAME ∧ iv_reg iv = Ok (reg0 - 4 * slots_before types params (S k)).
Proof.
  revert vs reg0. induction params as [|t params IH]; intros vs reg0 types H Hn Hr Hlow.
  { cbn [foldR] in H. inv_res. split; [done|]. intros k p Hk. by rewrite lookup_nil in Hk. }
  apply bind_Ok in H as ([vs1 reg1] & H1 & H). cbn [fst snd] in H1.
  unfold value_alloc_function_arg, value_regframe_size in H1. inv_all. simplify_eq.
  match goal with H : value_regframe_slots _ _ = Ok ?a |- _ => rename H into Hsl, a into sl end.
  match goal with H : value_new _ _ = _ |- _ => rename H into Hnew end.
  assert (slots_of types t = sl) as Hs by (unfold slots_of; unfold types, types_of; by rewrite Hsl).
  pose proof (value_regframe_slots_range _ _ _ Hsl) as H12.
  cbn [length] in *. apply value_new_spec in Hnew as Ha; [|lia]. pose proof (ap_n _ _ _ _ Ha) as ->.
  assert (types_of vs1 = types) as Ht by (unfold types, types_of; by rewrite (ap_types _ _ _ _ Ha)).
  pose proof (ap_next _ _ _ _ Ha) as Hnx. rewrite slots_before_S, Hs in Hlow.
  pose proof (slots_before_mono types params 0) as Hm1.
  apply IH in H as [K1 K2]; [|lia|lia|rewrite Ht; lia]. rewrite Ht in K2. split.
  - intros i iv Hi Hv. apply K1; [lia|]. rewrite (ap_other _ _ _ _ Ha) by lia. done.
  - intros [|k] p Hk.
    + injection Hk as <-. rewrite Nat.add_0_r. eexists. split; [apply K1; [lia|]; exact (ap_here _ _ _ _ Ha)|].
      split; [done|]. rewrite iv_reg_set_u32 by lia. f_equal. rewrite slots_before_S, Hs. unfold slots_before. simpl. lia.
    + destruct (K2 k p Hk) as (iv & I1 & I2 & I3). exists iv. rewrite Hnx in I1.
      rewrite Nat.add_succ_r. split; [done|]. split; [done|]. rewrite I3, (slots_before_S types t params (S k)), Hs. f_equal. lia.
Qed.

Lemma slots_before_same t1 t2 l1 l2 n :
  (∀ j a b, l1 !! j = Some a → l2 !! j = Some b → slots_of t1 a = slots_of t2 b) →
  (n <= length l1)%nat → (length l1 <= length l2)%nat → slots_before t1 l1 n = slots_before t2 l2 n.
Proof.
  revert l2 n; induction l1 as [|a l1 IH]; intros l2 [|n] Hs Hn Hl; try done; [simpl in Hn; lia|].
  destruct l2 as [|b l2]; [simpl in Hl; lia|]. simpl in Hn, Hl. rewrite !slots_before_S.
  rewrite (Hs 0%nat a b) by done. rewrite (IH l2 n); [done| |lia|lia]. intros j. apply (Hs (S j)).
Qed.

Lemma slots_before_le types l j k : (j <= k)%nat → slots_before types l j <= slots_before types l k.
Proof.
  intros H. revert l k H; induction j as [|j IH]; intros l k H.
  - unfold slots_before at 1. simpl. apply slots_before_mono.
  - destruct k as [|k]; [lia|]. destruct l as [|t l]; [done|]. rewrite !slots_before_S. pose proof (IH l k). lia.
Qed.

(** C10: caller and callee agree on where arguments are. The instruction put
    before a call for its [k]-th argument writes into the value whose place
    [finalize_call_args] puts, seen from the end of the caller's frame, where
    the callee's frame begins, exactly at the register that
    [function_prepare_parse] gives the [k]-th parameter. *)
Theorem calling_convention u g f ft u' st base cat c st' before c' after vs1 R vs2 size k v p :
  iu_functions u !! g = Some f → type_get (unit_types u) (if_type f) = Ok (T_FUNCTION ft) →
  function_prepare_parse u g = Ok u' →
  Z.of_nat (vs_next (iu_values u) + length (ft_parameters ft)) < 2 ^ 32 →
  prepare_call base cat st c = Ok (st', before, c', after) →
  length (ca_copy_sizes c) = length (ca_argv c) →
  (∀ j a q, ca_argv c !! j = Some a → ft_parameters ft !! j = Some q →
     slots_of (unit_types u) q = slots_of (types_of (cs_values st)) (vt_type a)) →
  (length (ft_parameters ft) <= length (ca_argv c))%nat →
  0 <= base → base + cs_num_call_args st' <= 2 ^ 31 →
  (∀ i, 0 <= i < cs_num_call_args st' → ∃ iv, value_get vs1 (base + i) = Ok iv) →
  0 <= R → R + cs_num_call_args st' * 4 < 2 ^ 31 →
  finalize_call_args vs1 R base (cs_num_call_args st') = Ok (vs2, size) →
  ca_argv c !! k = Some v → ft_parameters ft !! k = Some p →
  ∃ i arg par r, before !! k = Some i ∧ arg_source i = Some v ∧
    value_get vs2 (arg_dest i) = Ok arg ∧ iv_class arg = IR_VC_REGFRAME ∧
    vs_values (iu_values u') !! (vs_next (iu_values u) + k)%nat = Some (Some par) ∧
    iv_class par = IR_VC_REGFRAME ∧ iv_reg par = Ok r ∧ iv_reg arg = Ok (size + r).
Proof.
  intros Hg Hty Hprep Hn Hcall Hlen Hsame Hle Hbase Hmax Hv1 HR Hfr Hfin Hv Hp.
  unfold prepare_call in Hcall. inv_res. rename a0 into s. clear Hm.
  apply prepare_args_spec in Hm0 as (K1 & K2 & K3 & K3' & ls & K4 & K5). cbn [as_values as_slots as_before as_num] in *.
  cbn [cs_num_call_args] in *. set (types := types_of (cs_values st)) in *. set (ts := map vt_type (ca_argv c)).
  assert (zip (ca_argv c) (ca_copy_sizes c) ≠ [] ∧ map fst (zip (ca_argv c) (ca_copy_sizes c)) = ca_argv c ∧
    length (zip (ca_argv c) (ca_copy_sizes c)) = length ts ∧
    map (λ a : ir_valuetype * Z, vt_type a.1) (zip (ca_argv c) (ca_copy_sizes c)) = ts) as (Z0 & Z1 & Z2 & Z3).
  { assert (map fst (zip (ca_argv c) (ca_copy_sizes c)) = ca_argv c) as E by (apply fst_zip; lia).
    split_and!; [|done|unfold ts; rewrite length_map, length_zip_with; lia|unfold ts; rewrite <-E at 2; by rewrite map_map].
    intros E'. rewrite E' in E. simpl in E. by rewrite <-E in Hv. }
  rewrite Z1, Z3 in K5. rewrite Z2, Z3 in K2. pose proof (K3' Z0) as K6.
  assert (k < length (ca_argv c))%nat as Hk by by eapply lookup_lt_Some.
  assert (k < length (ft_parameters ft))%nat as Hkp by by eapply lookup_lt_Some.
  assert (∀ n, (n <= length (ft_parameters ft))%nat →
    slots_before (unit_types u) (ft_parameters ft) n = slots_before types ts n) as Hsb.
  { intros n Hn'. apply slots_before_same; [|done|unfold ts; by rewrite length_map].
    intros j a' b Ha Hb. unfold ts in Hb. apply list_lookup_fmap_Some in Hb as (x & -> & Hx). by apply (Hsame j). }
  pose proof (slots_before_mono types ts (S k)) as Hpos. pose proof (slots_before_mono types ts (length (ft_parameters ft))) as Hpos'.
  destruct (K5 k v Hv) as (i & I1 & I2 & I3 & I4).
  (* the callee *)
  unfold function_prepare_parse in Hprep. rewrite Hg in Hprep. cbn in Hprep. rewrite Hty in Hprep. cbn in Hprep.
  apply bind_Ok in Hprep as ([vs' reg'] & Hpar & Hprep). injection Hprep as <-.
  apply params_spec in Hpar as [_ Hpar]; [|exact Hn|done|]; cycle 1.
  { change (types_of (iu_values u)) with (unit_types u). rewrite Hsb by lia. lia. }
  destruct (Hpar k p Hp) as (par & P1 & P2 & P3). change (types_of (iu_values u)) with (unit_types u) in P3. rewrite Hsb in P3 by lia.
  (* the caller *)
  assert (slots_before types ts (S k) = slots_before types ts k + slots_of types (vt_type v)) as Hnx.
  { apply slots_before_next. unfold ts. by rewrite list_lookup_fmap, Hv. }
  pose proof (slots_before_mono types ts k) as Hpk.
  set (idx := slots_before types ts (S k) - 1) in *.
  assert (slots_before types ts (length ts) <= as_num s) as Hle' by lia.
  destruct (finalize_call_args_spec vs1 R base (as_num s)) as (w & W1 & _ & W2 & _); [lia|done|lia|exact Hv1|].
  rewrite W1 in Hfin. injection Hfin as -> <-.
  assert (0 <= idx < as_num s) as Hidx by lia.
  destruct (Hv1 idx Hidx) as (iv & Hiv). specialize (W2 idx iv Hidx Hiv).
  exists i, (set_u32 (set_class iv IR_VC_REGFRAME) (R + as_num s * 4 - (idx + 1) * 4)), par,
    (0 - 4 * slots_before types ts (S k)).
  split; [by rewrite K4|]. split; [done|]. split; [by replace (arg_dest i) with (base + idx) by lia|].
  split; [done|]. split; [done|]. split; [done|]. split; [done|].
  rewrite iv_reg_set_u32 by lia. f_equal. lia.
Qed.

(** ** An example *)

(** A call with an [int], a 64-bit [int] and an [int]; value 0 is the callee. *)
Definition example_call_types : type_state := mk_types [T_INT32; T_INT64; T_FUNCTION (mk_ftype [0; 1; 0] 0 0)] false None.
Definition example_temp (t : Z) : option ir_value := Some (mk_value IR_VC_TEMPORARY t (U_word 0) D_none (-1)).
Definition example_call_values : value_state :=
  mk_vs [Some (mk_value IR_VC_FUNCTION 2 (U_func 0) D_none 0); example_temp 0; example_temp 1; example_temp 0]
    4 example_call_types.
Definition example_callee : ir_function := mk_func 2 None false false 0 0 0 0 None 0 [].
Definition example_callee_unit : ir_unit := set_functions (set_values initial_unit example_call_values) [example_callee] [0%nat].
Definition example_call : ir_call := mk_call (mk_vt 0 2) 0 (-1) (-1) [mk_vt 1 0; mk_vt 2 1; mk_vt 3 0] [0; 0; 0].
Definition example_calls : call_state := mk_calls example_call_values [example_callee] 0.

Definition from_res {A} (d : A) (r : res A) : A := match r with Ok a => a | Fail _ => d end.
Definition example_prepared : call_state * list ir_instr * ir_call * list ir_instr :=
  from_res (example_calls, [], example_call, []) (prepare_call 4 0 example_calls example_call).
Definition example_final : value_state :=
  (from_res (example_call_values, 0) (finalize_call_args (cs_values example_prepared.1.1.1) 24 4 4)).1.
Definition example_parsed_unit : ir_unit := from_res initial_unit (function_prepare_parse example_callee_unit 0).

Lemma calling_convention_witness :
  ∃ arg par, value_get example_final 6 = Ok arg ∧ iv_reg arg = Ok 28 ∧
    vs_values (iu_values example_parsed_unit) !! 5%nat = Some (Some par) ∧ iv_reg par = Ok (-12) ∧
    example_prepared.1.1.2 !! 1%nat = Some (IR_IC_MOVE (mk_vt 2 1) (mk_ret (mk_vt (-2) (-1)) [mk_vt 6 0; mk_vt 5 0])).
Proof.
  destruct (calling_convention example_callee_unit 0 example_callee (mk_ftype [0; 1; 0] 0 0) example_parsed_unit
    example_calls 4 0 example_call example_prepared.1.1.1 example_prepared.1.1.2 example_prepared.1.2 example_prepared.2
    (cs_values example_prepared.1.1.1) 24 example_final 40 1 (mk_vt 2 1) 1)
    as (i & arg & par & r & H1 & _ & H2 & _ & H3 & _ & H4 & H5).
  1-4: vm_compute; reflexivity.
  1-2: vm_compute; reflexivity.
  - intros [|[|[|j]]] a q Ha Hq; try done; vm_compute in Ha, Hq; injection Ha as <-; injection Hq as <-; reflexivity.
  - simpl; lia.
  - lia.
  - vm_compute. discriminate.
  - intros k Hk. change (0 <= k < 4) in Hk. assert (k = 0 ∨ k = 1 ∨ k = 2 ∨ k = 3) as [->|[->|[->| ->]]] by lia;
      eexists; vm_compute; reflexivity.
  - lia.
  - vm_compute. reflexivity.
  - vm_compute. reflexivity.
  - reflexivity.
  - reflexivity.
  - vm_compute in H1. injection H1 as <-. vm_compute in H3. injection H3 as <-. vm_compute in H4. injection H4 as <-.
    exists arg. eexists. split; [exact H2|]. split; [exact H5|]. split; [vm_compute; reflexivity|].
    split; vm_compute; reflexivity.
Defined.
