(* ===== verification/Replace.v ===== *)
(** [replace_instructions] of [src/src/vmir_transform.c]: the first pass over
    a parsed function. GEPs become LEAs, addresses move into loads and stores,
    operands that must be registers get moves. *)
From S2P Require Import Prelude Support Types Values ConstExpr VmOps Instr Emit RegAlloc Bitcode Unit Calls.
Local Open Scope Z_scope.

(** ** Operands in registers *)

(** The instruction that is put before, and the operand. *)
Definition registerify (vs : value_state) (vtp : ir_valuetype)
    : res (value_state * list ir_instr * ir_valuetype) :=
  v ← value_get vs (vt_value vtp);
  match iv_class v with
  | IR_VC_TEMPORARY | IR_VC_REGFRAME => Ok (vs, [], vtp)
  | IR_VC_GLOBALVAR | IR_VC_CONSTANT =>
      '(n, vs) ← value_alloc_temporary vs (iv_type v);
      let r := mk_vt (Z.of_nat n) (iv_type v) in
      Ok (vs, [IR_IC_MOVE vtp (mk_ret r [])], r)
  | _ => Fail ParserError
  end.

(** ** GEP *)

Definition no_offset : ir_valuetype := mk_vt (-1) (-1).

(** [type_make_pointer] on the types of the values. *)
Definition make_pointer_type (vs : value_state) (type : Z) : Z * value_state :=
  let '(t, ts) := type_make_pointer (vs_types vs) type true in
  (t, mk_vs (vs_values vs) (vs_next vs) ts).

(** The instructions before the GEP, and the address so far. *)
Definition emit_interim_lea (vs : value_state) (baseptr value_offset : ir_valuetype)
    (value_offset_multiply type : Z) : res (value_state * list ir_instr * ir_valuetype) :=
  let '(type, vs) := make_pointer_type vs type in
  '(n, vs) ← value_alloc_temporary vs type;
  '(vs, move, baseptr) ← registerify vs baseptr;
  let ret := mk_vt (Z.of_nat n) type in
  Ok (vs, move ++ [IR_IC_LEA baseptr 0 value_offset value_offset_multiply (mk_ret ret [])], ret).

(** The variables of the loop of [replace_gep_with_lea]. *)
Record gep_state := mk_gs {
  gs_values : value_state;
  gs_before : list ir_instr;
  gs_baseptr : ir_valuetype;
  gs_immediate_offset : Z;
  gs_value_offset : ir_valuetype;
  gs_multiply : Z;
}.

Definition gs_imm (s : gep_state) (off : Z) : gep_state :=
  mk_gs (gs_values s) (gs_before s) (gs_baseptr s) off (gs_value_offset s) (gs_multiply s).

(** [immediate_offset += value_get_const32(iu, op) * type_sizeof(...)]. *)
Definition gep_constant (s : gep_state) (op : ir_value) (type : Z) : res gep_state :=
  let types := types_of (gs_values s) in
  c ← value_get_const32 types op;
  size ← type_sizeof types type;
  Ok (gs_imm s (s32 (u32 (gs_immediate_offset s) + u32 (c * size)))).

Definition gep_variable (s : gep_state) (v : ir_valuetype) (type : Z) : res gep_state :=
  size ← type_sizeof (types_of (gs_values s)) type;
  Ok (mk_gs (gs_values s) (gs_before s) (gs_baseptr s) (gs_immediate_offset s) v (s32 size)).

(** Only one register fits into an LEA: an earlier one is added first. *)
Definition gep_interim (s : gep_state) (type : Z) : res gep_state :=
  if vt_value (gs_value_offset s) =? -1 then Ok s
  else
    '(vs, lea, baseptr) ← emit_interim_lea (gs_values s) (gs_baseptr s) (gs_value_offset s) (gs_multiply s) type;
    Ok (mk_gs vs (gs_before s ++ lea) baseptr (gs_immediate_offset s) (gs_value_offset s) (gs_multiply s)).

Definition gep_step (s : gep_state) (g : ir_gep_index) : res gep_state :=
  let types := types_of (gs_values s) in
  cur ← type_get types (gep_type g);
  op ← value_get (gs_values s) (vt_value (gep_value g));
  match cur with
  | T_POINTER pointee =>
      match iv_class op with
      | IR_VC_CONSTANT => gep_constant s op pointee
      | IR_VC_TEMPORARY | IR_VC_REGFRAME =>
          _ ← check (vt_value (gs_value_offset s) =? -1) Aborted;
          gep_variable s (gep_value g) pointee
      | _ => Fail ParserError
      end
  | T_STRUCT st =>
      match iv_class op with
      | IR_VC_CONSTANT =>
          x ← value_get_const32 types op;
          let x := s32 x in
          _ ← check (x <? Z.of_nat (length (st_elements st))) ParserError;
          _ ← check (0 <=? x) Undef;
          '(_, offset) ← oget (st_elements st !! Z.to_nat x) Undef;
          offset ← oget offset Undef;
          off ← int_arith (gs_immediate_offset s + offset);
          Ok (gs_imm s off)
      | _ => Fail ParserError
      end
  | T_ARRAY _ et =>
      s ← (match iv_class op with
           | IR_VC_CONSTANT => gep_constant s op et
           | IR_VC_TEMPORARY | IR_VC_REGFRAME =>
               s ← gep_interim s (gep_type g);
               gep_variable s (gep_value g) et
           | _ => Fail ParserError
           end);
      _ ← type_get (types_of (gs_values s)) et; Ok s
  | _ => Fail ParserError
  end.

Definition replace_gep_with_lea (vs : value_state) (baseptr : ir_valuetype) (indicies : list ir_gep_index)
    (ret : ir_ret) : res (value_state * list ir_instr * ir_instr) :=
  s ← foldR gep_step (mk_gs vs [] baseptr 0 no_offset 0) indicies;
  _ ← value_bind_return_value (gs_values s) (vt_value (ii_ret ret));
  '(vs, move, baseptr) ← registerify (gs_values s) (gs_baseptr s);
  Ok (vs, gs_before s ++ move,
      IR_IC_LEA baseptr (gs_immediate_offset s) (gs_value_offset s) (gs_multiply s) (mk_ret (ii_ret ret) [])).

(** ** Addresses of loads and stores *)

(** [value_get_assigning_instr]: [code] are the instructions of the function,
    of which one at most has the value as its result. *)
Definition value_get_assigning_instr (code : list ir_instr) (v : Z) : option ir_instr :=
  snd <$> list_find (λ i, vt_value (ii_ret (instr_ret i)) = v) code.

Definition fits_int16 (off : Z) : bool := (INT16_MIN <=? off) && (off <=? INT16_MAX).

Definition merge_lea_into_store (vs : value_state) (code : list ir_instr) (ptr value : ir_valuetype) (off : Z)
    : res ir_instr :=
  _ ← value_get vs (vt_value ptr);
  match value_get_assigning_instr code (vt_value ptr) with
  | Some (IR_IC_LEA baseptr imm vo _ _) =>
      if negb (vt_value vo =? -1) then Ok (IR_IC_STORE ptr value off) else
      _ ← check (off =? 0) AssertFail;
      Ok (if fits_int16 imm then IR_IC_STORE (mk_vt (vt_value baseptr) (vt_type ptr)) value imm
          else IR_IC_STORE ptr value off)
  | _ => Ok (IR_IC_STORE ptr value off)
  end.

Definition merge_lea_into_load (vs : value_state) (code : list ir_instr) (l : ir_load) : res ir_load :=
  _ ← value_get vs (vt_value (ld_ptr l));
  match value_get_assigning_instr code (vt_value (ld_ptr l)) with
  | Some (IR_IC_LEA baseptr imm vo mul _) =>
      _ ← check (ld_immediate_offset l =? 0) AssertFail;
      if fits_int16 imm then
        _ ← check (vt_value (ld_value_offset l) <? 0) AssertFail;
        Ok (mk_load (mk_vt (vt_value baseptr) (vt_type (ld_ptr l))) (ld_immediate_offset l + imm) vo mul
              (ld_cast l) (ld_load_type l))
      else Ok l
  | _ => Ok l
  end.

(** ** Stores of constant aggregates *)

(** Element [i] of what is stored: of an aggregate, or zero. *)
Definition aggregate_value (vs : value_state) (values : option (list (Z * Z))) (i : nat) (type : Z)
    : res (value_state * ir_valuetype) :=
  match values with
  | Some l => '(v, t) ← oget (l !! i) Undef; Ok (vs, mk_vt v t)
  | None => '(n, vs) ← value_create_zero vs type; Ok (vs, mk_vt (Z.of_nat n) type)
  end.

(** The stores of the elements from [i] on. The table of types must not grow:
    [it] points into it. *)
Fixpoint store_elements (ntypes : nat) (vs : value_state) (values : option (list (Z * Z))) (ptr off : Z)
    (i : nat) (elements : list (Z * option Z)) : res (value_state * list ir_instr) :=
  match elements with
  | [] => Ok (vs, [])
  | (type, offset) :: elements =>
      offset ← oget offset Undef;
      off' ← int_arith (off + offset);
      let '(t, vs) := make_pointer_type vs type in
      _ ← check (bool_decide (length (types_of vs) = ntypes)) Undef;
      '(vs, v) ← aggregate_value vs values i type;
      '(vs, l) ← store_elements ntypes vs values ptr off (S i) elements;
      Ok (vs, IR_IC_STORE (mk_vt ptr t) v off' :: l)
  end.

(** What the store becomes: a store for each element of the structure. *)
Definition split_const_store_aggregate (vs : value_state) (ptr value : ir_valuetype) (off : Z)
    : res (value_state * list ir_instr) :=
  iv ← value_get vs (vt_value value);
  let split values :=
    it ← type_get (types_of vs) (vt_type value);
    match it with
    | T_STRUCT st =>
        _ ← check (bool_decide (st_elements st ≠ [])) Undef;
        store_elements (length (types_of vs)) vs values (vt_value ptr) off 0 (st_elements st)
    | _ => Fail Undef
    end in
  match iv_class iv with
  | IR_VC_AGGREGATE =>
      match iv_data iv with D_values l => split (Some l) | _ => Fail Undef end
  | IR_VC_ZERO_INITIALIZER => split None
  | _ => Ok (vs, [IR_IC_STORE ptr value off])
  end.

(** ** Single PHIs, casts *)

Definition replace_single_path_phi (vs : value_state) (nodes : list ir_phi_node) (ret : ir_ret) : res ir_instr :=
  match nodes with
  | [n] =>
      _ ← value_bind_return_value vs (vt_value (ii_ret ret));
      Ok (IR_IC_MOVE (phi_value n) (mk_ret (ii_ret ret) []))
  | _ => Ok (IR_IC_PHI nodes ret)
  end.

(** Whether a cast only copies. *)
Definition cast_copies (op : Z) (srcty dstty : ir_type) : bool :=
  match cast_of op with
  | Some CAST_BITCAST =>
      bool_decide (it_code srcty = IR_TYPE_POINTER ∧ it_code dstty = IR_TYPE_POINTER)
  | Some CAST_INTTOPTR => bool_decide (it_code srcty = IR_TYPE_INT32)
  | Some CAST_PTRTOINT => bool_decide (it_code dstty = IR_TYPE_INT32)
  | Some CAST_TRUNC => bool_decide (legalize_type dstty = legalize_type srcty)
  | _ => false
  end.

Definition binop_transform_cast (vs : value_state) (op : Z) (value : ir_valuetype) (ret : ir_ret) : res ir_instr :=
  srcty ← type_get (types_of vs) (vt_type value);
  dstty ← type_get (types_of vs) (vt_type (ii_ret ret));
  Ok (if cast_copies op srcty dstty then IR_IC_MOVE value ret else IR_IC_CAST op value ret).

(** ** Calls of functions that are instructions *)

Section replace.
(** The functions, and [if_callarg_size] of the function itself. *)
Context (fs : list ir_function) (self_callarg_size : Z).

(** The arguments of a VM instruction, in registers. *)
Fixpoint vmop_args (vs : value_state) (args : list (ir_valuetype * Z))
    : res (value_state * list ir_instr * list ir_valuetype) :=
  match args with
  | [] => Ok (vs, [], [])
  | (v, copy_size) :: args =>
      _ ← check (copy_size =? 0) ParserError;
      '(vs, move, v) ← registerify vs v;
      '(vs, moves, l) ← vmop_args vs args;
      Ok (vs, move ++ moves, v :: l)
  end.

(** [va_start] gets the size of the arguments as its second argument; the new
    call has no result. *)
Definition va_start (vs : value_state) (c : ir_call) : res (value_state * ir_call) :=
  '(n, type, vs) ← value_create_const32 vs self_callarg_size;
  v ← oget (head (ca_argv c)) Undef;
  size ← oget (head (ca_copy_sizes c)) Undef;
  Ok (vs, mk_call (ca_callee c) 0 0 0 [v; mk_vt (Z.of_nat n) type] [size; 0]).

(** What is put before, and the instruction that is looked at next; [None] is
    the one that follows. The branch after an invoke is not changed when it is
    looked at. *)
Definition replace_call (vs : value_state) (invoke : bool) (c : ir_call) (ret : ir_ret)
    : res (value_state * list ir_instr * option ir_instr) :=
  let same := Ok (vs, [], Some (if invoke then IR_IC_INVOKE c ret else IR_IC_CALL c ret)) in
  match value_function vs (vt_value (ca_callee c)) with
  | None => same
  | Some g =>
      f ← oget (fs !! Z.to_nat g) Undef;
      if if_vmop f =? 0 then same
      else if if_vmop f =? vm_opcode VM_NOP then Ok (vs, [], None)
      else
        '(vs, c, ret, invoke) ←
          (if if_vmop f =? vm_opcode VM_VASTART then
             '(vs, c) ← va_start vs c; Ok (vs, c, no_ret, false)
           else Ok (vs, c, ret, invoke));
        let n := Z.to_nat (if_vmop_args f) in
        _ ← check (if_vmop_args f <=? Z.of_nat (length (ca_argv c))) ParserError;
        '(vs, moves, args) ← vmop_args vs (take n (zip (ca_argv c) (ca_copy_sizes c)));
        let op := IR_IC_VMOP (mk_call (ca_callee c) (if_vmop f) (ca_normal_dest c) (ca_unwind_dest c)
                                args (take n (ca_copy_sizes c))) ret in
        if invoke : bool then Ok (vs, moves ++ [op], Some (IR_IC_BR (mk_vt (-1) 0) (ca_normal_dest c) 0))
        else Ok (vs, moves, Some op)
  end.

(** ** The pass *)

(** The tests up to the one for PHIs. *)
Definition replace_early (code : list ir_instr) (vs : value_state) (i : ir_instr)
    : res (value_state * list ir_instr * ir_instr) :=
  match i with
  | IR_IC_GEP b l d => replace_gep_with_lea vs b l d
  | IR_IC_STORE p v off =>
      i ← merge_lea_into_store vs code p v off;
      match i with
      | IR_IC_STORE p v off =>
          '(vs, l) ← split_const_store_aggregate vs p v off;
          e ← oget (list.last l) Undef; Ok (vs, removelast l, e)
      | _ => Fail Undef
      end
  | IR_IC_LOAD l d => l ← merge_lea_into_load vs code l; Ok (vs, [], IR_IC_LOAD l d)
  | IR_IC_PHI nodes d => i ← replace_single_path_phi vs nodes d; Ok (vs, [], i)
  | _ => Ok (vs, [], i)
  end.

Definition replace_calls (vs : value_state) (i : ir_instr)
    : res (value_state * list ir_instr * option ir_instr) :=
  match i with
  | IR_IC_CALL c d => replace_call vs false c d
  | IR_IC_INVOKE c d => replace_call vs true c d
  | _ => Ok (vs, [], Some i)
  end.

(** The tests after the one for calls. *)
Definition replace_late (vs : value_state) (i : ir_instr)
    : res (value_state * list ir_instr) :=
  match i with
  | IR_IC_BINOP op l r d =>
      '(vs, move, l) ← registerify vs l; Ok (vs, move ++ [IR_IC_BINOP op l r d])
  | IR_IC_CAST op v d => i ← binop_transform_cast vs op v d; Ok (vs, [i])
  | _ => Ok (vs, [i])
  end.

(** The instructions of a block: [done] are those before, [before] and [after]
    the other blocks. *)
Fixpoint replace_instrs (before after : list ir_instr) (vs : value_state) (done l : list ir_instr)
    : res (value_state * list ir_instr) :=
  match l with
  | [] => Ok (vs, done)
  | i :: l =>
      '(vs, l1, i) ← replace_early (before ++ done ++ i :: l ++ after) vs i;
      '(vs, l2, next) ← replace_calls vs i;
      match next with
      | Some i =>
          '(vs, l3) ← replace_late vs i;
          replace_instrs before after vs (done ++ l1 ++ l2 ++ l3) l
      | None =>
          match l with
          | [] => Fail Undef
          | i :: l =>
              '(vs, l3) ← replace_late vs i;
              replace_instrs before after vs (done ++ l1 ++ l2 ++ l3) l
          end
      end
  end.

Fixpoint replace_blocks (vs : value_state) (done bbs : list ir_bb) : res (value_state * list ir_bb) :=
  match bbs with
  | [] => Ok (vs, done)
  | bb :: bbs =>
      '(vs, l) ← replace_instrs (concat (map ib_instrs done)) (concat (map ib_instrs bbs)) vs [] (ib_instrs bb);
      replace_blocks vs (done ++ [mk_bb (ib_id bb) l]) bbs
  end.

Definition replace_instructions (vs : value_state) (bbs : list ir_bb) : res (value_state * list ir_bb) :=
  replace_blocks vs [] bbs.
End replace.

(** ** The address of a GEP *)

Section address.
(** The values and the types by which constants are read, and the contents of
    registers as 32-bit words. *)
Context (vs0 : value_state) (types : list ir_type).
Notation env := (Z → Z).

Definition is_const (c : ir_value_class) : bool :=
  match c with IR_VC_CONSTANT | IR_VC_GLOBALVAR => true | _ => false end.

Definition operand (ρ : env) (v : Z) : Z :=
  if v <? Z.of_nat (vs_next vs0) then
    match vs_values vs0 !! Z.to_nat v with
    | Some (Some iv) =>
        if is_const (iv_class iv) then
          match value_get_const32 types iv with Ok c => c | Fail _ => 0 end
        else ρ v
    | _ => ρ v
    end
  else ρ v.

Definition assign (ρ : env) (v x : Z) : env := λ k, if k =? v then x else ρ k.

(** What an LEA computes: see [exec_lea]. *)
Definition lea_offset (ρ : env) (vo : ir_valuetype) (multiply : Z) : Z :=
  if vt_value vo =? -1 then 0 else ρ (vt_value vo) * multiply.
Definition lea_address (ρ : env) (baseptr : ir_valuetype) (imm : Z) (vo : ir_valuetype) (multiply : Z) : Z :=
  u32 (operand ρ (vt_value baseptr) + imm + lea_offset ρ vo multiply).

Definition run_one (ρ : env) (i : ir_instr) : env :=
  match i with
  | IR_IC_MOVE v d => assign ρ (vt_value (ii_ret d)) (operand ρ (vt_value v))
  | IR_IC_LEA b imm vo mul d => assign ρ (vt_value (ii_ret d)) (lea_address ρ b imm vo mul)
  | _ => ρ
  end.
Definition run (ρ : env) (l : list ir_instr) : env := fold_left run_one l ρ.

(** What an index adds to an address: it counts elements of what a pointer
    points to or of an array, or it names the element of a structure. *)
Definition index_offset (ρ : env) (g : ir_gep_index) : res Z :=
  cur ← type_get types (gep_type g);
  let x := operand ρ (vt_value (gep_value g)) in
  match cur with
  | T_POINTER t | T_ARRAY _ t => size ← type_sizeof types t; Ok (x * size)
  | T_STRUCT st =>
      '(_, offset) ← oget (st_elements st !! Z.to_nat (s32 x)) Undef; oget offset Undef
  | _ => Fail ParserError
  end.
Fixpoint gep_offset (ρ : env) (l : list ir_gep_index) : res Z :=
  match l with
  | [] => Ok 0
  | g :: l => o ← index_offset ρ g; r ← gep_offset ρ l; Ok (o + r)
  end.

(** ** Tables that only grow *)

Record grown (vs : value_state) : Prop := {
  gr_next : (vs_next vs0 <= vs_next vs)%nat;
  gr_values i : (i < vs_next vs0)%nat → vs_values vs !! i = vs_values vs0 !! i;
}.

Lemma grown_appended vs n iv vs' : grown vs → appended vs n iv vs' → grown vs'.
Proof.
  intros [H1 H2] Ha. pose proof (ap_n _ _ _ _ Ha). pose proof (ap_next _ _ _ _ Ha). split; [lia|].
  intros i Hi. rewrite (ap_other _ _ _ _ Ha) by lia. by apply H2.
Qed.
End address.

Lemma value_new_next vs f n vs' : value_new vs f = Ok (n, vs') → vs_next vs' = S (vs_next vs) ∧ n = vs_next vs.
Proof.
  unfold value_new, value_append. intros H. case_bool_decide; inv_all; by simplify_eq.
Qed.

(** Types are only added. *)
Lemma make_pointer_grows vs type t vs' :
  make_pointer_type vs type = (t, vs') →
  vs_values vs' = vs_values vs ∧ vs_next vs' = vs_next vs ∧ types_of vs `prefix_of` types_of vs'.
Proof.
  unfold make_pointer_type, type_make_pointer. destruct (find_type _ _ _); intros [= <- <-]; simpl.
  - done.
  - split; [done|]. split; [done|]. by eexists.
Qed.

Lemma type_get_prefix t t' id ty : t `prefix_of` t' → type_get t id = Ok ty → type_get t' id = Ok ty.
Proof.
  unfold type_get. intros [k ->] H. inv_res. by rewrite (lookup_app_l_Some _ _ _ _ H).
Qed.

Lemma type_sizeof_fuel_prefix n n' t t' ty s :
  t `prefix_of` t' → (n <= n')%nat → type_sizeof_fuel n t ty = Ok s → type_sizeof_fuel n' t' ty = Ok s.
Proof.
  intros Ht. revert n' ty s; induction n as [|n IH]; intros n' ty s Hn H; [done|].
  destruct n' as [|n']; [lia|]. destruct ty; try done. cbn [type_sizeof_fuel] in *. inv_res.
  rewrite (type_get_prefix _ _ _ _ Ht Hm). rok. rewrite (IH n' _ _ ltac:(lia) Hm0). done.
Qed.

Lemma type_sizeof_prefix t t' id s : t `prefix_of` t' → type_sizeof t id = Ok s → type_sizeof t' id = Ok s.
Proof.
  unfold type_sizeof, type_sizeof_ptr. intros Ht H. inv_res. rewrite (type_get_prefix _ _ _ _ Ht Hm). rok.
  eapply type_sizeof_fuel_prefix; [exact Ht| |exact H]. apply prefix_length in Ht. lia.
Qed.

Lemma value_get_const32_prefix t t' iv c :
  t `prefix_of` t' → value_get_const32 t iv = Ok c → value_get_const32 t' iv = Ok c.
Proof. unfold value_get_const32. intros Ht H. inv_res. by rewrite (type_get_prefix _ _ _ _ Ht Hm). Qed.

(** Equal as 32-bit words. *)
Definition eqm (a b : Z) : Prop := ∃ k, a = b + k * 2 ^ 32.
Lemma eqm_u32 a : eqm (u32 a) a.
Proof. exists (- (a / 2 ^ 32)). unfold wrap. pose proof (Z.div_mod a (2 ^ 32)). lia. Qed.
Lemma eqm_s32 a : eqm (s32 a) a.
Proof.
  destruct (eqm_u32 a) as [k Hk]. unfold sgn. destruct (_ <? _); [by exists k|]. exists (k - 1). lia.
Qed.
Lemma eqm_mul a b c : eqm b c → eqm (a * b) (a * c).
Proof. intros [k ->]. exists (a * k). ring. Qed.
Lemma eqm_wrap a b : eqm a b → u32 a = u32 b.
Proof. intros [k ->]. unfold wrap. by rewrite Z_mod_plus_full. Qed.

Lemma registerify_spec vs v vs' l v' :
  registerify vs v = Ok (vs', l, v') → Z.of_nat (vs_next vs') < 2 ^ 32 →
  ∃ iv, value_get vs (vt_value v) = Ok iv ∧
    ((iv_class iv = IR_VC_TEMPORARY ∨ iv_class iv = IR_VC_REGFRAME) ∧ vs' = vs ∧ l = [] ∧ v' = v ∨
     is_const (iv_class iv) = true ∧ vt_value v' = Z.of_nat (vs_next vs) ∧
     l = [IR_IC_MOVE v (mk_ret v' [])] ∧ ∃ iv', appended vs (vs_next vs) iv' vs').
Proof.
  unfold registerify, value_alloc_temporary. intros H Hn. inv_res. exists a. split; [done|].
  destruct (iv_class a) eqn:Hc; inv_all; simplify_eq; try (left; split; [by auto|done]); right;
    (match goal with Hv : value_new _ _ = _ |- _ =>
      pose proof (value_new_next _ _ _ _ Hv) as [E1 E2]; apply value_new_spec in Hv; [|lia]; subst end);
    (split; [done|]; split; [done|]; split; [done|]; by eexists).
Qed.

Section gep.
Context (vs0 : value_state) (types : list ir_type) (ρ0 : Z → Z) (base0 : ir_valuetype).
Notation n0 := (Z.of_nat (vs_next vs0)).
Notation operand := (operand vs0 types).
Notation run := (run vs0 types).

Lemma operand_below ρ v : (∀ k, k < n0 → ρ k = ρ0 k) → v < n0 → operand ρ v = operand ρ0 v.
Proof.
  intros Hs Hv. unfold Replace.operand. destruct (v <? n0); [|by apply Hs].
  destruct (vs_values vs0 !! Z.to_nat v) as [[iv|]|]; [|by apply Hs..]. destruct (is_const _); [done|by apply Hs].
Qed.

Lemma operand_above ρ v : n0 <= v → operand ρ v = ρ v.
Proof. intros Hv. unfold Replace.operand. by rewrite (proj2 (Z.ltb_ge _ _)). Qed.

(** Reading an old value in a grown table. *)
Lemma grown_get vs v iv :
  grown vs0 vs → n0 < 2 ^ 32 → 0 <= v < n0 → value_get vs v = Ok iv → vs_values vs0 !! Z.to_nat v = Some (Some iv).
Proof.
  intros [_ Hg] Hn Hv H. apply value_get_lookup in H. rewrite wrap_small in H by lia. by rewrite <-(Hg (Z.to_nat v)) by lia.
Qed.

Lemma operand_constant ρ v iv c :
  0 <= v < n0 → vs_values vs0 !! Z.to_nat v = Some (Some iv) → is_const (iv_class iv) = true →
  value_get_const32 types iv = Ok c → operand ρ v = c.
Proof. intros Hv E Hc Hr. unfold Replace.operand. rewrite (proj2 (Z.ltb_lt _ _)) by lia. by rewrite E, Hc, Hr. Qed.
Lemma operand_register ρ v iv :
  0 <= v < n0 → vs_values vs0 !! Z.to_nat v = Some (Some iv) → is_const (iv_class iv) = false → operand ρ v = ρ v.
Proof. intros Hv E Hc. unfold Replace.operand. rewrite (proj2 (Z.ltb_lt _ _)) by lia. by rewrite E, Hc. Qed.

(** A base is an old value or the result of an interim LEA. *)
Definition base_ok (vs : value_state) (b : Z) : Prop :=
  0 <= b < n0 ∨ n0 <= b < Z.of_nat (vs_next vs) ∧
    ∃ iv, vs_values vs !! Z.to_nat b = Some (Some iv) ∧ iv_class iv = IR_VC_TEMPORARY.

Record gep_inv (sum : Z) (s : gep_state) : Prop := {
  gi_grown : grown vs0 (gs_values s);
  gi_same v : v < n0 → run ρ0 (gs_before s) v = ρ0 v;
  gi_base : base_ok (gs_values s) (vt_value (gs_baseptr s));
  gi_offset : vt_value (gs_value_offset s) = -1 ∨ 0 <= vt_value (gs_value_offset s) < n0;
  gi_address :
    eqm (operand (run ρ0 (gs_before s)) (vt_value (gs_baseptr s)) + gs_immediate_offset s +
         lea_offset (run ρ0 (gs_before s)) (gs_value_offset s) (gs_multiply s))
        (operand ρ0 (vt_value base0) + sum);
}.

(** The base in a register: the same address, old values kept. *)
Lemma base_in_register vs b vs' l b' ρ :
  registerify vs b = Ok (vs', l, b') → grown vs0 vs → base_ok vs (vt_value b) → Z.of_nat (vs_next vs') < 2 ^ 32 →
  (∀ v, v < n0 → ρ v = ρ0 v) →
  grown vs0 vs' ∧ types_of vs' = types_of vs ∧ (vs_next vs <= vs_next vs')%nat ∧
  operand (run ρ l) (vt_value b') = operand ρ (vt_value b) ∧
  (∀ v, v < Z.of_nat (vs_next vs) → run ρ l v = ρ v) ∧
  (∀ i, (i < vs_next vs)%nat → vs_values vs' !! i = vs_values vs !! i).
Proof.
  intros H Hg Hb Hn Hs. apply registerify_spec in H as (iv & Hiv & [(Hc & -> & -> & ->)|(Hc & Hv & -> & iv' & Ha)]); [|..|done].
  { by split_and!. }
  pose proof (ap_next _ _ _ _ Ha) as Hnx. pose proof (grown_appended _ _ _ _ _ Hg Ha) as Hg'.
  split_and!; [done|unfold types_of; by rewrite (ap_types _ _ _ _ Ha)|lia| | |].
  - cbn. unfold assign. pose proof (gr_next _ _ Hg). rewrite Hv. rewrite (operand_above _ (Z.of_nat (vs_next vs))) by lia.
    by rewrite Z.eqb_refl.
  - intros v Hlt. cbn. unfold assign. rewrite Hv. by destruct (Z.eqb_spec v (Z.of_nat (vs_next vs))); [lia|].
  - intros i Hi. apply (ap_other _ _ _ _ Ha). lia.
Qed.

Lemma base_ok_grows vs vs' b :
  base_ok vs b → (vs_next vs <= vs_next vs')%nat →
  (∀ i, (i < vs_next vs)%nat → vs_values vs' !! i = vs_values vs !! i) → base_ok vs' b.
Proof.
  intros [H|(H & iv & Hi & Hc)] Hn Hv; [by left|right]. split; [lia|]. exists iv. by rewrite Hv by lia.
Qed.

Lemma interim_spec vs b vo mul type vs' l ret ρ :
  emit_interim_lea vs b vo mul type = Ok (vs', l, ret) → grown vs0 vs → base_ok vs (vt_value b) →
  Z.of_nat (vs_next vs') < 2 ^ 32 → (∀ v, v < n0 → ρ v = ρ0 v) → 0 <= vt_value vo < n0 →
  grown vs0 vs' ∧ types_of vs `prefix_of` types_of vs' ∧ base_ok vs' (vt_value ret) ∧
  (∀ v, v < n0 → run ρ l v = ρ0 v) ∧
  operand (run ρ l) (vt_value ret) = u32 (operand ρ (vt_value b) + ρ0 (vt_value vo) * mul).
Proof.
  unfold emit_interim_lea. intros H Hg Hb Hn Hs Hvo. destruct (make_pointer_type vs type) as [t vs1] eqn:Hp.
  apply make_pointer_grows in Hp as (P1 & P2 & P3). unfold value_alloc_temporary in H. inv_all. simplify_eq.
  match goal with Hv : value_new _ _ = Ok (?k, ?w), Hr : registerify ?w _ = _ |- _ =>
    rename Hv into Hnew, Hr into Hreg, w into vs2, k into n end.
  pose proof (value_new_next _ _ _ _ Hnew) as [E1 ->].
  assert (vs_next vs2 <= vs_next vs')%nat as Hle.
  { unfold registerify, value_alloc_temporary in Hreg. inv_res. destruct (iv_class _); inv_all; simplify_eq; try lia.
    - match goal with Hv : value_new _ _ = _ |- _ => apply value_new_next in Hv end. lia.
    - match goal with Hv : value_new _ _ = _ |- _ => apply value_new_next in Hv end. lia. }
  apply value_new_spec in Hnew as Ha; [|lia]. rewrite P2 in *.
  pose proof (gr_next _ _ Hg) as Hge.
  assert (grown vs0 vs2) as Hg2.
  { split; [lia|]. intros k Hk. rewrite (ap_other _ _ _ _ Ha) by lia. rewrite P1. by apply (gr_values _ _ Hg). }
  assert (base_ok vs2 (vt_value b)) as Hb2.
  { eapply base_ok_grows; [exact Hb|lia|]. intros k Hk. rewrite (ap_other _ _ _ _ Ha) by lia. by rewrite P1. }
  destruct (base_in_register _ _ _ _ _ ρ Hreg Hg2 Hb2 Hn Hs) as (G1 & G2 & G3 & G4 & G5 & G6).
  split; [done|]. split; [rewrite G2; unfold types_of in *; by rewrite (ap_types _ _ _ _ Ha)|]. split; [|split].
  - right. cbn [vt_value]. split; [lia|]. rewrite Nat2Z.id. eexists. rewrite G6 by lia. split; [exact (ap_here _ _ _ _ Ha)|done].
  - intros v Hv. unfold Replace.run. rewrite fold_left_app. cbn. unfold assign.
    destruct (Z.eqb_spec v (Z.of_nat (vs_next vs))); [lia|]. fold (run ρ l0). rewrite G5 by lia. by apply Hs.
  - cbn [vt_value]. unfold Replace.run. rewrite fold_left_app. cbn. rewrite operand_above by lia. unfold assign.
    rewrite Z.eqb_refl. unfold lea_address, lea_offset. fold (run ρ l0). rewrite G4.
    destruct (Z.eqb_spec (vt_value vo) (-1)); [lia|]. rewrite G5 by lia. rewrite Hs by lia. f_equal. lia.
Qed.
End gep.
(** Nothing is lost on the way. *)
Definition wider (vs vs' : value_state) : Prop :=
  (vs_next vs <= vs_next vs')%nat ∧ types_of vs `prefix_of` types_of vs'.
Lemma wider_refl vs : wider vs vs.
Proof. by split. Qed.
Lemma wider_trans vs1 vs2 vs3 : wider vs1 vs2 → wider vs2 vs3 → wider vs1 vs3.
Proof. intros [A1 B1] [A2 B2]. split; [lia|by etrans]. Qed.
#[local] Hint Resolve wider_refl : core.

Lemma registerify_wider vs v vs' l v' : registerify vs v = Ok (vs', l, v') → wider vs vs'.
Proof.
  unfold registerify, value_alloc_temporary, value_new, value_append, value_set. intros H. inv_res.
  destruct (iv_class a); repeat (case_bool_decide || inv_all); simplify_eq; try done; split; simpl; (lia || done).
Qed.

Lemma emit_interim_wider vs b vo mul type vs' l ret :
  emit_interim_lea vs b vo mul type = Ok (vs', l, ret) → wider vs vs'.
Proof.
  unfold emit_interim_lea. intros H. destruct (make_pointer_type vs type) as [t vs1] eqn:Hp.
  apply make_pointer_grows in Hp as (P1 & P2 & P3). inv_all. simplify_eq.
  match goal with Hr : registerify _ _ = _ |- _ => apply registerify_wider in Hr; eapply wider_trans; [|exact Hr] end.
  match goal with Hv : value_alloc_temporary _ _ = _ |- _ => rename Hv into Hm1 end.
  unfold value_alloc_temporary, value_new, value_append, value_set in Hm1. repeat (case_bool_decide || inv_all); simplify_eq.
  all: split; simpl; [lia|done].
Qed.

Lemma gep_constant_values s op t s' : gep_constant s op t = Ok s' → gs_values s' = gs_values s.
Proof. unfold gep_constant. intros H. inv_res. by simplify_eq. Qed.
Lemma gep_variable_values s op t s' : gep_variable s op t = Ok s' → gs_values s' = gs_values s.
Proof. unfold gep_variable. intros H. inv_res. by simplify_eq. Qed.

Lemma gep_step_wider s g s' : gep_step s g = Ok s' → wider (gs_values s) (gs_values s').
Proof.
  unfold gep_step. intros H. inv_res. destruct a; try done.
  all: destruct (iv_class a0); try done; inv_all; simplify_eq; try apply wider_refl.
  all: try (match goal with Hv : gep_constant _ _ _ = _ |- _ => by rewrite (gep_constant_values _ _ _ _ Hv) end).
  all: match goal with Hv : gep_variable _ _ _ = _ |- _ => rewrite (gep_variable_values _ _ _ _ Hv) end.
  all: unfold gep_interim in *; try case_match; inv_all; simplify_eq; try apply wider_refl; simpl; by eapply emit_interim_wider.
Qed.

Lemma eqm_sum a b : eqm (s32 (u32 a + u32 b)) (a + b).
Proof. destruct (eqm_s32 (u32 a + u32 b)) as [k1 ->], (eqm_u32 a) as [k2 ->], (eqm_u32 b) as [k3 ->]. exists (k1 + k2 + k3). ring. Qed.

(** ** The loop over the indices *)

Ltac gsn := cbn [gs_values gs_before gs_baseptr gs_immediate_offset gs_value_offset gs_multiply gs_imm].

Section steps.
Context (vs0 : value_state) (types : list ir_type) (ρ0 : Z → Z) (base0 : ir_valuetype).
Notation n0 := (Z.of_nat (vs_next vs0)).
Notation operand := (operand vs0 types).
Notation run := (run vs0 types).
Notation gep_inv := (gep_inv vs0 types ρ0 base0).

(** [gep_inv] where nothing but a constant is to be added to the base. *)
Record based (sum : Z) (s : gep_state) : Prop := {
  bs_grown : grown vs0 (gs_values s);
  bs_same v : v < n0 → run ρ0 (gs_before s) v = ρ0 v;
  bs_base : base_ok vs0 (gs_values s) (vt_value (gs_baseptr s));
  bs_address :
    eqm (operand (run ρ0 (gs_before s)) (vt_value (gs_baseptr s)) + gs_immediate_offset s) (operand ρ0 (vt_value base0) + sum);
}.

Lemma gep_inv_based sum s : gep_inv sum s → vt_value (gs_value_offset s) = -1 → based sum s.
Proof.
  intros [? ? ? _ Ha] Hv. split; try done. unfold lea_offset in Ha. rewrite Hv in Ha. cbn in Ha. by rewrite Z.add_0_r in Ha.
Qed.

Lemma gep_constant_spec sum s op t s' :
  gep_constant s op t = Ok s' → gep_inv sum s → types_of (gs_values s) `prefix_of` types →
  ∃ c size, value_get_const32 types op = Ok c ∧ type_sizeof types t = Ok size ∧ gep_inv (sum + c * size) s'.
Proof.
  unfold gep_constant. intros H [? ? ? ? [k Ha]] Ht. inv_res. simplify_eq.
  exists a, a0. split; [by eapply value_get_const32_prefix|]. split; [by eapply type_sizeof_prefix|].
  split; try done. gsn. destruct (eqm_sum (gs_immediate_offset s) (a * a0)) as [k' ->]. exists (k + k'). lia.
Qed.

Lemma gep_variable_spec sum s v t s' :
  gep_variable s v t = Ok s' → based sum s → types_of (gs_values s) `prefix_of` types → 0 <= vt_value v < n0 →
  ∃ size, type_sizeof types t = Ok size ∧ gep_inv (sum + ρ0 (vt_value v) * size) s'.
Proof.
  unfold gep_variable. intros H [? Hs ? [k Ha]] Ht Hv. inv_res. simplify_eq.
  exists a. split; [by eapply type_sizeof_prefix|]. split; gsn; try done; [by right|].
  unfold lea_offset. destruct (Z.eqb_spec (vt_value v) (-1)); [lia|]. rewrite Hs by lia.
  destruct (eqm_mul (ρ0 (vt_value v)) _ _ (eqm_s32 a)) as [k' ->]. exists (k + k'). lia.
Qed.

(** With an interim LEA when a register has been added already. *)
Lemma interim_based sum s vs lea b type :
  emit_interim_lea (gs_values s) (gs_baseptr s) (gs_value_offset s) (gs_multiply s) type = Ok (vs, lea, b) →
  gep_inv sum s → vt_value (gs_value_offset s) ≠ -1 → Z.of_nat (vs_next vs) < 2 ^ 32 →
  based sum (mk_gs vs (gs_before s ++ lea) b (gs_immediate_offset s) (gs_value_offset s) (gs_multiply s)).
Proof.
  intros H [Hg Hs Hb Ho [k Ha]] Hv Hn. assert (0 <= vt_value (gs_value_offset s) < n0) as Hvo by (destruct Ho; [done|lia]).
  destruct (interim_spec vs0 types ρ0 _ _ _ _ _ _ _ _ _ H Hg Hb Hn Hs Hvo) as (G1 & _ & G3 & G4 & G5).
  split; gsn; [done| |done|].
  - intros v Hlt. unfold Replace.run. rewrite fold_left_app. by apply G4.
  - unfold Replace.run. rewrite fold_left_app. fold (run ρ0 (gs_before s)). fold (run (run ρ0 (gs_before s)) lea). rewrite G5.
    match goal with |- context [u32 ?x] => destruct (eqm_u32 x) as [k' ->] end.
    unfold lea_offset in Ha. destruct (Z.eqb_spec (vt_value (gs_value_offset s)) (-1)); [done|]. rewrite Hs in Ha by lia.
    exists (k + k'). lia.
Qed.

Lemma array_base sum s type s1 :
  gep_interim s type = Ok s1 →
  gep_inv sum s → Z.of_nat (vs_next (gs_values s1)) < 2 ^ 32 → based sum s1.
Proof.
  unfold gep_interim. intros H Hi Hn. destruct (Z.eqb_spec (vt_value (gs_value_offset s)) (-1)); [simplify_eq; by apply gep_inv_based|].
  inv_all. simplify_eq. by eapply interim_based.
Qed.

(** What an index that is a constant or a register counts for. *)
Lemma index_constant s v op c ρ :
  grown vs0 (gs_values s) → n0 < 2 ^ 32 → 0 <= v < n0 → value_get (gs_values s) v = Ok op → iv_class op = IR_VC_CONSTANT →
  value_get_const32 types op = Ok c → operand ρ v = c.
Proof.
  intros Hg Hn Hv Hop Hc Hr. eapply operand_constant; [done|by eapply grown_get| |done]. by rewrite Hc.
Qed.
Lemma index_register s v op ρ :
  grown vs0 (gs_values s) → n0 < 2 ^ 32 → 0 <= v < n0 → value_get (gs_values s) v = Ok op →
  iv_class op = IR_VC_TEMPORARY ∨ iv_class op = IR_VC_REGFRAME → operand ρ v = ρ v.
Proof.
  intros Hg Hn Hv Hop Hc. eapply operand_register; [done|by eapply grown_get|]. by destruct Hc as [-> | ->].
Qed.

(** An index that counts elements of type [t]. *)
Notation counted t v sum s' :=
  (∃ o, (size ← type_sizeof types t; Ok (operand ρ0 v * size)) = Ok o ∧ gep_inv (sum + o) s').

Lemma count_constant sum s v op t s' :
  gep_constant s op t = Ok s' → gep_inv sum s → types_of (gs_values s) `prefix_of` types → n0 < 2 ^ 32 → 0 <= v < n0 →
  value_get (gs_values s) v = Ok op → iv_class op = IR_VC_CONSTANT → counted t v sum s'.
Proof.
  intros H Hi Ht Hn Hv Hop Hc. destruct (gep_constant_spec _ _ _ _ _ H Hi Ht) as (c & size & Hr & Hz & Hi').
  rewrite Hz. rok. rewrite (index_constant _ _ _ _ ρ0 (gi_grown _ _ _ _ _ _ Hi) Hn Hv Hop Hc Hr). by eexists.
Qed.

Lemma count_register sum s s1 v op t s' :
  gep_variable s1 v t = Ok s' → based sum s1 → types_of (gs_values s1) `prefix_of` types → n0 < 2 ^ 32 →
  0 <= vt_value v < n0 → grown vs0 (gs_values s) → value_get (gs_values s) (vt_value v) = Ok op →
  iv_class op = IR_VC_TEMPORARY ∨ iv_class op = IR_VC_REGFRAME → counted t (vt_value v) sum s'.
Proof.
  intros H Hb Ht Hn Hv Hg Hop Hc. destruct (gep_variable_spec _ _ _ _ _ H Hb Ht Hv) as (size & Hz & Hi').
  rewrite Hz. rok. rewrite (index_register _ _ _ ρ0 Hg Hn Hv Hop Hc). by eexists.
Qed.

Lemma gep_step_inv sum s g s' :
  gep_step s g = Ok s' → gep_inv sum s → 0 <= vt_value (gep_value g) < n0 →
  Z.of_nat (vs_next (gs_values s')) < 2 ^ 32 → types_of (gs_values s') `prefix_of` types →
  ∃ o, index_offset vs0 types ρ0 g = Ok o ∧ gep_inv (sum + o) s'.
Proof.
  intros H Hi Hv Hn Ht. pose proof (gep_step_wider _ _ _ H) as [En Et].
  pose proof (gi_grown _ _ _ _ _ _ Hi) as Hg. pose proof (gr_next _ _ Hg).
  unfold gep_step in H. inv_res. unfold index_offset.
  rewrite (type_get_prefix _ types _ _ (transitivity Et Ht) Hm). rok.
  destruct a as [st| | | | | | | | | |n et|p| | | |]; try done.
  - (* structure *)
    destruct (iv_class a0) eqn:Hc; try done. inv_all. simplify_eq.
    match goal with Hx : value_get_const32 _ _ = Ok ?c, Hi : int_arith _ = Ok ?y |- _ =>
      rename Hx into Hk; apply int_arith_inv in Hi as [-> _] end.
    rewrite (index_constant _ _ _ _ ρ0 Hg ltac:(lia) Hv Hm0 Hc (value_get_const32_prefix _ _ _ _ Ht Hk)).
    match goal with Hl : st_elements st !! _ = _ |- _ => rewrite Hl end. rok. eexists. split; [done|].
    destruct Hi as [? ? ? ? [k Ha]]. split; gsn; try done. exists k. lia.
  - (* array *)
    inv_res. simplify_eq.
    assert (∀ s1, gep_interim s (gep_type g) = Ok s1 →
            gep_variable s1 (gep_value g) et = Ok s' →
            iv_class a0 = IR_VC_TEMPORARY ∨ iv_class a0 = IR_VC_REGFRAME → counted et (vt_value (gep_value g)) sum s') as Hr.
    { intros s1 H1 H2 Hc. pose proof (gep_variable_values _ _ _ _ H2) as E. rewrite E in *.
      eapply count_register; try done; [by eapply array_base|lia]. }
    destruct (iv_class a0) eqn:Hc; try done; inv_res; [eapply count_constant; try done; [by etrans|lia]|..];
      eapply Hr; (eassumption || auto).
  - (* pointer *)
    destruct (iv_class a0) eqn:Hc; try done; inv_res; [eapply count_constant; try done; [by etrans|lia]|..].
    all: match goal with Hz : (vt_value _ =? -1) = true |- _ => apply Z.eqb_eq in Hz end.
    all: eapply count_register; try done; [by apply gep_inv_based|by etrans|lia|auto].
Qed.
End steps.

Section gep_correct.
Context (vs0 : value_state) (ρ0 : Z → Z) (base0 : ir_valuetype).
Notation n0 := (Z.of_nat (vs_next vs0)).

Lemma gep_fold_wider l s s' : foldR gep_step s l = Ok s' → wider (gs_values s) (gs_values s').
Proof.
  revert s; induction l as [|g l IH]; intros s H; simpl in H; inv_res; [by simplify_eq; apply wider_refl|].
  eapply wider_trans; [by eapply gep_step_wider|by apply IH].
Qed.

Lemma gep_fold_inv types l s s' sum :
  foldR gep_step s l = Ok s' → gep_inv vs0 types ρ0 base0 sum s →
  Forall (λ g, 0 <= vt_value (gep_value g) < n0) l →
  Z.of_nat (vs_next (gs_values s')) < 2 ^ 32 → types_of (gs_values s') `prefix_of` types →
  ∃ o, gep_offset vs0 types ρ0 l = Ok o ∧ gep_inv vs0 types ρ0 base0 (sum + o) s'.
Proof.
  intros H Hi Hl Hn Ht. revert s sum H Hi; induction Hl as [|g l Hg Hl IH]; intros s sum H Hi.
  - simpl in H. inv_res. simplify_eq. exists 0. by rewrite Z.add_0_r.
  - cbn [foldR] in H. apply bind_Ok in H as (s1 & H1 & H2). pose proof (gep_fold_wider _ _ _ H2) as [En Et].
    destruct (gep_step_inv _ _ _ _ _ _ _ _ H1 Hi Hg ltac:(lia) (transitivity Et Ht)) as (o1 & Ho1 & Hi1).
    destruct (IH _ _ H2 Hi1) as (o2 & Ho2 & Hi2). exists (o1 + o2). cbn [gep_offset]. rewrite Ho1. rok. rewrite Ho2. rok.
    split; [done|]. by rewrite Z.add_assoc.
Qed.

Lemma gep_inv_start types : 0 <= vt_value base0 < n0 → gep_inv vs0 types ρ0 base0 0 (mk_gs vs0 [] base0 0 no_offset 0).
Proof.
  intros Hb. split; gsn; try done; [by left|by left|]. exists 0. cbn. unfold lea_offset. simpl. lia.
Qed.
End gep_correct.

(** C9: a GEP is replaced by an LEA with moves and LEAs before it. When they
    run, the result of the GEP is its base plus the sum of what its indices
    count for, as a 32-bit word: elements of what a pointer points to or of an
    array, or the place of an element of a structure, with constants and
    registers in any order and number. No other old value changes. *)
Theorem gep_address_correct vs b l ret vs' before i ρ :
  replace_gep_with_lea vs b l ret = Ok (vs', before, i) →
  0 <= vt_value b < Z.of_nat (vs_next vs) → Forall (λ g, 0 <= vt_value (gep_value g) < Z.of_nat (vs_next vs)) l →
  Z.of_nat (vs_next vs') < 2 ^ 32 →
  let ρ' := run vs (types_of vs') ρ (before ++ [i]) in
  (∃ off, gep_offset vs (types_of vs') ρ l = Ok off ∧
     ρ' (vt_value (ii_ret ret)) = u32 (operand vs (types_of vs') ρ (vt_value b) + off)) ∧
  ∀ v, v < Z.of_nat (vs_next vs) → v ≠ vt_value (ii_ret ret) → ρ' v = ρ v.
Proof.
  intros H Hb Hl Hn ρ'. unfold replace_gep_with_lea in H. apply bind_Ok in H as (s & Hf & H). inv_all. simplify_eq.
  match goal with Hr : registerify _ _ = _ |- _ => rename Hr into Hreg end.
  pose proof (registerify_wider _ _ _ _ _ Hreg) as [En Et].
  destruct (gep_fold_inv vs ρ b (types_of vs') _ _ _ _ Hf (gep_inv_start _ _ _ _ Hb) Hl ltac:(lia) Et) as (o & Ho & [Hg Hs Hbo Hvo Ha]).
  destruct (base_in_register vs (types_of vs') ρ _ _ _ _ _ _ Hreg Hg Hbo Hn Hs) as (_ & _ & _ & G4 & G5 & _).
  pose proof (gr_next _ _ Hg) as Hge.
  assert (lea_offset (run vs (types_of vs') ρ (gs_before s ++ l0)) (gs_value_offset s) (gs_multiply s) =
          lea_offset (run vs (types_of vs') ρ (gs_before s)) (gs_value_offset s) (gs_multiply s)) as Hlo.
  { unfold lea_offset. destruct (Z.eqb_spec (vt_value (gs_value_offset s)) (-1)); [done|].
    unfold run at 1. rewrite fold_left_app. f_equal. apply G5. destruct Hvo; lia. }
  split.
  - exists o. split; [done|]. unfold ρ', run at 1. rewrite fold_left_app. cbn [fold_left run_one].
    unfold assign. cbn [ii_ret]. rewrite Z.eqb_refl. unfold lea_address. fold (run vs (types_of vs') ρ (gs_before s ++ l0)).
    rewrite Hlo. apply eqm_wrap. unfold run at 1. rewrite fold_left_app.
    fold (run vs (types_of vs') ρ (gs_before s)). fold (run vs (types_of vs') (run vs (types_of vs') ρ (gs_before s)) l0).
    by rewrite G4.
  - intros v Hv Hne. unfold ρ', run. rewrite !fold_left_app. cbn. unfold assign. destruct (Z.eqb_spec v (vt_value (ii_ret ret))); [done|].
    fold (run vs (types_of vs') ρ (gs_before s)). fold (run vs (types_of vs') (run vs (types_of vs') ρ (gs_before s)) l0).
    rewrite G5 by lia. by apply Hs.
Qed.

(** ** An example *)

(** [&p[x][y].second] for [p] of type [struct { int first, second; } ( * )[4]]:
    values 0 to 4 are [p], 1, [x], [y] and the result. *)
Definition example_gep_types : type_state :=
  mk_types [T_INT32; T_STRUCT (mk_struct None [(0, Some 0); (0, Some 4)] false (Some (8, 4))); T_ARRAY 4 1; T_POINTER 2; T_POINTER 0]
    false None.
Definition example_gep_values : value_state :=
  mk_vs [example_temp 3; Some (mk_value IR_VC_CONSTANT 0 (U_u32 1) D_none (-1)); example_temp 0; example_temp 0; example_temp 4]
    5 example_gep_types.
Definition example_gep : list ir_gep_index := [mk_gep (mk_vt 2 0) 3; mk_gep (mk_vt 3 0) 2; mk_gep (mk_vt 1 0) 1].
Definition example_env (v : Z) : Z := if v =? 0 then 4096 else if v =? 2 then 5 else if v =? 3 then 3 else 0.
Definition example_replaced : value_state * list ir_instr * ir_instr :=
  from_res (example_gep_values, [], IR_IC_UNREACHABLE)
    (replace_gep_with_lea example_gep_values (mk_vt 0 3) example_gep (mk_ret (mk_vt 4 4) [])).

Lemma gep_address_correct_witness :
  example_replaced.1.2 = [IR_IC_LEA (mk_vt 0 3) 0 (mk_vt 2 0) 32 (mk_ret (mk_vt 5 3) [])] ∧
  run example_gep_values (types_of example_replaced.1.1) example_env (example_replaced.1.2 ++ [example_replaced.2]) 4 =
    4096 + 5 * 32 + 3 * 8 + 4.
Proof.
  split; [vm_compute; reflexivity|].
  destruct (gep_address_correct example_gep_values (mk_vt 0 3) example_gep (mk_ret (mk_vt 4 4) [])
    example_replaced.1.1 example_replaced.1.2 example_replaced.2 example_env) as [(off & Ho & Hr) _].
  - vm_compute. reflexivity.
  - simpl. lia.
  - unfold example_gep. repeat constructor; simpl; lia.
  - vm_compute. reflexivity.
  - cbn [ii_ret vt_value] in Hr. rewrite Hr. vm_compute in Ho. injection Ho as <-. vm_compute. reflexivity.
Defined.

(** ** What follows a call of [llvm.invariant.start] *)

(** C40: the instruction after a call of [llvm.invariant.start] takes the place
    of the call in the loop over the instructions, behind the tests for GEPs,
    stores, loads, PHIs and calls: whatever it is, unless a binary operator or
    a cast, it stays as it was. *)
Theorem nop_call_skips_next fs size before after vs done c d i l g f :
  value_function vs (vt_value (ca_callee c)) = Some g → fs !! Z.to_nat g = Some f → if_vmop f = vm_opcode VM_NOP →
  match i with IR_IC_BINOP _ _ _ _ | IR_IC_CAST _ _ _ => False | _ => True end →
  replace_instrs fs size before after vs done (IR_IC_CALL c d :: i :: l) =
  replace_instrs fs size before after vs (done ++ [i]) l.
Proof.
  intros Hg Hf Hop Hi.
  assert (replace_calls fs size vs (IR_IC_CALL c d) = Ok (vs, [], None)) as E.
  { unfold replace_calls, replace_call. rewrite Hg, Hf. rok. by rewrite Hop. }
  cbn [replace_instrs replace_early]. rok. rewrite E. rok. destruct i; try contradiction; reflexivity.
Qed.

Definition example_nop : ir_function := mk_func 2 None false false 0 0 (vm_opcode VM_NOP) 2 None 0 [].
Definition example_nop_values : value_state :=
  mk_vs (vs_values example_gep_values ++ [Some (mk_value IR_VC_FUNCTION 2 (U_func 0) D_none 0)]) 6 example_gep_types.
Definition example_skipped : list ir_instr :=
  [IR_IC_CALL (mk_call (mk_vt 5 2) 0 (-1) (-1) [mk_vt 1 0; mk_vt 0 3] [0; 0]) no_ret;
   IR_IC_GEP (mk_vt 0 3) example_gep (mk_ret (mk_vt 4 4) [])].

Lemma nop_call_skips_next_witness :
  replace_instrs [example_nop] 0 [] [] example_nop_values [] example_skipped =
    Ok (example_nop_values, [IR_IC_GEP (mk_vt 0 3) example_gep (mk_ret (mk_vt 4 4) [])]) ∧
  (∃ r, replace_instrs [example_nop] 0 [] [] example_nop_values [] (tail example_skipped) = Ok r ∧ length r.2 = 2%nat).
Proof.
  split; [|eexists; split; [vm_compute; reflexivity|vm_compute; reflexivity]].
  unfold example_skipped. rewrite (nop_call_skips_next _ _ _ _ _ _ _ _ _ _ 0 example_nop); done.
Defined.
